(* ===== verification/_CoqProject ===== *)
-Q . S2P
Prelude.v
Util.v
Sync.v
Errors.v
Iter.v
Canonical.v
SetTrie.v
LabelIndex.v
Api.v
PprUtil.v
Quota.v
RetryBatch.v
Pool.v
Informer.v
Watch.v
PoolAdapter.v
Handler.v
Aggregator.v
AggregatorCorrect.v
Generator.v
GeneratorCorrect.v
Monitor.v
Flags.v
Observe.v
Metrics.v
Component.v
ComponentCorrect.v
Handles.v
Mux.v
Wiring.v
Worker.v
Controller.v
GeneratorSetup.v
Process.v
System.v
Recovery.v
WellFormed.v
Meters.v
MetersCorrect.v
Logs.v
Http.v
Kube.v
