(* ===== verification/Prelude.v ===== *)
(** * Podseidon: a verification development

    Podseidon keeps pods available while they are deleted by several, possibly faulty, controllers
    in several clusters. A [PodProtector] object in a core cluster states how many pods of a
    selector must be available. Three processes work on it:
    - the webhook (src/webhook) reviews every pod deletion and eviction of a cell, the cluster of
      the pods; it admits a deletion only if enough pods are left, and records each admission in
      the status of the PodProtector, in the admission history of the cell;
    - the aggregator (src/aggregator), one per cell, counts the pods of the cell into the status
      and removes the admissions that its counts account for;
    - the generator (src/generator) creates, updates and deletes PodProtectors for Deployments, and
      keeps the Deployments alive until their PodProtectors are gone.
    Their common code is in src/util. They meet in the status of the PodProtector only: its
    summary, computed from the counts and the histories of all cells, is what the webhook decides on.

    ** The files

    Shared by all:
    - [Prelude]: outcomes of Go computations (a value or a panic), integers at their width, the
      choices of the Go runtime (order of maps, unstable sort), lists, automation;
    - [Util]: src/util/optional, src/util/util, src/util/haschange; [Sync]: src/util/util/sync.go; [Errors]: src/util/errors;
      [Iter]: src/util/iter and src/util/sort.
    The index of PodProtectors by the pods that they select (src/util/labelindex):
    - [Canonical]: canonical label sets and selectors, and matching;
    - [SetTrie]: words of selectors and the trie that finds all stored subsets (and supersets) of a word;
    - [LabelIndex]: the class [Index] with its contract [IndexSpec], and its instances for sets, for
      selectors, per namespace, and under a lock.
    The objects and the webhook:
    - [Api]: src/apis/v1alpha1/types.go and src/util/pod; [PprUtil]: src/util/podprotector/podprotector.go
      (summary and compaction) and src/util/defaultconfig;
    - [Quota]: src/webhook/handler/disruptionquota (admission of a batch);
    - [RetryBatch] and [Pool]: src/util/retrybatch, first the work on one batch, then the
      concurrency of [Submit] and of the goroutines;
    - [Informer] and [Watch]: src/util/podprotector/informer.go and multi_informer.go, first the index of one source, then the
      informer over the sources that come and go;
    - [PoolAdapter]: src/webhook/handler/pool_adapter.go (a batch against a PodProtector);
    - [Handler]: src/webhook/handler/handler.go and interpreter.go, src/webhook/server/server.go.
    The other processes:
    - [Aggregator], [AggregatorCorrect]: src/aggregator/aggregator and src/aggregator/synctime; [Controller]: how the
      aggregator is set up;
    - [Generator], [GeneratorCorrect]: src/generator/generator and src/generator/resource; [GeneratorSetup]: how the
      generator is set up, with the events that it gets (src/util/kube/util.go);
    - [Monitor]: src/generator/monitor.
    What a process consists of:
    - [Flags]: src/util/flag; [Observe]: src/util/o11y (observers and how they are joined); [Metrics]: src/util/o11y/metrics
      (tags, registration and emission, unique counters);
    - [Component], [ComponentCorrect]: src/util/component/interface.go, which resolves, sorts and trims components;
      [Handles]: the handles that components have to each other (declare.go); [Mux]: mux.go, interfaces with an implementation
      that a flag selects; [Wiring]: all components of the repository, with their dependencies and flags, and the four entry points;
    - [Worker]: src/util/worker (the workers of a work queue); [Process]: src/util/shutdown, src/util/kube/leaderelection.go, the phases
      of src/util/component/declare.go and src/util/cmd, src/webhook/cellclient, src/aggregator/updatetrigger;
    - [Meters], [MetersCorrect]: the observers that fill in metrics (observer/metrics.go of every component, src/util/kube/metrics),
      on top of [Metrics], and all registrations of a process; [Logs]: the observers that log (observer/logging.go, src/util/o11y/klog);
    - [Http]: src/util/http, with the routes of the webhook, of health checks, of metrics and of pprof; [Kube]: src/util/kube
      (clients, recorders of events, electors as components, and informers that start with a lease).
    All together:
    - [System]: batches of the webhook, reconciliations of the aggregators and the writes of the
      generator as steps on one PodProtector of the API server, each on any version that an informer may still have;
    - [Recovery]: a round in which every aggregator reconciles the current version once, and what the webhook grants after it;
    - [WellFormed]: what all of them keep true of a status.

    Definitions keep the names of the source, in a module per package or file. A part of a function
    that is a definition of its own here (the body of a loop, a closure) is named after what it does.

    ** Conventions

    A pure function of Go is a function; one that may panic has an [outcome]; one that mutates
    variables or acts on the outside threads them (a world of any type, the variables of a
    reconciliation, the map of components); the retry pool, work queues, electors, servers and the informer over sources are step
    relations with one step per action that others may interleave with. Pointers are options; where an object is shared and mutated (the maps in a trie, the object
    of the informer cache, the edges of components) the sharing is modelled. Machine integers are [Z]
    with [wrap32] and [wrap64] at each operation that may overflow. Results that depend on the order of
    a map or on an unstable sort are stated for every [GoRuntime].

    Fuel: [AtomicExtrema] loops as long as other threads interfere, and takes their interference as a
    list; [Component.resolveRequest] recurses over declarations, and [ResolveList_terminates] gives
    enough fuel when requests have ranks; [Component.ResolveList] and [TrimNonRequested] are given the
    number of components plus one, which [ResolveList_correct] and [enabled_components_in_order] show to be enough.
    [SetTrie.Supersets] has the depth of the trie as fuel, [Util.drain_swap] the length of the slice, and [Util.bits_loop] the
    width of the mask.
    Everything else is structural.

    ** What is proved

    - The promise to users: [System.min_available_is_kept] (in every run of permitted steps of the webhook, the aggregators and the
      generator, [MinAvailable] available pods are left whose deletion was not granted) and
      [System.estimate_is_covered] (the invariant behind it: what the webhook decides on never exceeds those
      pods). [System.step] is what the code may do at all; [System.permitted] lists the conditions: pods are lost by granted
      deletions only, requests and counts report pods as they are, requests are judged by availability, histories stay below the
      compaction threshold, and numbers fit 32 bits. Above the threshold the code
      forgets admissions ([PprUtil.CompactBuckets_forgets_counts]), and the promise is broken:
      [System.compaction_breaks_the_promise] is such a run.
      [Recovery.capacity_recovers] is the converse: once the aggregators have seen the pods and events of their cells and
      have reconciled, the webhook grants every batch within [MaxConcurrentLag] that leaves [MinAvailable] available pods.
    - The webhook: [PoolAdapter.executeOn_reserves] (after a batch, the estimate of the
      available pods, admissions taken back, is at least the minimum if a healthy pod was admitted),
      [Quota.AdmitBatch_correct] (a batch that the lag has room for gets exactly the quota, the last items first),
      [PoolAdapter.executeOn_records_admissions], [PoolAdapter.tryExecute_correct] (conflicts are
      retried, other errors reported), [Handler.Handle_grants] and [Handler.Handle_refuses_first].
    - The aggregator: [tryReconcile_correct] (what is written, when, and what waits),
      [updateLastEventTime_correct], [aggregateStatus_correct], [handlePod_correct].
    - The generator: [reconcileObject_safe] (no PodProtector without the finalizer of its source,
      the finalizer is removed last), [reconcileObject_settled] (no requests are made exactly when
      nothing is left to do), [index_roundtrip], [reqmt_Spec_correct], [syncProtector_removes_cells].
    - Concurrency: [Pool_mutual_exclusion], [Pool_no_stranded_request], [Pool_counter_counts_holders],
      [executeBatch_answers_once]; [LabelIndex.Locked_Query_protocol].
    - The indexes refine finite maps: [Sets_refine_map], [Selectors_refine_map], on top of [Matches_correct],
      [Subsets_correct] and [Insert_Remove_restores]; the informer over several sources, whose goroutines interleave, finds the PodProtectors of the
      sources that it follows, and starts and cancels their informers ([Watch_refines]).
    - The processes: [handles_refine] (all who request a name share one instance), [enabled_components_in_order],
      [ResolveList_terminates], [mux_selects], [observers_joined], [process_order] (for any components, failures included); [processes_start] (each of the four entry points
      resolves, registers its flags, and for any command line selects its components or ends with an error) and [components_share_as_declared]. Before the first reconciliation the
      elector has elected and all informers have synced ([reconciles_after_sync], and [generator_reconciles_events], which
      also says that no event of a source object is missed); informers under an elector run only while the lease is held
      ([informers_need_lease]); an item is reconciled by one worker at a time ([workers_exclusive]);
      an elector tells that it leads only when it does, unless it could not be set up ([elector_correct]); a server answers the requests that it has before the
      component behind it is joined ([server_join_drains]), and the paths that are served are those that are configured
      ([webhook_routes], [healthz_routes]); a value that is set late is published safely
      ([late_init_published]).
    - Flags: [slice_flags_roundtrip], [integer_flags_correct]. Metrics: [metrics_emit_labels], [unique_counters_refine],
      [process_metrics_register] (no entry point registers a metric that the library refuses, such as one with the name of another),
      [webhook_measures]. Logs: [webhook_lines_attributed], [errors_always_logged], [aggregator_changes_logged].
    - Status and statistics: [statuses_stay_well_formed] (every writer keeps statuses well-formed), [Summarize_correct],
      [CompactBuckets_correct], [Monitor_sums], [makeStatusCount_correct], [IsPodAvailable_correct].
    - Deviations of the code from its comments are theorems too, such as [Quota.AdmitBatch_ignores_lag],
      [PprUtil.CompactBuckets_forgets_counts], [LabelIndex.Selectors_miss_repeated_key],
      [SetTrie.Supersets_truncates], [Metrics.unique_counters_collide], [Worker.failures_never_forgotten] and
      [AggregatorCorrect.updateLastEventTime_strands_compact_bucket].

    ** Parameters

    Code that is not in the repository is a parameter: the API server, listers and informers of
    client-go, the registry of Prometheus, hyperloglog, JSON, floating-point arithmetic, clocks and random numbers, the hash of pod names, the percentages of intstr, the
    selectors of flags. Hypotheses on them state their documentation, such as the range of
    [rand.Int63n], and have witnesses with concrete functions.

    ** Not modelled

    The sockets of HTTP servers (their requests are events of a step relation), the endpoints of pprof and of Prometheus, the flags of
    klog; the type parameters of components, whose APIs are known by the component that they read; generated
    code (src/client, deepcopy), tests and tools. Goroutines are steps of a relation where they interact; where they only
    run a function of another part (a flush, a shard of an informer) the function is modelled and its goroutine is not. *)

From Stdlib Require Export ZArith Lia.
From stdpp Require Export sorting base gmap sets strings option list.

#[global] Set Default Goal Selector "!".

(** ** Outcomes: a Go computation returns a value or panics *)

Inductive outcome (A : Type) : Type :=
| Ret (a : A)
| Panic (msg : string).
Arguments Ret {A} _.
Arguments Panic {A} _.

#[export] Instance outcome_ret : MRet outcome := λ A a, Ret a.
#[export] Instance outcome_bind : MBind outcome := λ A B f m,
  match m with
  | Ret a => f a
  | Panic msg => Panic msg
  end.
#[export] Instance outcome_fmap : FMap outcome := λ A B f m,
  match m with
  | Ret a => Ret (f a)
  | Panic msg => Panic msg
  end.

Definition is_ret {A} (m : outcome A) : bool :=
  match m with Ret _ => true | Panic _ => false end.

(** [panic] as a statement: no value is produced. *)
Definition guard_or_panic (b : bool) (msg : string) : outcome unit :=
  if b then Ret tt else Panic msg.

(** Sequential left fold of a step that may panic: a [for range] loop. *)
Fixpoint outcome_foldl {A S} (f : S → A → outcome S) (s : S) (l : list A) : outcome S :=
  match l with
  | [] => Ret s
  | x :: l => s' ← f s x; outcome_foldl f s' l
  end.

(** ** Machine integers *)

Definition MaxInt32 : Z := (2147483647)%Z.
Definition MinInt32 : Z := (-2147483648)%Z.
Definition MaxInt64 : Z := (9223372036854775807)%Z.
Definition MinInt64 : Z := (-9223372036854775808)%Z.

(** Two's complement wrap-around of a w-bit signed result. *)
Definition wrap (w : Z) (z : Z) : Z := ((z + 2 ^ (w - 1)) `mod` 2 ^ w - 2 ^ (w - 1))%Z.
Definition wrap32 (z : Z) : Z := wrap 32 z.
Definition wrap64 (z : Z) : Z := wrap 64 z.

Definition in_int32 (z : Z) : Prop := (MinInt32 ≤ z ≤ MaxInt32)%Z.
Definition in_int64 (z : Z) : Prop := (MinInt64 ≤ z ≤ MaxInt64)%Z.

(** ** Time

    A [time.Time] is the number of nanoseconds since the zero time of Go
    (January 1, year 1, 00:00:00 UTC), so that [IsZero] is equality with 0; a
    [time.Duration] is a signed 64-bit number of nanoseconds. *)
Definition Time : Type := Z.
Definition Duration : Type := Z.

Definition Millisecond : Duration := 1000000%Z.
Definition Second : Duration := 1000000000%Z.

Definition time_IsZero (t : Time) : bool := (t =? 0)%Z.
Definition time_Before (t u : Time) : bool := (t <? u)%Z.
Definition time_After (t u : Time) : bool := (u <? t)%Z.
(** [Time.Sub] saturates at the bounds of [time.Duration]. *)
Definition time_Sub (t u : Time) : Duration := (MinInt64 `max` (MaxInt64 `min` (t - u)))%Z.
(** [Duration.Milliseconds] divides towards zero. *)
Definition duration_Milliseconds (d : Duration) : Z := Z.quot d Millisecond.

(** ** Stable sorting

    The result of [sort.SliceStable] is determined by its specification: it is
    the permutation that is sorted and keeps the order of equal elements, which
    insertion computes. *)
Section stable_sort.
Context {A : Type}.
Variable less : A → A → bool.

Fixpoint stable_insert (x : A) (l : list A) : list A :=
  match l with
  | [] => [x]
  | y :: l' => if less y x then y :: stable_insert x l' else x :: y :: l'
  end.

Definition stable_sort (l : list A) : list A := foldr stable_insert [] l.

End stable_sort.

(** A [less] function is a strict weak order on the elements that it compares: the
    contract of package [sort]. *)
Record strict_weak_order_on {A} (P : A → Prop) (less : A → A → bool) : Prop := {
  swo_irrefl : ∀ x, P x → less x x = false;
  swo_trans : ∀ x y z, P x → P y → P z →
    less x y = true → less y z = true → less x z = true;
  swo_incomp : ∀ x y z, P x → P y → P z →
    less x y = false → less y z = false → less x z = false
}.
Definition strict_weak_order {A} (less : A → A → bool) : Prop :=
  strict_weak_order_on (λ _, True) less.

(** ** Choices of the Go runtime

    Three results are left unspecified by the language and its library: the
    order in which [range] visits a map, the order in which it visits a set
    (a map with empty values) and the order of equal elements after
    [sort.Slice]. A development that depends on them is stated for every choice
    that the documentation allows. *)
Class GoRuntime := {
  map_order : ∀ {K : Type} `{Countable K} {V : Type}, gmap K V → list (K * V);
  map_order_perm : ∀ (K : Type) `{Countable K} (V : Type) (m : gmap K V),
    map_order m ≡ₚ map_to_list m;
  set_order : ∀ {K : Type} `{Countable K}, gset K → list K;
  set_order_perm : ∀ (K : Type) `{Countable K} (s : gset K), set_order s ≡ₚ elements s;
  sort_slice : ∀ {A : Type}, (A → A → bool) → list A → list A;
  sort_slice_perm : ∀ (A : Type) (less : A → A → bool) (l : list A),
    sort_slice less l ≡ₚ l;
  sort_slice_sorted : ∀ (A : Type) (less : A → A → bool) (l : list A),
    strict_weak_order_on (λ x, x ∈ l) less →
    Sorted (λ x y, less y x = false) (sort_slice less l)
}.

(** Order of strings: bytewise, as Go compares them. *)
Definition string_lt (s t : string) : bool := String.ltb s t.

(** ** Panic-free facts about outcomes *)

Lemma outcome_bind_Ret {A B} (m : outcome A) (f : A → outcome B) b :
  m ≫= f = Ret b ↔ ∃ a, m = Ret a ∧ f a = Ret b.
Proof. destruct m; simpl; split; naive_solver. Qed.

Lemma outcome_foldl_app {A S} (f : S → A → outcome S) s l1 l2 :
  outcome_foldl f s (l1 ++ l2) = (s' ← outcome_foldl f s l1; outcome_foldl f s' l2).
Proof.
  revert s. induction l1 as [|x l1 IH]; intros s; simpl; [done|].
  destruct (f s x); simpl; auto.
Qed.

(** A loop whose body never panics on the values that it meets is a pure fold. *)
Lemma outcome_foldl_pure {A S} (f : S → A → outcome S) (g : S → A → S) (I : S → Prop) s l :
  I s →
  (∀ s x, I s → x ∈ l → f s x = Ret (g s x) ∧ I (g s x)) →
  outcome_foldl f s l = Ret (foldl g s l) ∧ I (foldl g s l).
Proof.
  revert s. induction l as [|x l IH]; intros s Hs Hf; simpl; [done|].
  destruct (Hf s x Hs ltac:(left)) as [-> Hx]. simpl. apply IH; [done|].
  intros s' y Hs' Hy. apply Hf; [done|by right].
Qed.

(** ** Boolean tests over lists *)
Lemma existsb_id_fmap {A} (f : A → bool) l : existsb id (f <$> l) = existsb f l.
Proof. induction l as [|x l IH]; [done|]. rewrite fmap_cons. cbn [existsb]. by rewrite IH. Qed.

Lemma existsb_elem_of {A} (f : A → bool) l : existsb f l = true ↔ ∃ x, x ∈ l ∧ f x = true.
Proof. rewrite existsb_exists. setoid_rewrite list_elem_of_In. done. Qed.

Lemma omap_cons {A B} (f : A → option B) x l :
  omap f (x :: l) = match f x with Some y => y :: omap f l | None => omap f l end.
Proof. done. Qed.

Lemma filter_all {A} (P : A → Prop) `{!∀ x, Decision (P x)} l : Forall P l → filter P l = l.
Proof. induction 1 as [|x l Hx _ IH]; [done|]. rewrite filter_cons_True by done. by rewrite IH. Qed.

Lemma filter_same_length {A} (P : A → Prop) `{!∀ x, Decision (P x)} l :
  length (filter P l) = length l → filter P l = l.
Proof.
  induction l as [|x l IH]; [done|]. destruct (decide (P x)) as [Hx|Hx].
  - rewrite filter_cons_True by done. intros [= Hl]. by rewrite IH.
  - rewrite filter_cons_False by done. pose proof (length_filter P l). simpl. lia.
Qed.

(** ** Wrap-around *)

Ltac unfold_wrap :=
  unfold in_int32, in_int64, wrap32, wrap64, wrap, MinInt32, MaxInt32, MinInt64, MaxInt64 in *;
  change (2 ^ (32 - 1))%Z with 2147483648%Z in *; change (2 ^ 32)%Z with 4294967296%Z in *;
  change (2 ^ (64 - 1))%Z with 9223372036854775808%Z in *;
  change (2 ^ 64)%Z with 18446744073709551616%Z in *.

Lemma wrap32_id z : in_int32 z → wrap32 z = z.
Proof.
  intros Hz. unfold_wrap.
  rewrite Z.mod_small; lia.
Qed.

Lemma wrap64_id z : in_int64 z → wrap64 z = z.
Proof.
  intros Hz. unfold_wrap.
  rewrite Z.mod_small; lia.
Qed.

Lemma wrap32_range z : in_int32 (wrap32 z).
Proof.
  unfold_wrap.
  pose proof (Z.mod_pos_bound (z + 2147483648) 4294967296 ltac:(lia)). lia.
Qed.

(** Wrapping the summands first changes nothing: int32 addition is modular. *)
Lemma wrap32_add_l a b : wrap32 (wrap32 a + b) = wrap32 (a + b).
Proof.
  unfold_wrap. f_equal.
  replace ((a + 2147483648) `mod` 4294967296 - 2147483648 + b + 2147483648)%Z
    with ((a + 2147483648) `mod` 4294967296 + b)%Z by lia.
  rewrite Z.add_mod_idemp_l by lia. f_equal. lia.
Qed.

Lemma wrap64_eq a b : (a `mod` 2 ^ 64 = b `mod` 2 ^ 64)%Z → wrap64 a = wrap64 b.
Proof.
  intros Heq. unfold_wrap. f_equal. rewrite (Z.add_mod a), (Z.add_mod b) by lia. by rewrite Heq.
Qed.

Lemma wrap64_mod a : (wrap64 a `mod` 2 ^ 64 = a `mod` 2 ^ 64)%Z.
Proof.
  unfold_wrap. rewrite Zminus_mod_idemp_l. f_equal. lia.
Qed.

Lemma wrap64_add_l a b : wrap64 (wrap64 a + b) = wrap64 (a + b).
Proof. apply wrap64_eq. rewrite Z.add_mod, wrap64_mod, <- Z.add_mod by lia. done. Qed.

Lemma wrap64_sub_l a b : wrap64 (wrap64 a - b) = wrap64 (a - b).
Proof. apply wrap64_eq. rewrite Zminus_mod, wrap64_mod, <- Zminus_mod. done. Qed.

(** ** Sorting lemmas *)
Section stable_sort_lemmas.
Context {A : Type}.
Variable less : A → A → bool.

Lemma stable_insert_perm x l : stable_insert less x l ≡ₚ x :: l.
Proof.
  induction l as [|y l IH]; simpl; [done|].
  destruct (less y x); [|done]. rewrite IH. apply Permutation_swap.
Qed.

Lemma stable_sort_perm l : stable_sort less l ≡ₚ l.
Proof.
  induction l as [|x l IH]; simpl; [done|]. by rewrite stable_insert_perm, IH.
Qed.

Lemma elem_of_stable_sort x l : x ∈ stable_sort less l ↔ x ∈ l.
Proof. by rewrite stable_sort_perm. Qed.

Variable P : A → Prop.
Hypothesis Hless : strict_weak_order_on P less.

Lemma swo_asym x y : P x → P y → less x y = true → less y x = false.
Proof.
  intros Hx Hy Hxy. destruct (less y x) eqn:Hyx; [|done].
  pose proof (swo_trans _ _ Hless _ _ _ Hx Hy Hx Hxy Hyx) as Hxx.
  by rewrite (swo_irrefl _ _ Hless) in Hxx.
Qed.

Lemma stable_insert_sorted x l :
  P x → Forall P l → Sorted (λ a b, less b a = false) l →
  Sorted (λ a b, less b a = false) (stable_insert less x l).
Proof.
  intros Hx Hl Hs. revert Hl. induction Hs as [|y l Hs IH Hhd]; intros Hl; simpl.
  { repeat constructor. }
  apply Forall_cons in Hl as [Hy Hl]. destruct (less y x) eqn:Hyx.
  - constructor; [by apply IH|]. destruct Hhd as [|z l Hz]; simpl.
    + constructor. by apply swo_asym.
    + apply Forall_cons in Hl as [Hz' _].
      destruct (less z x); constructor; [done|by apply swo_asym].
  - constructor; [by constructor|by constructor].
Qed.

Lemma stable_sort_sorted l :
  Forall P l → Sorted (λ a b, less b a = false) (stable_sort less l).
Proof.
  induction 1 as [|x l Hx Hl IH]; simpl; [constructor|].
  apply stable_insert_sorted; [done| |done].
  rewrite Forall_forall in Hl. apply Forall_forall. intros y Hy.
  by apply Hl, elem_of_stable_sort.
Qed.

Lemma swo_sorted_strong l :
  Forall P l → Sorted (λ a b, less b a = false) l →
  StronglySorted (λ a b, less b a = false) l.
Proof.
  intros HP. induction 1 as [|x l Hs IH Hhd]; [constructor|].
  apply Forall_cons in HP as [Hx Hl]. specialize (IH Hl). constructor; [done|].
  destruct Hhd as [|z l Hz]; [constructor|]. apply Forall_cons in Hl as [Hz' Hl].
  constructor; [done|]. apply StronglySorted_inv in IH as [_ IH].
  rewrite Forall_forall in IH. rewrite Forall_forall in Hl. apply Forall_forall. intros y Hy.
  eapply (swo_incomp _ _ Hless y z x); auto.
Qed.

(** Sorting a sorted list changes nothing. *)
Lemma stable_sort_id l :
  Sorted (λ a b, less b a = false) l → stable_sort less l = l.
Proof.
  induction 1 as [|y l Hl IH Hhd]; simpl; [done|].
  rewrite IH. destruct Hhd as [|z l Hz]; simpl; [done|]. by rewrite Hz.
Qed.

End stable_sort_lemmas.

(** A sorted list without duplicates, whose elements occur in another sorted list, is a
    sublist of it. *)
Lemma sorted_incl_sublist {A} (R : A → A → Prop) (l1 l2 : list A) :
  StronglySorted R l1 → StronglySorted R l2 → NoDup l1 → l1 ⊆ l2 →
  (∀ x y, x ∈ l2 → y ∈ l2 → R x y → R y x → x = y) → sublist l1 l2.
Proof.
  intros H1 H2. revert l1 H1. induction H2 as [|y l2 H2 IH Hy]; intros l1 H1 Hnd Hsub Hanti.
  { destruct l1 as [|x l1]; [constructor|]. specialize (Hsub x). set_solver. }
  destruct H1 as [|x l1 H1 Hx]; [apply sublist_nil_l|].
  apply NoDup_cons in Hnd as [Hxl Hnd]. rewrite Forall_forall in Hx. rewrite Forall_forall in Hy.
  destruct (proj1 (elem_of_cons _ _ _) (Hsub x ltac:(left))) as [->|Hxl2].
  - constructor. apply IH; [done|done| |set_solver].
    intros z Hz. specialize (Hsub z). set_solver.
  - apply sublist_cons, IH; [by constructor; [|apply Forall_forall]|by constructor| |set_solver].
    intros z Hz. specialize (Hsub z Hz). apply elem_of_cons in Hsub as [->|]; [|done].
    apply elem_of_cons in Hz as [->|Hz]; [done|].
    rewrite (Hanti y x); [done|set_solver|set_solver|by apply Hy|by apply Hx].
Qed.

(** ** The order of strings *)

Lemma string_lt_le s t : string_lt s t = true ↔ String.le s t ∧ s ≠ t.
Proof.
  unfold string_lt, String.ltb, String.le, String.leb.
  destruct (String.compare s t) eqn:Hc; simpl.
  - apply String.compare_eq_iff in Hc. naive_solver.
  - split; [intros _; split; [done|intros ->]|done].
    pose proof (String.compare_antisym t t) as Ha. by rewrite Hc in Ha.
  - naive_solver.
Qed.

Lemma string_lt_false s t : string_lt s t = false ↔ String.le t s.
Proof.
  split.
  - intros H. destruct (total String.le t s) as [|Hle]; [done|].
    destruct (decide (s = t)) as [->|Hne]; [reflexivity|].
    assert (string_lt s t = true) by by apply string_lt_le. congruence.
  - intros Hts. destruct (string_lt s t) eqn:H; [|done].
    apply string_lt_le in H as [Hst Hne]. by destruct Hne; apply (anti_symm String.le).
Qed.

Lemma string_lt_swo : strict_weak_order string_lt.
Proof.
  split.
  - intros x _. by apply string_lt_false.
  - intros x y z _ _ _ [Hxy ?]%string_lt_le [Hyz ?]%string_lt_le. apply string_lt_le.
    split; [by etrans|]. intros ->.
    by assert (z = y) by by apply (anti_symm String.le).
  - intros x y z _ _ _ ?%string_lt_false ?%string_lt_false. apply string_lt_false. by etrans.
Qed.

(** A key function pulls a strict weak order back. *)
Lemma swo_key {A B} (f : A → B) (less : B → B → bool) :
  strict_weak_order less → strict_weak_order (λ x y, less (f x) (f y)).
Proof. intros [H1 H2 H3]. split; eauto. Qed.

Lemma swo_on_all {A} (P : A → Prop) (less : A → A → bool) :
  strict_weak_order less → strict_weak_order_on P less.
Proof. intros [H1 H2 H3]. split; eauto. Qed.

Lemma swo_on_elements {A} (less : A → A → bool) l :
  strict_weak_order_on (λ x, x ∈ l) less → Sorted (λ x y, less y x = false) (stable_sort less l).
Proof. intros H. eapply stable_sort_sorted; [exact H|]. by apply Forall_forall. Qed.

(** ** The runtime that visits maps in key order and sorts stably *)

#[export] Instance default_runtime : GoRuntime := {|
  map_order _ _ _ _ m := map_to_list m;
  map_order_perm _ _ _ _ m := Permutation_refl _;
  set_order _ _ _ s := elements s;
  set_order_perm _ _ _ s := Permutation_refl _;
  sort_slice _ less l := stable_sort less l;
  sort_slice_perm _ less l := stable_sort_perm less l;
  sort_slice_sorted _ less l H := swo_on_elements less l H
|}.

Section runtime.
Context `{!GoRuntime}.

Lemma elem_of_map_order `{Countable K} {V} (m : gmap K V) k v :
  (k, v) ∈ map_order m ↔ m !! k = Some v.
Proof. rewrite map_order_perm. apply elem_of_map_to_list. Qed.

Lemma NoDup_fst_map_order `{Countable K} {V} (m : gmap K V) : NoDup (map_order m).*1.
Proof. rewrite map_order_perm. apply NoDup_fst_map_to_list. Qed.

Lemma NoDup_map_order `{Countable K} {V} (m : gmap K V) : NoDup (map_order m).
Proof. rewrite map_order_perm. apply NoDup_map_to_list. Qed.

Lemma length_map_order `{Countable K} {V} (m : gmap K V) : length (map_order m) = size m.
Proof. rewrite map_order_perm. apply length_map_to_list. Qed.

Lemma elem_of_set_order `{Countable K} (s : gset K) k : k ∈ set_order s ↔ k ∈ s.
Proof. rewrite set_order_perm. apply elem_of_elements. Qed.

Lemma NoDup_set_order `{Countable K} (s : gset K) : NoDup (set_order s).
Proof. rewrite set_order_perm. apply NoDup_elements. Qed.

End runtime.

(** ** Automation *)

Create HintDb podseidon.
#[export] Hint Resolve map_order_perm set_order_perm sort_slice_perm NoDup_map_order
  NoDup_fst_map_order NoDup_set_order string_lt_swo swo_key swo_on_all : podseidon.

(** Split the bind equations of a successful computation. *)
Ltac inv_outcome :=
  repeat match goal with
  | H : _ ≫= _ = Ret _ |- _ =>
      apply outcome_bind_Ret in H; destruct H as (? & ? & H)
  | H : Ret _ = Ret _ |- _ => injection H as H; subst
  | H : Panic _ = Ret _ |- _ => discriminate H
  end.

(** Case on the boolean tests of the goal, with the equations kept. *)
Ltac case_bool :=
  match goal with
  | |- context [if ?b then _ else _] => destruct b eqn:?
  end.
