(* ===== verification/Util.v ===== *)
(** * Util: the generic helpers of util/optional, util/util and util/haschange

    [Module Optional] is util/optional/optional.go, [Module Slices] is
    util/util/slices.go, [Module Math] is util/util/math.go, [Module Atomics] is
    util/util/atomic.go and [Module HasChange] is util/haschange/haschange.go. *)

From S2P Require Import Prelude.

(** The zero value of a Go type ([util.Zero]). *)
Class Zero (T : Type) := zero : T.
#[export] Instance zero_Z : Zero Z := 0%Z.
#[export] Instance zero_nat : Zero nat := 0.
#[export] Instance zero_bool : Zero bool := false.
#[export] Instance zero_string : Zero string := EmptyString.
#[export] Instance zero_option {A} : Zero (option A) := None.
#[export] Instance zero_list {A} : Zero (list A) := [].
#[export] Instance zero_unit : Zero unit := tt.

Definition IsZero {T} `{Zero T} `{EqDecision T} (value : T) : bool := bool_decide (value = zero).

(** ** Optional values

    An [Optional] is [Some value] or [None]; the hidden [value] field of a [None]
    is the zero value, so the pair of the source carries no more information than
    [option]. *)
Module Optional.

Definition IsSome {T} (v : option T) : bool :=
  match v with Some _ => true | None => false end.
Definition IsNone {T} (v : option T) : bool := negb (IsSome v).

Definition Get {T} `{Zero T} (v : option T) : T * bool :=
  match v with Some value => (value, true) | None => (zero, false) end.

Definition GetOrFn {T} (v : option T) (fn : unit → T) : T :=
  match v with Some value => value | None => fn tt end.
Definition GetOr {T} (v : option T) (value : T) : T := GetOrFn v (λ _, value).
Definition GetOrZero {T} `{Zero T} (v : option T) : T := GetOrFn v (λ _, zero).
Definition OrFn {T} (v : option T) (fn : unit → option T) : option T :=
  if IsSome v then v else fn tt.

Definition MustGet {T} (v : option T) (msg : string) : outcome T :=
  match v with
  | Some value => Ret value
  | None => Panic ("value must exist: " +:+ msg)
  end.

Definition AsSlice {T} (v : option T) : list T :=
  match v with Some value => [value] | None => [] end.

Definition IsSomeAnd {T} (v : option T) (fn : T → bool) : bool :=
  match v with Some value => fn value | None => false end.
Definition IsNoneOr {T} (v : option T) (fn : T → bool) : bool :=
  match v with Some value => fn value | None => true end.

(** Pointer receiver: the optional itself is replaced. *)
Definition SetOrFn {T} (v : option T) (value : T) (fn : T → T → T) : option T :=
  match v with
  | Some base => Some (fn base value)
  | None => Some value
  end.
Definition SetOrChoose {T} (v : option T) (value : T) (preferRight : T → T → bool) : option T :=
  SetOrFn v value (λ base increment, if preferRight base increment then increment else base).

(** A pointer into the [value] field of an optional that is held in a variable:
    it is [nil] or points to a cell. The receiver of [GetValueRefOrNil] is passed
    by value, so the cell is a field of the callee's own copy of the optional. *)
Record cell (T : Type) := { pointee : T }.
Arguments pointee {T} _.

Definition GetValueRefOrNil {T} (v : option T) : option (cell T) :=
  match v with Some value => Some {| pointee := value |} | None => None end.

(** [if ptr := v.GetValueRefOrNil(); ptr != nil { f(ptr) }]: the write of [f] goes
    to the cell of the copy; the variable [v] keeps its value. *)
Definition UpdateThroughRefOrNil {T} (v : option T) (f : T → T) : option T * option (cell T) :=
  match GetValueRefOrNil v with
  | Some ptr => (v, Some {| pointee := f (pointee ptr) |})
  | None => (v, None)
  end.

Definition Map {T U} (v : option T) (fn : T → U) : option U :=
  match v with Some value => Some (fn value) | None => None end.

(** A Go pointer to a value that is only read is an [option] already. *)
Definition FromPtr {T} (ptr : option T) : option T :=
  match ptr with None => None | Some value => Some value end.

Definition IfNonZero {T} `{Zero T} `{EqDecision T} (value : T) : option T :=
  if bool_decide (value = zero) then None else Some value.

Definition Filter {T} (v : option T) (fn : T → bool) : option T :=
  if IsSomeAnd v fn then v else None.

Definition GetSlice {T} (slice : list T) (index : Z) : option T :=
  if (0 <=? index)%Z && (index <? Z.of_nat (length slice))%Z
  then slice !! Z.to_nat index else None.

Definition GetMap {K V} `{Countable K} (map_ : gmap K V) (key : K) : option V := map_ !! key.

End Optional.

(** ** Slices *)
Module Slices.

Definition MapSlice {T U} (input : list T) (fn : T → U) : list U := fn <$> input.

Definition CountSlice {T} (input : list T) (predicate : T → bool) : Z :=
  foldl (λ count item, if predicate item then (count + 1)%Z else count) 0%Z input.

Definition SliceToMap {K V} `{Countable K} (input : list V) (keyFn : V → K) : gmap K V :=
  foldl (λ output item, <[keyFn item := item]> output) ∅ input.

Fixpoint find_from {T} (i : Z) (input : list T) (predicate : T → bool) : Z :=
  match input with
  | [] => (-1)%Z
  | item :: input => if predicate item then i else find_from (i + 1) input predicate
  end.

Definition FindInSliceWith {T} (input : list T) (predicate : T → bool) : Z :=
  find_from 0 input predicate.
Definition FindInSlice {T} `{EqDecision T} (input : list T) (needle : T) : Z :=
  FindInSliceWith input (λ other, bool_decide (needle = other)).
Definition SliceContains {T} `{EqDecision T} (input : list T) (needle : T) : bool :=
  negb (FindInSlice input needle =? -1)%Z.

(** [input[i] = input[len-1]; input = input[:len-1]]: an index that is out of
    range, or an empty slice, panics. *)
Definition SwapRemove {T} (input : list T) (i : nat) : outcome (list T) :=
  match input !! i, last input with
  | Some _, Some x => Ret (take (length input - 1) (<[i := x]> input))
  | _, _ => Panic "index out of range"
  end.

(** The reader/writer loop of [DrainSliceOrdered]; [n] is the number of slots that
    the reader has not visited. *)
Fixpoint drain_copy {T} (predicate : T → bool) (n reader writer : nat) (slice : list T) :
    list T * nat :=
  match n with
  | O => (slice, writer)
  | S n =>
      match slice !! reader with
      | Some item =>
          if predicate item
          then drain_copy predicate n (S reader) (S writer) (<[writer := item]> slice)
          else drain_copy predicate n (S reader) writer slice
      | None => (slice, writer)
      end
  end.

(** The swap-remove loop; every iteration moves [i] up or the length down, so
    [length slice - i] iterations are enough. *)
Fixpoint drain_swap {T} (predicate : T → bool) (fuel i : nat) (slice : list T) :
    outcome (list T) :=
  match slice !! i with
  | None => Ret slice
  | Some item =>
      match fuel with
      | O => Panic "out of fuel"
      | S fuel =>
          if predicate item then drain_swap predicate fuel (S i) slice
          else slice' ← SwapRemove slice i; drain_swap predicate fuel i slice'
      end
  end.

Definition DrainSliceUnordered {T} (slice : list T) (predicate : T → bool) : outcome (list T) :=
  drain_swap predicate (length slice) 0 slice.

(** The copying loop, then a swap-remove loop over the whole slice, then the cut at
    [writer]. *)
Definition DrainSliceOrdered {T} (slice : list T) (predicate : T → bool) : outcome (list T) :=
  let '(slice, writer) := drain_copy predicate (length slice) 0 0 slice in
  slice ← DrainSliceUnordered slice predicate;
  if writer <=? length slice then Ret (take writer slice)
  else Panic "slice bounds out of range".

Definition AppendSliceCopy {T} (immutable suffix : list T) : list T := immutable ++ suffix.

(** A pointer to a slot of a slice is the slice with the index of the slot. *)
Fixpoint get_or_append_from {T} (i : nat) (slice : list T) (predicate : T → bool) : option nat :=
  match slice with
  | [] => None
  | item :: slice => if predicate item then Some i else get_or_append_from (S i) slice predicate
  end.

Definition GetOrAppendSliceWith {T} (slice : list T) (predicate : T → bool) (ctor : unit → T) :
    list T * nat :=
  match get_or_append_from 0 slice predicate with
  | Some i => (slice, i)
  | None => (slice ++ [ctor tt], length slice)
  end.
Definition GetOrAppend {T} `{Zero T} (slice : list T) (predicate : T → bool) : list T * nat :=
  GetOrAppendSliceWith slice predicate (λ _, zero).

Definition ClearSlice {T} (slice : list T) : list T := [].
Definition ForEachRef {T} (slice : list T) (eachFn : T → T) : list T := eachFn <$> slice.

End Slices.

(** ** Integer division with rounding, on int64 *)
Module Math.

Definition RoundedIntDiv (numerator divisor : Z) : outcome Z :=
  let divisor := if (divisor <? 0)%Z then wrap64 (- divisor) else divisor in
  if (divisor =? 0)%Z then Panic "integer divide by zero" else
  let quotient := wrap64 (Z.quot numerator divisor) in
  let remainder := Z.rem numerator divisor in
  let quotient :=
    if (0 <? numerator)%Z && (divisor <=? wrap64 (remainder * 2))%Z
    then wrap64 (quotient + 1) else quotient in
  let quotient :=
    if (numerator <? 0)%Z && (wrap64 (wrap64 (divisor + remainder) * 2) <? divisor)%Z
    then wrap64 (quotient - 1) else quotient in
  Ret quotient.

End Math.

(** ** Compare-and-swap loops *)
Module Atomics.

(** One run of [AtomicExtrema] on a cell: [interference] lists what the other
    threads do to the cell between the [Load] and the [CompareAndSwap] of each
    attempt. The result is the cell and the returned flag, [None] while the loop
    has not returned. *)
Fixpoint AtomicExtrema {Base} `{EqDecision Base} (rightIsBetter : Base → Base → bool)
    (other : Base) (interference : list (Base → Base)) (cell : Base) :
    Base * option bool :=
  let old := cell in
  if negb (rightIsBetter old other) then (cell, Some false)
  else
    match interference with
    | [] => (other, Some true)
    | env :: interference =>
        let cell := env cell in
        if bool_decide (cell = old) then (other, Some true)
        else AtomicExtrema rightIsBetter other interference cell
    end.

Definition AtomicMax : Z → list (Z → Z) → Z → Z * option bool :=
  AtomicExtrema (λ left right, (left <? right)%Z).
Definition AtomicMin : Z → list (Z → Z) → Z → Z * option bool :=
  AtomicExtrema (λ left right, (right <? left)%Z).

End Atomics.

(** ** Change masks *)
Module HasChange.

Record Changed := { mask : Z }.

Definition New : Changed := {| mask := 0 |}.
Definition HasChanged (changed : Changed) : bool := negb (mask changed =? 0)%Z.
Definition Add (changed : Changed) (addend : Z) : Changed :=
  {| mask := Z.lor (mask changed) addend |}.

(** [Assign] returns the new value of [*dst] with the new mask. *)
Definition Assign {T} `{EqDecision T} (changed : Changed) (dst src : T) (cause : Z) :
    T * Changed :=
  if bool_decide (dst = src) then (dst, changed)
  else (src, {| mask := Z.lor (mask changed) cause |}).

(** The loop of [String]: it takes the lowest bit of the mask while the mask is
    positive; a mask of w bits takes at most w rounds. *)
Fixpoint bits_loop (BitToString : Z → outcome string) (fuel : nat) (output : string) (maskIter : Z) :
    outcome string :=
  if negb (0 <? maskIter)%Z then Ret output
  else
    match fuel with
    | O => Panic "out of fuel"
    | S fuel =>
        let bit := Z.land maskIter (- maskIter) in
        let maskIter := Z.land maskIter (Z.lnot bit) in
        let output := if bool_decide (output = "") then output else output +:+ "+" in
        name ← BitToString bit;
        bits_loop BitToString fuel (output +:+ name) maskIter
    end.

Definition String (BitToString : Z → outcome string) (width : nat) (changed : Changed) :
    outcome string :=
  if (mask changed =? 0)%Z then Ret "nil" else bits_loop BitToString width "" (mask changed).

End HasChange.

(** ** Lemmas on slices *)
Section slices.
Context {T : Type}.
Implicit Types (l : list T) (p : T → bool).

(** The index that [FindInSliceWith] returns, as an option. *)
Definition found_at (l : list T) (p : T → bool) (i : nat) : Prop :=
  (∃ x, l !! i = Some x ∧ p x = true) ∧ ∀ j y, j < i → l !! j = Some y → p y = false.

Lemma find_from_spec k l p :
  (Slices.find_from k l p = (-1)%Z ∧ ∀ x, x ∈ l → p x = false) ∨
  (∃ i, Slices.find_from k l p = (k + Z.of_nat i)%Z ∧ found_at l p i).
Proof.
  revert k. induction l as [|x l IH]; intros k; simpl; [left; set_solver|].
  destruct (p x) eqn:Hx.
  - right. exists 0. split; [lia|]. split; [eauto|]. intros; lia.
  - destruct (IH (k + 1)%Z) as [[-> Hl]|(i & -> & Hi & Hlt)].
    + left. split; [done|]. intros y [->|Hy]%elem_of_cons; auto.
    + right. exists (S i). split; [lia|]. split; [done|].
      intros [|j] y Hj; simpl; [naive_solver|]. apply Hlt. lia.
Qed.

Lemma FindInSliceWith_spec l p :
  (Slices.FindInSliceWith l p = (-1)%Z ∧ ∀ x, x ∈ l → p x = false) ∨
  (∃ i, Slices.FindInSliceWith l p = Z.of_nat i ∧ found_at l p i).
Proof.
  unfold Slices.FindInSliceWith. destruct (find_from_spec 0 l p) as [?|(i & -> & ?)]; [by left|].
  right. exists i. split; [lia|done].
Qed.

Lemma FindInSliceWith_none l p :
  Slices.FindInSliceWith l p = (-1)%Z ↔ ∀ x, x ∈ l → p x = false.
Proof.
  destruct (FindInSliceWith_spec l p) as [[-> ?]|(i & -> & (x & Hx & Hp) & _)]; [done|].
  split; [lia|]. intros H. apply list_elem_of_lookup_2 in Hx. rewrite (H x Hx) in Hp. done.
Qed.

Lemma get_or_append_from_spec k l p :
  (Slices.get_or_append_from k l p = None ∧ ∀ x, x ∈ l → p x = false) ∨
  (∃ i, Slices.get_or_append_from k l p = Some (k + i) ∧ found_at l p i).
Proof.
  revert k. induction l as [|x l IH]; intros k; simpl; [left; set_solver|].
  destruct (p x) eqn:Hx.
  - right. exists 0. split; [f_equal; lia|]. split; [eauto|]. intros; lia.
  - destruct (IH (S k)) as [[-> Hl]|(i & -> & Hi & Hlt)].
    + left. split; [done|]. intros y [->|Hy]%elem_of_cons; auto.
    + right. exists (S i). split; [f_equal; lia|]. split; [done|].
      intros [|j] y Hj; simpl; [naive_solver|]. apply Hlt. lia.
Qed.

(** The slot that [GetOrAppendSliceWith] returns: the first match, or a new last slot. *)
Lemma GetOrAppendSliceWith_spec l p ctor :
  ∃ i, (Slices.GetOrAppendSliceWith l p ctor = (l, i) ∧ found_at l p i) ∨
       (Slices.GetOrAppendSliceWith l p ctor = (l ++ [ctor tt], i) ∧ i = length l ∧
        ∀ x, x ∈ l → p x = false).
Proof.
  unfold Slices.GetOrAppendSliceWith.
  destruct (get_or_append_from_spec 0 l p) as [[-> ?]|(i & -> & ?)]; eauto.
Qed.

Lemma SwapRemove_spec l i x :
  l !! i = Some x → ∃ l', Slices.SwapRemove l i = Ret l' ∧ l ≡ₚ x :: l' ∧
    take i l' = take i l ∧ length l = S (length l').
Proof.
  intros Hi. unfold Slices.SwapRemove. rewrite Hi.
  destruct l as [|y l0 _] using rev_ind; [done|]. rewrite last_snoc, length_app. simpl.
  replace (length l0 + 1 - 1) with (length l0) by lia.
  destruct (decide (i = length l0)) as [->|Hne].
  - rewrite lookup_app_r, Nat.sub_diag in Hi by lia. injection Hi as ->.
    eexists; split; [done|]. rewrite insert_app_r_alt, Nat.sub_diag by lia. simpl.
    rewrite take_app_length, (Permutation_app_comm l0), firstn_all. simpl.
    split; [done|split; [done|lia]].
  - apply lookup_lt_Some in Hi as Hlt. rewrite length_app in Hlt. simpl in Hlt.
    rewrite lookup_app_l in Hi by lia. rewrite insert_app_l by lia.
    eexists; split; [done|]. rewrite take_app_length' by (rewrite length_insert; lia).
    rewrite take_insert_ge, take_app_le, length_insert by lia. split; [|split; [done|lia]].
    rewrite insert_take_drop by lia.
    rewrite <- (take_drop_middle l0 i x Hi) at 1.
    rewrite <- !Permutation_middle, Permutation_app_comm. simpl.
    by rewrite Permutation_swap.
Qed.

Lemma drain_copy_spec p n reader writer l :
  length l = reader + n → writer ≤ reader →
  let '(l', w) := Slices.drain_copy p n reader writer l in
  length l' = length l ∧ writer ≤ w ≤ length l ∧
  take w l' = take writer l ++ filter (λ x, p x = true) (drop reader l).
Proof.
  revert reader writer l. induction n as [|n IH]; intros reader writer l Hlen Hw; simpl.
  { rewrite drop_ge, filter_nil, app_nil_r by lia. repeat split; lia. }
  destruct (lookup_lt_is_Some_2 l reader) as [x Hx]; [lia|]. rewrite Hx.
  rewrite (drop_S l x reader Hx). destruct (p x) eqn:Hpx.
  - rewrite filter_cons_True by done.
    specialize (IH (S reader) (S writer) (<[writer:=x]> l)). rewrite length_insert in IH.
    destruct (Slices.drain_copy _ _ _ _ _) as [l' w].
    destruct IH as (Hl' & Hle & ->); [lia..|]. split; [done|]. split; [lia|].
    rewrite (take_S_r _ _ x) by (apply list_lookup_insert_eq; lia).
    rewrite take_insert_ge, drop_insert_lt by lia. by rewrite <- app_assoc.
  - rewrite filter_cons_False by congruence.
    specialize (IH (S reader) writer l). destruct (Slices.drain_copy _ _ _ _ _) as [l' w].
    apply IH; lia.
Qed.

(** The swap-remove loop keeps the matching elements, and every leading run of
    matching elements in its place. *)
Lemma drain_swap_spec p fuel i l :
  length l ≤ i + fuel → i ≤ length l →
  ∃ l', Slices.drain_swap p fuel i l = Ret l' ∧
    l' ≡ₚ take i l ++ filter (λ x, p x = true) (drop i l) ∧
    ∀ w, i ≤ w ≤ length l → (∀ j x, i ≤ j < w → l !! j = Some x → p x = true) →
         take w l' = take w l.
Proof.
  revert i l. induction fuel as [|fuel IH]; intros i l Hfuel Hi; simpl.
  all: destruct (l !! i) as [x|] eqn:Hx.
  - apply lookup_lt_Some in Hx. lia.
  - apply lookup_ge_None in Hx. eexists; split; [done|].
    by rewrite take_ge, drop_ge, filter_nil, app_nil_r by lia.
  - apply lookup_lt_Some in Hx as Hlt. rewrite (drop_S l x i Hx). destruct (p x) eqn:Hpx.
    + destruct (IH (S i) l) as (l' & -> & Hperm & Hpre); [lia..|].
      eexists; split; [done|]. rewrite filter_cons_True by done. split.
      * by rewrite Hperm, (take_S_r _ _ x), <- app_assoc by done.
      * intros w Hw Hall. destruct (decide (w = i)) as [->|Hne]; [|apply Hpre; [lia|]].
        -- assert (take (S i) l' = take (S i) l) as Heq.
           { apply Hpre; [lia|]. intros; lia. }
           rewrite <- (Nat.min_l i (S i)), <- !take_take, Heq by lia. done.
        -- intros j y Hj. apply Hall. lia.
    + destruct (SwapRemove_spec l i x Hx) as (l1 & -> & Hl1 & Htake & Hlen). simpl.
      destruct (IH i l1) as (l' & -> & Hperm & Hpre); [lia..|].
      eexists; split; [done|]. rewrite filter_cons_False by congruence. split.
      * rewrite Hperm, Htake. apply Permutation_app_head.
        apply (Permutation_app_inv_l (filter (λ x, p x = true) (take i l1))).
        rewrite <- !filter_app, take_drop, Htake.
        apply (Permutation_app_inv_l (filter (λ x, p x = true) [x])).
        rewrite <- filter_app. simpl. rewrite <- Hl1.
        rewrite filter_cons_False by congruence.
        rewrite <- (take_drop_middle l i x Hx) at 1.
        rewrite !filter_app, filter_cons_False by congruence. done.
      * intros w Hw Hall. destruct (decide (w = i)) as [->|Hne].
        -- rewrite Hpre, Htake by (try lia; intros; lia). done.
        -- specialize (Hall i x ltac:(lia) Hx). congruence.
  - apply lookup_ge_None in Hx. eexists; split; [done|].
    by rewrite take_ge, drop_ge, filter_nil, app_nil_r by lia.
Qed.

End slices.

(** The map of a slice holds its last item for every key. *)
Lemma SliceToMap_insert {K V} `{Countable K} (l : list V) (key : V → K) x :
  Slices.SliceToMap (l ++ [x]) key = <[key x := x]> (Slices.SliceToMap l key).
Proof. unfold Slices.SliceToMap. by rewrite foldl_app. Qed.

Lemma SliceToMap_lookup {K V} `{Countable K} (l : list V) (key : V → K) k x :
  Slices.SliceToMap l key !! k = Some x → x ∈ l ∧ key x = k.
Proof.
  induction l as [|y l IH] using rev_ind; [by unfold Slices.SliceToMap; simpl; rewrite lookup_empty|]. rewrite SliceToMap_insert.
  intros [[<- ->]|[_ Hx%IH]]%lookup_insert_Some; set_solver.
Qed.

Lemma SliceToMap_elem {K V} `{Countable K} (l : list V) (key : V → K) x :
  x ∈ l → is_Some (Slices.SliceToMap l key !! key x).
Proof.
  induction l as [|y l IH] using rev_ind; [by intros ?%not_elem_of_nil|]. rewrite SliceToMap_insert.
  destruct (decide (key x = key y)) as [->|Hne]; [rewrite lookup_insert_eq; eauto|].
  rewrite lookup_insert_ne by done. intros [Hx|Hx%list_elem_of_singleton]%elem_of_app; [auto|by subst].
Qed.

Lemma SliceToMap_unique {K V} `{Countable K} (l : list V) (key : V → K) x :
  NoDup (key <$> l) → x ∈ l → Slices.SliceToMap l key !! key x = Some x.
Proof.
  intros Hnd Hx. destruct (SliceToMap_elem l key x Hx) as [y Hy]. rewrite Hy. f_equal.
  apply SliceToMap_lookup in Hy as [Hin Hk]. apply list_elem_of_lookup in Hx as [i Hi], Hin as [j Hj].
  assert (i = j) as <-; [|congruence].
  eapply (NoDup_lookup _ _ _ (key x) Hnd); rewrite list_lookup_fmap; [by rewrite Hi|by rewrite Hj; simpl; rewrite Hk].
Qed.

(** ** Properties of util/util/slices.go *)

(** [DrainSliceOrdered] keeps exactly the elements that match, in their order,
    and never panics: the second loop that the function runs over the compacted
    slice only touches the tail that the final cut drops. *)
Theorem DrainSliceOrdered_filter {T} (l : list T) (p : T → bool) :
  Slices.DrainSliceOrdered l p = Ret (filter (λ x, p x = true) l).
Proof.
  unfold Slices.DrainSliceOrdered.
  pose proof (drain_copy_spec p (length l) 0 0 l eq_refl (le_n 0)) as Hcopy.
  destruct (Slices.drain_copy _ _ _ _ _) as [l1 w]. destruct Hcopy as (Hlen & Hw & Htake).
  rewrite take_0, drop_0 in Htake. simpl in Htake.
  destruct (drain_swap_spec p (length l1) 0 l1) as (l2 & Hl2 & _ & Hpre); [lia..|].
  unfold Slices.DrainSliceUnordered. rewrite Hl2. simpl.
  assert (take w l2 = take w l1) as Heq.
  { apply Hpre; [lia|]. intros j x Hj Hx.
    assert (x ∈ take w l1) as Hin.
    { apply list_elem_of_lookup_2 with j. rewrite lookup_take_lt by lia. done. }
    rewrite Htake in Hin. by apply list_elem_of_filter in Hin as [? _]. }
  assert (w ≤ length l2) as Hw2.
  { assert (length (take w l2) = length (take w l1)) as Hlens by by rewrite Heq.
    rewrite !length_take in Hlens. lia. }
  apply Nat.leb_le in Hw2. rewrite Hw2. by rewrite Heq, Htake.
Qed.

(** [DrainSliceUnordered] terminates without a panic and keeps exactly the
    elements that match, up to order. *)
Theorem DrainSliceUnordered_perm {T} (l : list T) (p : T → bool) :
  ∃ l', Slices.DrainSliceUnordered l p = Ret l' ∧ l' ≡ₚ filter (λ x, p x = true) l.
Proof.
  destruct (drain_swap_spec p (length l) 0 l) as (l' & ? & Hperm & _); [lia..|].
  exists l'. split; [done|]. by rewrite Hperm, take_0, drop_0.
Qed.

(** *** Rounded division *)

Lemma RoundedIntDiv_eq (n d : Z) (Hd : (0 < d ≤ MaxInt64 / 2)%Z) (Hn : in_int64 n) :
  Math.RoundedIntDiv n d = Ret ((2 * n + d) / (2 * d))%Z.
Proof.
  unfold Math.RoundedIntDiv, MaxInt64 in *. change (9223372036854775807 / 2)%Z
    with 4611686018427387903%Z in Hd.
  rewrite (proj2 (Z.ltb_ge d 0)), (proj2 (Z.eqb_neq d 0)) by lia.
  pose proof (Z.quot_rem' n d) as Hqr.
  set (q := Z.quot n d) in *. set (r := Z.rem n d) in *.
  assert (Hrq : (0 ≤ n → 0 ≤ r < d)%Z) by (intros; apply Z.rem_bound_pos; lia).
  assert (Hrn : (n ≤ 0 → - d < r ≤ 0)%Z).
  { intros. pose proof (Z.rem_bound_pos_neg n d). subst r. lia. }
  assert (Hqi : (-9223372036854775808 ≤ q ≤ 9223372036854775807)%Z) by (unfold_wrap; nia).
  rewrite (wrap64_id q) by (unfold_wrap; lia).
  rewrite (wrap64_id (r * 2)) by (unfold_wrap; lia).
  rewrite (wrap64_id (d + r)) by (unfold_wrap; lia).
  assert (Hres : (n < 0 → wrap64 ((d + r) * 2) = (d + r) * 2)%Z).
  { intros. apply wrap64_id. unfold_wrap. lia. }
  f_equal. destruct (Z.ltb_spec 0 n), (Z.ltb_spec n 0); try lia; simpl.
  - destruct (Z.leb_spec d (r * 2)).
    + rewrite wrap64_id by (unfold_wrap; nia). apply Z.div_unique with (2 * r - d)%Z; nia.
    + apply Z.div_unique with (2 * r + d)%Z; nia.
  - rewrite Hres by lia. destruct (Z.ltb_spec ((d + r) * 2) d).
    + rewrite wrap64_id by (unfold_wrap; nia). apply Z.div_unique with (2 * r + 3 * d)%Z; nia.
    + apply Z.div_unique with (2 * r + d)%Z; nia.
  - assert (n = 0)%Z as -> by lia. subst q r. apply Z.div_unique with d; lia.
Qed.

(** ** Properties of util/util/math.go *)

(** For a positive divisor and operands whose doubled remainder fits in an
    int64, [RoundedIntDiv] is the quotient rounded to the nearest integer, halves
    rounded up: floor(numerator / divisor + 1/2). *)
Theorem RoundedIntDiv_rounds (n d : Z) (Hd : (0 < d ≤ MaxInt64 / 2)%Z) (Hn : in_int64 n) :
  Math.RoundedIntDiv n d = Ret ((2 * n + d) / (2 * d))%Z.
Proof. by apply RoundedIntDiv_eq. Qed.

Lemma RoundedIntDiv_rounds_witness : Math.RoundedIntDiv (-15) 10 = Ret (-1)%Z.
Proof.
  rewrite (RoundedIntDiv_rounds (-15) 10); [reflexivity|vm_compute; split; congruence|].
  vm_compute. split; congruence.
Defined.
