(* ===== verification/Sync.v ===== *)
(** * Sync: values that are set late (util/util/sync.go)

    A component may hand out a value before it has it: readers of [LateInit] wait until it is written. The handler of the webhook
    hands out its pool so (webhook/handler/handler.go), since requests may come before it is started; util/kube/leaderelection.go
    does so with the elector of client-go. Each atomic action of a reader or a writer is a step. *)

From S2P Require Import Prelude.

Module LateInit.
Section late_init.
Context {T : Type}.
(** What [new(T)] holds. *)
Variable zeroValue : T.

(** A writer before and after it has swapped [written], after it has stored the value, and at its end. *)
Inductive writer : Type := WStart (value : T) | WStore (value : T) | WClose (value : T) | WDone (value : T) | WPanic (msg : string).
(** A reader waits for the channel, then loads the value. *)
Inductive reader : Type := RWait | RLoad | RGot (value : T).
Record state : Type := { written : bool; box : T; readyCh : bool; writers : list writer; readers : list reader }.

Definition NewLateInit (values : list T) (n : nat) : state := {|
  written := false; box := zeroValue; readyCh := false; writers := WStart <$> values; readers := replicate n RWait |}.

Definition multiple : string := "LateInit cannot be written multiple times".
Definition set_writer (s : state) (i : nat) (w : writer) : state := {|
  written := written s; box := box s; readyCh := readyCh s; writers := <[i := w]> (writers s); readers := readers s |}.
Definition set_reader (s : state) (j : nat) (r : reader) : state := {|
  written := written s; box := box s; readyCh := readyCh s; writers := writers s; readers := <[j := r]> (readers s) |}.

(** [written.Swap(true)], [*box = value] and [close(readyCh)] of a writer; [<-readyCh] and [*reader.value] of a reader. *)
Inductive step (s : state) : state → Prop :=
| step_swap i value :
    writers s !! i = Some (WStart value) →
    step s {| written := true; box := box s; readyCh := readyCh s;
              writers := <[i := if written s then WPanic multiple else WStore value]> (writers s); readers := readers s |}
| step_store i value :
    writers s !! i = Some (WStore value) →
    step s {| written := written s; box := value; readyCh := readyCh s; writers := <[i := WClose value]> (writers s); readers := readers s |}
| step_close i value :
    writers s !! i = Some (WClose value) →
    step s {| written := written s; box := box s; readyCh := true;
              writers := <[i := if readyCh s then WPanic "close of closed channel" else WDone value]> (writers s); readers := readers s |}
| step_receive j :
    readers s !! j = Some RWait → readyCh s = true → step s (set_reader s j RLoad)
| step_load j :
    readers s !! j = Some RLoad → step s (set_reader s j (RGot (box s))).

End late_init.
Arguments writer : clear implicits.
Arguments reader : clear implicits.
Arguments state : clear implicits.
End LateInit.

(** ** Lemmas *)
Section late_init_lemmas.
Import LateInit.
Context {T : Type} (zeroValue : T).
Implicit Types (s : state T) (values : list T).

(** Nobody has swapped; or one writer has, which has got so far, and the others have panicked or not begun. *)
Definition idle values s : Prop :=
  written s = false ∧ readyCh s = false ∧ writers s = WStart <$> values ∧ Forall (λ r, r = RWait) (readers s).
Definition reader_ok (ready : bool) (value : T) (r : reader T) : Prop :=
  r = RWait ∨ ready = true ∧ (r = RLoad ∨ r = RGot value).
Definition owned values s (i : nat) (value : T) : Prop :=
  written s = true ∧ values !! i = Some value ∧
  (writers s !! i = Some (WStore value) ∧ readyCh s = false ∨
   writers s !! i = Some (WClose value) ∧ box s = value ∧ readyCh s = false ∨
   writers s !! i = Some (WDone value) ∧ box s = value ∧ readyCh s = true) ∧
  (∀ k w, k ≠ i → writers s !! k = Some w → (∃ v, values !! k = Some v ∧ w = WStart v) ∨ w = WPanic multiple) ∧
  Forall (reader_ok (readyCh s) value) (readers s).
Definition late_inv values s : Prop := idle values s ∨ ∃ i value, owned values s i value.

Lemma late_inv_step values s s' : late_inv values s → step s s' → late_inv values s' ∧ length (writers s') = length (writers s).
Proof.
  intros Hinv Hstep. split; [|by inversion_clear Hstep; cbn; rewrite ?length_insert]. destruct Hinv as [(Hw & Hr & Hws & Hrs)|(i & value & Hw & Hv & Hi & Hother & Hrs)].
  - inversion Hstep as [k v Hk|k v Hk|k v Hk|j Hj Hready|j Hj]; subst s'.
    + right. exists k, v. rewrite Hws in Hk |- *. apply list_lookup_fmap_Some in Hk as (v' & [= <-] & Hk). rewrite Hw.
      split; [done|]. split; [done|]. split; [left; cbn; split; [|done]|split].
      * apply list_lookup_insert_eq. rewrite length_fmap. by eapply lookup_lt_Some.
      * intros k' w Hne. cbn. rewrite list_lookup_insert_ne by done. intros (v' & -> & Hv')%list_lookup_fmap_Some. left. eauto.
      * eapply Forall_impl; [exact Hrs|]. intros r ->. by left.
    + rewrite Hws in Hk. by apply list_lookup_fmap_Some in Hk as (? & [=] & _).
    + rewrite Hws in Hk. by apply list_lookup_fmap_Some in Hk as (? & [=] & _).
    + congruence.
    + rewrite Forall_lookup in Hrs. by apply Hrs in Hj.
  - assert (Hlen : i < length (writers s)) by (destruct Hi as [[? _]|[[? _]|[? _]]]; by eapply lookup_lt_Some).
    right. exists i, value. inversion Hstep as [k v Hk|k v Hk|k v Hk|j Hj Hready|j Hj]; subst s'.
    + assert (Hne : k ≠ i) by (intros ->; destruct Hi as [[? _]|[[? _]|[? _]]]; congruence). rewrite Hw.
      split; [done|]. split; [done|]. split; [cbn; by rewrite list_lookup_insert_ne|]. split; [|done]. cbn.
      intros k' w Hne'. destruct (decide (k' = k)) as [->|?]; [|rewrite list_lookup_insert_ne by done; by apply Hother].
      rewrite list_lookup_insert_eq by by eapply lookup_lt_Some. intros [= <-]. by right.
    + assert (k = i) as ->. { destruct (decide (k = i)); [done|]. destruct (Hother _ _ ltac:(done) Hk) as [(? & _ & [=])|[=]]. }
      destruct Hi as [[Hi Hr]|[[Hi _]|[Hi _]]]; [|congruence..]. assert (v = value) as -> by congruence.
      split; [done|]. split; [done|]. split; [right; left; cbn; split; [by apply list_lookup_insert_eq|done]|]. split; [|done].
      cbn. intros k' w Hne. rewrite list_lookup_insert_ne by done. by apply Hother.
    + assert (k = i) as ->. { destruct (decide (k = i)); [done|]. destruct (Hother _ _ ltac:(done) Hk) as [(? & _ & [=])|[=]]. }
      destruct Hi as [[Hi _]|[[Hi [Hb Hr]]|[Hi _]]]; [congruence| |congruence]. assert (v = value) as -> by congruence. rewrite Hr in Hrs |- *.
      split; [done|]. split; [done|]. split; [right; right; cbn; split; [by apply list_lookup_insert_eq|done]|]. split.
      * cbn. intros k' w Hne. rewrite list_lookup_insert_ne by done. by apply Hother.
      * cbn. eapply Forall_impl; [exact Hrs|]. intros r [->|[? _]]; [by left|done].
    + split; [done|]. split; [done|]. split; [done|]. split; [done|]. cbn. apply Forall_insert; [done|]. right. split; [done|by left].
    + split; [done|]. split; [done|]. split; [done|]. split; [done|]. cbn. apply Forall_insert; [done|].
      rewrite Forall_lookup in Hrs. destruct (Hrs _ _ Hj) as [?|[Hr _]]; [done|]. right. split; [done|right].
      destruct Hi as [[_ ?]|[(_ & _ & ?)|(_ & -> & _)]]; [congruence..|done].
Qed.

(** Each writer and reader has few steps to do. *)
Definition writer_steps (w : writer T) : nat := match w with WStart _ => 3 | WStore _ => 2 | WClose _ => 1 | _ => 0 end.
Definition reader_steps (r : reader T) : nat := match r with RWait => 2 | RLoad => 1 | RGot _ => 0 end.
Definition steps_left s : nat := sum_list_with writer_steps (writers s) + sum_list_with reader_steps (readers s).

Lemma sum_list_with_insert {A} (f : A → nat) l i x y : l !! i = Some x → f y < f x → sum_list_with f (<[i := y]> l) < sum_list_with f l.
Proof.
  revert i. induction l as [|z l IH]; intros [|i]; simpl; [done..|intros [= ->]; simpl; lia|]. intros Hi Hf. specialize (IH i Hi Hf). simpl. lia.
Qed.

Lemma step_steps_left s s' : step s s' → steps_left s' < steps_left s.
Proof.
  unfold steps_left. destruct 1 as [k v Hk|k v Hk|k v Hk|j Hj Hready|j Hj]; cbn.
  1-3: match goal with |- sum_list_with _ (<[_ := ?w]> _) + _ < _ =>
    pose proof (sum_list_with_insert writer_steps _ _ _ w Hk ltac:(repeat case_match; cbn; lia)) end; lia.
  - pose proof (sum_list_with_insert reader_steps _ _ _ RLoad Hj ltac:(cbn; lia)). lia.
  - pose proof (sum_list_with_insert reader_steps _ _ _ (RGot (box s)) Hj ltac:(cbn; lia)). lia.
Qed.

Lemma steps_left_initial values n : steps_left (NewLateInit zeroValue values n) = 3 * length values + 2 * n.
Proof.
  unfold steps_left, NewLateInit. cbn [writers readers].
  assert (sum_list_with writer_steps (WStart <$> values) = 3 * length values) as ->.
  { induction values as [|v values IH]; [done|]. rewrite fmap_cons. cbn [sum_list_with writer_steps length]. rewrite IH. lia. }
  assert (sum_list_with reader_steps (replicate n RWait) = 2 * n) as -> by (induction n as [|n IH]; [done|]; cbn [replicate sum_list_with reader_steps]; rewrite IH; lia). done.
Qed.

Lemma late_inv_initial values n : late_inv values (NewLateInit zeroValue values n).
Proof. left. split; [done|]. split; [done|]. split; [done|]. cbn. apply Forall_replicate. done. Qed.

Lemma late_inv_run values n k s : nsteps step k (NewLateInit zeroValue values n) s →
  late_inv values s ∧ length (writers s) = length values ∧ steps_left s + k ≤ 3 * length values + 2 * n ∧ length (readers s) = n.
Proof.
  intros Hs. rewrite <- (steps_left_initial values n).
  assert (Hgen : ∀ s0, late_inv values s0 → nsteps step k s0 s → late_inv values s ∧ length (writers s) = length (writers s0) ∧
    steps_left s + k ≤ steps_left s0 ∧ length (readers s) = length (readers s0)).
  { clear Hs. revert s. induction k as [|k IH]; intros s s0 Hinv Hrun; inversion Hrun as [|? ? s1 ? Hstep Hrest]; subst; [split; [done|split; [done|split; [lia|done]]]|].
    destruct (late_inv_step _ _ _ Hinv Hstep) as [Hinv1 Hlen1]. destruct (IH _ _ Hinv1 Hrest) as (? & ? & ? & Hl). split; [done|].
    apply step_steps_left in Hstep as Hlt. split; [congruence|]. split; [lia|]. rewrite Hl. by inversion_clear Hstep; cbn; rewrite ?length_insert. }
  destruct (Hgen _ (late_inv_initial values n) Hs) as (? & Hl & ? & Hr). split; [done|]. cbn in Hl, Hr. rewrite length_fmap in Hl.
  rewrite length_replicate in Hr. done.
Qed.

End late_init_lemmas.

(** ** Properties *)

(** C32. A value that is set late is published safely, whatever the interleaving of any number of writers and readers. All runs are short. In
    each state that is reached, a writer that has panicked did so since another one was first, not by closing the channel again; a
    reader that has returned got what one writer has stored before it closed the channel, never the zero value of the box or a mixture,
    and all readers get the same; and a state in which nobody can go on has served all readers if there was a writer. *)
Theorem late_init_published {T : Type} (zeroValue : T) (values : list T) (n k : nat) (s : LateInit.state T) :
  nsteps LateInit.step k (LateInit.NewLateInit zeroValue values n) s →
  k ≤ 3 * length values + 2 * n ∧
  (∀ i msg, LateInit.writers s !! i = Some (LateInit.WPanic msg) → msg = LateInit.multiple ∧ LateInit.written s = true) ∧
  (∃ value, ∀ j v, LateInit.readers s !! j = Some (LateInit.RGot v) →
    v = value ∧ ∃ i, values !! i = Some v ∧ LateInit.writers s !! i = Some (LateInit.WDone v)) ∧
  ((∀ s', ¬ LateInit.step s s') → values ≠ [] → ∃ value, value ∈ values ∧ LateInit.readers s = replicate n (LateInit.RGot value)).
Proof.
  intros Hs. destruct (late_inv_run zeroValue values n k s Hs) as (Hinv & Hlen & Hsteps & Hreaders). split; [lia|].
  destruct Hinv as [(Hw & Hr & Hws & Hrs)|(i & value & Hw & Hv & Hi & Hother & Hrs)].
  - rewrite Forall_lookup in Hrs. split; [|split].
    + rewrite Hws. by intros i msg (? & [=] & _)%list_lookup_fmap_Some.
    + exists zeroValue. intros j v Hj. by apply Hrs in Hj.
    + intros Hstuck Hne. destruct values as [|v values]; [done|]. destruct (Hstuck _ (LateInit.step_swap s 0 v ltac:(by rewrite Hws))).
  - rewrite Forall_lookup in Hrs. split; [|split].
    + intros k' msg Hk. split; [|done]. destruct (decide (k' = i)) as [->|Hne]; [destruct Hi as [[? _]|[[? _]|[? _]]]; congruence|].
      destruct (Hother _ _ Hne Hk) as [(? & _ & Heq)|Heq]; congruence.
    + exists value. intros j v Hj. destruct (Hrs _ _ Hj) as [?|[Hready [?|[= ->]]]]; [done..|]. split; [done|]. exists i. split; [done|].
      destruct Hi as [[_ ?]|[(_ & _ & ?)|(? & _)]]; [congruence..|done].
    + intros Hstuck _. exists value. split; [by eapply list_elem_of_lookup_2|]. destruct Hi as [[Hi _]|[(Hi & _ & _)|(Hi & Hb & Hready)]].
      * destruct (Hstuck _ (LateInit.step_store s i value Hi)).
      * destruct (Hstuck _ (LateInit.step_close s i value Hi)).
      * symmetry. apply replicate_as_Forall_2; [done|]. apply Forall_lookup. intros j r Hj. destruct (Hrs _ _ Hj) as [-> | [_ [-> | ->]]].
        -- destruct (Hstuck _ (LateInit.step_receive s j Hj Hready)).
        -- destruct (Hstuck _ (LateInit.step_load s j Hj)).
        -- done.
Qed.

(** Two writers and a reader: the second writer swaps first, so that the first one panics, and the reader gets its value. *)
Lemma late_init_published_witness :
  let s0 := LateInit.NewLateInit 0 [5; 6] 1 in
  ∃ s, nsteps LateInit.step 6 s0 s ∧ LateInit.readers s = [LateInit.RGot 6] ∧
    LateInit.writers s = [LateInit.WPanic LateInit.multiple; LateInit.WDone 6] ∧ 6 ≤ 3 * 2 + 2 * 1.
Proof.
  intros s0. set (s := {| LateInit.written := true; LateInit.box := 6; LateInit.readyCh := true;
    LateInit.writers := [LateInit.WPanic LateInit.multiple; LateInit.WDone 6]; LateInit.readers := [LateInit.RGot 6] |}).
  exists s. assert (Hrun : nsteps LateInit.step 6 s0 s); [|split; [exact Hrun|]].
  - eapply nsteps_l; [by apply (LateInit.step_swap _ 1 6)|]. eapply nsteps_l; [by apply (LateInit.step_store _ 1 6)|].
    eapply nsteps_l; [by apply (LateInit.step_swap _ 0 5)|]. eapply nsteps_l; [by apply (LateInit.step_close _ 1 6)|].
    eapply nsteps_l; [by apply (LateInit.step_receive _ 0)|]. eapply nsteps_l; [by apply (LateInit.step_load _ 0)|]. apply nsteps_O.
  - pose proof (late_init_published 0 [5; 6] 1 6 s Hrun) as (Hk & _). split; [reflexivity|]. split; [reflexivity|]. exact Hk.
Defined.
