(* ===== verification/Errors.v ===== *)
(** * Errors: tagged errors (util/errors/tag.go, util/errors/errors.go)

    An [error] is a tree: a tag or a message wraps another error, [Join] wraps
    several. A nil error is [None]. *)

From S2P Require Import Prelude Util.

Inductive error : Type :=
| taggedError (tag : string) (err : error)
| wrapError (msg : string) (err : error)
| joinError (errs : list error)
| errorString (msg : string)
| apiStatus (reason message : string)
| Canceled
| DeadlineExceeded.

(** [fmt.Errorf(format + ": %w", ..., err)]. *)
Definition Wrapf (msg : string) (err : error) : error := wrapError msg err.

Definition Tag (tag : string) (err : option error) : option error :=
  match err with
  | None => None
  | Some err => Some (taggedError tag err)
  end.

(** The formatted message is passed as [msg]. *)
Definition TagErrorf (tag msg : string) : error := taggedError tag (errorString msg).

(** A nil [err] is formatted by [%w] as [%!w(<nil>)] and wraps nothing. *)
Definition TagWrapf (tag : string) (err : option error) (msg : string) : error :=
  match err with
  | Some err => taggedError tag (wrapError msg err)
  | None => taggedError tag (errorString (msg +:+ ": %!w(<nil>)"))
  end.

Fixpoint Error (err : error) : string :=
  match err with
  | taggedError _ err => Error err
  | wrapError msg err => msg +:+ ": " +:+ Error err
  | joinError errs =>
      (fix join (errs : list error) : string :=
         match errs with
         | [] => ""
         | [err] => Error err
         | err :: errs => Error err +:+ String (Ascii.ascii_of_nat 10) "" +:+ join errs
         end) errs
  | errorString msg => msg
  | apiStatus _ message => message
  | Canceled => "context canceled"
  | DeadlineExceeded => "context deadline exceeded"
  end.

(** [errors.Is(err, context.Canceled)] and [errors.Is(err, context.DeadlineExceeded)]:
    the target occurs in the tree. *)
Fixpoint IsCanceled (err : error) : bool :=
  match err with
  | taggedError _ err | wrapError _ err => IsCanceled err
  | joinError errs => existsb IsCanceled errs
  | Canceled => true
  | _ => false
  end.
Fixpoint IsDeadlineExceeded (err : error) : bool :=
  match err with
  | taggedError _ err | wrapError _ err => IsDeadlineExceeded err
  | joinError errs => existsb IsDeadlineExceeded errs
  | DeadlineExceeded => true
  | _ => false
  end.

(** The tags that an error contributes itself, then those of what it unwraps to. *)
Fixpoint recurseScanTags (err : error) (tags : list string) : list string :=
  let tags := match err with taggedError tag _ => tags ++ [tag] | _ => tags end in
  let tags := match err with apiStatus reason _ => tags ++ [reason] | _ => tags end in
  let tags := if IsCanceled err then tags ++ ["ContextCancel"] else tags in
  let tags := if IsDeadlineExceeded err then tags ++ ["ContextTimeout"] else tags in
  match err with
  | taggedError _ child | wrapError _ child => recurseScanTags child tags
  | joinError children =>
      (fix scan (children : list error) (tags : list string) : list string :=
         match children with
         | [] => tags
         | child :: children => scan children (recurseScanTags child tags)
         end) children tags
  | _ => tags
  end.

Definition GetTags (err : error) : list string := recurseScanTags err [].

(** Keep [tags[i]] unless it occurs in [tags[:i]]. *)
Fixpoint unique_tags (before tags : list string) : list string :=
  match tags with
  | [] => []
  | tag :: tags =>
      if (Slices.FindInSlice before tag =? -1)%Z
      then tag :: unique_tags (before ++ [tag]) tags
      else unique_tags (before ++ [tag]) tags
  end.

Definition SerializeTags (err : option error) : string :=
  match err with
  | None => "nil"
  | Some err =>
      let tags := GetTags err in
      if bool_decide (tags = []) then "unknown"
      else String.concat "/" (unique_tags [] tags)
  end.

(** What the source relies on in k8s.io/apimachinery/pkg/api/errors: the two
    predicates look through wrapped errors. *)
Class KubeErrors := {
  IsNotFound : error → bool;
  IsConflict : error → bool;
  IsNotFound_tagged : ∀ tag err, IsNotFound (taggedError tag err) = IsNotFound err;
  IsNotFound_wrap : ∀ msg err, IsNotFound (wrapError msg err) = IsNotFound err;
  IsConflict_tagged : ∀ tag err, IsConflict (taggedError tag err) = IsConflict err;
  IsConflict_wrap : ∀ msg err, IsConflict (wrapError msg err) = IsConflict err
}.

(** A model of the two predicates by the reason of the first API status. *)
Fixpoint reason_of (err : error) : option string :=
  match err with
  | taggedError _ err | wrapError _ err => reason_of err
  | joinError errs =>
      (fix first (errs : list error) : option string :=
         match errs with
         | [] => None
         | err :: errs =>
             match reason_of err with Some reason => Some reason | None => first errs end
         end) errs
  | apiStatus reason _ => Some reason
  | _ => None
  end.

#[export] Instance reason_KubeErrors : KubeErrors := {|
  IsNotFound err := bool_decide (reason_of err = Some "NotFound");
  IsConflict err := bool_decide (reason_of err = Some "Conflict");
  IsNotFound_tagged _ _ := eq_refl;
  IsNotFound_wrap _ _ := eq_refl;
  IsConflict_tagged _ _ := eq_refl;
  IsConflict_wrap _ _ := eq_refl
|}.

Lemma FindInSlice_absent `{EqDecision T} (l : list T) x :
  (Slices.FindInSlice l x =? -1)%Z = true ↔ x ∉ l.
Proof.
  rewrite Z.eqb_eq. unfold Slices.FindInSlice. rewrite FindInSliceWith_none. split.
  - intros H Hx. specialize (H x Hx). by case_bool_decide.
  - intros Hx y Hy. case_bool_decide; congruence.
Qed.

Lemma SliceContains_spec `{EqDecision T} (l : list T) x :
  Slices.SliceContains l x = true ↔ x ∈ l.
Proof.
  unfold Slices.SliceContains. rewrite negb_true_iff, <- not_true_iff_false, FindInSlice_absent.
  destruct (decide (x ∈ l)); naive_solver.
Qed.

Section error_ind.
Variable P : error → Prop.
Hypotheses (Htag : ∀ tag err, P err → P (taggedError tag err)) (Hwrap : ∀ msg err, P err → P (wrapError msg err))
  (Hjoin : ∀ errs, Forall P errs → P (joinError errs)) (Hstr : ∀ msg, P (errorString msg))
  (Hapi : ∀ r m, P (apiStatus r m)) (Hcan : P Canceled) (Hdl : P DeadlineExceeded).

(** Induction on error trees, with the hypothesis for every joined error. *)
Fixpoint error_tree_ind (err : error) : P err :=
  match err with
  | taggedError tag err => Htag tag err (error_tree_ind err)
  | wrapError msg err => Hwrap msg err (error_tree_ind err)
  | joinError errs => Hjoin errs ((fix all (errs : list error) : Forall P errs :=
      match errs with [] => Forall_nil_2 P | e :: errs => Forall_cons_2 P e errs (error_tree_ind e) (all errs) end) errs)
  | errorString msg => Hstr msg
  | apiStatus r m => Hapi r m
  | Canceled => Hcan
  | DeadlineExceeded => Hdl
  end.
End error_ind.

(** Scanning appends the tags of the error to those found before. *)
Lemma recurseScanTags_app err : ∀ tags, recurseScanTags err tags = tags ++ recurseScanTags err [].
Proof.
  induction err as [tag err IH|msg err IH|errs IH| | | |] using error_tree_ind; intros tags; simpl.
  all: repeat match goal with |- context [if ?b then _ else _] => destruct b end; simpl; rewrite ?app_nil_r; try done.
  all: try by (rewrite IH; symmetry; rewrite IH; by rewrite <- ?app_assoc).
  all: try by rewrite <- ?app_assoc.
  all: assert (Hscan : ∀ tags, (fix scan (children : list error) (tags : list string) : list string :=
         match children with [] => tags | child :: children => scan children (recurseScanTags child tags) end) errs tags =
       tags ++ (fix scan (children : list error) (tags : list string) : list string :=
         match children with [] => tags | child :: children => scan children (recurseScanTags child tags) end) errs []).
  all: try (clear -IH; induction IH as [|e errs He _ IH]; intros tags'; [by rewrite app_nil_r|];
    rewrite He, IH; symmetry; rewrite IH; by rewrite app_assoc).
  all: rewrite Hscan; symmetry; rewrite Hscan; by rewrite <- ?app_assoc.
Qed.

(** Keeping first occurrences gives each tag once, in the order of the first ones. *)
Lemma unique_tags_spec (before tags : list string) :
  NoDup (unique_tags before tags) ∧ sublist (unique_tags before tags) tags ∧
  ∀ tag, tag ∈ unique_tags before tags ↔ tag ∈ tags ∧ tag ∉ before.
Proof.
  revert before. induction tags as [|t tags IH]; intros before; simpl; [set_solver by constructor|].
  destruct (IH (before ++ [t])) as (Hnd & Hsub & Hin).
  destruct (Slices.FindInSlice before t =? -1)%Z eqn:Hfind.
  - apply FindInSlice_absent in Hfind. split; [|split].
    + constructor; [|done]. rewrite Hin. set_solver.
    + by constructor.
    + intros tag. rewrite !elem_of_cons, Hin, elem_of_app, list_elem_of_singleton.
      destruct (decide (tag = t)); set_solver.
  - assert (t ∈ before) as Hbefore.
    { destruct (decide (t ∈ before)) as [|Hn]; [done|].
      apply FindInSlice_absent in Hn. congruence. }
    split; [done|]. split; [by constructor|].
    intros tag. rewrite !elem_of_cons, Hin, elem_of_app, list_elem_of_singleton. set_solver.
Qed.

(** The label that metrics use for an error: nil and an error without tags have fixed names;
    otherwise its tags, each once and in the order of their first occurrence from the
    outermost error inwards, are joined by slashes; wrapping puts the new tag in front. *)
Theorem SerializeTags_correct (err : option error) (tag msg : string) :
  match err with
  | None => SerializeTags err = "nil"
  | Some e =>
      ∃ tags, SerializeTags err = (if decide (GetTags e = []) then "unknown" else String.concat "/" tags) ∧
        NoDup tags ∧ sublist tags (GetTags e) ∧ (∀ t, t ∈ tags ↔ t ∈ GetTags e)
  end ∧
  (∀ e, err = Some e → IsCanceled e = false → IsDeadlineExceeded e = false →
   GetTags (TagWrapf tag err msg) = tag :: GetTags e).
Proof.
  split.
  - destruct err as [e|]; [|done]. destruct (unique_tags_spec [] (GetTags e)) as (Hnd & Hsub & Hin).
    exists (unique_tags [] (GetTags e)). split; [|split; [done|split; [done|]]].
    + unfold SerializeTags. by destruct (decide (GetTags e = [])); [rewrite bool_decide_eq_true_2|rewrite bool_decide_eq_false_2].
    + intros t. rewrite Hin. set_solver.
  - intros e -> Hc Hd. unfold GetTags. simpl. rewrite Hc, Hd. by rewrite (recurseScanTags_app e [tag]).
Qed.

Lemma SerializeTags_correct_witness :
  GetTags (TagWrapf "Outer" (Some (taggedError "Inner" (apiStatus "Conflict" "changed"))) "cannot write") =
    ["Outer"; "Inner"; "Conflict"].
Proof.
  rewrite (proj2 (SerializeTags_correct (Some (taggedError "Inner" (apiStatus "Conflict" "changed"))) "Outer" "cannot write")
    (taggedError "Inner" (apiStatus "Conflict" "changed"))); reflexivity.
Defined.
