(* ===== verification/Iter.v ===== *)
(** * Iter: the pushing iterators of util/iter/iter.go and util/sort/sort.go

    An iterator calls its [yield] for each item until [yield] answers [Break].
    A [yield] acts on variables that it captures, so it is a state transformer
    here, and it may panic. [Module Iter] has one definition per function of the
    package; [Module Sort] is util/sort/sort.go, whose [LeftZip] is an iterator. *)

From S2P Require Import Prelude Util.

Module Iter.

(** [type Flow bool]. *)
Definition Flow : Type := bool.
Definition Continue : Flow := true.
Definition Break : Flow := false.
Definition ContinueIf (condition : bool) : Flow := condition.

(** A consumer with captured variables of type [S]; an iterator must work for the
    variables of every consumer. *)
Definition Yield (S T : Type) : Type := T → S → outcome (S * Flow).
Definition Iter (T : Type) : Type := ∀ S : Type, Yield S T → S → outcome (S * Flow).

(** [Filter] calls [yield] and answers [Continue], whatever [yield] answered. *)
Definition FilterM {T} (it : Iter T) (filterFn : T → outcome bool) : Iter T := λ S yield s,
  it S (λ item s,
    keep ← filterFn item;
    if keep : bool then '(s, _) ← yield item s; Ret (s, Continue) else Ret (s, Continue)) s.
Definition Filter {T} (it : Iter T) (filterFn : T → bool) : Iter T :=
  FilterM it (λ item, Ret (filterFn item)).

(** [Deduplicate] allocates [seen] when it is called, and the iterator updates it: a
    run starts from the [seen] that earlier runs left and returns its own. *)
Definition DeduplicateFrom {T} `{Countable T} (seen : gset T) (it : Iter T) :
    ∀ S : Type, Yield S T → S → outcome (S * gset T * Flow) := λ S yield s,
  '(s, seen, flow) ← it (S * gset T)%type
    (λ value '(s, seen),
      if bool_decide (value ∈ seen) then Ret (s, seen, Continue)
      else '(s, _) ← yield value s; Ret (s, {[value]} ∪ seen, Continue)) (s, seen);
  Ret (s, seen, flow).
(** The first run of the result of [Deduplicate]. *)
Definition Deduplicate {T} `{Countable T} (it : Iter T) : Iter T := λ S yield s,
  '(s, _, flow) ← DeduplicateFrom ∅ it S yield s; Ret (s, flow).

Definition Map {T U} (it : Iter T) (mapFn : T → U) : Iter U := λ S yield s,
  it S (λ value s, yield (mapFn value) s) s.

Definition FlatMap {T U} (it : Iter T) (mapFn : T → Iter U) : Iter U := λ S yield s,
  it S (λ intoIter s, mapFn intoIter S (λ value s, yield value s) s) s.

Definition Fold {T U} (it : Iter T) (initial : U) (foldFn : U → T → U) : outcome U :=
  '(state, _) ← it U (λ value state, Ret (foldFn state value, Continue)) initial;
  Ret state.

Definition Reduce {T} (it : Iter T) (reduceFn : T → T → T) : outcome (option T) :=
  Fold it None (λ opt next,
    match opt with Some state => Some (reduceFn state next) | None => Some next end).

Definition Extremum {T} (it : Iter T) (preferRight : T → T → bool) : outcome (option T) :=
  Fold it None (λ opt next, Optional.SetOrChoose opt next preferRight).

Definition Any (it : Iter bool) : outcome bool :=
  '(found, _) ← it bool
    (λ value found, if value then Ret (true, Break) else Ret (found, Continue)) false;
  Ret found.

Definition All (it : Iter bool) : outcome bool :=
  any ← Any (Map it negb); Ret (negb any).

Definition Empty {T} : Iter T := λ S yield s, Ret (s, Continue).

Fixpoint Chain {T} (iters : list (Iter T)) : Iter T := λ S yield s,
  match iters with
  | [] => Ret (s, Continue)
  | it :: iters =>
      '(s, flow) ← it S yield s;
      if flow : bool then Chain iters S yield s else Ret (s, Break)
  end.

Definition Enumerate {T} (it : Iter T) : Iter (Z * T) := λ S yield s,
  '(s, _, flow) ← it (S * Z)%type
    (λ item '(s, counter),
      '(s, flow) ← yield (counter, item) s;
      Ret (s, (counter + 1) `mod` 2 ^ 64, flow)%Z) (s, 0%Z);
  Ret (s, flow).

(** [FromSlice]: the loop that the list iterators share. *)
Fixpoint FromSlice {T} (slice : list T) : Iter T := λ S yield s,
  match slice with
  | [] => Ret (s, Continue)
  | item :: slice =>
      '(s, flow) ← yield item s;
      if flow : bool then FromSlice slice S yield s else Ret (s, Break)
  end.

Definition Repeat {T} (value : T) (count : nat) : Iter T := FromSlice (replicate count value).

(** [Range start end]: the int values from [start] up to, not including, [end]. *)
Definition Range (start end_ : Z) : Iter Z :=
  FromSlice ((λ i : nat, start + Z.of_nat i)%Z <$> seq 0 (Z.to_nat (end_ - start))).

Section maps.
Context `{!GoRuntime}.

Definition MapKvs {K V} `{Countable K} (map_ : gmap K V) : Iter (K * V) :=
  FromSlice (map_order map_).
Definition MapKeys {K V} `{Countable K} (map_ : gmap K V) : Iter K := Map (MapKvs map_) fst.
Definition MapValues {K V} `{Countable K} (map_ : gmap K V) : Iter V := Map (MapKvs map_) snd.
Definition FromMap {K V} `{Countable K} (m : gmap K V) : Iter (K * V) := FromSlice (map_order m).
Definition FromSet {T} `{Countable T} (set_ : gset T) : Iter T := FromSlice (set_order set_).

(** The union of the keys of two maps: the keys of [m1] in its order, then those
    that only [m2] has. *)
Definition FromMap2 {K V1 V2} `{Countable K} (m1 : gmap K V1) (m2 : gmap K V2) :
    Iter (K * (option V1 * option V2)) := λ S yield s,
  '(s, flow) ← FromSlice (map_order m1) S
    (λ '(k, v1), yield (k, (Some v1, Optional.GetMap m2 k))) s;
  if negb flow then Ret (s, Break) else
  FromSlice (map_order m2) S
    (λ '(k, v2) s,
      match m1 !! k with
      | None => yield (k, (None, Some v2)) s
      | Some _ => Ret (s, Continue)
      end) s.

End maps.

Definition CollectSlice {T} (it : Iter T) : outcome (list T) :=
  '(output, _) ← it (list T) (λ value output, Ret (output ++ [value], Continue)) [];
  Ret output.

Definition Count {T} (it : Iter T) : outcome Z :=
  '(output, _) ← it Z (λ _ output, Ret ((output + 1) `mod` 2 ^ 64, Continue)%Z) 0%Z;
  Ret output.

Definition CollectMap {K V} `{Countable K} (it : Iter (K * V)) : outcome (gmap K V) :=
  '(output, _) ← it (gmap K V) (λ '(k, v) output, Ret (<[k := v]> output, Continue)) ∅;
  Ret output.

Definition CollectSet {T} `{Countable T} (it : Iter T) : outcome (gset T) :=
  '(set_, _) ← it (gset T) (λ value set_, Ret ({[value]} ∪ set_, Continue)) ∅;
  Ret set_.

(** [TryForEach]: [eachFn] acts on the variables [S] and returns an error or nil. *)
Definition TryForEach {T S E} (it : Iter T) (eachFn : T → S → outcome (S * option E)) (s : S) :
    outcome (S * option E) :=
  '(s, err, _) ← it (S * option E)%type
    (λ value '(s, _),
      '(s, err) ← eachFn value s;
      match err with
      | Some e => Ret (s, Some e, Break)
      | None => Ret (s, None, Continue)
      end) (s, None);
  Ret (s, err).

Definition Sum (it : Iter Z) : outcome Z :=
  Fold it 0%Z (λ sum next, wrap64 (sum + next)).

Definition Histogram {T} `{Countable T} (it : Iter T) : outcome (gmap T Z) :=
  '(output, _) ← it (gmap T Z)
    (λ item output, Ret (<[item := (default 0%Z (output !! item) + 1)%Z]> output, Continue)) ∅;
  Ret output.

Definition FirstSome {T} (it : Iter (option T)) : outcome (option T) :=
  '(ret, _) ← it (option T)
    (λ opt ret, if Optional.IsSome opt then Ret (opt, Break) else Ret (opt, Continue)) None;
  Ret ret.

Fixpoint ZipRight {Left Right} (rights : list Right) : list (option Left * option Right) :=
  match rights with [] => [] | r :: rights => (None, Some r) :: ZipRight rights end.
Fixpoint ZipList {Left Right} (lefts : list Left) (rights : list Right) :
    list (option Left * option Right) :=
  match lefts, rights with
  | [], rights => ZipRight rights
  | l :: lefts, [] => (Some l, None) :: ZipList lefts []
  | l :: lefts, r :: rights => (Some l, Some r) :: ZipList lefts rights
  end.
Definition Zip {Left Right} (leftSlice : list Left) (rightSlice : list Right) :
    Iter (option Left * option Right) := FromSlice (ZipList leftSlice rightSlice).

(** [MustBeAffine] and [Defer] act on variables outside the consumer: the lock of
    the affine iterator, and the world [W] that the finalizer updates. *)
Definition AffineIter (W T : Type) : Type :=
  ∀ S : Type, Yield S T → S → bool * W → outcome (S * Flow * (bool * W)).

Definition MustBeAffine {W T} (it : ∀ S : Type, Yield S T → S → W → outcome (S * Flow * W))
    (message : string) : AffineIter W T := λ S yield s '(lock, w),
  if lock : bool then Panic message
  else '(s, flow, w) ← it S yield s w; Ret (s, flow, (true, w)).

Definition Defer {W T} (it : Iter T) (finalizer : W → W) : AffineIter W T :=
  MustBeAffine (λ S yield s w, '(s, flow) ← it S yield s; Ret (s, flow, finalizer w))
    "Cannot invoke iterators with a finalizer multiple times".

End Iter.

(** ** util/sort/sort.go *)
Module Sort.

Definition ByKey {T} (slice : list T) (keyFn : T → string) : list T :=
  stable_sort (λ x y, string_lt (keyFn x) (keyFn y)) slice.

Section left_zip.
Context {Left Right : Type}.
Variables (leftKeyFn : Left → string) (rightKeyFn : Right → string).

(** The inner loop: drop the right items whose key is too small; the head that is
    left is the match if its key is equal, and is not consumed. *)
Fixpoint LeftZip_shift (leftKey : string) (rightSlice : list Right) :
    option Right * list Right :=
  match rightSlice with
  | [] => (None, [])
  | rightHead :: rest =>
      let rightKey := rightKeyFn rightHead in
      if string_lt rightKey leftKey then LeftZip_shift leftKey rest
      else if bool_decide (rightKey = leftKey) then (Some rightHead, rightSlice)
      else (None, rightSlice)
  end.

Fixpoint LeftZip (leftSlice : list Left) (rightSlice : list Right) :
    Iter.Iter (Left * option Right) := λ S yield s,
  match leftSlice with
  | [] => Ret (s, Iter.Continue)
  | leftItem :: leftSlice =>
      let '(rightItem, rightSlice) := LeftZip_shift (leftKeyFn leftItem) rightSlice in
      '(s, flow) ← yield (leftItem, rightItem) s;
      if flow : bool then LeftZip leftSlice rightSlice S yield s else Ret (s, Iter.Break)
  end.

End left_zip.

End Sort.

(** ** What an iterator delivers

    [pushes it l]: the iterator offers the items of [l] in order and stops at the
    first [Break]. [drains it l]: it offers all the items of [l], whatever the
    consumer answers, and reports [Continue]. Both are what a consumer that never
    breaks sees: [visits]. *)
Definition pushes {T} (it : Iter.Iter T) (l : list T) : Prop :=
  ∀ S (y : Iter.Yield S T) s, it S y s = Iter.FromSlice l S y s.

Definition drains {T} (it : Iter.Iter T) (l : list T) : Prop :=
  ∀ S (y : Iter.Yield S T) s,
    it S y s = (s ← outcome_foldl (λ s x, '(s, _) ← y x s; Ret s) s l; Ret (s, Iter.Continue)).

Definition visits {T} (it : Iter.Iter T) (l : list T) : Prop :=
  ∀ S (y : Iter.Yield S T) (g : S → T → S) s,
    (∀ s x, x ∈ l → y x s = Ret (g s x, Iter.Continue)) →
    it S y s = Ret (foldl g s l, Iter.Continue).

(** Keep the first occurrence of each item that is not in [seen]. *)
Fixpoint dedup_from {T} `{Countable T} (seen : gset T) (l : list T) : list T :=
  match l with
  | [] => []
  | x :: l =>
      if bool_decide (x ∈ seen) then dedup_from seen l
      else x :: dedup_from ({[x]} ∪ seen) l
  end.

Lemma FromSlice_app {T S} (l1 l2 : list T) (y : Iter.Yield S T) s :
  Iter.FromSlice (l1 ++ l2) S y s =
    ('(s, flow) ← Iter.FromSlice l1 S y s;
     if flow : bool then Iter.FromSlice l2 S y s else Ret (s, Iter.Break)).
Proof.
  revert s. induction l1 as [|x l1 IH]; intros s; simpl; [done|].
  destruct (y x s) as [[s' []]|]; simpl; auto.
Qed.

Section delivery.
Context {T : Type}.
Implicit Types (it : Iter.Iter T) (l : list T).

Lemma FromSlice_pushes l : pushes (Iter.FromSlice l) l.
Proof. done. Qed.

Lemma pushes_visits it l : pushes it l → visits it l.
Proof.
  intros Hit S y g s Hy. rewrite Hit. clear Hit. revert s.
  induction l as [|x l IH]; intros s; simpl; [done|].
  rewrite Hy by left. simpl. apply IH. intros s' z Hz. apply Hy. by right.
Qed.

Lemma drains_visits it l : drains it l → visits it l.
Proof.
  intros Hit S y g s Hy. rewrite Hit.
  destruct (outcome_foldl_pure (λ s x, '(s, _) ← y x s; Ret s) g (λ _, True) s l) as [-> _];
    [done| |done].
  intros s' x _ Hx. by rewrite Hy.
Qed.

Lemma pushes_Map {U} it l (f : T → U) : pushes it l → pushes (Iter.Map it f) (f <$> l).
Proof.
  intros Hit S y s. unfold Iter.Map. rewrite Hit. clear Hit. revert s.
  induction l as [|x l IH]; intros s; simpl; [done|].
  destruct (y (f x) s) as [[s' []]|]; simpl; auto.
Qed.

Lemma drains_Map {U} it l (f : T → U) : drains it l → drains (Iter.Map it f) (f <$> l).
Proof.
  intros Hit S y s. unfold Iter.Map. rewrite Hit. f_equal. clear Hit. revert s.
  induction l as [|x l IH]; intros s; simpl; [done|].
  destruct (y (f x) s) as [[s' b]|]; simpl; auto.
Qed.

Lemma pushes_FlatMap {U} it l (f : T → Iter.Iter U) (g : T → list U) :
  pushes it l → (∀ x, x ∈ l → pushes (f x) (g x)) → pushes (Iter.FlatMap it f) (l ≫= g).
Proof.
  intros Hit Hf S y s. unfold Iter.FlatMap. rewrite Hit. clear Hit. revert s.
  induction l as [|x l IH]; intros s; [done|]. rewrite bind_cons. simpl.
  rewrite FromSlice_app, (Hf x) by left.
  destruct (Iter.FromSlice (g x) S _ s) as [[s' []]|]; simpl; [|done|done].
  apply IH. intros z Hz. apply Hf. by right.
Qed.

Lemma pushes_Chain its ls :
  Forall2 (@pushes T) its ls → pushes (Iter.Chain its) (concat ls).
Proof.
  induction 1 as [|it l its ls Hit _ IH]; intros S y s; simpl; [done|].
  rewrite FromSlice_app, Hit. destruct (Iter.FromSlice l S y s) as [[s' []]|]; simpl; auto.
Qed.

(** A filter over either kind of iterator is deaf to [Break]. *)
Lemma filter_loop {S} l (p : T → outcome bool) (b : T → bool) (y : Iter.Yield S T) s :
  (∀ x, x ∈ l → p x = Ret (b x)) →
  outcome_foldl (λ s x, '(s, _) ← (keep ← p x;
      if keep : bool then '(s, _) ← y x s; Ret (s, Iter.Continue) else Ret (s, Iter.Continue));
      Ret s) s l =
  outcome_foldl (λ s x, '(s, _) ← y x s; Ret s) s (filter (λ x, b x = true) l).
Proof.
  revert s. induction l as [|x l IH]; intros s Hp; simpl; [done|].
  rewrite (Hp x) by left. simpl.
  assert (Hl : ∀ z, z ∈ l → p z = Ret (b z)) by (intros; apply Hp; by right).
  destruct (b x) eqn:Hb.
  - rewrite filter_cons_True by done. simpl. destruct (y x s) as [[s' f]|]; simpl; auto.
  - rewrite filter_cons_False by congruence. simpl. auto.
Qed.

(** A consumer that never breaks sees the same run from both kinds of iterator. *)
Lemma run_continue it l {S} (y : Iter.Yield S T) s :
  pushes it l ∨ drains it l →
  (∀ x s s' f, x ∈ l → y x s = Ret (s', f) → f = Iter.Continue) →
  it S y s = (s ← outcome_foldl (λ s x, '(s, _) ← y x s; Ret s) s l; Ret (s, Iter.Continue)).
Proof.
  intros [Hit|Hit] Hy; rewrite Hit; [|done]. clear Hit. revert s.
  induction l as [|x l IH]; intros s; simpl; [done|].
  destruct (y x s) as [[s' f]|] eqn:Hyx; simpl; [|done].
  rewrite (Hy x s s' f) by (done || by left). apply IH. intros z ? ? ? Hz. apply Hy. by right.
Qed.

Lemma drains_FilterM it l p b :
  pushes it l ∨ drains it l → (∀ x, x ∈ l → p x = Ret (b x)) →
  drains (Iter.FilterM it p) (filter (λ x, b x = true) l).
Proof.
  intros Hit Hp S y s. unfold Iter.FilterM. rewrite (run_continue it l); [|done|].
  - by rewrite (filter_loop l p b).
  - intros x s1 s2 f Hx. rewrite Hp by done. simpl.
    destruct (b x); [destruct (y x s1) as [[]|]|]; simpl; congruence.
Qed.

Lemma drains_Filter it l b :
  pushes it l ∨ drains it l → drains (Iter.Filter it b) (filter (λ x, b x = true) l).
Proof. intros Hit. by apply drains_FilterM. Qed.

Lemma elem_of_dedup_from `{Countable T} seen l x :
  x ∈ dedup_from seen l ↔ x ∈ l ∧ x ∉ seen.
Proof.
  revert seen. induction l as [|y l IH]; intros seen; simpl; [set_solver|].
  case_bool_decide; [rewrite IH; set_solver|].
  rewrite !elem_of_cons, IH. destruct (decide (x = y)); set_solver.
Qed.

Lemma NoDup_dedup_from `{Countable T} seen l : NoDup (dedup_from seen l).
Proof.
  revert seen. induction l as [|y l IH]; intros seen; simpl; [constructor|].
  case_bool_decide; [done|]. constructor; [|done]. rewrite elem_of_dedup_from. set_solver.
Qed.

Lemma dedup_loop `{Countable T} {S} l (y : Iter.Yield S T) s seen :
  ('(s, _) ← outcome_foldl (λ st x, '(st, _) ←
      (let '(s, seen) := st in
       if bool_decide (x ∈ seen) then Ret (s, seen, Iter.Continue)
       else '(s, _) ← y x s; Ret (s, {[x]} ∪ seen, Iter.Continue)); Ret st) (s, seen) l;
   Ret s) = outcome_foldl (λ s x, '(s, _) ← y x s; Ret s) s (dedup_from seen l).
Proof.
  revert s seen. induction l as [|x l IH]; intros s seen; simpl; [done|].
  case_bool_decide; simpl; [apply IH|].
  destruct (y x s) as [[s' f]|]; simpl; [apply IH|done].
Qed.

(** A run of a deduplicated iterator offers the items that no earlier run offered,
    each once. *)
Lemma DeduplicateFrom_drains `{Countable T} it l seen :
  pushes it l ∨ drains it l →
  drains (λ S y s, '(s, _, flow) ← Iter.DeduplicateFrom seen it S y s; Ret (s, flow))
    (dedup_from seen l).
Proof.
  intros Hit S y s. unfold Iter.DeduplicateFrom. rewrite (run_continue it l); [|done|].
  - rewrite <- dedup_loop.
    match goal with |- context [outcome_foldl ?F (s, seen) l] =>
      destruct (outcome_foldl F (s, seen) l) as [[s' seen']|] end; done.
  - intros x [s' seen'] ? f _. case_bool_decide; simpl; [congruence|].
    destruct (y x s') as [[]|]; simpl; congruence.
Qed.

Lemma drains_Deduplicate `{Countable T} it l :
  pushes it l ∨ drains it l → drains (Iter.Deduplicate it) (dedup_from ∅ l).
Proof. apply DeduplicateFrom_drains. Qed.

(** ** Consumers *)

Lemma visits_Fold {U} it l (u : U) f : visits it l → Iter.Fold it u f = Ret (foldl f u l).
Proof. intros Hit. unfold Iter.Fold. by rewrite (Hit _ _ f). Qed.

Lemma visits_CollectSlice it l : visits it l → Iter.CollectSlice it = Ret l.
Proof.
  intros Hit. unfold Iter.CollectSlice.
  rewrite (Hit _ _ (λ output value, output ++ [value])) by done. simpl. f_equal. clear Hit.
  assert (∀ acc, foldl (λ output value, output ++ [value]) acc l = acc ++ l) as Hacc.
  { induction l as [|x l IH]; intros acc; simpl; [by rewrite app_nil_r|].
    by rewrite IH, <- app_assoc. }
  apply Hacc.
Qed.

Lemma visits_CollectSet `{Countable T} it l :
  visits it l → Iter.CollectSet it = Ret (list_to_set l).
Proof.
  intros Hit. unfold Iter.CollectSet.
  rewrite (Hit _ _ (λ set_ value, {[value]} ∪ set_)) by done. simpl. f_equal. clear Hit.
  assert (∀ acc : gset T, foldl (λ set_ value, {[value]} ∪ set_) acc l = list_to_set l ∪ acc)
    as Hacc.
  { induction l as [|x l IH]; intros acc; simpl; [set_solver|]. rewrite IH. set_solver. }
  rewrite Hacc. set_solver.
Qed.

(** [TryForEach] over an iterator that obeys [Break] is the loop that stops at the
    first error. *)
Fixpoint try_list {S E} (f : T → S → outcome (S * option E)) (s : S) (l : list T) :
    outcome (S * option E) :=
  match l with
  | [] => Ret (s, None)
  | x :: l =>
      '(s, err) ← f x s;
      match err with Some e => Ret (s, Some e) | None => try_list f s l end
  end.

(** Over an iterator that is deaf to [Break] it runs every item, and the last item
    alone decides the error. *)
Definition try_all {S E} (f : T → S → outcome (S * option E)) (s : S) (l : list T) :
    outcome (S * option E) :=
  outcome_foldl (λ '(s, _) x, f x s) (s, None) l.

Lemma pushes_TryForEach {S E} it l (f : T → S → outcome (S * option E)) s :
  pushes it l → Iter.TryForEach it f s = try_list f s l.
Proof.
  intros Hit. unfold Iter.TryForEach. rewrite Hit. clear Hit. revert s.
  induction l as [|x l IH]; intros s; simpl; [done|].
  destruct (f x s) as [[s' [e|]]|]; simpl; [done|apply IH|done].
Qed.

Lemma drains_TryForEach {S E} it l (f : T → S → outcome (S * option E)) s :
  drains it l → Iter.TryForEach it f s = try_all f s l.
Proof.
  intros Hit. unfold Iter.TryForEach, try_all. rewrite Hit. clear Hit.
  assert (∀ st, ('(s0, err, _) ← (s1 ← outcome_foldl
      (λ s1 x, '(s2, _) ← (let '(s2, _) := s1 in '(s3, err) ← f x s2;
          match err with
          | Some e => Ret (s3, Some e, Iter.Break)
          | None => Ret (s3, None, Iter.Continue)
          end); Ret s2) st l; Ret (s1, Iter.Continue)); Ret (s0, err)) =
      outcome_foldl (λ '(s, _) x, f x s) st l) as Hst; [|apply Hst].
  induction l as [|x l IH]; intros [s' err]; simpl; [done|].
  destruct (f x s') as [[s2 [e|]]|]; simpl; [apply IH|apply IH|done].
Qed.

End delivery.

(** *** Iterators over maps *)
Section two_maps.
Context `{!GoRuntime} {K V1 V2 : Type} `{Countable K}.

(** The keys of two maps with what each map has, in the order of [FromMap2]. *)
Definition pairs2 (m1 : gmap K V1) (m2 : gmap K V2) : list (K * (option V1 * option V2)) :=
  ((λ '(k, v1), (k, (Some v1, m2 !! k))) <$> map_order m1) ++
  omap (λ '(k, v2), match m1 !! k with None => Some (k, (None, Some v2)) | Some _ => None end) (map_order m2).

Lemma FromMap2_pushes m1 m2 : pushes (Iter.FromMap2 m1 m2) (pairs2 m1 m2).
Proof.
  intros S y s. unfold Iter.FromMap2, pairs2. rewrite FromSlice_app.
  assert (Hmap : ∀ (l : list (K * V1)) s, Iter.FromSlice l S (λ '(k, v1), y (k, (Some v1, m2 !! k))) s =
    Iter.FromSlice ((λ '(k, v1), (k, (Some v1, m2 !! k))) <$> l) S y s).
  { induction l as [|[k v] l IH]; intros s0; simpl; [done|].
    destruct (y (k, (Some v, m2 !! k)) s0) as [[s' []]|]; simpl; [apply IH|done|done]. }
  unfold Optional.GetMap. rewrite Hmap.
  destruct (Iter.FromSlice _ S y s) as [[s' []]|]; simpl; [|done|done]. clear Hmap s. revert s'.
  induction (map_order m2) as [|[k v] l IH]; intros s; [done|].
  rewrite omap_cons. cbn [Iter.FromSlice]. destruct (m1 !! k); cbn [mbind outcome_bind]; [apply IH|].
  cbn [Iter.FromSlice]. destruct (y _ s) as [[s' []]|]; cbn [mbind outcome_bind]; [apply IH|done|done].
Qed.

Lemma elem_of_pairs2 m1 m2 k o1 o2 :
  (k, (o1, o2)) ∈ pairs2 m1 m2 ↔ o1 = m1 !! k ∧ o2 = m2 !! k ∧ (is_Some o1 ∨ is_Some o2).
Proof.
  unfold pairs2. rewrite elem_of_app, list_elem_of_fmap, list_elem_of_omap. split.
  - intros [([k' v] & [= -> -> ->] & Hv%elem_of_map_order)|([k' v] & Hv%elem_of_map_order & Hm)]; [by eauto|].
    destruct (m1 !! k') eqn:H1; simplify_eq. by eauto.
  - intros (-> & -> & Hs). destruct (m1 !! k) as [v1|] eqn:H1.
    + left. exists (k, v1). by rewrite elem_of_map_order.
    + right. destruct (m2 !! k) as [v2|] eqn:H2; [|by destruct Hs as [[]|[]]].
      exists (k, v2). by rewrite elem_of_map_order, H1.
Qed.

End two_maps.

Lemma visits_CollectMap {K V} `{Countable K} (it : Iter.Iter (K * V)) l :
  visits it l → Iter.CollectMap it = Ret (foldl (λ m '(k, v), <[k := v]> m) ∅ l).
Proof.
  intros Hit. unfold Iter.CollectMap. rewrite (Hit _ _ (λ m '(k, v), <[k := v]> m)); [done|]. by intros m [k v] _.
Qed.

(** Collecting the items of a slice under their keys is [SliceToMap]. *)
Lemma CollectMap_SliceToMap {K V} `{Countable K} (l : list V) (key : V → K) :
  Iter.CollectMap (Iter.Map (Iter.FromSlice l) (λ v, (key v, v))) = Ret (Slices.SliceToMap l key).
Proof.
  rewrite (visits_CollectMap _ ((λ v, (key v, v)) <$> l)) by apply pushes_visits, pushes_Map, FromSlice_pushes.
  f_equal. unfold Slices.SliceToMap. generalize (∅ : gmap K V). induction l as [|x l IH]; intros m; simpl; [done|apply IH].
Qed.

Lemma push_Any it l : pushes it l ∨ drains it l → Iter.Any it = Ret (existsb id l).
Proof.
  assert (∀ b, (s ← outcome_foldl (λ s x, '(s, _) ←
      (if x : bool then Ret (true, Iter.Break) else Ret (s, Iter.Continue)); Ret s) b l;
      Ret s) = Ret (b || existsb id l)) as Hfold.
  { induction l as [|x l IH]; intros b; simpl; [by rewrite orb_false_r|].
    destruct x; simpl; rewrite IH; [by rewrite orb_true_r|done]. }
  unfold Iter.Any. intros [Hit|Hit]; rewrite Hit; clear Hit it.
  - clear Hfold. induction l as [|[] l IH]; simpl; [done|done|apply IH].
  - specialize (Hfold false). simpl in Hfold.
    match goal with |- context [outcome_foldl ?F false l] =>
      destruct (outcome_foldl F false l) as [b|] end; simpl in *; congruence.
Qed.

Lemma push_All it l : pushes it l ∨ drains it l → Iter.All it = Ret (forallb id l).
Proof.
  intros Hit. unfold Iter.All. rewrite (push_Any _ (negb <$> l)).
  - simpl. f_equal. clear Hit. induction l as [|[] l IH]; simpl; done.
  - destruct Hit; [left; by apply pushes_Map|right; by apply drains_Map].
Qed.

(** ** [LeftZip]: every left item with the first right item of its key *)
Section left_zip.
Context {Left Right : Type} (lk : Left → string) (rk : Right → string).

Definition right_match (rs : list Right) (l : Left) : option Right :=
  snd <$> list_find (λ r, rk r = lk l) rs.

Definition key_sorted {T} (k : T → string) (l : list T) : Prop :=
  StronglySorted (λ x y, String.le (k x) (k y)) l.

Lemma LeftZip_shift_spec l rs :
  key_sorted rk rs →
  ∃ rs0 rs', rs = rs0 ++ rs' ∧ Forall (λ r, string_lt (rk r) (lk l) = true) rs0 ∧
    Sort.LeftZip_shift rk (lk l) rs = (right_match rs l, rs').
Proof.
  unfold right_match. induction 1 as [|r rs Hrs IH Hr]; simpl.
  { exists [], []. auto. }
  destruct (string_lt (rk r) (lk l)) eqn:Hlt.
  - destruct IH as (rs0 & rs' & -> & Hall & ->). exists (r :: rs0), rs'.
    split; [done|]. split; [by constructor|]. apply string_lt_le in Hlt as [_ Hne].
    rewrite decide_False by done. by destruct (list_find _ _) as [[]|].
  - exists [], (r :: rs). split; [done|]. split; [constructor|].
    case_bool_decide as Heq; [by rewrite decide_True|]. rewrite decide_False by done.
    f_equal. assert (list_find (λ r0, rk r0 = lk l) rs = None) as ->; [|done].
    apply list_find_None, Forall_forall. intros r' Hr' Heq'.
    rewrite Forall_forall in Hr. specialize (Hr r' Hr'). apply string_lt_false in Hlt.
    apply Heq. rewrite Heq' in Hr. by apply (anti_symm String.le).
Qed.

Lemma right_match_skip rs0 rs' l :
  Forall (λ r, string_lt (rk r) (lk l) = true) rs0 →
  right_match (rs0 ++ rs') l = right_match rs' l.
Proof.
  unfold right_match. induction 1 as [|r rs0 Hr _ IH]; simpl; [done|].
  apply string_lt_le in Hr as [_ Hne]. rewrite decide_False by done. rewrite <- IH.
  by destruct (list_find _ _) as [[]|].
Qed.

Lemma pushes_LeftZip ls rs :
  key_sorted lk ls → key_sorted rk rs →
  pushes (Sort.LeftZip lk rk ls rs) ((λ l, (l, right_match rs l)) <$> ls).
Proof.
  intros Hls. revert rs. induction Hls as [|l ls Hls IH Hl]; intros rs Hrs S y s; [done|].
  simpl. destruct (LeftZip_shift_spec l rs Hrs) as (rs0 & rs' & -> & Hall & ->).
  destruct (y _ s) as [[s' []]|]; simpl; [|done|done].
  apply StronglySorted_app in Hrs as (_ & _ & Hrs'). rewrite IH by done. f_equal.
  apply list_fmap_ext. intros i l' Hl'. f_equal. symmetry. apply right_match_skip.
  rewrite Forall_forall in Hl. rewrite Forall_forall in Hall. apply Forall_forall. intros r Hr.
  apply string_lt_le. destruct (proj1 (string_lt_le _ _) (Hall r Hr)) as [Hle Hne].
  assert (String.le (lk l) (lk l')) as Hll by (apply Hl; by apply list_elem_of_lookup_2 in Hl').
  split; [by etrans|]. intros Heq. apply Hne. apply (anti_symm String.le); [done|by rewrite Heq].
Qed.

End left_zip.

Lemma ByKey_perm {T} (l : list T) k : Sort.ByKey l k ≡ₚ l.
Proof. apply stable_sort_perm. Qed.

Lemma ByKey_sorted {T} (l : list T) k : key_sorted k (Sort.ByKey l k).
Proof.
  unfold key_sorted, Sort.ByKey.
  assert (Hswo : strict_weak_order (λ x y : T, string_lt (k x) (k y))) by auto with podseidon.
  assert (Hall : ∀ l : list T, Forall (λ _, True) l) by (intros; by apply Forall_true).
  pose proof (swo_sorted_strong _ _ Hswo _ (Hall _) (stable_sort_sorted _ _ Hswo l (Hall _))) as Hs.
  rewrite <- (list_fmap_id (stable_sort _ l)). revert Hs.
  apply StronglySorted_fmap. intros x y. apply string_lt_false.
Qed.

(** The order of [range] over a map does not survive a sort by its distinct keys. *)
Lemma ByKey_unique {T} (l l' : list T) k :
  NoDup (k <$> l) → l ≡ₚ l' → Sort.ByKey l k = Sort.ByKey l' k.
Proof.
  intros Hnd Hperm. apply (StronglySorted_unique_strong (λ x y, String.le (k x) (k y))).
  - intros x y. rewrite !ByKey_perm, <- Hperm. intros Hx Hy Hxy Hyx.
    apply list_elem_of_lookup in Hx as [i Hi], Hy as [j Hj].
    assert (i = j) as ->; [|congruence].
    eapply (NoDup_lookup _ _ _ (k x) Hnd); rewrite list_lookup_fmap.
    + by rewrite Hi.
    + rewrite Hj. simpl. f_equal. by apply (anti_symm String.le).
  - apply ByKey_sorted.
  - apply ByKey_sorted.
  - by rewrite !ByKey_perm.
Qed.

#[export] Hint Resolve FromSlice_pushes pushes_visits drains_visits pushes_Map drains_Map
  ByKey_perm ByKey_sorted : podseidon.

(** ** Properties of util/iter and util/sort *)

(** [LeftZip] over two slices that [ByKey] sorted offers every left item exactly
    once, in order, paired with the first right item that has its key and with
    nothing when there is none, and stops at the first [Break]. *)
Theorem LeftZip_joins {Left Right S} (ls : list Left) (rs : list Right) lk rk
    (y : Iter.Yield S (Left * option Right)) (s : S) :
  Sort.LeftZip lk rk (Sort.ByKey ls lk) (Sort.ByKey rs rk) S y s =
  Iter.FromSlice ((λ l, (l, snd <$> list_find (λ r, rk r = lk l) (Sort.ByKey rs rk)))
    <$> Sort.ByKey ls lk) S y s.
Proof. apply pushes_LeftZip; apply ByKey_sorted. Qed.

(** [TryForEach] stops at the first error of a slice iterator, but the error is
    lost behind a [Filter]: the filtered iterator is deaf to [Break], the items
    after the failing one still run, and the verdict of the last item that passes
    the filter is the one that is returned. *)
Theorem TryForEach_Filter_last_wins {T S E} (l : list T) (p : T → bool)
    (f : T → S → outcome (S * option E)) (s : S) :
  Iter.TryForEach (Iter.FromSlice l) f s = try_list f s l ∧
  Iter.TryForEach (Iter.Filter (Iter.FromSlice l) p) f s =
    try_all f s (filter (λ x, p x = true) l).
Proof.
  split; [by apply pushes_TryForEach|].
  apply drains_TryForEach, drains_Filter. by left.
Qed.
