(* ===== verification/Canonical.v ===== *)
(** * Canonical: label sets and label selectors in canonical form

    [Module MultiMap] is util/labelindex/mm/multimap.go, [Module Canonical] is
    util/labelindex/canonical (set.go and selector.go). The records of
    [metav1.LabelSelector] are the data of k8s.io/apimachinery that they read. *)

From S2P Require Import Prelude Util Errors Iter.

(** ** metav1.LabelSelector *)

Inductive LabelSelectorOperator : Type :=
| LabelSelectorOpIn
| LabelSelectorOpNotIn
| LabelSelectorOpExists
| LabelSelectorOpDoesNotExist
| LabelSelectorOpOther (name : string).

#[global] Instance LabelSelectorOperator_eq_dec : EqDecision LabelSelectorOperator.
Proof. solve_decision. Defined.

Record LabelSelectorRequirement : Type := {
  reqKey : string;
  reqOperator : LabelSelectorOperator;
  reqValues : list string
}.

Record LabelSelector : Type := {
  MatchLabels : gmap string string;
  MatchExpressions : list LabelSelectorRequirement
}.

#[global] Instance LabelSelectorRequirement_eq_dec : EqDecision LabelSelectorRequirement.
Proof. solve_decision. Defined.
#[global] Instance LabelSelector_eq_dec : EqDecision LabelSelector.
Proof. solve_decision. Defined.

(** The reference semantics of a selector, from the Kubernetes API conventions: all
    requirements hold of the labels; an unknown operator selects nothing. *)
Definition requirement_selects (req : LabelSelectorRequirement) (labels : gmap string string) : bool :=
  match reqOperator req, labels !! reqKey req with
  | LabelSelectorOpIn, Some v => bool_decide (v ∈ reqValues req)
  | LabelSelectorOpIn, None => false
  | LabelSelectorOpNotIn, Some v => negb (bool_decide (v ∈ reqValues req))
  | LabelSelectorOpNotIn, None => true
  | LabelSelectorOpExists, o => Optional.IsSome o
  | LabelSelectorOpDoesNotExist, o => Optional.IsNone o
  | LabelSelectorOpOther _, _ => false
  end.

Definition selector_selects (sel : LabelSelector) (labels : gmap string string) : Prop :=
  MatchLabels sel ⊆ labels ∧
  ∀ req, req ∈ MatchExpressions sel → requirement_selects req labels = true.

Definition known_operator (op : LabelSelectorOperator) : bool :=
  match op with LabelSelectorOpOther _ => false | _ => true end.
Definition valid_selector (sel : LabelSelector) : Prop :=
  ∀ req, req ∈ MatchExpressions sel → known_operator (reqOperator req) = true.

(** ** Multimaps *)
Module MultiMap.

Definition Insert {K V} `{Countable K, Countable V} (mm : gmap K (gset V)) (key : K) (value : V) :
    gmap K (gset V) * bool :=
  let set_ := default ∅ (mm !! key) in
  let hadValue := bool_decide (value ∈ set_) in
  (<[key := {[value]} ∪ set_]> mm, hadValue).

Definition Remove {K V} `{Countable K, Countable V} (mm : gmap K (gset V)) (key : K) (value : V) :
    gmap K (gset V) * bool :=
  match mm !! key with
  | None => (mm, false)
  | Some set_ =>
      if negb (bool_decide (value ∈ set_)) then (mm, false)
      else
        let set_ := set_ ∖ {[value]} in
        if size set_ =? 0 then (delete key mm, true) else (<[key := set_]> mm, true)
  end.

End MultiMap.

(** ** Canonical sets and selectors *)
Module Canonical.

Record KvPair : Type := { Key : string; Value : string }.

#[global] Instance KvPair_eq_dec : EqDecision KvPair.
Proof. solve_decision. Defined.
#[global] Program Instance KvPair_countable : Countable KvPair :=
  inj_countable' (λ p, (Key p, Value p)) (λ p, {| Key := p.1; Value := p.2 |}) _.
Next Obligation. by intros []. Qed.

(** [type Set []KvPair]. *)
Definition LabelSet : Type := list KvPair.

Record KeyInReqmt : Type := { inKey : string; inValues : list string }.
Record KeyExistReqmt : Type := { existKey : string }.
Record KeyNotInReqmt : Type := { notInKey : string; notInValues : list string }.
Record KeyNotExistReqmt : Type := { notExistKey : string }.

Record Selector : Type := {
  KeyIn : list KeyInReqmt;
  KeyExist : list KeyExistReqmt;
  KeyNotIn : list KeyNotInReqmt;
  KeyNotExist : list KeyNotExistReqmt
}.

#[global] Instance Selector_zero : Zero Selector :=
  {| KeyIn := []; KeyExist := []; KeyNotIn := []; KeyNotExist := [] |}.

Section ops.
Context `{!GoRuntime}.

Definition CreateSet (rawSet : gmap string string) : LabelSet :=
  let set_ := (λ '(key, value), {| Key := key; Value := value |}) <$> map_order rawSet in
  Sort.ByKey set_ Key.

Definition Matches (selector : Selector) (set_ : LabelSet) : outcome bool :=
  Iter.All (Iter.Chain [
    Iter.Map (Sort.LeftZip inKey Key (KeyIn selector) set_)
      (λ '(left_, right_), Optional.IsSomeAnd right_
         (λ pair, Slices.SliceContains (inValues left_) (Value pair)));
    Iter.Map (Sort.LeftZip notInKey Key (KeyNotIn selector) set_)
      (λ '(left_, right_), Optional.IsNoneOr right_
         (λ pair, negb (Slices.SliceContains (notInValues left_) (Value pair))));
    Iter.Map (Sort.LeftZip existKey Key (KeyExist selector) set_)
      (λ '(_, right_), Optional.IsSome right_);
    Iter.Map (Sort.LeftZip notExistKey Key (KeyNotExist selector) set_)
      (λ '(_, right_), negb (Optional.IsSome right_))]).

Definition addSelectorExprToSelector (selector : Selector) (expr : LabelSelectorRequirement) :
    Selector * option error :=
  match reqOperator expr with
  | LabelSelectorOpIn =>
      ({| KeyIn := KeyIn selector ++ [{| inKey := reqKey expr; inValues := reqValues expr |}];
          KeyExist := KeyExist selector; KeyNotIn := KeyNotIn selector;
          KeyNotExist := KeyNotExist selector |}, None)
  | LabelSelectorOpNotIn =>
      ({| KeyIn := KeyIn selector; KeyExist := KeyExist selector;
          KeyNotIn := KeyNotIn selector ++
            [{| notInKey := reqKey expr; notInValues := reqValues expr |}];
          KeyNotExist := KeyNotExist selector |}, None)
  | LabelSelectorOpExists =>
      ({| KeyIn := KeyIn selector; KeyExist := KeyExist selector ++ [{| existKey := reqKey expr |}];
          KeyNotIn := KeyNotIn selector; KeyNotExist := KeyNotExist selector |}, None)
  | LabelSelectorOpDoesNotExist =>
      ({| KeyIn := KeyIn selector; KeyExist := KeyExist selector; KeyNotIn := KeyNotIn selector;
          KeyNotExist := KeyNotExist selector ++ [{| notExistKey := reqKey expr |}] |}, None)
  | LabelSelectorOpOther name =>
      (selector, Some (TagErrorf "UnknownSelectorOperator"
        ("unsupported selector operator " +:+ name)))
  end.

Fixpoint addSelectorExprs (selector : Selector) (exprs : list LabelSelectorRequirement) :
    Selector * option error :=
  match exprs with
  | [] => (selector, None)
  | expr :: exprs =>
      let '(selector, err) := addSelectorExprToSelector selector expr in
      match err with
      | Some err => (zero, Some err)
      | None => addSelectorExprs selector exprs
      end
  end.

Definition CreateSelector (stringSelector : LabelSelector) : Selector * option error :=
  let selector := {|
    KeyIn := (λ '(key, value), {| inKey := key; inValues := [value] |}) <$>
      map_order (MatchLabels stringSelector);
    KeyExist := []; KeyNotIn := []; KeyNotExist := [] |} in
  let '(selector, err) := addSelectorExprs selector (MatchExpressions stringSelector) in
  match err with
  | Some err => (selector, Some err)
  | None =>
      ({| KeyIn := Sort.ByKey (KeyIn selector) inKey;
          KeyExist := Sort.ByKey (KeyExist selector) existKey;
          KeyNotIn := Sort.ByKey (KeyNotIn selector) notInKey;
          KeyNotExist := Sort.ByKey (KeyNotExist selector) notExistKey |}, None)
  end.

(** ** Stores: the maps of known sets and known selectors *)
Section stores.
Context {Name : Type} `{Countable Name}.

Definition SetStore_Insert (sets_ : gmap Name LabelSet) (name : Name)
    (stringMap : gmap string string) : gmap Name LabelSet * (LabelSet * bool) :=
  let set_ := CreateSet stringMap in
  let hadSet := Optional.IsSome (sets_ !! name) in
  (<[name := set_]> sets_, (set_, hadSet)).

Definition SetStore_Remove (sets_ : gmap Name LabelSet) (name : Name) :
    gmap Name LabelSet * (LabelSet * bool) :=
  match sets_ !! name with
  | None => (sets_, ([], false))
  | Some set_ => (delete name sets_, (set_, true))
  end.

Definition SetStore_Get (sets_ : gmap Name LabelSet) (name : Name) : option LabelSet :=
  Optional.GetMap sets_ name.
Definition SetStore_Len (sets_ : gmap Name LabelSet) : Z := Z.of_nat (size sets_).
Definition SetStore_Iter (sets_ : gmap Name LabelSet) : Iter.Iter (Name * LabelSet) :=
  Iter.MapKvs sets_.

Record InsertResult : Type := { irSelector : Selector; ExistedBefore : bool }.

Definition SelectorStore_Insert (selectors : gmap Name Selector) (name : Name)
    (stringSelector : LabelSelector) : gmap Name Selector * InsertResult * option error :=
  let '(selector, err) := CreateSelector stringSelector in
  match err with
  | Some err => (selectors, {| irSelector := zero; ExistedBefore := false |}, Some err)
  | None =>
      let hadSelector := Optional.IsSome (selectors !! name) in
      (<[name := selector]> selectors,
       {| irSelector := selector; ExistedBefore := hadSelector |}, None)
  end.

Definition SelectorStore_Remove (selectors : gmap Name Selector) (name : Name) :
    gmap Name Selector * option Selector :=
  match selectors !! name with
  | None => (selectors, None)
  | Some selector => (delete name selectors, Some selector)
  end.

Definition SelectorStore_Get (selectors : gmap Name Selector) (name : Name) : option Selector :=
  Optional.GetMap selectors name.

End stores.

End ops.

End Canonical.

(** ** Multimap lemmas *)
Section multimap.
Context {K V : Type} `{Countable K, Countable V}.
Implicit Types (mm : gmap K (gset V)).

Definition mm_set mm (k : K) : gset V := default ∅ (mm !! k).

Lemma mm_Insert mm k v k' :
  mm_set (MultiMap.Insert mm k v).1 k' =
    if decide (k = k') then {[v]} ∪ mm_set mm k' else mm_set mm k'.
Proof.
  unfold mm_set, MultiMap.Insert. simpl. rewrite lookup_insert. case_decide; by subst.
Qed.

Lemma mm_Insert_existed mm k v :
  (MultiMap.Insert mm k v).2 = bool_decide (v ∈ mm_set mm k).
Proof. done. Qed.

Lemma mm_Remove mm k v k' :
  mm_set (MultiMap.Remove mm k v).1 k' =
    if decide (k = k') then mm_set mm k' ∖ {[v]} else mm_set mm k'.
Proof.
  unfold mm_set, MultiMap.Remove. destruct (mm !! k) as [s|] eqn:Hk; simpl.
  - case_bool_decide as Hv; simpl.
    + destruct (Nat.eqb_spec (size (s ∖ {[v]})) 0) as [Hsz|Hsz]; simpl.
      * apply size_empty_inv in Hsz. rewrite lookup_delete. case_decide; [subst|done].
        simpl. rewrite Hk. simpl. set_solver.
      * rewrite lookup_insert. case_decide; [subst|done]. by rewrite Hk.
    + case_decide; [subst|done]. rewrite Hk. simpl. set_solver.
  - case_decide; [subst|done]. rewrite Hk. simpl. set_solver.
Qed.

Lemma mm_Remove_existed mm k v :
  (MultiMap.Remove mm k v).2 = bool_decide (v ∈ mm_set mm k).
Proof.
  unfold mm_set, MultiMap.Remove. destruct (mm !! k) as [s|]; simpl.
  - destruct (bool_decide (v ∈ s)); simpl; [by destruct (size _ =? 0)|done].
  - case_bool_decide; set_solver.
Qed.

End multimap.

(** ** Canonical sets *)
Section canonical.
Context `{!GoRuntime}.
Import Canonical.

Lemma CreateSet_perm m :
  CreateSet m ≡ₚ (λ '(k, v), {| Key := k; Value := v |}) <$> map_order m.
Proof. apply ByKey_perm. Qed.

Lemma elem_of_CreateSet m p : p ∈ CreateSet m ↔ m !! Key p = Some (Value p).
Proof.
  rewrite CreateSet_perm, list_elem_of_fmap. split.
  - intros ([k v] & -> & Hin). by apply elem_of_map_order in Hin.
  - intros Hp. exists (Key p, Value p). split; [by destruct p|by apply elem_of_map_order].
Qed.

Lemma CreateSet_keys m : Key <$> CreateSet m ≡ₚ (map_order m).*1.
Proof.
  rewrite CreateSet_perm, <- list_fmap_compose. apply reflexive_eq, list_fmap_ext. by intros i [].
Qed.

Lemma NoDup_CreateSet_keys m : NoDup (Key <$> CreateSet m).
Proof. rewrite CreateSet_keys. auto with podseidon. Qed.

Lemma CreateSet_sorted m : key_sorted Key (CreateSet m).
Proof. apply ByKey_sorted. Qed.

(** The right side of a join with a canonical set is a lookup in the raw map. *)
Lemma right_match_CreateSet {Left} (lk : Left → string) m l :
  right_match lk Key (CreateSet m) l =
    (λ v, {| Key := lk l; Value := v |}) <$> m !! lk l.
Proof.
  unfold right_match. destruct (list_find _ _) as [[i p]|] eqn:Hfind; simpl.
  - apply list_find_Some in Hfind as (Hi & Hk & _).
    apply list_elem_of_lookup_2, elem_of_CreateSet in Hi. rewrite <- Hk, Hi. by destruct p.
  - destruct (m !! lk l) as [v|] eqn:Hl; [|done].
    apply list_find_None in Hfind. rewrite Forall_forall in Hfind.
    destruct (Hfind {| Key := lk l; Value := v |}); [|done]. by apply elem_of_CreateSet.
Qed.

(** ** Canonical selectors *)

Definition in_of (req : LabelSelectorRequirement) : option KeyInReqmt :=
  match reqOperator req with
  | LabelSelectorOpIn => Some {| inKey := reqKey req; inValues := reqValues req |}
  | _ => None
  end.
Definition not_in_of (req : LabelSelectorRequirement) : option KeyNotInReqmt :=
  match reqOperator req with
  | LabelSelectorOpNotIn => Some {| notInKey := reqKey req; notInValues := reqValues req |}
  | _ => None
  end.
Definition exist_of (req : LabelSelectorRequirement) : option KeyExistReqmt :=
  match reqOperator req with
  | LabelSelectorOpExists => Some {| existKey := reqKey req |}
  | _ => None
  end.
Definition not_exist_of (req : LabelSelectorRequirement) : option KeyNotExistReqmt :=
  match reqOperator req with
  | LabelSelectorOpDoesNotExist => Some {| notExistKey := reqKey req |}
  | _ => None
  end.
Definition label_in (kv : string * string) : KeyInReqmt :=
  {| inKey := kv.1; inValues := [kv.2] |}.

Lemma addSelectorExprs_valid sel exprs :
  (∀ req, req ∈ exprs → known_operator (reqOperator req) = true) →
  addSelectorExprs sel exprs =
    ({| KeyIn := KeyIn sel ++ omap in_of exprs;
        KeyExist := KeyExist sel ++ omap exist_of exprs;
        KeyNotIn := KeyNotIn sel ++ omap not_in_of exprs;
        KeyNotExist := KeyNotExist sel ++ omap not_exist_of exprs |}, None).
Proof.
  revert sel. induction exprs as [|req exprs IH]; intros sel Hvalid.
  { simpl. rewrite !app_nil_r. by destruct sel. }
  assert (Hreq : known_operator (reqOperator req) = true) by (apply Hvalid; left).
  simpl. unfold addSelectorExprToSelector, in_of, exist_of, not_in_of, not_exist_of.
  destruct req as [k [| | | |op] vs]; simpl in *; try done;
    (rewrite IH by (intros; apply Hvalid; by right)); simpl; by rewrite <- ?app_assoc.
Qed.

Lemma addSelectorExprs_invalid sel exprs req :
  req ∈ exprs → known_operator (reqOperator req) = false →
  ∃ err, (addSelectorExprs sel exprs).2 = Some err.
Proof.
  intros Hin Hreq. revert sel. induction Hin as [req exprs|req req' exprs Hin IH]; intros sel; simpl.
  - unfold addSelectorExprToSelector. destruct (reqOperator req); simpl in *; eauto; done.
  - specialize (IH Hreq). destruct (addSelectorExprToSelector sel req') as [sel' [err|]]; simpl; eauto.
Qed.

Lemma valid_selector_dec sel :
  valid_selector sel ∨
  ∃ req, req ∈ MatchExpressions sel ∧ known_operator (reqOperator req) = false.
Proof.
  destruct (decide (Forall (λ req, known_operator (reqOperator req) = true) (MatchExpressions sel)))
    as [Hall|Hn].
  - left. intros req Hreq. rewrite Forall_forall in Hall. auto.
  - right. apply not_Forall_Exists, Exists_exists in Hn as (req & ? & Hreq); [|apply _].
    exists req. split; [done|]. by apply not_true_iff_false.
Qed.

(** The canonical form of a valid selector: every requirement under its kind. *)
Definition canonical_of (raw : LabelSelector) (sel : Selector) : Prop :=
  KeyIn sel ≡ₚ (label_in <$> map_order (MatchLabels raw)) ++ omap in_of (MatchExpressions raw) ∧
  KeyExist sel ≡ₚ omap exist_of (MatchExpressions raw) ∧
  KeyNotIn sel ≡ₚ omap not_in_of (MatchExpressions raw) ∧
  KeyNotExist sel ≡ₚ omap not_exist_of (MatchExpressions raw) ∧
  key_sorted inKey (KeyIn sel) ∧ key_sorted existKey (KeyExist sel) ∧
  key_sorted notInKey (KeyNotIn sel) ∧ key_sorted notExistKey (KeyNotExist sel).

Lemma CreateSelector_valid raw :
  valid_selector raw → ∃ sel, CreateSelector raw = (sel, None) ∧ canonical_of raw sel.
Proof.
  intros Hvalid. unfold CreateSelector. rewrite addSelectorExprs_valid by done. simpl.
  eexists. split; [done|]. repeat split; simpl; rewrite ?ByKey_perm; auto using ByKey_sorted.
  apply Permutation_app_tail, reflexive_eq, list_fmap_ext. by intros i [].
Qed.

Lemma CreateSelector_invalid raw :
  ¬ valid_selector raw → ∃ sel err, CreateSelector raw = (sel, Some err).
Proof.
  intros Hn. destruct (valid_selector_dec raw) as [|(req & Hin & Hreq)]; [done|].
  unfold CreateSelector.
  destruct (addSelectorExprs_invalid {| KeyIn := (λ '(key, value), {| inKey := key; inValues := [value] |}) <$>
      map_order (MatchLabels raw); KeyExist := []; KeyNotIn := []; KeyNotExist := [] |} _ _ Hin Hreq)
    as [err Herr].
  destruct (addSelectorExprs _ _) as [sel' err']. simpl in Herr. subst. eauto.
Qed.

(** One join of [Matches]: the test of every requirement against the labels. *)
Lemma pushes_match_kind {R} (lk : R → string) (test : R → option KvPair → bool) rs m :
  key_sorted lk rs →
  pushes (Iter.Map (Sort.LeftZip lk Key rs (CreateSet m)) (λ '(l, r), test l r))
    ((λ l, test l ((λ v, {| Key := lk l; Value := v |}) <$> m !! lk l)) <$> rs).
Proof.
  intros Hrs. pose proof (pushes_LeftZip lk Key rs (CreateSet m) Hrs (CreateSet_sorted m)) as Hp.
  apply (pushes_Map _ _ (λ '(l, r), test l r)) in Hp. rewrite <- list_fmap_compose in Hp.
  erewrite list_fmap_ext; [exact Hp|]. intros i l _. simpl. by rewrite right_match_CreateSet.
Qed.

Lemma forallb_concat (bss : list (list bool)) :
  forallb id (concat bss) = forallb (forallb id) bss.
Proof. induction bss as [|bs bss IH]; simpl; [done|]. by rewrite forallb_app, IH. Qed.

Lemma forallb_id_fmap {A} (f : A → bool) l :
  forallb id (f <$> l) = true ↔ ∀ x, x ∈ l → f x = true.
Proof.
  induction l as [|x l IH]; simpl; [split; [set_solver|done]|].
  rewrite andb_true_iff, IH. set_solver.
Qed.

(** The test that [Matches] runs for a requirement of each kind. *)
Definition lookup_pair (labels : gmap string string) (k : string) : option KvPair :=
  (λ v, {| Key := k; Value := v |}) <$> labels !! k.
Definition in_test labels (r : KeyInReqmt) : bool :=
  Optional.IsSomeAnd (lookup_pair labels (inKey r))
    (λ pair, Slices.SliceContains (inValues r) (Value pair)).
Definition not_in_test labels (r : KeyNotInReqmt) : bool :=
  Optional.IsNoneOr (lookup_pair labels (notInKey r))
    (λ pair, negb (Slices.SliceContains (notInValues r) (Value pair))).
Definition exist_test labels (r : KeyExistReqmt) : bool :=
  Optional.IsSome (lookup_pair labels (existKey r)).
Definition not_exist_test labels (r : KeyNotExistReqmt) : bool :=
  negb (Optional.IsSome (lookup_pair labels (notExistKey r))).

Lemma in_test_spec labels r :
  in_test labels r = true ↔ ∃ v, labels !! inKey r = Some v ∧ v ∈ inValues r.
Proof.
  unfold in_test, lookup_pair. destruct (labels !! inKey r) as [v|]; simpl; [|naive_solver].
  rewrite SliceContains_spec. naive_solver.
Qed.

(** A requirement selects iff the tests of the kinds that it contributes to hold. *)
Lemma requirement_selects_kinds req labels :
  known_operator (reqOperator req) = true →
  requirement_selects req labels = true ↔
    (∀ r, in_of req = Some r → in_test labels r = true) ∧
    (∀ r, not_in_of req = Some r → not_in_test labels r = true) ∧
    (∀ r, exist_of req = Some r → exist_test labels r = true) ∧
    (∀ r, not_exist_of req = Some r → not_exist_test labels r = true).
Proof.
  intros Hknown. unfold requirement_selects, in_of, not_in_of, exist_of, not_exist_of, in_test,
    not_in_test, exist_test, not_exist_test, lookup_pair, Optional.IsNone.
  destruct req as [k op vs]; destruct op; simpl in *; [| | | |done];
    split; [|intros (H1 & H2 & H3 & H4)| |intros (H1 & H2 & H3 & H4)|
      |intros (H1 & H2 & H3 & H4)| |intros (H1 & H2 & H3 & H4)].
  all: try (specialize (H1 _ eq_refl)); try (specialize (H2 _ eq_refl));
    try (specialize (H3 _ eq_refl)); try (specialize (H4 _ eq_refl)); simpl in *.
  all: destruct (labels !! k) as [v|] eqn:Hk; simpl in *;
    try (intros Hsel; repeat split; intros; simplify_eq/=; rewrite ?Hk; simpl in *).
  all: rewrite ?negb_true_iff, <- ?not_true_iff_false, ?bool_decide_eq_true,
    ?SliceContains_spec in *; done.
Qed.

Lemma label_in_selects raw labels :
  (∀ r, r ∈ label_in <$> map_order (MatchLabels raw) → in_test labels r = true) ↔
  MatchLabels raw ⊆ labels.
Proof.
  rewrite map_subseteq_spec. setoid_rewrite list_elem_of_fmap. split.
  - intros Hall k v Hkv. assert (Ht : in_test labels (label_in (k, v)) = true).
    { apply Hall. exists (k, v). split; [done|]. by apply elem_of_map_order. }
    apply in_test_spec in Ht as (v' & Hl & Hv). apply list_elem_of_singleton in Hv. by subst.
  - intros Hall r ([k v] & -> & Hkv). apply elem_of_map_order, Hall in Hkv.
    apply in_test_spec. exists v. split; [done|]. by left.
Qed.

Lemma Matches_eq raw sel labels :
  canonical_of raw sel →
  Matches sel (CreateSet labels) = Ret (
    forallb id (in_test labels <$> KeyIn sel) && (forallb id (not_in_test labels <$> KeyNotIn sel) &&
    (forallb id (exist_test labels <$> KeyExist sel) &&
    (forallb id (not_exist_test labels <$> KeyNotExist sel) && true)))).
Proof.
  intros (_ & _ & _ & _ & Sin & Sex & Snin & Snex). unfold Matches.
  rewrite (push_All _ (concat [in_test labels <$> KeyIn sel; not_in_test labels <$> KeyNotIn sel;
    exist_test labels <$> KeyExist sel; not_exist_test labels <$> KeyNotExist sel])).
  { by rewrite forallb_concat. }
  left. apply pushes_Chain. repeat first [apply Forall2_nil_2 | apply Forall2_cons_2].
  - by apply (pushes_match_kind inKey (λ l r, Optional.IsSomeAnd r
      (λ pair, Slices.SliceContains (inValues l) (Value pair)))).
  - by apply (pushes_match_kind notInKey (λ l r, Optional.IsNoneOr r
      (λ pair, negb (Slices.SliceContains (notInValues l) (Value pair))))).
  - by apply (pushes_match_kind existKey (λ _ r, Optional.IsSome r)).
  - by apply (pushes_match_kind notExistKey (λ _ r, negb (Optional.IsSome r))).
Qed.

Lemma Matches_selects raw sel labels :
  canonical_of raw sel → valid_selector raw →
  ∃ b, Matches sel (CreateSet labels) = Ret b ∧ (b = true ↔ selector_selects raw labels).
Proof.
  intros Hcan Hvalid. rewrite (Matches_eq raw) by done. eexists; split; [done|].
  destruct Hcan as (Hin & Hex & Hnin & Hnex & _).
  rewrite !andb_true_iff, !forallb_id_fmap.
  setoid_rewrite Hin. setoid_rewrite Hex. setoid_rewrite Hnin. setoid_rewrite Hnex.
  setoid_rewrite elem_of_app. setoid_rewrite list_elem_of_omap.
  unfold selector_selects. rewrite <- label_in_selects. split.
  - intros (H1 & H2 & H3 & H4 & _). split; [by auto|].
    intros req Hreq. apply requirement_selects_kinds; [by apply Hvalid|].
    repeat split; intros r Hr; [apply H1; right|apply H2|apply H3|apply H4]; by exists req.
  - intros [Hlab Hreqs]. repeat split.
    + intros r [?|(req & Hreq & Hr)]; [by auto|].
      by apply (requirement_selects_kinds req labels (Hvalid _ Hreq)); [apply Hreqs|].
    + intros r (req & Hreq & Hr).
      by apply (requirement_selects_kinds req labels (Hvalid _ Hreq)); [apply Hreqs|].
    + intros r (req & Hreq & Hr).
      by apply (requirement_selects_kinds req labels (Hvalid _ Hreq)); [apply Hreqs|].
    + intros r (req & Hreq & Hr).
      by apply (requirement_selects_kinds req labels (Hvalid _ Hreq)); [apply Hreqs|].
Qed.

End canonical.

(** ** Properties *)

(** Canonicalizing a selector and a label set and joining them decides exactly
    the Kubernetes semantics of the selector: [CreateSelector] succeeds on the
    selectors whose operators are known, and then [Matches] holds of the canonical
    labels iff every label and every expression of the selector does. *)
Theorem Matches_correct `{!GoRuntime} (raw : LabelSelector) (labels : gmap string string) :
  valid_selector raw →
  ∃ sel b, Canonical.CreateSelector raw = (sel, None) ∧
    Canonical.Matches sel (Canonical.CreateSet labels) = Ret b ∧
    (b = true ↔ selector_selects raw labels).
Proof.
  intros Hvalid. destruct (CreateSelector_valid raw Hvalid) as (sel & Hsel & Hcan).
  destruct (Matches_selects raw sel labels Hcan Hvalid) as (b & Hb & Hiff). eauto.
Qed.

Lemma Matches_correct_witness :
  ∃ sel b, Canonical.CreateSelector
      {| MatchLabels := {[ "app" := "web" ]};
         MatchExpressions := [{| reqKey := "tier"; reqOperator := LabelSelectorOpNotIn;
                                 reqValues := ["db"] |}] |} = (sel, None) ∧
    Canonical.Matches sel (Canonical.CreateSet {[ "app" := "web"; "tier" := "front" ]}) = Ret b ∧
    (b = true ↔ selector_selects
      {| MatchLabels := {[ "app" := "web" ]};
         MatchExpressions := [{| reqKey := "tier"; reqOperator := LabelSelectorOpNotIn;
                                 reqValues := ["db"] |}] |} {[ "app" := "web"; "tier" := "front" ]}).
Proof.
  apply Matches_correct. intros req Hreq. apply list_elem_of_singleton in Hreq as ->. reflexivity.
Defined.
