(* ===== verification/SetTrie.v ===== *)
(** * SetTrie: words of positive requirements and the trie that stores them

    [Module Matchable] is util/labelindex/matchable/matchable.go, [Module SetTrie] is
    util/labelindex/settrie/trie.go and [Module Multi] is util/labelindex/settrie/multi.go.
    The nodes of a trie are reached through one pointer each, so a trie is a tree; the
    maps that [Multi] stores in it are references into a heap. *)

From S2P Require Import Prelude Util Errors Iter Canonical.

(** ** settrie *)
Module SetTrie.

(** [Word]: the slice [sorted]. *)
Definition Word (Alpha : Type) : Type := list Alpha.

Definition NewWord `{!GoRuntime} {Alpha} (Less : Alpha → Alpha → bool) (unsorted : list Alpha) :
    Word Alpha := sort_slice Less unsorted.

Definition EqualsWord {Alpha} `{EqDecision Alpha} (left_ right_ : Word Alpha) : outcome bool :=
  Iter.All (Iter.Map (Iter.Zip left_ right_) (λ '(l, r), bool_decide (l = r))).

Definition Sorted {Alpha} (word : Word Alpha) : list Alpha := word.
Definition Append {Alpha} (word : Word Alpha) (alpha : Alpha) : Word Alpha := word ++ [alpha].
Definition PopFirst {Alpha} (word : Word Alpha) : option (Alpha * Word Alpha) :=
  match word with [] => None | alpha :: word => Some (alpha, word) end.

Section trie.
Context {Alpha : Type} `{Countable Alpha} {Data : Type}.

Inductive trieNode : Type :=
| TrieNode (children : gmap Alpha trieNode) (data : option Data).

Definition children (node : trieNode) : gmap Alpha trieNode :=
  match node with TrieNode c _ => c end.
Definition data (node : trieNode) : option Data :=
  match node with TrieNode _ d => d end.

Definition newNode : trieNode := TrieNode ∅ None.

Definition isGarbageNode (node : trieNode) : bool :=
  (size (children node) =? 0) && negb (Optional.IsSome (data node)).

(** [editNode] receives a pointer to the [data] field of the node and may act on
    variables and on the heap of the caller, [H]. *)
Fixpoint cursorUnderNode {H} (node : trieNode) (word : Word Alpha) (createMissingNodes : bool)
    (editNode : option Data → H → option Data * H) (h : H) : trieNode * H :=
  match word with
  | alpha :: word =>
      match children node !! alpha, createMissingNodes with
      | None, false => (node, h)
      | child, _ =>
          let child := default newNode child in
          let '(child, h) := cursorUnderNode child word createMissingNodes editNode h in
          let children := <[alpha := child]> (children node) in
          (TrieNode (if isGarbageNode child then delete alpha children else children)
             (data node), h)
      end
  | [] =>
      let '(d, h) := editNode (data node) h in
      (TrieNode (children node) d, h)
  end.

(** [root] is the trie; [maxDepth] only sizes an allocation. *)
Definition SetTrie : Type := trieNode.
Definition New : SetTrie := newNode.

Definition RetainOrDrop {H} (trie : SetTrie) (word : Word Alpha)
    (process : Data → H → option Data * H) (h : H) : SetTrie * H :=
  cursorUnderNode trie word true
    (λ data h,
      match Optional.GetValueRefOrNil data with
      | Some ptr => process (Optional.pointee ptr) h
      | None => (data, h)
      end) h.

(** [updateNode] writes through a pointer into a copy of the optional: what it leaves
    in the cell is lost, what it does to the heap stays. *)
Definition CreateOrUpdate {H} (trie : SetTrie) (word : Word Alpha) (initNode : H → Data * H)
    (updateNode : Optional.cell Data → H → Optional.cell Data * H) (h : H) : SetTrie * H :=
  cursorUnderNode trie word true
    (λ data h,
      match Optional.GetValueRefOrNil data with
      | Some ptr => let '(_, h) := updateNode ptr h in (data, h)
      | None => let '(d, h) := initNode h in (Some d, h)
      end) h.

Fixpoint getWordInNode (node : trieNode) (word : Word Alpha) : option Data :=
  match word with
  | alpha :: word =>
      match children node !! alpha with
      | None => None
      | Some child => getWordInNode child word
      end
  | [] => data node
  end.

Definition Get (trie : SetTrie) (word : Word Alpha) : option Data := getWordInNode trie word.

(** The body of [subsetsInNode] with its loop over [word.sorted] as an argument: yield
    the data of the node, then run the loop. *)
Definition visitNode (loop : trieNode → Word Alpha → Iter.Iter (Word Alpha * Data))
    (node : trieNode) (prefix : Word Alpha) : Iter.Iter (Word Alpha * Data) := λ S yield s,
  '(s, flow) ← match data node with
               | Some data => yield (prefix, data) s
               | None => Ret (s, Iter.Continue)
               end;
  if negb flow then Ret (s, Iter.Break) else loop node prefix S yield s.

(** The loop of [subsetsInNode]; the recursive call gets the rest of the word. *)
Fixpoint subsetsLoop (word : Word Alpha) (node : trieNode) (prefix : Word Alpha) :
    Iter.Iter (Word Alpha * Data) := λ S yield s,
  match word with
  | [] => Ret (s, Iter.Continue)
  | childAlpha :: word =>
      match children node !! childAlpha with
      | None => subsetsLoop word node prefix S yield s
      | Some child =>
          '(s, flow) ← visitNode (subsetsLoop word) child (Append prefix childAlpha) S yield s;
          if negb flow then Ret (s, Iter.Break) else subsetsLoop word node prefix S yield s
      end
  end.

Definition subsetsInNode (node : trieNode) (word : Word Alpha) (prefix : Word Alpha) :
    Iter.Iter (Word Alpha * Data) := visitNode (subsetsLoop word) node prefix.

Definition Subsets (trie : SetTrie) (word : Word Alpha) : Iter.Iter (Word Alpha * Data) :=
  subsetsInNode trie word [].

(** How deep the children of a node go: the fuel of a search through all of them. *)
Fixpoint depth (node : trieNode) : nat :=
  match node with TrieNode c _ => map_fold (λ _ child n, S (depth child) `max` n) 0 c end.

Section supersets.
Context `{!GoRuntime} (Less : Alpha → Alpha → bool).

(** The recursive calls of [supersetsInNode] are those for the children, in the order of the map. *)
Fixpoint supersetsInNode (fuel : nat) (node : trieNode) (word prefix : Word Alpha) : Iter.Iter (Word Alpha * Data) :=
  match fuel with
  | 0 => λ S yield s, Panic "out of fuel"
  | S fuel =>
      match word with
      | [] => λ S yield s,
          '(s, flow) ← match data node with
                       | Some data => yield (prefix, data) s
                       | None => Ret (s, Iter.Continue)
                       end;
          if negb flow then Ret (s, Iter.Break)
          else Iter.FlatMap (Iter.FromSlice (map_order (children node)))
                 (λ '(_, child), supersetsInNode fuel child word prefix) S yield s
      | nextWordAlpha :: rest =>
          Iter.FlatMap (Iter.FromSlice (map_order (children node))) (λ '(childAlpha, child),
            if Less nextWordAlpha childAlpha then Iter.Empty
            else supersetsInNode fuel child (if bool_decide (childAlpha = nextWordAlpha) then rest else word) (Append prefix childAlpha))
      end
  end.

Definition Supersets (trie : SetTrie) (word : Word Alpha) : Iter.Iter (Word Alpha * Data) :=
  supersetsInNode (S (depth trie)) trie word [].

End supersets.

End trie.

Arguments trieNode Alpha {_ _} Data.
Arguments SetTrie Alpha {_ _} Data.

End SetTrie.

(** ** matchable *)
Module Matchable.

Record Matchable : Type := { key : string; exists_ : bool; value : string }.

#[global] Instance Matchable_eq_dec : EqDecision Matchable.
Proof. solve_decision. Defined.
#[global] Program Instance Matchable_countable : Countable Matchable :=
  inj_countable' (λ m, (key m, exists_ m, value m))
    (λ '(k, e, v), {| key := k; exists_ := e; value := v |}) _.
Next Obligation. by intros []. Qed.

(** The last comparison is an inequality, not an order, of the values. *)
Definition Less (lhs rhs : Matchable) : bool :=
  if negb (bool_decide (key lhs = key rhs)) then string_lt (key lhs) (key rhs)
  else if negb (bool_decide (exists_ lhs = exists_ rhs)) then negb (exists_ lhs)
  else negb (bool_decide (value lhs = value rhs)).

Definition KeyOf (k : string) : Matchable := {| key := k; exists_ := true; value := zero |}.
Definition PairOf (k v : string) : Matchable := {| key := k; exists_ := false; value := v |}.

Definition ForSet (set_ : Canonical.LabelSet) : Iter.Iter Matchable :=
  Iter.FlatMap (Iter.FromSlice set_) (λ pair,
    Iter.FromSlice [KeyOf (Canonical.Key pair); PairOf (Canonical.Key pair) (Canonical.Value pair)]).

Section words.
Context `{!GoRuntime}.

(** [recurseMatchableWordsForSelector] pops [KeyExist] until it is empty, then pops
    [KeyIn], then yields: the two phases are one fixpoint each. *)
Fixpoint recurseKeyIn (KeyIn : list Canonical.KeyInReqmt) (baseWord : list Matchable) :
    Iter.Iter (SetTrie.Word Matchable) := λ S yield s,
  match KeyIn with
  | popped :: KeyIn =>
      (fix each (values : list string) (s : S) : outcome (S * Iter.Flow) :=
         match values with
         | [] => Ret (s, Iter.Continue)
         | value :: values =>
             '(s, flow) ← recurseKeyIn KeyIn
               (baseWord ++ [PairOf (Canonical.inKey popped) value]) S yield s;
             if negb flow then Ret (s, Iter.Break) else each values s
         end) (Canonical.inValues popped) s
  | [] => yield (SetTrie.NewWord Less baseWord) s
  end.

Fixpoint recurseMatchableWordsForSelector (KeyExist : list Canonical.KeyExistReqmt)
    (KeyIn : list Canonical.KeyInReqmt) (baseWord : list Matchable) :
    Iter.Iter (SetTrie.Word Matchable) :=
  match KeyExist with
  | popped :: KeyExist =>
      recurseMatchableWordsForSelector KeyExist KeyIn
        (baseWord ++ [KeyOf (Canonical.existKey popped)])
  | [] => recurseKeyIn KeyIn baseWord
  end.

Definition WordsForSelector (selector : Canonical.Selector) : Iter.Iter (SetTrie.Word Matchable) :=
  recurseMatchableWordsForSelector (Canonical.KeyExist selector) (Canonical.KeyIn selector) [].

End words.

End Matchable.

(** ** settrie.Multi *)
Module Multi.

Section multi.
Context {Alpha Subkey : Type} `{Countable Alpha, Countable Subkey} {Data : Type}.

(** A reference to a map. *)
Definition loc : Type := positive.

(** The trie holds references; [maps] is the heap that they point into. *)
Record Multi : Type := { trie : SetTrie.SetTrie Alpha loc; maps : gmap loc (gmap Subkey Data) }.

Definition NewMulti : Multi := {| trie := SetTrie.New; maps := ∅ |}.

(** A fresh reference for [map[Subkey]Data{...}]. *)
Definition alloc (heap : gmap loc (gmap Subkey Data)) (m : gmap Subkey Data) :
    loc * gmap loc (gmap Subkey Data) := let l := fresh (dom heap) in (l, <[l := m]> heap).

Definition Insert (multi : Multi) (word : SetTrie.Word Alpha) (subkey : Subkey) (d : Data) :
    Multi * bool :=
  let '(trie, (heap, output)) :=
    SetTrie.CreateOrUpdate (trie multi) word
      (λ '(heap, _), let '(l, heap) := alloc heap {[subkey := d]} in (l, (heap, false)))
      (λ map_ '(heap, _),
        let m := default ∅ (heap !! Optional.pointee map_) in
        let existed := Optional.IsSome (m !! subkey) in
        (map_, (<[Optional.pointee map_ := <[subkey := d]> m]> heap, existed)))
      (maps multi, false) in
  ({| trie := trie; maps := heap |}, output).

Definition Remove (multi : Multi) (word : SetTrie.Word Alpha) (subkey : Subkey) : Multi * bool :=
  let '(trie, (heap, output)) :=
    SetTrie.RetainOrDrop (trie multi) word
      (λ map_ '(heap, _),
        let m := default ∅ (heap !! map_) in
        let existed := Optional.IsSome (m !! subkey) in
        let m := delete subkey m in
        let heap := <[map_ := m]> heap in
        (if size m =? 0 then None else Some map_, (heap, existed)))
      (maps multi, false) in
  ({| trie := trie; maps := heap |}, output).

Definition Subsets `{!GoRuntime} (multi : Multi) (word : SetTrie.Word Alpha) :
    Iter.Iter (Subkey * Data) :=
  Iter.FlatMap (SetTrie.Subsets (trie multi) word)
    (λ '(_, map_), Iter.MapKvs (default ∅ (maps multi !! map_))).

End multi.

Arguments Multi Alpha Subkey {_ _ _ _} Data.

End Multi.

(** ** Trie lemmas *)
Section trie_lemmas.
Import SetTrie.
Context {Alpha : Type} `{Countable Alpha} {Data : Type}.
Implicit Types (node : trieNode Alpha Data) (w : Word Alpha).

#[local] Arguments isGarbageNode : simpl never.

Lemma get_newNode w : getWordInNode (newNode : trieNode Alpha Data) w = None.
Proof. by destruct w. Qed.

Lemma isGarbageNode_true node : isGarbageNode node = true ↔ node = newNode.
Proof.
  destruct node as [c d]. unfold isGarbageNode, newNode. simpl.
  rewrite andb_true_iff, Nat.eqb_eq, map_size_empty_iff, negb_true_iff.
  destruct d; naive_solver.
Qed.

Lemma get_cons node a w :
  getWordInNode node (a :: w) = getWordInNode (default newNode (children node !! a)) w.
Proof. simpl. destruct (children node !! a); simpl; [done|by rewrite get_newNode]. Qed.

(** Under the root, a step of the cursor replaces one child. *)
Definition set_child node (a : Alpha) (child : trieNode Alpha Data) : trieNode Alpha Data :=
  let cs := <[a := child]> (children node) in
  TrieNode (if isGarbageNode child then delete a cs else cs) (data node).

Lemma cursor_cons {H'} node a w (edit : option Data → H' → option Data * H') h :
  cursorUnderNode node (a :: w) true edit h =
    let r := cursorUnderNode (default newNode (children node !! a)) w true edit h in
    (set_child node a r.1, r.2).
Proof. simpl. destruct (children node !! a); simpl; by destruct (cursorUnderNode _ w true edit h). Qed.

Lemma get_set_child node a child b w :
  getWordInNode (set_child node a child) (b :: w) =
    if decide (b = a) then getWordInNode child w else getWordInNode node (b :: w).
Proof.
  rewrite !get_cons. unfold set_child. simpl. destruct (isGarbageNode child) eqn:Hg.
  - apply isGarbageNode_true in Hg as ->. case_decide; subst.
    + by rewrite lookup_delete_eq.
    + by rewrite lookup_delete_ne, lookup_insert_ne.
  - case_decide; subst; [by rewrite lookup_insert_eq|by rewrite lookup_insert_ne].
Qed.

(** The edit runs on the data of the word, and no other word changes. *)
Lemma cursor_get {H'} node w (edit : option Data → H' → option Data * H') h w' :
  getWordInNode (cursorUnderNode node w true edit h).1 w' =
    if decide (w' = w) then (edit (getWordInNode node w) h).1 else getWordInNode node w'.
Proof.
  revert node w'. induction w as [|a w IH]; intros node w'.
  { destruct w' as [|a w']; [rewrite decide_True by done|rewrite decide_False by done];
      simpl; by destruct (edit (data node) h). }
  rewrite cursor_cons, (get_cons node a w). simpl fst.
  destruct w' as [|b w']; [by rewrite decide_False by done|].
  rewrite get_set_child, IH. destruct (decide (b = a)) as [->|Hne];
    [|by rewrite decide_False by congruence].
  rewrite get_cons. do 2 case_decide; congruence.
Qed.

Lemma cursor_state {H'} node w (edit : option Data → H' → option Data * H') h :
  (cursorUnderNode node w true edit h).2 = (edit (getWordInNode node w) h).2.
Proof.
  revert node. induction w as [|a w IH]; intros node.
  { simpl. by destruct (edit (data node) h). }
  rewrite cursor_cons, get_cons. apply IH.
Qed.

(** *** Tries without garbage nodes *)
Inductive clean : trieNode Alpha Data → Prop :=
| clean_intro node :
    (∀ a c, children node !! a = Some c → c ≠ newNode) →
    (∀ a c, children node !! a = Some c → clean c) → clean node.

Lemma clean_newNode : clean newNode.
Proof. by constructor; intros a c. Qed.

Lemma set_child_clean node a child : clean node → clean child → clean (set_child node a child).
Proof.
  intros [? Hg Hc] Hchild. constructor; simpl; intros b c Hb;
    destruct (isGarbageNode child) eqn:Hgc;
    rewrite ?lookup_delete_Some, ?lookup_insert_Some in Hb.
  - destruct Hb as [? [[? ?]|[? ?]]]; [done|eauto].
  - destruct Hb as [[<- <-]|[? ?]]; [|eauto]. by intros Hn%isGarbageNode_true; rewrite Hn in Hgc.
  - destruct Hb as [? [[? ?]|[? ?]]]; [done|eauto].
  - destruct Hb as [[<- <-]|[? ?]]; eauto.
Qed.

Lemma cursor_clean {H'} node w (edit : option Data → H' → option Data * H') h :
  clean node → clean (cursorUnderNode node w true edit h).1.
Proof.
  revert node. induction w as [|a w IH]; intros node Hn.
  { simpl. destruct (edit (data node) h). destruct Hn as [node Hg Hc]. by constructor. }
  rewrite cursor_cons. simpl fst. apply set_child_clean; [done|]. apply IH.
  destruct Hn as [node Hg Hc]. destruct (children node !! a) eqn:He; simpl; eauto using clean_newNode.
Qed.

(** A node that is not garbage leads to a word. *)
Lemma clean_has_word node : clean node → node ≠ newNode → ∃ w, is_Some (getWordInNode node w).
Proof.
  induction 1 as [node Hg Hc IH]; intros Hn. destruct (data node) as [d|] eqn:Hd.
  { exists []. simpl. by rewrite Hd. }
  destruct (map_choose (children node)) as (a & c & Hac).
  { intros He. apply Hn. destruct node as [ch da]. simpl in *. by subst. }
  destruct (IH a c Hac (Hg a c Hac)) as [w Hw]. exists (a :: w). simpl. by rewrite Hac.
Qed.

(** A clean trie is determined by its words. *)
Lemma clean_ext node1 node2 :
  clean node1 → clean node2 → (∀ w, getWordInNode node1 w = getWordInNode node2 w) →
  node1 = node2.
Proof.
  intros H1. revert node2. induction H1 as [node1 Hg1 Hc1 IH]; intros node2 H2 Hw.
  assert (data node1 = data node2) as Hd by apply (Hw []).
  assert (children node1 = children node2) as Hch; [|by destruct node1, node2; simpl in *; subst].
  inversion H2 as [? Hg2 Hc2]; subst. apply map_eq. intros a.
  assert (Hwa : ∀ w, getWordInNode (default newNode (children node1 !! a)) w =
    getWordInNode (default newNode (children node2 !! a)) w).
  { intros w. specialize (Hw (a :: w)). by rewrite !get_cons in Hw. }
  destruct (children node1 !! a) as [c1|] eqn:E1, (children node2 !! a) as [c2|] eqn:E2; simpl in *.
  - f_equal. eauto.
  - destruct (clean_has_word c1) as [w [d Hd']]; eauto. rewrite Hwa, get_newNode in Hd'. done.
  - destruct (clean_has_word c2) as [w [d Hd']]; eauto. rewrite <- Hwa, get_newNode in Hd'. done.
  - done.
Qed.

(** *** Subset queries *)
Definition subs_node (loop : trieNode Alpha Data → Word Alpha → list (Word Alpha * Data))
    node (prefix : Word Alpha) : list (Word Alpha * Data) :=
  ((λ d, (prefix, d)) <$> option_list (data node)) ++ loop node prefix.

Fixpoint subs_loop w node (prefix : Word Alpha) : list (Word Alpha * Data) :=
  match w with
  | [] => []
  | a :: w =>
      match children node !! a with
      | None => []
      | Some child => subs_node (subs_loop w) child (Append prefix a)
      end ++ subs_loop w node prefix
  end.

Lemma pushes_visitNode w node prefix :
  (∀ node prefix, pushes (subsetsLoop w node prefix) (subs_loop w node prefix)) →
  pushes (visitNode (subsetsLoop w) node prefix) (subs_node (subs_loop w) node prefix).
Proof.
  intros Hloop S y s. unfold visitNode, subs_node. rewrite FromSlice_app.
  destruct (data node) as [d|]; simpl; [|apply Hloop].
  destruct (y (prefix, d) s) as [[s' []]|]; simpl; [apply Hloop|done|done].
Qed.

Lemma pushes_subsetsLoop w node prefix :
  pushes (subsetsLoop w node prefix) (subs_loop w node prefix).
Proof.
  revert node prefix. induction w as [|a w IH]; intros node prefix S y s; [done|].
  simpl. rewrite FromSlice_app. destruct (children node !! a) as [c|]; simpl; [|apply IH].
  rewrite (pushes_visitNode w c _ IH).
  destruct (Iter.FromSlice (subs_node _ c _) S y s) as [[s' []]|]; simpl; [apply IH|done|done].
Qed.

Lemma elem_of_subs_node w node prefix p d :
  (∀ node prefix, (p, d) ∈ subs_loop w node prefix ↔
    ∃ a q, sublist (a :: q) w ∧ p = prefix ++ a :: q ∧ getWordInNode node (a :: q) = Some d) →
  (p, d) ∈ subs_node (subs_loop w) node prefix ↔
    ∃ q, sublist q w ∧ p = prefix ++ q ∧ getWordInNode node q = Some d.
Proof.
  intros Hloop. unfold subs_node. rewrite elem_of_app, Hloop. split.
  - intros [Hd|(a & q & ? & ? & ?)]; [|by exists (a :: q)].
    exists []. split; [apply sublist_nil_l|]. rewrite app_nil_r. simpl.
    destruct (data node); set_solver.
  - intros ([|a q] & Hs & -> & Hg); [left|right; by exists a, q].
    rewrite app_nil_r. simpl in Hg. rewrite Hg. simpl. set_solver.
Qed.

Lemma elem_of_subs_loop w node prefix p d :
  (p, d) ∈ subs_loop w node prefix ↔
    ∃ a q, sublist (a :: q) w ∧ p = prefix ++ a :: q ∧ getWordInNode node (a :: q) = Some d.
Proof.
  revert node prefix. induction w as [|b w IH]; intros node prefix; simpl.
  { split; [set_solver|]. intros (a & q & Hs%sublist_nil_r & _). done. }
  rewrite elem_of_app, IH. split.
  - intros [Hin|(a & q & Hs & -> & Hg)].
    + destruct (children node !! b) as [c|] eqn:Hc; [|set_solver].
      apply elem_of_subs_node in Hin as (q & Hs & -> & Hg); [|done].
      exists b, q. unfold Append. rewrite <- app_assoc, Hc. by repeat constructor.
    + exists a, q. split; [by apply sublist_cons|]. done.
  - intros (a & q & Hs & -> & Hg). apply sublist_cons_r in Hs as [Hs|(q' & ? & Hs)].
    + right. exists a, q. done.
    + simplify_eq. left. destruct (children node !! b) as [c|] eqn:Hc; [|done].
      apply elem_of_subs_node; [done|]. exists q'. unfold Append. by rewrite <- app_assoc.
Qed.

Definition subsets_list node w : list (Word Alpha * Data) := subs_node (subs_loop w) node [].

Lemma pushes_Subsets node w : pushes (Subsets node w) (subsets_list node w).
Proof. apply pushes_visitNode, pushes_subsetsLoop. Qed.

Lemma elem_of_subsets_list node w p d :
  (p, d) ∈ subsets_list node w ↔ sublist p w ∧ Get node p = Some d.
Proof.
  unfold subsets_list. rewrite elem_of_subs_node by (intros; apply elem_of_subs_loop). naive_solver.
Qed.

Lemma NoDup_subs_node w node prefix :
  (∀ node prefix, NoDup (subs_loop w node prefix).*1) →
  NoDup (subs_node (subs_loop w) node prefix).*1.
Proof.
  intros Hloop. unfold subs_node. rewrite fmap_app. apply NoDup_app. split; [|split; [|apply Hloop]].
  - destruct (data node); simpl; [apply NoDup_singleton|apply NoDup_nil_2].
  - intros p Hp ([p' d] & -> & Hin)%list_elem_of_fmap.
    apply elem_of_subs_loop in Hin as (a & q & _ & Heq & _). simpl in Hp.
    assert (p' = prefix) as -> by (destruct (data node); set_solver).
    rewrite <- (app_nil_r prefix) in Heq at 1. by apply app_inv_head in Heq.
Qed.

Lemma NoDup_subs_loop w node prefix : NoDup w → NoDup (subs_loop w node prefix).*1.
Proof.
  intros Hw. revert node prefix. induction Hw as [|a w Ha Hw IH]; intros node prefix; simpl.
  { apply NoDup_nil_2. }
  rewrite fmap_app. apply NoDup_app. split; [|split; [|apply IH]].
  - destruct (children node !! a); [by apply NoDup_subs_node|apply NoDup_nil_2].
  - intros p ([p1 d1] & -> & H1)%list_elem_of_fmap ([p2 d2] & Hp & H2)%list_elem_of_fmap.
    simpl in Hp; subst p2. destruct (children node !! a) as [c|]; [|set_solver].
    apply elem_of_subs_node in H1 as (q & _ & -> & _); [|intros; apply elem_of_subs_loop].
    apply elem_of_subs_loop in H2 as (b & q' & Hs & Heq & _). unfold Append in Heq.
    rewrite <- app_assoc in Heq. apply app_inv_head in Heq. simplify_eq/=.
    apply Ha. eapply elem_of_sublist; [|exact Hs]. left.
Qed.

Lemma NoDup_subsets_list node w : NoDup w → NoDup (subsets_list node w).*1.
Proof. intros Hw. apply NoDup_subs_node. intros. by apply NoDup_subs_loop. Qed.

End trie_lemmas.

(** ** Superset queries *)
Section superset_lemmas.
Import SetTrie.
Context `{!GoRuntime} {Alpha : Type} `{Countable Alpha} {Data : Type} (Less : Alpha → Alpha → bool).
Implicit Types (node : trieNode Alpha Data) (w word : Word Alpha).

Lemma depth_child node a c : children node !! a = Some c → depth c < depth node.
Proof.
  destruct node as [cs d]. simpl. intros Hc. rewrite (map_fold_delete_L _ _ a c cs); [lia|intros; lia|done].
Qed.

(** What is found below a node: a stored word, the part of it that is reported, and its data. *)
Definition below (f : Alpha → trieNode Alpha Data → list (Word Alpha * Word Alpha * Data)) node :=
  map_order (children node) ≫= λ '(a, child), (λ '(w, p, d), (a :: w, p, d)) <$> f a child.
Fixpoint sups (fuel : nat) node word : list (Word Alpha * Word Alpha * Data) :=
  match fuel with
  | 0 => []
  | S fuel =>
      match word with
      | [] => ((λ d, ([], [], d)) <$> option_list (data node)) ++ below (λ _ child, sups fuel child []) node
      | next :: rest => below (λ a child,
          if Less next a then []
          else (λ '(w, p, d), (w, a :: p, d)) <$> sups fuel child (if bool_decide (a = next) then rest else word)) node
      end
  end.

Definition reported (prefix : Word Alpha) : Word Alpha * Word Alpha * Data → Word Alpha * Data :=
  λ '(w, p, d), (prefix ++ p, d).

Lemma pushes_children fuel node prefix (it : Alpha * trieNode Alpha Data → Iter.Iter (Word Alpha * Data)) f :
  depth node < S fuel →
  (∀ a child, depth child < fuel → pushes (it (a, child)) (reported prefix <$> f a child)) →
  pushes (Iter.FlatMap (Iter.FromSlice (map_order (children node))) it) (reported prefix <$> below f node).
Proof.
  intros Hd Hit. unfold below.
  replace (reported prefix <$> _) with (map_order (children node) ≫= λ '(a, child), reported prefix <$> f a child).
  - apply pushes_FlatMap; [done|]. intros [a child] Hc%elem_of_map_order%depth_child. apply Hit. lia.
  - induction (map_order (children node)) as [|[a child] l IH]; [done|]. rewrite !bind_cons, fmap_app, IH. f_equal.
    rewrite <- list_fmap_compose. apply list_fmap_ext. by intros _ [[w p] d] _.
Qed.

Lemma pushes_supersetsInNode fuel : ∀ node word prefix, depth node < fuel →
  pushes (supersetsInNode Less fuel node word prefix) (reported prefix <$> sups fuel node word).
Proof.
  induction fuel as [|fuel IH]; intros node word prefix Hd; [lia|]. destruct word as [|next rest]; cbn [supersetsInNode sups].
  - intros S y s. rewrite fmap_app, FromSlice_app.
    assert (Hch := pushes_children fuel node prefix (λ '(_, child), supersetsInNode Less fuel child [] prefix) (λ _ child, sups fuel child [])
      Hd (λ a child Hc, IH child [] prefix Hc)).
    destruct (data node) as [d|]; simpl; [|apply Hch]. rewrite app_nil_r.
    change (@pair (list Alpha) Data prefix d) with (@pair (Word Alpha) Data prefix d).
    destruct (y (prefix, d) s) as [[s' []]|]; cbn; [apply Hch|done|done].
  - apply (pushes_children fuel); [done|]. intros a child Hc. destruct (Less next a); [done|].
    intros S y s. rewrite IH by done. f_equal. rewrite <- list_fmap_compose. apply list_fmap_ext.
    intros _ [[w p] d] _. cbn. unfold Append. by rewrite <- app_assoc.
Qed.

(** What is reported for a stored word. *)
Fixpoint cover word w : option (Word Alpha) :=
  match word, w with
  | [], _ => Some []
  | _ :: _, [] => None
  | next :: rest, a :: w =>
      if Less next a then None else cons a <$> cover (if bool_decide (a = next) then rest else word) w
  end.

Lemma elem_of_below f node w p d :
  (w, p, d) ∈ below f node ↔ ∃ a child w', w = a :: w' ∧ children node !! a = Some child ∧ (w', p, d) ∈ f a child.
Proof.
  unfold below. rewrite list_elem_of_bind. split.
  - intros ([a child] & ([[w' p'] d'] & [= -> -> ->] & Hf)%list_elem_of_fmap & Hc%elem_of_map_order). by exists a, child, w'.
  - intros (a & child & w' & -> & Hc & Hf). exists (a, child). rewrite elem_of_map_order. split; [|done].
    apply list_elem_of_fmap. by exists (w', p, d).
Qed.

Lemma elem_of_sups fuel : ∀ node word w p d, depth node < fuel →
  (w, p, d) ∈ sups fuel node word ↔ getWordInNode node w = Some d ∧ cover word w = Some p.
Proof.
  induction fuel as [|fuel IH]; intros node word w p d Hd; [lia|].
  assert (Hbelow : ∀ f (P : Alpha → Word Alpha → Prop),
    (∀ a child w', depth child < fuel → (w', p, d) ∈ f a child ↔ getWordInNode child w' = Some d ∧ P a w') →
    (w, p, d) ∈ below f node ↔ ∃ a w', w = a :: w' ∧ getWordInNode node w = Some d ∧ P a w').
  { intros f P Hf. rewrite elem_of_below. split.
    - intros (a & child & w' & -> & Hc & Hin). apply Hf in Hin as [Hg HP]; [|apply depth_child in Hc; lia].
      exists a, w'. simpl. by rewrite Hc.
    - intros (a & w' & -> & Hg & HP). simpl in Hg. destruct (children node !! a) as [child|] eqn:Hc; [|done].
      exists a, child, w'. rewrite Hf by (apply depth_child in Hc; lia). done. }
  destruct word as [|next rest]; cbn [sups].
  - rewrite elem_of_app, (Hbelow _ (λ _ _, p = [])); [|intros a child w' Hc; rewrite IH by done; destruct w'; naive_solver].
    destruct w as [|a w]; cbn; [destruct (data node); set_solver|]. split.
    + intros [(? & ? & _)%list_elem_of_fmap|(? & ? & _ & ? & ->)]; done.
    + intros [? [= <-]]. right. eauto.
  - rewrite (Hbelow _ (λ a w', cover (next :: rest) (a :: w') = Some p)).
    + split; [by intros (a & w' & -> & ? & ?)|]. intros [Hg Hc]. destruct w as [|a w]; [done|eauto].
    + intros a child w' Hc. simpl. destruct (Less next a); [set_solver|]. rewrite list_elem_of_fmap, fmap_Some. split.
      * intros ([[w0 p'] d'] & [= -> -> ->] & Hin). apply IH in Hin; naive_solver.
      * intros (Hg & p' & Hp & ->). exists (w', p', d). by rewrite IH.
Qed.

Lemma elem_of_words w (l : list (Word Alpha * Word Alpha * Data)) : w ∈ l.*1.*1 ↔ ∃ p d, (w, p, d) ∈ l.
Proof.
  split.
  - intros ([w1 p] & -> & ([[w2 p2] d] & [= -> ->] & Hin)%list_elem_of_fmap)%list_elem_of_fmap. eauto.
  - intros (p & d & Hin). apply list_elem_of_fmap. exists (w, p). split; [done|]. apply list_elem_of_fmap. by exists (w, p, d).
Qed.

Lemma NoDup_sups fuel : ∀ node word, NoDup (sups fuel node word).*1.*1.
Proof.
  assert (Hbelow : ∀ f node, (∀ a child, NoDup (f a child).*1.*1) → NoDup (below f node).*1.*1).
  { intros f node Hf. unfold below. assert (Hk := NoDup_fst_map_order (children node)).
    induction (map_order (children node)) as [|[a child] l IH]; [apply NoDup_nil_2|]. rewrite bind_cons, !fmap_app.
    cbn in Hk. apply NoDup_cons in Hk as [Ha Hk]. apply NoDup_app. split; [|split; [|by apply IH]].
    - rewrite <- !list_fmap_compose. rewrite (list_fmap_ext _ (cons a ∘ fst ∘ fst)); [|by intros _ [[w p] d] _].
      rewrite list_fmap_compose, list_fmap_compose. apply NoDup_fmap_2; [by intros ? ? [= ->]|].
      rewrite <- list_fmap_compose. rewrite list_fmap_compose. apply Hf.
    - intros w (p & d & ([[w1 ?] ?] & [= -> -> ->] & _)%list_elem_of_fmap)%elem_of_words (p' & d' & Hin)%elem_of_words.
      apply list_elem_of_bind in Hin as ([b c] & ([[? ?] ?] & [= <- ? ? ?] & _)%list_elem_of_fmap & Hb).
      apply Ha. apply list_elem_of_fmap. by exists (a, c). }
  induction fuel as [|fuel IH]; intros node word; [apply NoDup_nil_2|]. destruct word as [|next rest]; cbn [sups].
  - rewrite !fmap_app. apply NoDup_app. split; [destruct (data node); [apply NoDup_singleton|apply NoDup_nil_2]|split; [|by apply Hbelow]].
    intros w Hw. assert (w = []) as -> by (destruct (data node); set_solver).
    by intros (? & ? & (? & ? & ? & [=] & _)%elem_of_below)%elem_of_words.
  - apply Hbelow. intros a child. destruct (Less next a); [apply NoDup_nil_2|]. rewrite <- !list_fmap_compose.
    rewrite (list_fmap_ext _ (fst ∘ fst)); [|by intros _ [[w p] d] _]. rewrite list_fmap_compose. apply IH.
Qed.

(** The shortest part of a word, from its start, that has the letters of another. *)
Definition shortest_cover word w (p : Word Alpha) : Prop :=
  p `prefix_of` w ∧ sublist word p ∧ ∀ p', p' `prefix_of` w → sublist word p' → p `prefix_of` p'.

Lemma cover_correct w : StrictOrder (λ x y, Less x y = true) → StronglySorted (λ x y, Less x y = true) w → ∀ word,
  match cover word w with Some p => shortest_cover word w p | None => ¬ sublist word w end.
Proof.
  intros [Hirr Htr] Hw. induction Hw as [|a w Hw IH Ha]; intros [|next rest]; cbn [cover].
  1,3: split; [apply prefix_nil|]; split; [apply sublist_nil_l|]; intros; apply prefix_nil.
  { intros Hs. inversion Hs. }
  destruct (Less next a) eqn:Hlt.
  { intros Hs. assert (Hin : next ∈ a :: w) by (eapply elem_of_sublist; [left|done]).
    apply elem_of_cons in Hin as [->|Hin]; [by destruct (Hirr a)|].
    rewrite Forall_forall in Ha. apply (Hirr next). eapply Htr; [done|by apply Ha]. }
  specialize (IH (if bool_decide (a = next) then rest else next :: rest)).
  assert (Hsub : ∀ l, sublist (next :: rest) (a :: l) ↔ sublist (if bool_decide (a = next) then rest else next :: rest) l).
  { intros l. case_bool_decide as Heq.
    - subst. split; [|by constructor]. intros Hs. inversion Hs; subst; [done|]. etrans; [|eassumption]. by constructor.
    - split; [|by constructor]. intros Hs. inversion Hs; by subst. }
  destruct (cover _ w) as [p|]; cbn; [|by rewrite Hsub].
  destruct IH as (Hp & Hs & Hmin). split; [by apply prefix_cons|]. split; [by rewrite Hsub|].
  intros [|b p'] Hp' Hs'; [inversion Hs'|]. apply prefix_cons_inv_1 in Hp' as Hb. subst b.
  apply prefix_cons. apply Hmin; [by eapply prefix_cons_inv_2|by apply Hsub].
Qed.

End superset_lemmas.

(** ** Multi lemmas *)
Section multi_lemmas.
Import Multi.
Context {Alpha Subkey : Type} `{Countable Alpha, Countable Subkey} {Data : Type}.
Implicit Types (m : Multi Alpha Subkey Data) (w : SetTrie.Word Alpha).

(** The map that a [Multi] associates with a word. *)
Definition multi_get m w : gmap Subkey Data :=
  match SetTrie.Get (trie m) w with
  | Some l => default ∅ (maps m !! l)
  | None => ∅
  end.

(** No garbage nodes, no dangling reference, no empty map and no aliasing. *)
Record multi_wf m : Prop := {
  wf_clean : clean (trie m);
  wf_alloc : ∀ w l, SetTrie.Get (trie m) w = Some l → ∃ mp, maps m !! l = Some mp ∧ mp ≠ ∅;
  wf_inj : ∀ w1 w2 l, SetTrie.Get (trie m) w1 = Some l → SetTrie.Get (trie m) w2 = Some l → w1 = w2
}.

Lemma multi_wf_new : multi_wf NewMulti.
Proof.
  split; simpl.
  - apply clean_newNode.
  - intros w l. unfold SetTrie.Get. by rewrite get_newNode.
  - intros w1 w2 l. unfold SetTrie.Get. by rewrite get_newNode.
Qed.

Lemma multi_get_new w : multi_get NewMulti w = ∅.
Proof. unfold multi_get, SetTrie.Get. simpl. by rewrite get_newNode. Qed.

(** The trie after [Insert] and [Remove], and its heap and output. *)
Lemma Insert_shape m w k d :
  clean (trie m) →
  clean (trie (Insert m w k d).1) ∧
  (Insert m w k d).2 = Optional.IsSome (multi_get m w !! k) ∧
  match SetTrie.Get (trie m) w with
  | Some l =>
      (∀ w', SetTrie.Get (trie (Insert m w k d).1) w' = SetTrie.Get (trie m) w') ∧
      maps (Insert m w k d).1 = <[l := <[k := d]> (multi_get m w)]> (maps m)
  | None =>
      let l := fresh (dom (maps m)) in
      (∀ w', SetTrie.Get (trie (Insert m w k d).1) w' =
        if decide (w' = w) then Some l else SetTrie.Get (trie m) w') ∧
      maps (Insert m w k d).1 = <[l := {[k := d]}]> (maps m)
  end.
Proof.
  intros Hcl. unfold Insert, SetTrie.CreateOrUpdate, alloc.
  match goal with |- context [SetTrie.cursorUnderNode _ _ _ ?e ?h] =>
    pose proof (cursor_clean (trie m) w e h Hcl) as Hc;
    pose proof (cursor_state (trie m) w e h) as Hs;
    pose proof (cursor_get (trie m) w e h) as Hg;
    destruct (SetTrie.cursorUnderNode (trie m) w true e h) as [t [heap out]] end.
  unfold multi_get, SetTrie.Get, Optional.GetValueRefOrNil in *. simpl in *.
  destruct (SetTrie.getWordInNode (trie m) w) as [l|] eqn:Hw; simpl in *; simplify_eq;
    (split; [done|]); split; try done; split; try done.
  intros w'. rewrite Hg. by case_decide; subst.
Qed.

Lemma Remove_shape m w k :
  clean (trie m) →
  clean (trie (Remove m w k).1) ∧
  (Remove m w k).2 = Optional.IsSome (multi_get m w !! k) ∧
  match SetTrie.Get (trie m) w with
  | Some l =>
      (∀ w', SetTrie.Get (trie (Remove m w k).1) w' =
        if decide (w' = w)
        then (if size (delete k (multi_get m w)) =? 0 then None else Some l)
        else SetTrie.Get (trie m) w') ∧
      maps (Remove m w k).1 = <[l := delete k (multi_get m w)]> (maps m)
  | None =>
      (∀ w', SetTrie.Get (trie (Remove m w k).1) w' = SetTrie.Get (trie m) w') ∧
      maps (Remove m w k).1 = maps m
  end.
Proof.
  intros Hcl. unfold Remove, SetTrie.RetainOrDrop.
  match goal with |- context [SetTrie.cursorUnderNode _ _ _ ?e ?h] =>
    pose proof (cursor_clean (trie m) w e h Hcl) as Hc;
    pose proof (cursor_state (trie m) w e h) as Hs;
    pose proof (cursor_get (trie m) w e h) as Hg;
    destruct (SetTrie.cursorUnderNode (trie m) w true e h) as [t [heap out]] end.
  unfold multi_get, SetTrie.Get, Optional.GetValueRefOrNil in *. simpl in *.
  destruct (SetTrie.getWordInNode (trie m) w) as [l|] eqn:Hw; simpl in *; simplify_eq;
    (split; [done|]); (split; [done|]); split; try done.
  intros w'. rewrite Hg. by case_decide; subst.
Qed.

Lemma multi_Insert m w k d :
  multi_wf m →
  multi_wf (Insert m w k d).1 ∧
  (Insert m w k d).2 = Optional.IsSome (multi_get m w !! k) ∧
  ∀ w', multi_get (Insert m w k d).1 w' =
    if decide (w' = w) then <[k := d]> (multi_get m w) else multi_get m w'.
Proof.
  intros [Hcl Hal Hinj]. destruct (Insert_shape m w k d Hcl) as (Hc & Hout & Hsh).
  revert Hsh Hout. unfold multi_get. destruct (SetTrie.Get (trie m) w) as [l|] eqn:Hw;
    intros [Hg Hm] Hout; (split; [split; [done| |]|split; [done|]]).
  - intros w' l'. rewrite Hg, Hm. intros Hl'. rewrite lookup_insert.
    case_decide; [|by eapply Hal]. eexists; split; [done|]. apply insert_non_empty.
  - intros w1 w2 l'. rewrite !Hg. apply Hinj.
  - intros w'. rewrite Hg, Hm. case_decide as Hd.
    + subst. by rewrite Hw, lookup_insert_eq.
    + destruct (SetTrie.Get (trie m) w') as [l'|] eqn:Hw'; [|done].
      rewrite lookup_insert_ne; [done|]. intros ->. eauto.
  - intros w' l'. rewrite Hg, Hm. case_decide as Hd.
    + intros [= <-]. rewrite lookup_insert_eq. eexists; split; [done|]. apply insert_non_empty.
    + intros Hl'. destruct (Hal _ _ Hl') as (mp & Hmp & ?). rewrite lookup_insert_ne; [eauto|].
      intros <-. apply elem_of_dom_2 in Hmp. by apply is_fresh in Hmp.
  - intros w1 w2 l'. rewrite !Hg.
    assert (Hfresh : ∀ w', SetTrie.Get (trie m) w' ≠ Some (fresh (dom (maps m)))).
    { intros w' (mp & Hmp%elem_of_dom_2 & _)%Hal. by apply is_fresh in Hmp. }
    do 2 case_decide; subst; try done; [intros [= <-] ?|intros ? [= <-]|]; [naive_solver..|apply Hinj].
  - intros w'. rewrite Hg, Hm. case_decide as Hd; [by rewrite lookup_insert_eq|].
    destruct (SetTrie.Get (trie m) w') as [l'|] eqn:Hw'; [|done].
    destruct (Hal _ _ Hw') as (mp & Hmp & ?). rewrite lookup_insert_ne; [done|].
    intros <-. apply elem_of_dom_2 in Hmp. by apply is_fresh in Hmp.
Qed.

Lemma multi_Remove m w k :
  multi_wf m →
  multi_wf (Remove m w k).1 ∧
  (Remove m w k).2 = Optional.IsSome (multi_get m w !! k) ∧
  ∀ w', multi_get (Remove m w k).1 w' =
    if decide (w' = w) then delete k (multi_get m w) else multi_get m w'.
Proof.
  intros [Hcl Hal Hinj]. destruct (Remove_shape m w k Hcl) as (Hc & Hout & Hsh).
  revert Hsh Hout. unfold multi_get. destruct (SetTrie.Get (trie m) w) as [l|] eqn:Hw;
    intros [Hg Hm] Hout; (split; [split; [done| |]|split; [done|]]).
  - intros w' l'. rewrite Hg, Hm, lookup_insert. case_decide as Hd.
    + subst w'. destruct (Nat.eqb_spec (size (delete k (default ∅ (maps m !! l)))) 0) as [|Hsz]; [done|].
      intros [= <-]. rewrite decide_True by done. eexists; split; [done|].
      by rewrite <- map_size_empty_iff.
    + intros Hl'. rewrite decide_False; [by eapply Hal|]. intros <-. eauto.
  - intros w1 w2 l'. rewrite !Hg. intros H1 H2.
    do 2 case_decide; subst; try done; try (destruct (_ =? 0); simplify_eq; eauto).
  - intros w'. rewrite Hg, Hm. case_decide as Hd.
    + subst. destruct (Nat.eqb_spec (size (delete k (default ∅ (maps m !! l)))) 0) as [Hsz|Hsz].
      * symmetry. by apply map_size_empty_iff.
      * by rewrite lookup_insert_eq.
    + destruct (SetTrie.Get (trie m) w') as [l'|] eqn:Hw'; [|done].
      rewrite lookup_insert_ne; [done|]. intros ->. eauto.
  - intros w' l'. rewrite Hg, Hm. eauto.
  - intros w1 w2 l'. rewrite !Hg. eauto.
  - intros w'. rewrite Hg, Hm. case_decide; subst; [by rewrite Hw, delete_empty|done].
Qed.

(** What a subset query delivers: the entries of the words that are sublists. *)
Lemma pushes_multi_Subsets `{!GoRuntime} m w :
  ∃ l, pushes (Subsets m w) l ∧
    ∀ k d, (k, d) ∈ l ↔ ∃ w', sublist w' w ∧ multi_get m w' !! k = Some d.
Proof.
  eexists. split.
  { apply (pushes_FlatMap _ (subsets_list (trie m) w) _
      (λ '(_, l), map_order (default ∅ (maps m !! l)))).
    - apply pushes_Subsets.
    - intros [p l] _. done. }
  intros k d. rewrite list_elem_of_bind. unfold multi_get. split.
  - intros ([p l] & Hk%elem_of_map_order & Hp%elem_of_subsets_list). exists p.
    destruct Hp as [? ->]. done.
  - intros (w' & Hs & Hk). destruct (SetTrie.Get (trie m) w') as [l|] eqn:Hg; [|done].
    exists (w', l). rewrite elem_of_map_order, elem_of_subsets_list. done.
Qed.

End multi_lemmas.

(** ** Words of a selector and of a label set *)
Section words_lemmas.
Context `{!GoRuntime}.
Import Canonical Matchable.

(** Matchables in which the key and the kind determine the value: on these [Less] is a
    total order. *)
Definition consistent (P : Matchable → Prop) : Prop :=
  ∀ x y, P x → P y → key x = key y → exists_ x = exists_ y → x = y.

Lemma Less_false_antisym P x y :
  consistent P → P x → P y → Less y x = false → Less x y = false → x = y.
Proof.
  intros HP Hx Hy. unfold Less. destruct (decide (key x = key y)) as [He|Hne].
  - rewrite !(bool_decide_eq_true_2 (key _ = key _)) by done. simpl.
    destruct (decide (exists_ x = exists_ y)) as [Hee|Hne]; [by intros; apply HP|].
    rewrite !(bool_decide_eq_false_2 (exists_ _ = exists_ _)) by done. simpl.
    by destruct (exists_ x), (exists_ y).
  - rewrite !(bool_decide_eq_false_2 (key _ = key _)) by done. simpl.
    intros ?%string_lt_false ?%string_lt_false. destruct Hne. by apply (anti_symm String.le).
Qed.

Lemma Less_true P x y :
  consistent P → P x → P y →
  Less x y = true ↔ string_lt (key x) (key y) = true ∨
    (key x = key y ∧ exists_ x = false ∧ exists_ y = true).
Proof.
  intros HP Hx Hy. unfold Less. destruct (decide (key x = key y)) as [He|Hne].
  - rewrite (bool_decide_eq_true_2 (key _ = key _)) by done. rewrite He. simpl.
    rewrite (swo_irrefl _ _ string_lt_swo) by done.
    destruct (decide (exists_ x = exists_ y)) as [Hee|Hne].
    + rewrite (bool_decide_eq_true_2 (exists_ _ = exists_ _)) by done.
      rewrite (HP x y), bool_decide_eq_true_2 by done. simpl. destruct (exists_ y); naive_solver.
    + rewrite (bool_decide_eq_false_2 (exists_ _ = exists_ _)) by done. simpl.
      destruct (exists_ x), (exists_ y); naive_solver.
  - rewrite (bool_decide_eq_false_2 (key _ = key _)) by done. naive_solver.
Qed.

Lemma Less_swo_on P : consistent P → strict_weak_order_on P Less.
Proof.
  intros HP. destruct string_lt_swo as [Hirr Htr _].
  assert (Htrans : ∀ x y z, P x → P y → P z → Less x y = true → Less y z = true → Less x z = true).
  { intros x y z Hx Hy Hz. rewrite !(Less_true P) by done.
    intros [?|(Hk1 & ? & ?)] [?|(Hk2 & ? & ?)].
    - left. by eapply Htr.
    - left. by rewrite <- Hk2.
    - left. by rewrite Hk1.
    - congruence. }
  split; [|done|].
  - intros x Hx. apply not_true_iff_false. rewrite (Less_true P) by done.
    rewrite Hirr by done. intros [|(_ & ? & ?)]; congruence.
  - intros x y z Hx Hy Hz Hxy Hyz. destruct (decide (x = y)) as [->|Hne]; [done|].
    destruct (decide (y = z)) as [->|Hne']; [done|].
    assert (Less y x = true) as Hyx.
    { destruct (Less y x) eqn:He; [done|]. destruct Hne. by apply (Less_false_antisym P). }
    assert (Less z y = true) as Hzy.
    { destruct (Less z y) eqn:He; [done|]. destruct Hne'. by apply (Less_false_antisym P). }
    destruct (Less x z) eqn:Hxz; [|done]. rewrite <- Hxy. symmetry. by apply (Htrans x z y).
Qed.

Lemma NewWord_sorted l :
  consistent (λ x, x ∈ l) →
  StronglySorted (λ x y, Less y x = false) (SetTrie.NewWord Less l).
Proof.
  intros Hl. apply Less_swo_on in Hl.
  apply (swo_sorted_strong Less (λ x, x ∈ l)); [done| |by apply sort_slice_sorted].
  apply Forall_forall. intros x. unfold SetTrie.NewWord. by rewrite sort_slice_perm.
Qed.

(** Words are comparable as sets once their elements occur in a consistent word. *)
Lemma NewWord_sublist l1 l2 :
  NoDup l1 → l1 ⊆ l2 → consistent (λ x, x ∈ l2) →
  sublist (SetTrie.NewWord Less l1) (SetTrie.NewWord Less l2).
Proof.
  intros Hnd Hsub Hl2. apply (sorted_incl_sublist (λ x y, Less y x = false)).
  - apply NewWord_sorted. intros x y Hx Hy. apply Hl2; auto.
  - by apply NewWord_sorted.
  - unfold SetTrie.NewWord. by rewrite sort_slice_perm.
  - unfold SetTrie.NewWord. intros x. rewrite !sort_slice_perm. apply Hsub.
  - unfold SetTrie.NewWord. intros x y. rewrite !sort_slice_perm. intros Hx Hy H1 H2.
    by apply (Less_false_antisym (λ x, x ∈ l2)).
Qed.

(** *** The word of a label set *)
Definition set_items (labels : gmap string string) : list Matchable :=
  CreateSet labels ≫= λ pair, [KeyOf (Key pair); PairOf (Key pair) (Value pair)].

Lemma CollectSlice_ForSet labels : Iter.CollectSlice (ForSet (CreateSet labels)) = Ret (set_items labels).
Proof.
  apply visits_CollectSlice, pushes_visits. unfold ForSet, set_items.
  by apply pushes_FlatMap.
Qed.

Lemma elem_of_set_items labels x :
  x ∈ set_items labels ↔
    ∃ v, labels !! key x = Some v ∧ x = if exists_ x then KeyOf (key x) else PairOf (key x) v.
Proof.
  unfold set_items. rewrite list_elem_of_bind. split.
  - intros (p & Hx & Hp%elem_of_CreateSet).
    apply elem_of_cons in Hx as [->|Hx%list_elem_of_singleton]; [|subst]; simpl; eauto.
  - intros (v & Hv & Hx). exists {| Key := key x; Value := v |}. simpl.
    rewrite elem_of_CreateSet. split; [|done]. destruct (exists_ x); set_solver.
Qed.

Lemma set_items_consistent labels : consistent (λ x, x ∈ set_items labels).
Proof.
  intros x y (v & Hv & Hx)%elem_of_set_items (v' & Hv' & Hy)%elem_of_set_items Hk He.
  rewrite Hx, Hy, He, Hk. rewrite Hk in Hv. by simplify_eq.
Qed.

(** *** The words of a selector *)
Definition key_items (rs : list KeyExistReqmt) : list Matchable := KeyOf ∘ existKey <$> rs.

Fixpoint words_in (rs : list KeyInReqmt) (base : list Matchable) : list (list Matchable) :=
  match rs with
  | [] => [SetTrie.NewWord Less base]
  | r :: rs => inValues r ≫= λ v, words_in rs (base ++ [PairOf (inKey r) v])
  end.

Definition words (sel : Selector) : list (list Matchable) :=
  words_in (KeyIn sel) (key_items (KeyExist sel)).

Lemma pushes_recurseKeyIn rs base : pushes (recurseKeyIn rs base) (words_in rs base).
Proof.
  revert base. induction rs as [|r rs IH]; intros base S y s; simpl.
  { by destruct (y _ s) as [[s' []]|]. }
  revert s. induction (inValues r) as [|v vs IHv]; intros s; [done|].
  rewrite bind_cons, FromSlice_app, IH. simpl.
  destruct (Iter.FromSlice _ S y s) as [[s' []]|]; simpl; [apply IHv|done|done].
Qed.

Lemma pushes_WordsForSelector sel : pushes (WordsForSelector sel) (words sel).
Proof.
  unfold WordsForSelector, words.
  assert (∀ base, pushes (recurseMatchableWordsForSelector (KeyExist sel) (KeyIn sel) base)
    (words_in (KeyIn sel) (base ++ key_items (KeyExist sel)))) as Hall; [|apply (Hall [])].
  induction (KeyExist sel) as [|r rs IH]; intros base; simpl.
  - rewrite app_nil_r. apply pushes_recurseKeyIn.
  - replace (base ++ KeyOf (existKey r) :: key_items rs)
      with ((base ++ [KeyOf (existKey r)]) ++ key_items rs) by by rewrite <- app_assoc.
    apply IH.
Qed.

Definition pair_items (rs : list KeyInReqmt) (vs : list string) : list Matchable :=
  zip_with (λ r v, PairOf (inKey r) v) rs vs.

Lemma elem_of_words_in rs base w :
  w ∈ words_in rs base ↔
    ∃ vs, Forall2 (λ r v, v ∈ inValues r) rs vs ∧ w = SetTrie.NewWord Less (base ++ pair_items rs vs).
Proof.
  revert base. induction rs as [|r rs IH]; intros base; simpl.
  - rewrite list_elem_of_singleton. split.
    + intros ->. exists []. by rewrite app_nil_r.
    + intros (vs & Hvs & ->). by rewrite app_nil_r.
  - rewrite list_elem_of_bind. setoid_rewrite IH. split.
    + intros (v & (vs & Hvs & ->) & Hv). exists (v :: vs). rewrite <- app_assoc. by constructor; [constructor|].
    + intros (vs & Hvs & ->). inversion Hvs as [|? v ? vs' Hv Hvs']; subst.
      exists v. split; [|done]. exists vs'. by rewrite <- app_assoc.
Qed.

(** The positive requirements of a selector have distinct keys and distinct values. *)
Definition distinct_positive (sel : Selector) : Prop :=
  NoDup (inKey <$> KeyIn sel) ∧ NoDup (existKey <$> KeyExist sel) ∧
  ∀ r, r ∈ KeyIn sel → NoDup (inValues r).

Lemma elem_of_pair_items rs vs x :
  x ∈ pair_items rs vs → exists_ x = false ∧ key x ∈ inKey <$> rs.
Proof.
  revert vs. induction rs as [|r rs IH]; intros [|v vs]; simpl; [set_solver..|].
  intros [->|Hx]%elem_of_cons; simpl; [split; [done|set_solver]|].
  destruct (IH vs Hx). split; [done|set_solver].
Qed.

Lemma NoDup_words_in rs base :
  NoDup (inKey <$> rs) → (∀ r, r ∈ rs → NoDup (inValues r)) →
  (∀ x, x ∈ base → exists_ x = false → key x ∉ inKey <$> rs) →
  NoDup (words_in rs base).
Proof.
  revert base. induction rs as [|r rs IH]; intros base Hk Hv Hb; simpl; [apply NoDup_singleton|].
  rewrite fmap_cons, NoDup_cons in Hk. destruct Hk as [Hkr Hk].
  assert (Hother : ∀ v v' vs, PairOf (inKey r) v ∈ (base ++ [PairOf (inKey r) v']) ++ pair_items rs vs → v = v').
  { intros v v' vs. rewrite !elem_of_app, list_elem_of_singleton. intros [[Hx|[= ->]]|Hx]; [|done|].
    - specialize (Hb _ Hx eq_refl). set_solver.
    - by apply elem_of_pair_items in Hx as [_ Hx]. }
  assert (Hvr : NoDup (inValues r)) by (apply Hv; left).
  induction Hvr as [|v vs Hvs Hnd IHv]; [apply NoDup_nil_2|]. rewrite bind_cons.
  apply NoDup_app. split; [|split; [|done]].
  - apply IH; [done|set_solver|]. intros x. rewrite elem_of_app, list_elem_of_singleton.
    intros [Hx| ->] He; [|done]. specialize (Hb x Hx He). set_solver.
  - intros w (vs1 & _ & Hw)%elem_of_words_in (v' & Hw2 & Hv')%list_elem_of_bind.
    apply elem_of_words_in in Hw2 as (vs2 & _ & Hw2).
    assert (v = v') as ->; [|done]. apply (Hother v v' vs2).
    rewrite Hw in Hw2. unfold SetTrie.NewWord in Hw2.
    rewrite <- (sort_slice_perm _ Less), <- Hw2, sort_slice_perm. set_solver.
Qed.

Lemma NoDup_words sel : distinct_positive sel → NoDup (words sel).
Proof.
  intros (Hk & _ & Hv). apply NoDup_words_in; [done|done|].
  intros x Hx. unfold key_items in Hx. apply list_elem_of_fmap in Hx as (r & -> & _). done.
Qed.

Lemma NoDup_items rs1 rs2 vs :
  NoDup (existKey <$> rs1) → NoDup (inKey <$> rs2) → NoDup (key_items rs1 ++ pair_items rs2 vs).
Proof.
  intros H1 H2. apply NoDup_app. split; [|split].
  - unfold key_items. apply (NoDup_fmap_1 key). rewrite <- list_fmap_compose. done.
  - intros x (r & -> & _)%list_elem_of_fmap [? _]%elem_of_pair_items. done.
  - revert vs H2. induction rs2 as [|r rs2 IH]; intros [|v vs]; simpl;
      rewrite ?NoDup_cons; try (intros; apply NoDup_nil_2).
    intros [Hr Hnd]. split; [|by apply IH]. intros [_ Hx]%elem_of_pair_items. done.
Qed.

(** A label set that passes the positive tests of a selector contains one of its words. *)
Lemma words_complete sel labels :
  distinct_positive sel →
  (∀ r, r ∈ KeyIn sel → in_test labels r = true) →
  (∀ r, r ∈ KeyExist sel → exist_test labels r = true) →
  ∃ w, w ∈ words sel ∧ sublist w (SetTrie.NewWord Less (set_items labels)).
Proof.
  intros (Hk & He & Hv) Hin Hex.
  set (vs := (λ r, default "" (labels !! inKey r)) <$> KeyIn sel).
  exists (SetTrie.NewWord Less (key_items (KeyExist sel) ++ pair_items (KeyIn sel) vs)). split.
  - apply elem_of_words_in. exists vs. split; [|done]. subst vs.
    apply Forall2_fmap_r, Forall_Forall2_diag, Forall_forall. intros r Hr.
    apply Hin, in_test_spec in Hr as (v & Hl & ?). simpl. by rewrite Hl.
  - apply NewWord_sublist; [by apply NoDup_items| |apply set_items_consistent].
    intros x. rewrite elem_of_app, elem_of_set_items. intros [Hx|Hx].
    + apply list_elem_of_fmap in Hx as (r & -> & Hr). apply Hex in Hr.
      unfold exist_test, lookup_pair in Hr. simpl.
      destruct (labels !! existKey r) as [v|]; [|done]. exists v. done.
    + subst vs. unfold pair_items in Hx. rewrite zip_with_fmap_r, zip_with_diag in Hx.
      apply list_elem_of_fmap in Hx as (r & -> & Hr). simpl.
      apply Hin, in_test_spec in Hr as (v & Hl & _). exists v.
      by rewrite Hl.
Qed.

End words_lemmas.

(** ** Properties *)

(** A subset query offers, in an order and up to the first [Break], exactly the stored
    words that are sublists of the query word, with their data, and no word twice when
    the query word has no duplicates. *)
Theorem Subsets_correct {Alpha Data} `{Countable Alpha} (trie : SetTrie.SetTrie Alpha Data)
    (word : SetTrie.Word Alpha) :
  ∃ found, pushes (SetTrie.Subsets trie word) found ∧
    (∀ w d, (w, d) ∈ found ↔ sublist w word ∧ SetTrie.Get trie w = Some d) ∧
    (NoDup word → NoDup found.*1).
Proof.
  exists (subsets_list trie word).
  split; [apply pushes_Subsets|split; [intros; apply elem_of_subsets_list|apply NoDup_subsets_list]].
Qed.

(** Inserting an entry that is not there and removing it restores the trie node for
    node: no garbage node and no empty map stays behind. *)
Theorem Insert_Remove_restores {Alpha Subkey Data} `{Countable Alpha, Countable Subkey}
    (m : Multi.Multi Alpha Subkey Data) (w : SetTrie.Word Alpha) (k : Subkey) (d : Data) :
  multi_wf m → multi_get m w !! k = None →
  Multi.trie (Multi.Remove (Multi.Insert m w k d).1 w k).1 = Multi.trie m ∧
  (Multi.Insert m w k d).2 = false ∧ (Multi.Remove (Multi.Insert m w k d).1 w k).2 = true.
Proof.
  intros Hwf Hk. destruct (multi_Insert m w k d Hwf) as (Hwf' & Hout & Hget).
  destruct (Insert_shape m w k d (wf_clean _ Hwf)) as (_ & _ & Hsh).
  destruct (Remove_shape (Multi.Insert m w k d).1 w k (wf_clean _ Hwf')) as (Hcl & Hout' & Hsh').
  rewrite Hout, Hout', Hget, decide_True, lookup_insert_eq, Hk by done.
  split; [|done]. apply clean_ext; [done|apply (wf_clean _ Hwf)|]. intros w'.
  rewrite Hget, decide_True, delete_insert_id in Hsh' by done.
  unfold SetTrie.Get in *. destruct (SetTrie.getWordInNode (Multi.trie m) w) as [l|] eqn:Hw.
  - destruct Hsh as [Hg _]. rewrite Hg, Hw in Hsh'. destruct Hsh' as [Hg' _].
    rewrite Hg', Hg. case_decide as Hd; [|done]. subst.
    destruct (wf_alloc _ Hwf w l Hw) as (mp & Hmp & Hne).
    unfold multi_get, SetTrie.Get. rewrite Hw, Hmp. simpl.
    destruct (Nat.eqb_spec (size mp) 0) as [Hsz|]; [by apply map_size_empty_iff in Hsz|done].
  - destruct Hsh as [Hg _]. rewrite Hg, decide_True in Hsh' by done. destruct Hsh' as [Hg' _].
    assert (multi_get m w = ∅) as Hemp by (unfold multi_get, SetTrie.Get; by rewrite Hw).
    rewrite Hg', Hg, Hemp. case_decide as Hd; subst; simpl; [by rewrite Hw|done].
Qed.

Lemma Insert_Remove_restores_witness :
  Multi.trie (Multi.Remove (Multi.Insert (Multi.NewMulti : Multi.Multi nat string unit)
    [1; 2] "a" tt).1 [1; 2] "a").1 = SetTrie.New.
Proof.
  apply (Insert_Remove_restores (Multi.NewMulti : Multi.Multi nat string unit) [1; 2] "a" tt).
  - apply multi_wf_new.
  - reflexivity.
Defined.

(** [CreateOrUpdate] of a word that is stored runs [updateNode] on a copy of its data:
    whatever the update writes through the pointer, the trie is unchanged. *)
Theorem CreateOrUpdate_loses_update {Alpha Data H'} `{Countable Alpha}
    (trie : SetTrie.SetTrie Alpha Data) (word : SetTrie.Word Alpha) (initNode : H' → Data * H')
    (updateNode : Optional.cell Data → H' → Optional.cell Data * H') (d : Data) (h : H') :
  clean trie → SetTrie.Get trie word = Some d →
  (SetTrie.CreateOrUpdate trie word initNode updateNode h).1 = trie.
Proof.
  intros Hcl Hd. unfold SetTrie.CreateOrUpdate. apply clean_ext; [by apply cursor_clean|done|].
  intros w. rewrite cursor_get. unfold SetTrie.Get in Hd. rewrite Hd. simpl.
  destruct (updateNode _ h). simpl. by case_decide; subst.
Qed.

Lemma CreateOrUpdate_loses_update_witness :
  let trie := (SetTrie.CreateOrUpdate SetTrie.New ["x"] (λ h, (0%Z, h)) (λ c h, (c, h)) tt).1 in
  (SetTrie.CreateOrUpdate trie ["x"] (λ h, (0%Z, h))
    (λ c h, ({| Optional.pointee := (Optional.pointee c + 1)%Z |}, h)) tt).1 = trie.
Proof.
  apply (CreateOrUpdate_loses_update _ _ _ _ 0%Z).
  - apply cursor_clean, clean_newNode.
  - reflexivity.
Defined.

(** A superset query is documented to offer the stored words that contain the query word. It offers one entry for each of
    them, with its data, but under the shortest part of the word that has the letters of the query: letters after the last
    of them are lost, so that words that differ there only are offered under one name. *)
Theorem Supersets_truncates `{!GoRuntime} {Alpha Data} `{Countable Alpha} (Less : Alpha → Alpha → bool)
    (trie : SetTrie.SetTrie Alpha Data) (word : SetTrie.Word Alpha) :
  StrictOrder (λ x y, Less x y = true) →
  (∀ w d, SetTrie.Get trie w = Some d → StronglySorted (λ x y, Less x y = true) w) →
  ∃ stored found, pushes (SetTrie.Supersets Less trie word) found ∧
    (∀ w d, (w, d) ∈ stored ↔ sublist word w ∧ SetTrie.Get trie w = Some d) ∧ NoDup stored.*1 ∧
    Forall2 (λ '(w, d) '(p, d'), d' = d ∧ shortest_cover word w p) stored found.
Proof.
  intros HL Hsorted. set (l := sups Less (S (SetTrie.depth trie)) trie word).
  assert (Hl : ∀ w p d, (w, p, d) ∈ l ↔ SetTrie.Get trie w = Some d ∧ cover Less word w = Some p) by (intros; apply elem_of_sups; lia).
  exists ((λ '(w, p, d), (w, d)) <$> l), (reported [] <$> l). split; [apply pushes_supersetsInNode; lia|split; [|split]].
  - intros w d. rewrite list_elem_of_fmap. split.
    + intros ([[w' p] d'] & [= -> ->] & [Hg Hc]%Hl). assert (Hco := cover_correct Less w' HL (Hsorted _ _ Hg) word).
      rewrite Hc in Hco. destruct Hco as ([k ->] & Hs & _). split; [|done]. by apply sublist_inserts_r.
    + intros [Hs Hg]. assert (Hco := cover_correct Less w HL (Hsorted _ _ Hg) word).
      destruct (cover Less word w) as [p|] eqn:Hc; [|done]. exists (w, p, d). by rewrite Hl.
  - rewrite <- list_fmap_compose. rewrite (list_fmap_ext _ (fst ∘ fst)); [|by intros _ [[w p] d] _].
    rewrite list_fmap_compose. apply NoDup_sups.
  - apply Forall2_fmap, Forall_Forall2_diag, Forall_forall. intros [[w p] d] [Hg Hc]%Hl. split; [done|].
    assert (Hco := cover_correct Less w HL (Hsorted _ _ Hg) word). by rewrite Hc in Hco.
Qed.

(** Three words, two of them offered as one. *)
Lemma Supersets_truncates_witness :
  let add w d t := (SetTrie.CreateOrUpdate t w (λ h, (d, h)) (λ c h, (c, h)) tt).1 in
  let trie : SetTrie.SetTrie nat string := add [1; 2] "a" (add [1; 2; 3] "b" (add [3] "c" SetTrie.New)) in
  Iter.CollectSlice (SetTrie.Supersets Nat.ltb trie [2]) = Ret [([1; 2], "a"); ([1; 2], "b")] ∧
  ∃ stored found, pushes (SetTrie.Supersets Nat.ltb trie [2]) found ∧ NoDup stored.*1 ∧
    Forall2 (λ '(w, d) '(p, d'), d' = d ∧ shortest_cover [2] w p) stored found.
Proof.
  intros add trie. split; [vm_compute; reflexivity|].
  destruct (Supersets_truncates Nat.ltb trie [2]) as (stored & found & Hp & _ & Hnd & Hf).
  - split; [intros x; unfold complement; rewrite Nat.ltb_irrefl; discriminate|]. intros x y z. rewrite !Nat.ltb_lt. lia.
  - intros w d Hw. unfold SetTrie.Get, trie, add, SetTrie.CreateOrUpdate in Hw. rewrite !cursor_get in Hw.
    unfold SetTrie.New in Hw. rewrite !get_newNode in Hw. cbn in Hw.
    repeat case_decide; subst; try discriminate; repeat constructor.
  - exists stored, found. auto.
Defined.
