(* ===== verification/LabelIndex.v ===== *)
(** * LabelIndex: the label indexes of util/labelindex

    [Module LabelIndex] holds the interface (interface.go) as the class [Index] and the
    contract that its comments and its clients rely on as the class [IndexSpec].
    [Module Sets] is sets.go, [Module Selectors] is selectors.go, [Module Namespaced] is
    namespaced.go and [Module Locked] is locked.go; the last two are generic in an index
    and inherit its contract. An iterator that a query returns reads the index at the
    time of the query: a caller that changes the index before it runs the iterator is
    what [Locked] excludes. *)

From S2P Require Import Prelude Util Errors Iter Canonical SetTrie.

(** ** interface.go *)
Module LabelIndex.

Record ErrAdapter (Err : Type) := { IsErr : Err → bool; Nil : Err }.
Arguments IsErr {Err} _ _.
Arguments Nil {Err} _.

Definition EmptyErrAdapter : ErrAdapter unit := {| IsErr _ := false; Nil := tt |}.
Definition ErrorErrAdapter : ErrAdapter (option error) :=
  {| IsErr err := Optional.IsSome err; Nil := None |}.

(** A nil iterator is [None]. *)
Class Index (I Name Tracked Query TrackErr QueryErr : Type) := {
  Track : I → Name → Tracked → outcome (I * TrackErr);
  Untrack : I → Name → outcome (I * bool);
  Query : I → Query → outcome (option (Iter.Iter Name) * QueryErr)
}.

(** The contract: an index represents a finite map; queries return each name whose item
    answers the query once; a query that is not valid gives an error and no iterator, or no name. [admissible] and [query_ok] are
    the inputs that the index accepts. *)
Class IndexSpec {I Name Tracked Q TrackErr QueryErr : Type} `{Countable Name}
    (index : Index I Name Tracked Q TrackErr QueryErr)
    (trackAdapter : ErrAdapter TrackErr) (queryAdapter : ErrAdapter QueryErr) := {
  represents : I → gmap Name Tracked → Prop;
  admissible : Tracked → Prop;
  answers : Q → Name → Tracked → Prop;
  query_ok : Q → Prop;
  Track_spec i m name item :
    represents i m → admissible item →
    ∃ i' e, Track i name item = Ret (i', e) ∧ IsErr trackAdapter e = false ∧
      represents i' (<[name := item]> m);
  Untrack_spec i m name :
    represents i m →
    ∃ i', Untrack i name = Ret (i', Optional.IsSome (m !! name)) ∧ represents i' (delete name m);
  Query_spec i m q :
    represents i m → query_ok q →
    ∃ it e found, Query i q = Ret (Some it, e) ∧ IsErr queryAdapter e = false ∧
      (pushes it found ∨ drains it found) ∧ NoDup found ∧
      ∀ name, name ∈ found ↔ ∃ item, m !! name = Some item ∧ answers q name item;
  Query_err i m q :
    represents i m → ¬ query_ok q →
    ∃ it e, Query i q = Ret (it, e) ∧
      match it with
      | None => IsErr queryAdapter e = true
      | Some it => IsErr queryAdapter e = false ∧ pushes it []
      end
}.

End LabelIndex.

(** ** sets.go *)
Module Sets.

Section sets.
Context `{!GoRuntime} {Name : Type} `{Countable Name}.

Record Sets : Type := {
  knownSets : gmap Name Canonical.LabelSet;
  kvIndex : gmap Canonical.KvPair (gset Name);
  keyIndex : gmap string (gset Name)
}.

Definition NewSets : Sets := {| knownSets := ∅; kvIndex := ∅; keyIndex := ∅ |}.

Definition doTrack (indexer : Sets) (name : Name) (rawSet : gmap string string) : outcome Sets :=
  let '(knownSets, (set_, existed)) := Canonical.SetStore_Insert (knownSets indexer) name rawSet in
  if existed : bool then Panic "doTrack must not be called before untracking"
  else
    let '(kvIndex, keyIndex) := foldl (λ '(kvIndex, keyIndex) pair,
        ((MultiMap.Insert kvIndex pair name).1,
         (MultiMap.Insert keyIndex (Canonical.Key pair) name).1))
      (kvIndex indexer, keyIndex indexer) set_ in
    Ret {| knownSets := knownSets; kvIndex := kvIndex; keyIndex := keyIndex |}.

Definition untrackPair (name : Name)
    (indexes : gmap Canonical.KvPair (gset Name) * gmap string (gset Name))
    (pair : Canonical.KvPair) :
    outcome (gmap Canonical.KvPair (gset Name) * gmap string (gset Name)) :=
  let '(kvIndex, keyIndex) := indexes in
  let '(kvIndex, kvExisted) := MultiMap.Remove kvIndex pair name in
  if negb kvExisted then Panic "label index is inconsistent, missing from kvIndex"
  else
    let '(keyIndex, keyExisted) := MultiMap.Remove keyIndex (Canonical.Key pair) name in
    if negb keyExisted then Panic "label index is inconsistent, missing from keyIndex"
    else Ret (kvIndex, keyIndex).

Definition doUntrack (indexer : Sets) (name : Name) : outcome (Sets * bool) :=
  let '(knownSets, (set_, existed)) := Canonical.SetStore_Remove (knownSets indexer) name in
  if negb existed then Ret (indexer, false)
  else
    '(kvIndex, keyIndex) ← outcome_foldl (untrackPair name) (kvIndex indexer, keyIndex indexer) set_;
    Ret ({| knownSets := knownSets; kvIndex := kvIndex; keyIndex := keyIndex |}, true).

Definition Track (indexer : Sets) (name : Name) (set_ : gmap string string) : outcome (Sets * unit) :=
  '(indexer, _) ← doUntrack indexer name;
  indexer ← doTrack indexer name set_;
  Ret (indexer, tt).

Definition Untrack (indexer : Sets) (name : Name) : outcome (Sets * bool) := doUntrack indexer name.

(** The implementations of the interface [queryIndex]. *)
Inductive queryIndex : Type :=
| queryIndexAll
| queryIndexKeyExist (reqmt : Canonical.KeyExistReqmt)
| queryIndexKeyValues (reqmt : Canonical.KeyInReqmt).

(** A missing key of a Go map reads as a nil set. *)
Definition indices (reqmt : Canonical.KeyInReqmt) (indexer : Sets) : Iter.Iter (gset Name) :=
  Iter.Map (Iter.FromSlice (Canonical.inValues reqmt)) (λ value,
    default ∅ (kvIndex indexer !!
      {| Canonical.Key := Canonical.inKey reqmt; Canonical.Value := value |})).

Definition Cardinality (index : queryIndex) (indexer : Sets) : outcome Z :=
  match index with
  | queryIndexAll => Ret (Canonical.SetStore_Len (knownSets indexer))
  | queryIndexKeyExist reqmt =>
      Ret (Z.of_nat (size (default ∅ (keyIndex indexer !! Canonical.existKey reqmt))))
  | queryIndexKeyValues reqmt =>
      Iter.Sum (Iter.Map (indices reqmt indexer) (λ set_, Z.of_nat (size set_)))
  end.

Definition IndexIter (index : queryIndex) (indexer : Sets) : Iter.Iter Name :=
  match index with
  | queryIndexAll => Iter.Map (Canonical.SetStore_Iter (knownSets indexer)) fst
  | queryIndexKeyExist reqmt =>
      Iter.FromSet (default ∅ (keyIndex indexer !! Canonical.existKey reqmt))
  | queryIndexKeyValues reqmt => Iter.FlatMap (indices reqmt indexer) Iter.FromSet
  end.

Definition replaceBetterIndex (subj : Sets) (best next : queryIndex) : outcome queryIndex :=
  bestCardinality ← Cardinality best subj;
  nextCardinality ← Cardinality next subj;
  Ret (if (nextCardinality <? bestCardinality)%Z then next else best).

Definition Query (indexer : Sets) (rawSelector : LabelSelector) :
    outcome (option (Iter.Iter Name) * option error) :=
  let '(selector, err) := Canonical.CreateSelector rawSelector in
  match err with
  | Some err => Ret (None, Some (TagWrapf "CanonicalizeSelector" (Some err) "canonicalize label selector"))
  | None =>
      bestIndexer ← outcome_foldl (λ best reqmt,
          replaceBetterIndex indexer best (queryIndexKeyExist reqmt))
        queryIndexAll (Canonical.KeyExist selector);
      bestIndexer ← outcome_foldl (λ best reqmt,
          replaceBetterIndex indexer best (queryIndexKeyValues reqmt))
        bestIndexer (Canonical.KeyIn selector);
      Ret (Some (Iter.Deduplicate (Iter.FilterM (IndexIter bestIndexer indexer) (λ name,
        set_ ← Optional.MustGet (Canonical.SetStore_Get (knownSets indexer) name)
          "indexed name does not exist in set store";
        Canonical.Matches selector set_))), None)
  end.

End sets.
Arguments Sets Name {_ _}.

End Sets.

(** ** selectors.go *)
Module Selectors.

Section selectors.
Context `{!GoRuntime} {Name : Type} `{Countable Name}.

Record Selectors : Type := {
  knownSelectors : gmap Name Canonical.Selector;
  trie : Multi.Multi Matchable.Matchable Name unit
}.

Definition NewSelectors : Selectors := {| knownSelectors := ∅; trie := Multi.NewMulti |}.

Definition doTrackSelector (indexer : Selectors) (name : Name) (rawSelector : LabelSelector) :
    outcome (Selectors * option error) :=
  let '(knownSelectors, result, err) :=
    Canonical.SelectorStore_Insert (knownSelectors indexer) name rawSelector in
  match err with
  | Some err =>
      Ret ({| knownSelectors := knownSelectors; trie := trie indexer |},
        Some (TagWrapf "CanonicalizeSelector" (Some err) "canonicalize label selector"))
  | None =>
      if Canonical.ExistedBefore result then Panic "doTrack must not be called before untracking"
      else
        '(trie, _) ← Matchable.WordsForSelector (Canonical.irSelector result) _
          (λ word trie,
            let '(trie, existed) := Multi.Insert trie word name tt in
            if existed : bool then Panic "inconsistent index contains untracked name"
            else Ret (trie, Iter.Continue)) (trie indexer);
        Ret ({| knownSelectors := knownSelectors; trie := trie |}, None)
  end.

Definition doUntrackSelector (indexer : Selectors) (name : Name) : outcome (Selectors * bool) :=
  let '(knownSelectors, removed) := Canonical.SelectorStore_Remove (knownSelectors indexer) name in
  let '(selector, hasSelector) := Optional.Get removed in
  if negb hasSelector then Ret (indexer, false)
  else
    '(trie, _) ← Matchable.WordsForSelector selector _
      (λ word trie,
        let '(trie, existed) := Multi.Remove trie word name in
        if negb existed then
          Panic "inconsistent index does not contain tracked name corresponding to generated matchable word"
        else Ret (trie, Iter.Continue)) (trie indexer);
    Ret ({| knownSelectors := knownSelectors; trie := trie |}, true).

Definition Track (indexer : Selectors) (name : Name) (rawSelector : LabelSelector) :
    outcome (Selectors * option error) :=
  '(indexer, _) ← doUntrackSelector indexer name;
  '(indexer, err) ← doTrackSelector indexer name rawSelector;
  match err with
  | Some err => Ret (indexer, Some err)
  | None => Ret (indexer, None)
  end.

Definition Untrack (indexer : Selectors) (name : Name) : outcome (Selectors * bool) :=
  doUntrackSelector indexer name.

Definition doQuerySelector (indexer : Selectors) (labelSet : Canonical.LabelSet) :
    outcome (Iter.Iter Name) :=
  items ← Iter.CollectSlice (Matchable.ForSet labelSet);
  Ret (Iter.Deduplicate
    (Iter.FilterM
      (Iter.Map (Multi.Subsets (trie indexer) (SetTrie.NewWord Matchable.Less items)) fst)
      (λ name,
        selector ← Optional.MustGet (Canonical.SelectorStore_Get (knownSelectors indexer) name)
          "indexed name does not exist in selector store";
        Canonical.Matches selector labelSet))).

Definition Query (indexer : Selectors) (rawSet : gmap string string) :
    outcome (option (Iter.Iter Name) * unit) :=
  let set_ := Canonical.CreateSet rawSet in
  it ← doQuerySelector indexer set_;
  Ret (Some it, tt).

End selectors.
Arguments Selectors Name {_ _}.

End Selectors.

(** ** The index of label sets *)
Section sets_lemmas.
Import Canonical Sets.
Context `{!GoRuntime} {Name : Type} `{Countable Name}.
Implicit Types (st : Sets Name) (m : gmap Name (gmap string string)).
#[local] Arguments MultiMap.Insert : simpl never.
#[local] Arguments MultiMap.Remove : simpl never.

(** A [Sets] represents [m]: the store holds the canonical sets, the two indexes hold
    exactly the pairs and the keys of each name. *)
Definition has_pair m (p : KvPair) (n : Name) : Prop :=
  ∃ x, m !! n = Some x ∧ x !! Key p = Some (Value p).
Definition has_key m (k : string) (n : Name) : Prop :=
  ∃ x, m !! n = Some x ∧ is_Some (x !! k).

Record sets_repr st m : Prop := {
  sets_known : knownSets st = CreateSet <$> m;
  sets_kv : ∀ p n, n ∈ mm_set (kvIndex st) p ↔ has_pair m p n;
  sets_key : ∀ k n, n ∈ mm_set (keyIndex st) k ↔ has_key m k n
}.

Lemma sets_repr_new : sets_repr NewSets ∅.
Proof.
  split; simpl; [done| |]; intros; unfold mm_set; rewrite lookup_empty; simpl;
    (split; [set_solver|]); intros (x & Hx & _); by rewrite lookup_empty in Hx.
Qed.

Lemma track_loop name l (kv : gmap KvPair (gset Name)) (ki : gmap string (gset Name)) :
  let r := foldl (λ '(kv, ki) pair,
    ((MultiMap.Insert kv pair name).1, (MultiMap.Insert ki (Key pair) name).1)) (kv, ki) l in
  (∀ p n, n ∈ mm_set r.1 p ↔ (p ∈ l ∧ n = name) ∨ n ∈ mm_set kv p) ∧
  (∀ k n, n ∈ mm_set r.2 k ↔ (k ∈ Key <$> l ∧ n = name) ∨ n ∈ mm_set ki k).
Proof.
  revert kv ki. induction l as [|p l IH]; intros kv ki; simpl; [set_solver|].
  destruct (IH (MultiMap.Insert kv p name).1 (MultiMap.Insert ki (Key p) name).1) as [IH1 IH2].
  split; intros; [rewrite IH1|rewrite IH2]; rewrite mm_Insert; case_decide; set_solver.
Qed.

Lemma untrack_loop name l (kv : gmap KvPair (gset Name)) (ki : gmap string (gset Name)) :
  NoDup (Key <$> l) →
  (∀ p, p ∈ l → name ∈ mm_set kv p ∧ name ∈ mm_set ki (Key p)) →
  ∃ kv' ki', outcome_foldl (untrackPair name) (kv, ki) l = Ret (kv', ki') ∧
    (∀ p n, n ∈ mm_set kv' p ↔ n ∈ mm_set kv p ∧ ¬ (p ∈ l ∧ n = name)) ∧
    (∀ k n, n ∈ mm_set ki' k ↔ n ∈ mm_set ki k ∧ ¬ (k ∈ Key <$> l ∧ n = name)).
Proof.
  revert kv ki. induction l as [|p l IH]; intros kv ki Hnd Hin; simpl.
  { exists kv, ki. split; [done|]. set_solver. }
  rewrite fmap_cons, NoDup_cons in Hnd. destruct Hnd as [Hp Hnd].
  destruct (Hin p ltac:(left)) as [Hkv Hki].
  pose proof (mm_Remove_existed kv p name) as E1. pose proof (mm_Remove kv p name) as M1.
  pose proof (mm_Remove_existed ki (Key p) name) as E2. pose proof (mm_Remove ki (Key p) name) as M2.
  destruct (MultiMap.Remove kv p name) as [kv1 b1], (MultiMap.Remove ki (Key p) name) as [ki1 b2].
  simpl in *. rewrite bool_decide_eq_true_2 in E1, E2 by done. subst. simpl.
  destruct (IH kv1 ki1 Hnd) as (kv' & ki' & -> & IH1 & IH2).
  { intros q Hq. rewrite M1, M2. destruct (Hin q ltac:(by right)).
    assert (Key q ∈ Key <$> l) by (apply list_elem_of_fmap; eauto).
    rewrite !decide_False by congruence. done. }
  exists kv', ki'. split; [done|]. split; intros; [rewrite IH1, M1|rewrite IH2, M2]; case_decide; set_solver.
Qed.

Lemma CreateSet_keys_elem raw k : k ∈ Key <$> CreateSet raw ↔ is_Some (raw !! k).
Proof.
  rewrite list_elem_of_fmap. split.
  - intros (p & -> & Hp%elem_of_CreateSet). by exists (Value p).
  - intros [v Hv]. exists {| Key := k; Value := v |}. by rewrite elem_of_CreateSet.
Qed.

Lemma doUntrack_spec st m name :
  sets_repr st m →
  ∃ st', doUntrack st name = Ret (st', Optional.IsSome (m !! name)) ∧ sets_repr st' (delete name m).
Proof.
  intros [Hk Hkv Hki]. unfold doUntrack, SetStore_Remove. rewrite Hk, lookup_fmap.
  destruct (m !! name) as [raw|] eqn:Hm; simpl.
  - destruct (untrack_loop name (CreateSet raw) (kvIndex st) (keyIndex st)) as (kv' & ki' & -> & H1 & H2).
    { apply NoDup_CreateSet_keys. }
    { intros p Hp%elem_of_CreateSet. rewrite Hkv, Hki. split; exists raw; eauto. }
    simpl. eexists; split; [done|]. split; simpl; [by rewrite fmap_delete| |].
    + intros p n. rewrite H1, Hkv, elem_of_CreateSet. unfold has_pair.
      setoid_rewrite lookup_delete_Some. split; [|naive_solver].
      intros [(x & Hx & Hv) Hn]. exists x. split; [|done]. split; [|done]. intros <-. naive_solver.
    + intros k n. rewrite H2, Hki, CreateSet_keys_elem. unfold has_key.
      setoid_rewrite lookup_delete_Some. split; [|naive_solver].
      intros [(x & Hx & Hv) Hn]. exists x. split; [|done]. split; [|done]. intros <-. naive_solver.
  - eexists; split; [done|]. rewrite delete_id by done. by split.
Qed.

Lemma doTrack_spec st m name raw :
  sets_repr st m → m !! name = None →
  ∃ st', doTrack st name raw = Ret st' ∧ sets_repr st' (<[name := raw]> m).
Proof.
  intros [Hk Hkv Hki] Hm. unfold doTrack, SetStore_Insert. rewrite Hk, lookup_fmap, Hm. simpl.
  pose proof (track_loop name (CreateSet raw) (kvIndex st) (keyIndex st)) as Hloop.
  destruct (foldl _ _ _) as [kv' ki']. destruct Hloop as [H1 H2]. simpl in *.
  eexists; split; [done|]. split; simpl; [by rewrite fmap_insert| |].
  - intros p n. rewrite H1, Hkv, elem_of_CreateSet. unfold has_pair.
    setoid_rewrite lookup_insert_Some. split; [|naive_solver].
    intros [[? ->]|(x & ? & ?)]; [by eauto 6|]. exists x. split; [|done]. right.
    split; [congruence|done].
  - intros k n. rewrite H2, Hki, CreateSet_keys_elem. unfold has_key.
    setoid_rewrite lookup_insert_Some. split; [|naive_solver].
    intros [[? ->]|(x & ? & ?)]; [by eauto 6|]. exists x. split; [|done]. right.
    split; [congruence|done].
Qed.

(** *** Queries: every candidate index covers the matching names *)

(** [names] lists known names, and all the names whose set the selector matches. *)
Definition covers m (sel : LabelSelector) (names : list Name) : Prop :=
  ∀ n, (n ∈ names → is_Some (m !! n)) ∧
    (∀ x, m !! n = Some x → selector_selects sel x → n ∈ names).

Definition good_index st m (raw : LabelSelector) (index : queryIndex) : Prop :=
  ∃ names, pushes (IndexIter index st) names ∧ covers m raw names.

Lemma pushes_FromSet `{Countable A} (s : gset A) : pushes (Iter.FromSet s) (set_order s).
Proof. done. Qed.

Lemma good_All st m raw : sets_repr st m → good_index st m raw queryIndexAll.
Proof.
  intros [Hk _ _]. exists (fst <$> map_order (knownSets st)). split.
  { apply pushes_Map. done. }
  intros n. setoid_rewrite list_elem_of_fmap. split.
  - intros ([n' x] & -> & Hx%elem_of_map_order). rewrite Hk, lookup_fmap in Hx. simpl.
    by destruct (m !! n').
  - intros x Hx _. exists (n, CreateSet x). rewrite elem_of_map_order, Hk, lookup_fmap, Hx. done.
Qed.

Lemma selects_canonical raw sel x :
  canonical_of raw sel → valid_selector raw → selector_selects raw x →
  (∀ r, r ∈ KeyIn sel → in_test x r = true) ∧ (∀ r, r ∈ KeyExist sel → exist_test x r = true).
Proof.
  intros Hcan Hval Hsel. destruct (Matches_selects raw sel x Hcan Hval) as (b & Hb & Hiff).
  apply Hiff in Hsel. subst b. rewrite (Matches_eq raw) in Hb by done.
  injection Hb as Hb. rewrite !andb_true_iff, !forallb_id_fmap in Hb. naive_solver.
Qed.

Lemma good_KeyExist st m raw sel r :
  sets_repr st m → canonical_of raw sel → valid_selector raw → r ∈ KeyExist sel →
  good_index st m raw (queryIndexKeyExist r).
Proof.
  intros [_ _ Hki] Hcan Hval Hr. eexists. split; [apply pushes_FromSet|]. intros n.
  fold (mm_set (keyIndex st) (existKey r)). setoid_rewrite elem_of_set_order. setoid_rewrite Hki. split.
  - intros (x & -> & _). eauto.
  - intros x Hx Hsel. exists x. split; [done|].
    destruct (selects_canonical raw sel x Hcan Hval Hsel) as [_ Hex]. specialize (Hex r Hr).
    unfold exist_test, lookup_pair in Hex. by destruct (x !! existKey r).
Qed.

Lemma good_KeyValues st m raw sel r :
  sets_repr st m → canonical_of raw sel → valid_selector raw → r ∈ KeyIn sel →
  good_index st m raw (queryIndexKeyValues r).
Proof.
  intros [_ Hkv _] Hcan Hval Hr. eexists. split.
  { apply (pushes_FlatMap (indices r st) ((λ value, mm_set (kvIndex st) {| Key := inKey r; Value := value |})
      <$> inValues r) _ set_order);
      [apply (pushes_Map _ (inValues r)), FromSlice_pushes|intros; apply pushes_FromSet]. }
  intros n. setoid_rewrite list_elem_of_bind. setoid_rewrite elem_of_set_order. setoid_rewrite list_elem_of_fmap. split.
  - intros (s & Hn & v & -> & Hv). apply Hkv in Hn as (x & -> & _). eauto.
  - intros x Hx Hsel. destruct (selects_canonical raw sel x Hcan Hval Hsel) as [Hin _].
    apply Hin, in_test_spec in Hr as (v & Hv & Hvs).
    eexists. split; [|by exists v]. apply (Hkv {| Key := inKey r; Value := v |}). by exists x.
Qed.

Lemma Cardinality_ret index st : ∃ c, Cardinality index st = Ret c.
Proof.
  destruct index as [| |r]; simpl; eauto. unfold Iter.Sum. eexists.
  apply visits_Fold, pushes_visits, pushes_Map, pushes_Map, FromSlice_pushes.
Qed.

Lemma replaceBetterIndex_ret st best next :
  replaceBetterIndex st best next = Ret best ∨ replaceBetterIndex st best next = Ret next.
Proof.
  unfold replaceBetterIndex. destruct (Cardinality_ret best st) as [c ->], (Cardinality_ret next st) as [d ->].
  simpl. destruct (d <? c)%Z; auto.
Qed.

Lemma best_index_loop {R} st (P : queryIndex → Prop) (mk : R → queryIndex) rs best :
  P best → (∀ r, r ∈ rs → P (mk r)) →
  ∃ best', outcome_foldl (λ best r, replaceBetterIndex st best (mk r)) best rs = Ret best' ∧ P best'.
Proof.
  revert best. induction rs as [|r rs IH]; intros best Hb Hrs; simpl; [eauto|].
  destruct (replaceBetterIndex_ret st best (mk r)) as [-> | ->]; simpl; apply IH; auto;
    try (intros; apply Hrs; by right). apply Hrs. by left.
Qed.

(** The filter of a query over the stored canonical sets. *)
Lemma Query_filter raw sel m (known : gmap Name LabelSet) name x :
  canonical_of raw sel → valid_selector raw → known = CreateSet <$> m → m !! name = Some x →
  ∃ b, (set_ ← Optional.MustGet (SetStore_Get known name) "indexed name does not exist in set store";
    Matches sel set_) = Ret b ∧ (b = true ↔ selector_selects raw x).
Proof.
  intros Hcan Hval -> Hx. unfold SetStore_Get, Optional.GetMap. rewrite lookup_fmap, Hx. simpl.
  by apply Matches_selects.
Qed.

End sets_lemmas.

(** The names of [names] that pass a filter which answers by [P], each once. *)
Lemma filtered_query {Name} `{Countable Name} (it : Iter.Iter Name) names
    (test : Name → outcome bool) (P : Name → Prop) :
  pushes it names →
  (∀ n, n ∈ names → ∃ b, test n = Ret b ∧ (b = true ↔ P n)) →
  ∃ found, drains (Iter.Deduplicate (Iter.FilterM it test)) found ∧ NoDup found ∧
    ∀ n, n ∈ found ↔ n ∈ names ∧ P n.
Proof.
  intros Hit Htest. set (b n := match test n with Ret b => b | Panic _ => false end).
  exists (dedup_from ∅ (filter (λ n, b n = true) names)). split; [|split].
  - apply drains_Deduplicate. right. apply drains_FilterM; [by left|].
    intros n Hn. destruct (Htest n Hn) as (b' & Hb & _). subst b. simpl. by rewrite Hb.
  - apply NoDup_dedup_from.
  - intros n. rewrite elem_of_dedup_from, list_elem_of_filter. split.
    + intros [[Hb Hn] _]. split; [done|]. destruct (Htest n Hn) as (b' & Hb' & Hiff).
      subst b. simpl in Hb. rewrite Hb' in Hb. by apply Hiff.
    + intros [Hn HP]. split; [|set_solver]. split; [|done].
      destruct (Htest n Hn) as (b' & Hb' & Hiff). subst b. simpl. rewrite Hb'. by apply Hiff.
Qed.

Section sets_index.
Context `{!GoRuntime} {Name : Type} `{Countable Name}.

Lemma Sets_Query_spec (st : Sets.Sets Name) m raw :
  sets_repr st m → valid_selector raw →
  ∃ it found, Sets.Query st raw = Ret (Some it, None) ∧ drains it found ∧ NoDup found ∧
    ∀ n, n ∈ found ↔ ∃ x, m !! n = Some x ∧ selector_selects raw x.
Proof.
  intros Hst Hval. destruct (CreateSelector_valid raw Hval) as (sel & Hsel & Hcan).
  unfold Sets.Query. rewrite Hsel.
  destruct (best_index_loop st (good_index st m raw) Sets.queryIndexKeyExist
    (Canonical.KeyExist sel) Sets.queryIndexAll) as (best1 & -> & Hb1).
  { by apply good_All. }
  { intros r Hr. by apply (good_KeyExist st m raw sel). }
  simpl. destruct (best_index_loop st (good_index st m raw) Sets.queryIndexKeyValues
    (Canonical.KeyIn sel) best1) as (best & -> & Hb); [done| |].
  { intros r Hr. by apply (good_KeyValues st m raw sel). }
  simpl. destruct Hb as (names & Hnames & Hcov).
  destruct (filtered_query _ names (λ name,
      set_ ← Optional.MustGet (Canonical.SetStore_Get (Sets.knownSets st) name)
        "indexed name does not exist in set store"; Canonical.Matches sel set_)
    (λ n, ∃ x, m !! n = Some x ∧ selector_selects raw x) Hnames) as (found & Hd & Hnd & Hin).
  { intros n Hn. destruct (proj1 (Hcov n) Hn) as [x Hx].
    destruct (Query_filter raw sel m (Sets.knownSets st) n x) as (b & Hb & Hiff); [done|done|apply Hst|done|].
    exists b. split; [done|]. rewrite Hiff. naive_solver. }
  eexists _, found. split; [done|]. split; [done|]. split; [done|].
  intros n. rewrite Hin. split; [by intros [_ ?]|]. intros (x & Hx & Hs).
  split; [by apply (proj2 (Hcov n) x)|eauto].
Qed.

Lemma Sets_Query_invalid (st : Sets.Sets Name) raw :
  ¬ valid_selector raw → ∃ e, Sets.Query st raw = Ret (None, Some e).
Proof.
  intros Hn. unfold Sets.Query. destruct (CreateSelector_invalid raw Hn) as (sel & err & ->). eauto.
Qed.

Lemma Sets_Track_spec (st : Sets.Sets Name) m name raw :
  sets_repr st m →
  ∃ st', Sets.Track st name raw = Ret (st', tt) ∧ sets_repr st' (<[name := raw]> m).
Proof.
  intros Hst. unfold Sets.Track. destruct (doUntrack_spec st m name Hst) as (st1 & -> & H1). simpl.
  destruct (doTrack_spec st1 (delete name m) name raw) as (st2 & -> & H2); [done|apply lookup_delete_eq|].
  simpl. exists st2. split; [done|]. by rewrite insert_delete_eq in H2.
Qed.

#[export] Instance Sets_Index :
    LabelIndex.Index (Sets.Sets Name) Name (gmap string string) LabelSelector unit (option error) := {|
  LabelIndex.Track := Sets.Track;
  LabelIndex.Untrack := Sets.Untrack;
  LabelIndex.Query := Sets.Query
|}.

#[export] Program Instance Sets_IndexSpec :
    LabelIndex.IndexSpec Sets_Index LabelIndex.EmptyErrAdapter LabelIndex.ErrorErrAdapter := {|
  LabelIndex.represents := sets_repr;
  LabelIndex.admissible _ := True;
  LabelIndex.answers raw _ x := selector_selects raw x;
  LabelIndex.query_ok := valid_selector
|}.
Next Obligation.
  intros st m name raw Hst _. destruct (Sets_Track_spec st m name raw Hst) as (st' & ? & ?).
  by exists st', tt.
Qed.
Next Obligation. intros st m name Hst. apply (doUntrack_spec st m name Hst). Qed.
Next Obligation.
  intros st m q Hst Hq. destruct (Sets_Query_spec st m q Hst Hq) as (it & found & ? & ? & ? & ?).
  exists it, None, found. auto 10.
Qed.
Next Obligation.
  intros st m q _ Hq. destruct (Sets_Query_invalid st q Hq) as [e ?]. by exists None, (Some e).
Qed.

End sets_index.

(** ** The index of selectors *)
Section selectors_lemmas.
Import Canonical Selectors.
Context `{!GoRuntime} {Name : Type} `{Countable Name}.
Implicit Types (st : Selectors Name) (m : gmap Name LabelSelector) (raw : LabelSelector).

(** A selector that states each positive requirement once: no two requirements on the
    values of a key, no two [Exists] on a key, no value twice. *)
Definition distinct_requirements raw : Prop :=
  NoDup ((map_to_list (MatchLabels raw)).*1 ++ (inKey <$> omap in_of (MatchExpressions raw))) ∧
  NoDup (existKey <$> omap exist_of (MatchExpressions raw)) ∧
  ∀ r, r ∈ omap in_of (MatchExpressions raw) → NoDup (inValues r).

Lemma canonical_distinct raw sel :
  canonical_of raw sel → distinct_requirements raw → distinct_positive sel.
Proof.
  intros (Hin & Hex & _) (H1 & H2 & H3). split; [|split].
  - rewrite Hin, fmap_app, <- list_fmap_compose.
    rewrite (list_fmap_ext _ fst) by done. by rewrite map_order_perm.
  - by rewrite Hex.
  - intros r. rewrite Hin, elem_of_app, list_elem_of_fmap. intros [([k v] & -> & _)|Hr]; [|auto].
    apply NoDup_singleton.
Qed.

(** A [Selectors] represents [m]: the store holds the canonical selectors, and the trie
    files a name under exactly the words of its selector. *)
Record selectors_repr st m : Prop := {
  selectors_valid : ∀ n raw, m !! n = Some raw →
    valid_selector raw ∧ NoDup (words (CreateSelector raw).1);
  selectors_known : knownSelectors st = (λ raw, (CreateSelector raw).1) <$> m;
  selectors_wf : multi_wf (trie st);
  selectors_trie : ∀ w n, is_Some (multi_get (trie st) w !! n) ↔
    ∃ raw, m !! n = Some raw ∧ w ∈ words (CreateSelector raw).1
}.

Lemma selectors_repr_new : selectors_repr NewSelectors ∅.
Proof.
  split; simpl; [done|done|apply multi_wf_new|]. intros w n. rewrite multi_get_new. split.
  - by intros [? ?].
  - by intros (? & ? & _).
Qed.

Lemma track_words name ws (t : Multi.Multi Matchable.Matchable Name unit) :
  multi_wf t → NoDup ws → (∀ w, w ∈ ws → multi_get t w !! name = None) →
  ∃ t', Iter.FromSlice ws _ (λ word t,
      let '(t, existed) := Multi.Insert t word name tt in
      if existed : bool then Panic "inconsistent index contains untracked name"
      else Ret (t, Iter.Continue)) t = Ret (t', Iter.Continue) ∧ multi_wf t' ∧
    ∀ w n, is_Some (multi_get t' w !! n) ↔ (w ∈ ws ∧ n = name) ∨ is_Some (multi_get t w !! n).
Proof.
  intros Ht Hnd. revert t Ht. induction Hnd as [|w ws Hw Hnd IH]; intros t Ht Hnone; simpl.
  { exists t. split; [done|]. split; [done|]. set_solver. }
  destruct (multi_Insert t w name tt Ht) as (Ht1 & Hout & Hget).
  destruct (Multi.Insert t w name tt) as [t1 b]. simpl in *.
  rewrite Hnone in Hout by left. simpl in Hout. subst b. simpl.
  destruct (IH t1 Ht1) as (t' & -> & Ht' & Hget').
  { intros w' Hw'. rewrite Hget. rewrite decide_False by congruence. apply Hnone. by right. }
  exists t'. split; [done|]. split; [done|]. intros w' n. rewrite Hget', Hget, elem_of_cons.
  case_decide as Hd; [subst|naive_solver]. destruct (decide (n = name)) as [->|Hn].
  - rewrite lookup_insert_eq. naive_solver.
  - rewrite lookup_insert_ne by done. naive_solver.
Qed.

Lemma untrack_words name ws (t : Multi.Multi Matchable.Matchable Name unit) :
  multi_wf t → NoDup ws → (∀ w, w ∈ ws → is_Some (multi_get t w !! name)) →
  ∃ t', Iter.FromSlice ws _ (λ word t,
      let '(t, existed) := Multi.Remove t word name in
      if negb existed then
        Panic "inconsistent index does not contain tracked name corresponding to generated matchable word"
      else Ret (t, Iter.Continue)) t = Ret (t', Iter.Continue) ∧ multi_wf t' ∧
    ∀ w n, is_Some (multi_get t' w !! n) ↔ ¬ (w ∈ ws ∧ n = name) ∧ is_Some (multi_get t w !! n).
Proof.
  intros Ht Hnd. revert t Ht. induction Hnd as [|w ws Hw Hnd IH]; intros t Ht Hsome; simpl.
  { exists t. split; [done|]. split; [done|]. set_solver. }
  destruct (multi_Remove t w name Ht) as (Ht1 & Hout & Hget).
  destruct (Multi.Remove t w name) as [t1 b]. simpl in *.
  destruct (Hsome w ltac:(left)) as [d Hd]. rewrite Hd in Hout. simpl in Hout. subst b. simpl.
  destruct (IH t1 Ht1) as (t' & -> & Ht' & Hget').
  { intros w' Hw'. rewrite Hget. rewrite decide_False by congruence. apply Hsome. by right. }
  exists t'. split; [done|]. split; [done|]. intros w' n. rewrite Hget', Hget, elem_of_cons.
  case_decide as Hdw; [subst|naive_solver]. destruct (decide (n = name)) as [->|Hn].
  - rewrite lookup_delete_eq. split; [|naive_solver]. intros [_ [? ?]]. done.
  - rewrite lookup_delete_ne by done. naive_solver.
Qed.

Lemma doUntrackSelector_spec st m name :
  selectors_repr st m →
  ∃ st', doUntrackSelector st name = Ret (st', Optional.IsSome (m !! name)) ∧
    selectors_repr st' (delete name m).
Proof.
  intros [Hval Hk Hwf Htrie]. unfold doUntrackSelector, SelectorStore_Remove.
  rewrite Hk, lookup_fmap. destruct (m !! name) as [raw|] eqn:Hm; simpl.
  - destruct (Hval name raw Hm) as [Hv Hnd]. rewrite (pushes_WordsForSelector _ _).
    destruct (untrack_words name (words (CreateSelector raw).1) (trie st) Hwf Hnd)
      as (t' & -> & Hwf' & Hget).
    { intros w Hw. apply Htrie. eauto. }
    simpl. eexists; split; [done|]. split; simpl.
    + intros n raw' [_ Hn]%lookup_delete_Some. eauto.
    + by rewrite fmap_delete.
    + done.
    + intros w n. rewrite Hget, Htrie. setoid_rewrite lookup_delete_Some. split.
      * intros [Hn (raw' & Hraw & Hw)]. exists raw'. split; [|done]. split; [|done].
        intros <-. naive_solver.
      * intros (raw' & [Hne Hraw] & Hw). split; [naive_solver|eauto].
  - eexists; split; [done|]. rewrite delete_id by done. by split.
Qed.

Lemma doTrackSelector_spec st m name raw :
  selectors_repr st m → m !! name = None → valid_selector raw →
  NoDup (words (CreateSelector raw).1) →
  ∃ st', doTrackSelector st name raw = Ret (st', None) ∧ selectors_repr st' (<[name := raw]> m).
Proof.
  intros [Hval Hk Hwf Htrie] Hm Hv Hnd. unfold doTrackSelector, SelectorStore_Insert.
  destruct (CreateSelector_valid raw Hv) as (sel & Hsel & Hcan). rewrite Hsel in *. simpl in *.
  rewrite Hk, lookup_fmap, Hm. simpl. rewrite (pushes_WordsForSelector _ _).
  destruct (track_words name (words sel) (trie st) Hwf Hnd) as (t' & -> & Hwf' & Hget).
  { intros w Hw. destruct (multi_get (trie st) w !! name) as [u|] eqn:Hu; [|done].
    destruct (proj1 (Htrie w name)) as (raw' & ? & _); [by rewrite Hu|congruence]. }
  simpl. eexists; split; [done|]. split; simpl.
  - intros n raw' [[<- <-]|[_ Hn]]%lookup_insert_Some; [by rewrite Hsel|eauto].
  - rewrite fmap_insert. by rewrite Hsel.
  - done.
  - intros w n. rewrite Hget, Htrie. setoid_rewrite lookup_insert_Some. split.
    + intros [[Hw ->]|(raw' & Hn & Hw)].
      * exists raw. rewrite Hsel. auto.
      * exists raw'. split; [|done]. right. split; [congruence|done].
    + intros (raw' & [[<- <-]|[Hne Hn]] & Hw); [|by eauto]. rewrite Hsel in Hw. auto.
Qed.

Lemma Selectors_Track_spec st m name raw :
  selectors_repr st m → valid_selector raw → NoDup (words (CreateSelector raw).1) →
  ∃ st', Track st name raw = Ret (st', None) ∧ selectors_repr st' (<[name := raw]> m).
Proof.
  intros Hst Hv Hnd. unfold Track.
  destruct (doUntrackSelector_spec st m name Hst) as (st1 & -> & H1). simpl.
  destruct (doTrackSelector_spec st1 (delete name m) name raw) as (st2 & -> & H2);
    [done|apply lookup_delete_eq|done|done|].
  simpl. exists st2. split; [done|]. by rewrite insert_delete_eq in H2.
Qed.

(** An invalid selector leaves an error, and the old selector of the name is gone. *)
Lemma Selectors_Track_invalid st m name raw :
  selectors_repr st m → ¬ valid_selector raw →
  ∃ st' err, Track st name raw = Ret (st', Some err) ∧ selectors_repr st' (delete name m).
Proof.
  intros Hst Hv. unfold Track.
  destruct (doUntrackSelector_spec st m name Hst) as (st1 & -> & H1). simpl.
  unfold doTrackSelector, SelectorStore_Insert.
  destruct (CreateSelector_invalid raw Hv) as (sel & err & ->). simpl.
  eexists _, _. split; [done|]. by destruct st1.
Qed.

(** Queries are sound for every selector, and complete for distinct requirements. *)
Lemma Selectors_Query_spec st m labels :
  selectors_repr st m →
  ∃ it found, Query st labels = Ret (Some it, tt) ∧ drains it found ∧ NoDup found ∧
    (∀ n, n ∈ found → ∃ raw, m !! n = Some raw ∧ selector_selects raw labels) ∧
    ∀ n raw, m !! n = Some raw → distinct_requirements raw → selector_selects raw labels →
      n ∈ found.
Proof.
  intros [Hval Hk Hwf Htrie]. unfold Query, doQuerySelector. rewrite CollectSlice_ForSet. simpl.
  destruct (pushes_multi_Subsets (trie st) (SetTrie.NewWord Matchable.Less (set_items labels)))
    as (l & Hl & Hin).
  apply (pushes_Map _ _ fst) in Hl.
  destruct (filtered_query _ _ (λ name,
      selector ← Optional.MustGet (SelectorStore_Get (knownSelectors st) name)
        "indexed name does not exist in selector store"; Matches selector (CreateSet labels))
    (λ n, ∃ raw, m !! n = Some raw ∧ selector_selects raw labels) Hl) as (found & Hd & Hnd & Hfound).
  { intros n ([n' u] & -> & Hn)%list_elem_of_fmap. apply Hin in Hn as (w & _ & Hn). simpl.
    destruct (proj1 (Htrie w n')) as (raw & Hraw & _); [eauto|].
    unfold SelectorStore_Get, Optional.GetMap. rewrite Hk, lookup_fmap, Hraw. simpl.
    destruct (Hval n' raw Hraw) as [Hv _]. destruct (CreateSelector_valid raw Hv) as (sel & -> & Hcan).
    destruct (Matches_selects raw sel labels Hcan Hv) as (b & Hb & Hiff). exists b.
    split; [done|]. rewrite Hiff. naive_solver. }
  eexists _, found. split; [done|]. split; [done|]. split; [done|]. split; [naive_solver|].
  intros n raw Hraw Hdist Hsel. apply Hfound. split; [|eauto].
  destruct (Hval n raw Hraw) as [Hv _]. destruct (CreateSelector_valid raw Hv) as (sel & Hcs & Hcan).
  destruct (selects_canonical raw sel labels Hcan Hv Hsel) as [Hi He].
  destruct (words_complete sel labels) as (w & Hw & Hsub); [by eapply canonical_distinct|done|done|].
  destruct (proj2 (Htrie w n)) as [[] Hu]; [exists raw; by rewrite Hcs|].
  apply list_elem_of_fmap. exists (n, tt). split; [done|]. apply Hin. eauto.
Qed.

#[export] Instance Selectors_Index :
    LabelIndex.Index (Selectors Name) Name LabelSelector (gmap string string) (option error) unit := {|
  LabelIndex.Track := Track;
  LabelIndex.Untrack := Untrack;
  LabelIndex.Query := Query
|}.

#[export] Program Instance Selectors_IndexSpec :
    LabelIndex.IndexSpec Selectors_Index LabelIndex.ErrorErrAdapter LabelIndex.EmptyErrAdapter := {|
  LabelIndex.represents st m :=
    selectors_repr st m ∧ ∀ n raw, m !! n = Some raw → distinct_requirements raw;
  LabelIndex.admissible raw := valid_selector raw ∧ distinct_requirements raw;
  LabelIndex.answers labels _ raw := selector_selects raw labels;
  LabelIndex.query_ok _ := True
|}.
Next Obligation.
  intros st m name raw [Hst Hdist] [Hv Hd].
  destruct (Selectors_Track_spec st m name raw Hst Hv) as (st' & Htr & Hst').
  { destruct (CreateSelector_valid raw Hv) as (sel & -> & Hcan).
    by eapply NoDup_words, canonical_distinct. }
  exists st', None. split; [done|]. split; [done|]. split; [done|].
  intros n raw' [[_ <-]|[_ ?]]%lookup_insert_Some; eauto.
Qed.
Next Obligation.
  intros st m name [Hst Hdist]. destruct (doUntrackSelector_spec st m name Hst) as (st' & ? & ?).
  exists st'. split; [done|]. split; [done|]. intros n raw [_ ?]%lookup_delete_Some. eauto.
Qed.
Next Obligation.
  intros st m q [Hst Hdist] _.
  destruct (Selectors_Query_spec st m q Hst) as (it & found & ? & ? & ? & ? & ?).
  exists it, tt, found. split; [done|]. split; [done|]. split; [by right|]. split; [done|].
  intros n. split; [auto|]. intros (raw & ? & ?). eauto.
Qed.
Next Obligation. intros st m q _ Hq. by destruct Hq. Qed.

End selectors_lemmas.

(** ** namespaced.go *)
Module Namespaced.

(** [types.NamespacedName] of k8s.io/apimachinery. *)
Record NamespacedName : Type := { Namespace : string; Name : string }.

#[global] Instance NamespacedName_eq_dec : EqDecision NamespacedName.
Proof. solve_decision. Defined.
#[global] Program Instance NamespacedName_countable : Countable NamespacedName :=
  inj_countable' (λ n, (Namespace n, Name n)) (λ p, {| Namespace := p.1; Name := p.2 |}) _.
Next Obligation. by intros []. Qed.

Record NamespacedQuery (T : Type) : Type := { queryNamespace : string; query : T }.
Arguments queryNamespace {T} _.
Arguments query {T} _.

Section namespaced.
Context {I Tracked Q TrackErr QueryErr : Type} `{!LabelIndex.Index I string Tracked Q TrackErr QueryErr}.
Variables (new : I) (queryErrAdapter : LabelIndex.ErrAdapter QueryErr).

Record Namespaced : Type := { namespaces : gmap string I }.

Definition NewNamespaced : Namespaced := {| namespaces := ∅ |}.

(** The inner index is a pointer: the map sees its new state. *)
Definition Track (index : Namespaced) (name : NamespacedName) (item : Tracked) :
    outcome (Namespaced * TrackErr) :=
  let namespaced := default new (namespaces index !! Namespace name) in
  '(namespaced, err) ← LabelIndex.Track namespaced (Name name) item;
  Ret ({| namespaces := <[Namespace name := namespaced]> (namespaces index) |}, err).

Definition Untrack (index : Namespaced) (name : NamespacedName) : outcome (Namespaced * bool) :=
  match namespaces index !! Namespace name with
  | None => Ret (index, false)
  | Some namespaced =>
      '(namespaced, existed) ← LabelIndex.Untrack namespaced (Name name);
      Ret ({| namespaces := <[Namespace name := namespaced]> (namespaces index) |}, existed)
  end.

Definition Query (index : Namespaced) (q : NamespacedQuery Q) :
    outcome (option (Iter.Iter NamespacedName) * QueryErr) :=
  match namespaces index !! queryNamespace q with
  | None => Ret (Some Iter.Empty, LabelIndex.Nil queryErrAdapter)
  | Some namespaced =>
      '(names, err) ← LabelIndex.Query namespaced (query q);
      if LabelIndex.IsErr queryErrAdapter err then Ret (None, err)
      else
        match names with
        | Some names =>
            Ret (Some (Iter.Map names (λ name,
              {| Namespace := queryNamespace q; Name := name |})), LabelIndex.Nil queryErrAdapter)
        | None => Panic "invalid memory address or nil pointer dereference"
        end
  end.

End namespaced.
Arguments Namespaced I : clear implicits.

End Namespaced.

(** ** locked.go *)
Module Locked.

Section locked.
Context {I Name Tracked Q TrackErr QueryErr : Type} `{!LabelIndex.Index I Name Tracked Q TrackErr QueryErr}.
Variable queryErrAdapter : LabelIndex.ErrAdapter QueryErr.

(** [lock] is the number of read locks that are held; the write lock is only held
    within a call. *)
Record Locked : Type := { lock : nat; index : I }.

Definition NewLocked (index : I) : Locked := {| lock := 0; index := index |}.

Definition RLock (l : Locked) : Locked := {| lock := S (lock l); index := index l |}.
Definition RUnlock (l : Locked) : Locked := {| lock := pred (lock l); index := index l |}.

(** [None]: the call blocks in [Lock], as a read lock is held. *)
Definition Track (l : Locked) (name : Name) (item : Tracked) : option (outcome (Locked * TrackErr)) :=
  if 0 <? lock l then None
  else Some ('(index, err) ← LabelIndex.Track (index l) name item;
             Ret ({| lock := lock l; index := index |}, err)).

Definition Untrack (l : Locked) (name : Name) : option (outcome (Locked * bool)) :=
  if 0 <? lock l then None
  else Some ('(index, existed) ← LabelIndex.Untrack (index l) name;
             Ret ({| lock := lock l; index := index |}, existed)).

(** [names.Defer(index.lock.RUnlock)]: the iterator unlocks the index as it ends. *)
Definition Query (l : Locked) (query : Q) :
    outcome (Locked * (option (Iter.AffineIter Locked Name) * QueryErr)) :=
  let l := RLock l in
  '(names, err) ← LabelIndex.Query (index l) query;
  if LabelIndex.IsErr queryErrAdapter err then Ret (RUnlock l, (None, err))
  else
    match names with
    | Some names => Ret (l, (Some (Iter.Defer names RUnlock), LabelIndex.Nil queryErrAdapter))
    | None => Panic "invalid memory address or nil pointer dereference"
    end.

End locked.
Arguments Locked I : clear implicits.

End Locked.

(** ** The wrappers inherit the contract *)
Section namespaced_spec.
Import Namespaced.
Context {I Tracked Q TrackErr QueryErr : Type} {idx : LabelIndex.Index I string Tracked Q TrackErr QueryErr}.
Context (trackAdapter : LabelIndex.ErrAdapter TrackErr) (queryAdapter : LabelIndex.ErrAdapter QueryErr).
Context `{spec : !LabelIndex.IndexSpec idx trackAdapter queryAdapter}.
Context (new : I) (Hnew : LabelIndex.represents new ∅)
  (Hnil : LabelIndex.IsErr queryAdapter (LabelIndex.Nil queryAdapter) = false).

(** Each namespace is represented by its own index; a namespace without an index has no
    name. *)
Definition slice_of (m : gmap NamespacedName Tracked) (ns : string) (mp : gmap string Tracked) : Prop :=
  ∀ n, mp !! n = m !! {| Namespace := ns; Name := n |}.

Definition namespaced_repr (st : Namespaced I) (m : gmap NamespacedName Tracked) : Prop :=
  ∀ ns, ∃ mp, slice_of m ns mp ∧
    match namespaces st !! ns with
    | Some i => LabelIndex.represents i mp
    | None => mp = ∅
    end.

Lemma namespaced_repr_new : namespaced_repr NewNamespaced ∅.
Proof. intros ns. exists ∅. split; [by intros n|done]. Qed.

#[export] Instance Namespaced_Index :
    LabelIndex.Index (Namespaced I) NamespacedName Tracked (NamespacedQuery Q) TrackErr QueryErr := {|
  LabelIndex.Track := Track new;
  LabelIndex.Untrack := Untrack;
  LabelIndex.Query := Query queryAdapter
|}.

Lemma slice_insert m name item mp :
  slice_of m (Namespace name) mp → slice_of (<[name := item]> m) (Namespace name) (<[Name name := item]> mp).
Proof.
  intros Hs n. destruct name as [ns k]. simpl in *. destruct (decide (k = n)) as [->|Hne].
  - by rewrite !lookup_insert_eq.
  - rewrite !lookup_insert_ne by congruence. apply Hs.
Qed.

Lemma slice_delete m name mp :
  slice_of m (Namespace name) mp → slice_of (delete name m) (Namespace name) (delete (Name name) mp).
Proof.
  intros Hs n. destruct name as [ns k]. simpl in *. destruct (decide (k = n)) as [->|Hne].
  - by rewrite !lookup_delete_eq.
  - rewrite !lookup_delete_ne by congruence. apply Hs.
Qed.

Lemma slice_other m name ns mp o :
  Namespace name ≠ ns → slice_of m ns mp →
  slice_of (partial_alter (λ _, o) name m) ns mp.
Proof. intros Hne Hs n. rewrite lookup_partial_alter_ne by (intros ->; done). apply Hs. Qed.

Lemma namespaced_update st m name o i mp :
  namespaced_repr st m → LabelIndex.represents i mp →
  slice_of (partial_alter (λ _, o) name m) (Namespace name) mp →
  namespaced_repr {| namespaces := <[Namespace name := i]> (namespaces st) |} (partial_alter (λ _, o) name m).
Proof.
  intros Hst Hi Hs ns. simpl. destruct (decide (Namespace name = ns)) as [<-|Hne].
  - exists mp. by rewrite lookup_insert_eq.
  - destruct (Hst ns) as (mp' & Hs' & Hmp'). exists mp'. rewrite lookup_insert_ne by done.
    split; [by apply slice_other|done].
Qed.

#[export] Program Instance Namespaced_IndexSpec :
    LabelIndex.IndexSpec Namespaced_Index trackAdapter queryAdapter := {|
  LabelIndex.represents := namespaced_repr;
  LabelIndex.admissible := LabelIndex.admissible;
  LabelIndex.answers q name item :=
    Namespace name = queryNamespace q ∧ LabelIndex.answers (query q) (Name name) item;
  LabelIndex.query_ok q := LabelIndex.query_ok (query q)
|}.
Next Obligation.
  intros st m name item Hst Hitem. simpl. unfold Track.
  destruct (Hst (Namespace name)) as (mp & Hs & Hmp).
  destruct (LabelIndex.Track_spec (default new (namespaces st !! Namespace name)) mp (Name name) item)
    as (i' & e & -> & He & Hi'); [|done|].
  { destruct (namespaces st !! Namespace name); [done|by subst]. }
  simpl. eexists _, e. split; [done|]. split; [done|].
  eapply (namespaced_update st m name (Some item)); [done|done|by apply slice_insert].
Qed.
Next Obligation.
  intros st m name Hst. simpl. unfold Untrack. destruct (Hst (Namespace name)) as (mp & Hs & Hmp).
  assert (Hm : m !! name = mp !! Name name) by (rewrite Hs; by destruct name).
  destruct (namespaces st !! Namespace name) as [i|] eqn:Hi.
  - destruct (LabelIndex.Untrack_spec i mp (Name name) Hmp) as (i' & -> & Hi'). simpl.
    rewrite Hm. eexists. split; [done|].
    eapply (namespaced_update st m name None); [done|done|by apply slice_delete].
  - subst mp. rewrite lookup_empty in Hm. rewrite Hm. exists st. split; [done|].
    by rewrite delete_id.
Qed.
Next Obligation.
  intros st m q Hst Hq. simpl. unfold Query. destruct (Hst (queryNamespace q)) as (mp & Hs & Hmp).
  destruct (namespaces st !! queryNamespace q) as [i|] eqn:Hi.
  - destruct (LabelIndex.Query_spec i mp (query q) Hmp Hq) as (it & e & found & -> & He & Hit & Hnd & Hin).
    simpl. rewrite He. eexists _, _, ((λ n, {| Namespace := queryNamespace q; Name := n |}) <$> found).
    split; [done|]. split; [done|]. split; [|split].
    + destruct Hit; [left; by apply pushes_Map|right; by apply drains_Map].
    + apply NoDup_fmap_2; [|done]. by intros ?? [= ->].
    + intros [ns n]. rewrite list_elem_of_fmap. simpl. split.
      * intros (n' & [= -> ->] & (item & Hit' & Ha)%Hin). exists item. by rewrite <- Hs.
      * intros (item & Hm & -> & Ha). exists n. split; [done|]. apply Hin. exists item. by rewrite Hs.
  - subst mp. eexists _, _, []. split; [done|]. split; [done|]. split; [by left|].
    split; [apply NoDup_nil_2|]. intros [ns n]. split; [set_solver|]. simpl.
    intros (item & Hm & -> & _). specialize (Hs n). rewrite Hm in Hs. done.
Qed.
Next Obligation.
  intros st m q Hst Hq. simpl. unfold Query. destruct (Hst (queryNamespace q)) as (mp & Hs & Hmp).
  destruct (namespaces st !! queryNamespace q) as [i|] eqn:Hi; [|by eexists _, _].
  destruct (LabelIndex.Query_err i mp (query q) Hmp Hq) as (it & e & -> & Hit). simpl.
  destruct it as [it|].
  - destruct Hit as [-> Hit]. eexists _, _. split; [done|]. split; [done|].
    apply (pushes_Map _ [] (λ name, {| Namespace := queryNamespace q; Name := name |}) Hit).
  - rewrite Hit. by exists None, e.
Qed.

End namespaced_spec.

(** ** Histories: an index against the map that it represents *)
Section histories.
Context {I Name Tracked Q TrackErr QueryErr : Type} `{Countable Name}.

Inductive index_op : Type :=
| OpTrack (name : Name) (item : Tracked)
| OpUntrack (name : Name).

Definition run_op {idx : LabelIndex.Index I Name Tracked Q TrackErr QueryErr} (i : I) (op : index_op) : outcome I :=
  match op with
  | OpTrack name item => '(i, _) ← LabelIndex.Track i name item; Ret i
  | OpUntrack name => '(i, _) ← LabelIndex.Untrack i name; Ret i
  end.

Definition map_op (m : gmap Name Tracked) (op : index_op) : gmap Name Tracked :=
  match op with
  | OpTrack name item => <[name := item]> m
  | OpUntrack name => delete name m
  end.

Definition op_admissible (P : Tracked → Prop) (op : index_op) : Prop :=
  match op with OpTrack _ item => P item | OpUntrack _ => True end.

Context {idx : LabelIndex.Index I Name Tracked Q TrackErr QueryErr}.
Context (trackAdapter : LabelIndex.ErrAdapter TrackErr) (queryAdapter : LabelIndex.ErrAdapter QueryErr).
Context `{spec : !LabelIndex.IndexSpec idx trackAdapter queryAdapter}.

(** A history of admissible operations never panics, and the index represents the map
    that the same history builds. *)
Lemma run_ops_represents ops i m :
  LabelIndex.represents i m → Forall (op_admissible LabelIndex.admissible) ops →
  ∃ i', outcome_foldl run_op i ops = Ret i' ∧ LabelIndex.represents i' (foldl map_op m ops).
Proof.
  intros Hi Hops. revert i m Hi. induction Hops as [|op ops Hop _ IH]; intros i m Hi; simpl; [eauto|].
  destruct op as [name item|name]; simpl in *.
  - destruct (LabelIndex.Track_spec i m name item Hi Hop) as (i' & e & -> & _ & Hi'). simpl. eauto.
  - destruct (LabelIndex.Untrack_spec i m name Hi) as (i' & -> & Hi'). simpl. eauto.
Qed.

End histories.

(** ** Properties *)

(** C23. After any history of [Track] and [Untrack], [Sets.Query] of a valid selector never
    panics and returns exactly the names whose last tracked label set the selector
    selects under the Kubernetes semantics, each name once, whichever index the query
    picks as the smallest. *)
Theorem Sets_refine_map `{!GoRuntime, Countable Name} (ops : list (index_op (Name := Name)))
    (raw : LabelSelector) :
  valid_selector raw →
  ∃ st it found, outcome_foldl run_op (Sets.NewSets : Sets.Sets Name) ops = Ret st ∧
    Sets.Query st raw = Ret (Some it, None) ∧ visits it found ∧ NoDup found ∧
    ∀ n, n ∈ found ↔ ∃ labels, foldl map_op ∅ ops !! n = Some labels ∧ selector_selects raw labels.
Proof.
  intros Hraw. destruct (run_ops_represents _ _ ops (Sets.NewSets : Sets.Sets Name) ∅)
    as (st & Hrun & Hst); [apply sets_repr_new|by apply Forall_true; intros []|].
  destruct (Sets_Query_spec st _ raw Hst Hraw) as (it & found & ? & ? & ? & ?).
  exists st, it, found. auto using drains_visits.
Qed.

Lemma Sets_refine_map_witness :
  let ops := [OpTrack "p1" {[ "app" := "web" ]}; OpTrack "p2" {[ "app" := "db" ]}; OpUntrack "p1"] in
  let raw := {| MatchLabels := {[ "app" := "db" ]}; MatchExpressions := [] |} in
  ∃ st it found, outcome_foldl run_op (Sets.NewSets : Sets.Sets string) ops = Ret st ∧
    Sets.Query st raw = Ret (Some it, None) ∧ visits it found ∧ NoDup found ∧
    ∀ n, n ∈ found ↔ ∃ labels, foldl map_op ∅ ops !! n = Some labels ∧ selector_selects raw labels.
Proof. intros ops raw. apply (Sets_refine_map ops raw). intros req Hreq. by apply elem_of_nil in Hreq. Defined.

(** C24. After any history over selectors whose positive requirements are distinct, the index
    of the selectors of each namespace never panics, and a query with the labels of a pod
    returns exactly the names of the pod's namespace whose selector selects the labels,
    each once. *)
Theorem Selectors_refine_map `{!GoRuntime} (ops : list (index_op (Name := Namespaced.NamespacedName)))
    (q : Namespaced.NamespacedQuery (gmap string string)) :
  Forall (op_admissible (λ raw, valid_selector raw ∧ distinct_requirements raw)) ops →
  ∃ st it found,
    outcome_foldl (run_op (idx := Namespaced_Index LabelIndex.EmptyErrAdapter Selectors.NewSelectors))
      (Namespaced.NewNamespaced : Namespaced.Namespaced (Selectors.Selectors string)) ops = Ret st ∧
    Namespaced.Query LabelIndex.EmptyErrAdapter st q = Ret (Some it, tt) ∧
    visits it found ∧ NoDup found ∧
    ∀ n, n ∈ found ↔ Namespaced.Namespace n = Namespaced.queryNamespace q ∧
      ∃ raw, foldl map_op ∅ ops !! n = Some raw ∧ selector_selects raw (Namespaced.query q).
Proof.
  intros Hops.
  assert (Hnew : LabelIndex.represents (Selectors.NewSelectors : Selectors.Selectors string) ∅).
  { split; [apply selectors_repr_new|]. done. }
  set (spec := Namespaced_IndexSpec _ _ Selectors.NewSelectors Hnew eq_refl).
  destruct (run_ops_represents (spec := spec) _ _ ops Namespaced.NewNamespaced ∅)
    as (st & Hrun & Hst); [apply namespaced_repr_new|done|].
  destruct (LabelIndex.Query_spec (IndexSpec := spec) st _ q Hst I)
    as (it & [] & found & Hq & _ & Hit & Hnd & Hin).
  exists st, it, found. split; [done|]. split; [done|]. split; [|split; [done|]].
  { destruct Hit; auto using pushes_visits, drains_visits. }
  intros n. rewrite Hin. simpl. naive_solver.
Qed.

Lemma Selectors_refine_map_witness :
  let raw := {| MatchLabels := {[ "app" := "web" ]};
    MatchExpressions := [{| reqKey := "tier"; reqOperator := LabelSelectorOpExists; reqValues := [] |}] |} in
  let n := {| Namespaced.Namespace := "ns"; Namespaced.Name := "ppr" |} in
  let q := {| Namespaced.queryNamespace := "ns"; Namespaced.query := {[ "app" := "web"; "tier" := "a" ]} |} in
  ∃ st it found,
    outcome_foldl (run_op (idx := Namespaced_Index LabelIndex.EmptyErrAdapter Selectors.NewSelectors))
      (Namespaced.NewNamespaced : Namespaced.Namespaced (Selectors.Selectors string)) [OpTrack n raw] = Ret st ∧
    Namespaced.Query LabelIndex.EmptyErrAdapter st q = Ret (Some it, tt) ∧
    visits it found ∧ NoDup found ∧
    ∀ n', n' ∈ found ↔ Namespaced.Namespace n' = Namespaced.queryNamespace q ∧
      ∃ raw', foldl map_op ∅ [OpTrack n raw] !! n' = Some raw' ∧ selector_selects raw' (Namespaced.query q).
Proof.
  intros raw n q. apply (Selectors_refine_map [OpTrack n raw] q).
  constructor; [|constructor]. split; [|split; [|split]].
  - intros req Hreq. apply list_elem_of_singleton in Hreq as ->. reflexivity.
  - apply (bool_decide_eq_true_1 (NoDup _)). vm_compute. reflexivity.
  - apply (bool_decide_eq_true_1 (NoDup _)). vm_compute. reflexivity.
  - intros r Hr. by apply elem_of_nil in Hr.
Defined.

(** An index of selectors can miss a selector that states a key twice: the selector
    [a = x, a in (x, y)] selects the labels [a = x], yet the query with these labels
    returns no name; and a selector that lists a value twice makes [Track] panic. *)
Theorem Selectors_miss_repeated_key :
  let raw := {| MatchLabels := {[ "a" := "x" ]};
    MatchExpressions := [{| reqKey := "a"; reqOperator := LabelSelectorOpIn; reqValues := ["x"; "y"] |}] |} in
  let labels : gmap string string := {[ "a" := "x" ]} in
  selector_selects raw labels ∧
  ('(st, err) ← Selectors.Track (Selectors.NewSelectors : Selectors.Selectors string) "ppr" raw;
   '(it, _) ← Selectors.Query st labels;
   match it with
   | Some it => found ← Iter.CollectSlice it; Ret (err, found)
   | None => Panic "nil iterator"
   end) = Ret (None, []) ∧
  Selectors.Track (Selectors.NewSelectors : Selectors.Selectors string) "ppr"
    {| MatchLabels := ∅; MatchExpressions :=
         [{| reqKey := "a"; reqOperator := LabelSelectorOpIn; reqValues := ["x"; "x"] |}] |} =
    Panic "inconsistent index contains untracked name".
Proof.
  intros raw labels. split; [|split; [|vm_compute; reflexivity]].
  - split; [done|]. intros req Hreq. apply list_elem_of_singleton in Hreq as ->. reflexivity.
  - vm_compute. reflexivity.
Qed.

(** [Selectors.Track] of an invalid selector returns an error and does not keep the
    state: the selector that was tracked under the name is no longer there. *)
Theorem Selectors_Track_error_untracks `{!GoRuntime, Countable Name} (st : Selectors.Selectors Name)
    (m : gmap Name LabelSelector) (name : Name) (raw : LabelSelector) :
  selectors_repr st m → ¬ valid_selector raw →
  ∃ st' err, Selectors.Track st name raw = Ret (st', Some err) ∧ selectors_repr st' (delete name m).
Proof. apply Selectors_Track_invalid. Qed.

Lemma Selectors_Track_error_untracks_witness :
  let raw := {| MatchLabels := ∅;
    MatchExpressions := [{| reqKey := "a"; reqOperator := LabelSelectorOpOther "Gt"; reqValues := [] |}] |} in
  ∃ st' err, Selectors.Track (Selectors.NewSelectors : Selectors.Selectors string) "ppr" raw = Ret (st', Some err) ∧
    selectors_repr st' (delete "ppr" ∅).
Proof.
  intros raw. apply Selectors_Track_error_untracks; [apply selectors_repr_new|].
  intros Hval. specialize (Hval _ (list_elem_of_here _ _)). discriminate Hval.
Defined.

(** A successful query of a locked index keeps the read lock: writers block until the
    iterator has run; the run delivers the answer of the inner index and releases the
    lock even when the consumer breaks or the iterator is empty; a second run panics. *)
Theorem Locked_Query_protocol {I Name Tracked Q TrackErr QueryErr}
    {idx : LabelIndex.Index I Name Tracked Q TrackErr QueryErr}
    (adapter : LabelIndex.ErrAdapter QueryErr) (l : Locked.Locked I) (q : Q) it e :
  LabelIndex.Query (Locked.index l) q = Ret (Some it, e) → LabelIndex.IsErr adapter e = false →
  ∃ l' ait, Locked.Query adapter l q = Ret (l', (Some ait, LabelIndex.Nil adapter)) ∧
    (∀ name item, Locked.Track l' name item = None ∧ Locked.Untrack l' name = None) ∧
    ∀ S (y : Iter.Yield S Name) s,
      ait S y s (false, l') = ('(s, flow) ← it S y s; Ret (s, flow, (true, l))) ∧
      ait S y s (true, l) = Panic "Cannot invoke iterators with a finalizer multiple times".
Proof.
  intros Hq He. unfold Locked.Query. simpl. rewrite Hq. simpl. rewrite He.
  eexists _, _. split; [done|]. split; [done|]. intros S y s. split; [|done].
  unfold Iter.Defer, Iter.MustBeAffine. destruct (it S y s) as [[s' flow]|]; simpl; [|done].
  unfold Locked.RUnlock. simpl. by destruct l.
Qed.

Lemma Locked_Query_protocol_witness :
  ∃ l' ait, Locked.Query LabelIndex.EmptyErrAdapter
      (Locked.NewLocked (Selectors.NewSelectors : Selectors.Selectors string)) ∅ =
      Ret (l', (Some ait, tt)) ∧
    ∀ name item, Locked.Track l' name item = None.
Proof.
  edestruct (Locked_Query_protocol LabelIndex.EmptyErrAdapter
    (Locked.NewLocked (Selectors.NewSelectors : Selectors.Selectors string)) ∅)
    as (l' & ait & H1 & H2 & _); [reflexivity|reflexivity|].
  exists l', ait. split; [exact H1|]. intros name item. apply (H2 name item).
Defined.
