(* ===== verification/Api.v ===== *)
(** * Api: the objects of the API and the health of a pod

    The records are apis/v1alpha1/types.go, with the fields of the Kubernetes objects that
    the program reads. An int32 is a [Z]; a nil pointer is [None]; a [metav1.MicroTime] is
    its [Time]. [Module Pod] is util/pod/status.go. *)

From S2P Require Import Prelude Util Errors Iter Canonical.

(** ** Kubernetes objects, by the fields that are read *)

(** [metav1.OwnerReference]. *)
Record OwnerReference : Type := {
  ownerAPIVersion : string;
  ownerKind : string;
  ownerName : string;
  ownerUID : string;
  ownerController : option bool
}.
#[export] Instance OwnerReference_eq_dec : EqDecision OwnerReference.
Proof. solve_decision. Defined.

(** [metav1.ObjectMeta]. *)
Record ObjectMeta : Type := {
  Name : string;
  Namespace : string;
  UID : string;
  ResourceVersion : string;
  CreationTimestamp : Time;
  Labels : gmap string string;
  Annotations : gmap string string;
  Finalizers : list string;
  OwnerReferences : list OwnerReference;
  DeletionTimestamp : option Time
}.
#[export] Instance ObjectMeta_eq_dec : EqDecision ObjectMeta.
Proof. solve_decision. Defined.

(** [IsZero] of a pointer to a [metav1.Time]; nil is zero. *)
Definition IsZeroPtr (t : option Time) : bool :=
  match t with None => true | Some t => time_IsZero t end.

Inductive PodConditionType : Type := PodScheduled | PodReady | OtherCondition (name : string).
Inductive ConditionStatus : Type := ConditionTrue | ConditionFalse | ConditionUnknown.
Inductive PodPhase : Type := PodPending | PodRunning | PodSucceeded | PodFailed | PodUnknown.

#[export] Instance PodConditionType_eq_dec : EqDecision PodConditionType.
Proof. solve_decision. Defined.
#[export] Instance ConditionStatus_eq_dec : EqDecision ConditionStatus.
Proof. solve_decision. Defined.
#[export] Instance PodPhase_eq_dec : EqDecision PodPhase.
Proof. solve_decision. Defined.

Record PodCondition : Type := {
  ConditionType : PodConditionType;
  ConditionStat : ConditionStatus;
  LastProbeTime : Time;
  LastTransitionTime : Time
}.

(** [corev1.Pod]. *)
Record PodObject : Type := {
  podMeta : ObjectMeta;
  NodeName : string;
  Phase : PodPhase;
  Conditions : list PodCondition
}.

(** ** PodProtector *)

Record AdmissionHistoryConfig : Type := {
  MaxConcurrentLag : option Z;
  CompactThreshold : option Z;
  AggregationRateMillis : option Z
}.
#[export] Instance AdmissionHistoryConfig_eq_dec : EqDecision AdmissionHistoryConfig.
Proof. solve_decision. Defined.
#[export] Instance AdmissionHistoryConfig_zero : Zero AdmissionHistoryConfig :=
  {| MaxConcurrentLag := None; CompactThreshold := None; AggregationRateMillis := None |}.

Record PodProtectorSpec : Type := {
  MinAvailable : Z;
  MinReadySeconds : Z;
  pprSelector : LabelSelector;
  AggregationSelector : option LabelSelector;
  HistoryConfig : AdmissionHistoryConfig
}.
#[export] Instance PodProtectorSpec_eq_dec : EqDecision PodProtectorSpec.
Proof. solve_decision. Defined.

Record PodProtectorAggregation : Type := {
  TotalReplicas : Z;
  AvailableReplicas : Z;
  ReadyReplicas : Z;
  ScheduledReplicas : Z;
  RunningReplicas : Z;
  PendingReplicas : option Z;
  UnscheduledPendingReplicas : option Z;
  LastEventTime : Time
}.
#[export] Instance PodProtectorAggregation_eq_dec : EqDecision PodProtectorAggregation.
Proof. solve_decision. Defined.
#[export] Instance PodProtectorAggregation_zero : Zero PodProtectorAggregation := {|
  TotalReplicas := 0; AvailableReplicas := 0; ReadyReplicas := 0; ScheduledReplicas := 0;
  RunningReplicas := 0; PendingReplicas := None; UnscheduledPendingReplicas := None;
  LastEventTime := 0 |}%Z.

Record PodProtectorAdmissionBucket : Type := {
  StartTime : Time;
  PodName : string;
  PodUid : option string;
  EndTime : option Time;
  Counter : option Z
}.
#[export] Instance PodProtectorAdmissionBucket_eq_dec : EqDecision PodProtectorAdmissionBucket.
Proof. solve_decision. Defined.

(** [PodProtectorAdmissionHistory] has the one field [Buckets]. *)
Record PodProtectorCellStatus : Type := {
  CellId : string;
  Aggregation : PodProtectorAggregation;
  Buckets : list PodProtectorAdmissionBucket
}.
#[export] Instance PodProtectorCellStatus_eq_dec : EqDecision PodProtectorCellStatus.
Proof. solve_decision. Defined.

Record PodProtectorStatusSummary : Type := {
  Total : Z;
  AggregatedAvailable : Z;
  MaxLatencyMillis : Z;
  EstimatedAvailable : Z;
  AggregatedReady : Z;
  AggregatedScheduled : Z;
  AggregatedRunning : Z
}.
#[export] Instance PodProtectorStatusSummary_eq_dec : EqDecision PodProtectorStatusSummary.
Proof. solve_decision. Defined.
#[export] Instance PodProtectorStatusSummary_zero : Zero PodProtectorStatusSummary := {|
  Total := 0; AggregatedAvailable := 0; MaxLatencyMillis := 0; EstimatedAvailable := 0;
  AggregatedReady := 0; AggregatedScheduled := 0; AggregatedRunning := 0 |}%Z.

Record PodProtectorStatus : Type := {
  Cells : list PodProtectorCellStatus;
  Summary : PodProtectorStatusSummary
}.
#[export] Instance PodProtectorStatus_eq_dec : EqDecision PodProtectorStatus.
Proof. solve_decision. Defined.
#[export] Instance PodProtectorStatus_zero : Zero PodProtectorStatus :=
  {| Cells := []; Summary := zero |}.

Record PodProtector : Type := {
  pprMeta : ObjectMeta;
  Spec : PodProtectorSpec;
  Status : PodProtectorStatus
}.
#[export] Instance PodProtector_eq_dec : EqDecision PodProtector.
Proof. solve_decision. Defined.

(** *** Assignments to fields *)
Definition with_Status (ppr : PodProtector) (status : PodProtectorStatus) : PodProtector :=
  {| pprMeta := pprMeta ppr; Spec := Spec ppr; Status := status |}.
Definition with_Cells (ppr : PodProtector) (cells : list PodProtectorCellStatus) : PodProtector :=
  with_Status ppr {| Cells := cells; Summary := Summary (Status ppr) |}.
Definition with_Summary (ppr : PodProtector) (summary : PodProtectorStatusSummary) : PodProtector :=
  with_Status ppr {| Cells := Cells (Status ppr); Summary := summary |}.
Definition with_Spec (ppr : PodProtector) (spec : PodProtectorSpec) : PodProtector :=
  {| pprMeta := pprMeta ppr; Spec := spec; Status := Status ppr |}.
Definition with_pprMeta (ppr : PodProtector) (m : ObjectMeta) : PodProtector :=
  {| pprMeta := m; Spec := Spec ppr; Status := Status ppr |}.
Definition with_Buckets (cell : PodProtectorCellStatus) (buckets : list PodProtectorAdmissionBucket) :
    PodProtectorCellStatus :=
  {| CellId := CellId cell; Aggregation := Aggregation cell; Buckets := buckets |}.
Definition with_Aggregation (cell : PodProtectorCellStatus) (a : PodProtectorAggregation) :
    PodProtectorCellStatus :=
  {| CellId := CellId cell; Aggregation := a; Buckets := Buckets cell |}.
Definition with_LastEventTime (a : PodProtectorAggregation) (t : Time) : PodProtectorAggregation := {|
  TotalReplicas := TotalReplicas a; AvailableReplicas := AvailableReplicas a; ReadyReplicas := ReadyReplicas a;
  ScheduledReplicas := ScheduledReplicas a; RunningReplicas := RunningReplicas a; PendingReplicas := PendingReplicas a;
  UnscheduledPendingReplicas := UnscheduledPendingReplicas a; LastEventTime := t |}.
Definition with_StartTime (b : PodProtectorAdmissionBucket) (t : Time) : PodProtectorAdmissionBucket :=
  {| StartTime := t; PodName := PodName b; PodUid := PodUid b; EndTime := EndTime b;
     Counter := Counter b |}.
Definition with_EndTime (b : PodProtectorAdmissionBucket) (t : Time) : PodProtectorAdmissionBucket :=
  {| StartTime := StartTime b; PodName := PodName b; PodUid := PodUid b; EndTime := Some t;
     Counter := Counter b |}.
Definition with_Finalizers (m : ObjectMeta) (fs : list string) : ObjectMeta :=
  {| Name := Name m; Namespace := Namespace m; UID := UID m; ResourceVersion := ResourceVersion m;
     CreationTimestamp := CreationTimestamp m;
     Labels := Labels m; Annotations := Annotations m; Finalizers := fs;
     OwnerReferences := OwnerReferences m; DeletionTimestamp := DeletionTimestamp m |}.
Definition with_Labels (m : ObjectMeta) (l : gmap string string) : ObjectMeta :=
  {| Name := Name m; Namespace := Namespace m; UID := UID m; ResourceVersion := ResourceVersion m;
     CreationTimestamp := CreationTimestamp m;
     Labels := l; Annotations := Annotations m; Finalizers := Finalizers m;
     OwnerReferences := OwnerReferences m; DeletionTimestamp := DeletionTimestamp m |}.
Definition with_Annotations (m : ObjectMeta) (l : gmap string string) : ObjectMeta :=
  {| Name := Name m; Namespace := Namespace m; UID := UID m; ResourceVersion := ResourceVersion m;
     CreationTimestamp := CreationTimestamp m;
     Labels := Labels m; Annotations := l; Finalizers := Finalizers m;
     OwnerReferences := OwnerReferences m; DeletionTimestamp := DeletionTimestamp m |}.

(** [ptr.Deref]. *)
Definition Deref {A} (p : option A) (def : A) : A := default def p.

(** ** apis/constants.go *)
Definition SourceObjectNameLabel : string := "podseidon.kubewharf.io/source-name".
Definition SourceObjectGroupLabel : string := "podseidon.kubewharf.io/source-group".
Definition SourceObjectKindLabel : string := "podseidon.kubewharf.io/source-kind".
Definition SourceObjectResourceLabel : string := "podseidon.kubewharf.io/source-resource".
Definition GeneratorFinalizer : string := "podseidon.kubewharf.io/generator".
Definition PprAnnotationRemoveCellOnce : string := "podseidon.kubewharf.io/remove-cell-once".
Definition PodAnnotationForceDelete : string := "podseidon.kubewharf.io/force-delete".
Definition AuditAnnotationDryRun : string := "dry-run".
Definition AuditAnnotationRejectByPpr : string := "reject-by-podprotector".
Definition EvictionAnnotationHealthCriterion : string := "podseidon.kubewharf.io/health-criterion".
Definition HealthCriterionAvailable : string := "Available".
Definition HealthCriterionReady : string := "Ready".
Definition HealthCriterionRunning : string := "Running".
Definition HealthCriterionScheduled : string := "Scheduled".

(** ** util/pod/status.go *)
Module Pod.

Record PodStatus : Type := {
  IsScheduled : bool;
  IsRunning : bool;
  IsReady : bool;
  IsAvailable : bool
}.
#[global] Instance PodStatus_eq_dec : EqDecision PodStatus.
Proof. solve_decision. Defined.

Definition isPodConditionTrue (pod : PodObject) (conditionType : PodConditionType) : outcome bool :=
  Iter.Any (Iter.Map (Iter.FromSlice (Conditions pod)) (λ condition,
    bool_decide (ConditionType condition = conditionType) &&
    bool_decide (ConditionStat condition = ConditionTrue))).

(** [now] is the reading of the clock; [requeue] is nil or points to a variable, so the
    outer option is the pointer and the inner one the [Optional]. Durations are int64:
    [minReadySeconds] is an int32, so the product does not wrap. *)
Definition IsPodAvailable (now : Time) (pod : PodObject) (minReadySeconds : Z)
    (requeue : option (option Duration)) : bool * option (option Duration) :=
  if negb (IsZeroPtr (DeletionTimestamp (podMeta pod))) then (false, requeue)
  else
    let readyConditionIndex := Slices.FindInSliceWith (Conditions pod)
      (λ condition, bool_decide (ConditionType condition = PodReady)) in
    if (readyConditionIndex =? -1)%Z then (false, requeue)
    else
      match Conditions pod !! Z.to_nat readyConditionIndex with
      | None => (false, requeue)
      | Some readyCondition =>
          if negb (bool_decide (ConditionStat readyCondition = ConditionTrue)) then (false, requeue)
          else
            let readyTime := time_Sub now (LastTransitionTime readyCondition) in
            let minReadyDuration := wrap64 (minReadySeconds * Second) in
            if (readyTime <? minReadyDuration)%Z then
              let readyIn := wrap64 (minReadyDuration - readyTime) in
              (false, (λ requeue, Optional.SetOrFn requeue readyIn Z.min) <$> requeue)
            else (true, requeue)
      end.

Definition GetPodStatus (now : Time) (pod : PodObject) (minReadySeconds : Z)
    (requeue : option (option Duration)) : outcome (PodStatus * option (option Duration)) :=
  scheduled ← isPodConditionTrue pod PodScheduled;
  ready ← isPodConditionTrue pod PodReady;
  let '(available, requeue) := IsPodAvailable now pod minReadySeconds requeue in
  Ret ({| IsScheduled := scheduled; IsRunning := bool_decide (Phase pod = PodRunning);
          IsReady := ready; IsAvailable := available |}, requeue).

End Pod.

(** ** Lemmas *)

(** The first condition of a type, as the search of [IsPodAvailable] finds it. *)
Definition first_condition (pod : PodObject) (t : PodConditionType) : option PodCondition :=
  snd <$> list_find (λ c, ConditionType c = t) (Conditions pod).

Lemma find_first_condition pod t :
  let i := Slices.FindInSliceWith (Conditions pod) (λ c, bool_decide (ConditionType c = t)) in
  (i = (-1)%Z ∧ first_condition pod t = None) ∨
  (i ≠ (-1)%Z ∧ Conditions pod !! Z.to_nat i = first_condition pod t ∧ is_Some (first_condition pod t)).
Proof.
  simpl. unfold first_condition.
  destruct (FindInSliceWith_spec (Conditions pod) (λ c, bool_decide (ConditionType c = t)))
    as [[-> Hnone]|(i & -> & (c & Hi & Hc) & Hlt)].
  - left. split; [done|]. rewrite (proj2 (list_find_None _ _)); [done|].
    apply Forall_forall. intros c Hc. specialize (Hnone c Hc). by apply bool_decide_eq_false in Hnone.
  - right. split; [lia|]. rewrite Nat2Z.id.
    assert (list_find (λ c, ConditionType c = t) (Conditions pod) = Some (i, c)) as ->.
    { apply list_find_Some. split; [done|]. split; [by apply bool_decide_eq_true in Hc|].
      intros j y Hj Hji. specialize (Hlt j y Hji Hj). by apply bool_decide_eq_false in Hlt. }
    simpl. eauto.
Qed.

Lemma isPodConditionTrue_spec pod t :
  Pod.isPodConditionTrue pod t = Ret (existsb (λ c,
    bool_decide (ConditionType c = t) && bool_decide (ConditionStat c = ConditionTrue)) (Conditions pod)).
Proof.
  unfold Pod.isPodConditionTrue. erewrite push_Any; [|left; apply pushes_Map, FromSlice_pushes].
  by rewrite existsb_id_fmap.
Qed.

(** ** Properties of util/pod/status.go *)

(** A pod is available iff it is not being deleted, its first [Ready] condition is true
    and has been for [minReadySeconds]; when it is not available but becomes so by the
    passing of time alone, and only then, the requeue delay is lowered to exactly the
    time at which it does, counted from now. *)
Theorem IsPodAvailable_correct (now : Time) (pod : PodObject) (minReadySeconds : Z)
    (old : option Duration) :
  in_int32 minReadySeconds →
  (∀ c, first_condition pod PodReady = Some c → (0 ≤ now - LastTransitionTime c ≤ MaxInt64 / 2)%Z) →
  let ready_since := match first_condition pod PodReady with
    | Some c => if bool_decide (ConditionStat c = ConditionTrue) then Some (LastTransitionTime c) else None
    | None => None end in
  let alive := IsZeroPtr (DeletionTimestamp (podMeta pod)) in
  let '(available, requeue) := Pod.IsPodAvailable now pod minReadySeconds (Some old) in
  (available = true ↔ alive = true ∧ ∃ t, ready_since = Some t ∧ (t + minReadySeconds * Second ≤ now)%Z) ∧
  requeue = Some (match ready_since with
    | Some t =>
        if alive && (now <? t + minReadySeconds * Second)%Z
        then let d := (t + minReadySeconds * Second - now)%Z in
             Some (match old with Some o => Z.min o d | None => d end)
        else old
    | None => old
    end).
Proof.
  intros Hmin Hc ready_since alive. unfold Pod.IsPodAvailable. subst ready_since alive.
  destruct (IsZeroPtr _); simpl; [|by destruct (first_condition pod PodReady) as [c|];
    [destruct (bool_decide _)|]; split; naive_solver].
  destruct (find_first_condition pod PodReady) as [[-> ->]|(Hi & -> & [c Hf])]; [split; naive_solver|].
  rewrite (proj2 (Z.eqb_neq _ _)), Hf by done. specialize (Hc c Hf).
  destruct (bool_decide (ConditionStat c = ConditionTrue)); simpl; [|split; naive_solver].
  unfold Second, time_Sub, MinInt64, MaxInt64 in *.
  change (9223372036854775807 / 2)%Z with 4611686018427387903%Z in Hc.
  rewrite Z.min_r, Z.max_r by lia.
  rewrite (wrap64_id (minReadySeconds * _)) by (unfold_wrap; lia).
  destruct (Z.ltb_spec (now - LastTransitionTime c) (minReadySeconds * 1000000000)) as [Hlt|Hge].
  - rewrite wrap64_id by (unfold_wrap; lia).
    rewrite (proj2 (Z.ltb_lt _ _)) by lia. split; [split; [done|]; intros [_ (t & [= <-] & ?)]; lia|].
    unfold Optional.SetOrFn. simpl.
    destruct old; by replace (minReadySeconds * 1000000000 - (now - LastTransitionTime c))%Z
      with (LastTransitionTime c + minReadySeconds * 1000000000 - now)%Z by lia.
  - rewrite (proj2 (Z.ltb_ge _ _)) by lia. split; [|done]. split; [|done]. intros _.
    split; [done|]. eexists; split; [done|]. lia.
Qed.

(** A pod that turned ready at 5 s and needs 10 s: at 8 s it is requeued after 7 s. *)
Lemma IsPodAvailable_correct_witness :
  let pod := {| podMeta := {| Name := "p"; Namespace := "ns"; UID := "u"; ResourceVersion := "1"; CreationTimestamp := 0%Z;
      Labels := ∅; Annotations := ∅; Finalizers := []; OwnerReferences := []; DeletionTimestamp := None |};
    NodeName := "n"; Phase := PodRunning;
    Conditions := [{| ConditionType := PodReady; ConditionStat := ConditionTrue;
      LastProbeTime := 0; LastTransitionTime := 5000000000 |}] |}%Z in
  (Pod.IsPodAvailable 8000000000%Z pod 10%Z (Some None)).2 = Some (Some 7000000000%Z).
Proof.
  intros pod. pose proof (IsPodAvailable_correct 8000000000%Z pod 10%Z None) as Hw. cbv zeta in Hw.
  destruct (Pod.IsPodAvailable _ _ _ _) as [available requeue].
  destruct Hw as [_ ->]; [vm_compute; split; congruence| |vm_compute; reflexivity].
  intros c Hc. injection Hc as <-. vm_compute. split; congruence.
Defined.
