(* ===== verification/PprUtil.v ===== *)
(** * PprUtil: the status of a PodProtector

    [Module DefaultConfig] is util/defaultconfig/options.go (the flags are its inputs) and
    [Module PprUtil] is util/podprotector/podprotector.go: the summary of a status and the
    compaction of the admission history. *)

From S2P Require Import Prelude Util Errors Iter Canonical Api.

(** ** util/defaultconfig/options.go *)
Module DefaultConfig.

(** The values that the flags were parsed to. *)
Record Options : Type := {
  optMaxConcurrentLag : Z;
  optCompactThreshold : Z;
  optAggregationRate : Duration
}.

Record Computed : Type := {
  MaxConcurrentLag : Z;
  CompactThreshold : Z;
  AggregationRate : Duration
}.

Definition milliDuration (i : Z) : Duration := wrap64 (i * Millisecond).

Definition Compute (options : Options) (optionalConfig : option AdmissionHistoryConfig) : Computed :=
  let config := Optional.GetOrZero optionalConfig in {|
    MaxConcurrentLag := Deref (Api.MaxConcurrentLag config) (optMaxConcurrentLag options);
    CompactThreshold := Deref (Api.CompactThreshold config) (optCompactThreshold options);
    AggregationRate := Optional.GetOr
      (Optional.Map (Optional.FromPtr (AggregationRateMillis config)) milliDuration)
      (optAggregationRate options)
  |}.

(** The defaults that [New] declares for the flags. *)
Definition default_options : Options :=
  {| optMaxConcurrentLag := 0; optCompactThreshold := 100; optAggregationRate := 5 * Second |}%Z.

Definition MustComputeDefaultSetup (config : AdmissionHistoryConfig) : Computed :=
  Compute default_options (Some config).

End DefaultConfig.

(** ** util/podprotector/podprotector.go *)
Module PprUtil.

Definition GetAggregationSelector (ppr : PodProtector) : LabelSelector :=
  Deref (AggregationSelector (Spec ppr)) (pprSelector (Spec ppr)).

(** The body of the merging loop: slot [bucketId] lends its end time to the compacted
    bucket, whose [EndTime] pointer is dereferenced. *)
Definition mergeBucket (buckets : list PodProtectorAdmissionBucket)
    (compactBucket : PodProtectorAdmissionBucket) (bucketId : nat) :
    outcome PodProtectorAdmissionBucket :=
  match buckets !! bucketId with
  | None => Panic "index out of range"
  | Some bucket =>
      let bucketEndTime := Deref (EndTime bucket) (StartTime bucket) in
      match EndTime compactBucket with
      | None => Panic "invalid memory address or nil pointer dereference"
      | Some endTime =>
          Ret (if time_After bucketEndTime endTime then with_EndTime compactBucket bucketEndTime
               else compactBucket)
      end
  end.

Section ops.
Context `{!GoRuntime}.

Definition CompactBuckets (config : DefaultConfig.Computed)
    (buckets : list PodProtectorAdmissionBucket) : outcome (list PodProtectorAdmissionBucket) :=
  let buckets := sort_slice (λ bi bj, time_Before (StartTime bi) (StartTime bj)) buckets in
  let delta := (Z.of_nat (length buckets) - DefaultConfig.CompactThreshold config)%Z in
  match buckets with
  | firstBucket :: rest =>
      if (0 <? delta)%Z then
        let compactBucket :=
          match PodUid firstBucket with
          | Some _ => {| StartTime := StartTime firstBucket; PodName := ""; PodUid := None;
                         EndTime := Some (StartTime firstBucket); Counter := Some 1%Z |}
          | None => firstBucket
          end in
        compactBucket ← outcome_foldl (mergeBucket buckets) compactBucket (seq 1 (Z.to_nat delta));
        let delta := Z.to_nat delta in
        let copyCount := length buckets - 1 - delta in
        let buckets := compactBucket :: rest in
        (* copy(buckets[1:copyCount+1], buckets[delta+1:]), then the cut *)
        let buckets := take 1 buckets ++ take copyCount (drop (delta + 1) buckets) ++
          drop (copyCount + 1) buckets in
        Ret (take (copyCount + 1) buckets)
      else Ret buckets
  | [] => Ret buckets
  end.

(** The first loop of [Summarize]: the body for one cell. *)
Definition summarizeCell (config : DefaultConfig.Computed) (summary : PodProtectorStatusSummary)
    (cell : PodProtectorCellStatus) : outcome (PodProtectorStatusSummary * PodProtectorCellStatus) :=
  let a := Aggregation cell in
  let total := wrap32 (Total summary + TotalReplicas a) in
  let available := wrap32 (AggregatedAvailable summary + AvailableReplicas a) in
  let ready := wrap32 (AggregatedReady summary + ReadyReplicas a) in
  let scheduled := wrap32 (AggregatedScheduled summary + ScheduledReplicas a) in
  let running := wrap32 (AggregatedRunning summary + RunningReplicas a) in
  buckets ← CompactBuckets config (Buckets cell);
  let maxLatencyMillis :=
    match last buckets with
    | None => MaxLatencyMillis summary
    | Some lastBucket =>
        let lagDuration := if negb (time_IsZero (LastEventTime a))
          then time_Sub (StartTime lastBucket) (LastEventTime a) else 0%Z in
        Z.max (MaxLatencyMillis summary) (duration_Milliseconds lagDuration)
    end in
  Ret ({| Total := total; AggregatedAvailable := available; MaxLatencyMillis := maxLatencyMillis;
          EstimatedAvailable := EstimatedAvailable summary; AggregatedReady := ready;
          AggregatedScheduled := scheduled; AggregatedRunning := running |},
       with_Buckets cell buckets).

Definition Summarize (config : DefaultConfig.Computed) (ppr : PodProtector) : outcome PodProtector :=
  '(summary, cells) ← outcome_foldl (λ '(summary, done) cell,
      '(summary, cell) ← summarizeCell config summary cell; Ret (summary, done ++ [cell]))
    (zero, []) (Cells (Status ppr));
  let estimated := foldl (λ estimated cell,
      foldl (λ estimated bucket, wrap32 (estimated - Deref (Counter bucket) 1%Z)) estimated (Buckets cell))
    (AggregatedAvailable summary) cells in
  let summary := {| Total := Total summary; AggregatedAvailable := AggregatedAvailable summary;
    MaxLatencyMillis := MaxLatencyMillis summary; EstimatedAvailable := estimated;
    AggregatedReady := AggregatedReady summary; AggregatedScheduled := AggregatedScheduled summary;
    AggregatedRunning := AggregatedRunning summary |} in
  Ret (with_Status ppr {| Cells := cells; Summary := summary |}).

End ops.

End PprUtil.

(** ** Lemmas *)
Section compaction.
Context `{!GoRuntime}.
Import PprUtil.
Implicit Types (b : PodProtectorAdmissionBucket) (bs : list PodProtectorAdmissionBucket).

(** A bucket has its pod or its end time, as the API documents. *)
Definition bucket_ok b : Prop := is_Some (PodUid b) ∨ is_Some (EndTime b).

(** The number of admissions that a bucket stands for. *)
Definition bucket_count b : Z := Deref (Counter b) 1%Z.
Definition bucket_end b : Time := Deref (EndTime b) (StartTime b).
Fixpoint sum_by {A} (f : A → Z) (l : list A) : Z :=
  match l with [] => 0 | x :: l => f x + sum_by f l end%Z.

Definition sorted_buckets bs : list PodProtectorAdmissionBucket :=
  sort_slice (λ bi bj, time_Before (StartTime bi) (StartTime bj)) bs.

Lemma sum_by_app {A} (f : A → Z) l1 l2 : sum_by f (l1 ++ l2) = (sum_by f l1 + sum_by f l2)%Z.
Proof. induction l1 as [|x l1 IH]; simpl; [done|]. rewrite IH. lia. Qed.

Lemma time_Before_swo : strict_weak_order time_Before.
Proof.
  unfold time_Before. split; intros x; intros; rewrite ?Z.ltb_irrefl, ?Z.ltb_lt, ?Z.ltb_ge in *; lia.
Qed.

Lemma sorted_buckets_perm bs : sorted_buckets bs ≡ₚ bs.
Proof. apply sort_slice_perm. Qed.

Lemma sorted_buckets_sorted bs :
  StronglySorted (λ x y, (StartTime x ≤ StartTime y)%Z) (sorted_buckets bs).
Proof.
  assert (Hswo : strict_weak_order (λ x y, time_Before (StartTime x) (StartTime y)))
    by (apply swo_key, time_Before_swo).
  pose proof (swo_sorted_strong _ _ Hswo (sorted_buckets bs)) as Hs.
  rewrite <- (list_fmap_id (sorted_buckets bs)). eapply StronglySorted_fmap; [|apply Hs].
  - intros x y. simpl. unfold time_Before. rewrite Z.ltb_ge. done.
  - by apply Forall_true.
  - by apply sort_slice_sorted, swo_on_all.
Qed.

(** The merging loop moves the end time to the latest end of the merged buckets. *)
Lemma merge_loop bs c e n k :
  EndTime c = Some e → k + n ≤ length bs →
  outcome_foldl (mergeBucket bs) c (seq k n) =
    Ret (with_EndTime c (foldl Z.max e (bucket_end <$> take n (drop k bs)))).
Proof.
  revert c e k. induction n as [|n IH]; intros c e k He Hlen; simpl.
  { f_equal. destruct c; simpl in *. by subst. }
  destruct (lookup_lt_is_Some_2 bs k) as [b Hb]; [lia|].
  unfold mergeBucket at 2. rewrite Hb, He. simpl. rewrite (drop_S bs b k Hb). simpl.
  fold (bucket_end b). unfold time_After. destruct (Z.ltb_spec e (bucket_end b)).
  - rewrite (IH _ (bucket_end b)) by (done || lia). by rewrite Z.max_r by lia.
  - rewrite (IH _ e) by (done || lia). by rewrite Z.max_l by lia.
Qed.

(** The compacted bucket of a non-empty sorted history that exceeds the threshold by
    [delta]. *)
Definition compacted (first : PodProtectorAdmissionBucket) (merged : list PodProtectorAdmissionBucket) :
    PodProtectorAdmissionBucket :=
  let base := match PodUid first with
    | Some _ => {| StartTime := StartTime first; PodName := ""; PodUid := None;
                   EndTime := Some (StartTime first); Counter := Some 1%Z |}
    | None => first
    end in
  with_EndTime base (foldl Z.max (Deref (EndTime base) 0%Z) (bucket_end <$> merged)).

Lemma CompactBuckets_eq config bs :
  (1 ≤ DefaultConfig.CompactThreshold config)%Z → Forall bucket_ok bs →
  let k := Z.to_nat (DefaultConfig.CompactThreshold config) in
  CompactBuckets config bs = Ret (
    if decide (length bs ≤ k) then sorted_buckets bs
    else match sorted_buckets bs with
         | [] => []
         | first :: rest =>
             compacted first (take (length bs - k) rest) :: drop (length bs - k) rest
         end).
Proof.
  intros Hthr Hok k. unfold CompactBuckets. fold (sorted_buckets bs).
  assert (Hlen : length (sorted_buckets bs) = length bs) by by rewrite sorted_buckets_perm.
  rewrite <- (sorted_buckets_perm bs) in Hok. rewrite <- Hlen.
  destruct (sorted_buckets bs) as [|first rest] eqn:Hs; [by case_decide|]. simpl length.
  destruct (Z.ltb_spec 0 (Z.of_nat (S (length rest)) - DefaultConfig.CompactThreshold config)) as [Hlt|Hge].
  - rewrite decide_False by lia. apply Forall_cons in Hok as [Hfirst _].
    set (d := Z.to_nat _). assert (Hd : d = S (length rest) - k) by lia.
    set (base := match PodUid first with Some _ => _ | None => first end).
    assert (Hbase : is_Some (EndTime base)).
    { subst base. destruct Hfirst as [[u Hu]|He]; [rewrite Hu|destruct (PodUid first)]; eauto. }
    destruct Hbase as [e He]. rewrite (merge_loop _ base e) by (done || (simpl; lia)). simpl.
    rewrite !Nat.add_1_r. simpl. do 2 f_equal.
    + unfold compacted. fold base. rewrite He. simpl. by rewrite Hd, drop_0.
    + rewrite take_app_le by (rewrite length_take, length_drop; lia).
      rewrite take_take, Nat.min_id. rewrite take_ge by (rewrite length_drop; lia). by rewrite Hd.
  - rewrite decide_True by lia. done.
Qed.

Lemma wrap32_sub_fold {A} (f : A → Z) acc l :
  foldl (λ acc x, wrap32 (acc - f x)) (wrap32 acc) l = wrap32 (acc - sum_by f l).
Proof.
  revert acc. induction l as [|x l IH]; intros acc; simpl; [f_equal; lia|].
  replace (wrap32 acc - f x)%Z with (wrap32 acc + - f x)%Z by lia.
  rewrite wrap32_add_l, IH. f_equal. lia.
Qed.

Definition cells_count (cells : list PodProtectorCellStatus) : Z :=
  sum_by (λ c, sum_by bucket_count (Buckets c)) cells.

Lemma estimated_loop acc cells :
  foldl (λ estimated cell, foldl (λ estimated bucket, wrap32 (estimated - Deref (Counter bucket) 1%Z))
    estimated (Buckets cell)) (wrap32 acc) cells = wrap32 (acc - cells_count cells).
Proof.
  revert acc. induction cells as [|c cells IH]; intros acc; simpl; [f_equal; unfold cells_count; simpl; lia|].
  rewrite (wrap32_sub_fold bucket_count), IH. unfold cells_count. simpl. f_equal. lia.
Qed.

(** Milliseconds between the last event of a cell and its newest admission. *)

Definition cell_latency (cell : PodProtectorCellStatus) : Z :=
  match last (Buckets cell) with
  | None => 0%Z
  | Some b =>
      if time_IsZero (LastEventTime (Aggregation cell)) then 0%Z
      else duration_Milliseconds (time_Sub (StartTime b) (LastEventTime (Aggregation cell)))
  end.

Definition cell_compacted (config : DefaultConfig.Computed) (c c' : PodProtectorCellStatus) : Prop :=
  ∃ bs, CompactBuckets config (Buckets c) = Ret bs ∧ c' = with_Buckets c bs.

Lemma summarize_loop config cells : ∀ (s : PodProtectorStatusSummary) done,
  (0 ≤ MaxLatencyMillis s)%Z →
  (∀ c, c ∈ cells → ∃ bs, CompactBuckets config (Buckets c) = Ret bs) →
  ∃ s' cells', outcome_foldl (λ '(summary, done) cell,
      '(summary, cell) ← summarizeCell config summary cell; Ret (summary, done ++ [cell]))
    (s, done) cells = Ret (s', done ++ cells') ∧
    Forall2 (cell_compacted config) cells cells' ∧
    (wrap32 (Total s') = wrap32 (Total s + sum_by (TotalReplicas ∘ Aggregation) cells) ∧
     wrap32 (AggregatedAvailable s') =
       wrap32 (AggregatedAvailable s + sum_by (AvailableReplicas ∘ Aggregation) cells) ∧
     wrap32 (AggregatedReady s') =
       wrap32 (AggregatedReady s + sum_by (ReadyReplicas ∘ Aggregation) cells) ∧
     wrap32 (AggregatedScheduled s') =
       wrap32 (AggregatedScheduled s + sum_by (ScheduledReplicas ∘ Aggregation) cells) ∧
     wrap32 (AggregatedRunning s') =
       wrap32 (AggregatedRunning s + sum_by (RunningReplicas ∘ Aggregation) cells)) ∧
    MaxLatencyMillis s' = foldl Z.max (MaxLatencyMillis s) (cell_latency <$> cells') ∧
    (0 ≤ MaxLatencyMillis s')%Z ∧
    (cells ≠ [] → in_int32 (Total s') ∧ in_int32 (AggregatedAvailable s') ∧ in_int32 (AggregatedReady s') ∧
       in_int32 (AggregatedScheduled s') ∧ in_int32 (AggregatedRunning s')).
Proof.
  induction cells as [|c cells IH]; intros s done Hs Hc; simpl.
  { exists s, []. rewrite app_nil_r, !Z.add_0_r. split; [done|]. split; [constructor|]. done. }
  destruct (Hc c ltac:(left)) as [bs Hbs]. unfold summarizeCell at 2. rewrite Hbs. simpl.
  match goal with |- context [outcome_foldl _ (?s1, _) cells] =>
    destruct (IH s1 (done ++ [with_Buckets c bs])) as (s' & cells' & Hrun & Hf & Hsum & Hlat & Hpos & Hint) end.
  { simpl. destruct (last bs); lia. }
  { intros c' Hc'. apply Hc. by right. }
  rewrite Hrun. exists s', (with_Buckets c bs :: cells'). rewrite <- app_assoc. simpl in *.
  split; [done|]. split; [constructor; [by exists bs|done]|].
  destruct Hsum as (-> & -> & -> & -> & ->). rewrite !wrap32_add_l, !Z.add_assoc.
  split; [done|]. split; [|split; [done|]].
  - rewrite Hlat. f_equal. unfold cell_latency. simpl.
    destruct (last bs); [|by rewrite Z.max_l by lia]. by destruct (time_IsZero _).
  - intros _. destruct cells as [|c2 cells]; [|by apply Hint]. simpl in Hrun.
    injection Hrun as <- _. simpl. auto 10 using wrap32_range.
Qed.

End compaction.

Section summaries.
Context `{!GoRuntime}.
Import PprUtil.

Definition cells_ok (cells : list PodProtectorCellStatus) : Prop :=
  ∀ c, c ∈ cells → Forall bucket_ok (Buckets c).

(** What [Summarize] writes, given the cells that it compacted. *)
Definition summary_of (cells cells' : list PodProtectorCellStatus) : PodProtectorStatusSummary := {|
  Total := wrap32 (sum_by (TotalReplicas ∘ Aggregation) cells);
  AggregatedAvailable := wrap32 (sum_by (AvailableReplicas ∘ Aggregation) cells);
  MaxLatencyMillis := foldl Z.max 0%Z (cell_latency <$> cells');
  EstimatedAvailable := wrap32 (sum_by (AvailableReplicas ∘ Aggregation) cells - cells_count cells');
  AggregatedReady := wrap32 (sum_by (ReadyReplicas ∘ Aggregation) cells);
  AggregatedScheduled := wrap32 (sum_by (ScheduledReplicas ∘ Aggregation) cells);
  AggregatedRunning := wrap32 (sum_by (RunningReplicas ∘ Aggregation) cells)
|}.

Lemma summarize_loop_int32 config cells (s' : PodProtectorStatusSummary) cells' :
  outcome_foldl (λ '(summary, done) cell,
      '(summary, cell) ← summarizeCell config summary cell; Ret (summary, done ++ [cell]))
    (zero, []) cells = Ret (s', cells') → cells = [] → s' = zero.
Proof. intros Hrun ->. by injection Hrun as <- _. Qed.

Lemma Summarize_eq config ppr :
  (1 ≤ DefaultConfig.CompactThreshold config)%Z → cells_ok (Cells (Status ppr)) →
  ∃ cells', Summarize config ppr =
      Ret (with_Status ppr {| Cells := cells'; Summary := summary_of (Cells (Status ppr)) cells' |}) ∧
    Forall2 (cell_compacted config) (Cells (Status ppr)) cells'.
Proof.
  intros Hthr Hok. unfold Summarize.
  destruct (summarize_loop config (Cells (Status ppr)) zero []) as
    (s & cells' & Hrun & Hf & (H1 & H2 & H3 & H4 & H5) & Hlat & _ & Hint); [done| |].
  { intros c Hc. rewrite CompactBuckets_eq by auto. eauto. }
  pose proof (summarize_loop_int32 _ _ _ _ Hrun) as Hzero. rewrite Hrun.
  assert (Hi : in_int32 (Total s) ∧ in_int32 (AggregatedAvailable s) ∧ in_int32 (AggregatedReady s) ∧
    in_int32 (AggregatedScheduled s) ∧ in_int32 (AggregatedRunning s)).
  { destruct (decide (Cells (Status ppr) = [])) as [He|Hne]; [|auto].
    rewrite (Hzero He). repeat split; done. }
  destruct Hi as (I1 & I2 & I3 & I4 & I5).
  rewrite wrap32_id in H1, H2, H3, H4, H5 by done. simpl in *.
  exists cells'. split; [|done]. do 2 f_equal. unfold summary_of.
  rewrite H1, H2, H3, H4, H5, Hlat, estimated_loop. done.
Qed.

End summaries.

(** ** Properties *)

(** C19. [Summarize] of a status whose buckets name a pod or an end time, with a positive
    threshold, does not panic; it changes nothing but the status; the totals are the int32
    sums over the cells, [EstimatedAvailable] is the aggregated availability less the
    admissions that the compacted history counts, and [MaxLatencyMillis] is the largest
    delay between the newest admission of a cell and the last event that it saw. *)
Theorem Summarize_correct `{!GoRuntime} (config : DefaultConfig.Computed) (ppr : PodProtector) :
  (1 ≤ DefaultConfig.CompactThreshold config)%Z → cells_ok (Cells (Status ppr)) →
  ∃ cells', PprUtil.Summarize config ppr =
      Ret (with_Status ppr {| Cells := cells'; Summary := summary_of (Cells (Status ppr)) cells' |}) ∧
    Forall2 (cell_compacted config) (Cells (Status ppr)) cells'.
Proof. apply Summarize_eq. Qed.

Definition example_bucket (t : Time) (uid : string) : PodProtectorAdmissionBucket :=
  {| StartTime := t; PodName := ""; PodUid := Some uid; EndTime := None; Counter := None |}.
Definition example_meta : ObjectMeta := {| Name := "ppr"; Namespace := "ns"; UID := "u"; ResourceVersion := "1"; CreationTimestamp := 0%Z;
  Labels := ∅; Annotations := ∅; Finalizers := []; OwnerReferences := []; DeletionTimestamp := None |}.
Definition example_cell (available : Z) (bs : list PodProtectorAdmissionBucket) : PodProtectorCellStatus := {|
  CellId := "cell"; Buckets := bs;
  Aggregation := {| TotalReplicas := available; AvailableReplicas := available; ReadyReplicas := available;
    ScheduledReplicas := available; RunningReplicas := available; PendingReplicas := None;
    UnscheduledPendingReplicas := None; LastEventTime := 0%Z |} |}.
Definition example_ppr (minAvailable : Z) (cells : list PodProtectorCellStatus) : PodProtector := {|
  pprMeta := example_meta;
  Spec := {| MinAvailable := minAvailable; MinReadySeconds := 0%Z;
    pprSelector := {| MatchLabels := ∅; MatchExpressions := [] |}; AggregationSelector := None;
    HistoryConfig := zero |};
  Status := {| Cells := cells; Summary := zero |} |}.
Definition example_config : DefaultConfig.Computed := DefaultConfig.MustComputeDefaultSetup zero.

Lemma Summarize_correct_witness :
  let ppr := example_ppr 2 [example_cell 5 [example_bucket 10%Z "a"; example_bucket 5%Z "b"]] in
  ∃ cells', PprUtil.Summarize example_config ppr =
      Ret (with_Status ppr {| Cells := cells'; Summary := summary_of (Cells (Status ppr)) cells' |}) ∧
    Forall2 (cell_compacted example_config) (Cells (Status ppr)) cells'.
Proof.
  intros ppr. apply Summarize_correct; [vm_compute; congruence|].
  intros c Hc. apply list_elem_of_singleton in Hc as ->. repeat constructor; eexists; reflexivity.
Defined.

(** C20. With a threshold of k ≥ 1, [CompactBuckets] leaves a history of at most k buckets as it
    is, sorted by start time; of a longer one it keeps the k - 1 newest buckets and turns
    the others into one bucket that starts when the history started and ends no earlier
    than any of them. *)
Theorem CompactBuckets_correct `{!GoRuntime} (config : DefaultConfig.Computed)
    (bs : list PodProtectorAdmissionBucket) :
  (1 ≤ DefaultConfig.CompactThreshold config)%Z → Forall bucket_ok bs →
  let k := Z.to_nat (DefaultConfig.CompactThreshold config) in
  ∃ old new, old ++ new ≡ₚ bs ∧ StronglySorted (λ x y, (StartTime x ≤ StartTime y)%Z) (old ++ new) ∧
    if decide (length bs ≤ k) then PprUtil.CompactBuckets config bs = Ret (old ++ new)
    else length new = k - 1 ∧
      ∃ b e, PprUtil.CompactBuckets config bs = Ret (b :: new) ∧
        EndTime b = Some e ∧ StartTime <$> head old = Some (StartTime b) ∧
        ∀ b', b' ∈ old → (bucket_end b' ≤ e ∨ is_Some (PodUid b') ∧ head old = Some b')%Z.
Proof.
  intros Hthr Hok k. rewrite CompactBuckets_eq by done. fold k. case_decide as Hlen.
  { exists [], (sorted_buckets bs). split; [apply sorted_buckets_perm|]. split; [apply sorted_buckets_sorted|done]. }
  pose proof (sorted_buckets_perm bs) as Hp. pose proof (sorted_buckets_sorted bs) as Hs.
  assert (Hl : length (sorted_buckets bs) = length bs) by by rewrite Hp.
  rewrite <- Hp in Hok. destruct (sorted_buckets bs) as [|first rest]; [simpl in Hl; lia|].
  simpl in Hl. apply Forall_cons in Hok as [Hfirst _].
  exists (first :: take (length bs - k) rest), (drop (length bs - k) rest).
  rewrite <- app_comm_cons, take_drop. split; [done|]. split; [done|].
  split; [rewrite length_drop; lia|].
  assert (Hmax : ∀ (l : list Z) a x, x = a ∨ x ∈ l → (x ≤ foldl Z.max a l)%Z).
  { induction l as [|y l IH]; intros a x Hx; simpl; [set_solver by lia|].
    destruct Hx as [->|[->|Hx]%elem_of_cons].
    - etrans; [|apply IH; by left]. lia.
    - etrans; [|apply IH; by left]. lia.
    - apply IH. by right. }
  eexists _, _. split; [done|]. split; [done|]. split.
  { simpl. by destruct (PodUid first). }
  intros b' [->|Hb']%elem_of_cons.
  - destruct (PodUid first) as [u|] eqn:Hu; [right; split; [by eauto|done]|left].
    unfold bucket_end at 1. destruct Hfirst as [[u' Hu']|[e He]]; [congruence|].
    rewrite He. simpl. apply Hmax. by left.
  - left. apply Hmax. right. by apply list_elem_of_fmap_2.
Qed.

Lemma CompactBuckets_correct_witness :
  let bs := [example_bucket 30%Z "c"; example_bucket 10%Z "a"; example_bucket 20%Z "b"] in
  let config := {| DefaultConfig.MaxConcurrentLag := 0; DefaultConfig.CompactThreshold := 2;
    DefaultConfig.AggregationRate := 0 |}%Z in
  ∃ old new, old ++ new ≡ₚ bs ∧ length new = 1 ∧
    ∃ b e, PprUtil.CompactBuckets config bs = Ret (b :: new) ∧ EndTime b = Some e.
Proof.
  intros bs config. destruct (CompactBuckets_correct config bs) as (old & new & Hp & _ & Hif).
  - vm_compute. congruence.
  - repeat constructor; eexists; reflexivity.
  - destruct Hif as (Hlen & b & e & Hc & He & _). exists old, new.
    split; [done|]. split; [done|]. by exists b, e.
Defined.

(** The admissions that compaction merges are no longer counted: of n single-pod buckets,
    n above the threshold k ≥ 1, the compacted history counts exactly k, so that
    [EstimatedAvailable] takes back only k of n admissions. *)
Theorem CompactBuckets_forgets_counts `{!GoRuntime} (config : DefaultConfig.Computed)
    (bs : list PodProtectorAdmissionBucket) :
  (1 ≤ DefaultConfig.CompactThreshold config)%Z →
  (DefaultConfig.CompactThreshold config < Z.of_nat (length bs))%Z →
  Forall (λ b, is_Some (PodUid b) ∧ Counter b = None) bs →
  ∃ bs', PprUtil.CompactBuckets config bs = Ret bs' ∧
    sum_by bucket_count bs = Z.of_nat (length bs) ∧
    sum_by bucket_count bs' = DefaultConfig.CompactThreshold config.
Proof.
  intros Hthr Hlen Hall.
  assert (Hones : ∀ l, Forall (λ b, is_Some (PodUid b) ∧ Counter b = None) l →
    sum_by bucket_count l = Z.of_nat (length l)).
  { induction 1 as [|b l [_ Hb] _ IH]; [done|]. simpl length. simpl sum_by.
    rewrite IH. unfold bucket_count. rewrite Hb. simpl. lia. }
  rewrite CompactBuckets_eq; [|done|by eapply Forall_impl; [exact Hall|]; intros b [? _]; left].
  rewrite decide_False by lia. pose proof (sorted_buckets_perm bs) as Hp.
  assert (Hl : length (sorted_buckets bs) = length bs) by by rewrite Hp.
  pose proof Hall as Hall'. rewrite <- Hp in Hall'.
  destruct (sorted_buckets bs) as [|first rest]; [simpl in Hl; lia|].
  eexists. split; [done|]. split; [by apply Hones|].
  apply Forall_cons in Hall' as [[[u Hu] _] Hrest]. simpl. rewrite Hones by by apply Forall_drop.
  unfold bucket_count, compacted. rewrite Hu. simpl. rewrite length_drop. simpl in Hl. lia.
Qed.

Lemma CompactBuckets_forgets_counts_witness :
  let bs := [example_bucket 30%Z "c"; example_bucket 10%Z "a"; example_bucket 20%Z "b"] in
  let config := {| DefaultConfig.MaxConcurrentLag := 0; DefaultConfig.CompactThreshold := 2;
    DefaultConfig.AggregationRate := 0 |}%Z in
  ∃ bs', PprUtil.CompactBuckets config bs = Ret bs' ∧ sum_by bucket_count bs = 3%Z ∧
    sum_by bucket_count bs' = 2%Z.
Proof.
  intros bs config. apply (CompactBuckets_forgets_counts config bs); [done|done|].
  repeat constructor; eexists; reflexivity.
Defined.

(** A threshold that is not positive makes [CompactBuckets] index past the end of any
    history that is not empty. *)
Theorem CompactBuckets_threshold_panics `{!GoRuntime} (config : DefaultConfig.Computed)
    (bs : list PodProtectorAdmissionBucket) :
  (DefaultConfig.CompactThreshold config ≤ 0)%Z → bs ≠ [] →
  ∃ msg, PprUtil.CompactBuckets config bs = Panic msg.
Proof.
  intros Hthr Hne. unfold PprUtil.CompactBuckets. fold (sorted_buckets bs).
  assert (Hl : length (sorted_buckets bs) = length bs) by by rewrite sorted_buckets_perm.
  destruct (sorted_buckets bs) as [|first rest] eqn:Hs.
  { destruct bs; [done|]. simpl in Hl. lia. }
  rewrite (proj2 (Z.ltb_lt 0 _)) by (simpl length; lia).
  assert (Hloop : ∀ l c n, length (first :: rest) ∈ seq n l →
    ∃ msg, outcome_foldl (PprUtil.mergeBucket (first :: rest)) c (seq n l) = Panic msg).
  { induction l as [|l IH]; intros c n Hin; [by apply elem_of_nil in Hin|].
    simpl seq in *. cbn [outcome_foldl]. apply elem_of_cons in Hin as [Heq|Hin].
    - assert (PprUtil.mergeBucket (first :: rest) c n = Panic "index out of range") as ->; [|by eexists].
      unfold PprUtil.mergeBucket. destruct ((first :: rest) !! n) eqn:E; [|done].
      apply lookup_lt_Some in E. lia.
    - destruct (PprUtil.mergeBucket _ c n) as [c'|]; simpl; eauto. }
  match goal with |- context [outcome_foldl _ ?c (seq 1 ?n)] =>
    destruct (Hloop n c 1) as [msg ->] end; [|by exists msg].
  apply elem_of_seq. simpl length. lia.
Qed.

Lemma CompactBuckets_threshold_panics_witness :
  let config := {| DefaultConfig.MaxConcurrentLag := 0; DefaultConfig.CompactThreshold := 0;
    DefaultConfig.AggregationRate := 0 |}%Z in
  ∃ msg, PprUtil.CompactBuckets config [example_bucket 10%Z "a"] = Panic msg.
Proof. intros config. apply (CompactBuckets_threshold_panics config); [vm_compute|]; congruence. Defined.
