(* ===== verification/Quota.v ===== *)
(** * Quota: which disruptions of a batch are admitted

    [Module HealthCriterion] is webhook/handler/healthcriterion/type.go, [Module BatchItem]
    is webhook/handler/batchitem/result.go and [Module DisruptionQuota] is
    webhook/handler/disruptionquota/quota.go. *)

From S2P Require Import Prelude Util Errors Iter Canonical Api PprUtil.

Module HealthCriterion.

(** [Type]: a uint8 whose other values behave as [Unknown]. *)
Inductive Criterion : Type := Unknown | Scheduled | Running | Ready | Available.
#[global] Instance Criterion_eq_dec : EqDecision Criterion.
Proof. solve_decision. Defined.

Definition String (criterion : Criterion) : string :=
  match criterion with
  | Scheduled => "Scheduled"
  | Running => "Running"
  | Ready => "Ready"
  | Available => "Available"
  | Unknown => "Unknown"
  end.

End HealthCriterion.

Module BatchItem.

(** [Result]: the zero value and the values without a name are [ResultUnknown]. *)
Inductive Result : Type :=
| ResultUnknown
| ResultNewDisruption
| ResultNoPpr
| ResultAlreadyUnhealthy
| ResultAlreadyHasBucket
| ResultNeedRetry
| ResultRejected.
#[global] Instance Result_eq_dec : EqDecision Result.
Proof. solve_decision. Defined.

Definition String (result : Result) : string :=
  match result with
  | ResultNewDisruption => "NewDisruption"
  | ResultNoPpr => "NoPpr"
  | ResultAlreadyUnhealthy => "AlreadyUnhealthy"
  | ResultAlreadyHasBucket => "AlreadyHasBucket"
  | ResultNeedRetry => "NeedRetry"
  | ResultRejected => "Rejected"
  | ResultUnknown => "Unknown"
  end.

End BatchItem.

Module DisruptionQuota.

Record PodStatus : Type := {
  HealthCriterion_ : HealthCriterion.Criterion;
  Status : Pod.PodStatus
}.

Record Threshold_ : Type := {
  Reject : Z;
  Retry : Z;
  Remaining : option Z
}.

Record State : Type := {
  Scheduled : Z;
  Running : Z;
  Ready : Z;
  Available : Z;
  Threshold : Threshold_
}.

Definition MakeState (ppr : PodProtector) (config : DefaultConfig.Computed) : State :=
  let summary := Summary (Api.Status ppr) in
  let lag := wrap32 (AggregatedAvailable summary - EstimatedAvailable summary) in {|
    Scheduled := AggregatedScheduled summary;
    Running := AggregatedRunning summary;
    Ready := AggregatedReady summary;
    Available := AggregatedAvailable summary;
    Threshold := {|
      Reject := MinAvailable (Spec ppr);
      Retry := wrap32 (MinAvailable (Spec ppr) + lag);
      Remaining := Optional.Map (Optional.IfNonZero (DefaultConfig.MaxConcurrentLag config))
        (λ maxLag, wrap32 (maxLag - lag))
    |}
  |}.

Inductive Result : Type :=
| DisruptionResultOk
| DisruptionResultAlreadyUnhealthy
| DisruptionResultRetry
| DisruptionResultDenied.
#[global] Instance Result_eq_dec : EqDecision Result.
Proof. solve_decision. Defined.

Definition ShouldDisrupt (result : Result) : bool :=
  bool_decide (result = DisruptionResultOk) || bool_decide (result = DisruptionResultAlreadyUnhealthy).

Definition String (result : Result) : string :=
  match result with
  | DisruptionResultOk => "Ok"
  | DisruptionResultAlreadyUnhealthy => "AlreadyUnhealthy"
  | DisruptionResultRetry => "Retry"
  | DisruptionResultDenied => "Denied"
  end.

Definition getResultForCriterion (current : Z) (isContributor : bool) (threshold : Threshold_) : Result :=
  if negb isContributor then DisruptionResultAlreadyUnhealthy
  else if (current <=? Reject threshold)%Z then DisruptionResultDenied
  else if (current <=? Retry threshold)%Z then DisruptionResultRetry
  else DisruptionResultOk.

Definition getResult (state : State) (podStatus : PodStatus) : Result :=
  if bool_decide (Remaining (Threshold state) = Some 0%Z) then DisruptionResultRetry
  else
    match HealthCriterion_ podStatus with
    | HealthCriterion.Scheduled =>
        getResultForCriterion (Scheduled state) (Pod.IsScheduled (Status podStatus)) (Threshold state)
    | HealthCriterion.Running =>
        getResultForCriterion (Running state) (Pod.IsRunning (Status podStatus)) (Threshold state)
    | HealthCriterion.Ready =>
        getResultForCriterion (Ready state) (Pod.IsReady (Status podStatus)) (Threshold state)
    | HealthCriterion.Available | HealthCriterion.Unknown =>
        getResultForCriterion (Available state) (Pod.IsAvailable (Status podStatus)) (Threshold state)
    end.

(** The decrement of [Remaining] goes through the pointer that [GetValueRefOrNil] returns,
    into a copy of the optional. *)
Definition disruptState (state : State) (podStatus : PodStatus) : State :=
  let dec (b : bool) (z : Z) := if b then wrap32 (z - 1) else z in
  {| Scheduled := dec (Pod.IsScheduled (Status podStatus)) (Scheduled state);
     Running := dec (Pod.IsRunning (Status podStatus)) (Running state);
     Ready := dec (Pod.IsReady (Status podStatus)) (Ready state);
     Available := dec (Pod.IsAvailable (Status podStatus)) (Available state);
     Threshold := {|
       Reject := Reject (Threshold state);
       Retry := Retry (Threshold state);
       Remaining := (Optional.UpdateThroughRefOrNil (Remaining (Threshold state))
         (λ threshold, wrap32 (threshold - 1))).1
     |} |}.

Definition AdmitBatchItem (state : State) (podStatus : PodStatus) : State * Result :=
  let result := getResult state podStatus in
  (if ShouldDisrupt result then disruptState state podStatus else state, result).

(** The loop from the last index down to 0: the results of a suffix are known before
    the item in front of it is admitted. *)
Fixpoint admitLoop (state : State) (podStatuses : list PodStatus) : State * list Result :=
  match podStatuses with
  | [] => (state, [])
  | podStatus :: podStatuses =>
      let '(state, results) := admitLoop state podStatuses in
      let '(state, result) := AdmitBatchItem state podStatus in
      (state, result :: results)
  end.

Definition AdmitBatch (ppr : PodProtector) (podStatuses : list PodStatus)
    (config : DefaultConfig.Computed) : list Result :=
  (admitLoop (MakeState ppr config) podStatuses).2.

End DisruptionQuota.

(** ** Lemmas *)
Section quota.
Import DisruptionQuota.
Implicit Types (s : State) (p : PodStatus) (ps : list PodStatus).

(** The counter of a criterion, and whether a pod contributes to it. *)
Definition current (c : HealthCriterion.Criterion) s : Z :=
  match c with
  | HealthCriterion.Scheduled => Scheduled s
  | HealthCriterion.Running => Running s
  | HealthCriterion.Ready => Ready s
  | _ => Available s
  end.
Definition contributes (c : HealthCriterion.Criterion) p : bool :=
  match c with
  | HealthCriterion.Scheduled => Pod.IsScheduled (Status p)
  | HealthCriterion.Running => Pod.IsRunning (Status p)
  | HealthCriterion.Ready => Pod.IsReady (Status p)
  | _ => Pod.IsAvailable (Status p)
  end.

Lemma getResult_eq s p :
  Remaining (Threshold s) ≠ Some 0%Z →
  getResult s p = getResultForCriterion (current (HealthCriterion_ p) s)
    (contributes (HealthCriterion_ p) p) (Threshold s).
Proof. intros Hr. unfold getResult. rewrite bool_decide_eq_false_2 by done. by destruct (HealthCriterion_ p). Qed.

Lemma disruptState_threshold s p : Threshold (disruptState s p) = Threshold s.
Proof.
  unfold disruptState, Optional.UpdateThroughRefOrNil, Optional.GetValueRefOrNil. simpl.
  destruct (Threshold s) as [a b [r|]]; done.
Qed.

Lemma AdmitBatchItem_threshold s p : Threshold (AdmitBatchItem s p).1 = Threshold s.
Proof. unfold AdmitBatchItem. simpl. destruct (ShouldDisrupt _); [apply disruptState_threshold|done]. Qed.

Lemma admitLoop_threshold s ps : Threshold (admitLoop s ps).1 = Threshold s.
Proof.
  induction ps as [|p ps IH]; simpl; [done|]. destruct (admitLoop s ps) as [s' rs].
  simpl in *. rewrite <- IH. apply (AdmitBatchItem_threshold s' p).
Qed.

Lemma current_disrupt c s p :
  current c (disruptState s p) = if contributes c p then wrap32 (current c s - 1) else current c s.
Proof. by destruct c. Qed.

(** Whether an item uses criterion [c]; the unknown criterion counts as [Available]. *)
Definition same_criterion (c : HealthCriterion.Criterion) p : Prop :=
  HealthCriterion_ p = c ∨
  (c = HealthCriterion.Available ∧ HealthCriterion_ p = HealthCriterion.Unknown).

Lemma same_criterion_eq c p s :
  same_criterion c p →
  current (HealthCriterion_ p) s = current c s ∧ contributes (HealthCriterion_ p) p = contributes c p.
Proof. intros [->|[-> ->]]; done. Qed.

Definition contributors (c : HealthCriterion.Criterion) ps : Z :=
  Z.of_nat (length (filter (λ p, contributes c p = true) ps)).

Lemma contributors_cons c p ps :
  contributors c (p :: ps) = ((if contributes c p then 1 else 0) + contributors c ps)%Z.
Proof.
  unfold contributors. destruct (contributes c p) eqn:Hp.
  - rewrite filter_cons_True by done. simpl. lia.
  - rewrite filter_cons_False by congruence. lia.
Qed.

(** The value of the counter when j contributors behind an item were examined. *)
Definition counter_after (cur retry j : Z) : Z := Z.max (cur - j) (Z.min cur retry).

Lemma admitLoop_counter c s ps :
  Remaining (Threshold s) ≠ Some 0%Z → Forall (same_criterion c) ps →
  (MinInt32 ≤ Retry (Threshold s) ∧ MinInt32 ≤ Reject (Threshold s) ≤ Retry (Threshold s))%Z →
  in_int32 (current c s) →
  current c (admitLoop s ps).1 =
    counter_after (current c s) (Retry (Threshold s)) (contributors c ps).
Proof.
  intros Hr Hall Hthr Hcur. induction Hall as [|p ps Hp _ IH].
  { simpl. unfold counter_after, contributors. simpl. lia. }
  simpl. pose proof (admitLoop_threshold s ps) as Ht. destruct (admitLoop s ps) as [s' rs]. simpl in *.
  rewrite contributors_cons. unfold AdmitBatchItem. simpl.
  rewrite getResult_eq by congruence.
  destruct (same_criterion_eq c p s' Hp) as [-> ->].
  assert (Hn : (0 ≤ contributors c ps)%Z) by (unfold contributors; lia).
  unfold getResultForCriterion. destruct (contributes c p) eqn:Hc; simpl.
  2:{ rewrite current_disrupt, Hc, IH. done. }
  rewrite IH, Ht. unfold in_int32, counter_after in *.
  destruct (Z.leb_spec (Z.max (current c s - contributors c ps)
    (Z.min (current c s) (Retry (Threshold s)))) (Reject (Threshold s))); simpl; [lia|].
  destruct (Z.leb_spec (Z.max (current c s - contributors c ps)
    (Z.min (current c s) (Retry (Threshold s)))) (Retry (Threshold s))); simpl; [lia|].
  rewrite current_disrupt, Hc, IH, wrap32_id; [lia|]. unfold in_int32. lia.
Qed.

(** The results of a batch in closed form. *)
Fixpoint expected_results (c : HealthCriterion.Criterion) (cur : Z) (thr : Threshold_) ps : list Result :=
  match ps with
  | [] => []
  | p :: ps =>
      getResultForCriterion (counter_after cur (Retry thr) (contributors c ps)) (contributes c p) thr
      :: expected_results c cur thr ps
  end.

Lemma admitLoop_results c s ps :
  Remaining (Threshold s) ≠ Some 0%Z → Forall (same_criterion c) ps →
  (MinInt32 ≤ Retry (Threshold s) ∧ MinInt32 ≤ Reject (Threshold s) ≤ Retry (Threshold s))%Z →
  in_int32 (current c s) →
  (admitLoop s ps).2 = expected_results c (current c s) (Threshold s) ps.
Proof.
  intros Hr Hall Hthr Hcur. induction Hall as [|p ps Hp Hps IH]; simpl; [done|].
  pose proof (admitLoop_threshold s ps) as Ht. pose proof (admitLoop_counter c s ps Hr Hps Hthr Hcur) as Hc.
  destruct (admitLoop s ps) as [s' rs]. simpl in *. f_equal; [|done].
  rewrite getResult_eq by congruence. destruct (same_criterion_eq c p s' Hp) as [-> ->]. congruence.
Qed.

Definition count_ok (rs : list Result) : Z :=
  Z.of_nat (length (filter (λ r, r = DisruptionResultOk) rs)).

Lemma count_ok_cons r rs :
  count_ok (r :: rs) = ((if decide (r = DisruptionResultOk) then 1 else 0) + count_ok rs)%Z.
Proof.
  unfold count_ok. case_decide.
  - rewrite filter_cons_True by done. simpl. lia.
  - by rewrite filter_cons_False by done.
Qed.

Lemma expected_results_count c cur thr ps :
  (Reject thr ≤ Retry thr)%Z →
  count_ok (expected_results c cur thr ps) = Z.min (contributors c ps) (Z.max 0 (cur - Retry thr)).
Proof.
  intros Hthr. induction ps as [|p ps IH]; simpl.
  { unfold count_ok, contributors. simpl. lia. }
  rewrite count_ok_cons, IH, contributors_cons.
  assert (Hn : (0 ≤ contributors c ps)%Z) by (unfold contributors; lia).
  unfold getResultForCriterion, counter_after. destruct (contributes c p); simpl; [|lia].
  repeat match goal with |- context [(?a <=? ?b)%Z] => destruct (Z.leb_spec a b) end;
    rewrite ?decide_True, ?decide_False by done; lia.
Qed.

(** The surplus that a batch may use, in terms of the summary. *)
Lemma AdmitBatch_spec (ppr : PodProtector) (config : DefaultConfig.Computed) c ps :
  let summary := Summary (Api.Status ppr) in
  let s := MakeState ppr config in
  let lag := (AggregatedAvailable summary - EstimatedAvailable summary)%Z in
  Forall (same_criterion c) ps → Remaining (Threshold s) ≠ Some 0%Z →
  (0 ≤ MinAvailable (Spec ppr) ∧ 0 ≤ lag ∧ MinAvailable (Spec ppr) + lag ≤ MaxInt32)%Z →
  in_int32 (current c s) →
  AdmitBatch ppr ps config = expected_results c (current c s) (Threshold s) ps ∧
  count_ok (AdmitBatch ppr ps config) =
    Z.min (contributors c ps) (Z.max 0 (current c s - (MinAvailable (Spec ppr) + lag))).
Proof.
  intros summary s lag Hall Hrem Hb Hcur.
  assert (Hlag : wrap32 lag = lag) by (apply wrap32_id; unfold in_int32, MinInt32, MaxInt32 in *; lia).
  assert (Hretry : Retry (Threshold s) = (MinAvailable (Spec ppr) + lag)%Z).
  { subst s. simpl. fold summary. fold lag. rewrite Hlag. apply wrap32_id.
    unfold in_int32, MinInt32, MaxInt32 in *. lia. }
  assert (Hreject : Reject (Threshold s) = MinAvailable (Spec ppr)) by done.
  assert (Hres : AdmitBatch ppr ps config = expected_results c (current c s) (Threshold s) ps).
  { apply admitLoop_results; try done. rewrite Hretry, Hreject. unfold MinInt32. lia. }
  split; [done|]. rewrite Hres, expected_results_count, Hretry; [done|]. rewrite Hretry, Hreject. lia.
Qed.

(** When the lag is exhausted exactly, nothing is admitted. *)
Lemma admitLoop_exhausted s ps : Remaining (Threshold s) = Some 0%Z → (admitLoop s ps).1 = s ∧ count_ok (admitLoop s ps).2 = 0%Z.
Proof.
  intros Hr. induction ps as [|p ps [IHs IHc]]; [done|]. cbn [admitLoop]. destruct (admitLoop s ps) as [s' rs]. cbn in IHs, IHc. subst s'.
  unfold AdmitBatchItem, getResult. rewrite bool_decide_eq_true_2 by done. cbn. by rewrite count_ok_cons, decide_False.
Qed.

(** The lag is not exhausted exactly: it is not limited, or it differs from the limit. *)
Lemma Remaining_nonzero (ppr : PodProtector) (config : DefaultConfig.Computed) :
  let summary := Summary (Api.Status ppr) in
  let lag := (AggregatedAvailable summary - EstimatedAvailable summary)%Z in
  let max := DefaultConfig.MaxConcurrentLag config in
  (max = 0 ∨ in_int32 (max - lag) ∧ max ≠ lag)%Z → in_int32 lag →
  Remaining (Threshold (MakeState ppr config)) ≠ Some 0%Z.
Proof.
  intros summary lag max Hmax Hlag. simpl. fold summary lag max. rewrite (wrap32_id lag) by done.
  unfold Optional.IfNonZero. case_bool_decide as Hz; simpl; [done|].
  destruct Hmax as [?|[Hi Hne]]; [done|]. rewrite wrap32_id by done. intros [= ?]. lia.
Qed.

(** *** The lag as it is documented

    [Remaining]: how many additional disruptions can be made. Here the loop takes each disruption off it. *)
Definition with_Remaining s (r : option Z) : State := {|
  Scheduled := Scheduled s; Running := Running s; Ready := Ready s; Available := Available s;
  Threshold := {| Reject := Reject (Threshold s); Retry := Retry (Threshold s); Remaining := r |} |}.
Fixpoint limited_loop s ps : State * list Result :=
  match ps with
  | [] => (s, [])
  | p :: ps =>
      let '(s, results) := limited_loop s ps in
      let result := getResult s p in
      (if ShouldDisrupt result then with_Remaining (disruptState s p) (Z.pred <$> Remaining (Threshold s)) else s,
       result :: results)
  end.
Definition lag_allows s (n : nat) : Prop :=
  match Remaining (Threshold s) with Some r => (Z.of_nat n ≤ r)%Z | None => True end.
Definition disruptions (rs : list Result) : Z := Z.of_nat (length (filter (λ r, ShouldDisrupt r = true) rs)).

Lemma length_admitLoop s ps : length (admitLoop s ps).2 = length ps.
Proof.
  induction ps as [|p ps IH]; simpl; [done|]. destruct (admitLoop s ps) as [s' rs].
  simpl in *. by rewrite IH.
Qed.

Lemma length_disruptions rs : (disruptions rs ≤ Z.of_nat (length rs))%Z.
Proof. unfold disruptions. apply inj_le, length_filter. Qed.
Lemma lag_allows_nonzero s n : lag_allows s (S n) → Remaining (Threshold s) ≠ Some 0%Z.
Proof. unfold lag_allows. intros Hl Hr. rewrite Hr in Hl. lia. Qed.

(** While there is room the two loops agree, up to what remains. *)
Lemma limited_loop_spec s ps :
  lag_allows s (length ps) →
  (admitLoop s ps).2 = (limited_loop s ps).2 ∧
  (admitLoop s ps).1 = with_Remaining (limited_loop s ps).1 (Remaining (Threshold s)) ∧
  ∀ n, lag_allows s (length ps + n) → lag_allows (limited_loop s ps).1 n.
Proof.
  intros Hlag. induction ps as [|p ps IH].
  { split; [done|]. split; [by destruct s as [???? []]|done]. }
  assert (Hlag' : lag_allows s (length ps)) by (unfold lag_allows in *; cbn [length] in Hlag; destruct (Remaining _); [lia|done]).
  destruct (IH Hlag') as (Hres & Hs & Hn). pose proof (Hn 1 ltac:(by rewrite Nat.add_1_r)) as Hone.
  pose proof (admitLoop_threshold s ps) as Ht. cbn [admitLoop limited_loop]. destruct (admitLoop s ps) as [s1 rs1], (limited_loop s ps) as [s2 rs2].
  cbn [fst snd] in *. subst rs2 s1. unfold AdmitBatchItem. cbn [fst snd].
  assert (Hget : getResult (with_Remaining s2 (Remaining (Threshold s))) p = getResult s2 p).
  { rewrite !getResult_eq; [by destruct (HealthCriterion_ p)|by eapply lag_allows_nonzero, Hone|]. by eapply lag_allows_nonzero, Hlag. }
  rewrite Hget. split; [done|]. split.
  - destruct (ShouldDisrupt _); [|done]. unfold disruptState, with_Remaining. cbn. f_equal. f_equal.
    by destruct (Remaining (Threshold s)).
  - intros n Hl. specialize (Hn (S n)). cbn [length] in Hl. rewrite Nat.add_succ_r in Hn. specialize (Hn Hl).
    destruct (ShouldDisrupt _); unfold lag_allows in *; cbn; destruct (Remaining (Threshold s2)); cbn in *; (done || lia).
Qed.
Lemma limited_loop_eq (ppr : PodProtector) (config : DefaultConfig.Computed) ps :
  lag_allows (MakeState ppr config) (length ps) → AdmitBatch ppr ps config = (limited_loop (MakeState ppr config) ps).2.
Proof. intros Hl. by apply limited_loop_spec. Qed.

End quota.

(** ** Properties *)

(** C6. The admissions of a batch, for pods that are judged by one health criterion and when the remaining lag, if it is
    limited, has room for the whole batch: the items are examined from the last to the first, and the
    result of an item is the comparison of the thresholds with the counter less the healthy
    pods behind it, which stops falling at the retry threshold. These are the results of a loop that takes every disruption off
    the remaining lag, as it is documented, and no more disruptions are made than remain. The number of admitted
    healthy pods is the smaller of the healthy pods of the batch and the surplus of the
    counter over the retry threshold, so the availability that is estimated after the batch
    does not fall below [MinAvailable]. *)
Theorem AdmitBatch_correct (ppr : PodProtector) (config : DefaultConfig.Computed)
    (c : HealthCriterion.Criterion) (podStatuses : list DisruptionQuota.PodStatus) :
  let summary := Summary (Api.Status ppr) in
  let s := DisruptionQuota.MakeState ppr config in
  let min := MinAvailable (Spec ppr) in
  let lag := (AggregatedAvailable summary - EstimatedAvailable summary)%Z in
  Forall (same_criterion c) podStatuses → lag_allows s (length podStatuses) →
  (0 ≤ min ∧ 0 ≤ lag ∧ min + lag ≤ MaxInt32)%Z → in_int32 (current c s) →
  let results := DisruptionQuota.AdmitBatch ppr podStatuses config in
  results = (limited_loop s podStatuses).2 ∧
  results = expected_results c (current c s) (DisruptionQuota.Threshold s) podStatuses ∧
  count_ok results = Z.min (contributors c podStatuses) (Z.max 0 (current c s - (min + lag))) ∧
  (∀ r, DisruptionQuota.Remaining (DisruptionQuota.Threshold s) = Some r → (disruptions results ≤ r)%Z) ∧
  (c = HealthCriterion.Available → (0 < count_ok results)%Z →
   (min ≤ EstimatedAvailable summary - count_ok results)%Z).
Proof.
  intros summary s min lag Hall Hrem Hb Hcur results. split; [by apply limited_loop_eq|].
  assert (Hlimit : ∀ r, DisruptionQuota.Remaining (DisruptionQuota.Threshold s) = Some r → (disruptions results ≤ r)%Z).
  { intros r Hr. unfold lag_allows in Hrem. rewrite Hr in Hrem. pose proof (length_disruptions results) as Hd.
    assert (Hlen : length results = length podStatuses) by apply length_admitLoop. rewrite Hlen in Hd. lia. }
  destruct podStatuses as [|p ps]; [unfold contributors, count_ok; split; [done|]; split; [cbn; lia|]; split; [done|cbn; lia]|].
  set (podStatuses := p :: ps) in *.
  destruct (AdmitBatch_spec ppr config c podStatuses Hall (lag_allows_nonzero s _ Hrem) Hb Hcur) as [Hres Hcount].
  fold summary s lag min results in Hres, Hcount.
  split; [done|]. split; [done|]. split; [done|]. intros -> Hpos.
  assert (current HealthCriterion.Available s = AggregatedAvailable summary) as Ha by done. lia.
Qed.

Definition example_pod (available : bool) : DisruptionQuota.PodStatus := {|
  DisruptionQuota.HealthCriterion_ := HealthCriterion.Available;
  DisruptionQuota.Status := {| Pod.IsScheduled := true; Pod.IsRunning := true; Pod.IsReady := available;
    Pod.IsAvailable := available |} |}.
Definition example_summarized (min agg est : Z) : PodProtector :=
  with_Summary (example_ppr min []) {| Total := agg; AggregatedAvailable := agg; MaxLatencyMillis := 0;
    EstimatedAvailable := est; AggregatedReady := agg; AggregatedScheduled := agg; AggregatedRunning := agg |}%Z.

Definition example_lag (max : Z) : DefaultConfig.Computed :=
  {| DefaultConfig.MaxConcurrentLag := max; DefaultConfig.CompactThreshold := 100; DefaultConfig.AggregationRate := 0 |}%Z.

(** Of three available pods with a surplus of two, the last two are admitted; the limit leaves room for four disruptions. *)
Lemma AdmitBatch_correct_witness :
  count_ok (DisruptionQuota.AdmitBatch (example_summarized 3 6 5)
    [example_pod true; example_pod true; example_pod false; example_pod true] (example_lag 5)) = 2%Z.
Proof.
  pose proof (AdmitBatch_correct (example_summarized 3 6 5) (example_lag 5) HealthCriterion.Available
    [example_pod true; example_pod true; example_pod false; example_pod true]) as Hw.
  cbv zeta in Hw. destruct Hw as (_ & _ & Hw & _).
  - repeat constructor.
  - vm_compute. congruence.
  - vm_compute. repeat split; congruence.
  - vm_compute. repeat split; congruence.
  - rewrite Hw. vm_compute. reflexivity.
Defined.

(** [MaxConcurrentLag] does not bound a batch: admitting an item never lowers the remaining
    lag, so with one disruption left any number of unhealthy pods, and of healthy pods
    above the thresholds, is admitted in one batch. *)
Theorem AdmitBatch_ignores_lag (s : DisruptionQuota.State) (podStatuses : list DisruptionQuota.PodStatus) :
  let '(s', results) := DisruptionQuota.admitLoop s podStatuses in
  DisruptionQuota.Remaining (DisruptionQuota.Threshold s') =
    DisruptionQuota.Remaining (DisruptionQuota.Threshold s) ∧
  (DisruptionQuota.Remaining (DisruptionQuota.Threshold s) ≠ Some 0%Z →
   ∀ i p, podStatuses !! i = Some p → contributes (DisruptionQuota.HealthCriterion_ p) p = false →
     results !! i = Some DisruptionQuota.DisruptionResultAlreadyUnhealthy).
Proof.
  pose proof (admitLoop_threshold s podStatuses) as Ht.
  destruct (DisruptionQuota.admitLoop s podStatuses) as [s' results] eqn:Hloop. simpl in Ht.
  split; [by rewrite Ht|]. intros Hr. revert s' results Ht Hloop.
  induction podStatuses as [|p0 ps IH]; intros s' results Ht Hloop i p Hi Hp; [done|].
  simpl in Hloop. pose proof (admitLoop_threshold s ps) as Ht1.
  destruct (DisruptionQuota.admitLoop s ps) as [s1 rs]. simpl in Ht1.
  unfold DisruptionQuota.AdmitBatchItem in Hloop. injection Hloop as <- <-.
  destruct i as [|i]; simpl in *; [|by apply (IH s1 rs Ht1 eq_refl i p)].
  simplify_eq. rewrite getResult_eq by congruence. unfold DisruptionQuota.getResultForCriterion. by rewrite Hp.
Qed.

(** When the lag is exhausted exactly, every item is told to retry, an unhealthy pod too;
    when it is exceeded, it is not looked at any more. *)
Theorem Remaining_zero_retries_unhealthy (s : DisruptionQuota.State) (p : DisruptionQuota.PodStatus) (r : Z) :
  DisruptionQuota.Remaining (DisruptionQuota.Threshold s) = Some r →
  contributes (DisruptionQuota.HealthCriterion_ p) p = false →
  DisruptionQuota.getResult s p =
    if decide (r = 0%Z) then DisruptionQuota.DisruptionResultRetry
    else DisruptionQuota.DisruptionResultAlreadyUnhealthy.
Proof.
  intros Hr Hp. case_decide as Hz.
  - subst. unfold DisruptionQuota.getResult. by rewrite Hr, bool_decide_eq_true_2.
  - rewrite getResult_eq by congruence. unfold DisruptionQuota.getResultForCriterion. by rewrite Hp.
Qed.

Lemma Remaining_zero_retries_unhealthy_witness :
  DisruptionQuota.getResult (DisruptionQuota.MakeState (example_summarized 3 6 5) (example_lag 1)) (example_pod false) =
    if decide (0%Z = 0%Z) then DisruptionQuota.DisruptionResultRetry
    else DisruptionQuota.DisruptionResultAlreadyUnhealthy.
Proof. apply Remaining_zero_retries_unhealthy; reflexivity. Defined.
