(* ===== verification/RetryBatch.v ===== *)
(** * RetryBatch: batches of operations per key, with retries (util/retrybatch)

    [Module FusedRC] is util/retrybatch/fusedrc/fusedrc.go. [Module RetryBatch] is
    messages.go and the sequential parts of pool.go: what one batch goroutine does with a
    batch; the concurrency of pool.go is in the file [Pool]. The observers only report. *)

From S2P Require Import Prelude Util Errors Iter.

(** ** fusedrc *)
Module FusedRC.

(** The atomic int32; an operation returns its new value and, unless it panics, its result. *)
Definition Counter : Type := Z.
Definition New : Counter := 0%Z.

Definition Acquire (rc : Counter) : Counter * outcome bool :=
  let newValue := wrap32 (rc + 1) in
  (newValue,
   if (0 <? newValue)%Z then Ret true
   else if (newValue =? 0)%Z then Panic "too many acquire attempts after fuse"
   else if (newValue =? MinInt32)%Z then Panic "too many concurrent acquisitions"
   else Ret false).

Definition Release (rc : Counter) : Counter * outcome unit :=
  let newValue := wrap32 (rc - 1) in
  (newValue, if (newValue <? 0)%Z then Panic "double release detected" else Ret tt).

Definition fusedInitValue : Z := (- Z.shiftl 1 30)%Z.

(** [CompareAndSwap(0, fusedInitValue)]. *)
Definition Fuse (rc : Counter) : Counter * bool :=
  if (rc =? 0)%Z then (fusedInitValue, true) else (rc, false).

End FusedRC.

(** ** messages.go and the batches of pool.go *)
Module RetryBatch.

Section batch.
Context {Key Arg Result : Type} `{!Zero Result}.

(** [resultCh] is a channel that its submitter owns: its identity. *)
Record operationRequest : Type := { arg : Arg; retries : Z; resultCh : nat }.

Record submitResult : Type := { SubmitResult : Result; Retries : Z; Err : option error }.

Definition errorSubmitResult (retries : Z) (err : error) : submitResult :=
  {| SubmitResult := zero; Retries := retries; Err := Some err |}.

(** The success function is indexed by the position in the batch. *)
Inductive ExecuteResult : Type :=
| ExecuteResultSuccess (resultFn : nat → outcome Result)
| ExecuteResultNeedRetry (retryDelay : Duration)
| ExecuteResultErr (err : option error).

(** A send to a result channel. *)
Definition reply : Type := nat * submitResult.

(** [DrainSliceUnordered] with a predicate that acts on variables of type [S]. *)
Fixpoint drain_swap_with {T S} (predicate : T → S → bool * S) (fuel i : nat) (slice : list T) (s : S) :
    outcome (list T * S) :=
  match slice !! i with
  | None => Ret (slice, s)
  | Some item =>
      match fuel with
      | O => Panic "out of fuel"
      | Datatypes.S fuel =>
          let '(keep, s) := predicate item s in
          if keep : bool then drain_swap_with predicate fuel (Datatypes.S i) slice s
          else slice' ← Slices.SwapRemove slice i; drain_swap_with predicate fuel i slice' s
      end
  end.

Section execute.
(** [ctxErr request] is what [request.ctxErr()] answers during this check. *)
Variable ctxErr : operationRequest → option error.

(** The first part of [executeBatch]: drop the canceled requests and answer them. *)
Definition checkCanceled (batch : list operationRequest) :
    outcome (list operationRequest * list reply) :=
  drain_swap_with (λ request sent,
    match ctxErr request with
    | None => (true, sent)
    | Some err =>
        (false, sent ++ [(resultCh request, errorSubmitResult (retries request)
          (TagWrapf "OpCtxCancelDuringRetry" (Some err)
            "operation context canceled while waiting for retry batch"))])
    end) (length batch) 0 batch [].

Definition incrementRetries (batch : list operationRequest) : list operationRequest :=
  Slices.ForEachRef batch (λ req,
    {| arg := arg req; retries := (retries req + 1)%Z; resultCh := resultCh req |}).

(** [for i, request := range *batch { request.resultCh <- ... result.Success(i) }]. *)
Fixpoint sendSuccess (resultFn : nat → outcome Result) (i : nat) (batch : list operationRequest) :
    outcome (list reply) :=
  match batch with
  | [] => Ret []
  | request :: batch =>
      r ← resultFn i;
      sent ← sendSuccess resultFn (S i) batch;
      Ret ((resultCh request, {| SubmitResult := r; Retries := retries request; Err := None |}) :: sent)
  end.

(** The switch of [tryExecuteBatch] on the result of the adapter. *)
Definition dispatchResult (result : ExecuteResult) (batch : list operationRequest) :
    outcome (option Duration * list operationRequest * list reply) :=
  match result with
  | ExecuteResultSuccess resultFn =>
      sent ← sendSuccess resultFn 0 batch;
      Ret (None, batch, sent)
  | ExecuteResultNeedRetry delay => Ret (Some delay, batch, [])
  | ExecuteResultErr err =>
      let sent := (λ request, (resultCh request, errorSubmitResult (retries request)
        (TagWrapf "ExecuteError" err "error executing retry batch"))) <$> batch in
      Ret (None, Slices.ClearSlice batch, sent)
  end.

(** [adapter.Execute] acts on the world [W]. *)
Context {W : Type}.
Variable Execute : Key → list Arg → W → outcome (ExecuteResult * W).

Definition tryExecuteBatch (key : Key) (batch : list operationRequest) (w : W) :
    outcome (option Duration * list operationRequest * list reply * W) :=
  if length batch =? 0 then Ret (None, batch, [], w)
  else
    let args := Slices.MapSlice batch arg in
    let batch := incrementRetries batch in
    '(result, w) ← Execute key args w;
    '(nextExecute, batch, sent) ← dispatchResult result batch;
    Ret (nextExecute, batch, sent, w).

Definition executeBatch (key : Key) (batch : list operationRequest) (w : W) :
    outcome (option Duration * list operationRequest * list reply * W) :=
  '(batch, canceled) ← checkCanceled batch;
  '(nextExecute, batch, sent, w) ← tryExecuteBatch key batch w;
  Ret (nextExecute, batch, canceled ++ sent, w).

End execute.

(** The replies of [processBatch] when the context of the pool ends. *)
Definition cancelBatch (ctxErr : error) (batch : list operationRequest) : list reply :=
  (λ request, (resultCh request, errorSubmitResult (retries request)
    (TagWrapf "PoolCtxCancel" (Some ctxErr)
      "pool context canceled while waiting for retry batch"))) <$> batch.

End batch.
Arguments operationRequest Arg : clear implicits.
Arguments submitResult Result : clear implicits.
Arguments ExecuteResult Result : clear implicits.
Arguments reply Result : clear implicits.

End RetryBatch.

(** ** Lemmas on batches *)
Section batch_lemmas.
Context {Key Arg Result : Type} `{!Zero Result}.
Import RetryBatch.
Implicit Types (batch : list (operationRequest Arg)).

Lemma drain_swap_with_spec {T S} (p : T → S → bool * S)
    (f : T → bool) (g : T → S → S) fuel i (l : list T) s :
  (∀ x s, p x s = (f x, g x s)) →
  length l ≤ i + fuel → i ≤ length l →
  ∃ l' visited, drain_swap_with p fuel i l s = Ret (l', foldl (λ s x, g x s) s visited) ∧
    l' ≡ₚ take i l ++ filter (λ x, f x = true) (drop i l) ∧ visited ≡ₚ drop i l.
Proof.
  intros Hp. revert i l s. induction fuel as [|fuel IH]; intros i l s Hfuel Hi; simpl.
  all: destruct (l !! i) as [x|] eqn:Hx.
  - apply lookup_lt_Some in Hx. lia.
  - apply lookup_ge_None in Hx. exists l, []. split; [done|].
    by rewrite take_ge, drop_ge, filter_nil, app_nil_r by lia.
  - apply lookup_lt_Some in Hx as Hlt. rewrite (drop_S l x i Hx), Hp. destruct (f x) eqn:Hfx.
    + destruct (IH (Datatypes.S i) l (g x s)) as (l' & vis & -> & Hperm & Hvis); [lia..|].
      exists l', (x :: vis). split; [done|]. rewrite filter_cons_True, Hvis by done. split; [|done].
      by rewrite Hperm, (take_S_r _ _ x), <- app_assoc by done.
    + destruct (SwapRemove_spec l i x Hx) as (l1 & -> & Hl1 & Htake & Hlen). simpl.
      destruct (IH i l1 (g x s)) as (l' & vis & -> & Hperm & Hvis); [lia..|].
      exists l', (x :: vis). split; [done|]. rewrite filter_cons_False by congruence.
      assert (Hdrop : drop i l1 ≡ₚ drop (Datatypes.S i) l).
      { apply (Permutation_app_inv_l (x :: take i l1)). rewrite <- app_comm_cons, take_drop, <- Hl1, Htake.
        rewrite <- (take_drop_middle l i x Hx) at 1. by rewrite <- app_comm_cons, Permutation_middle. }
      rewrite Hperm, Htake, Hvis, Hdrop. split; [|done]. done.
  - apply lookup_ge_None in Hx. exists l, []. split; [done|].
    by rewrite take_ge, drop_ge, filter_nil, app_nil_r by lia.
Qed.

Definition is_canceled (ctxErr : operationRequest Arg → option error) (r : operationRequest Arg) : bool :=
  Optional.IsSome (ctxErr r).

Lemma checkCanceled_spec (ctxErr : operationRequest Arg → option error) batch :
  ∃ batch' (sent : list (reply Result)), checkCanceled ctxErr batch = Ret (batch', sent) ∧
    batch' ≡ₚ filter (λ r, is_canceled ctxErr r = false) batch ∧
    sent.*1 ≡ₚ resultCh <$> filter (λ r, is_canceled ctxErr r = true) batch ∧
    ∀ ch res, (ch, res) ∈ sent → is_Some (Err res).
Proof.
  unfold checkCanceled.
  set (g (r : operationRequest Arg) (sent : list (reply Result)) := match ctxErr r with
    | None => sent
    | Some err => sent ++ [(resultCh r, errorSubmitResult (retries r)
        (TagWrapf "OpCtxCancelDuringRetry" (Some err)
          "operation context canceled while waiting for retry batch"))] end).
  match goal with |- context [drain_swap_with ?p _ _ _ _] =>
    destruct (drain_swap_with_spec p (λ r, negb (is_canceled ctxErr r)) g
      (length batch) 0 batch []) as (l' & vis & -> & Hl' & Hvis) end.
  { intros x s. subst g. unfold is_canceled. simpl. by destruct (ctxErr x). }
  { lia. }
  { lia. }
  eexists _, _. split; [done|]. rewrite take_0, drop_0 in Hl'. rewrite drop_0 in Hvis. simpl in Hl'. split.
  - rewrite Hl'. apply reflexive_eq, list_filter_iff. intros r. by rewrite negb_true_iff.
  - rewrite <- Hvis. clear Hvis Hl'.
    assert (Hgen : ∀ acc : list (reply Result), (∀ ch res, (ch, res) ∈ acc → is_Some (Err res)) →
      (foldl (λ s x, g x s) acc vis).*1 ≡ₚ acc.*1 ++ (resultCh <$> filter (λ r, is_canceled ctxErr r = true) vis) ∧
      ∀ ch res, (ch, res) ∈ foldl (λ s x, g x s) acc vis → is_Some (Err res)).
    { induction vis as [|r vis IH]; intros acc Hacc; simpl; [by rewrite app_nil_r|].
      destruct (IH (g r acc)) as [IH1 IH2].
      - subst g. simpl. destruct (ctxErr r); [|done]. intros ch res.
        rewrite elem_of_app, list_elem_of_singleton. intros [?|[= -> ->]]; [eauto|]. by eexists.
      - split; [|done]. rewrite IH1. subst g. unfold is_canceled at 2. simpl.
        destruct (ctxErr r) as [e|] eqn:He; simpl.
        + rewrite filter_cons_True by (unfold is_canceled; by rewrite He).
          by rewrite fmap_app, fmap_cons, <- app_assoc.
        + by rewrite filter_cons_False by (unfold is_canceled; by rewrite He). }
    destruct (Hgen []) as [H1 H2]; [set_solver|]. done.
Qed.

Lemma sendSuccess_spec (f : nat → outcome Result) i batch (sent : list (reply Result)) :
  sendSuccess f i batch = Ret sent →
  sent.*1 = resultCh <$> batch ∧
  ∀ j r, batch !! j = Some r → ∃ res, f (i + j) = Ret res ∧
    sent !! j = Some (resultCh r, {| SubmitResult := res; Retries := retries r; Err := None |}).
Proof.
  revert i sent. induction batch as [|r batch IH]; intros i sent Hs; simpl in *.
  { injection Hs as <-. done. }
  destruct (f i) as [res0|] eqn:Hfi; [|done]. simpl in Hs.
  destruct (sendSuccess f (S i) batch) as [sent'|] eqn:E; [|done]. injection Hs as <-.
  destruct (IH _ _ E) as [IH1 IH2]. split; [by rewrite fmap_cons, IH1|].
  intros [|j] r' Hj; simpl in *; simplify_eq.
  - rewrite Nat.add_0_r. eauto.
  - destruct (IH2 j r' Hj) as (res & Hf & Hl). exists res. by rewrite Nat.add_succ_r.
Qed.

End batch_lemmas.

Section execute_lemmas.
Context {Key Arg Result W : Type} `{!Zero Result}.
Import RetryBatch.
Implicit Types (batch : list (operationRequest Arg)).

(** Every request of the batch is answered, or waits in the batch when a retry is due. *)
Lemma dispatchResult_partition (result : ExecuteResult Result) batch next batch' sent :
  dispatchResult result batch = Ret (next, batch', sent) →
  sent.*1 ++ (if Optional.IsSome next then resultCh <$> batch' else []) = resultCh <$> batch.
Proof.
  destruct result as [f|d|err]; simpl; intros Hd.
  - destruct (sendSuccess f 0 batch) as [s|] eqn:E; [|done]. injection Hd as <- <- <-.
    rewrite app_nil_r. by apply (sendSuccess_spec f 0).
  - by injection Hd as <- <- <-.
  - injection Hd as <- <- <-. rewrite app_nil_r, <- list_fmap_compose. done.
Qed.

Lemma incrementRetries_channels batch :
  resultCh <$> incrementRetries batch = resultCh <$> batch.
Proof. unfold incrementRetries, Slices.ForEachRef. by rewrite <- list_fmap_compose. Qed.

Lemma tryExecuteBatch_partition (Execute : Key → list Arg → W → outcome (ExecuteResult Result * W))
    key batch w next batch' sent w' :
  tryExecuteBatch Execute key batch w = Ret (next, batch', sent, w') →
  sent.*1 ++ (if Optional.IsSome next then resultCh <$> batch' else []) = resultCh <$> batch.
Proof.
  unfold tryExecuteBatch. destruct (Nat.eqb_spec (length batch) 0) as [Hz|Hz]; intros Ht.
  - injection Ht as <- <- <- <-. by destruct batch.
  - destruct (Execute _ _ w) as [[result w1]|]; [|done]. simpl in Ht.
    destruct (dispatchResult result (incrementRetries batch)) as [[[n b] s]|] eqn:Hd; [|done].
    injection Ht as <- <- <- <-. apply dispatchResult_partition in Hd.
    by rewrite incrementRetries_channels in Hd.
Qed.

(** What the requests of an execution get, by its result: [args] are those that were executed. *)
Definition executed (result : ExecuteResult Result) (args : list (operationRequest Arg)) (next : option Duration)
    (batch' : list (operationRequest Arg)) (sent : list (reply Result)) : Prop :=
  match result with
  | ExecuteResultSuccess resultFn => next = None ∧ ∀ i r, args !! i = Some r → ∃ res, resultFn i = Ret res ∧
      (resultCh r, {| SubmitResult := res; Retries := (retries r + 1)%Z; Err := None |}) ∈ sent
  | ExecuteResultNeedRetry delay => next = Some delay ∧
      batch' = (λ r, {| arg := arg r; retries := (retries r + 1)%Z; resultCh := resultCh r |}) <$> args
  | ExecuteResultErr err => next = None ∧ ∀ r, r ∈ args →
      (resultCh r, errorSubmitResult (retries r + 1) (TagWrapf "ExecuteError" err "error executing retry batch")) ∈ sent
  end.

Lemma executed_app result args next batch' sent sent' :
  executed result args next batch' sent' → executed result args next batch' (sent ++ sent').
Proof.
  destruct result; cbn; [|done|].
  - intros [? Hall]. split; [done|]. intros i r Hr. destruct (Hall i r Hr) as (res & ? & ?). exists res. by rewrite elem_of_app; auto.
  - intros [? Hall]. split; [done|]. intros r Hr. rewrite elem_of_app. auto.
Qed.

Lemma dispatchResult_executed result args next batch' sent :
  dispatchResult result (incrementRetries args) = Ret (next, batch', sent) → executed result args next batch' sent.
Proof.
  unfold incrementRetries, Slices.ForEachRef. destruct result as [f|d|err]; cbn.
  - intros Hd. destruct (sendSuccess f 0 _) as [rs|] eqn:Hs; [|done]. injection Hd as <- _ <-. split; [done|].
    intros i r Hr. destruct (proj2 (sendSuccess_spec f 0 _ rs Hs) i {| arg := arg r; retries := (retries r + 1)%Z; resultCh := resultCh r |})
      as (res & Hf & Hl); [by rewrite list_lookup_fmap, Hr|]. exists res. split; [done|]. by apply list_elem_of_lookup_2 in Hl.
  - by intros [= <- <- <-].
  - intros [= <- <- <-]. split; [done|]. intros r Hr. apply list_elem_of_fmap.
    exists {| arg := arg r; retries := (retries r + 1)%Z; resultCh := resultCh r |}. split; [done|].
    apply list_elem_of_fmap. by exists r.
Qed.

Lemma tryExecuteBatch_spec (Execute : Key → list Arg → W → outcome (ExecuteResult Result * W)) key batch w next batch' sent w' :
  tryExecuteBatch Execute key batch w = Ret (next, batch', sent, w') →
  if decide (batch = []) then next = None ∧ batch' = [] ∧ w' = w ∧ sent = []
  else ∃ result, Execute key (arg <$> batch) w = Ret (result, w') ∧ executed result batch next batch' sent.
Proof.
  unfold tryExecuteBatch. destruct batch as [|r0 batch0]; [by intros [= <- <- <- <-]|]. cbn [length Nat.eqb].
  set (batch := r0 :: batch0). rewrite decide_False by done. intros ([result w1] & Hex & Ht)%outcome_bind_Ret.
  apply outcome_bind_Ret in Ht as ([[n b] s] & Hd & Ht). injection Ht as <- <- <- <-. exists result. split; [done|].
  by apply dispatchResult_executed.
Qed.

Lemma filter_split_channels (ctxErr : operationRequest Arg → option error) batch :
  (resultCh <$> filter (λ r, is_canceled ctxErr r = true) batch) ++
  (resultCh <$> filter (λ r, is_canceled ctxErr r = false) batch) ≡ₚ resultCh <$> batch.
Proof.
  rewrite <- fmap_app. apply fmap_Permutation.
  induction batch as [|r batch IH]; [done|]. destruct (is_canceled ctxErr r) eqn:Hr.
  - rewrite filter_cons_True, filter_cons_False by congruence. simpl. by rewrite IH.
  - rewrite filter_cons_False, filter_cons_True by congruence. by rewrite <- Permutation_middle, IH.
Qed.

End execute_lemmas.

(** *** Properties of the batches *)

(** C17. One run of [executeBatch] answers every request of the batch exactly once, except
    those that it keeps for a retry: the channels that receive a reply and the channels of
    the requests that wait for the next run are together those of the batch. A canceled
    request is answered with an error and takes no part in the execution: the adapter is given the arguments of the other
    requests, in some order, and is not called when there are none. On success each of them gets the result at the position of its own
    argument; on a retry they all wait, with one more retry counted; on an error each gets the error. *)
Theorem executeBatch_answers_once {Key Arg Result W} `{!Zero Result}
    (ctxErr : RetryBatch.operationRequest Arg → option error)
    (Execute : Key → list Arg → W → outcome (RetryBatch.ExecuteResult Result * W))
    (key : Key) (batch : list (RetryBatch.operationRequest Arg)) (w : W) next batch' sent w' :
  RetryBatch.executeBatch ctxErr Execute key batch w = Ret (next, batch', sent, w') →
  sent.*1 ++ (if Optional.IsSome next then RetryBatch.resultCh <$> batch' else [])
    ≡ₚ RetryBatch.resultCh <$> batch ∧
  (∀ r, r ∈ batch → is_canceled ctxErr r = true →
     ∃ res, (RetryBatch.resultCh r, res) ∈ sent ∧ is_Some (RetryBatch.Err res)) ∧
  ∃ kept, kept ≡ₚ filter (λ r, is_canceled ctxErr r = false) batch ∧
    if decide (kept = []) then next = None ∧ w' = w
    else ∃ result, Execute key (RetryBatch.arg <$> kept) w = Ret (result, w') ∧ executed result kept next batch' sent.
Proof.
  unfold RetryBatch.executeBatch.
  destruct (checkCanceled_spec (Result := Result) ctxErr batch) as (kept & canceled & -> & Hkept & Hcanc & Herr).
  simpl. intros Hrun.
  destruct (RetryBatch.tryExecuteBatch Execute key kept w) as [[[[n b] s] w1]|] eqn:Ht; [|done].
  injection Hrun as <- <- <- <-. split; [|split].
  - rewrite fmap_app, <- app_assoc, (tryExecuteBatch_partition _ _ _ _ _ _ _ _ Ht), Hcanc, Hkept.
    apply filter_split_channels.
  - intros r Hr Hc. assert (RetryBatch.resultCh r ∈ canceled.*1) as Hin.
    { rewrite Hcanc. apply list_elem_of_fmap. exists r. split; [done|]. by apply list_elem_of_filter. }
    apply list_elem_of_fmap in Hin as ([ch res] & Heq & Hin). simpl in Heq. subst.
    exists res. split; [apply elem_of_app; by left|by eapply Herr].
  - exists kept. split; [done|]. apply tryExecuteBatch_spec in Ht. case_decide; [by destruct Ht as (? & _ & ? & _)|].
    destruct Ht as (result & Hex & Hres). exists result. split; [done|]. by apply executed_app.
Qed.

Definition example_request (ch : nat) (a : Z) : RetryBatch.operationRequest Z :=
  {| RetryBatch.arg := a; RetryBatch.retries := 0%Z; RetryBatch.resultCh := ch |}.

(** A batch of three, of which the first is canceled, against an adapter that squares and keeps what it was given: the other two are executed,
    in another order, and both get the square of their own argument. *)
Lemma executeBatch_answers_once_witness :
  let run := RetryBatch.executeBatch (Key := string) (Result := Z)
    (λ r, if RetryBatch.resultCh r =? 1 then Some Canceled else None)
    (λ _ args w, Ret (RetryBatch.ExecuteResultSuccess (λ i, Ret (default 0 (args !! i) * default 0 (args !! i))%Z), w ++ [args]))
    "key" [example_request 1 5%Z; example_request 2 6%Z; example_request 3 7%Z] [] in
  ∃ next batch sent, run = Ret (next, batch, sent, [[7; 6]]%Z) ∧ sent.*1 ≡ₚ [1; 2; 3] ∧
    (2, {| RetryBatch.SubmitResult := 36%Z; RetryBatch.Retries := 1%Z; RetryBatch.Err := None |}) ∈ sent ∧
    (3, {| RetryBatch.SubmitResult := 49%Z; RetryBatch.Retries := 1%Z; RetryBatch.Err := None |}) ∈ sent.
Proof.
  intros run.
  assert (Hw : match run with Ret (_, _, _, w) => bool_decide (w = [[7; 6]]%Z) | Panic _ => false end = true) by reflexivity.
  destruct run as [[[[next batch] sent] w]|] eqn:Hrun; [|discriminate Hw]. apply bool_decide_eq_true in Hw as ->.
  exists next, batch, sent. split; [reflexivity|].
  destruct (executeBatch_answers_once (Key := string) (Result := Z)
    (λ r, if RetryBatch.resultCh r =? 1 then Some Canceled else None)
    (λ _ args w, Ret (RetryBatch.ExecuteResultSuccess (λ i, Ret (default 0 (args !! i) * default 0 (args !! i))%Z), w ++ [args]))
    "key" [example_request 1 5%Z; example_request 2 6%Z; example_request 3 7%Z] [] next batch sent _ Hrun) as (Hperm & _ & kept & Hkept & Hex).
  assert (Hin : ∀ r, r ∈ [example_request 2 6%Z; example_request 3 7%Z] → r ∈ kept).
  { intros r Hr. rewrite Hkept. apply list_elem_of_filter. clear -Hr. set_unfold. destruct Hr as [-> |[-> |[]]]; split; auto. }
  destruct (decide (kept = [])) as [-> |Hne]; [exfalso; by apply (not_elem_of_nil (example_request 2 6%Z)), Hin; left|].
  destruct Hex as (result & Hres & Hex). cbn in Hres. injection Hres as <- Hargs. destruct Hex as [-> Hall].
  split; [by rewrite app_nil_r in Hperm|].
  assert (Hget : ∀ r, r ∈ kept → (RetryBatch.resultCh r, {| RetryBatch.SubmitResult := (RetryBatch.arg r * RetryBatch.arg r)%Z;
    RetryBatch.Retries := (RetryBatch.retries r + 1)%Z; RetryBatch.Err := None |}) ∈ sent).
  2: { split; [apply (Hget (example_request 2 6%Z))|apply (Hget (example_request 3 7%Z))]; apply Hin; set_solver. }
  intros r [i Hi]%list_elem_of_lookup. destruct (Hall i r Hi) as (res & Hf & Hs). rewrite list_lookup_fmap, Hi in Hf. by injection Hf as <-.
Defined.
