(* ===== verification/Pool.v ===== *)
(** * Pool: the concurrency of util/retrybatch/pool.go

    The threads that run [Submit], the map of handles and the batch goroutines, as a step
    relation: one step per atomic action (a map operation, an atomic counter operation, a
    rendezvous on [operationCh], a run of the checks of [executeBatch], the end of an
    execution with its replies). The result channels have room for one reply. A step of
    the counter that panics is not a step: [FusedRC] panics after 2^31 - 1 holders, or after
    2^30 attempts on a handle that is fused and not yet deleted.

    The invariants: the counter of a handle counts its holders; a handle whose goroutine
    lives is the one of the map, so two goroutines never work on one key; a request that
    waits is in the batch of a live goroutine or answered; no result channel overflows. *)

From S2P Require Import Prelude Util Errors Iter RetryBatch.

Module Pool.
Import RetryBatch.

Section pool.
Context {Key Arg Result : Type} `{Countable Key} `{!Zero Result}.

(** Where a thread is in [Submit] and [acquireLazyHandle]. *)
Inductive pc : Type :=
| PStart
| PLoaded (h : nat) (isOld : bool)
| PSpawn (h : nat)
| PSend (h : nat)
| PWait (h : nat)
| PRelease (h : nat) (res : submitResult Result)
| PDone (res : submitResult Result).

Record thread : Type := { tKey : Key; tArg : Arg; tPc : pc }.

(** Where a batch goroutine is: in one of its selects, in [processBatch] with a batch that
    waits, in [adapter.Execute], or fused and before [cleanup]. *)
Inductive goroutine : Type :=
| GIdle
| GBatch (batch : list (operationRequest Arg))
| GExec (batch : list (operationRequest Arg))
| GFused.

(** [keyHandle]s are numbered; [counters] has the key and the counter of each. *)
Record state : Type := {
  threads : gmap nat thread;
  handles : gmap Key nat;
  counters : gmap nat (Key * FusedRC.Counter);
  goroutines : gmap nat goroutine;
  mail : gmap nat (submitResult Result)
}.

Definition initial : state :=
  {| threads := ∅; handles := ∅; counters := ∅; goroutines := ∅; mail := ∅ |}.

Definition set_pc (s : state) (t : nat) (th : thread) (p : pc) : gmap nat thread :=
  <[t := {| tKey := tKey th; tArg := tArg th; tPc := p |}]> (threads s).

Definition request_of (t : nat) (th : thread) : operationRequest Arg :=
  {| arg := tArg th; retries := 0%Z; resultCh := t |}.

Definition deliver (m : gmap nat (submitResult Result)) (sent : list (reply Result)) :
    gmap nat (submitResult Result) := foldl (λ m '(ch, res), <[ch := res]> m) m sent.

Inductive step : state → state → Prop :=
| step_submit s t key a :
    threads s !! t = None →
    step s {| threads := <[t := {| tKey := key; tArg := a; tPc := PStart |}]> (threads s);
              handles := handles s; counters := counters s; goroutines := goroutines s; mail := mail s |}
| step_load_old s t th h :
    threads s !! t = Some th → tPc th = PStart → handles s !! tKey th = Some h →
    step s {| threads := set_pc s t th (PLoaded h true);
              handles := handles s; counters := counters s; goroutines := goroutines s; mail := mail s |}
| step_load_new s t th h :
    threads s !! t = Some th → tPc th = PStart → handles s !! tKey th = None →
    counters s !! h = None →
    step s {| threads := set_pc s t th (PLoaded h false);
              handles := <[tKey th := h]> (handles s);
              counters := <[h := (tKey th, FusedRC.New)]> (counters s);
              goroutines := goroutines s; mail := mail s |}
| step_acquire s t th h isOld key rc rc' acquired :
    threads s !! t = Some th → tPc th = PLoaded h isOld → counters s !! h = Some (key, rc) →
    FusedRC.Acquire rc = (rc', Ret acquired) →
    step s {| threads := set_pc s t th
                (if acquired : bool then if isOld then PSend h else PSpawn h else PStart);
              handles := handles s; counters := <[h := (key, rc')]> (counters s);
              goroutines := goroutines s; mail := mail s |}
| step_spawn s t th h :
    threads s !! t = Some th → tPc th = PSpawn h →
    step s {| threads := set_pc s t th (PSend h); handles := handles s; counters := counters s;
              goroutines := <[h := GIdle]> (goroutines s); mail := mail s |}
| step_send s t th h g batch :
    threads s !! t = Some th → tPc th = PSend h → goroutines s !! h = Some g →
    (g = GIdle ∧ batch = [] ∨ g = GBatch batch) →
    step s {| threads := set_pc s t th (PWait h); handles := handles s; counters := counters s;
              goroutines := <[h := GBatch (batch ++ [request_of t th])]> (goroutines s); mail := mail s |}
| step_check s h batch batch' sent ctxErr :
    goroutines s !! h = Some (GBatch batch) → checkCanceled ctxErr batch = Ret (batch', sent) →
    step s {| threads := threads s; handles := handles s; counters := counters s;
              goroutines := <[h := if length batch' =? 0 then GIdle
                                   else GExec (incrementRetries batch')]> (goroutines s);
              mail := deliver (mail s) sent |}
| step_dispatch s h batch batch' sent next result :
    goroutines s !! h = Some (GExec batch) → dispatchResult result batch = Ret (next, batch', sent) →
    step s {| threads := threads s; handles := handles s; counters := counters s;
              goroutines := <[h := if Optional.IsSome next then GBatch batch' else GIdle]> (goroutines s);
              mail := deliver (mail s) sent |}
| step_cancel s h batch err :
    goroutines s !! h = Some (GBatch batch) →
    step s {| threads := threads s; handles := handles s; counters := counters s;
              goroutines := <[h := GIdle]> (goroutines s);
              mail := deliver (mail s) (cancelBatch err batch) |}
| step_fuse s h key rc rc' ok :
    goroutines s !! h = Some GIdle → counters s !! h = Some (key, rc) → FusedRC.Fuse rc = (rc', ok) →
    step s {| threads := threads s; handles := handles s; counters := <[h := (key, rc')]> (counters s);
              goroutines := <[h := if ok : bool then GFused else GIdle]> (goroutines s); mail := mail s |}
| step_cleanup s h key rc :
    goroutines s !! h = Some GFused → counters s !! h = Some (key, rc) →
    step s {| threads := threads s; handles := delete key (handles s); counters := counters s;
              goroutines := delete h (goroutines s); mail := mail s |}
| step_receive s t th h res :
    threads s !! t = Some th → tPc th = PWait h → mail s !! t = Some res →
    step s {| threads := set_pc s t th (PRelease h res); handles := handles s; counters := counters s;
              goroutines := goroutines s; mail := delete t (mail s) |}
| step_release s t th h res key rc rc' :
    threads s !! t = Some th → tPc th = PRelease h res → counters s !! h = Some (key, rc) →
    FusedRC.Release rc = (rc', Ret tt) →
    step s {| threads := set_pc s t th (PDone res); handles := handles s;
              counters := <[h := (key, rc')]> (counters s); goroutines := goroutines s; mail := mail s |}.

Inductive reachable : state → Prop :=
| reachable_initial : reachable initial
| reachable_step s s' : reachable s → step s s' → reachable s'.

End pool.
Arguments pc Result : clear implicits.
Arguments thread Key Arg Result : clear implicits.
Arguments goroutine Arg : clear implicits.
Arguments state Key Arg Result {_ _}.

End Pool.

(** ** Invariants *)
Section pool_invariants.
Import RetryBatch Pool.
Context {Key Arg Result : Type} `{Countable Key} `{!Zero Result}.
Implicit Types (s : state Key Arg Result) (th : thread Key Arg Result) (p : pc Result).

(** The handle that a thread has in hand, and the handle on which it holds a reference. *)
Definition pc_handle p : option nat :=
  match p with
  | PLoaded h _ | PSpawn h | PSend h | PWait h | PRelease h _ => Some h
  | PStart | PDone _ => None
  end.
Definition pc_holds p : option nat :=
  match p with
  | PSpawn h | PSend h | PWait h | PRelease h _ => Some h
  | PStart | PLoaded _ _ | PDone _ => None
  end.
(** The thread that created a handle and has not started its goroutine. *)
Definition pc_creates p : option nat :=
  match p with PLoaded h false | PSpawn h => Some h | _ => None end.

Definition creator s (h t : nat) : Prop := ∃ th, threads s !! t = Some th ∧ pc_creates (tPc th) = Some h.

(** *** Handles, their keys and their goroutines *)
Record handle_inv s : Prop := {
  inv_key : ∀ t th h, threads s !! t = Some th → pc_handle (tPc th) = Some h →
    ∃ rc, counters s !! h = Some (tKey th, rc);
  inv_map : ∀ k h, handles s !! k = Some h → ∃ rc, counters s !! h = Some (k, rc);
  inv_gor : ∀ h g, goroutines s !! h = Some g → ∃ k rc, counters s !! h = Some (k, rc) ∧ handles s !! k = Some h;
  inv_creator_map : ∀ h t k rc, creator s h t → counters s !! h = Some (k, rc) → handles s !! k = Some h;
  inv_creator_gor : ∀ h t, creator s h t → goroutines s !! h = None;
  inv_creator_unique : ∀ h t t', creator s h t → creator s h t' → t = t'
}.

Lemma creates_handle p h : pc_creates p = Some h → pc_handle p = Some h.
Proof. by destruct p as [|? []| | | | |]. Qed.

Lemma set_pc_Some s t th p t' th' :
  set_pc s t th p !! t' = Some th' ↔
    (t' = t ∧ th' = {| tKey := tKey th; tArg := tArg th; tPc := p |}) ∨ (t' ≠ t ∧ threads s !! t' = Some th').
Proof. unfold set_pc. rewrite lookup_insert_Some. naive_solver. Qed.

Lemma creator_set s t th p hs cs gs ms h t' :
  creator {| threads := set_pc s t th p; handles := hs; counters := cs; goroutines := gs; mail := ms |} h t' ↔
    (t' = t ∧ pc_creates p = Some h) ∨ (t' ≠ t ∧ creator s h t').
Proof.
  unfold creator. simpl. setoid_rewrite set_pc_Some. split.
  - intros (th' & [[-> ->]|[? ?]] & Hc); [by left|right; eauto].
  - intros [[-> Hc]|[Hne (th' & ? & ?)]]; [|by eauto 10]. eexists. split; [by left|done].
Qed.

Lemma creator_set_keep s t th p hs cs gs ms h t' :
  threads s !! t = Some th → (∀ h, pc_creates p = Some h → pc_creates (tPc th) = Some h) →
  creator {| threads := set_pc s t th p; handles := hs; counters := cs; goroutines := gs; mail := ms |} h t' →
  creator s h t'.
Proof. intros Ht Hp. rewrite creator_set. intros [[-> Hc]|[_ ?]]; [exists th; auto|done]. Qed.

Lemma key_set s t th p h :
  handle_inv s → threads s !! t = Some th →
  (pc_handle p = Some h → ∃ rc, counters s !! h = Some (tKey th, rc)) →
  ∀ t' th', set_pc s t th p !! t' = Some th' → pc_handle (tPc th') = Some h →
    ∃ rc, counters s !! h = Some (tKey th', rc).
Proof.
  intros Hi Ht Hp t' th' [[-> ->]|[_ Ht']]%set_pc_Some Hh; [by apply Hp|].
  by eapply inv_key.
Qed.

(** A step that moves one thread, and keeps handles, keys and goroutines. *)
Lemma handle_inv_set s t th p cs ms :
  handle_inv s → threads s !! t = Some th →
  (∀ h, pc_handle p = Some h → pc_handle (tPc th) = Some h) →
  (∀ h, pc_creates p = Some h → pc_creates (tPc th) = Some h) →
  (∀ h k, (∃ rc, counters s !! h = Some (k, rc)) ↔ ∃ rc, cs !! h = Some (k, rc)) →
  handle_inv {| threads := set_pc s t th p; handles := handles s; counters := cs;
                goroutines := goroutines s; mail := ms |}.
Proof.
  intros Hi Ht Hh Hc Hcs. split; simpl.
  - intros t' th' h Ht' Hp. apply Hcs. apply (key_set s t th p h Hi Ht) with t'; [|done|done].
    intros Hph. eapply inv_key; eauto.
  - intros k h Hk. apply Hcs. by eapply inv_map.
  - intros h g Hg. destruct (inv_gor _ Hi h g Hg) as (k & rc & Hk & ?).
    destruct (proj1 (Hcs h k)) as [rc' ?]; eauto.
  - intros h t' k rc Hcr Hk. destruct (proj2 (Hcs h k)) as [rc' ?]; [eauto|].
    eapply inv_creator_map; [done|by eapply creator_set_keep|done].
  - intros h t' Hcr. eapply inv_creator_gor; [done|by eapply creator_set_keep].
  - intros h t1 t2 H1 H2. eapply inv_creator_unique; [done|by eapply creator_set_keep..].
Qed.

(** A step that changes what the goroutine of one handle does, or a counter. *)
Lemma handle_inv_gor s h g g' cs ms :
  handle_inv s → goroutines s !! h = Some g →
  (∀ h k, (∃ rc, counters s !! h = Some (k, rc)) ↔ ∃ rc, cs !! h = Some (k, rc)) →
  handle_inv {| threads := threads s; handles := handles s; counters := cs;
                goroutines := <[h := g']> (goroutines s); mail := ms |}.
Proof.
  intros Hi Hg Hcs.
  assert (Hdom : ∀ h', is_Some (<[h := g']> (goroutines s) !! h') ↔ is_Some (goroutines s !! h')).
  { intros h'. rewrite lookup_insert_is_Some'. split; [intros [<-|?]; [by rewrite Hg|done]|by right]. }
  split; simpl.
  - intros t th h' Ht Hp. apply Hcs. by eapply inv_key.
  - intros k h' Hk. apply Hcs. by eapply inv_map.
  - intros h' g0 Hg0. destruct (proj1 (Hdom h')) as [g1 Hg1]; [by rewrite Hg0|].
    destruct (inv_gor _ Hi h' g1 Hg1) as (k & rc & Hk & ?). destruct (proj1 (Hcs h' k)) as [rc' ?]; eauto.
  - intros h' t k rc Hcr Hk. destruct (proj2 (Hcs h' k)) as [rc' ?]; [eauto|]. by eapply inv_creator_map.
  - intros h' t Hcr. apply eq_None_not_Some. rewrite Hdom.
    rewrite (inv_creator_gor s Hi h' t Hcr). by intros [? ?].
  - intros h' t1 t2. apply (inv_creator_unique s Hi).
Qed.

Lemma counters_keep (cs : gmap nat (Key * FusedRC.Counter)) h key rc rc' :
  cs !! h = Some (key, rc) →
  ∀ h' k, (∃ r, cs !! h' = Some (k, r)) ↔ ∃ r, <[h := (key, rc')]> cs !! h' = Some (k, r).
Proof.
  intros Hh h' k. setoid_rewrite lookup_insert_Some. split.
  - intros [r Hr]. destruct (decide (h = h')) as [<-|Hne]; [|eauto]. rewrite Hh in Hr. simplify_eq. eauto.
  - intros [r [[<- [= <- <-]]|[_ ?]]]; eauto.
Qed.

Lemma handle_inv_load_new s t th h :
  handle_inv s → threads s !! t = Some th → handles s !! tKey th = None → counters s !! h = None →
  handle_inv {| threads := set_pc s t th (PLoaded h false); handles := <[tKey th := h]> (handles s);
    counters := <[h := (tKey th, FusedRC.New)]> (counters s); goroutines := goroutines s; mail := mail s |}.
Proof.
  intros Hi Ht Hh Hc.
  assert (Hnot : ∀ t', ¬ creator s h t').
  { intros t' (th' & Ht' & Hp). destruct (inv_key s Hi t' th' h Ht' (creates_handle _ _ Hp)). congruence. }
  assert (Hgh : goroutines s !! h = None).
  { destruct (goroutines s !! h) as [g|] eqn:Hg; [|done]. destruct (inv_gor s Hi h g Hg) as (? & ? & ? & _). congruence. }
  split; simpl.
  - intros t' th' h' [[-> ->]|[_ Ht']]%set_pc_Some Hp'; simpl in *.
    + injection Hp' as <-. rewrite lookup_insert_eq. eauto.
    + destruct (inv_key s Hi t' th' h' Ht' Hp') as [rc Hrc]. exists rc.
      rewrite lookup_insert_ne; [done|congruence].
  - intros k h' [[<- <-]|[_ Hk]]%lookup_insert_Some; [rewrite lookup_insert_eq; eauto|].
    destruct (inv_map s Hi k h' Hk) as [rc Hrc]. exists rc. rewrite lookup_insert_ne; [done|congruence].
  - intros h' g Hg. destruct (inv_gor s Hi h' g Hg) as (k & rc & Hk & Hm). exists k, rc.
    rewrite !lookup_insert_ne by congruence. done.
  - intros h' t' k rc Hcr Hk. apply creator_set in Hcr as [[-> [= <-]]|[_ Hcr]].
    + rewrite lookup_insert_eq in Hk. injection Hk as <- _. by rewrite lookup_insert_eq.
    + rewrite lookup_insert_ne in Hk by (intros <-; by apply (Hnot t')).
      pose proof (inv_creator_map s Hi h' t' k rc Hcr Hk). rewrite lookup_insert_ne; congruence.
  - intros h' t' Hcr. apply creator_set in Hcr as [[-> [= <-]]|[_ Hcr]]; [done|by eapply inv_creator_gor].
  - intros h' t1 t2 H1 H2. apply creator_set in H1 as [[-> E1]|[_ H1]], H2 as [[-> E2]|[_ H2]]; [done|..|].
    + injection E1 as <-. by destruct (Hnot t2).
    + injection E2 as <-. by destruct (Hnot t1).
    + by eapply inv_creator_unique.
Qed.

Lemma handle_inv_spawn s t th h :
  handle_inv s → threads s !! t = Some th → tPc th = PSpawn h →
  handle_inv {| threads := set_pc s t th (PSend h); handles := handles s; counters := counters s;
    goroutines := <[h := GIdle]> (goroutines s); mail := mail s |}.
Proof.
  intros Hi Ht Hp. assert (Hcr0 : creator s h t) by (exists th; by rewrite Hp).
  assert (Hkeep : ∀ h' t' hs cs gs ms, creator {| threads := set_pc s t th (PSend h); handles := hs;
    counters := cs; goroutines := gs; mail := ms |} h' t' → creator s h' t' ∧ t' ≠ t).
  { intros h' t' hs cs gs ms Hcr. apply creator_set in Hcr as [[_ ?]|[? ?]]; done. }
  split; simpl.
  - intros t' th' h' Ht' Hp'. eapply (key_set s t th (PSend h) h'); [done|done| |done|done].
    intros [= <-]. eapply inv_key; [done|done|]. by rewrite Hp.
  - apply Hi.
  - intros h' g [[<- <-]|[_ Hg]]%lookup_insert_Some; [|by eapply inv_gor].
    destruct (inv_key s Hi t th h Ht) as [rc Hrc]; [by rewrite Hp|].
    exists (tKey th), rc. split; [done|by eapply inv_creator_map].
  - intros h' t' k rc Hcr. apply Hkeep in Hcr as [? _]. by eapply inv_creator_map.
  - intros h' t' Hcr. apply Hkeep in Hcr as [Hcr Hne]. rewrite lookup_insert_ne; [by eapply inv_creator_gor|].
    intros <-. apply Hne. by eapply inv_creator_unique.
  - intros h' t1 t2 H1 H2. apply Hkeep in H1 as [? _], H2 as [? _]. by eapply inv_creator_unique.
Qed.

Lemma handle_inv_send s t th h g g' :
  handle_inv s → threads s !! t = Some th → tPc th = PSend h → goroutines s !! h = Some g →
  handle_inv {| threads := set_pc s t th (PWait h); handles := handles s; counters := counters s;
    goroutines := <[h := g']> (goroutines s); mail := mail s |}.
Proof.
  intros Hi Ht Hp Hg.
  assert (Hi' : handle_inv {| threads := set_pc s t th (PWait h); handles := handles s;
    counters := counters s; goroutines := goroutines s; mail := mail s |}).
  { apply handle_inv_set; [done|done| |done|done]. by rewrite Hp. }
  by apply (handle_inv_gor _ h g g' (counters s) (mail s) Hi').
Qed.

Lemma handle_inv_cleanup s h key rc :
  handle_inv s → goroutines s !! h = Some GFused → counters s !! h = Some (key, rc) →
  handle_inv {| threads := threads s; handles := delete key (handles s); counters := counters s;
    goroutines := delete h (goroutines s); mail := mail s |}.
Proof.
  intros Hi Hg Hc. destruct (inv_gor s Hi h _ Hg) as (k0 & rc0 & Hk0 & Hm). rewrite Hc in Hk0. simplify_eq.
  assert (Hother : ∀ k h', handles s !! k = Some h' → h' ≠ h → k ≠ k0) by (intros ? ? ? ? ->; congruence).
  split; simpl.
  - apply Hi.
  - intros k h' [_ Hk]%lookup_delete_Some. by eapply inv_map.
  - intros h' g [Hne Hg']%lookup_delete_Some. destruct (inv_gor s Hi h' g Hg') as (k & r & Hk & Hmk).
    exists k, r. split; [done|]. rewrite lookup_delete_ne; [done|]. apply not_eq_sym. by eapply Hother.
  - intros h' t k r Hcr Hk. pose proof (inv_creator_map s Hi h' t k r Hcr Hk) as Hmk.
    rewrite lookup_delete_ne; [done|]. apply not_eq_sym. eapply Hother; [done|]. intros ->.
    pose proof (inv_creator_gor s Hi h t Hcr). congruence.
  - intros h' t Hcr. apply lookup_delete_None. right. by eapply inv_creator_gor.
  - apply Hi.
Qed.

Lemma handle_inv_step s s' : handle_inv s → step s s' → handle_inv s'.
Proof.
  intros Hi Hstep. destruct Hstep as [s t key a Hn|s t th h Ht Hp Hh|s t th h Ht Hp Hh Hc
    |s t th h isOld key rc rc' acq Ht Hp Hc Ha|s t th h Ht Hp|s t th h g batch Ht Hp Hg Hb
    |s h batch batch' sent ctxErr Hg Hc|s h batch batch' sent next result Hg Hd|s h batch err Hg
    |s h key rc rc' ok Hg Hc Hf|s h key rc Hg Hc|s t th h res Ht Hp Hm|s t th h res key rc rc' Ht Hp Hc Hr].
  - assert (Hcr : ∀ h t', creator {| threads := <[t := {| tKey := key; tArg := a; tPc := PStart |}]> (threads s);
      handles := handles s; counters := counters s; goroutines := goroutines s; mail := mail s |} h t' → creator s h t').
    { intros h t' (th & Hth & Hc). simpl in Hth.
      apply lookup_insert_Some in Hth as [[<- <-]|[_ ?]]; [done|by exists th]. }
    split; simpl; try (apply Hi).
    + intros t' th h [[<- <-]|[_ ?]]%lookup_insert_Some Hp; [done|by eapply inv_key].
    + intros; eapply inv_creator_map; eauto.
    + intros; eapply inv_creator_gor; eauto.
    + intros; eapply inv_creator_unique; eauto.
  - split; simpl; try (apply Hi).
    + intros t' th' h' Ht' Hp'. eapply (key_set s t th (PLoaded h true) h'); [done|done| |done|done].
      intros [= <-]. by eapply inv_map.
    + intros h' t' k rc Hcr. apply creator_set_keep in Hcr; [|done|done]. by eapply inv_creator_map.
    + intros h' t' Hcr. apply creator_set_keep in Hcr; [|done|done]. by eapply inv_creator_gor.
    + intros h' t1 t2 H1 H2. apply creator_set_keep in H1, H2; try done. by eapply inv_creator_unique.
  - by apply (handle_inv_load_new s t th h).
  - apply handle_inv_set; [done|done|..|by eapply counters_keep]; rewrite Hp; by destruct acq, isOld.
  - by apply handle_inv_spawn.
  - by apply (handle_inv_send s t th h g).
  - by apply (handle_inv_gor s h (GBatch batch)).
  - by apply (handle_inv_gor s h (GExec batch)).
  - by apply (handle_inv_gor s h (GBatch batch)).
  - apply (handle_inv_gor s h GIdle); [done|done|by eapply counters_keep].
  - by apply (handle_inv_cleanup s h key rc).
  - apply handle_inv_set; [done|done| |done|done]. rewrite Hp. done.
  - apply handle_inv_set; [done|done|done|done|by eapply counters_keep].
Qed.

(** *** Counters and holders *)
Definition holds (h : nat) (x : nat * thread Key Arg Result) : Prop := pc_holds (tPc x.2) = Some h.
#[local] Instance holds_dec h x : Decision (holds h x).
Proof. unfold holds. apply _. Defined.

Definition holders (m : gmap nat (thread Key Arg Result)) (h : nat) : Z :=
  Z.of_nat (size (filter (holds h) m)).
Definition holds_one p (h : nat) : Z := if decide (pc_holds p = Some h) then 1 else 0.

Lemma holds_one_same p h : pc_holds p = Some h → holds_one p h = 1%Z.
Proof. intros Hp. unfold holds_one. by rewrite decide_True. Qed.
Lemma holds_one_other p h : pc_holds p ≠ Some h → holds_one p h = 0%Z.
Proof. intros Hp. unfold holds_one. by rewrite decide_False. Qed.
#[local] Arguments holds_one : simpl never.

Lemma holders_fresh m t th h :
  m !! t = None → holders (<[t := th]> m) h = (holds_one (tPc th) h + holders m h)%Z.
Proof.
  intros Ht. unfold holders, holds_one. case_decide as Hh.
  - rewrite map_filter_insert_True by done. rewrite map_size_insert_None; [lia|].
    rewrite map_lookup_filter_None. by left.
  - rewrite map_filter_insert_False, delete_id by done. lia.
Qed.

Lemma holders_set s t th p h :
  threads s !! t = Some th →
  holders (set_pc s t th p) h = (holders (threads s) h - holds_one (tPc th) h + holds_one p h)%Z.
Proof.
  intros Ht. unfold set_pc. rewrite <- (insert_delete_id (threads s) t th Ht) at 2.
  rewrite <- insert_delete_eq, !holders_fresh by apply lookup_delete_eq. simpl. lia.
Qed.

Lemma holders_pos m h : (0 ≤ holders m h)%Z.
Proof. unfold holders. lia. Qed.

Lemma holders_in s t th h :
  threads s !! t = Some th → pc_holds (tPc th) = Some h → (1 ≤ holders (threads s) h)%Z.
Proof.
  intros Ht Hh. pose proof (holders_set s t th PStart h Ht) as Hs.
  pose proof (holders_pos (set_pc s t th PStart) h). unfold holds_one in Hs.
  rewrite decide_True, decide_False in Hs by done. lia.
Qed.

(** A handle is in use, and counts its holders, or it is fused, and has none. *)
Definition in_use s (h : nat) (rc : Z) : Prop :=
  (0 ≤ rc ≤ MaxInt32)%Z ∧ rc = holders (threads s) h ∧
  ((∃ g, goroutines s !! h = Some g ∧ g ≠ GFused) ∨ ∃ t, creator s h t).
Definition fused s (h : nat) (rc : Z) : Prop :=
  (MinInt32 ≤ rc < 0)%Z ∧ holders (threads s) h = 0%Z ∧
  (goroutines s !! h = Some GFused ∨ goroutines s !! h = None) ∧ ∀ t, ¬ creator s h t.
Definition counter_inv s : Prop :=
  ∀ h k rc, counters s !! h = Some (k, rc) → in_use s h rc ∨ fused s h rc.

Lemma Acquire_cases rc rc' b :
  (MinInt32 ≤ rc ≤ MaxInt32)%Z → FusedRC.Acquire rc = (rc', Ret b) →
  (0 ≤ rc ∧ rc' = rc + 1 ∧ b = true ∧ rc' ≤ MaxInt32)%Z ∨ (rc < 0 ∧ rc' = rc + 1 ∧ b = false ∧ rc' < 0)%Z.
Proof.
  intros Hrc. unfold FusedRC.Acquire. intros Ha. injection Ha as <- Ha.
  destruct (decide (rc = MaxInt32)) as [->|Hne]; [by vm_compute in Ha|].
  rewrite wrap32_id in * by (unfold in_int32, MinInt32, MaxInt32 in *; lia).
  destruct (Z.ltb_spec 0 (rc + 1)); [injection Ha as <-; unfold MaxInt32 in *; left; lia|].
  destruct (Z.eqb_spec (rc + 1) 0); [done|]. destruct (rc + 1 =? MinInt32)%Z; [done|].
  injection Ha as <-. right. lia.
Qed.

Lemma counter_inv_acquire s t th h isOld key rc rc' acquired :
  handle_inv s → counter_inv s →
  threads s !! t = Some th → tPc th = PLoaded h isOld → counters s !! h = Some (key, rc) →
  FusedRC.Acquire rc = (rc', Ret acquired) →
  counter_inv {| threads := set_pc s t th
      (if acquired : bool then if isOld then PSend h else PSpawn h else PStart);
    handles := handles s; counters := <[h := (key, rc')]> (counters s);
    goroutines := goroutines s; mail := mail s |}.
Proof.
  intros Hi Hc Ht Hp Hh Ha h' k' r'. simpl. unfold in_use, fused. simpl. setoid_rewrite creator_set.
  rewrite (holders_set s t th) by done. rewrite (holds_one_other (tPc th)) by by rewrite Hp.
  intros Hr. apply lookup_insert_Some in Hr as [[<- [= <- <-]]|[Hne Hr]].
  - assert (Hcre : isOld = false → creator s h t) by (intros ->; exists th; by rewrite Hp).
    destruct (Hc h key rc Hh) as [(Hb & Hrc & Hlive)|(Hb & Hho & Hg & Hno)].
    + destruct (Acquire_cases rc rc' acquired) as [(_ & -> & -> & ?)|(? & _)]; [unfold MinInt32; lia|done| |lia].
      left. split; [lia|]. split; [rewrite holds_one_same by (by destruct isOld); lia|].
      destruct Hlive as [?|[t' Hcr]]; [by left|right]. destruct isOld.
      * exists t'. destruct (decide (t' = t)) as [->|]; [|by right].
        destruct Hcr as (th' & Ht' & Hp'). rewrite Ht in Ht'. simplify_eq. by rewrite Hp in Hp'.
      * exists t. by left.
    + destruct (Acquire_cases rc rc' acquired) as [(? & _)|(_ & -> & -> & ?)]; [unfold MaxInt32; lia|done|lia|].
      right. split; [lia|]. split; [rewrite holds_one_other by done; lia|]. split; [done|].
      intros t' [[_ ?]|[_ Hcr]]; [done|by eapply Hno].
  - assert (Hz : holds_one (if acquired then if isOld then PSend h else PSpawn h else PStart) h' = 0%Z).
    { apply holds_one_other. destruct acquired, isOld; simpl; congruence. }
    rewrite Hz. destruct (Hc h' k' r' Hr) as [(Hb & Hrc & Hlive)|(Hb & Hho & Hg & Hno)].
    + left. split; [done|]. split; [lia|]. destruct Hlive as [?|[t' Hcr]]; [by left|right].
      exists t'. right. split; [|done]. intros ->. destruct Hcr as (th' & Ht' & Hp').
      rewrite Ht in Ht'. simplify_eq. rewrite Hp in Hp'. by destruct isOld; simplify_eq/=.
    + right. split; [done|]. split; [lia|]. split; [done|].
      intros t' [[_ Hcr]|[_ Hcr]]; [|by eapply Hno]. destruct acquired, isOld; by simplify_eq/=.
Qed.

(** A step that moves one thread within the handle that it holds, or starts it. *)
Lemma counter_inv_set s t th p hs ms :
  counter_inv s → threads s !! t = Some th →
  (∀ h, holds_one p h = holds_one (tPc th) h) →
  (∀ h, pc_creates p = Some h ↔ pc_creates (tPc th) = Some h) →
  counter_inv {| threads := set_pc s t th p; handles := hs; counters := counters s;
    goroutines := goroutines s; mail := ms |}.
Proof.
  intros Hc Ht Hho Hcr h k rc Hk. simpl in Hk.
  assert (Hcreator : ∀ t', creator {| threads := set_pc s t th p; handles := hs; counters := counters s;
    goroutines := goroutines s; mail := ms |} h t' ↔ creator s h t').
  { intros t'. rewrite creator_set, Hcr. split.
    - intros [[-> ?]|[_ ?]]; [by exists th|done].
    - intros Hc'. destruct (decide (t' = t)) as [->|]; [left|by right]. split; [done|].
      destruct Hc' as (th' & Ht' & ?). by simplify_eq. }
  unfold in_use, fused. simpl. setoid_rewrite Hcreator.
  rewrite (holders_set s t th), Hho by done.
  destruct (Hc h k rc Hk) as [(? & ? & ?)|(? & ? & ? & ?)]; [left|right]; (split; [done|]); (split; [lia|done]).
Qed.

(** A step of a goroutine that is not fused and does not fuse. *)
Lemma counter_inv_gor s h g g' ms :
  counter_inv s → goroutines s !! h = Some g → g ≠ GFused → g' ≠ GFused →
  counter_inv {| threads := threads s; handles := handles s; counters := counters s;
    goroutines := <[h := g']> (goroutines s); mail := ms |}.
Proof.
  intros Hc Hg Hng Hng' h' k rc Hk. simpl in Hk. unfold in_use, fused. simpl.
  destruct (Hc h' k rc Hk) as [(Hb & Hrc & Hlive)|(Hb & Hho & Hgor & Hno)].
  - left. split; [done|]. split; [done|]. destruct (decide (h = h')) as [<-|Hne].
    + left. exists g'. by rewrite lookup_insert_eq.
    + rewrite lookup_insert_ne by done. done.
  - right. split; [done|]. split; [done|]. split; [|done].
    assert (h ≠ h') by (intros <-; destruct Hgor; congruence). by rewrite lookup_insert_ne.
Qed.

Lemma counter_inv_load_new s t th h :
  handle_inv s → counter_inv s → threads s !! t = Some th → tPc th = PStart → counters s !! h = None →
  counter_inv {| threads := set_pc s t th (PLoaded h false); handles := <[tKey th := h]> (handles s);
    counters := <[h := (tKey th, FusedRC.New)]> (counters s); goroutines := goroutines s; mail := mail s |}.
Proof.
  intros Hi Hc Ht Hp Hh h' k rc Hk. simpl in Hk. unfold in_use, fused. simpl.
  setoid_rewrite creator_set. rewrite (holders_set s t th) by done.
  rewrite !holds_one_other by (rewrite ?Hp; done).
  apply lookup_insert_Some in Hk as [[<- [= <- <-]]|[Hne Hk]].
  - left. split; [by vm_compute|]. split; [|right; exists t; by left].
    assert (holders (threads s) h = 0%Z) as ->; [|done].
    unfold holders. rewrite (proj2 (map_size_empty_iff _)); [done|].
    apply map_empty. intros t'. apply map_lookup_filter_None. right. intros th' Ht' Hho.
    unfold holds in Hho. simpl in Hho.
    destruct (inv_key s Hi t' th' h Ht') as [? ?]; [by destruct (tPc th')|congruence].
  - destruct (Hc h' k rc Hk) as [(Hb & Hrc & Hlive)|(Hb & Hho & Hgor & Hno)].
    + left. split; [done|]. split; [lia|]. destruct Hlive as [?|[t' Hcr]]; [by left|right].
      exists t'. right. split; [|done]. intros ->. destruct Hcr as (th' & Ht' & Hp'). simplify_eq.
      by rewrite Hp in Hp'.
    + right. split; [done|]. split; [lia|]. split; [done|]. intros t' [[_ [= ?]]|[_ ?]]; [done|by eapply Hno].
Qed.

Lemma counter_inv_spawn s t th h :
  counter_inv s → threads s !! t = Some th → tPc th = PSpawn h →
  counter_inv {| threads := set_pc s t th (PSend h); handles := handles s; counters := counters s;
    goroutines := <[h := GIdle]> (goroutines s); mail := mail s |}.
Proof.
  intros Hc Ht Hp h' k rc Hk. simpl in Hk. unfold in_use, fused. simpl. setoid_rewrite creator_set.
  rewrite (holders_set s t th) by done.
  assert (Hsame : holds_one (PSend h) h' = holds_one (tPc th) h') by (unfold holds_one; by rewrite Hp).
  assert (Hcr0 : creator s h t) by (exists th; by rewrite Hp).
  destruct (Hc h' k rc Hk) as [(Hb & Hrc & Hlive)|(Hb & Hho & Hgor & Hno)].
  - left. split; [done|]. split; [lia|]. destruct (decide (h = h')) as [<-|Hne].
    + left. exists GIdle. by rewrite lookup_insert_eq.
    + rewrite lookup_insert_ne by done. destruct Hlive as [?|[t' Hcr]]; [by left|right].
      exists t'. right. split; [|done]. intros ->. destruct Hcr as (th' & Ht' & Hp'). simplify_eq.
      rewrite Hp in Hp'. by simplify_eq/=.
  - right. split; [done|]. split; [lia|].
    assert (h ≠ h') by (intros <-; by apply (Hno t)). rewrite lookup_insert_ne by done.
    split; [done|]. intros t' [[_ ?]|[_ ?]]; [done|by eapply Hno].
Qed.

Lemma counter_inv_release s t th h res key rc rc' :
  counter_inv s → threads s !! t = Some th → tPc th = PRelease h res → counters s !! h = Some (key, rc) →
  FusedRC.Release rc = (rc', Ret tt) →
  counter_inv {| threads := set_pc s t th (PDone res); handles := handles s;
    counters := <[h := (key, rc')]> (counters s); goroutines := goroutines s; mail := mail s |}.
Proof.
  intros Hc Ht Hp Hh Hr h' k' r'. simpl. unfold in_use, fused. simpl. setoid_rewrite creator_set.
  rewrite (holders_set s t th) by done. rewrite (holds_one_other (PDone res)) by done.
  assert (Hone : (1 ≤ holders (threads s) h)%Z) by (eapply holders_in; [done|by rewrite Hp]).
  assert (Hkeep : ∀ h', (∃ t', creator s h' t') → ∃ t', (t' = t ∧ pc_creates (PDone res) = Some h') ∨ (t' ≠ t ∧ creator s h' t')).
  { intros h0 [t' Hcr]. exists t'. right. split; [|done]. intros ->. destruct Hcr as (th' & Ht' & Hp').
    simplify_eq. by rewrite Hp in Hp'. }
  intros Hk. apply lookup_insert_Some in Hk as [[<- [= <- <-]]|[Hne Hk]].
  - rewrite holds_one_same by by rewrite Hp. destruct (Hc h key rc Hh) as [(Hb & Hrc & Hlive)|(Hb & Hho & _)]; [|lia].
    unfold FusedRC.Release in Hr. rewrite wrap32_id in Hr by (unfold in_int32, MinInt32, MaxInt32 in *; lia).
    injection Hr as <- _. left. split; [lia|]. split; [lia|]. destruct Hlive as [?|?]; [by left|right; by apply Hkeep].
  - rewrite holds_one_other by (rewrite Hp; simpl; congruence). destruct (Hc h' k' r' Hk) as [(Hb & Hrc & Hlive)|(Hb & Hho & Hgor & Hno)].
    + left. split; [done|]. split; [lia|]. destruct Hlive as [?|?]; [by left|right; by apply Hkeep].
    + right. split; [done|]. split; [lia|]. split; [done|]. intros t' [[_ ?]|[_ ?]]; [done|by eapply Hno].
Qed.

Lemma counter_inv_fuse s h key rc rc' ok :
  handle_inv s → counter_inv s → goroutines s !! h = Some GIdle → counters s !! h = Some (key, rc) →
  FusedRC.Fuse rc = (rc', ok) →
  counter_inv {| threads := threads s; handles := handles s; counters := <[h := (key, rc')]> (counters s);
    goroutines := <[h := if ok : bool then GFused else GIdle]> (goroutines s); mail := mail s |}.
Proof.
  intros Hi Hc Hg Hh Hf. unfold FusedRC.Fuse in Hf. destruct (Z.eqb_spec rc 0) as [->|Hne]; injection Hf as <- <-.
  - intros h' k r Hk. simpl in Hk. unfold in_use, fused. simpl. apply lookup_insert_Some in Hk as [[<- [= <- <-]]|[Hne Hk]].
    + right. destruct (Hc h key 0%Z Hh) as [(_ & Hho & _)|(? & _)]; [|lia].
      split; [by vm_compute|]. split; [done|]. rewrite lookup_insert_eq. split; [by left|].
      intros t Hcr. pose proof (inv_creator_gor s Hi h t Hcr). congruence.
    + rewrite lookup_insert_ne by done. by apply (Hc h' k).
  - rewrite (insert_id (counters s)) by done. by apply (counter_inv_gor s h GIdle).
Qed.

Lemma counter_inv_step s s' : handle_inv s → counter_inv s → step s s' → counter_inv s'.
Proof.
  intros Hi Hc Hstep. destruct Hstep as [s t key a Hn|s t th h Ht Hp Hh|s t th h Ht Hp Hh Hch
    |s t th h isOld key rc rc' acq Ht Hp Hch Ha|s t th h Ht Hp|s t th h g batch Ht Hp Hg Hb
    |s h batch batch' sent ctxErr Hg Hck|s h batch batch' sent next result Hg Hd|s h batch err Hg
    |s h key rc rc' ok Hg Hch Hf|s h key rc Hg Hch|s t th h res Ht Hp Hm|s t th h res key rc rc' Ht Hp Hch Hr].
  - intros h k rc Hk. simpl in Hk. destruct (Hc h k rc Hk) as [(? & ? & Hlive)|(? & ? & ? & Hno)];
      [left|right]; unfold in_use, fused, creator; simpl; rewrite holders_fresh, holds_one_other by done;
      (split; [done|]); (split; [lia|]).
    + destruct Hlive as [?|(t' & th & ? & ?)]; [by left|right]. exists t', th.
      rewrite lookup_insert_ne by congruence. done.
    + split; [done|]. intros t' (th & [[<- <-]|[_ ?]]%lookup_insert_Some & ?); [done|]. apply (Hno t'). by exists th.
  - apply counter_inv_set; try done; rewrite Hp; done.
  - by apply counter_inv_load_new.
  - by eapply counter_inv_acquire.
  - by apply counter_inv_spawn.
  - assert (Hc' : counter_inv {| threads := set_pc s t th (PWait h); handles := handles s;
      counters := counters s; goroutines := goroutines s; mail := mail s |}).
    { apply counter_inv_set; try done; rewrite Hp; done. }
    eapply (counter_inv_gor _ h g _ (mail s) Hc'); [done|naive_solver|done].
  - eapply (counter_inv_gor s h (GBatch batch)); [done|done|done|by destruct (_ =? 0)].
  - eapply (counter_inv_gor s h (GExec batch)); [done|done|done|by destruct (Optional.IsSome _)].
  - by eapply (counter_inv_gor s h (GBatch batch)).
  - by eapply counter_inv_fuse.
  - intros h' k r Hk. simpl in Hk. unfold in_use, fused. simpl. destruct (decide (h = h')) as [<-|Hne].
    + rewrite lookup_delete_eq. destruct (Hc h k r Hk) as [(_ & _ & [(g & ? & ?)|[t Hcr]])|(? & ? & _ & ?)]; [congruence| |].
      * pose proof (inv_creator_gor s Hi h t Hcr). congruence.
      * right. auto.
    + rewrite lookup_delete_ne by done. by apply (Hc h' k).
  - apply counter_inv_set; try done; rewrite Hp; done.
  - by eapply counter_inv_release.
Qed.

(** *** Requests and replies *)
Definition channels (g : goroutine Arg) : list nat :=
  match g with GBatch batch | GExec batch => resultCh <$> batch | GIdle | GFused => [] end.

Definition waits s (t h : nat) : Prop := ∃ th, threads s !! t = Some th ∧ tPc th = PWait h.

Record mail_inv s : Prop := {
  inv_batch : ∀ h g, goroutines s !! h = Some g →
    NoDup (channels g) ∧ ∀ ch, ch ∈ channels g → waits s ch h ∧ mail s !! ch = None;
  inv_wait : ∀ t h, waits s t h →
    is_Some (mail s !! t) ∨ ∃ g, goroutines s !! h = Some g ∧ t ∈ channels g;
  inv_mail : ∀ t, is_Some (mail s !! t) → ∃ h, waits s t h
}.

Lemma waits_unique s t h h' : waits s t h → waits s t h' → h = h'.
Proof. intros (th & Ht & Hp) (th' & Ht' & Hp'). congruence. Qed.

Lemma waits_set s t th p hs cs gs ms t' h :
  waits {| threads := set_pc s t th p; handles := hs; counters := cs; goroutines := gs; mail := ms |} t' h ↔
    (t' = t ∧ p = PWait h) ∨ (t' ≠ t ∧ waits s t' h).
Proof.
  unfold waits. simpl. setoid_rewrite set_pc_Some. split.
  - intros (th' & [[-> ->]|[? ?]] & Hp); [by left|right; eauto].
  - intros [[-> ->]|[Hne (th' & ? & ?)]]; [|by eauto 10]. eexists. split; [by left|done].
Qed.

Lemma lookup_deliver (m : gmap nat (submitResult Result)) sent t :
  is_Some (deliver m sent !! t) ↔ t ∈ sent.*1 ∨ is_Some (m !! t).
Proof.
  unfold deliver. revert m. induction sent as [|[ch res] sent IH]; intros m; simpl; [set_solver|].
  rewrite IH, lookup_insert_is_Some', elem_of_cons. naive_solver.
Qed.

(** A step that moves one thread which does not wait, before and after. *)
Lemma mail_inv_set s t th p hs cs :
  mail_inv s → threads s !! t = Some th → (∀ h, tPc th ≠ PWait h) → (∀ h, p ≠ PWait h) →
  mail_inv {| threads := set_pc s t th p; handles := hs; counters := cs;
    goroutines := goroutines s; mail := mail s |}.
Proof.
  intros [Hb Hw Hm] Ht Hold Hnew.
  assert (Hiff : ∀ t' h, waits {| threads := set_pc s t th p; handles := hs; counters := cs;
    goroutines := goroutines s; mail := mail s |} t' h ↔ waits s t' h).
  { intros t' h. rewrite waits_set. split.
    - intros [[_ ?]|[_ ?]]; [by destruct (Hnew h)|done].
    - intros Hwait. right. split; [|done]. intros ->. destruct Hwait as (th' & ? & Hp'). simplify_eq.
      by destruct (Hold h). }
  split; simpl; setoid_rewrite Hiff; eauto.
Qed.

(** A goroutine answers a part of its batch and keeps the rest. *)
Lemma mail_inv_reply s h g g' sent :
  mail_inv s → goroutines s !! h = Some g → sent.*1 ++ channels g' ≡ₚ channels g →
  mail_inv {| threads := threads s; handles := handles s; counters := counters s;
    goroutines := <[h := g']> (goroutines s); mail := deliver (mail s) sent |}.
Proof.
  intros [Hb Hw Hm] Hg Hperm. destruct (Hb h g Hg) as [Hnd Hall].
  assert (Hin : ∀ ch, ch ∈ channels g ↔ ch ∈ sent.*1 ∨ ch ∈ channels g').
  { intros ch. by rewrite <- Hperm, elem_of_app. }
  pose proof Hnd as Hnd'. rewrite <- Hperm in Hnd'. apply NoDup_app in Hnd' as (_ & Hdisj & Hnd').
  split; simpl; unfold waits in *; simpl.
  - intros h' g0 Hg0. apply lookup_insert_Some in Hg0 as [[<- <-]|[Hne Hg0]].
    + split; [done|]. intros ch Hch. destruct (Hall ch) as [Hwait Hmail]; [apply Hin; by right|].
      split; [done|]. apply eq_None_not_Some. rewrite lookup_deliver, Hmail.
      intros [Hs|[? ?]]; [|done]. by apply (Hdisj ch).
    + destruct (Hb h' g0 Hg0) as [Hnd0 Hall0]. split; [done|]. intros ch Hch.
      destruct (Hall0 ch Hch) as [Hwait Hmail]. split; [done|].
      apply eq_None_not_Some. rewrite lookup_deliver, Hmail. intros [Hs|[? ?]]; [|done].
      apply Hne. eapply (waits_unique s ch); [|exact Hwait]. apply Hall, Hin. by left.
  - intros t h' Hwait. destruct (Hw t h' Hwait) as [?|(g0 & Hg0 & Ht)].
    + left. apply lookup_deliver. by right.
    + destruct (decide (h = h')) as [<-|Hne].
      * simplify_eq. apply Hin in Ht as [Ht|Ht]; [left; apply lookup_deliver; by left|].
        right. exists g'. by rewrite lookup_insert_eq.
      * right. exists g0. by rewrite lookup_insert_ne.
  - intros t [Hs|Hs]%lookup_deliver; [|by apply Hm].
    exists h. apply Hall, Hin. by left.
Qed.

Lemma mail_inv_send s t th h g batch :
  mail_inv s → threads s !! t = Some th → tPc th = PSend h → goroutines s !! h = Some g →
  channels g = resultCh <$> batch →
  mail_inv {| threads := set_pc s t th (PWait h); handles := handles s; counters := counters s;
    goroutines := <[h := GBatch (batch ++ [request_of t th])]> (goroutines s); mail := mail s |}.
Proof.
  intros [Hb Hw Hm] Ht Hp Hg Hch. destruct (Hb h g Hg) as [Hnd Hall]. rewrite Hch in Hnd, Hall.
  assert (Hnot : ∀ h', ¬ waits s t h') by (intros h' (th' & ? & ?); congruence).
  assert (Hnomail : mail s !! t = None).
  { apply eq_None_not_Some. intros Hs. destruct (Hm t Hs) as [h' Hwait]. by apply (Hnot h'). }
  split; simpl.
  - intros h' g0 Hg0. apply lookup_insert_Some in Hg0 as [[<- <-]|[Hne Hg0]].
    + simpl. rewrite fmap_app. simpl. split.
      * apply NoDup_app. split; [done|]. split; [|apply NoDup_singleton].
        intros ch Hin ->%list_elem_of_singleton. destruct (Hall t Hin) as [Hwait _]. by apply (Hnot h).
      * intros ch. rewrite elem_of_app, list_elem_of_singleton, waits_set.
        intros [Hin| ->]; [|by split; [left|]]. destruct (Hall ch Hin) as [Hwait ?].
        split; [right|done]. split; [|done]. intros ->. by apply (Hnot h).
    + destruct (Hb h' g0 Hg0) as [Hnd0 Hall0]. split; [done|]. intros ch Hin.
      destruct (Hall0 ch Hin) as [Hwait ?]. rewrite waits_set. split; [right|done]. split; [|done].
      intros ->. by apply (Hnot h').
  - intros t' h'. rewrite waits_set. intros [[-> [= <-]]|[Hne Hwait]].
    + right. eexists. rewrite lookup_insert_eq. split; [done|]. simpl. rewrite fmap_app. set_solver.
    + destruct (Hw t' h' Hwait) as [?|(g0 & Hg0 & Hin)]; [by left|right].
      destruct (decide (h = h')) as [<-|Hneh].
      * simplify_eq. eexists. rewrite lookup_insert_eq. split; [done|]. simpl. rewrite fmap_app, <- Hch.
        apply elem_of_app. by left.
      * exists g0. by rewrite lookup_insert_ne.
  - intros t' Hs. destruct (Hm t' Hs) as [h' Hwait]. exists h'. rewrite waits_set. right.
    split; [|done]. intros ->. by apply (Hnot h').
Qed.

Lemma mail_inv_receive s t th h res :
  mail_inv s → threads s !! t = Some th → tPc th = PWait h → mail s !! t = Some res →
  mail_inv {| threads := set_pc s t th (PRelease h res); handles := handles s; counters := counters s;
    goroutines := goroutines s; mail := delete t (mail s) |}.
Proof.
  intros [Hb Hw Hm] Ht Hp Hres.
  assert (Hne : ∀ t' h' ch, waits s t' h' → mail s !! t' = None → ch = t' → ch ≠ t) by (intros; congruence).
  split; simpl.
  - intros h' g Hg. destruct (Hb h' g Hg) as [Hnd Hall]. split; [done|]. intros ch Hin.
    destruct (Hall ch Hin) as [Hwait Hmail]. rewrite waits_set. assert (ch ≠ t) by congruence.
    split; [by right|]. by rewrite lookup_delete_ne.
  - intros t' h'. rewrite waits_set. intros [[_ ?]|[Hn Hwait]]; [done|].
    rewrite lookup_delete_ne by done. eauto.
  - intros t' [r Hr]. apply lookup_delete_Some in Hr as [Hn Hr]. destruct (Hm t') as [h' Hwait]; [eauto|].
    exists h'. rewrite waits_set. right. done.
Qed.

Lemma mail_inv_gor s h g g' hs cs :
  mail_inv s → goroutines s !! h = Some g → channels g = [] → channels g' = [] →
  mail_inv {| threads := threads s; handles := hs; counters := cs;
    goroutines := <[h := g']> (goroutines s); mail := mail s |}.
Proof.
  intros [Hb Hw Hm] Hg Hc Hc'. split; simpl; unfold waits in *; simpl; [| |done].
  - intros h' g0 Hg0. apply lookup_insert_Some in Hg0 as [[<- <-]|[_ Hg0]]; [|by apply Hb].
    rewrite Hc'. split; [apply NoDup_nil_2|set_solver].
  - intros t h' Hwait. destruct (Hw t h' Hwait) as [?|(g0 & Hg0 & Hin)]; [by left|right].
    exists g0. rewrite lookup_insert_ne; [done|]. intros <-. simplify_eq. rewrite Hc in Hin. set_solver.
Qed.

Lemma mail_inv_step s s' : handle_inv s → mail_inv s → step s s' → mail_inv s'.
Proof.
  intros Hi Hm Hstep. destruct Hstep as [s t key a Hn|s t th h Ht Hp Hh|s t th h Ht Hp Hh Hch
    |s t th h isOld key rc rc' acq Ht Hp Hch Ha|s t th h Ht Hp|s t th h g batch Ht Hp Hg Hb
    |s h batch batch' sent ctxErr Hg Hck|s h batch batch' sent next result Hg Hd|s h batch err Hg
    |s h key rc rc' ok Hg Hch Hf|s h key rc Hg Hch|s t th h res Ht Hp Hmail|s t th h res key rc rc' Ht Hp Hch Hr].
  - assert (Hiff : ∀ t' h, waits {| threads := <[t := {| tKey := key; tArg := a; tPc := PStart |}]> (threads s);
      handles := handles s; counters := counters s; goroutines := goroutines s; mail := mail s |} t' h ↔ waits s t' h).
    { intros t' h. unfold waits. simpl. setoid_rewrite lookup_insert_Some. split.
      - intros (th & [[<- <-]|[_ ?]] & ?); [done|by exists th].
      - intros (th & ? & ?). exists th. split; [right; split; [congruence|done]|done]. }
    destruct Hm as [Hb Hw Hmm]. split; simpl; setoid_rewrite Hiff; eauto.
  - by apply mail_inv_set; try rewrite Hp.
  - by apply mail_inv_set; try rewrite Hp.
  - apply mail_inv_set; try rewrite Hp; try done. by destruct acq, isOld.
  - assert (Hg : goroutines s !! h = None).
    { eapply (inv_creator_gor s Hi h t). exists th. by rewrite Hp. }
    destruct (mail_inv_set s t th (PSend h) (handles s) (counters s) Hm Ht) as [Hb Hw Hmm];
      [by rewrite Hp|done|]. simpl in *. split; simpl; unfold waits in *; simpl in *; [| |done].
    + intros h' g Hg'. apply lookup_insert_Some in Hg' as [[<- <-]|[_ Hg']]; [|by apply Hb].
      simpl. split; [apply NoDup_nil_2|set_solver].
    + intros t' h' Hwait. destruct (Hw t' h' Hwait) as [?|(g & Hg' & Hin)]; [by left|right].
      exists g. rewrite lookup_insert_ne; [done|congruence].
  - apply (mail_inv_send s t th h g); try done. by destruct Hb as [[-> ->]| ->].
  - destruct (checkCanceled_spec (Result := Result) ctxErr batch) as (b & se & Hck' & Hk & Hs & _).
    rewrite Hck in Hck'. injection Hck' as <- <-.
    apply (mail_inv_reply s h (GBatch batch)); [done|done|]. simpl channels at 2.
    rewrite <- (filter_split_channels ctxErr batch), Hs. apply Permutation_app_head.
    rewrite <- Hk. destruct (Nat.eqb_spec (length batch') 0) as [Hz|_]; [by destruct batch'|].
    simpl. by rewrite incrementRetries_channels.
  - apply (mail_inv_reply s h (GExec batch)); [done|done|]. simpl channels at 2.
    rewrite <- (dispatchResult_partition _ _ _ _ _ Hd). by destruct (Optional.IsSome next).
  - apply (mail_inv_reply s h (GBatch batch)); [done|done|]. simpl.
    unfold cancelBatch. by rewrite app_nil_r, <- list_fmap_compose.
  - eapply (mail_inv_gor s h GIdle); [done|done|done|by destruct ok].
  - destruct Hm as [Hb Hw Hmm]. split; simpl; unfold waits in *; simpl; [| |done].
    + intros h' g [_ Hg']%lookup_delete_Some. by apply Hb.
    + intros t h' Hwait. destruct (Hw t h' Hwait) as [?|(g & Hg' & Hin)]; [by left|right].
      exists g. rewrite lookup_delete_ne; [done|]. intros <-. simplify_eq. simpl in Hin. set_solver.
  - by apply mail_inv_receive.
  - by apply mail_inv_set; try rewrite Hp.
Qed.

Lemma reachable_invariants s : reachable s → handle_inv s ∧ counter_inv s ∧ mail_inv s.
Proof.
  induction 1 as [|s s' _ (Hi & Hc & Hm) Hstep].
  - split; [|split].
    + split; simpl; try done; intros; unfold creator in *; simpl in *; naive_solver.
    + by intros h k rc.
    + split; simpl; [done| |by intros ? [? ?]]. intros t h (th & ? & _). done.
  - split; [by eapply handle_inv_step|]. split; [by eapply counter_inv_step|by eapply mail_inv_step].
Qed.

End pool_invariants.

(** ** Properties *)

(** C12. In every reachable state a batch goroutine that lives serves the handle that the map has for its key, and two of them never serve
    the same key: the executions of one key never overlap, even while handles are fused, deleted and created again. *)
Theorem Pool_mutual_exclusion {Key Arg Result} `{Countable Key} `{!Zero Result}
    (s : Pool.state Key Arg Result) (h1 h2 : nat) (key1 key2 : Key) g1 g2 rc1 rc2 :
  Pool.reachable s →
  Pool.goroutines s !! h1 = Some g1 → Pool.goroutines s !! h2 = Some g2 →
  Pool.counters s !! h1 = Some (key1, rc1) → Pool.counters s !! h2 = Some (key2, rc2) →
  Pool.handles s !! key1 = Some h1 ∧ (h1 ≠ h2 → key1 ≠ key2).
Proof.
  intros Hr Hg1 Hg2 Hc1 Hc2. destruct (reachable_invariants s Hr) as (Hi & _ & _).
  destruct (inv_gor s Hi h1 g1 Hg1) as (k1 & r1 & Hk1 & Hm1).
  destruct (inv_gor s Hi h2 g2 Hg2) as (k2 & r2 & Hk2 & Hm2). simplify_eq. split; [done|]. congruence.
Qed.

Definition example_state : Pool.state string unit Z := {|
  Pool.threads := {[ 1 := {| Pool.tKey := "k"; Pool.tArg := tt; Pool.tPc := Pool.PSend 0 |} ]};
  Pool.handles := {[ "k" := 0 ]}; Pool.counters := {[ 0 := ("k", 1%Z) ]};
  Pool.goroutines := {[ 0 := Pool.GIdle ]}; Pool.mail := ∅ |}.

Lemma example_state_reachable : Pool.reachable example_state.
Proof.
  set (th p := {| Pool.tKey := "k"; Pool.tArg := tt; Pool.tPc := p |} : Pool.thread string unit Z).
  assert (Hgo : ∀ s s' : Pool.state string unit Z, Pool.reachable s → Pool.step s s' → Pool.reachable s')
    by apply Pool.reachable_step.
  set (s0 := Pool.initial : Pool.state string unit Z).
  assert (R0 : Pool.reachable s0) by apply Pool.reachable_initial.
  pose proof (Hgo s0 _ R0 (Pool.step_submit s0 1 "k" tt eq_refl)) as R1.
  match type of R1 with Pool.reachable ?s => set (s1 := s) in R1 end.
  pose proof (Hgo s1 _ R1 (Pool.step_load_new s1 1 (th Pool.PStart) 0 eq_refl eq_refl eq_refl eq_refl)) as R2.
  match type of R2 with Pool.reachable ?s => set (s2 := s) in R2 end.
  pose proof (Hgo s2 _ R2 (Pool.step_acquire s2 1 (th (Pool.PLoaded 0 false)) 0 false "k"
    0%Z 1%Z true eq_refl eq_refl eq_refl eq_refl)) as R3.
  match type of R3 with Pool.reachable ?s => set (s3 := s) in R3 end.
  pose proof (Hgo s3 _ R3 (Pool.step_spawn s3 1 (th (Pool.PSpawn 0)) 0 eq_refl eq_refl)) as R4.
  match type of R4 with Pool.reachable ?s => replace s with example_state in R4 by reflexivity end.
  exact R4.
Qed.

(** Thread 1 gets its reply, its handle is fused and deleted, and threads 2 and 3 submit for its key and for another one: both
    have a goroutine, the first one executes. *)
Definition example_done (t : nat) : Pool.thread string unit Z :=
  {| Pool.tKey := "k"; Pool.tArg := tt; Pool.tPc := Pool.PDone {| RetryBatch.SubmitResult := 7%Z; RetryBatch.Retries := 1%Z; RetryBatch.Err := None |} |}.
Definition example_recreated : Pool.state string unit Z := {|
  Pool.threads := {[ 1 := example_done 1; 2 := {| Pool.tKey := "k"; Pool.tArg := tt; Pool.tPc := Pool.PWait 1 |};
                     3 := {| Pool.tKey := "l"; Pool.tArg := tt; Pool.tPc := Pool.PSend 2 |} ]};
  Pool.handles := {[ "k" := 1; "l" := 2 ]}; Pool.counters := {[ 0 := ("k", FusedRC.fusedInitValue); 1 := ("k", 1%Z); 2 := ("l", 1%Z) ]};
  Pool.goroutines := {[ 1 := Pool.GExec [{| RetryBatch.arg := tt; RetryBatch.retries := 1%Z; RetryBatch.resultCh := 2 |}]; 2 := Pool.GIdle ]};
  Pool.mail := ∅ |}.

(** One more step of a concrete run. *)
Local Tactic Notation "next" hyp(R) uconstr(lem) := eapply Pool.reachable_step in R; [|eapply lem; first [reflexivity|by left]];
  match type of R with Pool.reachable ?s => let s' := eval vm_compute in s in change (Pool.reachable s') in R end.

Lemma example_recreated_reachable : Pool.reachable example_recreated.
Proof.
  set (th k p := {| Pool.tKey := k; Pool.tArg := tt; Pool.tPc := p |} : Pool.thread string unit Z).
  set (req r ch := {| RetryBatch.arg := tt; RetryBatch.retries := r; RetryBatch.resultCh := ch |} : RetryBatch.operationRequest unit).
  set (res := {| RetryBatch.SubmitResult := 7%Z; RetryBatch.Retries := 1%Z; RetryBatch.Err := None |} : RetryBatch.submitResult Z).
  pose proof example_state_reachable as R.
  next R (Pool.step_send _ 1 (th "k" (Pool.PSend 0)) 0 Pool.GIdle []).
  next R (Pool.step_check _ 0 [req 0%Z 1] _ _ (λ _, None)).
  next R (Pool.step_dispatch _ 0 [req 1%Z 1] _ _ _ (RetryBatch.ExecuteResultSuccess (λ _, Ret 7%Z))).
  next R (Pool.step_receive _ 1 (th "k" (Pool.PWait 0)) 0 res).
  next R (Pool.step_release _ 1 (th "k" (Pool.PRelease 0 res)) 0 res "k" 1%Z 0%Z).
  next R (Pool.step_fuse _ 0 "k" 0%Z FusedRC.fusedInitValue true).
  next R (Pool.step_cleanup _ 0 "k" FusedRC.fusedInitValue).
  next R (Pool.step_submit _ 2 "k" tt).
  next R (Pool.step_load_new _ 2 (th "k" Pool.PStart) 1).
  next R (Pool.step_acquire _ 2 (th "k" (Pool.PLoaded 1 false)) 1 false "k" 0%Z 1%Z true).
  next R (Pool.step_spawn _ 2 (th "k" (Pool.PSpawn 1)) 1).
  next R (Pool.step_send _ 2 (th "k" (Pool.PSend 1)) 1 Pool.GIdle []).
  next R (Pool.step_check _ 1 [req 0%Z 2] _ _ (λ _, None)).
  next R (Pool.step_submit _ 3 "l" tt).
  next R (Pool.step_load_new _ 3 (th "l" Pool.PStart) 2).
  next R (Pool.step_acquire _ 3 (th "l" (Pool.PLoaded 2 false)) 2 false "l" 0%Z 1%Z true).
  next R (Pool.step_spawn _ 3 (th "l" (Pool.PSpawn 2)) 2).
  exact R.
Qed.

Lemma Pool_mutual_exclusion_witness :
  Pool.handles example_recreated !! "k" = Some 1 ∧ Pool.goroutines example_recreated !! 0 = None ∧ "k" ≠ "l".
Proof.
  destruct (Pool_mutual_exclusion example_recreated 1 2 "k" "l" _ _ 1%Z 1%Z example_recreated_reachable eq_refl eq_refl eq_refl eq_refl) as [Hk Hne].
  split; [exact Hk|]. split; [|by apply Hne].
  destruct (Pool.goroutines example_recreated !! 0) as [g|] eqn:Hg; [|done].
  destruct (Pool_mutual_exclusion example_recreated 0 1 "k" "k" _ _ FusedRC.fusedInitValue 1%Z example_recreated_reachable Hg eq_refl eq_refl eq_refl) as [_ Hsame].
  by destruct (Hsame (Nat.neq_0_succ 0)).
Defined.

(** C13. No request is stranded and none is answered twice. A thread that waits for its reply is
    a holder of a handle that is not fused, and its request is in the batch of the living
    goroutine of that handle or its reply is in its channel, never both; a request is in a
    batch at most once; so a reply always finds its channel empty. A thread that is about to
    send its request finds its handle served by a goroutine, or about to be. *)
Theorem Pool_no_stranded_request {Key Arg Result} `{Countable Key} `{!Zero Result}
    (s : Pool.state Key Arg Result) (t h : nat) (th : Pool.thread Key Arg Result) :
  Pool.reachable s → Pool.threads s !! t = Some th →
  (Pool.tPc th = Pool.PWait h →
    (is_Some (Pool.mail s !! t) ∧ (∀ h' g, Pool.goroutines s !! h' = Some g → t ∉ channels g)) ∨
    (Pool.mail s !! t = None ∧ ∃ g, Pool.goroutines s !! h = Some g ∧ t ∈ channels g ∧ NoDup (channels g))) ∧
  (Pool.tPc th = Pool.PSend h →
    (∃ g, Pool.goroutines s !! h = Some g ∧ g ≠ Pool.GFused) ∨ ∃ t', creator s h t').
Proof.
  intros Hr Ht. destruct (reachable_invariants s Hr) as (Hi & Hc & Hm). split; intros Hp.
  - assert (Hwait : waits s t h) by by exists th. destruct (Pool.mail s !! t) as [r|] eqn:Hmail.
    + left. split; [done|]. intros h' g Hg Hin. destruct (inv_batch s Hm h' g Hg) as [_ Hall].
      destruct (Hall t Hin) as [_ ?]. congruence.
    + right. split; [done|]. destruct (inv_wait s Hm t h Hwait) as [[? ?]|(g & Hg & Hin)]; [congruence|].
      exists g. split; [done|]. split; [done|]. apply (inv_batch s Hm h g Hg).
  - destruct (inv_key s Hi t th h Ht) as [rc Hrc]; [by rewrite Hp|].
    assert (Hone : (1 ≤ holders (Pool.threads s) h)%Z) by (eapply holders_in; [done|by rewrite Hp]).
    destruct (Hc h _ rc Hrc) as [(_ & _ & Hlive)|(_ & Hho & _)]; [done|lia].
Qed.

Lemma Pool_no_stranded_request_witness :
  (∃ g, Pool.goroutines example_state !! 0 = Some g ∧ g ≠ Pool.GFused) ∨ ∃ t', creator example_state 0 t'.
Proof.
  destruct (Pool_no_stranded_request example_state 1 0
    {| Pool.tKey := "k"; Pool.tArg := tt; Pool.tPc := Pool.PSend 0 |}) as [_ Hsend].
  - apply example_state_reachable.
  - reflexivity.
  - exact (Hsend eq_refl).
Defined.

(** C14. The counter of a handle that is not fused is the number of threads that hold it, and a
    fused handle has no holder: a release never underflows, and a handle is fused only when
    nobody uses it. *)
Theorem Pool_counter_counts_holders {Key Arg Result} `{Countable Key} `{!Zero Result}
    (s : Pool.state Key Arg Result) (h : nat) (key : Key) (rc : Z) :
  Pool.reachable s → Pool.counters s !! h = Some (key, rc) →
  ((0 ≤ rc)%Z ∧ rc = holders (Pool.threads s) h) ∨ ((rc < 0)%Z ∧ holders (Pool.threads s) h = 0%Z).
Proof.
  intros Hr Hrc. destruct (reachable_invariants s Hr) as (_ & Hc & _).
  destruct (Hc h key rc Hrc) as [(? & ? & _)|(? & ? & _)]; [left|right]; (split; [lia|done]).
Qed.

Lemma Pool_counter_counts_holders_witness :
  ((0 ≤ 1)%Z ∧ 1%Z = holders (Pool.threads example_state) 0) ∨
  ((1 < 0)%Z ∧ holders (Pool.threads example_state) 0 = 0%Z).
Proof.
  apply (Pool_counter_counts_holders example_state 0 "k" 1%Z); [apply example_state_reachable|reflexivity].
Defined.
