(* ===== verification/Informer.v ===== *)
(** * Informer: the indexed view of the PodProtectors of all source clusters

    [Module Informer] is util/podprotector/informer.go and multi_informer.go: the selector
    index that the event handler of a source maintains, and the state that multiplexes the
    sources, with what it answers; [Watch] says how it changes. The listers of client-go are functions of the
    model. *)

From S2P Require Import Prelude Util Errors Iter Canonical SetTrie LabelIndex Api PprUtil.

Module Informer.
Import Namespaced.

Record PodProtectorKey : Type := { SourceName : string; NsName : NamespacedName }.
#[global] Instance PodProtectorKey_eq_dec : EqDecision PodProtectorKey.
Proof. solve_decision. Defined.
#[global] Program Instance PodProtectorKey_countable : Countable PodProtectorKey :=
  inj_countable' (λ k, (SourceName k, NsName k)) (λ p, {| SourceName := p.1; NsName := p.2 |}) _.
Next Obligation. by intros []. Qed.

Section informer.
Context `{!GoRuntime, !KubeErrors}.

Definition SelectorIndex : Type := Locked.Locked (Namespaced (Selectors.Selectors string)).

#[local] Instance selectors_index_instance :
  LabelIndex.Index (Namespaced (Selectors.Selectors string)) NamespacedName LabelSelector
    (NamespacedQuery (gmap string string)) (option error) unit :=
  Namespaced_Index LabelIndex.EmptyErrAdapter Selectors.NewSelectors.

Definition NewSelectorIndex : SelectorIndex := Locked.NewLocked NewNamespaced.

(** The event handler of [SetupPprInformer]; [None]: it waits for the lock of the index. The
    error is reported to the observer, and [postHandler] runs in any case. *)
Definition handlePprEvent (selectorIndex : SelectorIndex) (ppr : PodProtector) (stillPresent : bool) :
    option (outcome (SelectorIndex * option error * NamespacedName)) :=
  let nsName := {| Namespaced.Namespace := Api.Namespace (pprMeta ppr);
                   Namespaced.Name := Api.Name (pprMeta ppr) |} in
  if stillPresent then
    run ← Locked.Track selectorIndex nsName (PprUtil.GetAggregationSelector ppr);
    Some ('(index, err) ← run; Ret (index, err, nsName))
  else
    run ← Locked.Untrack selectorIndex nsName;
    Some ('(index, _) ← run; Ret (index, None, nsName)).

Record sourceState : Type := {
  lister : string → string → option PodProtector * option error;
  hasSynced : bool;
  selectorIndex : SelectorIndex
}.

(** [sources] is nil before the first list of sources. *)
Record informerState : Type := {
  started : bool;
  isSourceIdent : bool;
  sources : option (gmap string sourceState)
}.

Definition HasSynced (state : informerState) : bool :=
  match sources state with
  | None => false
  | Some sources => forallb (λ '(_, cell), hasSynced cell) (map_order sources)
  end.

(** The loop of [Get]: the newest version, or the first error that is not NotFound. *)
Fixpoint getFrom (key : NamespacedName) (sources : list (string * sourceState)) (out : option PodProtector) :
    option PodProtector * option error :=
  match sources with
  | [] => (out, None)
  | (_, cellState) :: sources =>
      match lister cellState (Namespaced.Namespace key) (Namespaced.Name key) with
      | (_, Some err) =>
          if negb (IsNotFound err) then (out, Some (TagWrapf "GetListerPpr" (Some err) "get ppr from lister"))
          else getFrom key sources out
      | (Some ppr, None) =>
          getFrom key sources (Optional.SetOrChoose out ppr (λ pp1 pp2,
            time_After (CreationTimestamp (pprMeta pp2)) (CreationTimestamp (pprMeta pp1))))
      | (None, None) => getFrom key sources out
      end
  end.

Definition Get (state : informerState) (key : PodProtectorKey) :
    outcome (option PodProtector * option error) :=
  let all := default ∅ (sources state) in
  selected ← (if isSourceIdent state
    then Iter.CollectMap (Iter.Filter (Iter.FromMap all) (λ '(left_, _), bool_decide (left_ = SourceName key)))
    else Ret all);
  Ret (getFrom (NsName key) (map_order selected) None).

(** The iteration over the names that one source found, to its end. *)
Definition insertNames (isSourceIdent : bool) (sourceName : string) (out : gset PodProtectorKey)
    (l : SelectorIndex) (nameIter : option (Iter.AffineIter SelectorIndex NamespacedName)) :
    outcome (gset PodProtectorKey) :=
  match nameIter with
  | None => Panic "invalid memory address or nil pointer dereference"
  | Some nameIter =>
      '(out, _, _) ← nameIter _ (λ nn out,
          let key := {| SourceName := if isSourceIdent then sourceName else ""; NsName := nn |} in
          Ret ({[key]} ∪ out, Iter.Continue)) out (false, l);
      Ret out
  end.

(** The body of the loop of [Query] for one source. *)
Definition querySource (isSourceIdent : bool) (namespace : string) (labels : gmap string string)
    (out : gset PodProtectorKey) (source : string * sourceState) : outcome (gset PodProtectorKey) :=
  let '(sourceName, cellState) := source in
  found ← Locked.Query (H := selectors_index_instance) LabelIndex.EmptyErrAdapter
    (selectorIndex cellState) {| queryNamespace := namespace; query := labels |};
  insertNames isSourceIdent sourceName out found.1 found.2.1.

Definition Query (state : informerState) (namespace : string) (labels : gmap string string) :
    outcome (list PodProtectorKey) :=
  out ← outcome_foldl (querySource (isSourceIdent state) namespace labels) ∅
    (map_order (default ∅ (sources state)));
  Ret (set_order out).

End informer.

End Informer.

(** ** Lemmas *)
Section informer_lemmas.
Context `{!GoRuntime, !KubeErrors}.
Import Informer Namespaced.

(** The contract of the composed index that [NewSelectorIndex] builds. *)
Lemma selectors_new_represents :
  LabelIndex.represents (Selectors.NewSelectors : Selectors.Selectors string) ∅.
Proof. split; [apply selectors_repr_new|done]. Qed.

Definition selector_spec := Namespaced_IndexSpec LabelIndex.ErrorErrAdapter LabelIndex.EmptyErrAdapter
  Selectors.NewSelectors selectors_new_represents eq_refl.

(** An unlocked index represents the selectors of the PodProtectors of its source. *)
Definition index_represents (i : SelectorIndex) (m : gmap NamespacedName LabelSelector) : Prop :=
  Locked.lock i = 0 ∧ LabelIndex.represents (IndexSpec := selector_spec) (Locked.index i) m.

Lemma index_represents_new : index_represents NewSelectorIndex ∅.
Proof. split; [done|apply namespaced_repr_new]. Qed.

Lemma querySource_spec ident ns labels out name src m :
  index_represents (selectorIndex src) m →
  ∃ out', querySource ident ns labels out (name, src) = Ret out' ∧
    ∀ k, k ∈ out' ↔ k ∈ out ∨
      (SourceName k = (if ident then name else "") ∧ Namespaced.Namespace (NsName k) = ns ∧
       ∃ raw, m !! NsName k = Some raw ∧ selector_selects raw labels).
Proof.
  intros [Hlock Hrep].
  destruct (LabelIndex.Query_spec (IndexSpec := selector_spec) (Locked.index (selectorIndex src)) m
    {| queryNamespace := ns; query := labels |} Hrep I) as (it & [] & found & Hq & _ & Hit & Hnd & Hin).
  unfold querySource, Locked.Query. simpl in Hq |- *. unfold LabelIndex.Query. simpl. rewrite Hq. simpl.
  assert (Hv : visits it found) by (destruct Hit; auto using pushes_visits, drains_visits).
  rewrite (Hv _ _ (λ out nn, {[ {| SourceName := if ident then name else ""; NsName := nn |} ]} ∪ out)) by done.
  simpl. eexists. split; [done|]. intros k.
  assert (Hfold : ∀ (l : list NamespacedName) (acc : gset PodProtectorKey),
    k ∈ foldl (λ out nn, {[ {| SourceName := if ident then name else ""; NsName := nn |} ]} ∪ out) acc l ↔
    k ∈ acc ∨ (SourceName k = (if ident then name else "") ∧ NsName k ∈ l)).
  { induction l as [|x l IH]; intros acc; simpl; [set_solver|]. rewrite IH, elem_of_union, elem_of_singleton, elem_of_cons.
    destruct k as [sn nn]; simpl. naive_solver. }
  rewrite Hfold, Hin. simpl. naive_solver.
Qed.

Lemma getFrom_spec key srcs out :
  (∀ name src err, (name, src) ∈ srcs →
    (lister src (Namespaced.Namespace key) (Namespaced.Name key)).2 = Some err → IsNotFound err = true) →
  ∃ res, getFrom key srcs out = (res, None) ∧
    (∀ p, res = Some p → out = Some p ∨
      ∃ name src, (name, src) ∈ srcs ∧ lister src (Namespaced.Namespace key) (Namespaced.Name key) = (Some p, None)) ∧
    (∀ q, (out = Some q ∨ ∃ name src, (name, src) ∈ srcs ∧
        lister src (Namespaced.Namespace key) (Namespaced.Name key) = (Some q, None)) →
      ∃ p, res = Some p ∧ (CreationTimestamp (pprMeta q) ≤ CreationTimestamp (pprMeta p))%Z).
Proof.
  revert out. induction srcs as [|[name src] srcs IH]; intros out Herr; simpl.
  { exists out. split; [done|]. split; [auto|]. intros q [->|(? & ? & Hq & _)]; [exists q; split; [done|lia]|by apply not_elem_of_nil in Hq]. }
  assert (Herr' : ∀ name src err, (name, src) ∈ srcs →
    (lister src (Namespaced.Namespace key) (Namespaced.Name key)).2 = Some err → IsNotFound err = true).
  { intros n' s' e' Hin. apply (Herr n' s' e'). by right. }
  specialize (Herr name src). destruct (lister src _ _) as [o e] eqn:Hl. simpl in Herr.
  assert (Hskip : ∀ o', (o' = None ∨ e ≠ None) → o' = o ∨ e ≠ None →
    ∃ res, getFrom key srcs out = (res, None) ∧
    (∀ p, res = Some p → out = Some p ∨ ∃ n s, (n, s) ∈ (name, src) :: srcs ∧
      lister s (Namespaced.Namespace key) (Namespaced.Name key) = (Some p, None)) ∧
    (∀ q, (out = Some q ∨ ∃ n s, (n, s) ∈ (name, src) :: srcs ∧
        lister s (Namespaced.Namespace key) (Namespaced.Name key) = (Some q, None)) →
      ∃ p, res = Some p ∧ (CreationTimestamp (pprMeta q) ≤ CreationTimestamp (pprMeta p))%Z)).
  { intros o' Ho Ho'. destruct (IH out Herr') as (res & Hres & H1 & H2). exists res. split; [done|]. split.
    - intros p Hp. destruct (H1 p Hp) as [?|(n & s & ? & ?)]; [by left|right]. exists n, s. split; [by right|done].
    - intros q [Hq|(n & s & [[= -> ->]|Hin]%elem_of_cons & Hq)].
      + apply H2. by left.
      + rewrite Hl in Hq. exfalso. destruct Ho, Ho'; congruence.
      + apply H2. right. by exists n, s. }
  destruct e as [err|].
  - assert (IsNotFound err = true) as -> by (apply Herr; [left|done]).
    destruct o; (apply (Hskip None); [by left|by right]).
  - destruct o as [ppr|]; [|apply (Hskip None); auto].
    destruct (IH (Optional.SetOrChoose out ppr (λ pp1 pp2, time_After (CreationTimestamp (pprMeta pp2))
      (CreationTimestamp (pprMeta pp1)))) Herr') as (res & Hres & H1 & H2).
    exists res. split; [done|]. split.
    + intros p Hp. destruct (H1 p Hp) as [Hc|(n & s & ? & ?)].
      * destruct out as [o|]; simpl in Hc.
        -- destruct (time_After _ _); injection Hc as <-; [right|by left]. exists name, src. split; [left|done].
        -- injection Hc as <-. right. exists name, src. split; [left|done].
      * right. exists n, s. split; [by right|done].
    + assert (Hmax : ∀ q, out = Some q ∨ q = ppr → ∃ c, Optional.SetOrChoose out ppr
          (λ pp1 pp2, time_After (CreationTimestamp (pprMeta pp2)) (CreationTimestamp (pprMeta pp1))) = Some c ∧
          (CreationTimestamp (pprMeta q) ≤ CreationTimestamp (pprMeta c))%Z).
      { intros q Hq. unfold Optional.SetOrChoose, Optional.SetOrFn, time_After. destruct out as [o|]; simpl.
        - eexists. split; [done|]. destruct (Z.ltb_spec (CreationTimestamp (pprMeta o)) (CreationTimestamp (pprMeta ppr)));
            destruct Hq as [[= ->]| ->]; lia.
        - eexists. split; [done|]. destruct Hq as [?| ->]; [done|lia]. }
      intros q [Hq|(n & s & [[= -> ->]|Hin]%elem_of_cons & Hq)].
      * destruct (Hmax q) as (c & Hc & Hle); [by left|]. destruct (H2 c) as (p & Hp & Hle'); [by left|].
        exists p. split; [done|lia].
      * rewrite Hl in Hq. injection Hq as <-.
        destruct (Hmax ppr) as (c & Hc & Hle); [by right|]. destruct (H2 c) as (p & Hp & Hle'); [by left|].
        exists p. split; [done|lia].
      * apply H2. right. by exists n, s.
Qed.

End informer_lemmas.

(** ** Properties *)

(** [Query] of an informer whose sources' indexes represent the selectors [ms] returns,
    without duplicates, exactly the keys of the PodProtectors of the namespace whose
    selector selects the labels of the pod in some source; the key names the source only
    when sources identify objects. *)
Theorem Informer_Query_correct `{!GoRuntime} (state : Informer.informerState)
    (ms : gmap string (gmap Namespaced.NamespacedName LabelSelector)) (ns : string)
    (labels : gmap string string) (srcs : gmap string Informer.sourceState) :
  Informer.sources state = Some srcs →
  (∀ name src, srcs !! name = Some src →
    ∃ m, ms !! name = Some m ∧ index_represents (Informer.selectorIndex src) m) →
  ∃ keys, Informer.Query state ns labels = Ret keys ∧ NoDup keys ∧
    ∀ k, k ∈ keys ↔ ∃ name m raw, is_Some (srcs !! name) ∧ ms !! name = Some m ∧
      Informer.SourceName k = (if Informer.isSourceIdent state then name else "") ∧
      Namespaced.Namespace (Informer.NsName k) = ns ∧
      m !! Informer.NsName k = Some raw ∧ selector_selects raw labels.
Proof.
  intros Hs Hrep. unfold Informer.Query. rewrite Hs. simpl.
  assert (Hloop : ∀ l (out : gset Informer.PodProtectorKey), (∀ name src, (name, src) ∈ l → srcs !! name = Some src) →
    ∃ out', outcome_foldl (Informer.querySource (Informer.isSourceIdent state) ns labels) out l = Ret out' ∧
      ∀ k, k ∈ out' ↔ k ∈ out ∨ ∃ name src m raw, (name, src) ∈ l ∧ ms !! name = Some m ∧
        Informer.SourceName k = (if Informer.isSourceIdent state then name else "") ∧
        Namespaced.Namespace (Informer.NsName k) = ns ∧ m !! Informer.NsName k = Some raw ∧
        selector_selects raw labels).
  { induction l as [|[name src] l IH]; intros out Hl; cbn [outcome_foldl]; [exists out; set_solver|].
    destruct (Hrep name src) as (m & Hm & Hi); [apply Hl; by left|].
    destruct (querySource_spec (Informer.isSourceIdent state) ns labels out name src m Hi) as (o1 & -> & H1). simpl.
    destruct (IH o1) as (o2 & -> & H2); [intros n s Hin; apply Hl; by right|].
    exists o2. split; [done|]. intros k. rewrite H2, H1. setoid_rewrite elem_of_cons. naive_solver. }
  destruct (Hloop (map_order srcs) ∅) as (out & -> & Hout).
  { intros name src. apply elem_of_map_order. }
  simpl. eexists. split; [done|]. split; [apply NoDup_set_order|]. intros k.
  rewrite elem_of_set_order, Hout. setoid_rewrite elem_of_map_order. split.
  - intros [?|(name & src & m & raw & Hn & H1 & H2)]; [set_solver|]. exists name, m, raw. rewrite Hn. eauto.
  - intros (name & m & raw & [src Hn] & H1 & H2). right. exists name, src, m, raw. done.
Qed.

Lemma Informer_Query_correct_witness :
  let src := {| Informer.lister := λ _ _, (None, None); Informer.hasSynced := true;
    Informer.selectorIndex := Informer.NewSelectorIndex |} in
  ∃ keys, Informer.Query {| Informer.started := true; Informer.isSourceIdent := false;
      Informer.sources := Some {[ "a" := src ]} |} "ns" ∅ = Ret keys ∧ NoDup keys.
Proof.
  intros src. edestruct (Informer_Query_correct {| Informer.started := true; Informer.isSourceIdent := false;
      Informer.sources := Some {[ "a" := src ]} |} {[ "a" := ∅ ]} "ns" ∅ {[ "a" := src ]})
    as (keys & Hq & Hnd & _); [reflexivity| |by exists keys].
  intros name s [<- <-]%lookup_singleton_Some. exists ∅. rewrite lookup_singleton_eq.
  split; [done|apply index_represents_new].
Defined.

(** [Get] returns a version of the object that one of the sources has, the newest one by
    creation time, and nothing only when no source has it; it fails only on an error other
    than NotFound. *)
Theorem Informer_Get_newest `{!GoRuntime, !KubeErrors} (state : Informer.informerState)
    (key : Informer.PodProtectorKey) (srcs : gmap string Informer.sourceState) :
  let look (src : Informer.sourceState) := Informer.lister src
    (Namespaced.Namespace (Informer.NsName key)) (Namespaced.Name (Informer.NsName key)) in
  Informer.sources state = Some srcs → Informer.isSourceIdent state = false →
  (∀ name src err, srcs !! name = Some src → (look src).2 = Some err → IsNotFound err = true) →
  ∃ res, Informer.Get state key = Ret (res, None) ∧
    (∀ p, res = Some p → ∃ name src, srcs !! name = Some src ∧ look src = (Some p, None)) ∧
    (∀ q name src, srcs !! name = Some src → look src = (Some q, None) →
      ∃ p, res = Some p ∧ (CreationTimestamp (pprMeta q) ≤ CreationTimestamp (pprMeta p))%Z).
Proof.
  intros look Hs Hid Herr. unfold Informer.Get. rewrite Hs, Hid. simpl.
  destruct (getFrom_spec (Informer.NsName key) (map_order srcs) None) as (res & -> & H1 & H2).
  { intros name src err Hin. apply (Herr name). by apply elem_of_map_order. }
  exists res. split; [done|]. split.
  - intros p Hp. destruct (H1 p Hp) as [?|(name & src & Hin & Hl)]; [done|]. exists name, src.
    by apply elem_of_map_order in Hin.
  - intros q name src Hn Hl. apply H2. right. exists name, src. by rewrite elem_of_map_order.
Qed.

Lemma Informer_Get_newest_witness :
  let src t := {| Informer.lister := λ _ _, (Some (with_pprMeta (example_ppr 1 [])
      {| Name := "ppr"; Namespace := "ns"; UID := t; ResourceVersion := "1";
         CreationTimestamp := if bool_decide (t = "new") then 9%Z else 4%Z; Labels := ∅; Annotations := ∅;
         Finalizers := []; OwnerReferences := []; DeletionTimestamp := None |}), None);
    Informer.hasSynced := true; Informer.selectorIndex := Informer.NewSelectorIndex |} in
  let srcs := <["a" := src "old"]> {[ "b" := src "new" ]} in
  ∃ res, Informer.Get {| Informer.started := true; Informer.isSourceIdent := false; Informer.sources := Some srcs |}
    {| Informer.SourceName := ""; Informer.NsName := {| Namespaced.Namespace := "ns"; Namespaced.Name := "ppr" |} |}
    = Ret (res, None) ∧ ∃ p, res = Some p ∧ (9 ≤ CreationTimestamp (pprMeta p))%Z.
Proof.
  intros src srcs.
  edestruct (Informer_Get_newest {| Informer.started := true; Informer.isSourceIdent := false;
      Informer.sources := Some srcs |} {| Informer.SourceName := "";
      Informer.NsName := {| Namespaced.Namespace := "ns"; Namespaced.Name := "ppr" |} |} srcs)
    as (res & Hr & _ & H2); [reflexivity|reflexivity| |].
  - intros name s err Hs Hl. apply lookup_insert_Some in Hs as [[_ <-]|[_ Hs]]; [done|].
    apply lookup_singleton_Some in Hs as [_ <-]. done.
  - exists res. split; [exact Hr|].
    destruct (H2 _ "b" (src "new") eq_refl eq_refl) as (p & Hp & Hle). by exists p.
Defined.
