(* ===== verification/Watch.v ===== *)
(** * Watch: the informer of PodProtectors as it runs

    [Module Watch] is what moves the state that [Informer] queries, in util/podprotector/informer.go and multi_informer.go. The
    goroutine of [Start] takes lists of sources from the source provider, starts the informers of those that are new one after the
    other, and then publishes the new map at once; each informer has its own goroutine, which updates the index of its source
    and calls the post handlers from the moment it was started, so before the map is published and until it stops, which is some
    time after it is canceled. The map of sources holds pointers, and informers live in a heap. What the informers of client-go
    deliver, and when, is an input, as is each step of the goroutine: steps interleave in any order. *)

From S2P Require Import Prelude Util Errors Iter Canonical SetTrie LabelIndex Api PprUtil Informer.

Module Watch.
Import Namespaced Informer.

Section watch.
Context `{!GoRuntime, !KubeErrors} {SourceDesc Handler : Type}.
(** [AddEventHandler] of the informer of a new source, and the lister of an informer without objects. *)
Variables (AddEventHandler : string → SourceDesc → option error)
  (emptyLister : string → string → option PodProtector * option error).

(** The rest of [SetupPprInformer]. *)
Definition SetupPprInformer (name : string) (desc : SourceDesc) : option error :=
  match AddEventHandler name desc with
  | Some err => Some (TagWrapf "AddPodProtectorEventHandler" (Some err) "add event handler to PodProtector informer")
  | None => None
  end.

(** An informer that was started: the closure of its event handler has its source's name and the post handlers that were there. *)
Record runningInformer : Type := {
  sourceName : string;
  source : sourceState;
  handlers : list Handler;
  canceled : bool
}.
Definition with_source (src : sourceState) (inf : runningInformer) : runningInformer := {|
  sourceName := sourceName inf; source := src; handlers := handlers inf; canceled := canceled inf |}.
(** [cancelFunc] *)
Definition cancel (inf : runningInformer) : runningInformer := {|
  sourceName := sourceName inf; source := source inf; handlers := handlers inf; canceled := true |}.

Definition startSourceInformer (postHandlers : list Handler) (name : string) (desc : SourceDesc) : runningInformer + error :=
  match SetupPprInformer name desc with
  | Some err => inr (TagWrapf "SetupPprInformer" (Some err) "create ppr informer for cell")
  | None => inl {|
      sourceName := name;
      source := {| lister := emptyLister; hasSynced := false; selectorIndex := NewSelectorIndex |};
      handlers := postHandlers; canceled := false |}
  end.

(** The variables of [tryUpdateSourceList] in its loop over the descriptions, of which [todo] are left. *)
Record update : Type := {
  prevMapPtr : option (gmap string nat);
  todo : list (string * SourceDesc);
  nextMap : gmap string nat;
  uncommitted : list nat
}.

(** The goroutine of [Start]: not yet past the election, waiting for a list, in an update, or returned. *)
Inductive goroutine : Type := NotStarted | Waiting | Updating (u : update) | Returned.

(** What the observer is told of an update that succeeds. *)
Record UpdateSourceList : Type := { NewLength : nat; Additions : nat; Removals : nat }.

Record state : Type := {
  started : bool;
  isSourceIdent : bool;
  sources : option (gmap string nat);
  postHandlers : list Handler;
  pc : goroutine;
  heap : list runningInformer;
  called : list (Handler * PodProtectorKey);
  errors : list error;
  updates : list UpdateSourceList
}.

Definition initial (isSourceIdent : bool) : state := {|
  started := false; isSourceIdent := isSourceIdent; sources := None; postHandlers := []; pc := NotStarted; heap := [];
  called := []; errors := []; updates := [] |}.

(** What [Get], [Query] and [HasSynced] see: the pointers are followed. *)
Definition view (s : state) : informerState := {|
  Informer.started := started s; Informer.isSourceIdent := isSourceIdent s;
  Informer.sources := option_map (λ m : gmap string nat, omap (λ id, option_map source (heap s !! id)) m) (sources s) |}.

Definition with_pc (p : goroutine) (s : state) : state := {|
  started := started s; isSourceIdent := isSourceIdent s; sources := sources s; postHandlers := postHandlers s; pc := p;
  heap := heap s; called := called s; errors := errors s; updates := updates s |}.
Definition with_heap (h : list runningInformer) (s : state) : state := {|
  started := started s; isSourceIdent := isSourceIdent s; sources := sources s; postHandlers := postHandlers s; pc := pc s;
  heap := h; called := called s; errors := errors s; updates := updates s |}.
Definition add_error (err : error) (s : state) : state := {|
  started := started s; isSourceIdent := isSourceIdent s; sources := sources s; postHandlers := postHandlers s; pc := pc s;
  heap := heap s; called := called s; errors := errors s ++ [err]; updates := updates s |}.

Definition AddPostHandler (handler : Handler) (s : state) : state := {|
  started := started s; isSourceIdent := isSourceIdent s; sources := sources s; postHandlers := postHandlers s ++ [handler]; pc := pc s;
  heap := heap s; called := called s; errors := errors s; updates := updates s |}.

(** [Start] once the elector has been awaited, before it waits for lists of sources. *)
Definition start (s : state) : state := {|
  started := true; isSourceIdent := isSourceIdent s; sources := sources s; postHandlers := postHandlers s; pc := Waiting;
  heap := heap s; called := called s; errors := errors s; updates := updates s |}.

(** The deferred loop of [tryUpdateSourceList]. *)
Definition cancelAll (ids : list nat) (heap : list runningInformer) : list runningInformer :=
  imap (λ id inf, if decide (id ∈ ids) then cancel inf else inf) heap.

(** [updateSourceList] with a list, up to the loop of [tryUpdateSourceList]. *)
Definition updateSourceList (cellList : gmap string SourceDesc) (s : state) : state :=
  with_pc (Updating {| prevMapPtr := sources s; todo := map_order cellList; nextMap := ∅; uncommitted := [] |}) s.

(** The body of the loop for one description; if its informer cannot be started the update ends, and the error is reported. *)
Definition startSource (name : string) (desc : SourceDesc) (u : update) (s : state) : state :=
  match default ∅ (prevMapPtr u) !! name with
  | Some id =>
      with_pc (Updating {| prevMapPtr := prevMapPtr u; todo := todo u; nextMap := <[name := id]> (nextMap u);
        uncommitted := uncommitted u |}) s
  | None =>
      match startSourceInformer (postHandlers s) name desc with
      | inr err => with_pc Waiting (with_heap (cancelAll (uncommitted u) (heap s)) (add_error err s))
      | inl newSourceState =>
          with_pc (Updating {| prevMapPtr := prevMapPtr u; todo := todo u; nextMap := <[name := length (heap s)]> (nextMap u);
            uncommitted := uncommitted u ++ [length (heap s)] |}) (with_heap (heap s ++ [newSourceState]) s)
      end
  end.

(** What follows the loop. *)
Definition commit (u : update) (s : state) : outcome state :=
  if bool_decide (sources s = prevMapPtr u) then
    let removed := (filter (λ '(name, _), nextMap u !! name = None) (map_order (default ∅ (prevMapPtr u)))).*2 in
    Ret {| started := started s; isSourceIdent := isSourceIdent s; sources := Some (nextMap u); postHandlers := postHandlers s; pc := Waiting;
           heap := cancelAll removed (heap s); called := called s; errors := errors s;
           updates := updates s ++ [{| NewLength := size (nextMap u); Additions := length (uncommitted u); Removals := length removed |}] |}
  else Panic "unexpected informer map pointer write from another goroutine".

Definition advance (u : update) (s : state) : outcome state :=
  match todo u with
  | (name, desc) :: todo =>
      Ret (startSource name desc {| prevMapPtr := prevMapPtr u; todo := todo; nextMap := nextMap u; uncommitted := uncommitted u |} s)
  | [] => commit u s
  end.

(** An event of an informer. *)
Definition handleEvent (id : nat) (inf : runningInformer) (ppr : PodProtector) (stillPresent : bool) (s : state) : option (outcome state) :=
  let src := source inf in
  run ← handlePprEvent (selectorIndex src) ppr stillPresent;
  Some ('(index, err, nn) ← run;
    let src := {| lister := lister src; hasSynced := hasSynced src; selectorIndex := index |} in
    Ret {| started := started s; isSourceIdent := isSourceIdent s; sources := sources s; postHandlers := postHandlers s; pc := pc s;
           heap := <[id := with_source src inf]> (heap s);
           called := called s ++ ((λ h, (h, {| SourceName := sourceName inf; NsName := nn |})) <$> handlers inf);
           errors := errors s ++ Optional.AsSlice err; updates := updates s |}).

(** The health check of the informer. *)
Definition informersSynced (s : state) : option error :=
  if negb (started s) then None
  else if negb (HasSynced (view s)) then Some (TagErrorf "InformersNotSynced" "some informers have not synced yet")
  else None.

(** What happens to the informer: a post handler is added; [Start] is past the election; the goroutine takes a list of sources, takes its next
    step in an update, or returns as its context is done; an informer has an event, or its cache has changed, or has synced. *)
Inductive input : Type :=
| Handled (handler : Handler)
| Started
| Listed (cellList : gmap string SourceDesc)
| Advanced
| Done
| Event (id : nat) (ppr : PodProtector) (stillPresent : bool)
| Refreshed (id : nat) (lister' : string → string → option PodProtector * option error) (synced : bool).

(** Which inputs there can be, and what they do. *)
Definition possible (s : state) (i : input) : bool :=
  match i with
  | Handled _ => true
  | Started => match pc s with NotStarted => true | _ => false end
  | Listed _ | Done => match pc s with Waiting => true | _ => false end
  | Advanced => match pc s with Updating _ => true | _ => false end
  | Event id _ _ | Refreshed id _ _ => id <? length (heap s)
  end.

Definition step (s : state) (i : input) : option (outcome state) :=
  match i with
  | Handled handler => Some (Ret (AddPostHandler handler s))
  | Started => Some (Ret (start s))
  | Listed cellList => Some (Ret (updateSourceList cellList s))
  | Advanced => match pc s with Updating u => Some (advance u s) | _ => Some (Ret s) end
  | Done => Some (Ret (with_pc Returned s))
  | Event id ppr stillPresent =>
      match heap s !! id with
      | Some inf => handleEvent id inf ppr stillPresent s
      | None => Some (Ret s)
      end
  | Refreshed id lister' synced =>
      Some (Ret (with_heap (alter (λ inf, with_source {| lister := lister'; hasSynced := synced;
        selectorIndex := selectorIndex (source inf) |} inf) id (heap s)) s))
  end.

(** What has happened so far, and the state that this leaves. *)
Inductive runs (ident : bool) : list input → state → Prop :=
| runs_nil : runs ident [] (initial ident)
| runs_snoc inputs s i s' :
    runs ident inputs s → possible s i = true → step s i = Some (Ret s') → runs ident (inputs ++ [i]) s'.

End watch.
Arguments runningInformer : clear implicits.
Arguments state : clear implicits.
Arguments update : clear implicits.
Arguments input : clear implicits.

End Watch.

(** ** What it promises

    Everything is said of the inputs so far. *)
Section watch_spec.
Import Namespaced Informer Watch.
Context {SourceDesc Handler : Type} (AddEventHandler : string → SourceDesc → option error).
Implicit Types (i : input SourceDesc Handler) (inputs : list (input SourceDesc Handler)) (events : list (PodProtector * bool)).

Definition nn_of (ppr : PodProtector) : NamespacedName :=
  {| Namespaced.Namespace := Api.Namespace (pprMeta ppr); Namespaced.Name := Api.Name (pprMeta ppr) |}.

Definition handled inputs : list Handler := omap (λ i, match i with Handled h => Some h | _ => None end) inputs.
Definition lists inputs : list (gmap string SourceDesc) := omap (λ i, match i with Listed descs => Some descs | _ => None end) inputs.
(** The events of an informer, and whether it had synced when it was looked at. *)
Definition events_of (id : nat) inputs : list (PodProtector * bool) :=
  omap (λ i, match i with Event id' ppr p => if decide (id' = id) then Some (ppr, p) else None | _ => None end) inputs.
Definition synced_of (id : nat) inputs : list bool :=
  omap (λ i, match i with Refreshed id' _ b => if decide (id' = id) then Some b else None | _ => None end) inputs.

(** What the last event of a PodProtector says: it is there with a valid selector, or it is there and its selector is invalid. *)
Definition last_event (nn : NamespacedName) events : option (PodProtector * bool) := last (filter (λ e, nn_of e.1 = nn) events).
Definition tracked events (nn : NamespacedName) (raw : LabelSelector) : Prop :=
  ∃ ppr, last_event nn events = Some (ppr, true) ∧ raw = PprUtil.GetAggregationSelector ppr ∧ valid_selector raw.
Definition unclear events (nn : NamespacedName) : Prop :=
  ∃ ppr, last_event nn events = Some (ppr, true) ∧ ¬ valid_selector (PprUtil.GetAggregationSelector ppr).

(** The names of the sources after some lists: a list counts if the informers of all its new sources can be started. *)
Definition all_start (known : gset string) (descs : gmap string SourceDesc) : bool :=
  bool_decide (map_Forall (λ name desc, name ∉ known → Optional.IsNone (AddEventHandler name desc) = true) descs).
Definition take_list (known : option (gset string)) (descs : gmap string SourceDesc) : option (gset string) :=
  if all_start (default ∅ known) descs then Some (dom descs) else known.
Definition listed (ls : list (gmap string SourceDesc)) : option (gset string) := foldl take_list None ls.

(** The calls of post handlers: for each event those that its informer was started with, for the source and the object. *)
Definition handler_calls (heap : list (runningInformer Handler)) inputs : list (Handler * string * NamespacedName) :=
  inputs ≫= λ i, match i with
    | Event id ppr _ => match heap !! id with
        | Some inf => (λ h, (h, sourceName inf, nn_of ppr)) <$> handlers inf
        | None => []
        end
    | _ => []
    end.

(** No selector states a positive requirement twice (see [Selectors_miss_repeated_key]). *)
Definition input_ok i : Prop :=
  match i with
  | Event _ ppr true => valid_selector (PprUtil.GetAggregationSelector ppr) → distinct_requirements (PprUtil.GetAggregationSelector ppr)
  | _ => True
  end.

End watch_spec.

(** ** Lemmas *)
Section watch_lemmas.
Import Namespaced Informer Watch.
Context `{!GoRuntime, !KubeErrors}.

(** What the index of a source has after an event. *)
Abbreviation selectors := (gmap NamespacedName LabelSelector).
Definition after_event (ppr : PodProtector) (stillPresent : bool) (m : selectors) : selectors :=
  if stillPresent && forallb (λ req, known_operator (reqOperator req)) (MatchExpressions (PprUtil.GetAggregationSelector ppr))
  then <[nn_of ppr := PprUtil.GetAggregationSelector ppr]> m else delete (nn_of ppr) m.
Definition after_events (events : list (PodProtector * bool)) : selectors := foldl (λ m e, after_event e.1 e.2 m) ∅ events.

Lemma valid_selector_forallb raw :
  valid_selector raw ↔ forallb (λ req, known_operator (reqOperator req)) (MatchExpressions raw) = true.
Proof.
  unfold valid_selector. rewrite forallb_forall. by setoid_rewrite list_elem_of_In.
Qed.

(** Tracking an invalid selector in the index of a namespace. *)
Lemma namespaced_invalid (i : Namespaced (Selectors.Selectors string)) m nn raw :
  LabelIndex.represents (IndexSpec := selector_spec) i m → ¬ valid_selector raw →
  ∃ i' err, Namespaced.Track (Q := gmap string string) (QueryErr := unit) Selectors.NewSelectors i nn raw = Ret (i', Some err) ∧
    LabelIndex.represents (IndexSpec := selector_spec) i' (delete nn m).
Proof.
  intros Hi Hraw. destruct (Hi (Namespaced.Namespace nn)) as (mp & Hs & Hmp).
  assert (Hmp' : LabelIndex.represents (default Selectors.NewSelectors (namespaces i !! Namespaced.Namespace nn)) mp).
  { destruct (namespaces i !! Namespaced.Namespace nn); [done|]. subst. apply selectors_new_represents. }
  destruct Hmp' as [Hrepr Hdist].
  destruct (Selectors_Track_invalid _ mp (Namespaced.Name nn) raw Hrepr Hraw) as (st' & err & Ht & Hst').
  unfold Namespaced.Track. cbn. rewrite Ht. cbn. eexists _, err. split; [done|].
  eapply (namespaced_update LabelIndex.ErrorErrAdapter LabelIndex.EmptyErrAdapter _ m nn None); [done| |by apply slice_delete].
  split; [done|]. intros n raw' [_ ?]%lookup_delete_Some. eauto.
Qed.

(** An event of a source is handled without waiting. *)
Lemma handlePprEvent_spec (i : SelectorIndex) m ppr stillPresent :
  index_represents i m →
  (stillPresent = true → valid_selector (PprUtil.GetAggregationSelector ppr) →
    distinct_requirements (PprUtil.GetAggregationSelector ppr)) →
  ∃ i' err, handlePprEvent i ppr stillPresent = Some (Ret (i', err, nn_of ppr)) ∧
    index_represents i' (after_event ppr stillPresent m).
Proof.
  intros [Hl Hr] Hok. unfold handlePprEvent, after_event. fold (nn_of ppr). destruct i as [k ix]. cbn in Hl, Hr. subst k.
  destruct stillPresent; cbn [andb].
  - specialize (Hok eq_refl). destruct (forallb _ _) eqn:Hv.
    + apply valid_selector_forallb in Hv.
      destruct (LabelIndex.Track_spec (IndexSpec := selector_spec) ix m (nn_of ppr) (PprUtil.GetAggregationSelector ppr) Hr
        (conj Hv (Hok Hv))) as (ix' & e & Ht & _ & Hr').
      exists {| Locked.lock := 0; Locked.index := ix' |}, e. split; [|done].
      unfold Locked.Track. cbn in Ht |- *. unfold LabelIndex.Track. cbn. by rewrite Ht.
    + assert (Hv' : ¬ valid_selector (PprUtil.GetAggregationSelector ppr)) by (rewrite valid_selector_forallb, Hv; done).
      destruct (namespaced_invalid ix m (nn_of ppr) _ Hr Hv') as (ix' & e & Ht & Hr').
      exists {| Locked.lock := 0; Locked.index := ix' |}, (Some e). split; [|done].
      unfold Locked.Track. cbn in Ht |- *. by rewrite Ht.
  - destruct (LabelIndex.Untrack_spec (IndexSpec := selector_spec) ix m (nn_of ppr) Hr) as (ix' & Ht & Hr').
    exists {| Locked.lock := 0; Locked.index := ix' |}, None. split; [|done].
    unfold Locked.Untrack. cbn in Ht |- *. by rewrite Ht.
Qed.

(** The index tells the last event of each PodProtector. *)
Lemma after_events_spec events nn raw : after_events events !! nn = Some raw ↔ tracked events nn raw.
Proof.
  unfold after_events, tracked, last_event. induction events as [|[ppr p] events IH] using rev_ind.
  { split; [done|]. by intros (? & ? & _). }
  rewrite foldl_app. cbn [foldl]. rewrite filter_app. unfold after_event at 1. cbn [fst snd].
  rewrite filter_cons, filter_nil. cbn [fst]. destruct (decide (nn_of ppr = nn)) as [<-|Hne].
  - rewrite last_snoc. destruct p; cbn [andb].
    + destruct (forallb _ _) eqn:Hv.
      * rewrite lookup_insert_eq. apply valid_selector_forallb in Hv. split; [intros [= <-]; eauto|]. by intros (? & [= <-] & -> & _).
      * rewrite lookup_delete_eq. split; [done|]. intros (? & [= <-] & -> & Hvalid%valid_selector_forallb). congruence.
    + rewrite lookup_delete_eq. split; [done|]. by intros (? & ? & _).
  - rewrite app_nil_r, <- IH. by destruct (p && _); [rewrite lookup_insert_ne|rewrite lookup_delete_ne].
Qed.

End watch_lemmas.

(** *** Updates of the list of sources

    They concern the names of the informers in the heap and whether they are canceled, the lists so far, the map and the goroutine. *)
Section update_lemmas.
Import Watch.
Context `{!GoRuntime} {SourceDesc Handler : Type} (AddEventHandler : string → SourceDesc → option error).
Implicit Types (heap : list (runningInformer Handler)) (inf : runningInformer Handler) (srcs : option (gmap string nat))
  (ls : list (gmap string SourceDesc)) (descs : gmap string SourceDesc) (u : update SourceDesc) (id : nat) (name : string).
Abbreviation listed := (listed AddEventHandler).
Abbreviation pointer srcs name := (default (∅ : gmap string nat) srcs !! name).

Definition pointed srcs id : Prop := ∃ name, pointer srcs name = Some id.
Definition names_of srcs : option (gset string) := option_map (λ m : gmap string nat, dom m) srcs.

Record in_update srcs descs u heap : Prop := {
  iu_prev : prevMapPtr u = srcs;
  iu_loop : ∃ done, map_order descs = done ++ todo u ∧
    (∀ name, is_Some (nextMap u !! name) ↔ name ∈ done.*1) ∧
    ∀ name desc, (name, desc) ∈ done → pointer srcs name = None → Optional.IsNone (AddEventHandler name desc) = true;
  iu_next : ∀ name id, nextMap u !! name = Some id → (∃ inf, heap !! id = Some inf ∧ sourceName inf = name) ∧
    match pointer srcs name with Some id' => id' = id | None => id ∈ uncommitted u end;
  iu_uncommitted : ∀ id, id ∈ uncommitted u → ∃ name, nextMap u !! name = Some id ∧ pointer srcs name = None;
  iu_canceled : ∀ id inf, heap !! id = Some inf → (canceled inf = true ↔ ¬ pointed srcs id ∧ id ∉ uncommitted u)
}.

Definition at_rest ls srcs heap : Prop :=
  names_of srcs = listed ls ∧ ∀ id inf, heap !! id = Some inf → (canceled inf = true ↔ ¬ pointed srcs id).

Record protocol ls srcs (p : goroutine) heap : Prop := {
  pr_names : ∀ name id, pointer srcs name = Some id → ∃ inf, heap !! id = Some inf ∧ sourceName inf = name;
  pr_pc : match p with
    | NotStarted => srcs = None ∧ ls = [] ∧ heap = []
    | Waiting | Returned => at_rest ls srcs heap
    | Updating u => ∃ ls' descs, ls = ls' ++ [descs] ∧ names_of srcs = listed ls' ∧ in_update srcs descs u heap
    end
}.

Lemma elem_of_names srcs name : name ∈ default ∅ (names_of srcs) ↔ is_Some (pointer srcs name).
Proof. destruct srcs as [m|]; cbn; [apply elem_of_dom|]. split; [by intros ?%elem_of_empty|by intros []]. Qed.

Lemma listed_snoc ls descs : listed (ls ++ [descs]) = take_list AddEventHandler (listed ls) descs.
Proof. unfold Watch.listed. by rewrite foldl_app. Qed.

Lemma all_start_spec srcs ls descs :
  names_of srcs = listed ls →
  all_start AddEventHandler (default ∅ (listed ls)) descs = true ↔
    ∀ name desc, descs !! name = Some desc → pointer srcs name = None → Optional.IsNone (AddEventHandler name desc) = true.
Proof.
  intros <-. unfold all_start. rewrite bool_decide_eq_true. unfold map_Forall. setoid_rewrite elem_of_names.
  split; intros Hm name desc Hd Hp; apply (Hm name desc Hd); [rewrite Hp; by intros []|]. by apply eq_None_not_Some.
Qed.

Lemma lookup_cancelAll ids heap id : cancelAll ids heap !! id = (λ inf, if decide (id ∈ ids) then cancel inf else inf) <$> heap !! id.
Proof. unfold cancelAll. by rewrite list_lookup_imap. Qed.
Lemma sourceName_cancelAll ids heap id inf :
  heap !! id = Some inf → ∃ inf', cancelAll ids heap !! id = Some inf' ∧ sourceName inf' = sourceName inf.
Proof. intros Hi. rewrite lookup_cancelAll, Hi. cbn. eexists. split; [done|]. by case_decide. Qed.
Lemma canceled_cancelAll ids heap id inf :
  cancelAll ids heap !! id = Some inf → ∃ inf', heap !! id = Some inf' ∧ (canceled inf = true ↔ id ∈ ids ∨ canceled inf' = true).
Proof.
  rewrite lookup_cancelAll. destruct (heap !! id) as [inf'|]; [|done]. cbn. intros [= <-]. exists inf'. split; [done|].
  case_decide; cbn; naive_solver.
Qed.

Lemma protocol_list ls srcs heap descs :
  protocol ls srcs Waiting heap →
  protocol (ls ++ [descs]) srcs (Updating {| prevMapPtr := srcs; todo := map_order descs; nextMap := ∅; uncommitted := [] |}) heap.
Proof.
  intros [Hn [Hl Hc]]. split; [done|]. exists ls, descs. split; [done|]. split; [done|]. split; cbn; try done.
  - exists []. split; [done|]. split; [|by intros ? ? ?%not_elem_of_nil]. intros name. rewrite lookup_empty.
    split; [by intros []|by intros ?%not_elem_of_nil].
  - by intros id ?%not_elem_of_nil.
  - intros id inf Hi. rewrite (Hc id inf Hi). split; [|by intros []]. intros ?. split; [done|apply not_elem_of_nil].
Qed.

(** The names of a loop are distinct. *)
Lemma loop_fresh descs (done : list (string * SourceDesc)) name desc todo :
  map_order descs = done ++ (name, desc) :: todo → name ∉ done.*1 ∧ descs !! name = Some desc.
Proof.
  intros Heq. pose proof (NoDup_fst_map_order descs) as Hnd. rewrite Heq, fmap_app in Hnd. apply NoDup_app in Hnd as (_ & Hd & _).
  split; [intros Hin; apply (Hd name Hin); left|]. apply elem_of_map_order. rewrite Heq. apply elem_of_app. right. left.
Qed.

Lemma protocol_known ls srcs u heap name desc todo' id :
  protocol ls srcs (Updating u) heap → todo u = (name, desc) :: todo' → pointer (prevMapPtr u) name = Some id →
  protocol ls srcs (Updating {| prevMapPtr := prevMapPtr u; todo := todo'; nextMap := <[name := id]> (nextMap u);
    uncommitted := uncommitted u |}) heap.
Proof.
  intros [Hn (ls' & descs & Hls & Hl & [Hprev (done & Hloop & Hdom & Hst) Hnext Hun Hc])] Htodo Hid. split; [done|].
  exists ls', descs. split; [done|]. split; [done|]. rewrite Htodo in Hloop. destruct (loop_fresh _ _ _ _ _ Hloop) as [Hfresh _].
  rewrite Hprev in Hid. split; cbn; try done.
  - exists (done ++ [(name, desc)]). split; [by rewrite <- app_assoc|]. split.
    + intros n. rewrite fmap_app, elem_of_app, <- Hdom, lookup_insert. cbn. rewrite list_elem_of_singleton.
      case_decide; subst; [split; [by right|by eexists]|]. split; [by left|by intros [?|?]].
    + intros n d [Hin|[= -> ->]%list_elem_of_singleton]%elem_of_app; [by apply Hst|]. by rewrite Hid.
  - intros n i [[<- <-]|[Hne Hi]]%lookup_insert_Some; [|by apply Hnext]. split; [by apply Hn|]. by rewrite Hid.
  - intros i (n & Hi & Hnone)%Hun. exists n. split; [|done]. rewrite lookup_insert_ne; [done|]. intros ->. congruence.
Qed.

Lemma protocol_started ls srcs u heap name desc todo' inf :
  protocol ls srcs (Updating u) heap → todo u = (name, desc) :: todo' → pointer (prevMapPtr u) name = None →
  Optional.IsNone (AddEventHandler name desc) = true → sourceName inf = name → canceled inf = false →
  protocol ls srcs (Updating {| prevMapPtr := prevMapPtr u; todo := todo'; nextMap := <[name := length heap]> (nextMap u);
    uncommitted := uncommitted u ++ [length heap] |}) (heap ++ [inf]).
Proof.
  intros [Hn (ls' & descs & Hls & Hl & [Hprev (done & Hloop & Hdom & Hst) Hnext Hun Hc])] Htodo Hnone Hok Hname Hcf.
  rewrite Htodo in Hloop. destruct (loop_fresh _ _ _ _ _ Hloop) as [Hfresh _]. rewrite Hprev in Hnone.
  assert (Hkeep : ∀ name id, (∃ inf, heap !! id = Some inf ∧ sourceName inf = name) →
    ∃ inf', (heap ++ [inf]) !! id = Some inf' ∧ sourceName inf' = name).
  { intros n id (inf' & Hi & Hs). exists inf'. split; [by apply lookup_app_l_Some|done]. }
  split; [intros n id Hp; by apply Hkeep, Hn|].
  exists ls', descs. split; [done|]. split; [done|]. split; cbn; try done.
  - exists (done ++ [(name, desc)]). split; [by rewrite <- app_assoc|]. split.
    + intros n. rewrite fmap_app, elem_of_app, <- Hdom, lookup_insert. cbn. rewrite list_elem_of_singleton.
      case_decide; subst; [split; [by right|by eexists]|]. split; [by left|by intros [?|?]].
    + intros n d [Hin|[= -> ->]%list_elem_of_singleton]%elem_of_app; [by apply Hst|done].
  - intros n i [[<- <-]|[Hne Hi]]%lookup_insert_Some.
    + split; [exists inf; split; [by apply list_lookup_middle|done]|]. rewrite Hnone. apply elem_of_app. right. left.
    + destruct (Hnext n i Hi) as [Hinf Hp]. split; [by apply Hkeep|]. destruct (pointer srcs n); [done|]. apply elem_of_app. by left.
  - intros i [(n & Hi & Hp)%Hun| ->%list_elem_of_singleton]%elem_of_app.
    + exists n. split; [|done]. rewrite lookup_insert_ne; [done|]. intros ->. apply Hfresh, Hdom. by rewrite Hi.
    + exists name. by rewrite lookup_insert_eq.
  - intros i inf' [Hi|[Hlen Hi]]%lookup_app_Some.
    + rewrite (Hc i inf' Hi), elem_of_app, list_elem_of_singleton. apply lookup_lt_Some in Hi. split; [|naive_solver].
      intros [? ?]. split; [done|]. intros [?| ->]; [done|lia].
    + apply list_lookup_singleton_Some in Hi as [Hz <-]. assert (i = length heap) as -> by lia. rewrite Hcf. split; [done|].
      intros [_ Hno]. exfalso. apply Hno, elem_of_app. right. left.
Qed.

Lemma protocol_failed ls srcs u heap name desc todo' :
  protocol ls srcs (Updating u) heap → todo u = (name, desc) :: todo' → pointer (prevMapPtr u) name = None →
  Optional.IsNone (AddEventHandler name desc) = false →
  protocol ls srcs Waiting (cancelAll (uncommitted u) heap).
Proof.
  intros [Hn (ls' & descs & Hls & Hl & [Hprev (done & Hloop & Hdom & Hst) Hnext Hun Hc])] Htodo Hnone Hfail.
  rewrite Htodo in Hloop. destruct (loop_fresh _ _ _ _ _ Hloop) as [Hfresh Hdesc]. rewrite Hprev in Hnone. split.
  - intros n id (inf & Hi & Hs)%Hn. destruct (sourceName_cancelAll (uncommitted u) _ _ _ Hi) as (inf' & ? & ?). exists inf'. by subst.
  - split.
    + rewrite Hls, listed_snoc. unfold take_list. destruct (all_start _ _ descs) eqn:Hall; [|done].
      rewrite (all_start_spec srcs) in Hall by done. specialize (Hall name desc Hdesc Hnone). congruence.
    + intros id inf Hi. apply canceled_cancelAll in Hi as (inf' & Hi & ->). rewrite (Hc id inf' Hi). split.
      2: { intros Hp. destruct (decide (id ∈ uncommitted u)); [by left|by right]. }
      intros [(n & Hnx & Hp)%Hun|[? _]]; [|done]. intros [n' Hn']. destruct (Hn n' id Hn') as (i1 & H1 & <-).
      destruct (Hnext n id Hnx) as [(i2 & H2 & <-) _]. congruence.
Qed.

Lemma protocol_commit ls srcs u heap :
  protocol ls srcs (Updating u) heap → todo u = [] →
  prevMapPtr u = srcs ∧
  protocol ls (Some (nextMap u)) Waiting
    (cancelAll ((filter (λ '(name, _), nextMap u !! name = None) (map_order (default ∅ (prevMapPtr u)))).*2) heap) ∧
  ∀ name id id', pointer srcs name = Some id → nextMap u !! name = Some id' → id' = id.
Proof.
  intros [Hn (ls' & descs & Hls & Hl & [Hprev (done & Hloop & Hdom & Hst) Hnext Hun Hc])] Htodo. split; [done|].
  rewrite Htodo, app_nil_r in Hloop. rewrite Hprev.
  split; [|intros name id id' Hp Hi; destruct (Hnext name id' Hi) as [_ Hm]; by rewrite Hp in Hm].
  assert (Hremoved : ∀ id, id ∈ (filter (λ '(name, _), nextMap u !! name = None) (map_order (default ∅ srcs))).*2 ↔
    ∃ name, pointer srcs name = Some id ∧ nextMap u !! name = None).
  { intros id. rewrite list_elem_of_fmap. split.
    - intros ([n i] & -> & [Hf Hi]%list_elem_of_filter). apply elem_of_map_order in Hi. by exists n.
    - intros (n & Hp & Hf). exists (n, id). split; [done|]. apply list_elem_of_filter. by rewrite elem_of_map_order. }
  split; [|split].
  - intros n id Hi. destruct (Hnext n id Hi) as [(inf & Hinf & Hs) _].
    destruct (sourceName_cancelAll ((filter (λ '(name, _), nextMap u !! name = None) (map_order (default ∅ srcs))).*2) _ _ _ Hinf)
      as (inf' & ? & ?). exists inf'. split; [done|congruence].
  - rewrite Hls, listed_snoc. unfold take_list.
    assert (all_start AddEventHandler (default ∅ (listed ls')) descs = true) as ->.
    { apply (all_start_spec srcs); [done|]. intros name desc Hd Hp. apply (Hst name desc); [|done]. rewrite <- Hloop. by apply elem_of_map_order. }
    cbn. f_equal. apply set_eq. intros n. rewrite !elem_of_dom, Hdom, <- Hloop, list_elem_of_fmap. split.
    + intros ([n' d] & -> & Hd%elem_of_map_order). by eexists.
    + intros [d Hd]. exists (n, d). split; [done|]. by apply elem_of_map_order.
  - intros id inf Hi. apply canceled_cancelAll in Hi as (inf' & Hi & ->). rewrite Hremoved, (Hc id inf' Hi). unfold pointed. cbn. split.
    + intros [(n & Hp & Hnone)|[Hp Hu]] [n' Hn'].
      * destruct (Hn n id Hp) as (i1 & H1 & <-). destruct (Hnext n' id Hn') as [(i2 & H2 & <-) _]. congruence.
      * destruct (Hnext n' id Hn') as [_ Hm]. destruct (pointer srcs n') as [id'|] eqn:Hp'; [|done]. subst id'. apply Hp. by exists n'.
    + intros Hno. destruct (decide (Exists (λ '(n, i), i = id ∧ nextMap u !! n = None) (map_order (default ∅ srcs)))) as [Hex|Hex].
      * left. apply Exists_exists in Hex as ([n i] & Hin%elem_of_map_order & -> & Hnone). by exists n.
      * right. split; [|intros (n & Hx & _)%Hun; apply Hno; by exists n].
        intros [n Hp]. destruct (nextMap u !! n) as [id'|] eqn:Hx.
        -- apply Hno. exists n. rewrite Hx. f_equal. destruct (Hnext n id' Hx) as [_ Hm]. by rewrite Hp in Hm.
        -- apply Hex, Exists_exists. exists (n, id). split; [by apply elem_of_map_order|done].
Qed.

(** Steps of informers keep the names and who is canceled. *)
Lemma protocol_insert ls srcs p heap id inf inf' :
  protocol ls srcs p heap → heap !! id = Some inf → sourceName inf' = sourceName inf → canceled inf' = canceled inf →
  protocol ls srcs p (<[id := inf']> heap).
Proof.
  intros [Hn Hpc] Hi Hs Hc. assert (Hlt : id < length heap) by (by eapply lookup_lt_Some).
  assert (Hkeep : ∀ i name, (∃ j, heap !! i = Some j ∧ sourceName j = name) → ∃ j, <[id:=inf']> heap !! i = Some j ∧ sourceName j = name).
  { intros i name (j & Hj & Hname). destruct (decide (i = id)) as [->|Hne].
    - exists inf'. rewrite list_lookup_insert_eq by done. split; [done|]. congruence.
    - exists j. by rewrite list_lookup_insert_ne. }
  assert (Hback : ∀ i j, <[id:=inf']> heap !! i = Some j → ∃ j', heap !! i = Some j' ∧ canceled j = canceled j').
  { intros i j Hj. apply list_lookup_insert_Some in Hj as [(-> & <- & _)|[_ Hj]]; [by exists inf|by exists j]. }
  split; [intros name i Hp; by apply Hkeep, Hn|]. destruct p as [| |u|].
  - destruct Hpc as (_ & _ & ->). done.
  - destruct Hpc as [Hl Hcan]. split; [done|]. intros i j (j' & Hj & ->)%Hback. by apply Hcan.
  - destruct Hpc as (ls' & descs & Hls & Hl & [H1 H2 H3 H4 H5]). exists ls', descs. split; [done|]. split; [done|]. split; try done.
    + intros name i Hx. destruct (H3 name i Hx) as [? ?]. split; [by apply Hkeep|done].
    + intros i j (j' & Hj & ->)%Hback. by apply H5.
  - destruct Hpc as [Hl Hcan]. split; [done|]. intros i j (j' & Hj & ->)%Hback. by apply Hcan.
Qed.

End update_lemmas.

(** *** Runs *)
Section run_lemmas.
Import Namespaced Informer Watch.
Context `{!GoRuntime, !KubeErrors} {SourceDesc Handler : Type} (AddEventHandler : string → SourceDesc → option error)
  (emptyLister : string → string → option PodProtector * option error).
Implicit Types (s : state SourceDesc Handler) (i : input SourceDesc Handler) (inputs : list (input SourceDesc Handler))
  (heap : list (runningInformer Handler)) (inf : runningInformer Handler) (id : nat).
Abbreviation step := (step AddEventHandler emptyLister).
Abbreviation runs := (runs AddEventHandler emptyLister).

(** What is known of an informer. *)
Record informer_inv inputs id inf : Prop := {
  inf_index : index_represents (selectorIndex (source inf)) (after_events (events_of id inputs));
  inf_synced : hasSynced (source inf) = default false (last (synced_of id inputs));
  inf_handlers : ∃ pre post, inputs = pre ++ post ∧ Started ∈ pre ∧ handlers inf = handled pre
}.

Definition call_matches ident (c : Handler * PodProtectorKey) (e : Handler * string * NamespacedName) : Prop :=
  c.1 = e.1.1 ∧ NsName c.2 = e.2 ∧ (ident = true → SourceName c.2 = e.1.2).

Record inv ident inputs s : Prop := {
  inv_ident : isSourceIdent s = ident;
  inv_handlers : postHandlers s = handled inputs;
  inv_started : pc s ≠ NotStarted → Started ∈ inputs;
  inv_protocol : protocol AddEventHandler (lists inputs) (sources s) (pc s) (heap s);
  inv_known : ∀ i, i ∈ inputs → match i with Event id _ _ | Refreshed id _ _ => id < length (heap s) | _ => True end;
  inv_called : Forall2 (call_matches ident) (called s) (handler_calls (heap s) inputs);
  inv_informers : ∀ id inf, heap s !! id = Some inf → informer_inv inputs id inf
}.

Lemma inv_initial ident : inv ident [] (initial ident).
Proof.
  split; try done; try by intros ? ?%not_elem_of_nil. all: by split.
Qed.

(** What has no event yet. *)
Lemma unknown_events heap inputs id :
  (∀ i, i ∈ inputs → match i with Event id' _ _ | Refreshed id' _ _ => id' < length heap | _ => True end) → length heap ≤ id →
  events_of id inputs = [] ∧ synced_of id inputs = [].
Proof.
  intros Hknown Hid. unfold events_of, synced_of. split; apply elem_of_nil_inv; intros x (i & Hi & Hx)%list_elem_of_omap;
    specialize (Hknown i Hi); destruct i; try done; case_decide; [lia|done..|lia|done].
Qed.

Lemma handler_calls_ext heap heap' inputs :
  (∀ i, i ∈ inputs → match i with Event id _ _ | Refreshed id _ _ => id < length heap | _ => True end) →
  (∀ id inf, heap !! id = Some inf → ∃ inf', heap' !! id = Some inf' ∧ sourceName inf' = sourceName inf ∧ handlers inf' = handlers inf) →
  handler_calls heap' inputs = handler_calls heap inputs.
Proof.
  intros Hknown Hext. unfold handler_calls. induction inputs as [|i inputs IH]; [done|]. rewrite !bind_cons, IH by (intros j Hj; apply Hknown; by right).
  f_equal. specialize (Hknown i ltac:(left)). destruct i as [| | | | |id ppr p|]; try done.
  apply lookup_lt_is_Some in Hknown as [inf Hi]. destruct (Hext id inf Hi) as (inf' & -> & -> & ->). by rewrite Hi.
Qed.

(** An input that is no event of an informer leaves what is known of it. *)
Lemma informer_inv_snoc inputs i id inf :
  informer_inv inputs id inf → events_of id [i] = [] → synced_of id [i] = [] → informer_inv (inputs ++ [i]) id inf.
Proof.
  intros [H1 H2 (pre & post & -> & H3)] He Hs. split.
  - unfold events_of in *. by rewrite omap_app, He, app_nil_r.
  - unfold synced_of in *. by rewrite omap_app, Hs, app_nil_r.
  - exists pre, (post ++ [i]). by rewrite <- app_assoc.
Qed.
Lemma informer_inv_ext inputs id inf inf' : informer_inv inputs id inf → source inf' = source inf → handlers inf' = handlers inf →
  informer_inv inputs id inf'.
Proof. intros [H1 H2 H3] Hs Hh. by split; rewrite ?Hs, ?Hh. Qed.

(** What a step of the goroutine does to the heap: informers stay, perhaps canceled, and one may be added. *)
Definition grows inputs s heap' : Prop :=
  (∀ id inf, heap s !! id = Some inf → ∃ inf', heap' !! id = Some inf' ∧ sourceName inf' = sourceName inf ∧ handlers inf' = handlers inf) ∧
  ∀ id inf', heap' !! id = Some inf' → (∃ inf, heap s !! id = Some inf ∧ source inf' = source inf ∧ handlers inf' = handlers inf) ∨
    length (heap s) ≤ id ∧ selectorIndex (source inf') = NewSelectorIndex ∧ hasSynced (source inf') = false ∧ handlers inf' = postHandlers s.

Lemma grows_cancelAll inputs s ids : grows inputs s (cancelAll ids (heap s)).
Proof.
  split; intros id inf Hi.
  - rewrite lookup_cancelAll, Hi. eexists. split; [done|]. by case_decide.
  - left. rewrite lookup_cancelAll in Hi. destruct (heap s !! id) as [inf0|]; [|done]. exists inf0. split; [done|].
    injection Hi as <-. by case_decide.
Qed.

(** A step that calls no handler. *)
Lemma inv_goroutine ident inputs s i s' :
  inv ident inputs s → pc s ≠ NotStarted →
  match i with Advanced | Listed _ | Done => True | _ => False end →
  isSourceIdent s' = isSourceIdent s → postHandlers s' = postHandlers s → called s' = called s →
  protocol AddEventHandler (lists (inputs ++ [i])) (sources s') (pc s') (heap s') → grows inputs s (heap s') →
  inv ident (inputs ++ [i]) s'.
Proof.
  intros [H1 H2 H3 H4 H5 H6 H7] Hpc Hi Hid Hph Hcalled Hprot [Hkeep Hback].
  assert (Hlen : length (heap s) ≤ length (heap s')).
  { destruct (decide (length (heap s) ≤ length (heap s'))); [done|]. assert (Hl : length (heap s') < length (heap s)) by lia.
    apply lookup_lt_is_Some in Hl as [inf Hinf]. destruct (Hkeep _ _ Hinf) as (inf' & Hinf' & _). apply lookup_lt_Some in Hinf'. lia. }
  split.
  - congruence.
  - rewrite Hph, H2. unfold handled. rewrite omap_app. destruct i; try done; cbn; by rewrite app_nil_r.
  - intros _. apply elem_of_app. left. by apply H3.
  - done.
  - intros j [Hj|Hj]%elem_of_app; [|apply list_elem_of_singleton in Hj as ->; by destruct i].
    specialize (H5 j Hj). destruct j; try done; lia.
  - rewrite Hcalled. unfold handler_calls. rewrite bind_app. fold (handler_calls (heap s') inputs).
    rewrite (handler_calls_ext (heap s)) by done. destruct i; try done; cbn; by rewrite app_nil_r.
  - intros id inf' Hinf'. apply informer_inv_snoc; [|by destruct i..].
    destruct (Hback id inf' Hinf') as [(inf & Hinf & Hs & Hh)|(Hnew & Hidx & Hsy & Hh)]; [by eapply informer_inv_ext; [apply H7|..]|].
    destruct (unknown_events _ _ _ H5 Hnew) as [He Hsyn]. split.
    + rewrite He, Hidx. apply index_represents_new.
    + by rewrite Hsyn, Hsy.
    + exists inputs, []. rewrite app_nil_r. split; [done|]. split; [by apply H3|congruence].
Qed.

(** An informer after an event. *)
Lemma inv_informer ident inputs s i s' id inf inf' calls :
  inv ident inputs s → heap s !! id = Some inf →
  (match i with Event id' _ _ | Refreshed id' _ _ => id' = id | _ => False end) →
  isSourceIdent s' = isSourceIdent s → postHandlers s' = postHandlers s → sources s' = sources s → pc s' = pc s →
  heap s' = <[id := inf']> (heap s) → sourceName inf' = sourceName inf → handlers inf' = handlers inf → canceled inf' = canceled inf →
  called s' = called s ++ calls → Forall2 (call_matches ident) calls (match i with Event _ ppr _ => (λ h, (h, sourceName inf, nn_of ppr)) <$> handlers inf | _ => [] end) →
  index_represents (selectorIndex (source inf')) (after_events (events_of id (inputs ++ [i]))) →
  hasSynced (source inf') = default false (last (synced_of id (inputs ++ [i]))) →
  inv ident (inputs ++ [i]) s'.
Proof.
  intros [H1 H2 H3 H4 H5 H6 H7] Hinf Hi Hid Hph Hsrc Hpc Hheap Hname Hh Hc Hcalled Hcalls Hidx Hsyn.
  assert (Hlt : id < length (heap s)) by (by eapply lookup_lt_Some). split.
  - congruence.
  - rewrite Hph, H2. unfold handled. rewrite omap_app. destruct i; try done; cbn; by rewrite app_nil_r.
  - intros Hne. apply elem_of_app. left. apply H3. congruence.
  - rewrite Hsrc, Hpc, Hheap. replace (lists (inputs ++ [i])) with (lists inputs).
    + by eapply protocol_insert.
    + unfold lists. rewrite omap_app. destruct i; try done; cbn; by rewrite app_nil_r.
  - rewrite Hheap, length_insert. intros j [Hj|Hj]%elem_of_app; [by apply H5|]. apply list_elem_of_singleton in Hj as ->.
    destruct i; try done; by subst.
  - rewrite Hcalled. unfold handler_calls at 1. rewrite bind_app. fold (handler_calls (heap s') inputs).
    rewrite (handler_calls_ext (heap s)).
    + apply Forall2_app; [done|]. rewrite Hheap. destruct i; try done; cbn in Hcalls |- *.
      subst. by rewrite list_lookup_insert_eq, app_nil_r, Hname, Hh.
    + done.
    + intros id' j Hj. rewrite Hheap. destruct (decide (id' = id)) as [->|].
      * exists inf'. rewrite list_lookup_insert_eq by done. rewrite Hinf in Hj. by injection Hj as <-.
      * exists j. by rewrite list_lookup_insert_ne.
  - intros id' j Hj. rewrite Hheap in Hj. apply list_lookup_insert_Some in Hj as [(-> & <- & _)|[Hne Hj]].
    + destruct (H7 id' inf Hinf) as [_ _ (pre & post & -> & Hst & Hhp)]. split; [done|done|]. exists pre, (post ++ [i]).
      rewrite <- app_assoc. split; [done|]. split; [done|congruence].
    + apply informer_inv_snoc; [by apply H7| |]; destruct i; try done; cbn; rewrite ?decide_False by congruence; done.
Qed.

(** A source that is in both maps keeps its informer. *)
Definition keeps s s' : Prop :=
  ∀ name id id', default ∅ (sources s) !! name = Some id → default ∅ (sources s') !! name = Some id' → id' = id.
Lemma keeps_same s s' : sources s' = sources s → keeps s s'.
Proof. intros Heq name id id'. rewrite Heq. congruence. Qed.

Lemma inv_AddPostHandler ident inputs s h : inv ident inputs s → inv ident (inputs ++ [Handled h]) (AddPostHandler h s).
Proof.
  intros [H1 H2 H3 H4 H5 H6 H7]. split; cbn; try done.
  - unfold handled. by rewrite H2, omap_app.
  - intros Hne. apply elem_of_app. left. by apply H3.
  - unfold lists. rewrite omap_app. cbn. by rewrite app_nil_r.
  - intros i [Hi| ->%list_elem_of_singleton]%elem_of_app; [by apply H5|done].
  - unfold handler_calls. rewrite bind_app. cbn. by rewrite app_nil_r.
  - intros id inf Hi. by apply informer_inv_snoc; [apply H7|..].
Qed.

Lemma started_inv ident inputs s : inv ident inputs s → pc s = NotStarted → inv ident (inputs ++ [Started]) (start s).
Proof.
  intros [H1 H2 H3 H4 H5 H6 H7] Hpc. rewrite Hpc in H4. destruct H4 as [_ (Hsrc & Hls & Hheap)].
  assert (Hl : lists (inputs ++ [Started]) = []) by (unfold lists in *; by rewrite omap_app, Hls).
  split; cbn; rewrite ?Hl, ?Hsrc, ?Hheap in *; try done.
  - unfold handled in *. rewrite omap_app. cbn. by rewrite app_nil_r.
  - intros _. apply elem_of_app. right. left.
  - intros i [Hi| ->%list_elem_of_singleton]%elem_of_app; [by apply H5|done].
  - unfold handler_calls. rewrite bind_app. cbn. by rewrite app_nil_r.
Qed.

Lemma inv_advance ident inputs s u :
  inv ident inputs s → pc s = Updating u →
  ∃ s', advance AddEventHandler emptyLister u s = Ret s' ∧ inv ident (inputs ++ [Advanced]) s' ∧ keeps s s'.
Proof.
  intros Hinv Hpc. pose proof (inv_protocol _ _ _ Hinv) as Hprot. rewrite Hpc in Hprot.
  assert (Hl : lists (inputs ++ [Advanced]) = lists inputs) by (unfold lists; rewrite omap_app; cbn; by rewrite app_nil_r).
  assert (Hrun : pc s ≠ NotStarted) by (by rewrite Hpc).
  assert (Hsame : grows inputs s (heap s)) by (split; [intros id inf ?; by exists inf|intros id inf ?; left; by exists inf]).
  unfold advance. destruct (todo u) as [|[name desc] todo'] eqn:Htodo.
  - destruct (protocol_commit _ _ _ _ _ Hprot Htodo) as (Hprev & Hnew & Hkeep). unfold commit. rewrite bool_decide_true by done.
    eexists. split; [done|]. split; [|exact Hkeep].
    eapply inv_goroutine; [exact Hinv|exact Hrun|done..| |apply grows_cancelAll]. cbn. by rewrite Hl.
  - eexists. split; [done|]. unfold startSource. cbn [prevMapPtr Watch.todo nextMap uncommitted].
    destruct (default ∅ (prevMapPtr u) !! name) as [id|] eqn:Hid.
    { split; [|by apply keeps_same]. eapply inv_goroutine; [exact Hinv|exact Hrun|done..| |done]. cbn. rewrite Hl.
      by eapply protocol_known. }
    unfold startSourceInformer, SetupPprInformer. destruct (AddEventHandler name desc) as [err|] eqn:Hadd.
    + split; [|by apply keeps_same]. eapply inv_goroutine; [exact Hinv|exact Hrun|done..| |apply grows_cancelAll]. cbn. rewrite Hl.
      eapply protocol_failed; [exact Hprot|exact Htodo|exact Hid|by rewrite Hadd].
    + split; [|by apply keeps_same]. eapply inv_goroutine; [exact Hinv|exact Hrun|done..| |].
      * cbn. rewrite Hl. eapply protocol_started; [exact Hprot|exact Htodo|exact Hid|by rewrite Hadd|done..].
      * cbn. split.
        -- intros id inf Hi. exists inf. split; [by apply lookup_app_l_Some|done].
        -- intros id inf [Hi|[Hge Hi]]%lookup_app_Some; [left; by exists inf|right]. split; [done|].
           by apply list_lookup_singleton_Some in Hi as [_ <-].
Qed.

Lemma inv_event ident inputs s id inf ppr p :
  inv ident inputs s → heap s !! id = Some inf → input_ok (SourceDesc := SourceDesc) (Handler := Handler) (Event id ppr p) →
  ∃ s', handleEvent id inf ppr p s = Some (Ret s') ∧ inv ident (inputs ++ [Event id ppr p]) s' ∧ keeps s s'.
Proof.
  intros Hinv Hinf Hok. destruct (inv_informers _ _ _ Hinv id inf Hinf) as [Hidx Hsyn Hh].
  destruct (handlePprEvent_spec (selectorIndex (source inf)) _ ppr p Hidx) as (i' & err & Hrun & Hi'); [by intros ->|].
  unfold handleEvent. rewrite Hrun. cbn. eexists. split; [done|]. split; [|by apply keeps_same].
  eapply inv_informer; [exact Hinv|exact Hinf|done..| | |]; cbn.
  - rewrite Forall2_fmap. apply Forall_Forall2_diag, Forall_true. intros h. by split.
  - unfold events_of in *. rewrite omap_app. cbn. rewrite decide_True by done. unfold after_events in *. by rewrite foldl_app.
  - unfold synced_of in *. by rewrite omap_app, app_nil_r.
Qed.

Lemma inv_refreshed ident inputs s id lister' b :
  inv ident inputs s → id < length (heap s) →
  inv ident (inputs ++ [Refreshed id lister' b]) (with_heap (alter (λ inf, with_source {| lister := lister'; hasSynced := b;
    selectorIndex := selectorIndex (source inf) |} inf) id (heap s)) s).
Proof.
  intros Hinv [inf Hinf]%lookup_lt_is_Some. destruct (inv_informers _ _ _ Hinv id inf Hinf) as [Hidx Hsyn Hh].
  eapply (inv_informer _ _ _ _ _ id inf (with_source {| lister := lister'; hasSynced := b; selectorIndex := selectorIndex (source inf) |} inf) []);
    try done; cbn.
  - apply list_eq. intros j. destruct (decide (j = id)) as [->|Hne].
    + rewrite list_lookup_alter_eq, Hinf, list_lookup_insert_eq; [done|by eapply lookup_lt_Some].
    + by rewrite list_lookup_alter_ne, list_lookup_insert_ne.
  - by rewrite app_nil_r.
  - unfold events_of in *. by rewrite omap_app, app_nil_r.
  - unfold synced_of. rewrite omap_app. cbn. rewrite decide_True by done. by rewrite last_snoc.
Qed.

Lemma step_inv ident inputs s i :
  inv ident inputs s → input_ok i → possible s i = true →
  ∃ s', step s i = Some (Ret s') ∧ inv ident (inputs ++ [i]) s' ∧ keeps s s'.
Proof.
  intros Hinv Hok Hpos. destruct i as [h| |descs| | |id ppr p|id l b]; cbn in Hpos; cbn [Watch.step].
  - eexists. split; [done|]. split; [by apply inv_AddPostHandler|by apply keeps_same].
  - eexists. split; [done|]. split; [|by apply keeps_same]. apply started_inv; [done|]. by destruct (pc s).
  - eexists. split; [done|]. split; [|by apply keeps_same]. pose proof (inv_protocol _ _ _ Hinv) as Hprot.
    destruct (pc s) eqn:Hpc; try done. apply (inv_goroutine _ _ s); try done; [by rewrite Hpc| |].
    + unfold lists in *. rewrite omap_app. cbn. by apply protocol_list.
    + split; [intros id inf ?; by exists inf|intros id inf ?; left; by exists inf].
  - destruct (pc s) as [| |u|] eqn:Hpc; try done. destruct (inv_advance ident inputs s u Hinv Hpc) as (s' & -> & ?). by exists s'.
  - eexists. split; [done|]. split; [|by apply keeps_same]. pose proof (inv_protocol _ _ _ Hinv) as Hprot.
    destruct (pc s) eqn:Hpc; try done. apply (inv_goroutine _ _ s); try done; [by rewrite Hpc| |].
    + unfold lists in *. rewrite omap_app. cbn. rewrite app_nil_r. by destruct Hprot; split.
    + split; [intros id inf ?; by exists inf|intros id inf ?; left; by exists inf].
  - apply Nat.ltb_lt, lookup_lt_is_Some in Hpos as [inf Hinf]. rewrite Hinf. by apply inv_event.
  - eexists. split; [done|]. split; [|by apply keeps_same]. apply inv_refreshed; [done|by apply Nat.ltb_lt].
Qed.

Lemma inv_runs ident inputs s : runs ident inputs s → Forall input_ok inputs → inv ident inputs s.
Proof.
  induction 1 as [|inputs s i s' _ IH Hpos Hstep]; intros Hok; [apply inv_initial|].
  apply Forall_app in Hok as [Hok [Hi _]%Forall_cons]. destruct (step_inv ident inputs s i (IH Hok) Hi Hpos) as (s'' & Hs & ? & _).
  rewrite Hstep in Hs. by injection Hs as <-.
Qed.

(** What a source's name stands for in the view. *)
Lemma lookup_view s name :
  default ∅ (Informer.sources (view s)) !! name = default ∅ (sources s) !! name ≫= λ id, option_map source (heap s !! id).
Proof. unfold view. cbn. destruct (sources s) as [m|]; [|done]. cbn. by rewrite lookup_omap. Qed.

Lemma query_view ident inputs s ns labels :
  inv ident inputs s →
  ∃ keys, Query (view s) ns labels = Ret keys ∧ NoDup keys ∧
    ∀ k, k ∈ keys ↔ ∃ name id raw, default ∅ (sources s) !! name = Some id ∧ SourceName k = (if ident then name else "") ∧
      Namespaced.Namespace (NsName k) = ns ∧ tracked (events_of id inputs) (NsName k) raw ∧ selector_selects raw labels.
Proof.
  intros Hinv. set (srcs := default ∅ (Informer.sources (view s))).
  set (i := {| Informer.started := started s; Informer.isSourceIdent := ident; Informer.sources := Some srcs |}).
  assert (Hq : Query (view s) ns labels = Query i ns labels) by (unfold Query; cbn; by rewrite (inv_ident _ _ _ Hinv)).
  assert (Hsrc : ∀ name src, srcs !! name = Some src ↔ ∃ id inf, default ∅ (sources s) !! name = Some id ∧ heap s !! id = Some inf ∧ source inf = src).
  { intros name src. unfold srcs. rewrite lookup_view, bind_Some. split.
    - intros (id & Hid & Hi). destruct (heap s !! id) as [inf|] eqn:Hinf; [|done]. injection Hi as <-. by exists id, inf.
    - intros (id & inf & Hid & Hinf & <-). exists id. by rewrite Hinf. }
  set (ms := omap (λ id, Some (after_events (events_of id inputs))) (default ∅ (sources s)) : gmap string (gmap NamespacedName LabelSelector)).
  destruct (Informer_Query_correct i ms ns labels srcs) as (keys & Hkeys & Hnd & Hin); [done| |].
  { intros name src (id & inf & Hid & Hinf & <-)%Hsrc. exists (after_events (events_of id inputs)).
    split; [unfold ms; by rewrite lookup_omap, Hid|]. by destruct (inv_informers _ _ _ Hinv id inf Hinf). }
  exists keys. rewrite Hq. split; [done|]. split; [done|]. intros k. rewrite Hin. split.
  - intros (name & m & raw & _ & Hm & Hname & Hns & Hraw & Hsel). unfold ms in Hm. rewrite lookup_omap in Hm.
    destruct (default ∅ (sources s) !! name) as [id|] eqn:Hid; [|done]. injection Hm as <-. exists name, id, raw.
    split; [done|]. split; [done|]. split; [done|]. split; [by apply after_events_spec|done].
  - intros (name & id & raw & Hid & Hname & Hns & Hraw & Hsel). exists name, (after_events (events_of id inputs)), raw.
    destruct (pr_names _ _ _ _ _ (inv_protocol _ _ _ Hinv) name id Hid) as (inf & Hinf & _).
    split; [exists (source inf); apply Hsrc; by exists id, inf|]. split; [unfold ms; by rewrite lookup_omap, Hid|].
    do 2 (split; [done|]). split; [by apply after_events_spec|done].
Qed.

Lemma synced_view ident inputs s :
  inv ident inputs s →
  HasSynced (view s) = true ↔
    ∃ srcs, sources s = Some srcs ∧ ∀ name id, srcs !! name = Some id → last (synced_of id inputs) = Some true.
Proof.
  intros Hinv. pose proof (pr_names _ _ _ _ _ (inv_protocol _ _ _ Hinv)) as Hn. pose proof (lookup_view s) as Hv.
  unfold HasSynced, view in *. cbn in *. destruct (sources s) as [srcs|]; cbn in *; [|split; [done|by intros (? & ? & _)]].
  assert (Hsome : ∀ id inf, heap s !! id = Some inf → hasSynced (source inf) = true ↔ last (synced_of id inputs) = Some true).
  { intros id inf Hinf. destruct (inv_informers _ _ _ Hinv id inf Hinf) as [_ -> _].
    destruct (last (synced_of id inputs)) as [[|]|]; by split. }
  rewrite forallb_forall. split.
  - intros Hall. exists srcs. split; [done|]. intros name id Hid. destruct (Hn name id Hid) as (inf & Hinf & _).
    apply (Hsome id inf Hinf). apply (Hall (name, source inf)). apply list_elem_of_In, elem_of_map_order.
    rewrite Hv, Hid. cbn. by rewrite Hinf.
  - intros (srcs' & [= <-] & Hall) [name src] Hin. apply list_elem_of_In, elem_of_map_order in Hin. rewrite Hv in Hin.
    apply bind_Some in Hin as (id & Hid & Hi). destruct (heap s !! id) as [inf|] eqn:Hinf; [|done]. injection Hi as <-.
    by apply (Hsome id inf Hinf), (Hall name).
Qed.

(** Inputs that can be carried out make a run. *)
Definition execute (ident : bool) (inputs : list (input SourceDesc Handler)) : option (state SourceDesc Handler) :=
  foldl (λ o i, s ← o; if possible s i then match step s i with Some (Ret s') => Some s' | _ => None end else None)
    (Some (initial ident)) inputs.
Lemma execute_runs ident inputs : ∀ s, execute ident inputs = Some s → runs ident inputs s.
Proof.
  unfold execute. induction inputs as [|i inputs IH] using rev_ind; intros s; [intros [= <-]; constructor|].
  rewrite foldl_app. cbn [foldl]. destruct (foldl _ _ inputs) as [s0|]; [|done]. cbn [mbind option_bind].
  destruct (possible s0 i) eqn:Hpos; [|done]. destruct (step s0 i) as [[s'|]|] eqn:Hs; [|done..]. intros [= <-].
  econstructor; [by apply IH|done|done].
Qed.

End run_lemmas.

(** ** Properties *)


(** The selector of a PodProtector changes, and one of two sources goes away. *)
Definition selecting (name key value : string) : PodProtector :=
  let ppr := example_ppr 1%Z [] in
  with_Spec (with_pprMeta ppr {| Api.Name := name; Api.Namespace := "ns"; UID := name; ResourceVersion := "1"; CreationTimestamp := 0%Z;
    Labels := ∅; Annotations := ∅; Finalizers := []; OwnerReferences := []; DeletionTimestamp := None |})
    {| MinAvailable := 1%Z; MinReadySeconds := 0%Z; pprSelector := {| MatchLabels := {[ key := value ]}; MatchExpressions := [] |};
       AggregationSelector := None; HistoryConfig := zero |}.

Definition example_inputs : list (Watch.input unit string) := [
  Watch.Handled "h"; Watch.Started; Watch.Listed {[ "a" := tt; "b" := tt ]}; Watch.Advanced;
  Watch.Event 0 (selecting "p" "app" "x") true; Watch.Advanced; Watch.Advanced;
  Watch.Event 1 (selecting "q" "app" "y") true; Watch.Event 0 (selecting "p" "app" "y") true;
  Watch.Listed {[ "a" := tt ]}; Watch.Advanced; Watch.Advanced; Watch.Event 1 (selecting "q" "app" "y") false ].


(** Handlers are given the name of the source also where sources do not identify objects. *)
Example handler_gets_source_name :
  ∃ s, Watch.runs (λ _ _, None) (λ _ _, (None, None)) false (take 5 example_inputs) s ∧ Watch.isSourceIdent s = false ∧
    (Informer.SourceName ∘ snd) <$> Watch.called s = ["a"].
Proof.
  assert (Hex : match execute (λ _ _, None) (λ _ _, (None, None)) false (take 5 example_inputs) with
    | Some s => Watch.isSourceIdent s = false ∧ (Informer.SourceName ∘ snd) <$> Watch.called s = ["a"] | None => False end)
    by (vm_compute; repeat split).
  destruct (execute _ _ false (take 5 example_inputs)) as [s|] eqn:Hrun; [|destruct Hex]. apply execute_runs in Hrun. by exists s.
Qed.
