(* ===== verification/PoolAdapter.v ===== *)
(** * PoolAdapter: a batch of deletions against one PodProtector

    [Module RequiresPodName] is webhook/handler/requires_pod_name.go and [Module PoolAdapter]
    is webhook/handler/pool_adapter.go: what the retry batch pool executes. The informer,
    the clock, the backoff and the client that writes the status act on a world of any
    type. *)

From S2P Require Import Prelude Util Errors Iter Canonical SetTrie LabelIndex Api PprUtil Quota RetryBatch Informer.

Module RequiresPodName.

Record RequiresPodNameArg : Type := { CellId : string; PodName : string }.

(** The interface [RequiresPodName] and its implementations. *)
Definition RequiresPodName : Type := RequiresPodNameArg → bool.
Definition ConstantRequiresPodName (b : bool) : RequiresPodName := λ _, b.
Definition filterByCellRequiresPodName (cells : gset string) : RequiresPodName :=
  λ arg, bool_decide (CellId arg ∈ cells).

End RequiresPodName.

Module PoolAdapter.

(** The embedded [observer.BatchItem] has the field [CellId]. *)
Record BatchItem : Type := {
  CellId : string;
  PodUid : string;
  PodName : string;
  PodStatus : DisruptionQuota.PodStatus
}.

(** [resultEntry] points into the slice of results: an index. *)
Record undeterminedItem : Type := {
  podStatus : DisruptionQuota.PodStatus;
  resultEntry : nat;
  podName : string;
  podUid : string;
  cellId : string
}.

#[global] Instance Result_zero : Zero BatchItem.Result := BatchItem.ResultUnknown.

Definition admitResultToBatchItemResult (result : DisruptionQuota.Result) : BatchItem.Result :=
  match result with
  | DisruptionQuota.DisruptionResultOk => BatchItem.ResultNewDisruption
  | DisruptionQuota.DisruptionResultAlreadyUnhealthy => BatchItem.ResultAlreadyUnhealthy
  | DisruptionQuota.DisruptionResultRetry => BatchItem.ResultNeedRetry
  | DisruptionQuota.DisruptionResultDenied => BatchItem.ResultRejected
  end.

(** The bucket of the pod in the first cell with the name, whose start time is moved; [None]
    when there is no cell or no such bucket. *)
Definition touchDuplicate (executeTime : Time) (cells : list PodProtectorCellStatus) (arg : BatchItem) :
    option (list PodProtectorCellStatus) :=
  let cellIndex := Slices.FindInSliceWith cells (λ cell, bool_decide (Api.CellId cell = CellId arg)) in
  if (cellIndex =? -1)%Z then None
  else
    match cells !! Z.to_nat cellIndex with
    | None => None
    | Some cellStatus =>
        let duplicateBucket := Slices.FindInSliceWith (Buckets cellStatus)
          (λ bucket, bool_decide (Api.PodUid bucket = Some (PodUid arg))) in
        if (duplicateBucket =? -1)%Z then None
        else Some (alter (λ cell, with_Buckets cell
          (alter (λ b, with_StartTime b executeTime) (Z.to_nat duplicateBucket) (Buckets cell)))
          (Z.to_nat cellIndex) cells)
    end.

(** The loop over the arguments from index [i] on. *)
Fixpoint determine (executeTime : Time) (i : nat) (args : list BatchItem)
    (cells : list PodProtectorCellStatus) (results : list BatchItem.Result)
    (undetermined : list undeterminedItem) :
    list PodProtectorCellStatus * list BatchItem.Result * list undeterminedItem :=
  match args with
  | [] => (cells, results, undetermined)
  | arg :: args =>
      match touchDuplicate executeTime cells arg with
      | Some cells =>
          determine executeTime (S i) args cells (<[i := BatchItem.ResultAlreadyHasBucket]> results)
            undetermined
      | None =>
          determine executeTime (S i) args cells results
            (undetermined ++ [{| podStatus := PodStatus arg; resultEntry := i; podName := PodName arg;
                                 podUid := PodUid arg; cellId := CellId arg |}])
      end
  end.

Section adapter.
Variable requiresPodName : RequiresPodName.RequiresPodName.

Definition newBucket (executeTime : Time) (item : undeterminedItem) : PodProtectorAdmissionBucket := {|
  StartTime := executeTime;
  Api.PodName := if requiresPodName {| RequiresPodName.CellId := cellId item;
    RequiresPodName.PodName := podName item |} then podName item else "";
  Api.PodUid := Some (podUid item);
  EndTime := None;
  Counter := None
|}.

Definition recordBucket (executeTime : Time) (cells : list PodProtectorCellStatus) (item : undeterminedItem) :
    list PodProtectorCellStatus :=
  let '(cells, cellStatus) := Slices.GetOrAppendSliceWith cells
    (λ cell, bool_decide (Api.CellId cell = cellId item))
    (λ _, {| Api.CellId := cellId item; Aggregation := zero; Buckets := [] |}) in
  alter (λ cell, with_Buckets cell (Buckets cell ++ [newBucket executeTime item])) cellStatus cells.

(** The body of the loop that admits the undetermined items, the last one first. *)
Definition admitItem (executeTime : Time)
    (acc : DisruptionQuota.State * list PodProtectorCellStatus * list BatchItem.Result)
    (item : undeterminedItem) :
    DisruptionQuota.State * list PodProtectorCellStatus * list BatchItem.Result :=
  let '(state, cells, results) := acc in
  let '(state, admitResult) := DisruptionQuota.AdmitBatchItem state (podStatus item) in
  let results := <[resultEntry item := admitResultToBatchItemResult admitResult]> results in
  if DisruptionQuota.ShouldDisrupt admitResult then (state, recordBucket executeTime cells item, results)
  else (state, cells, results).

Definition admitUndetermined (executeTime : Time) (ppr : PodProtector) (config : DefaultConfig.Computed)
    (cells : list PodProtectorCellStatus) (results : list BatchItem.Result)
    (undetermined : list undeterminedItem) : list PodProtectorCellStatus * list BatchItem.Result :=
  if 0 <? length undetermined then
    let '(_, cells, results) := foldl (admitItem executeTime)
      (DisruptionQuota.MakeState ppr config, cells, results) (reverse undetermined) in
    (cells, results)
  else (cells, results).

Context `{!GoRuntime, !KubeErrors} {W : Type}.
Variables (pprInformer_Get : Informer.PodProtectorKey → W → outcome (option PodProtector * option error))
  (clock_Now : W → Time) (retryBackoff : W → Duration)
  (UpdateStatus : string → PodProtector → W → option error * W).
Variable defaultConfig : DefaultConfig.Options.

Definition resultAt (results : list BatchItem.Result) (i : nat) : outcome BatchItem.Result :=
  match results !! i with Some result => Ret result | None => Panic "index out of range" end.

(** The status of the PodProtector after the batch, and the results. *)
Definition executeOn (executeTime : Time) (originalPpr : PodProtector) (args : list BatchItem) :
    outcome (PodProtector * list BatchItem.Result) :=
  let config := DefaultConfig.Compute defaultConfig (Some (HistoryConfig (Spec originalPpr))) in
  ppr ← PprUtil.Summarize config originalPpr;
  let '(cells, results, undetermined) :=
    determine executeTime 0 args (Cells (Status ppr)) (replicate (length args) zero) [] in
  let '(cells, results) := admitUndetermined executeTime ppr config cells results undetermined in
  ppr ← PprUtil.Summarize config (with_Cells ppr cells);
  Ret (ppr, results).

Definition tryExecute (key : Informer.PodProtectorKey) (args : list BatchItem) (w : W) :
    outcome (RetryBatch.ExecuteResult BatchItem.Result * W) :=
  '(pprOptional, err) ← pprInformer_Get key w;
  match err, pprOptional with
  | Some err, _ =>
      Ret (RetryBatch.ExecuteResultErr (Some (TagWrapf "GetListerPpr" (Some err) "get ppr from lister")), w)
  | None, None => Ret (RetryBatch.ExecuteResultSuccess (λ _, Ret BatchItem.ResultNoPpr), w)
  | None, Some originalPpr =>
      '(ppr, results) ← executeOn (clock_Now w) originalPpr args;
      if bool_decide (originalPpr = ppr) then Ret (RetryBatch.ExecuteResultSuccess (resultAt results), w)
      else
        let '(err, w) := UpdateStatus (Informer.SourceName key) ppr w in
        Ret (match err with
             | Some err =>
                 if IsConflict err then RetryBatch.ExecuteResultNeedRetry (retryBackoff w)
                 else RetryBatch.ExecuteResultErr (Some (TagWrapf "BatchUpdatePprStatus" (Some err)
                   "unable to update PodProtector status"))
             | None => RetryBatch.ExecuteResultSuccess (resultAt results)
             end, w)
  end.

(** [Execute] reports what [tryExecute] returns. *)
Definition Execute (key : Informer.PodProtectorKey) (args : list BatchItem) (w : W) :
    outcome (RetryBatch.ExecuteResult BatchItem.Result * W) :=
  tryExecute key args w.

End adapter.

End PoolAdapter.

(** ** Lemmas *)
Section adapter_lemmas.
Import PoolAdapter.
Implicit Types (arg : BatchItem) (args : list BatchItem) (cells : list PodProtectorCellStatus).

(** The first cell with a name. *)
Definition find_cell cells (id : string) : option PodProtectorCellStatus :=
  snd <$> list_find (λ c, Api.CellId c = id) cells.

Definition bucket_of (uid : string) (c : PodProtectorCellStatus) : bool :=
  existsb (λ b, bool_decide (Api.PodUid b = Some uid)) (Buckets c).

(** Whether the cell of an item has a bucket of its pod. *)
Definition has_bucket cells arg : bool :=
  match find_cell cells (CellId arg) with
  | Some c => bucket_of (PodUid arg) c
  | None => false
  end.

Definition undetermined_of (i : nat) arg : undeterminedItem := {|
  podStatus := PodStatus arg; resultEntry := i; podName := PodName arg; podUid := PodUid arg;
  cellId := CellId arg |}.

(** Two buckets that differ in their start times only. *)
Definition same_bucket (b b' : PodProtectorAdmissionBucket) : Prop :=
  with_StartTime b 0%Z = with_StartTime b' 0%Z.
Definition same_cell (c c' : PodProtectorCellStatus) : Prop :=
  Api.CellId c = Api.CellId c' ∧ Aggregation c = Aggregation c' ∧ Forall2 same_bucket (Buckets c) (Buckets c').

#[export] Instance same_bucket_equiv : Equivalence same_bucket.
Proof. unfold same_bucket. split; repeat intro; congruence. Qed.
#[export] Instance same_cell_equiv : Equivalence same_cell.
Proof.
  split.
  - intros c. done.
  - intros c c' (? & ? & ?). by repeat split.
  - intros c1 c2 c3 (I1 & A1 & H1) (I2 & A2 & H2). split; [congruence|]. split; [congruence|]. by etrans.
Qed.

Lemma find_cell_same cells cells' id :
  Forall2 same_cell cells cells' → option_Forall2 same_cell (find_cell cells id) (find_cell cells' id).
Proof.
  induction 1 as [|c c' cells cells' Hc Hcells IH]; [constructor|].
  unfold find_cell in *. simpl. destruct Hc as (Hid & Hrest). rewrite <- Hid.
  destruct (decide (Api.CellId c = id)) as [He|]; simpl; [constructor; by split|].
  destruct (list_find _ cells) as [[]|], (list_find _ cells') as [[]|]; simpl in *; inversion IH; subst; by constructor.
Qed.

Lemma bucket_of_same uid c c' : same_cell c c' → bucket_of uid c = bucket_of uid c'.
Proof.
  intros (_ & _ & Hb). unfold bucket_of. induction Hb as [|b b' bs bs' Hb _ IH]; simpl; [done|].
  rewrite IH. f_equal. apply bool_decide_ext. injection Hb. intros _ _ -> _. done.
Qed.

Lemma has_bucket_same cells cells' arg :
  Forall2 same_cell cells cells' → has_bucket cells arg = has_bucket cells' arg.
Proof.
  intros H%(find_cell_same _ _ (CellId arg)). unfold has_bucket.
  destruct H; [by apply bucket_of_same|done].
Qed.

(** The slot of the cell of a name. *)
Lemma find_cell_slot cells id :
  let i := Slices.FindInSliceWith cells (λ c, bool_decide (Api.CellId c = id)) in
  (i = (-1)%Z ∧ find_cell cells id = None) ∨
  (∃ n c, i = Z.of_nat n ∧ cells !! n = Some c ∧ Api.CellId c = id ∧ find_cell cells id = Some c).
Proof.
  simpl. unfold find_cell.
  destruct (FindInSliceWith_spec cells (λ c, bool_decide (Api.CellId c = id)))
    as [[-> Hnone]|(i & -> & (c & Hi & Hc) & Hlt)].
  - left. rewrite (proj2 (list_find_None _ _)); [done|].
    apply Forall_forall. intros c Hc. specialize (Hnone c Hc). by apply bool_decide_eq_false in Hnone.
  - right. apply bool_decide_eq_true in Hc. exists i, c.
    assert (list_find (λ c, Api.CellId c = id) cells = Some (i, c)) as ->; [|done].
    apply list_find_Some. split; [done|]. split; [done|].
    intros j y Hj Hji. specialize (Hlt j y Hji Hj). by apply bool_decide_eq_false in Hlt.
Qed.

Lemma bucket_slot (c : PodProtectorCellStatus) uid :
  (Slices.FindInSliceWith (Buckets c) (λ b, bool_decide (Api.PodUid b = Some uid)) =? -1)%Z =
    negb (bucket_of uid c).
Proof.
  unfold bucket_of.
  destruct (FindInSliceWith_spec (Buckets c) (λ b, bool_decide (Api.PodUid b = Some uid)))
    as [[-> Hnone]|(i & -> & (b & Hi & Hb) & _)].
  - rewrite (proj2 (Z.eqb_eq _ _)) by done. symmetry. apply negb_true_iff, not_true_iff_false.
    rewrite existsb_elem_of. intros (b & Hb & Ht). specialize (Hnone b Hb). simpl in Hnone. congruence.
  - rewrite (proj2 (Z.eqb_neq _ _)) by lia. symmetry. apply negb_false_iff, existsb_elem_of.
    exists b. split; [by eapply list_elem_of_lookup_2|done].
Qed.

(** [touchDuplicate] succeeds exactly on the duplicates, and moves only start times. *)
Lemma touchDuplicate_spec t cells arg :
  match touchDuplicate t cells arg with
  | Some cells' => has_bucket cells arg = true ∧ Forall2 same_cell cells cells'
  | None => has_bucket cells arg = false
  end.
Proof.
  unfold touchDuplicate, has_bucket.
  destruct (find_cell_slot cells (CellId arg)) as [[-> ->]|(n & c & -> & Hn & Hid & ->)]; [done|].
  rewrite (proj2 (Z.eqb_neq _ _)), Nat2Z.id, Hn, bucket_slot by lia.
  destruct (bucket_of (PodUid arg) c); simpl; [|done]. split; [done|].
  generalize (Z.to_nat (Slices.FindInSliceWith (Buckets c) (λ b, bool_decide (Api.PodUid b = Some (PodUid arg))))).
  intros k.
  apply Forall2_same_length_lookup_2; [by rewrite length_alter|].
  intros i c1 c2 H1 H2. destruct (decide (i = n)) as [->|Hne].
  - rewrite list_lookup_alter_eq, Hn in H2. simpl in H2. simplify_eq. split; [done|]. split; [done|]. simpl.
    apply Forall2_same_length_lookup_2; [by rewrite length_alter|].
    intros j b1 b2 Hb1 Hb2. destruct (decide (j = k)) as [->|Hj].
    + rewrite list_lookup_alter_eq, Hb1 in Hb2. injection Hb2 as <-. exact eq_refl.
    + rewrite list_lookup_alter_ne, Hb1 in Hb2 by done. by simplify_eq.
  - rewrite list_lookup_alter_ne, H1 in H2 by done. by simplify_eq.
Qed.

(** The results of the duplicates, and the other items, from index [i] on. *)
Fixpoint mark_duplicates (dup : BatchItem → bool) (i : nat) args (results : list BatchItem.Result) :
    list BatchItem.Result :=
  match args with
  | [] => results
  | arg :: args => mark_duplicates dup (S i) args
      (if dup arg then <[i := BatchItem.ResultAlreadyHasBucket]> results else results)
  end.
Fixpoint others (dup : BatchItem → bool) (i : nat) args : list undeterminedItem :=
  match args with
  | [] => []
  | arg :: args => if dup arg then others dup (S i) args else undetermined_of i arg :: others dup (S i) args
  end.

Lemma determine_spec t cells0 args : ∀ i cells results und,
  Forall2 same_cell cells0 cells →
  ∃ cells', determine t i args cells results und =
      (cells', mark_duplicates (has_bucket cells0) i args results, und ++ others (has_bucket cells0) i args) ∧
    Forall2 same_cell cells0 cells'.
Proof.
  induction args as [|arg args IH]; intros i cells results und Hs; simpl.
  { exists cells. by rewrite app_nil_r. }
  pose proof (touchDuplicate_spec t cells arg) as Ht. rewrite (has_bucket_same _ _ arg Hs).
  destruct (touchDuplicate t cells arg) as [cells1|].
  - destruct Ht as [-> Ht]. apply IH. by etrans.
  - rewrite Ht. destruct (IH (S i) cells results (und ++ [undetermined_of i arg]) Hs) as (cells' & Hd & Hs').
    exists cells'. split; [|done]. unfold undetermined_of in Hd at 1. by rewrite Hd, <- app_assoc.
Qed.

(** The results of a batch, in the order of its items: the duplicates, and the others by
    the result of the quota. *)
Fixpoint batch_results (dup : BatchItem → bool) args (rs : list DisruptionQuota.Result) :
    list BatchItem.Result :=
  match args with
  | [] => []
  | arg :: args =>
      if dup arg then BatchItem.ResultAlreadyHasBucket :: batch_results dup args rs
      else match rs with
           | [] => []
           | r :: rs => admitResultToBatchItemResult r :: batch_results dup args rs
           end
  end.

Definition fresh_statuses (dup : BatchItem → bool) args : list DisruptionQuota.PodStatus :=
  PodStatus <$> filter (λ arg, dup arg = false) args.

Lemma fresh_statuses_cons dup arg args :
  fresh_statuses dup (arg :: args) =
    if dup arg then fresh_statuses dup args else PodStatus arg :: fresh_statuses dup args.
Proof.
  unfold fresh_statuses. destruct (dup arg) eqn:Hd.
  - by rewrite filter_cons_False by congruence.
  - by rewrite filter_cons_True by done.
Qed.

(** The items that the quota admits, from the last one on. *)
Fixpoint recorded requiresPodName t (und : list undeterminedItem) (rs : list DisruptionQuota.Result) cells :
    list PodProtectorCellStatus :=
  match und, rs with
  | item :: und, r :: rs =>
      let cells := recorded requiresPodName t und rs cells in
      if DisruptionQuota.ShouldDisrupt r then recordBucket requiresPodName t cells item else cells
  | _, _ => cells
  end.

Lemma take_S_insert {A} i (x : A) (l : list A) : i < length l → take (S i) (<[i := x]> l) = take i l ++ [x].
Proof.
  intros Hi. rewrite (take_S_r _ _ x) by by apply list_lookup_insert_eq. by rewrite take_insert_ge.
Qed.

Lemma admit_others requiresPodName t (dup : BatchItem → bool) s cells args : ∀ i results,
  i + length args ≤ length results →
  foldr (λ item acc, admitItem requiresPodName t acc item) (s, cells, mark_duplicates dup i args results)
      (others dup i args) =
    let '(s', rs) := DisruptionQuota.admitLoop s (fresh_statuses dup args) in
    (s', recorded requiresPodName t (others dup i args) rs cells,
     take i results ++ batch_results dup args rs ++ drop (i + length args) results).
Proof.
  induction args as [|arg args IH]; intros i results Hlen.
  { simpl. by rewrite Nat.add_0_r, take_drop. }
  simpl in Hlen. rewrite fresh_statuses_cons. cbn [mark_duplicates others]. destruct (dup arg) eqn:Hd.
  - rewrite IH by (rewrite length_insert; lia). pose proof (length_admitLoop s (fresh_statuses dup args)) as Hl.
    destruct (DisruptionQuota.admitLoop s (fresh_statuses dup args)) as [s' rs]. simpl. rewrite Hd.
    rewrite take_S_insert, drop_insert_lt, <- app_assoc by lia. by rewrite Nat.add_succ_r.
  - cbn [foldr]. rewrite IH by lia. cbn [DisruptionQuota.admitLoop].
    destruct (DisruptionQuota.admitLoop s (fresh_statuses dup args)) as [s' rs].
    unfold admitItem. simpl. rewrite Hd.
    destruct (lookup_lt_is_Some_2 results i) as [x Hx]; [lia|].
    assert (Hres : ∀ y, <[i := y]> (take (S i) results ++ batch_results dup args rs ++ drop (S i + length args) results)
      = take i results ++ (y :: batch_results dup args rs) ++ drop (i + S (length args)) results).
    { intros y. rewrite (take_S_r _ _ x), <- app_assoc by done. rewrite insert_app_r_alt by (rewrite length_take; lia).
      rewrite length_take, Nat.min_l, Nat.sub_diag by lia. simpl. by rewrite Nat.add_succ_r. }
    destruct (DisruptionQuota.ShouldDisrupt (DisruptionQuota.getResult s' (PodStatus arg))); by rewrite Hres.
Qed.

(** A bucket is in the history of a cell with a name. *)
Definition in_history cells (id : string) (b : PodProtectorAdmissionBucket) : Prop :=
  ∃ c, c ∈ cells ∧ Api.CellId c = id ∧ b ∈ Buckets c.

(** [recordBucket] adds the new bucket to one cell: a cell of the name, or a new one. *)
Lemma recordBucket_spec requiresPodName t cells item :
  let b := newBucket requiresPodName t item in
  ∃ pre c post, recordBucket requiresPodName t cells item = pre ++ with_Buckets c (Buckets c ++ [b]) :: post ∧
    Api.CellId c = cellId item ∧
    (cells = pre ++ c :: post ∨ (cells = pre ∧ post = [] ∧ Aggregation c = zero ∧ Buckets c = [])).
Proof.
  intros b. unfold recordBucket. fold b.
  destruct (GetOrAppendSliceWith_spec cells (λ cell, bool_decide (Api.CellId cell = cellId item))
    (λ _, {| Api.CellId := cellId item; Aggregation := zero; Buckets := [] |}))
    as (i & [[-> ((c & Hi & Hc) & _)]|(-> & -> & _)]).
  - apply bool_decide_eq_true in Hc. exists (take i cells), c, (drop (S i) cells).
    split; [|split; [done|left; by rewrite take_drop_middle]].
    rewrite <- (take_drop_middle cells i c Hi) at 1.
    assert (Hl : i = length (take i cells)) by (apply lookup_lt_Some in Hi; rewrite length_take; lia).
    rewrite Hl at 1. by rewrite alter_app_r_alt, Nat.sub_diag by lia.
  - exists cells, {| Api.CellId := cellId item; Aggregation := zero; Buckets := [] |}, [].
    split; [|by split; [|right]]. by rewrite alter_app_r_alt, Nat.sub_diag by lia.
Qed.

Lemma recordBucket_adds requiresPodName t cells item :
  in_history (recordBucket requiresPodName t cells item) (cellId item) (newBucket requiresPodName t item).
Proof.
  destruct (recordBucket_spec requiresPodName t cells item) as (pre & c & post & -> & Hid & _).
  eexists. split; [by apply elem_of_app; right; left|]. split; [done|]. simpl. set_solver.
Qed.

Lemma recordBucket_keeps requiresPodName t cells item id b :
  in_history cells id b → in_history (recordBucket requiresPodName t cells item) id b.
Proof.
  intros (c0 & Hin & Hid0 & Hb).
  destruct (recordBucket_spec requiresPodName t cells item) as (pre & c & post & -> & Hid & [->|(-> & _)]).
  - apply elem_of_app in Hin as [Hin|[->|Hin]%elem_of_cons].
    + exists c0. split; [set_solver|done].
    + eexists. split; [by apply elem_of_app; right; left|]. split; [done|]. simpl. set_solver.
    + exists c0. split; [set_solver|done].
  - exists c0. split; [set_solver|done].
Qed.

Lemma recorded_keeps requiresPodName t und rs cells id b :
  in_history cells id b → in_history (recorded requiresPodName t und rs cells) id b.
Proof.
  intros Hb. revert rs. induction und as [|item und IH]; intros [|r rs]; simpl; try done.
  destruct (DisruptionQuota.ShouldDisrupt r); auto using recordBucket_keeps.
Qed.

Lemma in_history_same cells cells' id b :
  Forall2 same_cell cells cells' → in_history cells id b → ∃ b', same_bucket b b' ∧ in_history cells' id b'.
Proof.
  intros Hs (c & Hc & Hid & Hb). apply list_elem_of_lookup in Hc as [i Hi].
  destruct (Forall2_lookup_l _ _ _ _ _ Hs Hi) as (c' & Hi' & Hid' & _ & Hbs).
  apply list_elem_of_lookup in Hb as [j Hj].
  destruct (Forall2_lookup_l _ _ _ _ _ Hbs Hj) as (b' & Hj' & Hb'). exists b'. split; [done|].
  exists c'. split; [by eapply list_elem_of_lookup_2|]. split; [congruence|by eapply list_elem_of_lookup_2].
Qed.

(** The results that a bucket is written for. *)
Definition admitted (r : BatchItem.Result) : bool :=
  match r with
  | BatchItem.ResultNewDisruption | BatchItem.ResultAlreadyUnhealthy => true
  | _ => false
  end.

Lemma admitted_ShouldDisrupt r : admitted (admitResultToBatchItemResult r) = DisruptionQuota.ShouldDisrupt r.
Proof. by destruct r. Qed.

Lemma recorded_has requiresPodName t dup cells args : ∀ i rs k arg x,
  args !! k = Some arg → batch_results dup args rs !! k = Some x → admitted x = true →
  ∃ j, in_history (recorded requiresPodName t (others dup i args) rs cells) (CellId arg)
    (newBucket requiresPodName t (undetermined_of j arg)).
Proof.
  induction args as [|a args IH]; intros i rs k arg x Hk Hx Ha; [done|]. simpl in *.
  destruct (dup a) eqn:Hd.
  - destruct k as [|k]; simpl in *; [by simplify_eq|]. by apply (IH (S i) rs k arg x).
  - destruct rs as [|r rs]; [done|]. destruct k as [|k]; simpl in *.
    + simplify_eq. rewrite admitted_ShouldDisrupt in Ha. rewrite Ha. exists i. apply recordBucket_adds.
    + destruct (IH (S i) rs k arg x Hk Hx Ha) as [j Hj]. exists j.
      destruct (DisruptionQuota.ShouldDisrupt r); [by apply recordBucket_keeps|done].
Qed.

(** The result of one item of a batch. *)
Lemma admitLoop_lookup s ps : ∀ i p r,
  ps !! i = Some p → (DisruptionQuota.admitLoop s ps).2 !! i = Some r → ∃ s', r = DisruptionQuota.getResult s' p.
Proof.
  induction ps as [|p0 ps IH]; intros i p r Hp Hr; [done|]. cbn [DisruptionQuota.admitLoop] in Hr.
  destruct (DisruptionQuota.admitLoop s ps) as [s1 rs]. simpl in *. destruct i as [|i]; simpl in *; simplify_eq; eauto.
Qed.

Lemma batch_results_lookup dup args : ∀ rs i arg x,
  args !! i = Some arg → batch_results dup args rs !! i = Some x →
  (dup arg = true ∧ x = BatchItem.ResultAlreadyHasBucket) ∨
  (dup arg = false ∧ ∃ j r, fresh_statuses dup args !! j = Some (PodStatus arg) ∧ rs !! j = Some r ∧
    x = admitResultToBatchItemResult r).
Proof.
  induction args as [|a args IH]; intros rs i arg x Harg Hx; [done|]. simpl in Hx. rewrite fresh_statuses_cons.
  destruct (dup a) eqn:Hd.
  - destruct i as [|i]; simpl in *; [simplify_eq; by left|]. destruct (IH rs i arg x Harg Hx); auto.
  - destruct rs as [|r rs]; [done|]. destruct i as [|i]; simpl in *.
    + simplify_eq. right. split; [done|]. exists 0, r. done.
    + destruct (IH rs i arg x Harg Hx) as [?|(? & j & r' & ? & ? & ?)]; [by left|right].
      split; [done|]. by exists (S j), r'.
Qed.

(** The buckets of a history after a batch: those before, and those of the admitted items. *)
Lemma recorded_history requiresPodName t dup args : ∀ i rs cells id b,
  in_history (recorded requiresPodName t (others dup i args) rs cells) id b →
  in_history cells id b ∨ ∃ k arg x, args !! k = Some arg ∧ batch_results dup args rs !! k = Some x ∧
    admitted x = true ∧ id = CellId arg ∧ Api.PodUid b = Some (PodUid arg) ∧ Counter b = None.
Proof.
  induction args as [|a args IH]; intros i rs cells id b Hb; [by left|]. simpl in Hb |- *.
  assert (Hlift : ∀ rs r0, (∃ k arg x, args !! k = Some arg ∧ batch_results dup args rs !! k = Some x ∧
      admitted x = true ∧ id = CellId arg ∧ Api.PodUid b = Some (PodUid arg) ∧ Counter b = None) →
    ∃ k arg x, (a :: args) !! k = Some arg ∧ (r0 :: batch_results dup args rs) !! k = Some x ∧
      admitted x = true ∧ id = CellId arg ∧ Api.PodUid b = Some (PodUid arg) ∧ Counter b = None).
  { intros rs' r0 (k & arg & x & ?). by exists (S k), arg, x. }
  destruct (dup a).
  - destruct (IH _ _ _ _ _ Hb); auto.
  - destruct rs as [|r rs]; [by left|]. simpl in Hb.
    destruct (DisruptionQuota.ShouldDisrupt r) eqn:Hr; [|destruct (IH _ _ _ _ _ Hb); auto].
    set (cells' := recorded _ _ _ _ _) in Hb.
    destruct (recordBucket_spec requiresPodName t cells' (undetermined_of i a)) as (pre & c & post & Heq & Hid & Hcells).
    rewrite Heq in Hb. destruct Hb as (c' & Hc' & Hid' & Hb).
    assert (Hold : in_history cells' id b ∨ id = CellId a ∧ b = newBucket requiresPodName t (undetermined_of i a)).
    { apply elem_of_app in Hc' as [Hc'|[->|Hc']%elem_of_cons].
      - left. exists c'. split; [|done]. destruct Hcells as [->|(-> & _)]; set_solver.
      - simpl in Hid, Hid', Hb. apply elem_of_app in Hb as [Hb|Hb%list_elem_of_singleton]; [left|right; split; congruence].
        exists c. split; [|split; [congruence|done]]. destruct Hcells as [->|(_ & _ & _ & Hnil)]; [set_solver|].
        rewrite Hnil in Hb. by apply not_elem_of_nil in Hb.
      - left. exists c'. split; [|done]. destruct Hcells as [->|(_ & -> & _)]; set_solver. }
    destruct Hold as [Hold|[-> ->]].
    + destruct (IH _ _ _ _ _ Hold); auto.
    + right. exists 0, a, (admitResultToBatchItemResult r). rewrite admitted_ShouldDisrupt. done.
Qed.

(** *** Counts *)
Definition count_result (r : BatchItem.Result) (results : list BatchItem.Result) : Z :=
  Z.of_nat (length (filter (λ r', r' = r) results)).
Definition count_admitted (results : list BatchItem.Result) : Z :=
  Z.of_nat (length (filter (λ r, admitted r = true) results)).

Lemma count_admitted_cons r results :
  count_admitted (r :: results) = ((if admitted r then 1 else 0) + count_admitted results)%Z.
Proof.
  unfold count_admitted. destruct (admitted r) eqn:Hr.
  - rewrite filter_cons_True by done. simpl. lia.
  - rewrite filter_cons_False by congruence. lia.
Qed.

Lemma count_result_cons r x results :
  count_result r (x :: results) = ((if decide (x = r) then 1 else 0) + count_result r results)%Z.
Proof.
  unfold count_result. case_decide.
  - rewrite filter_cons_True by done. simpl. lia.
  - by rewrite filter_cons_False by done.
Qed.

Lemma count_admitted_split results :
  count_admitted results = (count_result BatchItem.ResultNewDisruption results +
    count_result BatchItem.ResultAlreadyUnhealthy results)%Z.
Proof.
  induction results as [|r results IH]; [done|].
  rewrite count_admitted_cons, !count_result_cons, IH. destruct r; simpl; lia.
Qed.

Lemma count_new_batch dup args : ∀ rs, length rs = length (fresh_statuses dup args) →
  count_result BatchItem.ResultNewDisruption (batch_results dup args rs) = count_ok rs.
Proof.
  induction args as [|a args IH]; intros rs Hl; [by destruct rs|]. simpl. rewrite fresh_statuses_cons in Hl.
  destruct (dup a); [rewrite count_result_cons; simpl; by apply IH|].
  destruct rs as [|r rs]; [done|]. injection Hl as Hl. rewrite count_result_cons, count_ok_cons, IH by done.
  by destruct r.
Qed.

Lemma sum_recordBucket requiresPodName t cells item (f : PodProtectorAggregation → Z) :
  f zero = 0%Z →
  sum_by (f ∘ Aggregation) (recordBucket requiresPodName t cells item) = sum_by (f ∘ Aggregation) cells ∧
  cells_count (recordBucket requiresPodName t cells item) = (cells_count cells + 1)%Z.
Proof.
  intros Hf. destruct (recordBucket_spec requiresPodName t cells item)
    as (pre & c & post & -> & _ & [->|(-> & -> & Ha & Hb)]); unfold cells_count;
    rewrite !sum_by_app; simpl; rewrite ?sum_by_app; simpl.
  - split; [done|]. change (bucket_count (newBucket _ _ _)) with 1%Z. lia.
  - change (bucket_count (newBucket _ _ _)) with 1%Z. rewrite Ha, Hf, Hb. simpl. lia.
Qed.

Lemma sum_recorded requiresPodName t dup cells args (f : PodProtectorAggregation → Z) : ∀ i rs,
  f zero = 0%Z → length rs = length (fresh_statuses dup args) →
  sum_by (f ∘ Aggregation) (recorded requiresPodName t (others dup i args) rs cells) =
    sum_by (f ∘ Aggregation) cells ∧
  cells_count (recorded requiresPodName t (others dup i args) rs cells) =
    (cells_count cells + count_admitted (batch_results dup args rs))%Z.
Proof.
  intros i rs Hf. revert i rs. induction args as [|a args IH]; intros i rs Hl; simpl.
  { unfold count_admitted. simpl. split; [done|lia]. }
  rewrite fresh_statuses_cons in Hl. destruct (dup a).
  - rewrite count_admitted_cons. simpl. by apply IH.
  - destruct rs as [|r rs]; [done|]. injection Hl as Hl. destruct (IH (S i) rs Hl) as [IH1 IH2]. simpl.
    rewrite count_admitted_cons, admitted_ShouldDisrupt. destruct (DisruptionQuota.ShouldDisrupt r); [|done].
    destruct (sum_recordBucket requiresPodName t (recorded requiresPodName t (others dup (S i) args) rs cells)
      (undetermined_of i a) f Hf) as [-> ->]. rewrite IH1, IH2. lia.
Qed.

Definition histories_fit (m : nat) cells : Prop := Forall (λ c, length (Buckets c) ≤ m) cells.

Lemma recorded_fit requiresPodName t dup cells args : ∀ i rs m,
  histories_fit m cells →
  histories_fit (m + length args) (recorded requiresPodName t (others dup i args) rs cells).
Proof.
  intros i rs m Hm. revert i rs. induction args as [|a args IH]; intros i rs; simpl.
  { by rewrite Nat.add_0_r. }
  assert (Hmono : ∀ cs, histories_fit (m + length args) cs → histories_fit (m + S (length args)) cs).
  { intros cs Hcs. eapply Forall_impl; [exact Hcs|]. simpl. lia. }
  destruct (dup a); [by apply Hmono, IH|]. destruct rs as [|r rs]; simpl.
  { eapply Forall_impl; [exact Hm|]. simpl. lia. }
  destruct (DisruptionQuota.ShouldDisrupt r); [|by apply Hmono, IH].
  specialize (IH (S i) rs).
  destruct (recordBucket_spec requiresPodName t (recorded requiresPodName t (others dup (S i) args) rs cells)
    (undetermined_of i a)) as (pre & c & post & -> & _ & Hcells).
  unfold histories_fit in *. destruct Hcells as [He|(He & -> & _ & Hb)]; rewrite He in IH.
  - apply Forall_app in IH as [H1 [H2 H3]%Forall_cons].
    apply Forall_app. split; [by apply Hmono|]. constructor; [|by apply Hmono].
    simpl. rewrite length_app. simpl. lia.
  - apply Forall_app. split; [by apply Hmono|]. constructor; [|constructor]. rewrite Hb. simpl. lia.
Qed.

Lemma cells_ok_recorded requiresPodName t und rs cells :
  cells_ok cells → cells_ok (recorded requiresPodName t und rs cells).
Proof.
  intros Hok. revert rs. induction und as [|item und IH]; intros [|r rs]; simpl; try done.
  destruct (DisruptionQuota.ShouldDisrupt r); [|auto]. specialize (IH rs).
  destruct (recordBucket_spec requiresPodName t (recorded requiresPodName t und rs cells) item)
    as (pre & c & post & -> & _ & Hcells).
  assert (Hc : Forall bucket_ok (Buckets c)).
  { destruct Hcells as [He|(_ & _ & _ & ->)]; [|constructor]. apply IH. rewrite He. set_solver. }
  intros c' [Hin|[->|Hin]%elem_of_cons]%elem_of_app.
  - apply IH. destruct Hcells as [->|(-> & _)]; set_solver.
  - simpl. apply Forall_app. split; [done|]. constructor; [by left; eexists|constructor].
  - apply IH. destruct Hcells as [->|(_ & -> & _)]; set_solver.
Qed.

Lemma same_cells_facts cells cells' :
  Forall2 same_cell cells cells' →
  (cells_ok cells → cells_ok cells') ∧ cells_count cells' = cells_count cells ∧
  (∀ f : PodProtectorAggregation → Z, sum_by (f ∘ Aggregation) cells' = sum_by (f ∘ Aggregation) cells) ∧
  (∀ m, histories_fit m cells → histories_fit m cells').
Proof.
  unfold cells_count, cells_ok, histories_fit.
  induction 1 as [|c c' cells cells' (Hid & Ha & Hb) _ (IH1 & IH2 & IH3 & IH4)]; simpl; [done|].
  split; [|split; [|split]].
  - intros Hok c0 [->|Hc0]%elem_of_cons; [|apply IH1; [|done]; intros; apply Hok; by right].
    specialize (Hok c ltac:(left)). revert Hok. clear -Hb.
    induction Hb as [|b b' bs bs' Hb _ IH]; [done|]. intros [H1 H2]%Forall_cons.
    constructor; [|auto]. injection Hb as _ Hu He _. unfold bucket_ok. by rewrite <- Hu, <- He.
  - rewrite IH2. f_equal. clear -Hb. induction Hb as [|b b' bs bs' Hb _ IH]; simpl; [done|].
    rewrite IH. injection Hb as _ _ _ Hc. unfold bucket_count. by rewrite Hc.
  - intros f. by rewrite IH3, Ha.
  - intros m [H1 H2]%Forall_cons. constructor; [|auto]. by rewrite <- (Forall2_length _ _ _ Hb).
Qed.

Lemma sum_by_perm {A} (f : A → Z) l1 l2 : l1 ≡ₚ l2 → sum_by f l1 = sum_by f l2.
Proof. induction 1; simpl; lia. Qed.

(** Summarizing a status whose histories fit changes no count. *)
Lemma compacted_cells_facts `{!GoRuntime} config cells cells' :
  (1 ≤ DefaultConfig.CompactThreshold config)%Z → cells_ok cells →
  Forall2 (cell_compacted config) cells cells' →
  cells_ok cells' ∧
  (∀ f : PodProtectorAggregation → Z, sum_by (f ∘ Aggregation) cells' = sum_by (f ∘ Aggregation) cells) ∧
  (histories_fit (Z.to_nat (DefaultConfig.CompactThreshold config)) cells →
    cells_count cells' = cells_count cells ∧ ∀ m, histories_fit m cells → histories_fit m cells').
Proof.
  intros Hthr. unfold cells_ok, histories_fit, cells_count.
  intros Hok Hf. induction Hf as [|c c' cells cells' (bs & Hc & ->) _ IH]; [done|].
  destruct IH as (IH1 & IH2 & IH3); [intros; apply Hok; by right|].
  specialize (Hok c ltac:(left)). rewrite CompactBuckets_eq in Hc by done. injection Hc as <-.
  pose proof (sorted_buckets_perm (Buckets c)) as Hp. split; [|split].
  - intros c0 [->|Hc0]%elem_of_cons; [|by apply IH1]. simpl. rewrite <- Hp in Hok.
    case_decide; [done|]. destruct (sorted_buckets (Buckets c)) as [|b rest]; [done|].
    apply Forall_cons in Hok as [_ Hrest]. constructor; [right; eexists; done|by apply Forall_drop].
  - intros f. simpl. by rewrite IH2.
  - intros [H1 H2]%Forall_cons. destruct (IH3 H2) as [IH4 IH5]. simpl. rewrite decide_True by done. split.
    + rewrite IH4. f_equal. by apply sum_by_perm.
    + intros m [H3 H4]%Forall_cons. constructor; [|auto]. simpl. by rewrite Hp.
Qed.

End adapter_lemmas.

Section execute_lemmas.
Context `{!GoRuntime}.
Import PoolAdapter.

(** The results that a batch gets on the summarized PodProtector. *)
Definition expected_batch (ppr : PodProtector) (config : DefaultConfig.Computed) (args : list BatchItem) :
    list BatchItem.Result :=
  let dup := has_bucket (Cells (Status ppr)) in
  batch_results dup args (DisruptionQuota.AdmitBatch ppr (fresh_statuses dup args) config).

Definition expected_cells requiresPodName t (ppr : PodProtector) (config : DefaultConfig.Computed)
    (args : list BatchItem) (cells : list PodProtectorCellStatus) : list PodProtectorCellStatus :=
  let dup := has_bucket (Cells (Status ppr)) in
  recorded requiresPodName t (others dup 0 args)
    (DisruptionQuota.AdmitBatch ppr (fresh_statuses dup args) config) cells.

Lemma foldl_over_reverse {A B} (f : B → A → B) (b : B) (l : list A) :
  foldl f b (reverse l) = foldr (λ x acc, f acc x) b l.
Proof. induction l as [|x l IH]; [done|]. by rewrite reverse_cons, foldl_snoc, IH. Qed.

Lemma admitUndetermined_eq requiresPodName t ppr config args cells :
  admitUndetermined requiresPodName t ppr config cells
      (mark_duplicates (has_bucket (Cells (Status ppr))) 0 args (replicate (length args) zero))
      (others (has_bucket (Cells (Status ppr))) 0 args) =
    (expected_cells requiresPodName t ppr config args cells, expected_batch ppr config args).
Proof.
  unfold admitUndetermined, expected_cells, expected_batch, DisruptionQuota.AdmitBatch.
  set (dup := has_bucket (Cells (Status ppr))).
  pose proof (admit_others requiresPodName t dup (DisruptionQuota.MakeState ppr config) cells args 0
    (replicate (length args) zero)) as Hadm.
  rewrite length_replicate in Hadm. specialize (Hadm ltac:(lia)).
  rewrite foldl_over_reverse. destruct (DisruptionQuota.admitLoop _ _) as [s' rs] eqn:Hloop. simpl in Hadm |- *.
  rewrite drop_ge, app_nil_r in Hadm by (rewrite length_replicate; lia).
  destruct (0 <? length (others dup 0 args)) eqn:Hl; [by rewrite Hadm|].
  apply Nat.ltb_ge in Hl. destruct (others dup 0 args); [|simpl in Hl; lia]. simpl in *. by injection Hadm as _ ->.
Qed.

(** [executeOn] in closed form. *)
Lemma executeOn_eq requiresPodName defaultConfig t ppr args :
  let config := DefaultConfig.Compute defaultConfig (Some (HistoryConfig (Spec ppr))) in
  (1 ≤ DefaultConfig.CompactThreshold config)%Z → cells_ok (Cells (Status ppr)) →
  ∃ ppr1 cells ppr2,
    PprUtil.Summarize config ppr = Ret ppr1 ∧
    Forall2 (cell_compacted config) (Cells (Status ppr)) (Cells (Status ppr1)) ∧
    Summary (Status ppr1) = summary_of (Cells (Status ppr)) (Cells (Status ppr1)) ∧
    Spec ppr1 = Spec ppr ∧
    Forall2 same_cell (Cells (Status ppr1)) cells ∧
    let cells' := expected_cells requiresPodName t ppr1 config args cells in
    executeOn requiresPodName defaultConfig t ppr args = Ret (ppr2, expected_batch ppr1 config args) ∧
    PprUtil.Summarize config (with_Cells ppr1 cells') = Ret ppr2 ∧
    cells_ok cells' ∧ Forall2 (cell_compacted config) cells' (Cells (Status ppr2)) ∧
    Summary (Status ppr2) = summary_of cells' (Cells (Status ppr2)).
Proof.
  intros config Hthr Hok. unfold executeOn. fold config.
  destruct (Summarize_eq config ppr Hthr Hok) as (cells1 & H1 & Hc1).
  destruct (compacted_cells_facts config _ _ Hthr Hok Hc1) as (Hok1 & _).
  set (ppr1 := with_Status ppr _) in H1.
  destruct (determine_spec t (Cells (Status ppr1)) args 0 (Cells (Status ppr1)) (replicate (length args) zero) [])
    as (cells & Hd & Hs); [reflexivity|].
  destruct (same_cells_facts _ _ Hs) as (Hok2 & _). specialize (Hok2 Hok1).
  set (cells' := expected_cells requiresPodName t ppr1 config args cells).
  assert (Hok3 : cells_ok cells') by by apply cells_ok_recorded.
  destruct (Summarize_eq config (with_Cells ppr1 cells') Hthr Hok3) as (cells2 & H2 & Hc2).
  eexists ppr1, cells, _. split; [exact H1|]. split; [exact Hc1|]. do 2 (split; [done|]). split; [done|].
  cbv zeta. rewrite H1. cbn [mbind outcome_bind]. rewrite Hd. cbn [app].
  rewrite (admitUndetermined_eq requiresPodName t ppr1 config args cells). fold cells'. rewrite H2. done.
Qed.

Lemma length_expected_batch (ppr : PodProtector) config args : length (expected_batch ppr config args) = length args.
Proof.
  unfold expected_batch, DisruptionQuota.AdmitBatch. set (dup := has_bucket _).
  pose proof (length_admitLoop (DisruptionQuota.MakeState ppr config) (fresh_statuses dup args)) as Hl.
  revert Hl. generalize ((DisruptionQuota.admitLoop (DisruptionQuota.MakeState ppr config) (fresh_statuses dup args)).2).
  induction args as [|a args IH]; intros rs Hl; simpl; [done|]. rewrite fresh_statuses_cons in Hl.
  destruct (dup a); simpl; [by rewrite IH|]. destruct rs; [done|]. simpl. by rewrite IH by by injection Hl.
Qed.

End execute_lemmas.

(** ** Properties *)

(** C7. The execution of a batch on the PodProtector that the informer has. The first summary
    decides: an item whose pod already has a bucket in its cell gets [AlreadyHasBucket], the
    others get the results of the quota for a batch of just them, in their order. The status
    is written iff it differs from the informer's: a conflict asks the pool to retry after
    the backoff, another error fails the batch, and only after a successful write, or when
    nothing changed, is an item of the batch answered with its result. *)
Theorem tryExecute_correct `{!GoRuntime, !KubeErrors} {W : Type}
    (requiresPodName : RequiresPodName.RequiresPodName)
    (Get : Informer.PodProtectorKey → W → outcome (option PodProtector * option error))
    (Now : W → Time) (retryBackoff : W → Duration)
    (UpdateStatus : string → PodProtector → W → option error * W) (defaultConfig : DefaultConfig.Options)
    (key : Informer.PodProtectorKey) (args : list PoolAdapter.BatchItem) (w : W) (ppr : PodProtector) :
  let config := DefaultConfig.Compute defaultConfig (Some (HistoryConfig (Spec ppr))) in
  Get key w = Ret (Some ppr, None) →
  (1 ≤ DefaultConfig.CompactThreshold config)%Z → cells_ok (Cells (Status ppr)) →
  ∃ ppr1 ppr2 r w', PprUtil.Summarize config ppr = Ret ppr1 ∧
    PoolAdapter.tryExecute requiresPodName Get Now retryBackoff UpdateStatus defaultConfig key args w = Ret (r, w') ∧
    let results := expected_batch ppr1 config args in
    PoolAdapter.executeOn requiresPodName defaultConfig (Now w) ppr args = Ret (ppr2, results) ∧
    let answered := ∃ f, r = RetryBatch.ExecuteResultSuccess f ∧
      (∀ i result, results !! i = Some result → f i = Ret result) ∧ length results = length args in
    if decide (ppr = ppr2) then w' = w ∧ answered
    else w' = (UpdateStatus (Informer.SourceName key) ppr2 w).2 ∧
      match (UpdateStatus (Informer.SourceName key) ppr2 w).1 with
      | None => answered
      | Some err =>
          if IsConflict err then r = RetryBatch.ExecuteResultNeedRetry (retryBackoff w')
          else r = RetryBatch.ExecuteResultErr (Some (TagWrapf "BatchUpdatePprStatus" (Some err)
            "unable to update PodProtector status"))
      end.
Proof.
  intros config Hget Hthr Hok.
  destruct (executeOn_eq requiresPodName defaultConfig (Now w) ppr args Hthr Hok)
    as (ppr1 & cells & ppr2 & H1 & _ & _ & _ & _ & Hex & _).
  fold config in H1, Hex. unfold PoolAdapter.tryExecute. rewrite Hget. simpl. rewrite Hex. simpl.
  assert (Hans : ∃ f, RetryBatch.ExecuteResultSuccess (PoolAdapter.resultAt (expected_batch ppr1 config args)) =
      RetryBatch.ExecuteResultSuccess f ∧
      (∀ i result, expected_batch ppr1 config args !! i = Some result → f i = Ret result) ∧
      length (expected_batch ppr1 config args) = length args).
  { eexists. split; [done|]. split; [|apply length_expected_batch].
    intros i result Hi. unfold PoolAdapter.resultAt. by rewrite Hi. }
  exists ppr1, ppr2. case_bool_decide as Heq.
  - eexists _, w. split; [done|]. split; [done|]. split; [done|]. by rewrite decide_True.
  - destruct (UpdateStatus (Informer.SourceName key) ppr2 w) as [err w'] eqn:Hu.
    eexists _, w'. split; [done|]. split; [done|]. split; [done|]. rewrite decide_False by done. split; [done|].
    simpl. destruct err as [err|]; [|done]. by destruct (IsConflict err).
Qed.

(** What a batch is executed on in the examples: a PodProtector with one cell of five
    available pods, one of which was admitted already, that must keep three. *)
Definition example_item (uid : string) : PoolAdapter.BatchItem := {|
  PoolAdapter.CellId := "cell"; PoolAdapter.PodUid := uid; PoolAdapter.PodName := uid;
  PoolAdapter.PodStatus := example_pod true |}.
Definition example_batch_ppr : PodProtector := example_ppr 3%Z [example_cell 5%Z [example_bucket 10%Z "a"]].

Lemma example_batch_ok : cells_ok (Cells (Status example_batch_ppr)).
Proof. intros c ->%list_elem_of_singleton. repeat constructor. eexists. reflexivity. Qed.

Definition example_batch : list PoolAdapter.BatchItem := [example_item "a"; example_item "b"; example_item "c"].
Definition example_key : Informer.PodProtectorKey := {| Informer.SourceName := ""; Informer.NsName :=
  {| Namespaced.Namespace := "ns"; Namespaced.Name := "ppr" |} |}.
Definition never : RequiresPodName.RequiresPodName := RequiresPodName.ConstantRequiresPodName false.

(** The first pod is a duplicate, and the last one alone may be admitted: the status is
    written. *)
Lemma tryExecute_correct_witness :
  ∃ f, PoolAdapter.tryExecute never (λ _ _, Ret (Some example_batch_ppr, None)) (λ _, 20%Z) (λ _, 100%Z)
      (λ _ _ w, (None, S w)) DefaultConfig.default_options example_key example_batch 0 =
    Ret (RetryBatch.ExecuteResultSuccess f, 1) ∧
    f 0 = Ret BatchItem.ResultAlreadyHasBucket ∧ f 1 = Ret BatchItem.ResultNeedRetry ∧
    f 2 = Ret BatchItem.ResultNewDisruption.
Proof.
  edestruct (tryExecute_correct never (λ _ _, Ret (Some example_batch_ppr, None)) (λ _, 20%Z) (λ _, 100%Z)
    (λ _ _ w, (None, S w)) DefaultConfig.default_options example_key example_batch 0 example_batch_ppr)
    as (ppr1 & ppr2 & r & w' & H1 & -> & H2 & H3); [reflexivity|vm_compute; congruence|apply example_batch_ok|].
  vm_compute in H1. injection H1 as <-. vm_compute in H2. injection H2 as <-.
  rewrite decide_False in H3 by (vm_compute; congruence). destruct H3 as [-> (f & -> & Hf & _)].
  exists f. split; [reflexivity|]. split; [|split]; apply Hf; vm_compute; reflexivity.
Defined.

(** No admission is lost. In the status that is written, before its final compaction, every
    pod whose deletion was admitted has a bucket of the time of the batch in the history of
    its cell, under its name where the name is required, and every bucket that was there
    is kept, its start time aside. *)
Theorem executeOn_records_admissions `{!GoRuntime} (requiresPodName : RequiresPodName.RequiresPodName)
    (defaultConfig : DefaultConfig.Options) (t : Time) (ppr : PodProtector) (args : list PoolAdapter.BatchItem) :
  let config := DefaultConfig.Compute defaultConfig (Some (HistoryConfig (Spec ppr))) in
  (1 ≤ DefaultConfig.CompactThreshold config)%Z → cells_ok (Cells (Status ppr)) →
  ∃ ppr1 ppr2 results cells, PprUtil.Summarize config ppr = Ret ppr1 ∧
    PoolAdapter.executeOn requiresPodName defaultConfig t ppr args = Ret (ppr2, results) ∧
    PprUtil.Summarize config (with_Cells ppr1 cells) = Ret ppr2 ∧
    (∀ i arg r, args !! i = Some arg → results !! i = Some r → admitted r = true →
      ∃ b, in_history cells (PoolAdapter.CellId arg) b ∧ PodUid b = Some (PoolAdapter.PodUid arg) ∧
        StartTime b = t ∧ PodName b = if requiresPodName {| RequiresPodName.CellId := PoolAdapter.CellId arg;
          RequiresPodName.PodName := PoolAdapter.PodName arg |} then PoolAdapter.PodName arg else "") ∧
    (∀ id b, in_history (Cells (Status ppr1)) id b → ∃ b', same_bucket b b' ∧ in_history cells id b').
Proof.
  intros config Hthr Hok.
  destruct (executeOn_eq requiresPodName defaultConfig t ppr args Hthr Hok)
    as (ppr1 & cells & ppr2 & H1 & _ & _ & _ & Hs & Hex & H2 & _).
  do 4 eexists. split; [exact H1|]. split; [exact Hex|]. split; [exact H2|]. split.
  - intros i arg r Harg Hr Ha.
    destruct (recorded_has requiresPodName t _ cells args 0 _ i arg r Harg Hr Ha) as [j Hj]. eauto.
  - intros id b Hb. destruct (in_history_same _ _ id b Hs Hb) as (b' & Hb' & Hin). exists b'.
    split; [done|]. by apply recorded_keeps.
Qed.

Lemma executeOn_records_admissions_witness :
  ∃ ppr1 ppr2 results cells,
    PprUtil.Summarize example_config example_batch_ppr = Ret ppr1 ∧
    PoolAdapter.executeOn never DefaultConfig.default_options 20%Z example_batch_ppr example_batch =
      Ret (ppr2, results) ∧ PprUtil.Summarize example_config (with_Cells ppr1 cells) = Ret ppr2 ∧
    ∃ b, in_history cells "cell" b ∧ PodUid b = Some "c" ∧ StartTime b = 20%Z.
Proof.
  destruct (executeOn_records_admissions never DefaultConfig.default_options 20%Z example_batch_ppr example_batch)
    as (ppr1 & ppr2 & results & cells & H1 & H2 & H3 & H4 & _); [vm_compute; congruence|apply example_batch_ok|].
  exists ppr1, ppr2, results, cells. split; [exact H1|]. split; [exact H2|]. split; [exact H3|].
  vm_compute in H2. injection H2 as <- <-.
  destruct (H4 2 (example_item "c") BatchItem.ResultNewDisruption) as (b & ? & ? & ? & _); try reflexivity.
  by exists b.
Defined.

(** What the quota leaves, for pods that are judged by availability. *)
Lemma executeOn_quota `{!GoRuntime} (requiresPodName : RequiresPodName.RequiresPodName)
    (defaultConfig : DefaultConfig.Options) (t : Time) (ppr : PodProtector) (args : list PoolAdapter.BatchItem) :
  let config := DefaultConfig.Compute defaultConfig (Some (HistoryConfig (Spec ppr))) in
  let available := sum_by (AvailableReplicas ∘ Aggregation) (Cells (Status ppr)) in
  let lag := cells_count (Cells (Status ppr)) in
  let min := MinAvailable (Spec ppr) in
  let k := Z.to_nat (DefaultConfig.CompactThreshold config) in
  (1 ≤ DefaultConfig.CompactThreshold config)%Z → cells_ok (Cells (Status ppr)) →
  length args ≤ k → histories_fit (k - length args) (Cells (Status ppr)) →
  Forall (λ arg, same_criterion HealthCriterion.Available (PoolAdapter.PodStatus arg)) args →
  (0 ≤ min ∧ 0 ≤ lag ∧ min + lag ≤ MaxInt32)%Z →
  in_int32 available → in_int32 (available - lag - Z.of_nat (length args)) →
  ∃ ppr2 results, PoolAdapter.executeOn requiresPodName defaultConfig t ppr args = Ret (ppr2, results) ∧
    AggregatedAvailable (Summary (Status ppr2)) = available ∧
    EstimatedAvailable (Summary (Status ppr2)) = (available - lag - count_admitted results)%Z ∧
    (0 < count_result BatchItem.ResultNewDisruption results →
      min ≤ available - lag - count_result BatchItem.ResultNewDisruption results)%Z.
Proof.
  intros config available lag min k Hthr Hok Hlen Hfit Hall Hmin Hav Hint.
  destruct (executeOn_eq requiresPodName defaultConfig t ppr args Hthr Hok)
    as (ppr1 & cells & ppr2 & H1 & Hc1 & Hsum1 & Hspec & Hs & Hex & H2 & Hok2 & Hc2 & Hsum2).
  fold config in H1, Hc1, Hex, H2, Hok2, Hc2, Hsum2.
  assert (Hfit0 : histories_fit k (Cells (Status ppr))).
  { eapply Forall_impl; [exact Hfit|]. simpl. lia. }
  destruct (compacted_cells_facts config _ _ Hthr Hok Hc1) as (Hok1 & Hf1 & Hcount1).
  destruct (Hcount1 Hfit0) as [Hlag1 Hm1].
  destruct (same_cells_facts _ _ Hs) as (_ & Hlag2 & Hf2 & Hm2).
  set (dup := has_bucket (Cells (Status ppr1))) in *.
  set (rs := DisruptionQuota.AdmitBatch ppr1 (fresh_statuses dup args) config).
  assert (Hrs : length rs = length (fresh_statuses dup args)) by apply length_admitLoop.
  destruct (sum_recorded requiresPodName t dup cells args AvailableReplicas 0 rs eq_refl Hrs) as [Hf3 Hlag3].
  pose proof (recorded_fit requiresPodName t dup cells args 0 rs _ (Hm2 _ (Hm1 _ Hfit))) as Hfit3.
  rewrite Nat.sub_add in Hfit3 by done.
  destruct (compacted_cells_facts config _ _ Hthr Hok2 Hc2) as (_ & _ & Hcount2).
  destruct (Hcount2 Hfit3) as [Hlag4 _].
  set (results := expected_batch ppr1 config args) in *.
  assert (Hadm : (0 ≤ count_admitted results ≤ Z.of_nat (length args))%Z).
  { rewrite <- (length_expected_batch ppr1 config args). unfold count_admitted. fold results.
    pose proof (length_filter (λ r, admitted r = true) results). lia. }
  assert (Hagg1 : AggregatedAvailable (Summary (Status ppr1)) = available).
  { rewrite Hsum1. simpl. by apply wrap32_id. }
  assert (Hest1 : EstimatedAvailable (Summary (Status ppr1)) = (available - lag)%Z).
  { rewrite Hsum1. simpl. rewrite Hlag1. apply wrap32_id. unfold in_int32 in *. fold available lag. lia. }
  exists ppr2, results. split; [exact Hex|]. rewrite Hsum2. simpl.
  change (expected_cells requiresPodName t ppr1 config args cells)
    with (recorded requiresPodName t (others dup 0 args) rs cells) in Hlag4 |- *.
  rewrite Hlag4, Hlag3, Hf3, Hlag2, Hf2, Hlag1, Hf1. fold available lag dup rs.
  change (batch_results dup args rs) with results.
  split; [by apply wrap32_id|].
  replace (available - (lag + count_admitted results))%Z with (available - lag - count_admitted results)%Z by lia.
  assert (He : wrap32 (available - lag - count_admitted results) = (available - lag - count_admitted results)%Z).
  { apply wrap32_id. unfold in_int32 in *. lia. }
  rewrite He. split; [done|].
  assert (Hnew : count_result BatchItem.ResultNewDisruption results = count_ok rs)
    by exact (count_new_batch dup args rs Hrs).
  rewrite Hnew.
  intros Hpos. enough (count_ok rs ≤ Z.max 0 (available - (min + lag)))%Z by lia.
  assert (Hl1 : (AggregatedAvailable (Summary (Status ppr1)) - EstimatedAvailable (Summary (Status ppr1)) = lag)%Z)
    by (rewrite Hagg1, Hest1; lia).
  destruct (decide (DisruptionQuota.Remaining (DisruptionQuota.Threshold (DisruptionQuota.MakeState ppr1 config)) = Some 0%Z)) as [Hex0|Hne0].
  { destruct (admitLoop_exhausted _ (fresh_statuses dup args) Hex0) as [_ Hnone]. fold (DisruptionQuota.AdmitBatch ppr1 (fresh_statuses dup args) config) in Hnone.
    fold rs in Hnone. lia. }
  destruct (AdmitBatch_spec ppr1 config HealthCriterion.Available (fresh_statuses dup args)) as [_ Hok3].
  - apply Forall_fmap, Forall_forall. intros arg [_ Harg]%list_elem_of_filter.
    rewrite Forall_forall in Hall. by apply Hall.
  - done.
  - rewrite Hl1, Hspec. done.
  - simpl. by rewrite Hagg1.
  - rewrite Hl1, Hspec in Hok3. simpl in Hok3. rewrite Hagg1 in Hok3. fold rs min in Hok3. lia.
Qed.

(** C4. Admissions reserve availability. For pods that are judged by availability, while
    every history has room for the batch, the written summary
    estimates exactly one pod less for every admitted item; new disruptions are only
    admitted while more than [MinAvailable] pods are left, so the disruptions of available
    pods never take the estimate below [MinAvailable]. *)
Theorem executeOn_reserves `{!GoRuntime} (requiresPodName : RequiresPodName.RequiresPodName)
    (defaultConfig : DefaultConfig.Options) (t : Time) (ppr : PodProtector) (args : list PoolAdapter.BatchItem) :
  let config := DefaultConfig.Compute defaultConfig (Some (HistoryConfig (Spec ppr))) in
  let available := sum_by (AvailableReplicas ∘ Aggregation) (Cells (Status ppr)) in
  let lag := cells_count (Cells (Status ppr)) in
  let min := MinAvailable (Spec ppr) in
  let k := Z.to_nat (DefaultConfig.CompactThreshold config) in
  (1 ≤ DefaultConfig.CompactThreshold config)%Z → cells_ok (Cells (Status ppr)) →
  length args ≤ k → histories_fit (k - length args) (Cells (Status ppr)) →
  Forall (λ arg, same_criterion HealthCriterion.Available (PoolAdapter.PodStatus arg)) args →
  (0 ≤ min ∧ 0 ≤ lag ∧ min + lag ≤ MaxInt32)%Z →
  in_int32 available → in_int32 (available - lag - Z.of_nat (length args)) →
  ∃ ppr2 results, PoolAdapter.executeOn requiresPodName defaultConfig t ppr args = Ret (ppr2, results) ∧
    AggregatedAvailable (Summary (Status ppr2)) = available ∧
    EstimatedAvailable (Summary (Status ppr2)) = (available - lag - count_admitted results)%Z ∧
    (0 < count_result BatchItem.ResultNewDisruption results →
      min ≤ EstimatedAvailable (Summary (Status ppr2)) +
        count_result BatchItem.ResultAlreadyUnhealthy results)%Z.
Proof.
  intros config available lag min k Hthr Hok Hlen Hfit Hall Hmin Hav Hint.
  destruct (executeOn_quota requiresPodName defaultConfig t ppr args Hthr Hok Hlen Hfit Hall Hmin Hav Hint)
    as (ppr2 & results & Hex & Ha & He & Hq).
  exists ppr2, results. split; [exact Hex|]. split; [exact Ha|]. split; [exact He|].
  intros Hpos. specialize (Hq Hpos). rewrite He, count_admitted_split. subst available lag min. lia.
Qed.

Lemma executeOn_reserves_witness :
  ∃ ppr2 results, PoolAdapter.executeOn never DefaultConfig.default_options 20%Z example_batch_ppr example_batch =
      Ret (ppr2, results) ∧ count_admitted results = 1%Z ∧
    EstimatedAvailable (Summary (Status ppr2)) = (5 - 1 - count_admitted results)%Z ∧
    (3 ≤ EstimatedAvailable (Summary (Status ppr2)))%Z.
Proof.
  destruct (executeOn_reserves never DefaultConfig.default_options 20%Z example_batch_ppr example_batch)
    as (ppr2 & results & H1 & _ & H2 & H3); try (vm_compute; repeat split; congruence).
  - apply example_batch_ok.
  - apply Nat.leb_le. vm_compute. reflexivity.
  - repeat constructor.
  - repeat constructor.
  - exists ppr2, results. split; [exact H1|]. vm_compute in H1. injection H1 as <- <-.
    split; [reflexivity|]. split; [exact H2|]. specialize (H3 eq_refl). exact H3.
Defined.
