(* ===== verification/Handler.v ===== *)
(** * Handler: the admission review of a pod deletion

    [Module Interpreter] is webhook/handler/interpreter.go, [Module Handler] is
    webhook/handler/handler.go and [Module Server] is the HTTP handler of
    webhook/server/server.go. JSON decoding, the client of the cell, the pool and the clocks
    are parameters; the pool acts on a world of any type. *)

From S2P Require Import Prelude Util Errors Iter Canonical SetTrie LabelIndex Api PprUtil Quota RetryBatch Informer PoolAdapter.

Module Interpreter.

Inductive Operation : Type := Create | Update | Delete | Connect.
#[global] Instance Operation_eq_dec : EqDecision Operation.
Proof. solve_decision. Defined.

(** [metav1.GroupVersionResource]. *)
Record GroupVersionResource : Type := { Group : string; Version : string; Resource : string }.
#[global] Instance GroupVersionResource_eq_dec : EqDecision GroupVersionResource.
Proof. solve_decision. Defined.

(** [admissionv1.AdmissionRequest]; [OldObject] and [Object] are their raw JSON. *)
Record AdmissionRequest : Type := {
  reqUID : string;
  reqOperation : Operation;
  reqResource : GroupVersionResource;
  SubResource : string;
  reqNamespace : string;
  reqName : string;
  OldObject : string;
  Object : string
}.

(** [policyv1.Eviction], by its annotations. *)
Record Eviction : Type := { evictionAnnotations : gmap string string }.

(** The implementations of [InterpretedRequest]. *)
Inductive InterpretedRequest : Type :=
| interpretedPodRequest (pod : PodObject)
| interpretedEvictionRequest (subjectPod : PodObject) (eviction : Eviction).

Definition subject (req : InterpretedRequest) : PodObject :=
  match req with interpretedPodRequest pod | interpretedEvictionRequest pod _ => pod end.

Definition RequestType (req : InterpretedRequest) : string :=
  match req with
  | interpretedPodRequest _ => "DeletePod"
  | interpretedEvictionRequest _ _ => "EvictPod"
  end.

Definition PrefersDryRun (req : InterpretedRequest) : bool :=
  bool_decide (is_Some (Annotations (podMeta (subject req)) !! PodAnnotationForceDelete)).

Definition IsAlreadyTerminating (req : InterpretedRequest) : bool :=
  negb (IsZeroPtr (DeletionTimestamp (podMeta (subject req)))).

Definition DurationSinceReady (now : Time) (req : InterpretedRequest) : option Duration :=
  let conditions := Conditions (subject req) in
  let readyConditionIndex := Slices.FindInSliceWith conditions
    (λ condition, bool_decide (ConditionType condition = PodReady)) in
  if negb (readyConditionIndex =? -1)%Z then
    match conditions !! Z.to_nat readyConditionIndex with
    | Some condition =>
        if bool_decide (ConditionStat condition = ConditionTrue)
        then Some (time_Sub now (LastTransitionTime condition)) else None
    | None => None
    end
  else None.

Definition GetMetadata (req : InterpretedRequest) : ObjectMeta := podMeta (subject req).

Definition GetAnnotation (req : InterpretedRequest) (key : string) : option string :=
  match req with
  | interpretedPodRequest pod => Optional.GetMap (Annotations (podMeta pod)) key
  | interpretedEvictionRequest subjectPod eviction =>
      match evictionAnnotations eviction !! key with
      | Some value => Some value
      | None =>
          match Annotations (podMeta subjectPod) !! key with
          | Some value => Some value
          | None => None
          end
      end
  end.

(** [clock.RealClock] reads [now]. *)
Definition GetPodStatus (now : Time) (req : InterpretedRequest) (minReadySeconds : Z) : outcome Pod.PodStatus :=
  '(status, _) ← Pod.GetPodStatus now (subject req) minReadySeconds None;
  Ret status.

Section interpret.
(** [json.Unmarshal] into a pointer: JSON null leaves it nil. *)
Variables (UnmarshalPod : string → option PodObject + error) (UnmarshalEviction : string → option Eviction + error).
(** [api.cellClients.Provide(cellId)] and the [Get] of its pods. *)
Variable podClientGetter : (string → string → PodObject + error) + error.

Definition interpretPodRequest (req : AdmissionRequest) : option InterpretedRequest * option error :=
  if (String.length (OldObject req) =? 0)%nat
  then (None, Some (TagErrorf "EmptyOldObject" "oldObject is missing in delete review request"))
  else
    match UnmarshalPod (OldObject req) with
    | inr err => (None, Some (TagWrapf "OldObjectJsonError" (Some err) "cannot unmarshal oldObject as a *corev1.Pod"))
    | inl None => (None, Some (TagErrorf "NilOldObject" "oldObject is nil"))
    | inl (Some subject) => (Some (interpretedPodRequest subject), None)
    end.

Definition interpretEvictionRequest (req : AdmissionRequest) : option InterpretedRequest * option error :=
  match podClientGetter with
  | inr err => (None, Some (TagWrapf "GetClientForEvictedPod" (Some err) "get subject pod of eviction from apiserver"))
  | inl podClient =>
      match podClient (reqNamespace req) (reqName req) with
      | inr err => (None, Some (TagWrapf "GetEvictedPod" (Some err) "get subject pod of eviction from apiserver"))
      | inl fetchedPod =>
          if (String.length (Object req) =? 0)%nat
          then (None, Some (TagErrorf "EmptyObject" "object is missing in eviction review request"))
          else
            match UnmarshalEviction (Object req) with
            | inr err => (None, Some (TagWrapf "ObjectJsonError" (Some err) "cannot unmarshal object as a *policyv1.Eviction"))
            | inl None => (None, Some (TagErrorf "NilObject" "object is nil"))
            | inl (Some eviction) => (Some (interpretedEvictionRequest fetchedPod eviction), None)
            end
      end
  end.

Definition podGvr : GroupVersionResource := {| Group := ""; Version := "v1"; Resource := "pods" |}.

(** A nil request, or one that is not relevant, is interpreted as nil. *)
Definition interpretRequest (req : option AdmissionRequest) : option InterpretedRequest * option error :=
  match req with
  | None => (None, None)
  | Some req =>
      if bool_decide (reqOperation req = Delete) && bool_decide (reqResource req = podGvr) &&
         bool_decide (SubResource req = "")
      then interpretPodRequest req
      else if bool_decide (reqOperation req = Create) && bool_decide (reqResource req = podGvr) &&
         bool_decide (SubResource req = "eviction")
      then interpretEvictionRequest req
      else (None, None)
  end.

End interpret.

End Interpreter.

Module Handler.
Import Interpreter.

Inductive RequestStatus : Type :=
| RequestStatusUnmatched | RequestStatusNotRelevant | RequestStatusAlreadyTerminating
| RequestStatusAlreadyAdmitted | RequestStatusAlreadyUnready | RequestStatusStillUnavailable
| RequestStatusAlreadyUnhealthy | RequestStatusAdmittedAll | RequestStatusRetryAdvised
| RequestStatusRejected | RequestStatusError | RequestStatusNotFound.
#[global] Instance RequestStatus_eq_dec : EqDecision RequestStatus.
Proof. solve_decision. Defined.

Record Rejection : Type := { Code : Z; Message : string }.

(** [Code] and [Message] of a [metav1.Status]. *)
Definition ToStatus (rejection : Rejection) : Z * string := (Code rejection, Message rejection).

Record HandleResult : Type := {
  status : RequestStatus;
  rejection : option Rejection;
  Err : option error
}.

Definition errHandleResult (err : error) : HandleResult * bool :=
  ({| status := RequestStatusError; rejection := None; Err := Some err |}, false).

Definition accept (s : RequestStatus) : HandleResult := {| status := s; rejection := None; Err := None |}.
Definition reject (s : RequestStatus) (code : Z) (message : string) : HandleResult :=
  {| status := s; rejection := Some {| Code := code; Message := message |}; Err := None |}.

(** The key and value flags of the three criteria, as parsed. *)
Record HealthCriterionAnnotations : Type := {
  annotScheduled : string * string;
  annotRunning : string * string;
  annotReady : string * string
}.

(** The defaults of the flags. *)
Definition NewCritAnnots : HealthCriterionAnnotations := {|
  annotScheduled := (EvictionAnnotationHealthCriterion, HealthCriterionScheduled);
  annotRunning := (EvictionAnnotationHealthCriterion, HealthCriterionRunning);
  annotReady := (EvictionAnnotationHealthCriterion, HealthCriterionReady)
|}.

Definition GetCriterion (annots : HealthCriterionAnnotations) (intrp : InterpretedRequest) : HealthCriterion.Criterion :=
  if bool_decide (GetAnnotation intrp (annotScheduled annots).1 = Some (annotScheduled annots).2)
  then HealthCriterion.Scheduled
  else if bool_decide (GetAnnotation intrp (annotRunning annots).1 = Some (annotRunning annots).2)
  then HealthCriterion.Running
  else if bool_decide (GetAnnotation intrp (annotReady annots).1 = Some (annotReady annots).2)
  then HealthCriterion.Ready
  else HealthCriterion.Available.

(** [rand.Int63n] is given the bound and panics unless it is positive; it draws from a generator that each call moves on. *)
Definition jitterDuration {R : Type} (Int63n : Z → R → Z * R) (base jitter : Duration) (rng : R) : outcome (Duration * R) :=
  if (jitter <=? 0)%Z then Panic "invalid argument to Int63n"
  else let '(drawn, rng) := Int63n jitter rng in Ret (wrap64 (base + drawn), rng).

(** The backoff that [New] gives to the pool adapter. *)
Definition retryBackoff {R : Type} (Int63n : Z → R → Z * R) (RetryBackoffBase RetryJitter : Duration) (rng : R) : outcome (Duration * R) :=
  jitterDuration Int63n RetryBackoffBase (wrap64 (RetryBackoffBase + RetryJitter)) rng.

(** [strings.ToLower] on ASCII. *)
Definition lower_ascii (c : Ascii.ascii) : Ascii.ascii :=
  let n := Ascii.nat_of_ascii c in
  if (65 <=? n) && (n <=? 90) then Ascii.ascii_of_nat (n + 32) else c.
Fixpoint ToLower (s : string) : string :=
  match s with
  | EmptyString => EmptyString
  | String c s => String (lower_ascii c) (ToLower s)
  end.

(** [errors.As] for a [*apierrors.StatusError]: the first API status of the tree. *)
Fixpoint AsStatus (err : error) : option string :=
  match err with
  | taggedError _ err | wrapError _ err => AsStatus err
  | joinError errs =>
      (fix first (errs : list error) : option string :=
         match errs with
         | [] => None
         | err :: errs => match AsStatus err with Some m => Some m | None => first errs end
         end) errs
  | apiStatus _ message => Some message
  | _ => None
  end.

(** The verb [%q], on printable ASCII. *)
Definition quote_mark : string := String (Ascii.ascii_of_nat 34) "".
Fixpoint escape (s : string) : string :=
  match s with
  | EmptyString => EmptyString
  | String c s =>
      if (Ascii.nat_of_ascii c =? 34)%nat || (Ascii.nat_of_ascii c =? 92)%nat
      then String (Ascii.ascii_of_nat 92) (String c (escape s)) else String c (escape s)
  end.
Definition quote (s : string) : string := quote_mark +:+ escape s +:+ quote_mark.

Section handler.
Context `{!GoRuntime, !KubeErrors} {W : Type}.
Variables (UnmarshalPod : string → option PodObject + error) (UnmarshalEviction : string → option Eviction + error)
  (Provide : string → (string → string → PodObject + error) + error).
(** [api.clk] and [clock.RealClock]. *)
Variables (clkNow realNow : W → Time).
Variables (informerHasSynced : W → bool)
  (Query : string → gmap string string → W → outcome (list Informer.PodProtectorKey))
  (pprInformer_Get : Informer.PodProtectorKey → W → outcome (option PodProtector * option error))
  (Submit : Informer.PodProtectorKey → PoolAdapter.BatchItem → W →
    outcome (BatchItem.Result * option error * W)).
Variable critAnnots : HealthCriterionAnnotations.

Definition requestName (pprRef : Informer.PodProtectorKey) : string :=
  Namespaced.Namespace (Informer.NsName pprRef) +:+ "/" +:+ Namespaced.Name (Informer.NsName pprRef).

Definition resultStatus (pprRef : Informer.PodProtectorKey) (criterion : HealthCriterion.Criterion)
    (result : BatchItem.Result) : outcome HandleResult :=
  match result with
  | BatchItem.ResultNewDisruption => Ret (accept RequestStatusAdmittedAll)
  | BatchItem.ResultNoPpr => Ret (accept RequestStatusNotRelevant)
  | BatchItem.ResultAlreadyUnhealthy => Ret (accept RequestStatusAlreadyUnhealthy)
  | BatchItem.ResultAlreadyHasBucket => Ret (accept RequestStatusAlreadyAdmitted)
  | BatchItem.ResultNeedRetry =>
      Ret (reject RequestStatusRetryAdvised 409 ("PodProtector " +:+ requestName pprRef +:+
        " has full admission buffer and is temporarily unable to admit pod deletion"))
  | BatchItem.ResultRejected =>
      Ret (reject RequestStatusRejected 429 ("PodProtector " +:+ requestName pprRef +:+ " reports too few " +:+
        ToLower (HealthCriterion.String criterion) +:+ " replicas to admit pod deletion"))
  | BatchItem.ResultUnknown => Panic "invalid batchitem.Result value"
  end.

Definition determineRejection (pprRef : Informer.PodProtectorKey) (podReadyTime : Duration)
    (intrp : InterpretedRequest) (pod : ObjectMeta) (cellId : string) (w : W) : outcome (HandleResult * W) :=
  '(ppr, err) ← pprInformer_Get pprRef w;
  match err, ppr with
  | Some err, _ =>
      Ret ({| status := RequestStatusError;
              rejection := Some {| Code := 500; Message := "Cannot fetch ppr from informer store: " +:+ Error err |};
              Err := Some (TagWrapf "GetPprFromInformer" (Some err)
                "cannot fetch PodProtector from informer store") |}, w)
  | None, None => Panic "invalid memory address or nil pointer dereference"
  | None, Some ppr =>
      let minReadySeconds := MinReadySeconds (Spec ppr) in
      if (podReadyTime <? wrap64 (minReadySeconds * Second))%Z
      then Ret (accept RequestStatusStillUnavailable, w)
      else
        let criterion := GetCriterion critAnnots intrp in
        podStatus ← GetPodStatus (realNow w) intrp minReadySeconds;
        '(result, err, w) ← Submit pprRef {|
          PoolAdapter.CellId := cellId;
          PoolAdapter.PodUid := UID pod;
          PoolAdapter.PodName := Name pod;
          PoolAdapter.PodStatus := {| DisruptionQuota.HealthCriterion_ := criterion;
                                      DisruptionQuota.Status := podStatus |}
        |} w;
        match err with
        | Some err =>
            Ret ({| status := RequestStatusError;
                    rejection := Some {| Code := 500;
                      Message := "Cannot reserve PodProtector admission: " +:+ Error err |};
                    Err := Some (TagWrapf "ReserveAdmission" (Some err) "cannot reserve PodProtector admission") |}, w)
        | None =>
            res ← resultStatus pprRef criterion result;
            Ret (res, w)
        end
  end.

(** The observers report only; the last component is [_canContinue]. *)
Definition handlePodInPpr (pprRef : Informer.PodProtectorKey) (intrp : InterpretedRequest)
    (podReadyTime : Duration) (cellId : string) (w : W) : outcome (HandleResult * bool * W) :=
  let pod := GetMetadata intrp in
  '(result, w) ← determineRejection pprRef podReadyTime intrp pod cellId w;
  Ret (result, Optional.IsNone (Err result) && negb (Optional.IsSome (rejection result)), w).

(** The loop of [Handle]: the number of PodProtectors that admitted, or the first one that
    did not with its result. *)
Fixpoint handleAll (pprRefs : list Informer.PodProtectorKey) (intrp : InterpretedRequest)
    (podReadyTime : Duration) (cellId : string) (admitted : nat) (w : W) :
    outcome ((nat + Informer.PodProtectorKey * HandleResult) * W) :=
  match pprRefs with
  | [] => Ret (inl admitted, w)
  | pprRef :: pprRefs =>
      '(result, canContinue, w) ← handlePodInPpr pprRef intrp podReadyTime cellId w;
      if canContinue : bool then handleAll pprRefs intrp podReadyTime cellId (S admitted) w
      else Ret (inr (pprRef, result), w)
  end.

(** [Handle]: the result, [preferDryRun], the audit annotations and the world. *)
Definition Handle (req : option AdmissionRequest) (cellId : string) (auditAnnotations : gmap string string) (w : W) :
    outcome (HandleResult * bool * gmap string string * W) :=
  let podClientGetter :=
    match Provide cellId with
    | inr err => inr (TagWrapf "GetCellClient" (Some err) ("cannot retrieve cluster client for cell " +:+ quote cellId))
    | inl client => inl client
    end in
  match interpretRequest UnmarshalPod UnmarshalEviction podClientGetter req with
  | (_, Some err) =>
      if IsNotFound err then
        let message := match AsStatus err with Some message => message | None => Error err end in
        Ret (reject RequestStatusNotFound 404 message, false, auditAnnotations, w)
      else Ret (errHandleResult err, auditAnnotations, w)
  | (None, None) =>
      Ret (reject RequestStatusNotRelevant 500
        "Unexpected review subject; only pod deletions and evictions are handled by this webhook",
        false, auditAnnotations, w)
  | (Some intrp, None) =>
      let preferDryRun := PrefersDryRun intrp in
      if IsAlreadyTerminating intrp then
        Ret (accept RequestStatusAlreadyTerminating, preferDryRun, auditAnnotations, w)
      else
        match DurationSinceReady (clkNow w) intrp with
        | None => Ret (accept RequestStatusAlreadyUnready, preferDryRun, auditAnnotations, w)
        | Some podReadyTime =>
            if negb (informerHasSynced w) then
              Ret (errHandleResult (TagErrorf "InformerNotSynced" "PodProtector informer is not synced yet"),
                auditAnnotations, w)
            else
              pprRefs ← Query (Namespace (GetMetadata intrp)) (Labels (GetMetadata intrp)) w;
              '(res, w) ← handleAll pprRefs intrp podReadyTime cellId 0 w;
              match res with
              | inr (pprRef, result) =>
                  Ret (result, preferDryRun,
                    <[AuditAnnotationRejectByPpr := Namespaced.Name (Informer.NsName pprRef)]> auditAnnotations, w)
              | inl admitted =>
                  Ret (if (admitted =? 0)%nat then accept RequestStatusUnmatched
                       else accept RequestStatusAdmittedAll, preferDryRun, auditAnnotations, w)
              end
        end
  end.

End handler.

End Handler.

Module Server.
Import Interpreter Handler.

Record AdmissionResponse : Type := {
  UID : string;
  Allowed : bool;
  Result : option (Z * string);
  AuditAnnotations : gmap string string
}.

(** What is written to the [http.ResponseWriter]: text with a status code, or a review with
    status 200. *)
Inductive httpResponse : Type :=
| respText (code : Z) (text : string)
| respReview (response : AdmissionResponse).

Section server.
Context {W : Type}.
Variable handle : option AdmissionRequest → string → gmap string string → W →
  outcome (HandleResult * bool * gmap string string * W).
(** [json.Unmarshal] into an [AdmissionReview], by its [Request]. *)
Variable UnmarshalReview : string → option AdmissionRequest + error.
Variable optDryRun : bool.

Definition serve (cellId : string) (postBody : string + error) (w : W) : outcome (httpResponse * W) :=
  match postBody with
  | inr err => Ret (respText 400 "Cannot read POST body", w)
  | inl postBody =>
      match UnmarshalReview postBody with
      | inr err => Ret (respText 400 ("error parsing JSON body: " +:+ Error (taggedError "UnmarshalBody" err)), w)
      | inl request =>
          '(result, preferDryRun, auditAnnotations, w) ← handle request cellId ∅ w;
          let dryRun := optDryRun || preferDryRun in
          let uid := match request with
            | Some request => Ret (reqUID request)
            | None => Panic "invalid memory address or nil pointer dereference"
            end in
          let dryRunResponse :=
            uid ← uid;
            Ret (respReview {| UID := uid; Allowed := true; Result := None;
              AuditAnnotations := <[AuditAnnotationDryRun := "1"]> auditAnnotations |}, w) in
          match Err result with
          | Some err =>
              if negb dryRun
              then Ret (respText 500 ("server internal error: " +:+ Error (taggedError "Handle" err)), w)
              else dryRunResponse
          | None =>
              if negb dryRun
              then
                uid ← uid;
                Ret (respReview {| UID := uid; Allowed := negb (Optional.IsSome (rejection result));
                  Result := Optional.Map (rejection result) ToStatus;
                  AuditAnnotations := auditAnnotations |}, w)
              else dryRunResponse
          end
      end
  end.

End server.

End Server.

(** ** Lemmas *)
Section handler_lemmas.
Import Interpreter Handler.
Context {W : Type}.
Context (realNow : W → Time) (Get : Informer.PodProtectorKey → W → outcome (option PodProtector * option error))
  (Submit : Informer.PodProtectorKey → PoolAdapter.BatchItem → W → outcome (BatchItem.Result * option error * W))
  (critAnnots : HealthCriterionAnnotations).

(** The results of a batch that let a deletion pass. *)
Definition passes (r : BatchItem.Result) : bool :=
  match r with
  | BatchItem.ResultNewDisruption | BatchItem.ResultNoPpr | BatchItem.ResultAlreadyUnhealthy
  | BatchItem.ResultAlreadyHasBucket => true
  | _ => false
  end.

(** The item that is submitted for a pod. *)
Definition item_of (intrp : InterpretedRequest) (cellId : string) (podStatus : Pod.PodStatus) : PoolAdapter.BatchItem := {|
  PoolAdapter.CellId := cellId;
  PoolAdapter.PodUid := UID (GetMetadata intrp);
  PoolAdapter.PodName := Name (GetMetadata intrp);
  PoolAdapter.PodStatus := {| DisruptionQuota.HealthCriterion_ := GetCriterion critAnnots intrp;
                              DisruptionQuota.Status := podStatus |} |}.

(** One PodProtector grants the deletion: the pod is still unavailable for it, or its batch
    let the pod pass. *)
Inductive grants (intrp : InterpretedRequest) (ready : Duration) (cellId : string)
    (key : Informer.PodProtectorKey) : W → W → Prop :=
| grants_unavailable w ppr :
    Get key w = Ret (Some ppr, None) → (ready < wrap64 (MinReadySeconds (Spec ppr) * Second))%Z →
    grants intrp ready cellId key w w
| grants_admitted w w' ppr podStatus r :
    Get key w = Ret (Some ppr, None) →
    GetPodStatus (realNow w) intrp (MinReadySeconds (Spec ppr)) = Ret podStatus →
    Submit key (item_of intrp cellId podStatus) w = Ret (r, None, w') → passes r = true →
    grants intrp ready cellId key w w'.

(** All PodProtectors of a list grant it, one after the other. *)
Inductive all_grant (intrp : InterpretedRequest) (ready : Duration) (cellId : string) :
    list Informer.PodProtectorKey → W → W → Prop :=
| all_grant_nil w : all_grant intrp ready cellId [] w w
| all_grant_cons key keys w w1 w2 :
    grants intrp ready cellId key w w1 → all_grant intrp ready cellId keys w1 w2 →
    all_grant intrp ready cellId (key :: keys) w w2.

Definition refused (res : HandleResult) : Prop := Err res ≠ None ∨ rejection res ≠ None.

(** The verdict on one PodProtector. *)
Lemma determineRejection_grants key ready intrp cellId w res w' :
  determineRejection realNow Get Submit critAnnots key ready intrp (GetMetadata intrp) cellId w = Ret (res, w') →
  grants intrp ready cellId key w w' ∧ ¬ refused res ∨ refused res.
Proof.
  unfold determineRejection, refused. intros Hrun. apply outcome_bind_Ret in Hrun as ([ppr err] & Hget & Hrun).
  destruct err as [err|].
  { destruct ppr; inv_outcome; simplify_eq; right; by left. }
  destruct ppr as [ppr|]; [|done]. destruct (Z.ltb_spec ready (wrap64 (MinReadySeconds (Spec ppr) * Second))) as [Hlt|Hge].
  { inv_outcome. simplify_eq. left. split; [by eapply grants_unavailable|]. simpl. naive_solver. }
  apply outcome_bind_Ret in Hrun as (st & Hst & Hrun). apply outcome_bind_Ret in Hrun as ([[r err] w1] & Hsub & Hrun).
  destruct err as [err|]; [inv_outcome; simplify_eq; right; by left|].
  apply outcome_bind_Ret in Hrun as (res' & Hres & Hrun). injection Hrun as -> ->.
  destruct (passes r) eqn:Hr.
  - left. split; [by eapply grants_admitted|]. destruct r; simpl in *; inv_outcome; simpl; naive_solver.
  - right. destruct r; simpl in *; inv_outcome; simpl; naive_solver.
Qed.

Lemma handleAll_spec intrp ready cellId : ∀ keys n w res w',
  handleAll realNow Get Submit critAnnots keys intrp ready cellId n w = Ret (res, w') →
  match res with
  | inl m => m = n + length keys ∧ all_grant intrp ready cellId keys w w'
  | inr (key, r) => ∃ pre post w1, keys = pre ++ key :: post ∧ all_grant intrp ready cellId pre w w1 ∧
      determineRejection realNow Get Submit critAnnots key ready intrp (GetMetadata intrp) cellId w1 = Ret (r, w') ∧
      refused r
  end.
Proof.
  induction keys as [|key keys IH]; intros n w res w' Hrun; simpl in Hrun.
  { inv_outcome. simplify_eq. split; [simpl; lia|constructor]. }
  apply outcome_bind_Ret in Hrun as ([[r continue] w1] & Hk & Hrun).
  unfold handlePodInPpr in Hk. apply outcome_bind_Ret in Hk as ([r' w1'] & Hd & Hk). injection Hk as -> <- ->.
  destruct (determineRejection_grants _ _ _ _ _ _ _ Hd) as [[Hg Hr]|Hr].
  - assert (Optional.IsNone (Err r) && negb (Optional.IsSome (rejection r)) = true) as Hc.
    { unfold refused in Hr. destruct (Err r), (rejection r); simpl; try done; exfalso; apply Hr; naive_solver. }
    rewrite Hc in Hrun. apply IH in Hrun. destruct res as [m|[key' r']].
    + destruct Hrun as [-> Hrun]. split; [simpl; lia|]. by econstructor.
    + destruct Hrun as (pre & post & w2 & -> & Hpre & Hrun). exists (key :: pre), post, w2.
      split; [done|]. split; [by econstructor|done].
  - assert (Optional.IsNone (Err r) && negb (Optional.IsSome (rejection r)) = false) as Hc.
    { destruct Hr; destruct (Err r), (rejection r); done. }
    rewrite Hc in Hrun. inv_outcome. simplify_eq. exists [], keys, w. split; [done|]. split; [constructor|done].
Qed.

(** The request as [Handle] interprets it. *)
Definition interpret (UnmarshalPod : string → option PodObject + error)
    (UnmarshalEviction : string → option Eviction + error)
    (Provide : string → (string → string → PodObject + error) + error) (req : option AdmissionRequest) (cellId : string) : option InterpretedRequest * option error :=
  interpretRequest UnmarshalPod UnmarshalEviction
    match Provide cellId with
    | inr err => inr (TagWrapf "GetCellClient" (Some err) ("cannot retrieve cluster client for cell " +:+ quote cellId))
    | inl client => inl client
    end req.

End handler_lemmas.

(** ** Properties *)

(** C15. No deletion passes unaccounted for: when [Handle] returns neither a rejection nor an
    error, the request was interpreted as a deletion or an eviction of a pod that is
    terminating, or not ready, or that every PodProtector that the query found has granted
    in turn: it is still unavailable there, or its submission was answered with a result
    that lets it pass. *)
Theorem Handle_grants `{!KubeErrors} {W : Type} UnmarshalPod UnmarshalEviction Provide
    (clkNow realNow : W → Time) (hasSynced : W → bool)
    (Query : string → gmap string string → W → outcome (list Informer.PodProtectorKey)) Get Submit critAnnots
    (req : option Interpreter.AdmissionRequest) (cellId : string) (audit audit' : gmap string string)
    (w w' : W) (res : Handler.HandleResult) (dry : bool) :
  Handler.Handle UnmarshalPod UnmarshalEviction Provide clkNow realNow hasSynced Query Get Submit critAnnots
    req cellId audit w = Ret (res, dry, audit', w') →
  Handler.Err res = None → Handler.rejection res = None →
  ∃ intrp, interpret UnmarshalPod UnmarshalEviction Provide req cellId = (Some intrp, None) ∧ audit' = audit ∧
    (Interpreter.IsAlreadyTerminating intrp = true ∨ Interpreter.DurationSinceReady (clkNow w) intrp = None ∨
     ∃ ready keys, Interpreter.DurationSinceReady (clkNow w) intrp = Some ready ∧ hasSynced w = true ∧
       Query (Namespace (Interpreter.GetMetadata intrp)) (Labels (Interpreter.GetMetadata intrp)) w = Ret keys ∧
       all_grant realNow Get Submit critAnnots intrp ready cellId keys w w').
Proof.
  intros Hrun Herr Hrej. unfold Handler.Handle in Hrun. fold (interpret UnmarshalPod UnmarshalEviction Provide req cellId) in Hrun.
  destruct (interpret UnmarshalPod UnmarshalEviction Provide req cellId) as [o err].
  destruct err as [err|]; [destruct o, (IsNotFound err); by simplify_eq|].
  destruct o as [intrp|]; [|by simplify_eq]. exists intrp. split; [done|].
  destruct (Interpreter.IsAlreadyTerminating intrp); [simplify_eq; by auto|].
  destruct (Interpreter.DurationSinceReady (clkNow w) intrp) as [ready|]; [|simplify_eq; by auto].
  destruct (hasSynced w) eqn:Hsync; simpl in Hrun; [|by simplify_eq].
  apply outcome_bind_Ret in Hrun as (keys & Hq & Hrun). apply outcome_bind_Ret in Hrun as ([r w1] & Hall & Hrun).
  apply handleAll_spec in Hall. destruct r as [n|[key r]]; simplify_eq.
  - split; [done|]. right; right. exists ready, keys. destruct Hall as [_ Hall]. done.
  - destruct Hall as (_ & _ & _ & _ & _ & _ & [?|?]); done.
Qed.

(** A world that counts the submissions, and a pod that is ready since 5 s. *)
Definition example_ready_pod (annotations : gmap string string) : PodObject := {|
  podMeta := {| Name := "p"; Namespace := "ns"; UID := "u"; ResourceVersion := "1"; CreationTimestamp := 0%Z;
    Labels := ∅; Annotations := annotations; Finalizers := []; OwnerReferences := []; DeletionTimestamp := None |};
  NodeName := "n"; Phase := PodRunning;
  Conditions := [{| ConditionType := PodReady; ConditionStat := ConditionTrue; LastProbeTime := 0%Z;
    LastTransitionTime := 5000000000%Z |}] |}.
Definition example_delete : Interpreter.AdmissionRequest := {|
  Interpreter.reqUID := "r"; Interpreter.reqOperation := Interpreter.Delete;
  Interpreter.reqResource := Interpreter.podGvr; Interpreter.SubResource := "";
  Interpreter.reqNamespace := "ns"; Interpreter.reqName := "p"; Interpreter.OldObject := "pod"; Interpreter.Object := "" |}.
Definition example_Handle (annotations : gmap string string) (synced : bool) (result : BatchItem.Result) :=
  Handler.Handle (W := nat) (λ _, inl (Some (example_ready_pod annotations))) (λ _, inl None)
    (λ _, inr (errorString "none")) (λ _, 8000000000%Z) (λ _, 8000000000%Z) (λ _, synced)
    (λ _ _ _, Ret [example_key]) (λ _ _, Ret (Some example_batch_ppr, None)) (λ _ _ w, Ret (result, None, S w))
    Handler.NewCritAnnots.

Lemma Handle_grants_witness :
  ∃ keys, keys = [example_key] ∧
    all_grant (W := nat) (λ _, 8000000000%Z) (λ _ _, Ret (Some example_batch_ppr, None))
      (λ _ _ w, Ret (BatchItem.ResultNewDisruption, None, S w)) Handler.NewCritAnnots
      (Interpreter.interpretedPodRequest (example_ready_pod ∅)) 3000000000%Z "cell" keys 0 1.
Proof.
  destruct (Handle_grants (λ _, inl (Some (example_ready_pod ∅))) (λ _, inl None)
    (λ _, inr (errorString "none")) (λ _ : nat, 8000000000%Z) (λ _, 8000000000%Z) (λ _, true)
    (λ _ _ _, Ret [example_key]) (λ _ _, Ret (Some example_batch_ppr, None))
    (λ _ _ w, Ret (BatchItem.ResultNewDisruption, None, S w)) Handler.NewCritAnnots
    (Some example_delete) "cell" ∅ ∅ 0 1 (Handler.accept Handler.RequestStatusAdmittedAll) false)
    as (intrp & Hi & _ & [Ht|[Hn|(ready & keys & Hr & _ & Hq & Hall)]]); try (vm_compute; reflexivity).
  - vm_compute in Hi. injection Hi as <-. vm_compute in Ht. discriminate Ht.
  - vm_compute in Hi. injection Hi as <-. vm_compute in Hn. discriminate Hn.
  - exists keys. vm_compute in Hi. injection Hi as <-. vm_compute in Hr. injection Hr as <-.
    injection Hq as <-. split; [reflexivity|exact Hall].
Defined.

(** C16. The loop stops at the first PodProtector that does not grant: the result is its verdict,
    the PodProtectors before it have granted, those behind it are not asked, and the audit
    annotation names it. *)
Theorem Handle_refuses_first `{!KubeErrors} {W : Type} UnmarshalPod UnmarshalEviction Provide
    (clkNow realNow : W → Time) (hasSynced : W → bool)
    (Query : string → gmap string string → W → outcome (list Informer.PodProtectorKey)) Get Submit critAnnots
    (req : option Interpreter.AdmissionRequest) (cellId : string) (audit audit' : gmap string string)
    (w w' : W) (res : Handler.HandleResult) (dry : bool) (intrp : Interpreter.InterpretedRequest) (ready : Duration)
    (keys : list Informer.PodProtectorKey) :
  interpret UnmarshalPod UnmarshalEviction Provide req cellId = (Some intrp, None) →
  Interpreter.IsAlreadyTerminating intrp = false → Interpreter.DurationSinceReady (clkNow w) intrp = Some ready →
  hasSynced w = true →
  Query (Namespace (Interpreter.GetMetadata intrp)) (Labels (Interpreter.GetMetadata intrp)) w = Ret keys →
  Handler.Handle UnmarshalPod UnmarshalEviction Provide clkNow realNow hasSynced Query Get Submit critAnnots
    req cellId audit w = Ret (res, dry, audit', w') →
  refused res →
  dry = Interpreter.PrefersDryRun intrp ∧
  ∃ pre key post w1, keys = pre ++ key :: post ∧
    all_grant realNow Get Submit critAnnots intrp ready cellId pre w w1 ∧
    Handler.determineRejection realNow Get Submit critAnnots key ready intrp (Interpreter.GetMetadata intrp)
      cellId w1 = Ret (res, w') ∧
    audit' = <[AuditAnnotationRejectByPpr := Namespaced.Name (Informer.NsName key)]> audit.
Proof.
  intros Hi Hterm Hready Hsync Hq Hrun Href. unfold Handler.Handle in Hrun.
  fold (interpret UnmarshalPod UnmarshalEviction Provide req cellId) in Hrun.
  rewrite Hi, Hterm, Hready, Hsync, Hq in Hrun. simpl in Hrun.
  apply outcome_bind_Ret in Hrun as ([r w1] & Hall & Hrun). apply handleAll_spec in Hall.
  destruct r as [n|[key r]]; simplify_eq.
  - exfalso. unfold refused in Href. destruct (n =? 0)%nat; simpl in Href; naive_solver.
  - split; [done|]. destruct Hall as (pre & post & w1' & -> & Hpre & Hd & _). by exists pre, key, post, w1'.
Qed.

Definition is_rejection {W} (m : outcome (Handler.HandleResult * bool * gmap string string * W)) : bool :=
  match m with Ret (res, _, _, _) => Optional.IsSome (Handler.rejection res) | Panic _ => false end.

Lemma Handle_refuses_first_witness :
  ∃ res dry audit' w', example_Handle ∅ true BatchItem.ResultRejected (Some example_delete) "cell" ∅ 0 =
      Ret (res, dry, audit', w') ∧ audit' !! AuditAnnotationRejectByPpr = Some "ppr".
Proof.
  assert (Hrej : is_rejection (example_Handle ∅ true BatchItem.ResultRejected (Some example_delete) "cell" ∅ 0) = true)
    by (vm_compute; reflexivity).
  destruct (example_Handle _ _ _ _ _ _ _) as [[[[res dry] audit'] w']|] eqn:E; [|discriminate Hrej].
  exists res, dry, audit', w'. split; [reflexivity|].
  destruct (Handle_refuses_first (λ _, inl (Some (example_ready_pod ∅))) (λ _, inl None)
    (λ _, inr (errorString "none")) (λ _ : nat, 8000000000%Z) (λ _, 8000000000%Z) (λ _, true)
    (λ _ _ _, Ret [example_key]) (λ _ _, Ret (Some example_batch_ppr, None))
    (λ _ _ w, Ret (BatchItem.ResultRejected, None, S w)) Handler.NewCritAnnots
    (Some example_delete) "cell" ∅ audit' 0 w' res dry (Interpreter.interpretedPodRequest (example_ready_pod ∅))
    3000000000%Z [example_key]) as (_ & pre & key & post & w1 & Hk & _ & _ & ->); try reflexivity; [exact E| |].
  - right. simpl in Hrej. destruct (Handler.rejection res); [congruence|discriminate Hrej].
  - destruct pre as [|? [|? ?]]; [|discriminate Hk|discriminate Hk]. injection Hk as <- _. reflexivity.
Defined.

(** A dry run never refuses. With the flag, and for a pod with the force-delete annotation
    once the informer has synced, every review of a request that gets an answer is allowed
    with the UID of the request, and marked as a dry run. *)
Theorem serve_dry_run_allows `{!KubeErrors} {W : Type} UnmarshalPod UnmarshalEviction Provide
    (clkNow realNow : W → Time) (hasSynced : W → bool)
    (Query : string → gmap string string → W → outcome (list Informer.PodProtectorKey)) Get Submit critAnnots
    UnmarshalReview (optDryRun : bool) (cellId body : string) (w w' : W) (req : Interpreter.AdmissionRequest)
    (resp : Server.httpResponse) :
  UnmarshalReview body = inl (Some req) →
  (optDryRun = true ∨ hasSynced w = true ∧
    ∃ intrp, interpret UnmarshalPod UnmarshalEviction Provide (Some req) cellId = (Some intrp, None) ∧
      Interpreter.PrefersDryRun intrp = true) →
  Server.serve (Handler.Handle UnmarshalPod UnmarshalEviction Provide clkNow realNow hasSynced Query Get Submit critAnnots)
    UnmarshalReview optDryRun cellId (inl body) w = Ret (resp, w') →
  ∃ r, resp = Server.respReview r ∧ Server.UID r = Interpreter.reqUID req ∧ Server.Allowed r = true ∧
    Server.Result r = None ∧ Server.AuditAnnotations r !! AuditAnnotationDryRun = Some "1".
Proof.
  intros Hreview Hdry Hrun. unfold Server.serve in Hrun. rewrite Hreview in Hrun.
  apply outcome_bind_Ret in Hrun as ([[[res dry] audit] w1] & Hh & Hrun).
  assert (optDryRun || dry = true) as Hd.
  { destruct Hdry as [->|(Hs & intrp & Hi & Hp)]; [done|]. apply orb_true_iff. right.
    unfold Handler.Handle in Hh. fold (interpret UnmarshalPod UnmarshalEviction Provide (Some req) cellId) in Hh.
    rewrite Hi, Hs, Hp in Hh. destruct (Interpreter.IsAlreadyTerminating intrp); [by simplify_eq|].
    destruct (Interpreter.DurationSinceReady _ intrp); [|by simplify_eq]. simpl in Hh.
    apply outcome_bind_Ret in Hh as (keys & _ & Hh). apply outcome_bind_Ret in Hh as ([[n|[key r]] w2] & _ & Hh);
      by simplify_eq. }
  rewrite Hd in Hrun. simpl in Hrun.
  destruct (Handler.Err res); simplify_eq; eexists; (split; [done|]); simpl; by rewrite lookup_insert_eq.
Qed.

Lemma serve_dry_run_allows_witness :
  ∃ r, Server.serve (example_Handle {[ PodAnnotationForceDelete := "" ]} true BatchItem.ResultRejected)
      (λ _, inl (Some example_delete)) false "cell" (inl "body") 0 = Ret (Server.respReview r, 1) ∧
    Server.Allowed r = true.
Proof.
  eexists. split; [vm_compute; reflexivity|].
  edestruct (serve_dry_run_allows (λ _, inl (Some (example_ready_pod {[ PodAnnotationForceDelete := "" ]}))) (λ _, inl None)
    (λ _, inr (errorString "none")) (λ _ : nat, 8000000000%Z) (λ _, 8000000000%Z) (λ _, true)
    (λ _ _ _, Ret [example_key]) (λ _ _, Ret (Some example_batch_ppr, None))
    (λ _ _ w, Ret (BatchItem.ResultRejected, None, S w)) Handler.NewCritAnnots
    (λ _, inl (Some example_delete)) false "cell" "body" 0) as (r & Hr & _ & Ha & _);
    [reflexivity| |vm_compute; reflexivity|].
  - right. split; [reflexivity|]. eexists. split; vm_compute; reflexivity.
  - injection Hr as <-. reflexivity.
Defined.

(** The force-delete annotation does not help before the informer has synced: without the
    dry-run flag, the deletion of a ready pod is answered with a server error. *)
Theorem force_delete_needs_sync `{!KubeErrors} {W : Type} UnmarshalPod UnmarshalEviction Provide
    (clkNow realNow : W → Time) (hasSynced : W → bool)
    (Query : string → gmap string string → W → outcome (list Informer.PodProtectorKey)) Get Submit critAnnots
    UnmarshalReview (cellId body : string) (w : W) (req : Interpreter.AdmissionRequest)
    (intrp : Interpreter.InterpretedRequest) :
  UnmarshalReview body = inl (Some req) → hasSynced w = false →
  interpret UnmarshalPod UnmarshalEviction Provide (Some req) cellId = (Some intrp, None) →
  Interpreter.IsAlreadyTerminating intrp = false → is_Some (Interpreter.DurationSinceReady (clkNow w) intrp) →
  ∃ text, Server.serve (Handler.Handle UnmarshalPod UnmarshalEviction Provide clkNow realNow hasSynced Query Get
      Submit critAnnots) UnmarshalReview false cellId (inl body) w = Ret (Server.respText 500 text, w).
Proof.
  intros Hreview Hs Hi Ht [ready Hr]. unfold Server.serve. rewrite Hreview. unfold Handler.Handle.
  fold (interpret UnmarshalPod UnmarshalEviction Provide (Some req) cellId). rewrite Hi, Hs, Ht, Hr. by eexists.
Qed.

Lemma force_delete_needs_sync_witness :
  ∃ text, Server.serve (example_Handle {[ PodAnnotationForceDelete := "" ]} false BatchItem.ResultNewDisruption)
    (λ _, inl (Some example_delete)) false "cell" (inl "body") 0 = Ret (Server.respText 500 text, 0).
Proof.
  apply (force_delete_needs_sync _ _ _ _ _ _ _ _ _ _ _ _ _ _ example_delete
    (Interpreter.interpretedPodRequest (example_ready_pod {[ PodAnnotationForceDelete := "" ]}))); try reflexivity.
  vm_compute. by eexists.
Defined.

(** The backoff between retries is at least the base and less than twice the base plus the
    jitter, and it takes values of at least the base plus the jitter: the random part ranges
    over the sum of base and jitter. *)
Theorem retryBackoff_range (base jitter : Duration) :
  (0 < base ∧ 0 < jitter ∧ 2 * base + jitter ≤ MaxInt64)%Z →
  (∀ (R : Type) (Int63n : Z → R → Z * R) rng, (∀ n rng, 0 < n → 0 ≤ (Int63n n rng).1 < n)%Z →
    ∃ d rng', Handler.retryBackoff Int63n base jitter rng = Ret (d, rng') ∧ (base ≤ d < 2 * base + jitter)%Z) ∧
  ∃ Int63n : Z → unit → Z * unit, (∀ n rng, 0 < n → 0 ≤ (Int63n n rng).1 < n)%Z ∧
    ∃ d, Handler.retryBackoff Int63n base jitter tt = Ret (d, tt) ∧ (base + jitter ≤ d)%Z.
Proof.
  intros (Hb & Hj & Hmax). unfold Handler.retryBackoff, Handler.jitterDuration.
  rewrite (wrap64_id (base + jitter)) by (unfold_wrap; lia).
  rewrite (proj2 (Z.leb_gt _ _)) by lia. split.
  - intros R r rng Hr. specialize (Hr (base + jitter)%Z rng ltac:(lia)). destruct (r _ rng) as [drawn rng']. cbn in Hr.
    eexists _, _. split; [done|]. rewrite wrap64_id; [lia|]. unfold_wrap. lia.
  - exists (λ n _, (n - 1, tt))%Z. split; [intros; cbn; lia|]. eexists. split; [done|].
    rewrite wrap64_id; [lia|]. unfold_wrap. lia.
Qed.

(** A generator that counts. *)
Lemma retryBackoff_range_witness :
  ∃ d rng, Handler.retryBackoff (λ n count, (count mod n, count + 1))%Z (100 * Millisecond)%Z (100 * Millisecond)%Z 7%Z = Ret (d, rng) ∧
    (100 * Millisecond ≤ d < 300 * Millisecond)%Z.
Proof.
  destruct (retryBackoff_range (100 * Millisecond)%Z (100 * Millisecond)%Z) as [H _].
  - vm_compute. repeat split; congruence.
  - destruct (H Z (λ n count, (count mod n, count + 1))%Z 7%Z) as (d & rng & Hd & Hr).
    + intros n rng Hn. exact (Z.mod_pos_bound rng n Hn).
    + exists d, rng. split; [exact Hd|]. unfold Millisecond in *. lia.
Defined.
