(* ===== verification/Aggregator.v ===== *)
(** * Aggregator: the status of a PodProtector from the pods of a cell

    [Module SyncTime] is aggregator/synctime, [Module NextEventPool] is
    aggregator/aggregator/next_event_pool.go and [Module Aggregator] is
    aggregator/aggregator/controller.go: the handler of pod events and the reconciliation of
    a PodProtector. Listers, clocks, the hash that assigns pods to shards, the jittered delay
    and the client that writes the status are parameters. *)

From S2P Require Import Prelude Util Errors Iter Canonical SetTrie LabelIndex Api PprUtil Informer.

Module SyncTime.

(** [PodInterpreter] and its implementations. *)
Definition PodInterpreter : Type := PodObject → outcome (Time + error).

Definition ClockPodInterpreter (now : Time) : PodInterpreter := λ _, Ret (inl now).

Definition AnnotUpdateTriggerTime : string := "podseidon.kubewharf.io/update-trigger-time".

(** [Parse] is [time.Parse] with the layout RFC3339Nano. *)
Definition StatusPodInterpreter (Parse : string → Time + error) : PodInterpreter := λ pod,
  let maxTime := CreationTimestamp (podMeta pod) in
  match DeletionTimestamp (podMeta pod) with
  | None => Panic "invalid memory address or nil pointer dereference"
  | Some deletion =>
      let maxTime := if negb (time_IsZero deletion) then deletion else maxTime in
      let maxTime :=
        match Annotations (podMeta pod) !! AnnotUpdateTriggerTime with
        | Some timeStr =>
            match Parse timeStr with
            | inl updateTime => if time_After updateTime maxTime then updateTime else maxTime
            | inr _ => maxTime
            end
        | None => maxTime
        end in
      Ret (inl (foldl (λ maxTime condition,
        if time_After (LastProbeTime condition) maxTime then LastProbeTime condition else maxTime)
        maxTime (Conditions pod)))
  end.

(** [lastInformerSync] is nil before the first event. *)
Definition initialMarker (now : Time) (lastInformerSync : option Time) : option Time :=
  match lastInformerSync with None => Some now | Some t => Some t end.

Definition rightIsLater (left_ right_ : option Time) : bool :=
  match left_, right_ with
  | None, _ => true
  | Some _, None => false
  | Some left_, Some right_ => time_After right_ left_
  end.

(** The interference of the other threads is that of [AtomicExtrema]. *)
Definition notifier (Interpret : PodInterpreter) (interference : list (option Time → option Time))
    (pod : PodObject) (lastInformerSync : option Time) : outcome (option Time * option error) :=
  newTime ← Interpret pod;
  match newTime with
  | inr err => Ret (lastInformerSync, Some (TagWrapf "InterpretPod" (Some err) "interpreting sync timestamp from pod"))
  | inl newTime =>
      Ret ((Atomics.AtomicExtrema rightIsLater (Some newTime) interference lastInformerSync).1, None)
  end.

End SyncTime.

Module NextEventPool.

Record nextEventPool : Type := {
  undrainedTime : option Time;
  lastDrain : option Time;
  items : gset Informer.PodProtectorKey
}.

Definition newNextEventPool : nextEventPool := {| undrainedTime := None; lastDrain := None; items := ∅ |}.

Definition Push (now : Time) (item : Informer.PodProtectorKey) (pool : nextEventPool) : nextEventPool := {|
  undrainedTime := if (size (items pool) =? 0)%nat then Some now else undrainedTime pool;
  lastDrain := lastDrain pool;
  items := {[item]} ∪ items pool
|}.

(** [now] is read for [lastDrain], then [since] for the two durations. *)
Definition Drain (now since : Time) (pool : nextEventPool) :
    nextEventPool * (gset Informer.PodProtectorKey * Duration * option Duration) :=
  ({| undrainedTime := None; lastDrain := Some now; items := ∅ |},
   (items pool,
    match undrainedTime pool with Some undrainedTime => time_Sub since undrainedTime | None => 0%Z end,
    Optional.Map (Optional.FromPtr (lastDrain pool)) (time_Sub since))).

Definition TimeSinceLastDrain (now : Time) (pool : nextEventPool) : Duration :=
  match undrainedTime pool with None => 0%Z | Some undrainedTime => time_Sub now undrainedTime end.

Definition ItemCount (pool : nextEventPool) : nat := size (items pool).

End NextEventPool.

Module Aggregator.
Import NextEventPool.

(** [StatusChangeCause]. *)
Definition StatusChangeCauseAvailable : Z := 1%Z.
Definition StatusChangeCauseReady : Z := 2%Z.
Definition StatusChangeCauseRunning : Z := 4%Z.
Definition StatusChangeCauseScheduled : Z := 8%Z.
Definition StatusChangeCauseCreated : Z := 16%Z.
Definition StatusChangeCauseHistoryBucketAggregated : Z := 32%Z.
Definition StatusChangeCausePending : Z := 64%Z.
Definition StatusChangeCauseUnscheduledPending : Z := 128%Z.

Definition BitToString (cause : Z) : outcome string :=
  if (cause =? StatusChangeCauseAvailable)%Z then Ret "Available"
  else if (cause =? StatusChangeCauseReady)%Z then Ret "Ready"
  else if (cause =? StatusChangeCauseRunning)%Z then Ret "Running"
  else if (cause =? StatusChangeCauseScheduled)%Z then Ret "Scheduled"
  else if (cause =? StatusChangeCauseCreated)%Z then Ret "Created"
  else if (cause =? StatusChangeCauseHistoryBucketAggregated)%Z then Ret "HistoryBucketAggregated"
  else if (cause =? StatusChangeCausePending)%Z then Ret "Pending"
  else if (cause =? StatusChangeCauseUnscheduledPending)%Z then Ret "UnscheduledPending"
  else Panic "receiver is not a power of 2".

Inductive ReconcileAction : Type := ReconcileActionNone | ReconcileActionNoPpr | ReconcileActionSelectorMismatch
  | ReconcileActionUpdated.

Record EndReconcile : Type := { Err : option error; HasChange : HasChange.Changed; Action : ReconcileAction }.

Record podInformerShard : Type := {
  podLister : string → string → option PodObject * option error;
  informerSyncReader : option Time;
  notifyOnInformerEvent : nextEventPool
}.

Definition with_pool (shard : podInformerShard) (pool : nextEventPool) : podInformerShard :=
  {| podLister := podLister shard; informerSyncReader := informerSyncReader shard; notifyOnInformerEvent := pool |}.

(** [Caches.findPodFromAnyShard]: the error of the last shard is returned. *)
Fixpoint findPodFromAnyShard (shards : list podInformerShard) (nsName : Namespaced.NamespacedName)
    (err : option error) : option PodObject * option error :=
  match shards with
  | [] => (None, err)
  | shard :: shards =>
      match podLister shard (Namespaced.Namespace nsName) (Namespaced.Name nsName) with
      | (Some pod, None) => (Some pod, None)
      | (_, err) => findPodFromAnyShard shards nsName err
      end
  end.

Section aggregator.
Context `{!GoRuntime, !KubeErrors}.

Definition SetsIndex : Type := Locked.Locked (Namespaced.Namespaced (Sets.Sets string)).
#[local] Instance sets_index_instance :
  LabelIndex.Index (Namespaced.Namespaced (Sets.Sets string)) Namespaced.NamespacedName (gmap string string)
    (Namespaced.NamespacedQuery LabelSelector) unit (option error) :=
  Namespaced_Index LabelIndex.ErrorErrAdapter Sets.NewSets.

Definition NewPodIndex : SetsIndex := Locked.NewLocked Namespaced.NewNamespaced.

(** *** The handler of pod events *)

(** [DeletedFinalStateUnknown] holds the last known object. *)
Inductive eventObject : Type :=
| eventPod (pod : PodObject)
| eventOther
| DeletedFinalStateUnknown (obj : eventObject).

(** What one event changes: the index, the sync time and the pool of its shard, and what is
    added to the delayed queue. *)
Record eventState : Type := {
  podIndex : SetsIndex;
  lastInformerSync : option Time;
  nextEvents : nextEventPool;
  queued : list (Informer.PodProtectorKey * Duration)
}.

Section handler.
Variables (Interpret : SyncTime.PodInterpreter) (interference : list (option Time → option Time))
  (Query : string → gmap string string → outcome (list Informer.PodProtectorKey))
  (pprInformer_Get : Informer.PodProtectorKey → outcome (option PodProtector * option error))
  (jitterAggregationRate : Duration → Duration) (defaultConfig : DefaultConfig.Options) (now since : Time).

Definition enqueueDelayed (key : Informer.PodProtectorKey)
    (queue : list (Informer.PodProtectorKey * Duration)) :
    outcome (list (Informer.PodProtectorKey * Duration)) :=
  '(ppr, err) ← pprInformer_Get key;
  let pprConfig :=
    match err with
    | None => Optional.Map ppr (λ ppr, HistoryConfig (Spec ppr))
    | Some _ => None
    end in
  let computed := DefaultConfig.Compute defaultConfig pprConfig in
  Ret (queue ++ [(key, jitterAggregationRate (DefaultConfig.AggregationRate computed))]).

(** The part of [handle] for a pod; [None]: it waits for the lock of the index. *)
Definition handlePod (pod : PodObject) (stillPresent : bool) (s : eventState) :
    option (outcome (eventState * option error)) :=
  let podNsName := {| Namespaced.Namespace := Namespace (podMeta pod); Namespaced.Name := Name (podMeta pod) |} in
  run ← (if stillPresent
    then fmap (λ run, '(index, _) ← run; Ret index)
      (Locked.Track (H := sets_index_instance) (podIndex s) podNsName (Labels (podMeta pod)))
    else fmap (λ run, '(index, _) ← run; Ret index)
      (Locked.Untrack (H := sets_index_instance) (podIndex s) podNsName));
  Some (
    podIndex ← run;
    '(lastInformerSync, err) ← SyncTime.notifier Interpret interference pod (lastInformerSync s);
    match err with
    | Some err => Ret ({| podIndex := podIndex; lastInformerSync := lastInformerSync; nextEvents := nextEvents s;
                          queued := queued s |}, Some err)
    | None =>
        matchedPprs ← Query (Namespace (podMeta pod)) (Labels (podMeta pod));
        let '(nextEvents, (triggerReconcile, _, _)) := Drain now since (nextEvents s) in
        let triggerReconcile := foldl (λ triggerReconcile ppr, {[ppr]} ∪ triggerReconcile) triggerReconcile matchedPprs in
        queued ← outcome_foldl (λ queue nsName, enqueueDelayed nsName queue) (queued s) (set_order triggerReconcile);
        Ret ({| podIndex := podIndex; lastInformerSync := lastInformerSync; nextEvents := nextEvents;
                queued := queued |}, None)
    end).

Definition handle (obj : eventObject) (stillPresent : bool) (s : eventState) :
    option (outcome (eventState * option error)) :=
  let obj := match obj with DeletedFinalStateUnknown obj => obj | obj => obj end in
  match obj with
  | eventPod pod => handlePod pod stillPresent s
  | _ => Some (Ret (s, Some (TagErrorf "EventNotPod" "event object is not a Pod")))
  end.

End handler.

(** *** Reconciliation *)

Definition findRelevantPods (index : SetsIndex) (shards : list podInformerShard) (ppr : PodProtector) :
    outcome (list PodObject * option error) :=
  found ← Locked.Query (H := sets_index_instance) LabelIndex.ErrorErrAdapter index
    {| Namespaced.queryNamespace := Namespace (pprMeta ppr); Namespaced.query := PprUtil.GetAggregationSelector ppr |};
  match found.2 with
  | (_, Some err) =>
      Ret ([], Some (TagWrapf "QueryPodIndex" (Some err) "query pods matching PodProtector selector from index"))
  | (None, None) => Panic "invalid memory address or nil pointer dereference"
  | (Some podNames, None) =>
      let podNames : Iter.Iter Namespaced.NamespacedName := λ S yield s,
        '(s, flow, _) ← podNames S yield s (false, found.1); Ret (s, flow) in
      '(relevantPods, err) ← Iter.TryForEach podNames (λ podName relevantPods,
        match findPodFromAnyShard shards podName None with
        | (_, Some err) => Ret (relevantPods, Some (TagWrapf "PodListerGet" (Some err) "get pod from lister"))
        | (Some pod, None) =>
            Ret (if IsZeroPtr (DeletionTimestamp (podMeta pod)) then relevantPods ++ [pod] else relevantPods, None)
        | (None, None) => Ret (relevantPods, None)
        end) [];
      Ret (match err with Some err => ([], Some err) | None => (relevantPods, None) end)
  end.

(** The counters of [aggregateStatus], and the requeue time. *)
Record replicaCounts : Type := {
  readyReplicas : Z; scheduledReplicas : Z; runningReplicas : Z; availableReplicas : Z;
  pendingReplicas : Z; unscheduledPendingReplicas : Z
}.

Definition incr (b : bool) (z : Z) : Z := if b then wrap32 (z + 1) else z.

(** The body of the counting loop; [now] is the reading of the clock for this pod. *)
Definition countPod (minReadySeconds : Z) (acc : replicaCounts * option Duration) (item : Time * PodObject) :
    outcome (replicaCounts * option Duration) :=
  let '(counts, requeue) := acc in
  let '(now, pod) := item in
  '(podStatus, requeuePtr) ← Pod.GetPodStatus now pod minReadySeconds (Some requeue);
  let isPending := bool_decide (Phase pod = PodPending) in
  Ret ({| scheduledReplicas := incr (Pod.IsScheduled podStatus) (scheduledReplicas counts);
          runningReplicas := incr (Pod.IsRunning podStatus) (runningReplicas counts);
          readyReplicas := incr (Pod.IsReady podStatus) (readyReplicas counts);
          availableReplicas := incr (Pod.IsAvailable podStatus) (availableReplicas counts);
          pendingReplicas := incr isPending (pendingReplicas counts);
          unscheduledPendingReplicas :=
            incr (isPending && bool_decide (NodeName pod = "")) (unscheduledPendingReplicas counts) |},
       default None requeuePtr).

Definition assignOptionalInt32 (changed : HasChange.Changed) (target : option Z) (value : Z) (cause : Z) :
    option Z * HasChange.Changed :=
  if bool_decide (target = Some value) then (target, changed) else (Some value, HasChange.Add changed cause).

Definition aggregateStatus (clk : nat → Time) (relevantPods : list PodObject) (ppr : PodProtector)
    (requeue : option Duration) (target : PodProtectorAggregation) (changed : HasChange.Changed) :
    outcome (PodProtectorAggregation * HasChange.Changed * option Duration * option error) :=
  if (MaxInt32 <? Z.of_nat (length relevantPods))%Z
  then Ret (target, changed, requeue, Some (TagErrorf "TooManyRelevantPods" "more than 2^31 pods"))
  else
    let '(total, changed) :=
      HasChange.Assign changed (TotalReplicas target) (Z.of_nat (length relevantPods)) StatusChangeCauseCreated in
    '(counts, requeue) ← outcome_foldl (countPod (MinReadySeconds (Spec ppr)))
      ({| readyReplicas := 0; scheduledReplicas := 0; runningReplicas := 0; availableReplicas := 0;
          pendingReplicas := 0; unscheduledPendingReplicas := 0 |}%Z, requeue)
      (imap (λ i pod, (clk i, pod)) relevantPods);
    let '(ready, changed) := HasChange.Assign changed (ReadyReplicas target) (readyReplicas counts) StatusChangeCauseReady in
    let '(scheduled, changed) :=
      HasChange.Assign changed (ScheduledReplicas target) (scheduledReplicas counts) StatusChangeCauseScheduled in
    let '(running, changed) :=
      HasChange.Assign changed (RunningReplicas target) (runningReplicas counts) StatusChangeCauseRunning in
    let '(available, changed) :=
      HasChange.Assign changed (AvailableReplicas target) (availableReplicas counts) StatusChangeCauseAvailable in
    let '(pending, changed) :=
      assignOptionalInt32 changed (PendingReplicas target) (pendingReplicas counts) StatusChangeCausePending in
    let '(unscheduled, changed) :=
      assignOptionalInt32 changed (UnscheduledPendingReplicas target) (unscheduledPendingReplicas counts)
        StatusChangeCauseUnscheduledPending in
    Ret ({| TotalReplicas := total; AvailableReplicas := available; ReadyReplicas := ready;
            ScheduledReplicas := scheduled; RunningReplicas := running; PendingReplicas := pending;
            UnscheduledPendingReplicas := unscheduled; LastEventTime := LastEventTime target |},
         changed, requeue, None).

Record lastEventTimeList : Type := { shardTimes : list Time; minTime : Time }.

Definition lastEventTime_get (list : lastEventTimeList) (shardNumber : option nat) : outcome Time :=
  match shardNumber with
  | Some shardNumber =>
      match shardTimes list !! shardNumber with Some t => Ret t | None => Panic "index out of range" end
  | None => Ret (minTime list)
  end.

Section history.
(** [sharding.HashFNV32], a uint32. *)
Variable HashFNV32 : string → Z.

Definition getShardNumber (shards : nat) (podName : string) : nat :=
  Z.to_nat (HashFNV32 podName `mod` Z.of_nat shards).

(** The loop that marks the shards whose time is before [startTime]. *)
Definition markBefore (lastEventTime : lastEventTimeList) (startTime : Time) (outstanding : list bool) : list bool :=
  zip_with (λ t b, if time_Before t startTime then true else b) (shardTimes lastEventTime) outstanding.

Definition updateBucket (shards : nat) (lastEventTime : lastEventTimeList)
    (acc : bool * list PodProtectorAdmissionBucket * list bool) (bucket : PodProtectorAdmissionBucket) :
    outcome (bool * list PodProtectorAdmissionBucket * list bool) :=
  let '(changed, newBuckets, outstanding) := acc in
  match PodUid bucket with
  | Some _ =>
      let podName := Optional.IfNonZero (PodName bucket) in
      let shardNumber := Optional.Map podName (getShardNumber shards) in
      t ← lastEventTime_get lastEventTime shardNumber;
      if time_Before (StartTime bucket) t then Ret (true, newBuckets, outstanding)
      else
        let outstanding :=
          match shardNumber with
          | Some shardNumber => <[shardNumber := true]> outstanding
          | None => markBefore lastEventTime (StartTime bucket) outstanding
          end in
        Ret (changed, newBuckets ++ [bucket], outstanding)
  | None =>
      match EndTime bucket with
      | None => Panic "invalid memory address or nil pointer dereference"
      | Some endTime =>
          if time_Before endTime (minTime lastEventTime) then Ret (true, newBuckets, outstanding)
          else Ret (changed, newBuckets ++ [bucket], markBefore lastEventTime (StartTime bucket) outstanding)
      end
  end.

Definition updateLastEventTime (pushNow : Time) (shards : list podInformerShard)
    (queueItem : Informer.PodProtectorKey) (outputStatus : PodProtectorCellStatus)
    (outputChanged : HasChange.Changed) (lastEventTime : lastEventTimeList) :
    outcome (PodProtectorCellStatus * HasChange.Changed * list podInformerShard) :=
  '(changed, newBuckets, shardHasOutstandingBuckets) ←
    outcome_foldl (updateBucket (length shards) lastEventTime)
      (false, [], replicate (length shards) false) (Buckets outputStatus);
  let '(outputStatus, outputChanged) :=
    if changed : bool
    then (with_Buckets outputStatus newBuckets,
          HasChange.Add outputChanged StatusChangeCauseHistoryBucketAggregated)
    else (outputStatus, outputChanged) in
  let shards :=
    if 0 <? length newBuckets
    then zip_with (λ shard (isOutstanding : bool),
           if isOutstanding then with_pool shard (Push pushNow queueItem (notifyOnInformerEvent shard)) else shard)
           shards shardHasOutstandingBuckets
    else shards in
  Ret (outputStatus, outputChanged, shards).

(** The last event times of the shards, up to the first one that has none. *)
Fixpoint lastEventTimes (shards : list podInformerShard) : option (list Time) :=
  match shards with
  | [] => Some []
  | shard :: shards =>
      match informerSyncReader shard with
      | None => None
      | Some t => times ← lastEventTimes shards; Some (t :: times)
      end
  end.

(** The world that the status is written to, with the shards and the delayed queue. *)
Context {W : Type}.
Record reconcileState : Type := {
  shards : list podInformerShard;
  queue : list (Informer.PodProtectorKey * Duration);
  world : W
}.

Variables (pprInformer_Get : Informer.PodProtectorKey → outcome (option PodProtector * option error))
  (pprSelector_Matches : gmap string string → bool)
  (UpdateStatus : string → PodProtector → W → option error * W)
  (clk : nat → Time) (pushNow : Time) (myCellId : string) (defaultConfig : DefaultConfig.Options).

Definition endReconcile (err : option error) (action : ReconcileAction) : EndReconcile :=
  {| Err := err; HasChange := HasChange.New; Action := action |}.

(** The steps of [tryReconcile] once the slot [i] of the cell in [cells] is known. *)
Definition reconcileCell (queueItem : Informer.PodProtectorKey) (ppr : PodProtector)
    (cells : list PodProtectorCellStatus) (i : nat) (relevantPods : list PodObject) (s : reconcileState) :
    outcome (EndReconcile * reconcileState) :=
  match cells !! i with
  | None => Panic "index out of range"
  | Some status =>
      '(aggregation, hasChange, requeue, err) ←
        aggregateStatus clk relevantPods ppr None (Aggregation status) HasChange.New;
      match err with
      | Some err => Ret (endReconcile (Some err) ReconcileActionNone, s)
      | None =>
          match lastEventTimes (shards s) with
          | None => Ret (endReconcile (Some (TagErrorf "NoInformerSyncTime" "did not receive prior informer sync time"))
                           ReconcileActionNone, s)
          | Some lastEventTimeByShard =>
              min ← Iter.Extremum (Iter.FromSlice lastEventTimeByShard) time_After;
              minLastEventTime ← Optional.MustGet min "number of shards is nonzero";
              '(status, hasChange, shards) ← updateLastEventTime pushNow (shards s) queueItem
                (with_Aggregation status aggregation) hasChange
                {| shardTimes := lastEventTimeByShard; minTime := minLastEventTime |};
              let status :=
                if HasChange.HasChanged hasChange
                then with_Aggregation status (with_LastEventTime (Aggregation status) minLastEventTime)
                else status in
              let queue := match requeue with Some requeue => queue s ++ [(queueItem, requeue)] | None => queue s end in
              if HasChange.HasChanged hasChange then
                let computedConfig := DefaultConfig.Compute defaultConfig (Some (HistoryConfig (Spec ppr))) in
                ppr ← PprUtil.Summarize computedConfig (with_Cells ppr (<[i := status]> cells));
                let '(err, world) := UpdateStatus (Informer.SourceName queueItem) ppr (world s) in
                let s := {| shards := shards; queue := queue; world := world |} in
                Ret (match err with
                     | Some err =>
                         {| Err := Some (TagWrapf "UpdatePprStatus" (Some err)
                              "apiserver error while updating aggregation status");
                            HasChange := hasChange; Action := ReconcileActionNone |}
                     | None => {| Err := None; HasChange := hasChange; Action := ReconcileActionUpdated |}
                     end, s)
              else
                Ret ({| Err := None; HasChange := hasChange; Action := ReconcileActionUpdated |},
                     {| shards := shards; queue := queue; world := world s |})
          end
      end
  end.

Definition tryReconcile (index : SetsIndex) (queueItem : Informer.PodProtectorKey) (s : reconcileState) :
    outcome (EndReconcile * reconcileState) :=
  '(pprOpt, err) ← pprInformer_Get queueItem;
  match err, pprOpt with
  | Some err, _ => Ret (endReconcile (Some (TagWrapf "PprListerGet" (Some err) "get PodProtector from lister"))
                          ReconcileActionNone, s)
  | None, None => Ret (endReconcile None ReconcileActionNoPpr, s)
  | None, Some ppr =>
      if negb (pprSelector_Matches (Labels (pprMeta ppr)))
      then Ret (endReconcile None ReconcileActionSelectorMismatch, s)
      else
        '(relevantPods, err) ← findRelevantPods index (shards s) ppr;
        match err with
        | Some err => Ret (endReconcile (Some err) ReconcileActionNone, s)
        | None =>
            let statusIndex := Slices.FindInSliceWith (Cells (Status ppr))
              (λ status, bool_decide (CellId status = myCellId)) in
            if (statusIndex =? -1)%Z && (length relevantPods =? 0)%nat
            then Ret (endReconcile None ReconcileActionUpdated, s)
            else if (statusIndex =? -1)%Z then
              let cells := Cells (Status ppr) ++ [{| CellId := myCellId; Aggregation := zero; Buckets := [] |}] in
              reconcileCell queueItem ppr cells (length cells - 1) relevantPods s
            else reconcileCell queueItem ppr (Cells (Status ppr)) (Z.to_nat statusIndex) relevantPods s
        end
  end.

End history.

End aggregator.

End Aggregator.

(** ** Lemmas *)
Section counting.
Import Aggregator.

(** The status of a pod, whatever the requeue time. *)
Definition pod_status (minReadySeconds : Z) (item : Time * PodObject) : Pod.PodStatus :=
  let has t := existsb (λ c, bool_decide (ConditionType c = t) && bool_decide (ConditionStat c = ConditionTrue))
    (Conditions item.2) in
  {| Pod.IsScheduled := has PodScheduled; Pod.IsRunning := bool_decide (Phase item.2 = PodRunning);
     Pod.IsReady := has PodReady; Pod.IsAvailable := (Pod.IsPodAvailable item.1 item.2 minReadySeconds None).1 |}.

Lemma GetPodStatus_eq now pod minReadySeconds requeue :
  ∃ requeue', Pod.GetPodStatus now pod minReadySeconds (Some requeue) =
    Ret (pod_status minReadySeconds (now, pod), Some requeue').
Proof.
  unfold Pod.GetPodStatus, pod_status. rewrite !isPodConditionTrue_spec. simpl.
  unfold Pod.IsPodAvailable. repeat case_match; simplify_eq; simpl; eauto.
Qed.

Lemma foldl_incr {A} (f : A → bool) (l : list A) : ∀ z,
  (0 ≤ z)%Z → (z + Z.of_nat (length l) ≤ MaxInt32)%Z →
  foldl (λ z x, incr (f x) z) z l = (z + Z.of_nat (length (filter (λ x, f x = true) l)))%Z.
Proof.
  induction l as [|x l IH]; intros z Hz Hl; simpl in *; [lia|].
  unfold incr at 2. destruct (f x) eqn:Hx.
  - rewrite wrap32_id by (unfold in_int32, MinInt32, MaxInt32 in *; lia).
    rewrite IH by lia. rewrite filter_cons_True by done. simpl. lia.
  - rewrite IH by lia. by rewrite filter_cons_False by congruence.
Qed.

Definition no_replicas : replicaCounts := {| readyReplicas := 0; scheduledReplicas := 0; runningReplicas := 0;
  availableReplicas := 0; pendingReplicas := 0; unscheduledPendingReplicas := 0 |}%Z.

Lemma count_loop minReadySeconds (items : list (Time * PodObject)) : ∀ counts requeue,
  let st := pod_status minReadySeconds in
  let pending (item : Time * PodObject) := bool_decide (Phase item.2 = PodPending) in
  ∃ requeue', outcome_foldl (countPod minReadySeconds) (counts, requeue) items = Ret ({|
    readyReplicas := foldl (λ z x, incr (Pod.IsReady (st x)) z) (readyReplicas counts) items;
    scheduledReplicas := foldl (λ z x, incr (Pod.IsScheduled (st x)) z) (scheduledReplicas counts) items;
    runningReplicas := foldl (λ z x, incr (Pod.IsRunning (st x)) z) (runningReplicas counts) items;
    availableReplicas := foldl (λ z x, incr (Pod.IsAvailable (st x)) z) (availableReplicas counts) items;
    pendingReplicas := foldl (λ z x, incr (pending x) z) (pendingReplicas counts) items;
    unscheduledPendingReplicas := foldl (λ z x, incr (pending x && bool_decide (NodeName x.2 = "")) z)
      (unscheduledPendingReplicas counts) items |}, requeue').
Proof.
  induction items as [|[now pod] items IH]; intros counts requeue; simpl.
  { exists requeue. by destruct counts. }
  destruct (GetPodStatus_eq now pod minReadySeconds requeue) as [rq ->]. simpl. apply IH.
Qed.

(** Assigning a field records exactly its change. *)
Lemma HasChanged_Assign {T} `{EqDecision T} changed (dst src : T) cause :
  cause ≠ 0%Z → (HasChange.Assign changed dst src cause).1 = src ∧
  HasChange.HasChanged (HasChange.Assign changed dst src cause).2 =
    HasChange.HasChanged changed || negb (bool_decide (dst = src)).
Proof.
  intros Hc. unfold HasChange.Assign, HasChange.HasChanged. case_bool_decide; simpl; [by rewrite orb_false_r|].
  split; [done|]. rewrite orb_true_r. apply negb_true_iff, Z.eqb_neq. rewrite Z.lor_eq_0_iff. naive_solver.
Qed.

Lemma HasChanged_assignOptional changed target value cause :
  cause ≠ 0%Z → (assignOptionalInt32 changed target value cause).1 = Some value ∧
  HasChange.HasChanged (assignOptionalInt32 changed target value cause).2 =
    HasChange.HasChanged changed || negb (bool_decide (target = Some value)).
Proof.
  intros Hc. unfold assignOptionalInt32, HasChange.Add, HasChange.HasChanged.
  case_bool_decide; simpl; [by rewrite orb_false_r|].
  split; [done|]. rewrite orb_true_r. apply negb_true_iff, Z.eqb_neq. rewrite Z.lor_eq_0_iff. naive_solver.
Qed.

Lemma HasChanged_Add changed cause : cause ≠ 0%Z → HasChange.HasChanged (HasChange.Add changed cause) = true.
Proof.
  intros Hc. unfold HasChange.HasChanged, HasChange.Add. simpl. apply negb_true_iff, Z.eqb_neq.
  rewrite Z.lor_eq_0_iff. naive_solver.
Qed.

Lemma aggregation_eq_dec (a b : PodProtectorAggregation) :
  LastEventTime a = LastEventTime b →
  bool_decide (a = b) = bool_decide (TotalReplicas a = TotalReplicas b) &&
    (bool_decide (ReadyReplicas a = ReadyReplicas b) && (bool_decide (ScheduledReplicas a = ScheduledReplicas b) &&
    (bool_decide (RunningReplicas a = RunningReplicas b) && (bool_decide (AvailableReplicas a = AvailableReplicas b) &&
    (bool_decide (PendingReplicas a = PendingReplicas b) &&
     bool_decide (UnscheduledPendingReplicas a = UnscheduledPendingReplicas b)))))).
Proof.
  intros He. rewrite <- !bool_decide_and. apply bool_decide_ext. destruct a, b; simpl in *.
  split; [by intros [= -> -> -> -> -> -> -> ->]|naive_solver].
Qed.

(** The number of pods with a property, as an int32. *)
Definition count_pods {A} (f : A → bool) (l : list A) : Z := Z.of_nat (length (filter (λ x, f x = true) l)).

Definition aggregation_of (minReadySeconds : Z) (items : list (Time * PodObject)) (t : Time) :
    PodProtectorAggregation :=
  let st := pod_status minReadySeconds in
  let pending (item : Time * PodObject) := bool_decide (Phase item.2 = PodPending) in {|
    TotalReplicas := Z.of_nat (length items);
    AvailableReplicas := count_pods (λ x, Pod.IsAvailable (st x)) items;
    ReadyReplicas := count_pods (λ x, Pod.IsReady (st x)) items;
    ScheduledReplicas := count_pods (λ x, Pod.IsScheduled (st x)) items;
    RunningReplicas := count_pods (λ x, Pod.IsRunning (st x)) items;
    PendingReplicas := Some (count_pods pending items);
    UnscheduledPendingReplicas := Some (count_pods (λ x, pending x && bool_decide (NodeName x.2 = "")) items);
    LastEventTime := t |}.

Lemma aggregateStatus_eq clk pods ppr requeue target changed :
  (Z.of_nat (length pods) ≤ MaxInt32)%Z →
  ∃ changed' requeue',
    let target' := aggregation_of (MinReadySeconds (Spec ppr)) (imap (λ i pod, (clk i, pod)) pods) (LastEventTime target) in
    aggregateStatus clk pods ppr requeue target changed = Ret (target', changed', requeue', None) ∧
    HasChange.HasChanged changed' = HasChange.HasChanged changed || negb (bool_decide (target = target')).
Proof.
  intros Hlen. set (items := imap _ _). set (min := MinReadySeconds (Spec ppr)).
  assert (Hl : length items = length pods) by apply length_imap.
  unfold aggregateStatus. rewrite (proj2 (Z.ltb_ge _ _)) by done. fold items min.
  destruct (HasChanged_Assign changed (TotalReplicas target) (Z.of_nat (length pods)) StatusChangeCauseCreated) as [E1 C1]; [done|].
  destruct (HasChange.Assign changed (TotalReplicas target) _ _) as [v1 ch1]. simpl in E1, C1. subst v1.
  destruct (count_loop min items no_replicas requeue) as [rq Hloop]. fold no_replicas. rewrite Hloop. simpl.
  rewrite !foldl_incr by (rewrite ?Hl; lia).
  repeat match goal with
  | |- context [HasChange.Assign ?ch ?dst ?src ?cause] =>
      let E := fresh "E" in let C := fresh "C" in let v := fresh "v" in let ch' := fresh "ch" in
      destruct (HasChanged_Assign ch dst src cause) as [E C]; [done|];
      destruct (HasChange.Assign ch dst src cause) as [v ch']; simpl in E, C; subst v
  | |- context [assignOptionalInt32 ?ch ?dst ?src ?cause] =>
      let E := fresh "E" in let C := fresh "C" in let v := fresh "v" in let ch' := fresh "ch" in
      destruct (HasChanged_assignOptional ch dst src cause) as [E C]; [done|];
      destruct (assignOptionalInt32 ch dst src cause) as [v ch']; simpl in E, C; subst v
  end.
  eexists _, rq. rewrite <- Hl. split; [done|].
  repeat match goal with C : HasChange.HasChanged ?ch = _ |- context [HasChange.HasChanged ?ch] => rewrite C end.
  rewrite aggregation_eq_dec by done. unfold aggregation_of, count_pods. cbn [TotalReplicas ReadyReplicas
    ScheduledReplicas RunningReplicas AvailableReplicas PendingReplicas UnscheduledPendingReplicas].
  rewrite <- Hl. rewrite !negb_andb, !orb_assoc. done.
Qed.

End counting.

Section histories.
Import Aggregator.
Context (HashFNV32 : string → Z).
Implicit Types (b : PodProtectorAdmissionBucket) (times : lastEventTimeList).

(** The shard of the pod of a bucket, and the time up to which its events are known. *)
Definition bucket_shard (n : nat) b : option nat :=
  Optional.Map (Optional.IfNonZero (PodName b)) (getShardNumber HashFNV32 n).
Definition bucket_time times (n : nat) b : Time :=
  match bucket_shard n b with Some i => default (minTime times) (shardTimes times !! i) | None => minTime times end.

(** The aggregation has seen the effect of a bucket. *)
Definition obsolete times (n : nat) b : bool :=
  match PodUid b with
  | Some _ => time_Before (StartTime b) (bucket_time times n b)
  | None => match EndTime b with Some e => time_Before e (minTime times) | None => false end
  end.

(** A bucket waits for the events of shard [i]. *)
Definition waits_for times (n i : nat) b : bool :=
  let before := match shardTimes times !! i with Some t => time_Before t (StartTime b) | None => false end in
  match PodUid b, bucket_shard n b with
  | Some _, Some j => bool_decide (i = j)
  | _, _ => before
  end.

Lemma getShardNumber_lt n name : 0 < n → getShardNumber HashFNV32 n name < n.
Proof.
  intros Hn. unfold getShardNumber. pose proof (Z.mod_pos_bound (HashFNV32 name) (Z.of_nat n) ltac:(lia)). lia.
Qed.

Lemma bucket_shard_lt n b i : 0 < n → bucket_shard n b = Some i → i < n.
Proof.
  intros Hn. unfold bucket_shard. destruct (Optional.IfNonZero (PodName b)); [|done]. simpl.
  intros [= <-]. by apply getShardNumber_lt.
Qed.

(** What the marks of the shards are after a bucket is kept. *)
Definition marks (out out' : list bool) (f : nat → bool) : Prop :=
  length out' = length out ∧ ∀ i o, out !! i = Some o → out' !! i = Some (o || f i).

Lemma markBefore_marks times out t :
  length (shardTimes times) = length out →
  marks out (markBefore times t out)
    (λ i, match shardTimes times !! i with Some s => time_Before s t | None => false end).
Proof.
  intros Hlen. unfold markBefore. split; [rewrite length_zip_with; lia|].
  intros i o Ho. rewrite lookup_zip_with, Ho.
  destruct (lookup_lt_is_Some_2 (shardTimes times) i) as [s Hs]; [apply lookup_lt_Some in Ho; lia|].
  rewrite Hs. simpl. destruct (time_Before s t); by rewrite ?orb_true_r, ?orb_false_r.
Qed.

Lemma updateBucket_spec times n ch nb out b :
  0 < n → length (shardTimes times) = n → length out = n → bucket_ok b →
  ∃ out', updateBucket HashFNV32 n times (ch, nb, out) b =
      Ret (ch || obsolete times n b, nb ++ (if obsolete times n b then [] else [b]), out') ∧
    marks out out' (λ i, negb (obsolete times n b) && waits_for times n i b).
Proof.
  intros Hn Ht Ho Hok. unfold updateBucket, obsolete, waits_for, bucket_time.
  assert (Hmark0 : marks out out (λ _, false)) by (split; [done|]; intros i o ->; by rewrite orb_false_r).
  pose proof (markBefore_marks times out (StartTime b)) as Hmark.
  destruct (PodUid b) as [u|] eqn:Hu.
  - fold (bucket_shard n b). destruct (bucket_shard n b) as [j|] eqn:Hj; simpl.
    + pose proof (bucket_shard_lt n b j Hn Hj) as Hlt.
      destruct (lookup_lt_is_Some_2 (shardTimes times) j) as [t Hjt]; [lia|]. rewrite Hjt. simpl.
      destruct (time_Before (StartTime b) t); simpl.
      * eexists. rewrite orb_true_r, app_nil_r. done.
      * eexists. rewrite orb_false_r. split; [done|]. split; [by rewrite length_insert|].
        intros i o Hi. rewrite list_lookup_insert. rewrite Hi. destruct (decide (i = j)) as [->|Hne].
        -- rewrite decide_True by (split; [done|apply lookup_lt_Some in Hi; lia]).
           by rewrite bool_decide_eq_true_2, orb_true_r.
        -- rewrite decide_False by naive_solver. by rewrite bool_decide_eq_false_2, orb_false_r by done.
    + destruct (time_Before (StartTime b) (minTime times)); simpl.
      * eexists. rewrite orb_true_r, app_nil_r. done.
      * eexists. rewrite orb_false_r. split; [done|]. apply Hmark. lia.
  - destruct Hok as [[? ?]|[e He]]; [congruence|]. rewrite He.
    destruct (time_Before e (minTime times)); simpl.
    + eexists. rewrite orb_true_r, app_nil_r. done.
    + eexists. rewrite orb_false_r. split; [done|]. apply Hmark. lia.
Qed.

Lemma history_loop times n bs : ∀ ch nb out,
  0 < n → length (shardTimes times) = n → length out = n → Forall bucket_ok bs →
  ∃ out', outcome_foldl (updateBucket HashFNV32 n times) (ch, nb, out) bs =
      Ret (ch || existsb (obsolete times n) bs, nb ++ filter (λ b, obsolete times n b = false) bs, out') ∧
    marks out out' (λ i, existsb (λ b, negb (obsolete times n b) && waits_for times n i b) bs).
Proof.
  induction bs as [|b bs IH]; intros ch nb out Hn Ht Ho Hok; cbn [outcome_foldl existsb].
  { exists out. rewrite orb_false_r, app_nil_r. split; [done|]. split; [done|]. intros i o ->. by rewrite orb_false_r. }
  apply Forall_cons in Hok as [Hb Hok].
  destruct (updateBucket_spec times n ch nb out b Hn Ht Ho Hb) as (out1 & -> & Hl1 & Hm1). cbn [mbind outcome_bind].
  destruct (IH (ch || obsolete times n b) (nb ++ (if obsolete times n b then [] else [b])) out1 Hn Ht) as (out2 & -> & Hl2 & Hm2);
    [congruence|done|].
  exists out2. split.
  - do 2 f_equal; [f_equal; [by rewrite orb_assoc|]]. rewrite <- app_assoc. f_equal.
    destruct (obsolete times n b) eqn:Hob; [by rewrite filter_cons_False by congruence|by rewrite filter_cons_True by done].
  - split; [congruence|]. intros i o Hi. rewrite (Hm2 i _ (Hm1 i o Hi)). by rewrite orb_assoc.
Qed.

Lemma existsb_kept times n i bs :
  existsb (λ b, negb (obsolete times n b) && waits_for times n i b) bs =
    existsb (waits_for times n i) (filter (λ b, obsolete times n b = false) bs).
Proof.
  induction bs as [|b bs IH]; [done|]. simpl. destruct (obsolete times n b) eqn:Hb; simpl.
  - by rewrite filter_cons_False by congruence.
  - rewrite filter_cons_True by done. simpl. by rewrite IH.
Qed.

(** [updateLastEventTime] in closed form. *)
Lemma updateLastEventTime_eq pushNow shs key status changed times :
  shs ≠ [] → length (shardTimes times) = length shs → Forall bucket_ok (Buckets status) →
  let n := length shs in
  let kept := filter (λ b, obsolete times n b = false) (Buckets status) in
  ∃ shs', updateLastEventTime HashFNV32 pushNow shs key status changed times = Ret (
      if existsb (obsolete times n) (Buckets status)
      then (with_Buckets status kept, HasChange.Add changed StatusChangeCauseHistoryBucketAggregated, shs')
      else (status, changed, shs')) ∧
    length shs' = length shs ∧
    ∀ i sh, shs !! i = Some sh → shs' !! i = Some (
      if existsb (waits_for times n i) kept
      then with_pool sh (NextEventPool.Push pushNow key (notifyOnInformerEvent sh)) else sh).
Proof.
  intros Hne Ht Hok n kept.
  destruct (history_loop times n (Buckets status) false [] (replicate n false)) as (out & Hloop & Hlen & Hmarks);
    [subst n; destruct shs; [done|simpl; lia]|done|by rewrite length_replicate|done|].
  rewrite length_replicate in Hlen.
  unfold updateLastEventTime. fold n. rewrite Hloop. cbn [mbind outcome_bind orb app]. fold kept.
  assert (Hex : ∀ i, existsb (λ b, negb (obsolete times n b) && waits_for times n i b) (Buckets status) =
    existsb (waits_for times n i) kept).
  { intros i. apply existsb_kept. }
  eexists. split.
  { destruct (existsb (obsolete times n) (Buckets status)); done. }
  destruct (0 <? length kept) eqn:Hk.
  - split; [rewrite length_zip_with; subst n; lia|]. intros i sh Hi. rewrite lookup_zip_with, Hi. simpl.
    rewrite (Hmarks i false) by (apply lookup_replicate_2; apply lookup_lt_Some in Hi; done). simpl.
    by rewrite Hex.
  - split; [done|]. intros i sh Hi. apply Nat.ltb_ge in Hk. destruct kept; [done|simpl in Hk; lia].
Qed.

End histories.

Section finding_pods.
Context `{!GoRuntime}.
Import Aggregator.

Definition sets_new_represents : LabelIndex.represents (Sets.NewSets : Sets.Sets string) ∅ := sets_repr_new.
Definition pod_index_spec := Namespaced_IndexSpec LabelIndex.EmptyErrAdapter LabelIndex.ErrorErrAdapter
  Sets.NewSets sets_new_represents eq_refl.

(** An unlocked index represents the labels of the pods. *)
Definition pods_represent (i : SetsIndex) (m : gmap Namespaced.NamespacedName (gmap string string)) : Prop :=
  Locked.lock i = 0 ∧ LabelIndex.represents (IndexSpec := pod_index_spec) (Locked.index i) m.

Lemma pods_represent_new : pods_represent NewPodIndex ∅.
Proof. split; [done|apply namespaced_repr_new]. Qed.

(** The iterator over the pods of a namespace that a valid selector selects runs to its end
    whatever the consumer answers. *)
Lemma pod_query (i : Namespaced.Namespaced (Sets.Sets string)) m ns sel :
  LabelIndex.represents (IndexSpec := pod_index_spec) i m → valid_selector sel →
  ∃ it names, Namespaced.Query LabelIndex.ErrorErrAdapter i
      {| Namespaced.queryNamespace := ns; Namespaced.query := sel |} = Ret (Some it, None) ∧
    drains it names ∧ NoDup names ∧
    ∀ nn, nn ∈ names ↔ Namespaced.Namespace nn = ns ∧ ∃ labels, m !! nn = Some labels ∧ selector_selects sel labels.
Proof.
  intros Hrep Hsel. destruct (Hrep ns) as (mp & Hs & Hmp). unfold Namespaced.Query. simpl.
  destruct (Namespaced.namespaces i !! ns) as [ix|].
  - destruct (Sets_Query_spec ix mp sel Hmp Hsel) as (it & found & Hq & Hit & Hnd & Hin).
    unfold LabelIndex.Query. simpl. rewrite Hq. simpl.
    eexists _, ((λ n, {| Namespaced.Namespace := ns; Namespaced.Name := n |}) <$> found). split; [done|].
    split; [by apply drains_Map|]. split; [apply NoDup_fmap_2; [by intros ?? [= ->]|done]|].
    intros [ns' n]. rewrite list_elem_of_fmap. simpl. split.
    + intros (n' & [= -> ->] & (x & Hx & Hsx)%Hin). split; [done|]. exists x. by rewrite <- Hs.
    + intros (-> & x & Hx & Hsx). exists n. split; [done|]. apply Hin. exists x. by rewrite Hs.
  - simpl in Hmp. subst mp. eexists _, []. split; [done|]. split; [by intros S y s|]. split; [apply NoDup_nil_2|].
    intros [ns' n]. simpl. split; [by intros ?%not_elem_of_nil|]. intros (-> & x & Hx & _).
    specialize (Hs n). rewrite Hx in Hs. done.
Qed.

(** What the lister says of a pod name. *)
Definition pod_error (shs : list podInformerShard) (nn : Namespaced.NamespacedName) : option error :=
  (findPodFromAnyShard shs nn None).2.
Definition live_pod (shs : list podInformerShard) (nn : Namespaced.NamespacedName) : option PodObject :=
  match findPodFromAnyShard shs nn None with
  | (Some pod, None) => if IsZeroPtr (DeletionTimestamp (podMeta pod)) then Some pod else None
  | _ => None
  end.

Definition get_pod (shs : list podInformerShard) (podName : Namespaced.NamespacedName)
    (relevantPods : list PodObject) : outcome (list PodObject * option error) :=
  match findPodFromAnyShard shs podName None with
  | (_, Some err) => Ret (relevantPods, Some (TagWrapf "PodListerGet" (Some err) "get pod from lister"))
  | (Some pod, None) =>
      Ret (if IsZeroPtr (DeletionTimestamp (podMeta pod)) then relevantPods ++ [pod] else relevantPods, None)
  | (None, None) => Ret (relevantPods, None)
  end.

(** The error of the last name alone is left. *)
Lemma find_loop shs names :
  try_all (get_pod shs) [] names = Ret (omap (live_pod shs) names,
    (λ err, TagWrapf "PodListerGet" (Some err) "get pod from lister") <$> (last names ≫= pod_error shs)).
Proof.
  unfold try_all. induction names as [|nn names IH] using rev_ind; [done|].
  rewrite outcome_foldl_app, IH, omap_app, last_snoc. cbn [mbind outcome_bind outcome_foldl option_bind omap list_omap].
  unfold get_pod, live_pod, pod_error. destruct (findPodFromAnyShard shs nn None) as [[pod|] [e|]]; simpl;
    rewrite ?app_nil_r; try done. by destruct (IsZeroPtr _); rewrite ?app_nil_r.
Qed.

Lemma findRelevantPods_eq i shs ppr m :
  pods_represent i m → valid_selector (PprUtil.GetAggregationSelector ppr) →
  ∃ names, NoDup names ∧
    (∀ nn, nn ∈ names ↔ Namespaced.Namespace nn = Namespace (pprMeta ppr) ∧
      ∃ labels, m !! nn = Some labels ∧ selector_selects (PprUtil.GetAggregationSelector ppr) labels) ∧
    findRelevantPods i shs ppr = Ret
      match last names ≫= pod_error shs with
      | Some err => ([], Some (TagWrapf "PodListerGet" (Some err) "get pod from lister"))
      | None => (omap (live_pod shs) names, None)
      end.
Proof.
  intros [Hlock Hrep] Hsel.
  destruct (pod_query (Locked.index i) m (Namespace (pprMeta ppr)) _ Hrep Hsel) as (it & names & Hq & Hit & Hnd & Hin).
  exists names. split; [done|]. split; [done|]. unfold findRelevantPods, Locked.Query, LabelIndex.Query. simpl.
  rewrite Hq. simpl.
  match goal with |- context [Iter.TryForEach ?it' ?f ?s] =>
    assert (Iter.TryForEach it' f s = try_all (get_pod shs) [] names) as -> end.
  { apply drains_TryForEach. intros S y s. simpl. rewrite Hit.
    match goal with |- context [outcome_foldl ?F s names] => destruct (outcome_foldl F s names) end; done. }
  rewrite find_loop. simpl. by destruct (last names ≫= pod_error shs).
Qed.

End finding_pods.

(** Rewrite the run of [Summarize] in the goal by an equation for a convertible one. *)
Ltac summarized H :=
  match type of H with ?L = _ =>
    match goal with |- context [PprUtil.Summarize ?c ?p] => change (PprUtil.Summarize c p) with L end
  end; rewrite H; simpl.

Section reconciling.
Context `{!GoRuntime}.
Import Aggregator.

(** The slot of the cell, or the slot that is appended for it. *)
Definition cell_slot (my : string) (cells pre : list PodProtectorCellStatus) (status : PodProtectorCellStatus)
    (post : list PodProtectorCellStatus) : Prop :=
  CellId status = my ∧ Forall (λ c, CellId c ≠ my) pre ∧
  (cells = pre ++ status :: post ∨
   cells = pre ∧ post = [] ∧ status = {| CellId := my; Aggregation := zero; Buckets := [] |}).

(** The first cell that [tryReconcile] picks, with the branch that it takes. *)
Lemma reconcile_slot my cells :
  ∃ pre status post, cell_slot my cells pre status post ∧
    let i := Slices.FindInSliceWith cells (λ c, bool_decide (CellId c = my)) in
    ((i =? -1)%Z = true ∧ cells = pre ∧ post = [] ∧ status = {| CellId := my; Aggregation := zero; Buckets := [] |} ∨
     (i =? -1)%Z = false ∧ cells = pre ++ status :: post ∧ Z.to_nat i = length pre).
Proof.
  destruct (FindInSliceWith_spec cells (λ c, bool_decide (CellId c = my))) as [[-> Hnone]|(i & -> & (c & Hi & Hc) & Hlt)].
  - exists cells, {| CellId := my; Aggregation := zero; Buckets := [] |}, []. split; [|by left].
    split; [done|]. split; [|by right]. apply Forall_forall. intros c Hc. specialize (Hnone c Hc).
    by apply bool_decide_eq_false in Hnone.
  - exists (take i cells), c, (drop (S i) cells). apply bool_decide_eq_true in Hc.
    pose proof (lookup_lt_Some _ _ _ Hi). split.
    + split; [done|]. split; [|left; by rewrite take_drop_middle]. apply Forall_forall. intros c' Hc'.
      apply list_elem_of_lookup in Hc' as [j Hj]. apply lookup_take_Some in Hj as [Hj Hji].
      specialize (Hlt j c' Hji Hj). by apply bool_decide_eq_false in Hlt.
    + right. split; [apply Z.eqb_neq; lia|]. split; [by rewrite take_drop_middle|]. rewrite length_take. lia.
Qed.

Lemma lastEventTimes_length shs times : lastEventTimes shs = Some times → length times = length shs.
Proof.
  revert times. induction shs as [|sh shs IH]; intros times Ht; simpl in Ht; [by simplify_eq|].
  destruct (informerSyncReader sh); [|done]. destruct (lastEventTimes shs); simplify_eq/=. by rewrite IH.
Qed.

(** The least of the last event times. *)
Lemma min_time (times : list Time) :
  times ≠ [] → ∃ t, Iter.Extremum (Iter.FromSlice times) time_After = Ret (Some t) ∧ t ∈ times ∧
    ∀ t', t' ∈ times → (t ≤ t')%Z.
Proof.
  intros Hne. unfold Iter.Extremum. erewrite visits_Fold by apply pushes_visits, FromSlice_pushes.
  destruct times as [|t0 times]; [done|]. clear Hne. simpl.
  revert t0. induction times as [|t1 times IH]; intros t0; simpl.
  { exists t0. split; [done|]. split; [left|]. by intros t' ->%list_elem_of_singleton. }
  unfold time_After at 2.
  destruct (Z.ltb_spec t1 t0) as [Hlt|Hge].
  - destruct (IH t1) as (t & -> & Hin & Hmin). exists t. split; [done|]. split; [by right|].
    intros t' [->|Ht']%elem_of_cons; [|by apply Hmin]. specialize (Hmin t1 ltac:(left)). lia.
  - destruct (IH t0) as (t & -> & Hin & Hmin). exists t. split; [done|]. split.
    + apply elem_of_cons in Hin as [->|Hin]; [left|do 2 right; done].
    + intros t' [->|[->|Ht']%elem_of_cons]%elem_of_cons; [apply Hmin; left| |apply Hmin; by right].
      specialize (Hmin t0 ltac:(left)). lia.
Qed.

Lemma keep_all_buckets times HashFNV32 n bs :
  existsb (obsolete HashFNV32 times n) bs = false → filter (λ b, obsolete HashFNV32 times n b = false) bs = bs.
Proof.
  induction bs as [|b bs IH]; simpl; [done|]. intros [Hb Hbs]%orb_false_iff.
  rewrite filter_cons_True by done. by rewrite IH.
Qed.

Context (HashFNV32 : string → Z) {W : Type} (UpdateStatus : string → PodProtector → W → option error * W)
  (clk : nat → Time) (pushNow : Time) (defaultConfig : DefaultConfig.Options).

(** What a reconciliation makes of the status of its cell, and whether that is a change. *)
Definition reconciled (ppr : PodProtector) (pods : list PodObject) (times : lastEventTimeList)
    (status : PodProtectorCellStatus) : PodProtectorCellStatus := {|
  CellId := CellId status;
  Aggregation := aggregation_of (MinReadySeconds (Spec ppr)) (imap (λ i pod, (clk i, pod)) pods) (minTime times);
  Buckets := filter (λ b, obsolete HashFNV32 times (length (shardTimes times)) b = false) (Buckets status) |}.
Definition reconcile_changes (ppr : PodProtector) (pods : list PodObject) (times : lastEventTimeList)
    (status : PodProtectorCellStatus) : bool :=
  negb (bool_decide (Aggregation status = aggregation_of (MinReadySeconds (Spec ppr))
    (imap (λ i pod, (clk i, pod)) pods) (LastEventTime (Aggregation status)))) ||
  existsb (obsolete HashFNV32 times (length (shardTimes times))) (Buckets status).

Lemma reconcileCell_spec key ppr pre status post pods (s : reconcileState (W := W)) ts :
  let cells := pre ++ status :: post in
  let config := DefaultConfig.Compute defaultConfig (Some (HistoryConfig (Spec ppr))) in
  (1 ≤ DefaultConfig.CompactThreshold config)%Z → cells_ok cells →
  (Z.of_nat (length pods) ≤ MaxInt32)%Z → shards s ≠ [] → lastEventTimes (shards s) = Some ts →
  ∃ min e s', min ∈ ts ∧ (∀ t, t ∈ ts → (min ≤ t)%Z) ∧
    let times := {| shardTimes := ts; minTime := min |} in
    reconcileCell HashFNV32 UpdateStatus clk pushNow defaultConfig key ppr cells (length pre) pods s = Ret (e, s') ∧
    HasChange.HasChanged (HasChange e) = reconcile_changes ppr pods times status ∧
    if reconcile_changes ppr pods times status then
      ∃ ppr', PprUtil.Summarize config (with_Cells ppr (pre ++ reconciled ppr pods times status :: post)) = Ret ppr' ∧
        world s' = (UpdateStatus (Informer.SourceName key) ppr' (world s)).2 ∧
        (Err e = None ↔ (UpdateStatus (Informer.SourceName key) ppr' (world s)).1 = None)
    else world s' = world s ∧ Err e = None.
Proof.
  intros cells config Hthr Hok Hlen Hne Hts.
  assert (Hne' : ts ≠ []) by (intros ->; apply lastEventTimes_length in Hts; by destruct (shards s)).
  destruct (min_time ts Hne') as (min & Hmin & Hin & Hle).
  destruct (aggregateStatus_eq clk pods ppr None (Aggregation status) HasChange.New Hlen) as (ch & rq & Hagg & Hch).
  set (agg := aggregation_of _ _ _) in Hagg, Hch.
  pose proof (lastEventTimes_length _ _ Hts) as Htl.
  assert (Hbk : Forall bucket_ok (Buckets (with_Aggregation status agg))).
  { apply (Hok status). subst cells. set_solver. }
  destruct (updateLastEventTime_eq HashFNV32 pushNow (shards s) key (with_Aggregation status agg) ch
    {| shardTimes := ts; minTime := min |} Hne Htl Hbk) as (shs' & Hupd & _).
  simpl in Hupd. rewrite <- Htl in Hupd.
  exists min. unfold reconcileCell. subst cells. rewrite list_lookup_middle, Hagg by done. simpl.
  rewrite Hts, Hmin. simpl. rewrite Hupd. clear Hupd Hagg.
  assert (Hok' : cells_ok (pre ++ reconciled ppr pods {| shardTimes := ts; minTime := min |} status :: post)).
  { intros c [Hc|[->|Hc]%elem_of_cons]%elem_of_app; [apply Hok; set_solver| |apply Hok; set_solver].
    simpl in Hbk |- *. rewrite Forall_forall in Hbk. apply Forall_forall. intros b [_ Hb]%list_elem_of_filter. by apply Hbk. }
  destruct (Summarize_eq config (with_Cells ppr (pre ++ reconciled ppr pods {| shardTimes := ts; minTime := min |} status :: post))
    Hthr Hok') as (cells' & Hsum & _).
  set (ppr' := with_Status _ _) in Hsum.
  assert (Hslot : ∀ x, <[length pre := x]> (pre ++ status :: post) = pre ++ x :: post).
  { intros x. by rewrite insert_app_r_alt, Nat.sub_diag by lia. }
  unfold reconcile_changes. fold agg. simpl in Hch |- *.
  destruct (existsb _ (Buckets status)) eqn:Hobs; simpl.
  - rewrite (HasChanged_Add ch) by done. simpl. rewrite Hslot, orb_true_r.
    summarized Hsum.
    destruct (UpdateStatus (Informer.SourceName key) ppr' (world s)) as [err w'] eqn:Hu. eexists _, _.
    split; [done|]. split; [done|]. split; [done|].
    split; [by destruct err; simpl; rewrite HasChanged_Add|].
    exists ppr'. split; [done|]. rewrite Hu. split; [done|]. by destruct err.
  - rewrite orb_false_r, Hch. destruct (negb (bool_decide (Aggregation status = agg))) eqn:Hc; simpl.
    + rewrite Hslot. pose proof Hsum as Hsum'. unfold reconciled in Hsum'. simpl in Hsum'.
      rewrite keep_all_buckets in Hsum' by done. summarized Hsum'.
      destruct (UpdateStatus (Informer.SourceName key) ppr' (world s)) as [err w'] eqn:Hu. eexists _, _.
      split; [done|]. split; [done|]. split; [done|].
      split; [destruct err; simpl; congruence|].
      exists ppr'. split; [done|]. rewrite Hu. split; [done|]. by destruct err.
    + eexists _, _. split; [done|]. split; [done|]. split; [done|]. simpl. split; [congruence|done].
Qed.

End reconciling.
