(* ===== verification/AggregatorCorrect.v ===== *)
(** * AggregatorCorrect: what the handler of pod events and the reconciliation guarantee

    The properties of the components of [Aggregator]: the handler keeps the index of the pods
    and queues every PodProtector that may be affected; a reconciliation writes the counts of
    the live pods of the cell and removes exactly the admissions that these counts account for. *)

From S2P Require Import Prelude Util Errors Iter Canonical SetTrie LabelIndex Api PprUtil Informer Aggregator.

Section handler_lemmas.
Context `{!GoRuntime, !KubeErrors}.
Import Aggregator.

(** The index after an event of a pod. *)
Definition pods_after (pod : PodObject) (stillPresent : bool)
    (m : gmap Namespaced.NamespacedName (gmap string string)) : gmap Namespaced.NamespacedName (gmap string string) :=
  let nn := {| Namespaced.Namespace := Namespace (podMeta pod); Namespaced.Name := Name (podMeta pod) |} in
  if stillPresent then <[nn := Labels (podMeta pod)]> m else delete nn m.

Lemma track_pod (i : SetsIndex) m nn labels :
  pods_represent i m →
  ∃ i' e, Locked.Track (H := sets_index_instance) i nn labels = Some (Ret (i', e)) ∧
    pods_represent i' (<[nn := labels]> m).
Proof.
  intros [Hl Hr]. destruct i as [k ix]. simpl in Hl. subst k.
  destruct (LabelIndex.Track_spec (IndexSpec := pod_index_spec) ix m nn labels Hr I) as (ix' & e & Ht & _ & Hr').
  exists {| Locked.lock := 0; Locked.index := ix' |}, e. split; [|done].
  unfold Locked.Track. simpl. unfold sets_index_instance. simpl in Ht |- *. by rewrite Ht.
Qed.

Lemma untrack_pod (i : SetsIndex) m nn :
  pods_represent i m →
  ∃ i' b, Locked.Untrack (H := sets_index_instance) i nn = Some (Ret (i', b)) ∧ pods_represent i' (delete nn m).
Proof.
  intros [Hl Hr]. destruct i as [k ix]. simpl in Hl. subst k.
  destruct (LabelIndex.Untrack_spec (IndexSpec := pod_index_spec) ix m nn Hr) as (ix' & Ht & Hr').
  eexists {| Locked.lock := 0; Locked.index := ix' |}, _. split; [|done].
  unfold Locked.Untrack. simpl. unfold sets_index_instance. simpl in Ht |- *. by rewrite Ht.
Qed.

(** The loop that queues the triggered keys: one entry for each, in their order. *)
Lemma enqueue_loop Get jitter defaultConfig (delay : Informer.PodProtectorKey → Duration) keys : ∀ queue,
  (∀ key queue, enqueueDelayed Get jitter defaultConfig key queue = Ret (queue ++ [(key, delay key)])) →
  outcome_foldl (λ queue nsName, enqueueDelayed Get jitter defaultConfig nsName queue) queue keys =
    Ret (queue ++ ((λ key, (key, delay key)) <$> keys)).
Proof.
  induction keys as [|key keys IH]; intros queue Hq; cbn [outcome_foldl fmap list_fmap]; [by rewrite app_nil_r|].
  rewrite Hq. cbn [mbind outcome_bind]. rewrite IH by done. by rewrite <- app_assoc.
Qed.

(** The delay of a key: the jittered aggregation rate of its PodProtector. *)
Definition key_delay (lister : Informer.PodProtectorKey → option PodProtector * option error)
    (jitter : Duration → Duration) (defaultConfig : DefaultConfig.Options) (key : Informer.PodProtectorKey) : Duration :=
  jitter (DefaultConfig.AggregationRate (DefaultConfig.Compute defaultConfig
    match lister key with
    | (Some ppr, None) => Some (HistoryConfig (Spec ppr))
    | _ => None
    end)).

Lemma enqueueDelayed_delay lister jitter defaultConfig key queue :
  enqueueDelayed (λ key, Ret (lister key)) jitter defaultConfig key queue =
    Ret (queue ++ [(key, key_delay lister jitter defaultConfig key)]).
Proof. unfold enqueueDelayed, key_delay. simpl. by destruct (lister key) as [[ppr|] [e|]]. Qed.

Lemma elem_of_foldl_union (matched : list Informer.PodProtectorKey) k : ∀ out : gset Informer.PodProtectorKey,
  k ∈ foldl (λ out ppr, {[ppr]} ∪ out) out matched ↔ k ∈ out ∨ k ∈ matched.
Proof. induction matched as [|x l IH]; intros out; simpl; [set_solver|]. rewrite IH. set_solver. Qed.

End handler_lemmas.

Section sync_lemmas.

(** The loop of the notifier on the time of the last event never takes it back, and leaves a
    time that is not before the one that it was called with, whatever the other threads do
    that do not take it back. *)
Definition no_earlier (old new : option Time) : Prop :=
  match old, new with Some o, Some n => (o ≤ n)%Z | None, _ => True | Some _, None => False end.

Lemma no_earlier_refl t : no_earlier t t.
Proof. destruct t; simpl; lia. Qed.
Lemma no_earlier_trans t u v : no_earlier t u → no_earlier u v → no_earlier t v.
Proof. destruct t, u, v; simpl; intros; try lia; done. Qed.

Lemma notify_extrema new interference : ∀ old,
  Forall (λ env, ∀ t, no_earlier t (env t)) interference →
  let r := Atomics.AtomicExtrema SyncTime.rightIsLater (Some new) interference old in
  no_earlier old r.1 ∧ no_earlier (Some new) r.1.
Proof.
  induction interference as [|env l IH]; intros old He; simpl.
  - destruct (SyncTime.rightIsLater old (Some new)) eqn:Hr; simpl.
    + split; [|apply (no_earlier_refl (Some new))]. destruct old as [o|]; [|done]. simpl in *.
      unfold time_After in Hr. lia.
    + split; [apply no_earlier_refl|]. destruct old as [o|]; simpl in *; [|done].
      unfold time_After in Hr. lia.
  - apply Forall_cons in He as [He Hl].
    destruct (SyncTime.rightIsLater old (Some new)) eqn:Hr; simpl.
    + case_bool_decide as Hc; simpl.
      * split; [|apply (no_earlier_refl (Some new))]. destruct old as [o|]; [|done]. simpl in *.
        unfold time_After in Hr. lia.
      * destruct (IH (env old) Hl) as [H1 H2]. split; [|done]. eapply no_earlier_trans; [apply He|done].
    + split; [apply no_earlier_refl|]. destruct old as [o|]; simpl in *; [|done].
      unfold time_After in Hr. lia.
Qed.

End sync_lemmas.

(** ** Properties *)

(** C18. The handler of a pod event, while the informer lists PodProtectors with [lister] and the
    pod matches [matched]. The index represents the pods with this one added, updated or
    removed; the time of the last event of the shard does not go back and is not before the
    time of this event; the pool of the PodProtectors that waited for an event is empty; and
    exactly the ones that waited or that match are added to the queue, once each, after the
    jittered aggregation rate of their configuration. *)
Theorem handlePod_correct `{!GoRuntime, !KubeErrors} (Interpret : SyncTime.PodInterpreter)
    (interference : list (option Time → option Time))
    (Query : string → gmap string string → outcome (list Informer.PodProtectorKey))
    (lister : Informer.PodProtectorKey → option PodProtector * option error)
    (jitter : Duration → Duration) (defaultConfig : DefaultConfig.Options) (now since t : Time)
    (pod : PodObject) (stillPresent : bool) (s : Aggregator.eventState)
    (m : gmap Namespaced.NamespacedName (gmap string string)) (matched : list Informer.PodProtectorKey) :
  pods_represent (Aggregator.podIndex s) m → Interpret pod = Ret (inl t) →
  Forall (λ env, ∀ t, no_earlier t (env t)) interference →
  Query (Namespace (podMeta pod)) (Labels (podMeta pod)) = Ret matched →
  ∃ s' keys, Aggregator.handlePod Interpret interference Query (λ key, Ret (lister key)) jitter defaultConfig now since
      pod stillPresent s = Some (Ret (s', None)) ∧
    pods_represent (Aggregator.podIndex s') (pods_after pod stillPresent m) ∧
    no_earlier (Aggregator.lastInformerSync s) (Aggregator.lastInformerSync s') ∧
    no_earlier (Some t) (Aggregator.lastInformerSync s') ∧
    NextEventPool.items (Aggregator.nextEvents s') = ∅ ∧
    Aggregator.queued s' = Aggregator.queued s ++ ((λ key, (key, key_delay lister jitter defaultConfig key)) <$> keys) ∧
    NoDup keys ∧ ∀ key, key ∈ keys ↔ key ∈ NextEventPool.items (Aggregator.nextEvents s) ∨ key ∈ matched.
Proof.
  intros Hrep Hint Henv Hq.
  destruct (notify_extrema t interference (Aggregator.lastInformerSync s) Henv) as [Ht1 Ht2].
  set (triggered := foldl (λ out ppr, {[ppr]} ∪ out) (NextEventPool.items (Aggregator.nextEvents s)) matched).
  assert (Hrun : ∃ i', (if stillPresent
      then fmap (λ run, '(index, _) ← run; Ret index) (Locked.Track (H := Aggregator.sets_index_instance)
        (Aggregator.podIndex s) {| Namespaced.Namespace := Namespace (podMeta pod);
          Namespaced.Name := Name (podMeta pod) |} (Labels (podMeta pod)))
      else fmap (λ run, '(index, _) ← run; Ret index) (Locked.Untrack (H := Aggregator.sets_index_instance)
        (Aggregator.podIndex s) {| Namespaced.Namespace := Namespace (podMeta pod);
          Namespaced.Name := Name (podMeta pod) |})) = Some (Ret i') ∧
      pods_represent i' (pods_after pod stillPresent m)).
  { destruct stillPresent.
    - destruct (track_pod _ m {| Namespaced.Namespace := Namespace (podMeta pod);
        Namespaced.Name := Name (podMeta pod) |} (Labels (podMeta pod)) Hrep) as (i' & e & -> & Hi). by exists i'.
    - destruct (untrack_pod _ m {| Namespaced.Namespace := Namespace (podMeta pod);
        Namespaced.Name := Name (podMeta pod) |} Hrep) as (i' & e & -> & Hi). by exists i'. }
  destruct Hrun as (i' & Hrun & Hi).
  exists {| Aggregator.podIndex := i';
    Aggregator.lastInformerSync := (Atomics.AtomicExtrema SyncTime.rightIsLater (Some t) interference
      (Aggregator.lastInformerSync s)).1;
    Aggregator.nextEvents := (NextEventPool.Drain now since (Aggregator.nextEvents s)).1;
    Aggregator.queued := Aggregator.queued s ++
      ((λ key, (key, key_delay lister jitter defaultConfig key)) <$> set_order triggered) |},
    (set_order triggered). split; [|split; [exact Hi|]].
  { unfold Aggregator.handlePod.
    match type of Hrun with ?L = _ =>
      match goal with |- mbind _ ?X = _ => change X with L end
    end.
    rewrite Hrun. cbn [mbind option_bind outcome_bind].
    unfold SyncTime.notifier. rewrite Hint. cbn [mbind outcome_bind]. rewrite Hq. cbn [mbind outcome_bind].
    cbn [NextEventPool.Drain]. fold triggered.
    rewrite (enqueue_loop _ _ _ (key_delay lister jitter defaultConfig)) by apply enqueueDelayed_delay. reflexivity. }
  simpl. split; [done|]. split; [done|]. split; [done|]. split; [done|]. split; [apply NoDup_set_order|].
  intros key. rewrite elem_of_set_order. apply elem_of_foldl_union.
Qed.

Definition example_aggregated_pod (name : string) (deleted : option Time) : PodObject := {|
  podMeta := {| Name := name; Namespace := "ns"; UID := name; ResourceVersion := "1"; CreationTimestamp := 1%Z;
    Labels := {[ "app" := "web" ]}; Annotations := ∅; Finalizers := []; OwnerReferences := []; DeletionTimestamp := deleted |};
  NodeName := "node"; Phase := PodRunning; Conditions := [] |}.
Definition example_event_key (name : string) : Informer.PodProtectorKey := {| Informer.SourceName := "";
  Informer.NsName := {| Namespaced.Namespace := "ns"; Namespaced.Name := name |} |}.

Lemma elem_of_pushed t k key :
  k ∈ NextEventPool.items (NextEventPool.Push t key NextEventPool.newNextEventPool) ↔ k = key.
Proof.
  change (k ∈ ({[key]} ∪ ∅ : gset Informer.PodProtectorKey) ↔ k = key).
  rewrite elem_of_union, elem_of_singleton. split; [intros [?|?%elem_of_empty]; done|by left].
Qed.

(** A PodProtector waited for an event, and another one matches the pod: both are queued. *)
Lemma handlePod_correct_witness :
  let pod := example_aggregated_pod "pod" None in
  let s := {| Aggregator.podIndex := Aggregator.NewPodIndex; Aggregator.lastInformerSync := Some 4%Z;
    Aggregator.nextEvents := NextEventPool.Push 3%Z (example_event_key "a") NextEventPool.newNextEventPool;
    Aggregator.queued := [] |} in
  ∃ s', Aggregator.handlePod (SyncTime.ClockPodInterpreter 5%Z) [] (λ _ _, Ret [example_event_key "b"])
      (λ _, Ret (None, None)) id DefaultConfig.default_options 5%Z 6%Z pod true s = Some (Ret (s', None)) ∧
    pods_represent (Aggregator.podIndex s') (pods_after pod true ∅) ∧
    ∃ keys, (Aggregator.queued s').*1 = keys ∧ ∀ key, key ∈ keys ↔ key = example_event_key "a" ∨ key = example_event_key "b".
Proof.
  intros pod s.
  destruct (handlePod_correct (SyncTime.ClockPodInterpreter 5%Z) [] (λ _ _, Ret [example_event_key "b"])
    (λ _, (None, None)) id DefaultConfig.default_options 5%Z 6%Z 5%Z pod true s ∅ [example_event_key "b"])
    as (s' & keys & H1 & H2 & _ & _ & _ & H3 & _ & H4); [apply pods_represent_new|done|by constructor|done|].
  exists s'. split; [exact H1|]. split; [exact H2|]. exists keys. split.
  - rewrite H3. simpl. rewrite <- list_fmap_compose. apply list_fmap_id.
  - intros key. rewrite H4, list_elem_of_singleton. split.
    + intros [Ha|Hb]; [left; by apply (elem_of_pushed 3%Z)|by right].
    + intros [Ha|Hb]; [left; by apply (elem_of_pushed 3%Z)|by right].
Defined.

(** C9. The update of the history of a cell from the times up to which each shard has seen the
    events. A bucket is removed exactly when the aggregation accounts for it: the time of the
    shard of its pod, or the least time if the shard is not known, is after its start, or for
    a compacted bucket the least time is after its end. The others are kept unchanged and in
    their order, the change mask records a removal, and the PodProtector waits for the next
    event of a shard exactly when a kept bucket belongs to the shard, or has an unknown shard
    and starts after the time of the shard. *)
Theorem updateLastEventTime_correct (HashFNV32 : string → Z) (pushNow : Time)
    (shards : list Aggregator.podInformerShard) (key : Informer.PodProtectorKey) (status : PodProtectorCellStatus)
    (changed : HasChange.Changed) (times : Aggregator.lastEventTimeList) :
  shards ≠ [] → length (Aggregator.shardTimes times) = length shards → Forall bucket_ok (Buckets status) →
  let n := length shards in
  ∃ status' changed' shards', Aggregator.updateLastEventTime HashFNV32 pushNow shards key status changed times =
      Ret (status', changed', shards') ∧
    status' = with_Buckets status (filter (λ b, obsolete HashFNV32 times n b = false) (Buckets status)) ∧
    (status' ≠ status → HasChange.HasChanged changed' = true) ∧
    (status' = status → changed' = changed) ∧
    length shards' = n ∧
    ∀ i sh, shards !! i = Some sh → ∃ sh', shards' !! i = Some sh' ∧
      (key ∈ NextEventPool.items (Aggregator.notifyOnInformerEvent sh') ↔
        key ∈ NextEventPool.items (Aggregator.notifyOnInformerEvent sh) ∨
        ∃ b, b ∈ Buckets status' ∧ waits_for HashFNV32 times n i b = true).
Proof.
  intros Hne Ht Hok n.
  destruct (updateLastEventTime_eq HashFNV32 pushNow shards key status changed times Hne Ht Hok) as (shs' & -> & Hlen & Hsh).
  fold n in Hsh |- *. set (kept := filter _ _) in Hsh |- *.
  assert (Hpool : ∀ i sh, shards !! i = Some sh → ∃ sh', shs' !! i = Some sh' ∧
      (key ∈ NextEventPool.items (Aggregator.notifyOnInformerEvent sh') ↔
        key ∈ NextEventPool.items (Aggregator.notifyOnInformerEvent sh) ∨
        ∃ b, b ∈ kept ∧ waits_for HashFNV32 times n i b = true)).
  { intros i sh Hi. eexists. split; [by apply Hsh|]. rewrite <- existsb_elem_of.
    destruct (existsb (waits_for HashFNV32 times n i) kept); simpl; set_solver. }
  destruct (existsb (obsolete HashFNV32 times n) (Buckets status)) eqn:Hob.
  - eexists _, _, shs'. split; [done|]. split; [done|]. split; [intros _; by apply HasChanged_Add|].
    split; [|by split]. intros Heq. exfalso. apply existsb_elem_of in Hob as (b & Hb & Hobs).
    assert (Hin : b ∈ kept) by (rewrite <- Heq in Hb; done).
    apply list_elem_of_filter in Hin as [? _]. congruence.
  - assert (Hkept : kept = Buckets status) by (by apply keep_all_buckets).
    exists status, changed, shs'. split; [done|]. rewrite Hkept in Hpool |- *. destruct status. split; [done|].
    by split.
Qed.

Definition example_shard (t : option Time) : Aggregator.podInformerShard := {|
  Aggregator.podLister := λ ns name, (if bool_decide (name = "gone") then None else
    Some (example_aggregated_pod name None), None);
  Aggregator.informerSyncReader := t; Aggregator.notifyOnInformerEvent := NextEventPool.newNextEventPool |}.
Definition example_times (l : list Time) (min : Time) : Aggregator.lastEventTimeList :=
  {| Aggregator.shardTimes := l; Aggregator.minTime := min |}.

(** Of two admissions, the one before the last event is removed, and the PodProtector waits
    for an event because of the other one. *)
Lemma updateLastEventTime_correct_witness :
  let key := example_event_key "ppr" in
  ∃ status' changed' shards', Aggregator.updateLastEventTime (λ _, 0%Z) 50%Z [example_shard (Some 20%Z)] key
      (example_cell 5 [example_bucket 10%Z "a"; example_bucket 30%Z "b"]) HasChange.New (example_times [20%Z] 20%Z) =
      Ret (status', changed', shards') ∧
    Buckets status' = [example_bucket 30%Z "b"] ∧
    ∃ sh', shards' !! 0 = Some sh' ∧ key ∈ NextEventPool.items (Aggregator.notifyOnInformerEvent sh').
Proof.
  intros key.
  destruct (updateLastEventTime_correct (λ _, 0%Z) 50%Z [example_shard (Some 20%Z)] key
    (example_cell 5 [example_bucket 10%Z "a"; example_bucket 30%Z "b"]) HasChange.New (example_times [20%Z] 20%Z))
    as (st & ch & shs & H1 & H2 & _ & _ & _ & H3); [done|done|repeat constructor; eexists; reflexivity|].
  exists st, ch, shs. split; [exact H1|]. subst st. split; [reflexivity|].
  destruct (H3 0 (example_shard (Some 20%Z)) eq_refl) as (sh' & Hsh & Hin). exists sh'. split; [exact Hsh|].
  apply Hin. right. exists (example_bucket 30%Z "b"). split; [vm_compute; left|reflexivity].
Defined.

(** A compacted bucket can be stranded: once every shard has seen the start of the bucket but
    some shard has not seen its end, the bucket is kept and no shard is told that the
    PodProtector waits for it, so that no pod event alone will have the bucket removed. *)
Theorem updateLastEventTime_strands_compact_bucket (HashFNV32 : string → Z) (pushNow : Time)
    (shards : list Aggregator.podInformerShard) (key : Informer.PodProtectorKey) (status : PodProtectorCellStatus)
    (changed : HasChange.Changed) (times : Aggregator.lastEventTimeList) (b : PodProtectorAdmissionBucket) (e : Time) :
  shards ≠ [] → length (Aggregator.shardTimes times) = length shards →
  PodUid b = None → EndTime b = Some e → Buckets status = [b] →
  (∀ t, t ∈ Aggregator.shardTimes times → (StartTime b ≤ t)%Z) → (Aggregator.minTime times ≤ e)%Z →
  Aggregator.updateLastEventTime HashFNV32 pushNow shards key status changed times = Ret (status, changed, shards).
Proof.
  intros Hne Ht Hu He Hbs Hstart Hend.
  assert (Hok : Forall bucket_ok (Buckets status)).
  { rewrite Hbs. constructor; [right; by eexists|constructor]. }
  destruct (updateLastEventTime_eq HashFNV32 pushNow shards key status changed times Hne Ht Hok) as (shs' & Heq & Hlen & Hsh).
  assert (Hob : obsolete HashFNV32 times (length shards) b = false).
  { unfold obsolete. rewrite Hu, He. unfold time_Before. lia. }
  rewrite Hbs in Heq, Hsh. simpl in Heq. rewrite Hob in Heq. simpl in Heq. rewrite Heq.
  do 2 f_equal. apply list_eq. intros i. destruct (shards !! i) as [sh|] eqn:Hi.
  - rewrite (Hsh i sh Hi). rewrite filter_cons_True by done. cbn [filter list_filter existsb].
    unfold waits_for. rewrite Hu. destruct (Aggregator.shardTimes times !! i) as [t|] eqn:Hti; [|done].
    unfold time_Before. apply list_elem_of_lookup_2, Hstart in Hti.
    by rewrite (proj2 (Z.ltb_ge _ _)).
  - apply lookup_ge_None_2. apply lookup_ge_None_1 in Hi. lia.
Qed.

Lemma updateLastEventTime_strands_compact_bucket_witness :
  let b := {| StartTime := 10%Z; PodName := ""; PodUid := None; EndTime := Some 30%Z; Counter := Some 2%Z |} in
  Aggregator.updateLastEventTime (λ _, 0%Z) 50%Z [example_shard (Some 20%Z)] (example_event_key "ppr")
    (example_cell 5 [b]) HasChange.New (example_times [20%Z] 20%Z) =
  Ret (example_cell 5 [b], HasChange.New, [example_shard (Some 20%Z)]).
Proof.
  intros b. apply (updateLastEventTime_strands_compact_bucket _ _ _ _ _ _ _ b 30%Z); try reflexivity; [done| |].
  - intros t ->%list_elem_of_singleton. vm_compute. discriminate.
  - vm_compute. discriminate.
Defined.

(** The counts of a reconciliation. More than 2^31-1 pods are an error that changes nothing;
    otherwise every count is the number of the pods with the property, judged at the reading of
    the clock for each pod, the last event time is left, and the change mask records a change
    exactly when a count differs from the one before. *)
Theorem aggregateStatus_correct (clk : nat → Time) (pods : list PodObject) (ppr : PodProtector)
    (requeue : option Duration) (target : PodProtectorAggregation) :
  if (MaxInt32 <? Z.of_nat (length pods))%Z
  then Aggregator.aggregateStatus clk pods ppr requeue target HasChange.New =
    Ret (target, HasChange.New, requeue, Some (TagErrorf "TooManyRelevantPods" "more than 2^31 pods"))
  else ∃ target' changed requeue',
    Aggregator.aggregateStatus clk pods ppr requeue target HasChange.New = Ret (target', changed, requeue', None) ∧
    let count f := Z.of_nat (length (filter (λ x, f x = true) (imap (λ i pod, (clk i, pod)) pods))) in
    TotalReplicas target' = Z.of_nat (length pods) ∧
    AvailableReplicas target' =
      count (λ x, (Pod.IsPodAvailable x.1 x.2 (MinReadySeconds (Spec ppr)) None).1) ∧
    RunningReplicas target' = count (λ x, bool_decide (Phase x.2 = PodRunning)) ∧
    ReadyReplicas target' = count (λ x, existsb (λ c, bool_decide (ConditionType c = PodReady) &&
      bool_decide (ConditionStat c = ConditionTrue)) (Conditions x.2)) ∧
    ScheduledReplicas target' = count (λ x, existsb (λ c, bool_decide (ConditionType c = PodScheduled) &&
      bool_decide (ConditionStat c = ConditionTrue)) (Conditions x.2)) ∧
    PendingReplicas target' = Some (count (λ x, bool_decide (Phase x.2 = PodPending))) ∧
    UnscheduledPendingReplicas target' =
      Some (count (λ x, bool_decide (Phase x.2 = PodPending) && bool_decide (NodeName x.2 = ""))) ∧
    LastEventTime target' = LastEventTime target ∧
    HasChange.HasChanged changed = negb (bool_decide (target = target')).
Proof.
  destruct (Z.ltb_spec MaxInt32 (Z.of_nat (length pods))) as [Hlt|Hge].
  - unfold Aggregator.aggregateStatus. by rewrite (proj2 (Z.ltb_lt _ _)).
  - destruct (aggregateStatus_eq clk pods ppr requeue target HasChange.New Hge) as (ch & rq & -> & Hch).
    eexists _, ch, rq. split; [done|]. simpl. rewrite length_imap. by repeat split.
Qed.

(** The sync time of a pod that is judged by its status: for a pod that is being deleted, the
    latest of its deletion, of the parsed time of its annotation and of the last probes of its
    conditions, or its creation instead of a zero deletion. For every other pod the code
    dereferences a nil pointer. *)
Theorem StatusPodInterpreter_correct (Parse : string → Time + error) (pod : PodObject) :
  let read := SyncTime.StatusPodInterpreter Parse pod in
  match DeletionTimestamp (podMeta pod) with
  | None => read = Panic "invalid memory address or nil pointer dereference"
  | Some deletion =>
      let base := if time_IsZero deletion then CreationTimestamp (podMeta pod) else deletion in
      let candidate t := t = base ∨
        (∃ str, Annotations (podMeta pod) !! SyncTime.AnnotUpdateTriggerTime = Some str ∧ Parse str = inl t) ∨
        (∃ c, c ∈ Conditions pod ∧ t = LastProbeTime c) in
      ∃ t, read = Ret (inl t) ∧ candidate t ∧ ∀ t', candidate t' → (t' ≤ t)%Z
  end.
Proof.
  unfold SyncTime.StatusPodInterpreter. destruct (DeletionTimestamp (podMeta pod)) as [d|]; [|done].
  assert (Hloop : ∀ (cs : list PodCondition) (t0 : Time), let t := foldl (λ maxTime condition,
      if time_After (LastProbeTime condition) maxTime then LastProbeTime condition else maxTime) t0 cs in
    (t = t0 ∨ ∃ c, c ∈ cs ∧ t = LastProbeTime c) ∧ (t0 ≤ t)%Z ∧ ∀ c, c ∈ cs → (LastProbeTime c ≤ t)%Z).
  { induction cs as [|c cs IH]; intros t0; simpl; [split; [by left|]; split; [lia|by intros c ?%not_elem_of_nil]|].
    destruct (IH (if time_After (LastProbeTime c) t0 then LastProbeTime c else t0)) as (H1 & H2 & H3).
    revert H1 H2 H3. unfold time_After. destruct (Z.ltb_spec t0 (LastProbeTime c)); intros H1 H2 H3.
    - split; [right|]. { destruct H1 as [->|(c' & Hc & ->)]; [exists c|exists c']; set_solver. }
      split; [lia|]. intros c' [->|Hc]%elem_of_cons; [lia|by apply H3].
    - split; [destruct H1 as [->|(c' & Hc & ->)]; [by left|right; exists c'; set_solver]|].
      split; [lia|]. intros c' [->|Hc]%elem_of_cons; [lia|by apply H3]. }
  set (base := if negb (time_IsZero d) then d else CreationTimestamp (podMeta pod)).
  replace (if time_IsZero d then CreationTimestamp (podMeta pod) else d) with base
    by (subst base; by destruct (time_IsZero d)).
  eexists. split; [done|]. simpl.
  destruct (Annotations (podMeta pod) !! SyncTime.AnnotUpdateTriggerTime) as [str|] eqn:Ha.
  - destruct (Parse str) as [u|err] eqn:Hp.
    + destruct (Hloop (Conditions pod) (if time_After u base then u else base)) as (H1 & H2 & H3).
      revert H1 H2 H3. unfold time_After. destruct (Z.ltb_spec base u); intros H1 H2 H3.
      * split; [destruct H1 as [->|H1]; eauto|].
        intros t' [->|[(str' & [= <-] & Hu)|(c & Hc & ->)]]; [lia|assert (u = t') as <- by congruence; lia|by apply H3].
      * split; [destruct H1 as [->|H1]; eauto|].
        intros t' [->|[(str' & [= <-] & Hu)|(c & Hc & ->)]]; [lia|assert (u = t') as <- by congruence; lia|by apply H3].
    + destruct (Hloop (Conditions pod) base) as (H1 & H2 & H3). split; [destruct H1 as [->|H1]; eauto|].
      intros t' [->|[(str' & [= <-] & Hu)|(c & Hc & ->)]]; [lia|congruence|by apply H3].
  - destruct (Hloop (Conditions pod) base) as (H1 & H2 & H3). split; [destruct H1 as [->|H1]; eauto|].
    intros t' [->|[(str' & [=] & Hu)|(c & Hc & ->)]]; [lia|by apply H3].
Qed.

Section reconcile_lemmas.
Context `{!GoRuntime}.
Import Aggregator.

Lemma length_names (names : list Namespaced.NamespacedName) (m : gmap Namespaced.NamespacedName (gmap string string)) :
  NoDup names → (∀ nn, nn ∈ names → is_Some (m !! nn)) → length names ≤ size m.
Proof.
  intros Hnd Hin. rewrite <- (size_list_to_set (C := gset _) names Hnd), <- (size_dom (D := gset _)).
  apply subseteq_size. intros nn Hnn%elem_of_list_to_set. by apply elem_of_dom, Hin.
Qed.

Lemma length_omap_le {A B} (f : A → option B) (l : list A) : length (omap f l) ≤ length l.
Proof.
  induction l as [|x l IH]; [done|]. rewrite omap_cons. destruct (f x); cbn [length]; lia.
Qed.

(** Whether some cell has the id. *)
Definition has_cell (id : string) (cells : list PodProtectorCellStatus) : bool :=
  existsb (λ c, bool_decide (CellId c = id)) cells.

Lemma has_cell_app id pre c post : CellId c = id → has_cell id (pre ++ c :: post) = true.
Proof. intros Hc. apply existsb_elem_of. exists c. rewrite bool_decide_eq_true. set_solver. Qed.

Lemma has_cell_none id cells : Forall (λ c, CellId c ≠ id) cells → has_cell id cells = false.
Proof.
  intros Hall. apply not_true_is_false. intros (c & Hc & Hd)%existsb_elem_of. apply bool_decide_eq_true in Hd.
  rewrite Forall_forall in Hall. by apply (Hall c).
Qed.

(** What a reconciliation of [ppr] is given, with [m] the pods of the index. *)
Record reconcile_ready {W : Type} (pprInformer_Get : Informer.PodProtectorKey → outcome (option PodProtector * option error))
    (Matches : gmap string string → bool) (defaultConfig : DefaultConfig.Options) (index : SetsIndex)
    (m : gmap Namespaced.NamespacedName (gmap string string)) (key : Informer.PodProtectorKey) (ppr : PodProtector)
    (s : reconcileState (W := W)) (ts : list Time) : Prop := {
  ready_get : pprInformer_Get key = Ret (Some ppr, None);
  ready_matches : Matches (Labels (pprMeta ppr)) = true;
  ready_index : pods_represent index m;
  ready_selector : valid_selector (PprUtil.GetAggregationSelector ppr);
  ready_pods : ∀ nn, is_Some (m !! nn) → pod_error (shards s) nn = None;
  ready_size : (Z.of_nat (size m) ≤ MaxInt32)%Z;
  ready_threshold : (1 ≤ DefaultConfig.CompactThreshold
    (DefaultConfig.Compute defaultConfig (Some (HistoryConfig (Spec ppr)))))%Z;
  ready_cells : cells_ok (Cells (Status ppr));
  ready_shards : shards s ≠ [];
  ready_times : lastEventTimes (shards s) = Some ts
}.

Lemma tryReconcile_spec (HashFNV32 : string → Z) {W : Type} pprInformer_Get Matches
    (UpdateStatus : string → PodProtector → W → option error * W) (clk : nat → Time) (pushNow : Time) (my : string)
    defaultConfig index m key ppr (s : reconcileState (W := W)) (ts : list Time) :
  let config := DefaultConfig.Compute defaultConfig (Some (HistoryConfig (Spec ppr))) in
  reconcile_ready pprInformer_Get Matches defaultConfig index m key ppr s ts →
  ∃ names pre status post min e s',
    NoDup names ∧ (∀ nn, nn ∈ names ↔ Namespaced.Namespace nn = Namespace (pprMeta ppr) ∧
      ∃ labels, m !! nn = Some labels ∧ selector_selects (PprUtil.GetAggregationSelector ppr) labels) ∧
    cell_slot my (Cells (Status ppr)) pre status post ∧ min ∈ ts ∧ (∀ t, t ∈ ts → (min ≤ t)%Z) ∧
    tryReconcile HashFNV32 pprInformer_Get Matches UpdateStatus clk pushNow my defaultConfig index key s =
      Ret (e, s') ∧
    let pods := omap (live_pod (shards s)) names in
    let times := {| shardTimes := ts; minTime := min |} in
    if (has_cell my (Cells (Status ppr)) || negb (length pods =? 0)) &&
       reconcile_changes HashFNV32 clk ppr pods times status
    then ∃ ppr', PprUtil.Summarize config (with_Cells ppr (pre ++ reconciled HashFNV32 clk ppr pods times status :: post)) =
          Ret ppr' ∧
        world s' = (UpdateStatus (Informer.SourceName key) ppr' (world s)).2 ∧
        (Err e = None ↔ (UpdateStatus (Informer.SourceName key) ppr' (world s)).1 = None)
    else world s' = world s ∧ Err e = None.
Proof.
  intros config [Hget Hmatch Hrep Hsel Herr Hsize Hthr Hok Hne Hts].
  destruct (findRelevantPods_eq index (shards s) ppr m Hrep Hsel) as (names & Hnd & Hin & Hfind).
  assert (Hlast : last names ≫= pod_error (shards s) = None).
  { destruct (last names) as [nn|] eqn:Hl; [|done]. simpl. apply Herr.
    apply last_Some_elem_of, Hin in Hl as (_ & labels & Hm & _). by eexists. }
  rewrite Hlast in Hfind. set (pods := omap (live_pod (shards s)) names) in *.
  assert (Hlen : (Z.of_nat (length pods) ≤ MaxInt32)%Z).
  { pose proof (length_omap_le (live_pod (shards s)) names).
    pose proof (length_names names m Hnd ltac:(intros nn (_ & l & Hm & _)%Hin; by eexists)). subst pods. lia. }
  destruct (reconcile_slot my (Cells (Status ppr))) as (pre & status & post & Hslot & Hcase).
  exists names, pre, status, post. unfold tryReconcile. rewrite Hget. cbn [mbind outcome_bind].
  rewrite Hmatch, Hfind. cbn [negb mbind outcome_bind].
  assert (Hcells : cells_ok (pre ++ status :: post)).
  { destruct Hslot as (_ & _ & [<-|(<- & -> & ->)]); [done|].
    intros c [Hc| ->%list_elem_of_singleton]%elem_of_app; [by apply Hok|constructor]. }
  destruct (reconcileCell_spec HashFNV32 UpdateStatus clk pushNow defaultConfig key ppr pre status post pods s ts
    Hthr Hcells Hlen Hne Hts) as (min & e & s' & Hmin & Hle & Hrun & Hch & Hres).
  exists min. fold config in Hres |- *. cbv zeta in Hcase. destruct Hcase as [(-> & Hpre & -> & Hst)|(-> & Hpre & Hi)].
  - assert (Hhas : has_cell my (Cells (Status ppr)) = false).
    { rewrite Hpre. apply has_cell_none, Hslot. }
    cbv zeta. fold pods. rewrite Hhas. cbn [orb andb]. destruct (length pods =? 0) eqn:Hp; cbn [negb andb].
    + do 2 eexists. do 5 (split; [done|]). split; [reflexivity|]. by split.
    + rewrite Hpre in Hslot |- *. rewrite <- Hst. rewrite length_app, Nat.add_sub. exists e, s'. do 5 (split; [done|]). by split.
  - rewrite Hi. rewrite Hpre in Hslot |- *. rewrite has_cell_app by apply Hslot. cbn [orb andb]. exists e, s'. do 5 (split; [done|]). by split.
Qed.

End reconcile_lemmas.

(** ** The causes of a change *)
Section changes.
Import Aggregator.

(** The changes that a reconciliation reports are among the causes of [BitToString]. *)
Definition known_change (changed : HasChange.Changed) : Prop := Z.lor (HasChange.mask changed) 255 = 255%Z.

Lemma known_Add changed cause : known_change changed → Z.lor cause 255 = 255%Z → known_change (HasChange.Add changed cause).
Proof. unfold known_change, HasChange.Add. cbn [HasChange.mask]. intros Hm Hc. by rewrite <- Z.lor_assoc, Hc. Qed.
Lemma known_Assign {T} `{EqDecision T} changed (dst src : T) cause :
  known_change changed → Z.lor cause 255 = 255%Z → known_change (HasChange.Assign changed dst src cause).2.
Proof. intros Hm Hc. unfold HasChange.Assign. destruct (bool_decide _); [done|]. by apply known_Add. Qed.
Lemma known_assignOptional changed target value cause :
  known_change changed → Z.lor cause 255 = 255%Z → known_change (assignOptionalInt32 changed target value cause).2.
Proof. intros Hm Hc. unfold assignOptionalInt32. destruct (bool_decide _); [done|]. by apply known_Add. Qed.
Lemma known_range changed : known_change changed → (0 <= HasChange.mask changed < 256)%Z.
Proof.
  intros Hm. assert (HasChange.mask changed = HasChange.mask changed `mod` 2 ^ 8)%Z as ->; [|apply Z.mod_pos_bound; lia].
  rewrite <- Z.land_ones by done. change (Z.ones 8) with 255%Z. rewrite <- (Hm : Z.lor _ 255 = 255%Z). apply Z.bits_inj'. intros n _.
  rewrite Z.land_spec, Z.lor_spec. by destruct (Z.testbit _ n).
Qed.

(** A mask of the known causes prints as their names, without a panic. *)
Definition causes : list (Z * string) :=
  [(1, "Available"); (2, "Ready"); (4, "Running"); (8, "Scheduled"); (16, "Created"); (32, "HistoryBucketAggregated"); (64, "Pending");
   (128, "UnscheduledPending")]%Z.
Definition causeNames (mask : Z) : string :=
  if (mask =? 0)%Z then "nil" else String.concat "+" (filter (λ c, Z.land mask c.1 ≠ 0%Z) causes).*2.
Lemma String_known changed : known_change changed →
  HasChange.String BitToString 32 changed = Ret (causeNames (HasChange.mask changed)).
Proof.
  intros Hk%known_range. destruct changed as [m]. cbn in *.
  assert (Hall : Forall (λ m, HasChange.String BitToString 32 {| HasChange.mask := m |} = Ret (causeNames m)) (seqZ 0 256)).
  { apply Forall_lookup. intros i z Hz. pose proof Hz as Hi%lookup_lt_Some. apply lookup_seqZ in Hz as [-> _].
    rewrite length_seqZ in Hi. do 256 (destruct i as [|i]; [vm_compute; reflexivity|]). lia. }
  rewrite Forall_forall in Hall. apply Hall, elem_of_seqZ. lia.
Qed.

Lemma aggregateStatus_known clk pods ppr requeue target changed r :
  known_change changed → aggregateStatus clk pods ppr requeue target changed = Ret r → known_change r.1.1.2.
Proof.
  intros Hk. unfold aggregateStatus. destruct (_ <? _)%Z; [by intros [= <-]|].
  repeat first
    [ match goal with |- context [HasChange.Assign ?ch ?dst ?src ?cause] =>
        let C := fresh "C" in pose proof (known_Assign ch dst src cause Hk eq_refl) as C; clear Hk;
        destruct (HasChange.Assign ch dst src cause); cbn [snd] in C; rename C into Hk
      end
    | match goal with |- context [assignOptionalInt32 ?ch ?dst ?src ?cause] =>
        let C := fresh "C" in pose proof (known_assignOptional ch dst src cause Hk eq_refl) as C; clear Hk;
        destruct (assignOptionalInt32 ch dst src cause); cbn [snd] in C; rename C into Hk
      end
    | intros (? & _ & H)%outcome_bind_Ret; revert H; case_match ].
  by intros [= <-].
Qed.

Lemma updateLastEventTime_known HashFNV32 pushNow shards key status changed times r :
  known_change changed → updateLastEventTime HashFNV32 pushNow shards key status changed times = Ret r → known_change r.1.2.
Proof.
  intros Hk. unfold updateLastEventTime. intros ([[ch ?] ?] & _ & Hr)%outcome_bind_Ret.
  destruct ch; injection Hr as <-; [by apply known_Add|done].
Qed.

Section tryReconcile_known.
Context `{!GoRuntime} {W : Type} (HashFNV32 : string → Z).
Variables (pprInformer_Get : Informer.PodProtectorKey → outcome (option PodProtector * option error)) (Matches : gmap string string → bool)
  (UpdateStatus : string → PodProtector → W → option error * W) (clk : nat → Time) (pushNow : Time) (my : string)
  (defaultConfig : DefaultConfig.Options).

Lemma reconcileCell_known key ppr cells i pods (s : reconcileState (W := W)) r :
  reconcileCell HashFNV32 UpdateStatus clk pushNow defaultConfig key ppr cells i pods s = Ret r → known_change (HasChange r.1).
Proof.
  unfold reconcileCell. destruct (cells !! i) as [status|]; [|done].
  intros ([[[agg ch] rq] err] & Ha & Hr)%outcome_bind_Ret. apply aggregateStatus_known in Ha; [|done]. cbn in Ha.
  destruct err; [by injection Hr as <-|]. destruct (lastEventTimes _); [|by injection Hr as <-].
  apply outcome_bind_Ret in Hr as (? & _ & Hr). apply outcome_bind_Ret in Hr as (? & _ & Hr).
  apply outcome_bind_Ret in Hr as ([[st ch'] sh] & Hu & Hr). apply updateLastEventTime_known in Hu; [|done]. cbn in Hu.
  destruct (HasChange.HasChanged ch'); [|by injection Hr as <-].
  apply outcome_bind_Ret in Hr as (? & _ & Hr). destruct (UpdateStatus _ _ _) as [[]]; by injection Hr as <-.
Qed.

Lemma tryReconcile_known index key (s : reconcileState (W := W)) r :
  tryReconcile HashFNV32 pprInformer_Get Matches UpdateStatus clk pushNow my defaultConfig index key s = Ret r →
  known_change (HasChange r.1).
Proof.
  unfold tryReconcile. intros ([pprOpt err] & _ & Hr)%outcome_bind_Ret.
  destruct err, pprOpt as [ppr|]; try (by injection Hr as <-). destruct (negb _); [by injection Hr as <-|].
  apply outcome_bind_Ret in Hr as ([pods err] & _ & Hr). destruct err; [by injection Hr as <-|].
  cbv zeta in Hr. destruct (_ && _); [by injection Hr as <-|]. destruct (_ =? _)%Z; by eapply reconcileCell_known.
Qed.
End tryReconcile_known.

End changes.

(** C8. A reconciliation of a PodProtector that the informer has and whose labels are selected,
    when the lister answers for every indexed pod and every shard has seen an event. [pods]
    are the live pods of its namespace that its aggregation selector selects. Without such
    pods and without a status for this cell nothing happens. Otherwise the status of this
    cell (the one in place, or a new one at the end) becomes [reconciled]: the counts of
    [pods], the least of the last event times, and the admissions that this time does not
    account for; iff the counts or the admissions differ from before, the PodProtector with
    that cell, all other cells unchanged, is summarized and written, once. *)
Theorem tryReconcile_correct `{!GoRuntime} (HashFNV32 : string → Z) {W : Type}
    (pprInformer_Get : Informer.PodProtectorKey → outcome (option PodProtector * option error))
    (Matches : gmap string string → bool) (UpdateStatus : string → PodProtector → W → option error * W)
    (clk : nat → Time) (pushNow : Time) (my : string) (defaultConfig : DefaultConfig.Options)
    (index : Aggregator.SetsIndex) (m : gmap Namespaced.NamespacedName (gmap string string))
    (key : Informer.PodProtectorKey) (ppr : PodProtector) (s : Aggregator.reconcileState (W := W)) (ts : list Time) :
  let config := DefaultConfig.Compute defaultConfig (Some (HistoryConfig (Spec ppr))) in
  pprInformer_Get key = Ret (Some ppr, None) → Matches (Labels (pprMeta ppr)) = true →
  pods_represent index m → valid_selector (PprUtil.GetAggregationSelector ppr) →
  (∀ nn, is_Some (m !! nn) → pod_error (Aggregator.shards s) nn = None) → (Z.of_nat (size m) ≤ MaxInt32)%Z →
  (1 ≤ DefaultConfig.CompactThreshold config)%Z → cells_ok (Cells (Status ppr)) →
  Aggregator.shards s ≠ [] → Aggregator.lastEventTimes (Aggregator.shards s) = Some ts →
  ∃ names pre status post min e s',
    NoDup names ∧ (∀ nn, nn ∈ names ↔ Namespaced.Namespace nn = Namespace (pprMeta ppr) ∧
      ∃ labels, m !! nn = Some labels ∧ selector_selects (PprUtil.GetAggregationSelector ppr) labels) ∧
    cell_slot my (Cells (Status ppr)) pre status post ∧ min ∈ ts ∧ (∀ t, t ∈ ts → (min ≤ t)%Z) ∧
    Aggregator.tryReconcile HashFNV32 pprInformer_Get Matches UpdateStatus clk pushNow my defaultConfig index key s =
      Ret (e, s') ∧
    let pods := omap (live_pod (Aggregator.shards s)) names in
    let times := {| Aggregator.shardTimes := ts; Aggregator.minTime := min |} in
    if (has_cell my (Cells (Status ppr)) || negb (length pods =? 0)) &&
       reconcile_changes HashFNV32 clk ppr pods times status
    then ∃ ppr', PprUtil.Summarize config (with_Cells ppr (pre ++ reconciled HashFNV32 clk ppr pods times status :: post)) =
          Ret ppr' ∧
        Aggregator.world s' = (UpdateStatus (Informer.SourceName key) ppr' (Aggregator.world s)).2 ∧
        (Aggregator.Err e = None ↔ (UpdateStatus (Informer.SourceName key) ppr' (Aggregator.world s)).1 = None)
    else Aggregator.world s' = Aggregator.world s ∧ Aggregator.Err e = None.
Proof.
  intros config Hget Hmatch Hrep Hsel Herr Hsize Hthr Hok Hne Hts.
  by apply tryReconcile_spec.
Qed.

(** The five pods of the cell are gone, and one of its two admissions is accounted for: the
    status is written once, and the other admission is kept. *)
Lemma tryReconcile_correct_witness :
  let ppr := example_ppr 3%Z [example_cell 5%Z [example_bucket 10%Z "a"; example_bucket 30%Z "b"]] in
  let s := {| Aggregator.shards := [example_shard (Some 20%Z)]; Aggregator.queue := [];
    Aggregator.world := [] : list PodProtector |} in
  let update (_ : string) ppr (w : list PodProtector) : option error * list PodProtector := (None, ppr :: w) in
  ∃ e s' ppr' cell, Aggregator.tryReconcile (λ _, 0%Z) (λ _, Ret (Some ppr, None)) (λ _, true) update (λ _, 40%Z) 41%Z
      "cell" DefaultConfig.default_options Aggregator.NewPodIndex (example_event_key "ppr") s = Ret (e, s') ∧
    Aggregator.Err e = None ∧ Aggregator.world s' = [ppr'] ∧ Cells (Status ppr') = [cell] ∧
    Buckets cell = [example_bucket 30%Z "b"] ∧ AvailableReplicas (Aggregation cell) = 0%Z ∧
    LastEventTime (Aggregation cell) = 20%Z.
Proof.
  intros ppr s update.
  destruct (tryReconcile_correct (λ _, 0%Z) (λ _, Ret (Some ppr, None)) (λ _, true) update (λ _, 40%Z) 41%Z
    "cell" DefaultConfig.default_options Aggregator.NewPodIndex ∅ (example_event_key "ppr") ppr s [20%Z])
    as (names & pre & status & post & min & e & s' & _ & Hin & Hslot & Hmin & _ & Hrun & Hres);
    try reflexivity; try (vm_compute; discriminate).
  - apply pods_represent_new.
  - by intros req ?%not_elem_of_nil.
  - intros nn [? Hm]. by rewrite lookup_empty in Hm.
  - intros c ->%list_elem_of_singleton. repeat constructor; eexists; reflexivity.
  - apply list_elem_of_singleton in Hmin as ->.
    assert (names = []) as ->.
    { destruct names as [|nn names]; [done|]. exfalso.
      destruct (proj1 (Hin nn)) as (_ & l & Hl & _); [by left|]. by rewrite lookup_empty in Hl. }
    destruct Hslot as (Hid & Hpre & [Hc|(Hc & _ & _)]); [|subst pre; by apply Forall_cons in Hpre as [[] _]].
    destruct pre as [|c pre]; [|injection Hc as <- _; by apply Forall_cons in Hpre as [[] _]].
    injection Hc as <- <-.
    cbv zeta in Hres. match type of Hres with if ?b then _ else _ => replace b with true in Hres by (vm_compute; reflexivity) end.
    destruct Hres as (ppr' & Hsum & Hw & He). vm_compute in Hsum. injection Hsum as <-.
    exists e, s'. do 2 eexists. split; [exact Hrun|]. split; [by apply He|]. split; [exact Hw|].
    by split.
Defined.
