(* ===== verification/Generator.v ===== *)
(** * Generator: the PodProtectors of workload objects

    [Module Resource] is generator/resource/interface.go, [Module Deployment] is
    generator/resource/deployment/deployment.go and [Module Generator] is
    generator/generator/controller.go. A source object is any type with the operations of the
    interface; the API server is any type of worlds with the five requests that the generator
    makes. The object of the informer cache and the copy of [MakeDeepCopy] are distinct cells,
    so that a mutation of the cache is visible. *)

From S2P Require Import Prelude Util Errors Iter Canonical SetTrie LabelIndex Api PprUtil.

(** ** generator/resource/interface.go *)
Module Resource.

Record GroupVersionKind : Type := { gvkGroup : string; gvkVersion : string; gvkKind : string }.
Record GroupVersionResource : Type := { gvrGroup : string; gvrVersion : string; gvrResource : string }.

Record TypeDef : Type := { typeKind : GroupVersionKind; typeResource : GroupVersionResource }.

(** A protector that is required refers to the source object, not to a copy: its name and
    spec are read from the object as it is when they are asked for. *)
Record RequiredProtector (Obj : Type) : Type := {
  reqName : Obj → string;
  reqSpec : Obj → outcome (PodProtectorSpec + error)
}.
Arguments reqName {Obj} _ _.
Arguments reqSpec {Obj} _ _.

(** [metav1.Object] by its metadata, and the methods of [SourceObject]. *)
Class SourceObject (Obj : Type) := {
  GetMeta : Obj → ObjectMeta;
  SetFinalizers : Obj → list string → Obj;
  TypeOf : Obj → TypeDef;
  GetRequiredProtectors : Obj → list (RequiredProtector Obj);
  GetMeta_SetFinalizers : ∀ obj fs, GetMeta (SetFinalizers obj fs) = with_Finalizers (GetMeta obj) fs
}.

(** The requests to the API server: a result or an error, and the world after it. *)
Class ApiServer (Obj W : Type) := {
  CreatePpr : PodProtector → W → (PodProtector + error) * W;
  UpdatePpr : PodProtector → W → (PodProtector + error) * W;
  UpdatePprStatus : PodProtector → W → (PodProtector + error) * W;
  DeletePpr : string → string → W → option error * W;
  UpdateSource : Obj → W → (Obj + error) * W
}.

Section generate.
Context {Obj : Type} `{!SourceObject Obj}.
(** [schema.GroupVersion.String]. *)
Variable GroupVersion_String : string → string → string.

Definition GeneratePodProtector (sourceObject : Obj) (rqmt : RequiredProtector Obj) :
    outcome (PodProtector + error) :=
  spec ← reqSpec rqmt sourceObject;
  match spec with
  | inr err => Ret (inr (TagWrapf "ReplicaSpec" (Some err) "inferring replica spec from source object"))
  | inl spec =>
      let meta := GetMeta sourceObject in
      let kind := typeKind (TypeOf sourceObject) in
      let resource := typeResource (TypeOf sourceObject) in
      Ret (inl {|
        pprMeta := {|
          Name := reqName rqmt sourceObject; Namespace := Namespace meta; UID := ""; ResourceVersion := "";
          CreationTimestamp := 0%Z;
          Labels := list_to_map [(SourceObjectNameLabel, Name meta); (SourceObjectKindLabel, gvkKind kind);
            (SourceObjectResourceLabel, gvrResource resource); (SourceObjectGroupLabel, gvrGroup resource)];
          Annotations := ∅; Finalizers := [GeneratorFinalizer];
          OwnerReferences := [{| ownerAPIVersion := GroupVersion_String (gvkGroup kind) (gvkVersion kind);
            ownerKind := gvkKind kind; ownerName := Name meta; ownerUID := UID meta; ownerController := Some true |}];
          DeletionTimestamp := None |};
        Spec := spec; Status := {| Cells := []; Summary := zero |} |})
  end.

End generate.

End Resource.

(** ** generator/resource/deployment/deployment.go *)
Module Deployment.
Import Resource.

Inductive IntOrString : Type := FromInt (i : Z) | FromString (s : string).

(** [appsv1.Deployment] by the fields that are read. *)
Record Deployment : Type := {
  deployMeta : ObjectMeta;
  Replicas : option Z;
  deployMinReadySeconds : Z;
  deploySelector : option LabelSelector;
  RollingUpdate : option (option IntOrString)
}.

Definition deployment_type : TypeDef := {|
  typeKind := {| gvkGroup := "apps"; gvkVersion := "v1"; gvkKind := "Deployment" |};
  typeResource := {| gvrGroup := "apps"; gvrVersion := "v1"; gvrResource := "deployments" |} |}.

Section deployment.
(** [intstr.GetValueFromIntOrPercent], and the methods of the options. *)
Variables (GetValueFromIntOrPercent : IntOrString → Z → bool → Z + error)
  (labelSelector : gmap string string → bool) (avoidNonZeroDeletion : bool).

Definition MaxUnavailable (obj : Deployment) : IntOrString :=
  let maxUnavailableIs := FromString "25%" in
  match RollingUpdate obj with
  | Some (Some maxUnavailablePtr) => maxUnavailablePtr
  | _ => maxUnavailableIs
  end.

(** [defaultReqmt]; dereferencing a nil selector panics. *)
Definition reqmt_Name (obj : Deployment) : string := "deployment-" +:+ Name (deployMeta obj).
Definition reqmt_Spec (obj : Deployment) : outcome (PodProtectorSpec + error) :=
  let totalReplicas := Deref (Replicas obj) 1%Z in
  match GetValueFromIntOrPercent (MaxUnavailable obj) totalReplicas true with
  | inr err => Ret (inr (TagWrapf "ParseMaxUnavailable" (Some err) "parse max unavailable from deployment"))
  | inl maxUnavailableInt =>
      if (MaxInt32 <? maxUnavailableInt)%Z
      then Ret (inr (TagWrapf "TooManyReplicas" None "maxUnavailable overflows after resolution"))
      else
        let requiredReplicas := wrap32 (totalReplicas - wrap32 maxUnavailableInt) in
        match deploySelector obj with
        | None => Panic "invalid memory address or nil pointer dereference"
        | Some selector =>
            Ret (inl {| MinAvailable := Z.max requiredReplicas 0; MinReadySeconds := deployMinReadySeconds obj;
                        pprSelector := selector; AggregationSelector := None; HistoryConfig := zero |})
        end
  end.

Definition defaultReqmt : RequiredProtector Deployment := {| reqName := reqmt_Name; reqSpec := reqmt_Spec |}.

Definition Deployment_GetRequiredProtectors (obj : Deployment) : list (RequiredProtector Deployment) :=
  let terminating := negb (IsZeroPtr (DeletionTimestamp (deployMeta obj))) in
  let avoidNonZero := avoidNonZeroDeletion && (0 <? Deref (Replicas obj) 1)%Z in
  if terminating && negb avoidNonZero then []
  else if negb (labelSelector (Labels (deployMeta obj))) then []
  else [defaultReqmt].

#[export] Program Instance deployment_source : SourceObject Deployment := {|
  GetMeta := deployMeta;
  SetFinalizers obj fs := {| deployMeta := with_Finalizers (deployMeta obj) fs; Replicas := Replicas obj;
    deployMinReadySeconds := deployMinReadySeconds obj; deploySelector := deploySelector obj;
    RollingUpdate := RollingUpdate obj |};
  TypeOf _ := deployment_type;
  GetRequiredProtectors := Deployment_GetRequiredProtectors
|}.
Next Obligation. done. Qed.

(** [sourceObject.Update] around the request of the client. *)
Definition Deployment_Update {W : Type} (clientUpdate : Deployment → W → (Deployment + error) * W)
    (obj : Deployment) (w : W) : (Deployment + error) * W :=
  match clientUpdate obj w with
  | (inl newObj, w) => (inl newObj, w)
  | (inr err, w) => (inr (TagWrapf "UpdateObject" (Some err) "apiserver error for update request"), w)
  end.

(** [TypeProvider.GetObject]: an error of the lister is no object. *)
Definition GetObject (lister : string → string → option Deployment * option error) (ns name : string) :
    option Deployment :=
  match lister ns name with
  | (Some obj, None) => Some obj
  | _ => None
  end.

End deployment.

End Deployment.

(** ** generator/generator/controller.go *)
Module Generator.
Import Resource.

Inductive Action : Type := ActionNeitherObjectExists | ActionCreatingProtector | ActionNoPprNeeded
  | ActionDanglingProtector | ActionSyncProtector | ActionDeleteProtector | ActionError.

Definition slash_join (l : list string) : string := String.concat "/" l.

(** The labels are read as Go reads a map: an absent one is empty. *)
Definition GroupKindNamespaceNameIndexFunc (ppr : PodProtector) : list string :=
  let label l := default "" (Labels (pprMeta ppr) !! l) in
  [slash_join [label SourceObjectGroupLabel; label SourceObjectKindLabel; Namespace (pprMeta ppr);
     label SourceObjectNameLabel]].

Record QueueKey : Type := { NsName : Namespaced.NamespacedName; TypeDefIndex : nat }.

Definition comma : Ascii.ascii := Ascii.ascii_of_nat 44.

(** [strings.Split] by a separator of one character. *)
Fixpoint Split (s : string) (sep : Ascii.ascii) : list string :=
  match s with
  | EmptyString => [""]
  | String c s =>
      if Ascii.eqb c sep then "" :: Split s sep
      else match Split s sep with
           | [] => [String c ""]
           | word :: words => String c word :: words
           end
  end.

(** *** The variables of a reconciliation *)

(** The pointer to the source object: it shares the object of the informer cache until
    [MakeDeepCopy], and then has its own. *)
Record handle (Obj : Type) : Type := { cached : Obj; own : option Obj }.
Arguments cached {Obj} _.
Arguments own {Obj} _.

Record state (Obj W : Type) : Type := {
  source : option (handle Obj);
  sourceFinalizerNeedsRemoval : bool;
  world : W
}.
Arguments source {Obj W} _.
Arguments sourceFinalizerNeedsRemoval {Obj W} _.
Arguments world {Obj W} _.

(** A step reads and writes the variables, and may panic. *)
Definition gen (Obj W A : Type) : Type := state Obj W → outcome (A * state Obj W).
#[export] Instance gen_ret {Obj W} : MRet (gen Obj W) := λ A a s, Ret (a, s).
#[export] Instance gen_bind {Obj W} : MBind (gen Obj W) := λ A B f m s,
  match m s with
  | Ret (a, s) => f a s
  | Panic msg => Panic msg
  end.

Section operations.
Context {Obj W : Type}.

Definition current (h : handle Obj) : Obj := default (cached h) (own h).

(** A method of the nil object panics. *)
Definition getSource : gen Obj W Obj := λ s,
  match source s with
  | Some h => Ret (current h, s)
  | None => Panic "invalid memory address or nil pointer dereference"
  end.
Definition MakeDeepCopy : gen Obj W unit := λ s,
  match source s with
  | Some h => Ret (tt, {| source := Some {| cached := cached h; own := Some (current h) |};
                         sourceFinalizerNeedsRemoval := sourceFinalizerNeedsRemoval s; world := world s |})
  | None => Panic "invalid memory address or nil pointer dereference"
  end.
(** Before [MakeDeepCopy] a write goes to the cache. *)
Definition mutateSource (f : Obj → Obj) : gen Obj W unit := λ s,
  match source s with
  | Some h =>
      let h := match own h with
               | Some obj => {| cached := cached h; own := Some (f obj) |}
               | None => {| cached := f (cached h); own := None |}
               end in
      Ret (tt, {| source := Some h; sourceFinalizerNeedsRemoval := sourceFinalizerNeedsRemoval s; world := world s |})
  | None => Panic "invalid memory address or nil pointer dereference"
  end.
Definition setNeedsRemoval (b : bool) : gen Obj W unit := λ s,
  Ret (tt, {| source := source s; sourceFinalizerNeedsRemoval := b; world := world s |}).
Definition request {R} (f : W → R * W) : gen Obj W R := λ s,
  let '(r, w) := f (world s) in
  Ret (r, {| source := source s; sourceFinalizerNeedsRemoval := sourceFinalizerNeedsRemoval s; world := w |}).
Definition lift {A} (m : outcome A) : gen Obj W A := λ s,
  match m with Ret a => Ret (a, s) | Panic msg => Panic msg end.

End operations.

Section generator.
Context `{!GoRuntime} {Obj W : Type} `{!SourceObject Obj, !ApiServer Obj W}.
Variable GroupVersion_String : string → string → string.

(** [sourceObject.Update]: a successful request replaces the object. *)
Definition updateSource : gen Obj W (option error) :=
  obj ← getSource;
  r ← request (UpdateSource obj);
  match r with
  | inl newObj => _ ← mutateSource (λ _, newObj); mret None
  | inr err => mret (Some err)
  end.

Definition ErrNoFinalizerInTerminatingSource : error :=
  TagErrorf "NoFinalizerInTerminatingSource" "source object is terminating but had no finalizer".
(** [errors.Is(err, ErrNoFinalizerInTerminatingSource)]: the error occurs in the tree. *)
Fixpoint IsErrNoFinalizer (err : error) : bool :=
  match err with
  | taggedError tag child =>
      (bool_decide (tag = "NoFinalizerInTerminatingSource") &&
       match child with
       | errorString msg => bool_decide (msg = "source object is terminating but had no finalizer")
       | _ => false
       end) || IsErrNoFinalizer child
  | wrapError _ child => IsErrNoFinalizer child
  | joinError errs => existsb IsErrNoFinalizer errs
  | _ => false
  end.

Definition hasFinalizer (fs : list string) : bool := negb (Slices.FindInSlice fs GeneratorFinalizer =? -1)%Z.

Definition ensureSourceFinalizer : gen Obj W (option error) :=
  _ ← setNeedsRemoval false;
  obj ← getSource;
  if hasFinalizer (Finalizers (GetMeta obj)) then mret None
  else if negb (IsZeroPtr (DeletionTimestamp (GetMeta obj))) then mret (Some ErrNoFinalizerInTerminatingSource)
  else
    _ ← MakeDeepCopy;
    _ ← mutateSource (λ obj, SetFinalizers obj (Finalizers (GetMeta obj) ++ [GeneratorFinalizer]));
    err ← updateSource;
    mret (match err with
          | Some err => Some (TagWrapf "UpdateSourceFinalizer" (Some err)
              "update source object with the generator finalizer")
          | None => None
          end).

Definition createProtector (pprReqmt : RequiredProtector Obj) : gen Obj W (option error) :=
  err ← ensureSourceFinalizer;
  match err with
  | Some err =>
      if IsErrNoFinalizer err then mret None
      else mret (Some (TagWrapf "EnsureSourceFinalizer" (Some err) "ensure finalizer in source object"))
  | None =>
      obj ← getSource;
      ppr ← lift (GeneratePodProtector GroupVersion_String obj pprReqmt);
      match ppr with
      | inr err => mret (Some (TagWrapf "GeneratePpr" (Some err) "generating PodProtector from source object"))
      | inl ppr =>
          r ← request (CreatePpr ppr);
          mret (match r with
                | inr err => Some (TagWrapf "CreateNewPpr" (Some err) "create new PodProtector object")
                | inl _ => None
                end)
      end
  end.

Definition tryRemoveCells (current : PodProtector) : gen Obj W (PodProtector * bool + error) :=
  match Annotations (pprMeta current) !! PprAnnotationRemoveCellOnce with
  | None => mret (inl (current, false))
  | Some removals =>
      let removalSet := list_to_set (C := gset string) (Split removals comma) in
      newCellList ← lift (Iter.CollectSlice (Iter.Filter (Iter.FromSlice (Cells (Status current)))
        (λ cellStatus, negb (bool_decide (CellId cellStatus ∈ removalSet)))));
      next ← (if negb (length (Cells (Status current)) =? length newCellList)
        then request (UpdatePprStatus (Obj := Obj) (with_Cells current newCellList))
        else mret (inl current));
      mret (match next with
            | inr err => inr (TagWrapf "UpdateStatus" (Some err) "performing UpdateStatus call")
            | inl current => inl (with_pprMeta current (with_Annotations (pprMeta current)
                (delete PprAnnotationRemoveCellOnce (Annotations (pprMeta current)))), true)
            end)
  end.

(** Specs come from objects that the API has decoded, in which a map or list without elements is nil, so that [reflect.DeepEqual] of
    two of them is equality. *)
Definition syncProtector (current : PodProtector) (pprReqmt : RequiredProtector Obj) : gen Obj W (option error) :=
  err ← ensureSourceFinalizer;
  match err with
  | Some err => mret (Some (TagWrapf "EnsureSourceFinalizer" (Some err) "ensure finalizer in source object"))
  | None =>
      removed ← tryRemoveCells current;
      match removed with
      | inr err => mret (Some (TagWrapf "RemoveCells" (Some err) "removing obsolete cells from PodProtector status"))
      | inl (current, hasChange) =>
          obj ← getSource;
          expected ← lift (GeneratePodProtector GroupVersion_String obj pprReqmt);
          match expected with
          | inr err => mret (Some (TagWrapf "GeneratePpr" (Some err) "generating PodProtector from source object"))
          | inl expected =>
              if hasChange || negb (bool_decide (Spec current = Spec expected)) then
                r ← request (UpdatePpr (Obj := Obj) (with_Spec current (Spec expected)));
                mret (match r with
                      | inr err => Some (TagWrapf "UpdatePprSpec" (Some err) "update PodProtector object spec")
                      | inl _ => None
                      end)
              else mret None
          end
      end
  end.

(** The deferred function keeps the source finalizer on every early return. *)
Definition deleteProtector (currentPpr : PodProtector) : gen Obj W (option error) :=
  let toDelete := Slices.FindInSlice (Finalizers (pprMeta currentPpr)) GeneratorFinalizer in
  updated ← (if negb (toDelete =? -1)%Z then
      finalizers ← lift (Slices.SwapRemove (Finalizers (pprMeta currentPpr)) (Z.to_nat toDelete));
      request (UpdatePpr (Obj := Obj) (with_pprMeta currentPpr (with_Finalizers (pprMeta currentPpr) finalizers)))
    else mret (inl currentPpr));
  match updated with
  | inr err =>
      _ ← setNeedsRemoval false;
      mret (Some (TagWrapf "RemovePprFinalizer" (Some err) "remove generator finalizer from PodProtector object"))
  | inl currentPpr =>
      if IsZeroPtr (DeletionTimestamp (pprMeta currentPpr)) then
        err ← request (DeletePpr (Obj := Obj) (Namespace (pprMeta currentPpr)) (Name (pprMeta currentPpr)));
        match err with
        | Some err =>
            _ ← setNeedsRemoval false;
            mret (Some (TagWrapf "DeletePprObject" (Some err) "delete ppr object"))
        | None => mret None
        end
      else mret None
  end.

Definition hasSource : gen Obj W bool := λ s, Ret (match source s with Some _ => true | None => false end, s).

Definition tryReconcile (reqmt : option (RequiredProtector Obj)) (currentPpr : option PodProtector) :
    gen Obj W (Action * option error) :=
  hasSource ← hasSource;
  match currentPpr, hasSource, reqmt with
  | None, false, _ => mret (ActionNeitherObjectExists, None)
  | None, true, Some reqmt => err ← createProtector reqmt; mret (ActionCreatingProtector, err)
  | None, true, None => mret (ActionNoPprNeeded, None)
  | Some _, false, _ => mret (ActionDanglingProtector, None)
  | Some currentPpr, true, Some reqmt => err ← syncProtector currentPpr reqmt; mret (ActionSyncProtector, err)
  | Some currentPpr, true, None => err ← deleteProtector currentPpr; mret (ActionDeleteProtector, err)
  end.

Definition removeSourceFinalizer : gen Obj W (option error) :=
  obj ← getSource;
  let toDelete := Slices.FindInSlice (Finalizers (GetMeta obj)) GeneratorFinalizer in
  if (toDelete =? -1)%Z then mret None
  else
    _ ← MakeDeepCopy;
    obj ← getSource;
    finalizers ← lift (Slices.SwapRemove (Finalizers (GetMeta obj)) (Z.to_nat toDelete));
    _ ← mutateSource (λ obj, SetFinalizers obj finalizers);
    err ← updateSource;
    mret (match err with
          | Some err => Some (TagWrapf "RemoveSourceFinalizer" (Some err)
              "remove generator finalizer from source object")
          | None => None
          end).

(** The body of the loop of [ReconcileItem]; the names are observed only. *)
Definition reconcilePair (pair : string * (option (RequiredProtector Obj) * option PodProtector))
    (s : state Obj W) : outcome (state Obj W * option error) :=
  '((_, err), s) ← tryReconcile pair.2.1 pair.2.2 s;
  Ret (s, err).

(** [ty] is the type definition of the provider at [TypeDefIndex] and [ByIndex] the indexer of
    the informer; [None] as the source: the object does not exist. *)
Definition reconcileObject (ty : TypeDef) (sourceObject : option Obj)
    (ByIndex : string → list PodProtector + error) (nsName : Namespaced.NamespacedName) (w : W) :
    outcome (option error * state Obj W) :=
  let s := {| source := (λ obj, {| cached := obj; own := None |}) <$> sourceObject;
              sourceFinalizerNeedsRemoval := true; world := w |} in
  let reqmts : gmap string (RequiredProtector Obj) :=
    match sourceObject with
    | Some obj => Slices.SliceToMap (GetRequiredProtectors obj) (λ reqmt, reqName reqmt obj)
    | None => ∅
    end in
  match ByIndex (slash_join [gvkGroup (typeKind ty); gvkKind (typeKind ty);
          Namespaced.Namespace nsName; Namespaced.Name nsName]) with
  | inr err => Ret (Some (TagWrapf "ListPprFromIndexer" (Some err)
      "find relevant PodProtector objects from indexer"), s)
  | inl relevantObjectsAny =>
      relevantObjects ← Iter.CollectMap (Iter.Map (Iter.FromSlice relevantObjectsAny)
        (λ ppr, (Name (pprMeta ppr), ppr)));
      '(s, err) ← Iter.TryForEach (Iter.FromMap2 reqmts relevantObjects) reconcilePair s;
      match err with
      | Some err => Ret (Some err, s)
      | None =>
          if sourceFinalizerNeedsRemoval s && Optional.IsSome (source s) then removeSourceFinalizer s
          else Ret (None, s)
      end
  end.

(** [TypeProvider] by its type definition and its method [GetObject]. *)
Record TypeProvider : Type := {
  providerType : TypeDef;
  GetObject : Namespaced.NamespacedName → option Obj
}.

Definition ReconcileItem (typeProviders : list TypeProvider) (ByIndex : string → list PodProtector + error)
    (key : QueueKey) (w : W) : outcome (option error * state Obj W) :=
  match typeProviders !! TypeDefIndex key with
  | None => Panic "index out of range"
  | Some ty => reconcileObject (providerType ty) (GetObject ty (NsName key)) ByIndex (NsName key) w
  end.

End generator.

End Generator.
