(* ===== verification/GeneratorCorrect.v ===== *)
(** * GeneratorCorrect: what the reconciliation of a source object guarantees

    The generator is run against a server that answers every request as it likes, as a function
    of the requests so far, and that records them. Each step of the generator is computed once
    in closed form over its variables; the properties are read off these equations. *)

From S2P Require Import Prelude Util Errors Iter Canonical SetTrie LabelIndex Api PprUtil Generator.
Import Resource.
Import Generator.

(** ** The recording server *)

Inductive event (Obj : Type) : Type :=
| Created (ppr : PodProtector) (r : PodProtector + error)
| Updated (ppr : PodProtector) (r : PodProtector + error)
| StatusUpdated (ppr : PodProtector) (r : PodProtector + error)
| Deleted (ns name : string) (r : option error)
| SourceUpdated (obj : Obj) (r : Obj + error).
Arguments Created {Obj} _ _.
Arguments Updated {Obj} _ _.
Arguments StatusUpdated {Obj} _ _.
Arguments Deleted {Obj} _ _ _.
Arguments SourceUpdated {Obj} _ _.

Record answers (Obj : Type) : Type := {
  onCreate : list (event Obj) → PodProtector → PodProtector + error;
  onUpdate : list (event Obj) → PodProtector → PodProtector + error;
  onStatus : list (event Obj) → PodProtector → PodProtector + error;
  onDelete : list (event Obj) → string → string → option error;
  onSource : list (event Obj) → Obj → Obj + error
}.
Arguments onCreate {Obj} _ _ _.
Arguments onUpdate {Obj} _ _ _.
Arguments onStatus {Obj} _ _ _.
Arguments onDelete {Obj} _ _ _ _.
Arguments onSource {Obj} _ _ _.

Definition recording {Obj} (a : answers Obj) : ApiServer Obj (list (event Obj)) := {|
  CreatePpr ppr log := (onCreate a log ppr, log ++ [Created ppr (onCreate a log ppr)]);
  UpdatePpr ppr log := (onUpdate a log ppr, log ++ [Updated ppr (onUpdate a log ppr)]);
  UpdatePprStatus ppr log := (onStatus a log ppr, log ++ [StatusUpdated ppr (onStatus a log ppr)]);
  DeletePpr ns name log := (onDelete a log ns name, log ++ [Deleted ns name (onDelete a log ns name)]);
  UpdateSource obj log := (onSource a log obj, log ++ [SourceUpdated obj (onSource a log obj)])
|}.

(** The answers of the server are found from the context. *)
Existing Class answers.
#[export] Existing Instance recording.

(** Run the steps of the generator on known variables. *)
Ltac run_gen := repeat (cbn; unfold mbind, mret, gen_bind, gen_ret, lift).

(** ** The steps in closed form *)
Section steps.
Context `{!GoRuntime} {Obj : Type} `{!SourceObject Obj}.
Variable a : answers Obj.
Notation log := (list (event Obj)).
Notation vars := (state Obj log).

Definition fin (obj : Obj) : bool := hasFinalizer (Finalizers (GetMeta obj)).
Definition terminating (obj : Obj) : bool := negb (IsZeroPtr (DeletionTimestamp (GetMeta obj))).
Definition with_finalizer (obj : Obj) : Obj := SetFinalizers obj (Finalizers (GetMeta obj) ++ [GeneratorFinalizer]).

Lemma hasFinalizer_spec fs : hasFinalizer fs = true ↔ GeneratorFinalizer ∈ fs.
Proof.
  unfold hasFinalizer. rewrite negb_true_iff. rewrite <- not_true_iff_false, FindInSlice_absent.
  destruct (decide (GeneratorFinalizer ∈ fs)); tauto.
Qed.

Lemma fin_with_finalizer obj : fin (with_finalizer obj) = true.
Proof. apply hasFinalizer_spec. unfold with_finalizer. rewrite GetMeta_SetFinalizers. simpl. set_solver. Qed.

(** The variables with a source object. *)
Definition st (h : handle Obj) (b : bool) (l : log) : vars :=
  {| source := Some h; sourceFinalizerNeedsRemoval := b; world := l |}.

(** The write of a source object, and what the handle refers to afterwards. *)
Definition written (h : handle Obj) (obj : Obj) (l : log) : handle Obj :=
  {| cached := cached h; own := Some (match onSource a l obj with inl o => o | inr _ => obj end) |}.
Definition after_write (obj : Obj) (l : log) : log := l ++ [SourceUpdated obj (onSource a l obj)].
Definition write_error (obj : Obj) (l : log) (tag msg : string) : option error :=
  match onSource a l obj with inl _ => None | inr err => Some (TagWrapf tag (Some err) msg) end.

Lemma ensure_eq h b l :
  ensureSourceFinalizer (st h b l) = Ret (
    if fin (current h) then (None, st h false l)
    else if terminating (current h) then (Some ErrNoFinalizerInTerminatingSource, st h false l)
    else (write_error (with_finalizer (current h)) l "UpdateSourceFinalizer"
            "update source object with the generator finalizer",
          st (written h (with_finalizer (current h)) l) false (after_write (with_finalizer (current h)) l))).
Proof.
  unfold ensureSourceFinalizer, fin, terminating, updateSource. run_gen.
  destruct (hasFinalizer _); [done|]. destruct (IsZeroPtr _); [|done]. run_gen.
  unfold written, write_error, after_write. fold (with_finalizer (current h)).
  destruct (onSource a l (with_finalizer (current h))); done.
Qed.

Lemma removeSource_eq h b l :
  ∃ obj', removeSourceFinalizer (st h b l) = Ret (
    if fin (current h)
    then (write_error obj' l "RemoveSourceFinalizer" "remove generator finalizer from source object",
          st (written h obj' l) b (after_write obj' l))
    else (None, st h b l)).
Proof.
  unfold removeSourceFinalizer, fin, hasFinalizer, updateSource. run_gen.
  destruct (FindInSliceWith_spec (Finalizers (GetMeta (current h))) (λ x, bool_decide (GeneratorFinalizer = x)))
    as [[Hf Hnone]|(i & Hf & (c & Hi & Hc) & _)].
  - change (Slices.FindInSlice (Finalizers (GetMeta (current h))) GeneratorFinalizer = (-1)%Z) in Hf. rewrite Hf.
    run_gen. by exists (current h).
  - change (Slices.FindInSlice (Finalizers (GetMeta (current h))) GeneratorFinalizer = Z.of_nat i) in Hf. rewrite Hf.
    assert ((Z.of_nat i =? -1)%Z = false) as -> by (apply Z.eqb_neq; lia). run_gen.
    destruct (SwapRemove_spec _ _ _ Hi) as (fs & Hfs & _). rewrite Nat2Z.id, Hfs. run_gen.
    exists (SetFinalizers (current h) fs). unfold written, write_error, after_write.
    destruct (onSource a l (SetFinalizers (current h) fs)); done.
Qed.

(** The requests that change neither the source object nor the set of PodProtectors that
    exist by creation. *)
Definition ppr_request (ev : event Obj) : Prop :=
  match ev with Updated _ _ | StatusUpdated _ _ | Deleted _ _ _ => True | _ => False end.

(** A PodProtector, or the version of it that an update returned, is being deleted or was
    requested to be. *)
Definition version_of (l : log) (p p' : PodProtector) : Prop :=
  p' = p ∨ ∃ fs, Updated (with_pprMeta p (with_Finalizers (pprMeta p) fs)) (inl p') ∈ l.
Definition gone (l : log) (p : PodProtector) : Prop :=
  ∃ p', version_of l p p' ∧ (IsZeroPtr (DeletionTimestamp (pprMeta p')) = false ∨
    Deleted (Namespace (pprMeta p')) (Name (pprMeta p')) None ∈ l).

Lemma gone_app l l' p : gone l p → gone (l ++ l') p.
Proof.
  intros (p' & Hv & Hd). exists p'. split.
  - destruct Hv as [->|[fs Hv]]; [by left|right; exists fs; set_solver].
  - destruct Hd as [Hd|Hd]; [by left|right; set_solver].
Qed.

(** Deleting a PodProtector: the flag is cleared exactly on an error, and nothing is requested
    exactly if the PodProtector is released already. *)
Lemma delete_cases p h b l :
  ∃ err suffix, deleteProtector p (st h b l) =
      Ret (err, st h (match err with Some _ => false | None => b end) (l ++ suffix)) ∧
    Forall ppr_request suffix ∧ (err = None → gone (l ++ suffix) p) ∧
    (suffix = [] ↔ hasFinalizer (Finalizers (pprMeta p)) = false ∧ IsZeroPtr (DeletionTimestamp (pprMeta p)) = false) ∧
    (suffix = [] → err = None).
Proof.
  unfold deleteProtector, hasFinalizer.
  assert (Hdel : ∀ p' l0, version_of l0 p p' → ∃ err suffix,
    (if IsZeroPtr (DeletionTimestamp (pprMeta p'))
     then err ← request (DeletePpr (Obj := Obj) (Namespace (pprMeta p')) (Name (pprMeta p')));
          match err with
          | Some err => _ ← setNeedsRemoval false;
                        mret (Some (TagWrapf "DeletePprObject" (Some err) "delete ppr object"))
          | None => mret None
          end
     else mret None) (st h b l0) = Ret (err, st h (match err with Some _ => false | None => b end) (l0 ++ suffix)) ∧
    Forall ppr_request suffix ∧ (err = None → gone (l0 ++ suffix) p) ∧
    (suffix = [] ↔ IsZeroPtr (DeletionTimestamp (pprMeta p')) = false) ∧ (suffix = [] → err = None)).
  { intros p' l0 Hv. destruct (IsZeroPtr (DeletionTimestamp (pprMeta p'))) eqn:Hz; run_gen.
    - set (ev := Deleted _ _ _). exists (match onDelete a l0 (Namespace (pprMeta p')) (Name (pprMeta p')) with
        | Some err => Some (TagWrapf "DeletePprObject" (Some err) "delete ppr object") | None => None end), [ev].
      split; [by destruct (onDelete _ _ _ _)|]. split; [by repeat constructor|]. split; [|by split].
      intros He. exists p'. split.
      + destruct Hv as [->|[fs Hv]]; [by left|right; exists fs; set_solver].
      + right. subst ev. destruct (onDelete _ _ _ _); [done|]. set_solver.
    - exists None, []. rewrite app_nil_r. split; [done|]. split; [constructor|]. split; [|by split].
      intros _. exists p'. split; [done|by left]. }
  destruct (FindInSliceWith_spec (Finalizers (pprMeta p)) (λ x, bool_decide (GeneratorFinalizer = x)))
    as [[Hf _]|(i & Hf & (c & Hi & Hc) & _)];
    change (Slices.FindInSliceWith (Finalizers (pprMeta p)) (λ x, bool_decide (GeneratorFinalizer = x)))
      with (Slices.FindInSlice (Finalizers (pprMeta p)) GeneratorFinalizer) in Hf; rewrite Hf.
  - destruct (Hdel p l) as (err & suffix & Hrun & H1 & H2 & H3 & H4); [by left|].
    exists err, suffix. split; [exact Hrun|]. split; [done|]. split; [done|]. split; [rewrite H3; simpl; tauto|done].
  - assert ((Z.of_nat i =? -1)%Z = false) as -> by (apply Z.eqb_neq; lia). cbn [negb].
    destruct (SwapRemove_spec _ _ _ Hi) as (fs & Hfs & _).
    set (q := with_pprMeta p (with_Finalizers (pprMeta p) fs)).
    assert (Hstep : ∀ {B} (k : PodProtector + error → gen Obj log B),
      ((finalizers ← lift (Slices.SwapRemove (Finalizers (pprMeta p)) (Z.to_nat (Z.of_nat i)));
        request (UpdatePpr (Obj := Obj) (with_pprMeta p (with_Finalizers (pprMeta p) finalizers)))) ≫= k)
        (st h b l) = k (onUpdate a l q) (st h b (l ++ [Updated q (onUpdate a l q)]))).
    { intros B k. run_gen. rewrite Nat2Z.id, Hfs. done. }
    rewrite Hstep. destruct (onUpdate a l q) as [p'|err] eqn:Hu.
    + destruct (Hdel p' (l ++ [Updated q (inl p')])) as (err & suffix & Hrun & H1 & H2 & _).
      { right. exists fs. set_solver. }
      exists err, (Updated q (inl p') :: suffix). rewrite <- app_assoc in Hrun, H2. split; [exact Hrun|].
      split; [by constructor|]. split; [done|]. split; [split; [done|intros [? ?]; done]|done].
    + eexists (Some _), [_]. split; [reflexivity|]. split; [by repeat constructor|]. split; [done|].
      split; [split; [done|intros [? ?]; done]|done].
Qed.

(** What is left of the cells and of the annotation. *)
Definition kept_cells (removals : string) (p : PodProtector) : list PodProtectorCellStatus :=
  filter (λ c, CellId c ∉ Split removals comma) (Cells (Status p)).
Definition strip_annotation (p : PodProtector) : PodProtector :=
  with_pprMeta p (with_Annotations (pprMeta p) (delete PprAnnotationRemoveCellOnce (Annotations (pprMeta p)))).

Lemma removeCells_eq p h b l :
  tryRemoveCells p (st h b l) = Ret
    match Annotations (pprMeta p) !! PprAnnotationRemoveCellOnce with
    | None => (inl (p, false), st h b l)
    | Some removals =>
        let kept := with_Cells p (kept_cells removals p) in
        if decide (kept_cells removals p = Cells (Status p)) then (inl (strip_annotation p, true), st h b l)
        else
          (match onStatus a l kept with
           | inl next => inl (strip_annotation next, true)
           | inr err => inr (TagWrapf "UpdateStatus" (Some err) "performing UpdateStatus call")
           end, st h b (l ++ [StatusUpdated kept (onStatus a l kept)]))
    end.
Proof.
  unfold tryRemoveCells. destruct (Annotations (pprMeta p) !! _) as [removals|]; [|done].
  assert (Hkept : Iter.CollectSlice (Iter.Filter (Iter.FromSlice (Cells (Status p))) (λ cellStatus,
      negb (bool_decide (CellId cellStatus ∈ list_to_set (C := gset string) (Split removals comma))))) =
    Ret (kept_cells removals p)).
  { erewrite visits_CollectSlice by (apply drains_visits, drains_Filter; left; apply FromSlice_pushes). f_equal.
    unfold kept_cells. apply list_filter_iff. intros c. rewrite negb_true_iff, bool_decide_eq_false.
    by rewrite elem_of_list_to_set. }
  run_gen. rewrite Hkept. run_gen.
  destruct (decide (kept_cells removals p = Cells (Status p))) as [He|Hne].
  - rewrite He, Nat.eqb_refl. done.
  - destruct (length (Cells (Status p)) =? length (kept_cells removals p)) eqn:Hlen; run_gen.
    + exfalso. apply Hne. apply Nat.eqb_eq in Hlen. by apply filter_same_length.
    + by destruct (onStatus _ _ _).
Qed.

End steps.

(** ** The invariant of a reconciliation *)
Section safety.
Context `{!GoRuntime} {Obj : Type} `{!SourceObject Obj}.
Variables (GroupVersion_String : string → string → string) (a : answers Obj) (obj : Obj).
Notation log := (list (event Obj)).
Implicit Types (l : log) (h : handle Obj).

(** The object was read with the finalizer, or the server accepted a version that has it. *)
Definition protected l : Prop :=
  fin obj = true ∨ ∃ o o', SourceUpdated o (inl o') ∈ l ∧ fin o = true.
(** PodProtectors are only created under the protection of the finalizer. *)
Definition creates_protected l : Prop :=
  ∀ l1 p r l2, l = l1 ++ Created p r :: l2 → protected l1.
(** The source object is only written with the finalizer. *)
Definition keeps_finalizer l : Prop := ∀ o r, SourceUpdated o r ∈ l → fin o = true.

Definition log_ok l : Prop := creates_protected l ∧ keeps_finalizer l.

Lemma protected_app l l' : protected l → protected (l ++ l').
Proof. intros [Hf|(o & o' & Ho & Hf)]; [by left|right; exists o, o'; set_solver]. Qed.

Lemma creates_snoc l ev :
  creates_protected l → (∀ p r, ev = Created p r → protected l) → creates_protected (l ++ [ev]).
Proof.
  intros Hl Hev l1 p r l2 Heq. destruct l2 as [|ev' l2 _] using rev_ind.
  - apply app_inj_tail in Heq as [<- ->]. by eapply Hev.
  - rewrite app_comm_cons, app_assoc in Heq. apply app_inj_tail in Heq as [-> _]. by eapply Hl.
Qed.

Lemma log_ok_suffix l suffix : log_ok l → Forall ppr_request suffix → log_ok (l ++ suffix).
Proof.
  intros Hl Hs. induction suffix as [|ev suffix IH] using rev_ind; [by rewrite app_nil_r|].
  apply Forall_app in Hs as [Hs [Hev _]%Forall_cons]. destruct (IH Hs) as [H1 H2].
  rewrite app_assoc. split.
  - by apply creates_snoc; [|intros p r ->].
  - intros o r [Ho|Ho%list_elem_of_singleton]%elem_of_app; [by eapply H2|by subst].
Qed.

Lemma log_ok_write l o r : log_ok l → fin o = true → log_ok (l ++ [SourceUpdated o r]).
Proof.
  intros [H1 H2] Ho. split; [by apply creates_snoc|].
  intros o' r' [Ho'|Ho'%list_elem_of_singleton]%elem_of_app; [by eapply H2|by simplify_eq].
Qed.

Lemma log_ok_create l p r : log_ok l → protected l → log_ok (l ++ [Created p r]).
Proof.
  intros [H1 H2] Hp. split; [by apply creates_snoc|].
  intros o' r' [Ho'|Ho'%list_elem_of_singleton]%elem_of_app; [by eapply H2|by simplify_eq].
Qed.

(** The handle: the cache holds the object as it was read, and a copy is a protected version. *)
Definition handle_ok h l : Prop := cached h = obj ∧ (own h = None ∨ protected l).

Lemma handle_ok_app h l l' : handle_ok h l → handle_ok h (l ++ l').
Proof. intros [Hc Ho]. split; [done|]. destruct Ho; [by left|right; by apply protected_app]. Qed.

Lemma handle_protected h l : handle_ok h l → fin (current h) = true → protected l.
Proof. intros [Hc [Ho|Ho]] Hf; [|done]. left. unfold current in Hf. rewrite Ho, Hc in Hf. done. Qed.

(** The source object is protected after the finalizer is ensured. *)
Lemma ensure_cases h b l :
  handle_ok h l → log_ok l →
  ∃ err h' l', ensureSourceFinalizer (st h b l) = Ret (err, st h' false l') ∧ cached h' = obj ∧ log_ok l' ∧
    (∃ suffix, l' = l ++ suffix) ∧
    match err with
    | None => handle_ok h' l' ∧ protected l'
    | Some e => h' = h ∧ l' = l ∧ e = ErrNoFinalizerInTerminatingSource ∨
        ∃ o e0, onSource a l o = inr e0 ∧
          e = TagWrapf "UpdateSourceFinalizer" (Some e0) "update source object with the generator finalizer"
    end.
Proof.
  intros Hh Hl. rewrite ensure_eq. destruct (fin (current h)) eqn:Hf; [|destruct (terminating (current h))].
  - exists None, h, l. split; [done|]. split; [apply Hh|]. split; [done|].
    split; [exists []; by rewrite app_nil_r|]. split; [done|by eapply handle_protected].
  - eexists _, h, l. split; [done|]. split; [apply Hh|]. split; [done|].
    split; [exists []; by rewrite app_nil_r|]. by left.
  - eexists _, _, _. split; [reflexivity|]. split; [apply Hh|].
    split; [apply log_ok_write; [done|apply fin_with_finalizer]|]. split; [by eexists|].
    unfold write_error, written, after_write. destruct (onSource a l (with_finalizer (current h))) as [o|e] eqn:Ho.
    + assert (Hp : protected (l ++ [SourceUpdated (with_finalizer (current h)) (inl o)])).
      { right. exists (with_finalizer (current h)), o. split; [set_solver|apply fin_with_finalizer]. }
      split; [|done]. split; [apply Hh|by right].
    + right. by exists (with_finalizer (current h)), e.
Qed.

(** The sentinel error is private to the generator: no answer of the server contains it. *)
Hypothesis server_errors : ∀ l o e, onSource a l o = inr e → IsErrNoFinalizer e = false.

(** What a step that required a protector leaves. *)
Definition protects (err : option error) (s : state Obj log) l : Prop :=
  ∃ h l', s = st h false l' ∧ cached h = obj ∧ log_ok l' ∧ (err = None → handle_ok h l').

Lemma create_safe r h b l err s :
  handle_ok h l → log_ok l → createProtector GroupVersion_String r (st h b l) = Ret (err, s) → protects err s l.
Proof.
  intros Hh Hl. destruct (ensure_cases h b l Hh Hl) as (err1 & h1 & l1 & He & Hc & Hl1 & _ & Hm).
  unfold createProtector, mbind, gen_bind. rewrite He. destruct err1 as [e|].
  - destruct Hm as [(-> & -> & ->)|(o & e0 & Ho & ->)].
    + cbn. intros [= <- <-]. by exists h, l.
    + assert (IsErrNoFinalizer (TagWrapf "UpdateSourceFinalizer" (Some e0)
        "update source object with the generator finalizer") = false) as ->.
      { simpl. by eapply server_errors. }
      intros [= <- <-]. by exists h1, l1.
  - destruct Hm as [Hh1 Hp]. run_gen. destruct (GeneratePodProtector _ _ _) as [[p|e]|msg]; [| |done].
    + run_gen. intros Hret. assert (s = st h1 false (l1 ++ [Created p (onCreate a l1 p)])) as ->.
      { by destruct (onCreate a l1 p); injection Hret as _ <-. }
      eexists h1, _. split; [done|]. split; [done|]. split; [by apply log_ok_create|]. intros _. by apply handle_ok_app.
    + run_gen. intros [= <- <-]. by exists h1, l1.
Qed.

Lemma sync_safe p r h b l err s :
  handle_ok h l → log_ok l → syncProtector GroupVersion_String p r (st h b l) = Ret (err, s) → protects err s l.
Proof.
  intros Hh Hl. destruct (ensure_cases h b l Hh Hl) as (err1 & h1 & l1 & He & Hc & Hl1 & _ & Hm).
  unfold syncProtector, mbind, gen_bind. rewrite He. destruct err1 as [e|].
  { intros [= <- <-]. by exists h1, l1. }
  destruct Hm as [Hh1 Hp].
  assert (Hrem : ∃ res suffix, tryRemoveCells p (st h1 false l1) = Ret (res, st h1 false (l1 ++ suffix)) ∧
    Forall ppr_request suffix).
  { rewrite removeCells_eq. destruct (_ !! PprAnnotationRemoveCellOnce) as [removals|].
    - cbv zeta. case_decide.
      + eexists _, []. rewrite app_nil_r. split; [done|constructor].
      + eexists _, [_]. split; [done|]. by repeat constructor.
    - eexists _, []. rewrite app_nil_r. split; [done|constructor]. }
  destruct Hrem as (res & suffix & -> & Hsuf).
  assert (Hdone : ∀ suffix', Forall ppr_request suffix' → protects err (st h1 false (l1 ++ suffix')) l).
  { intros suffix' Hs'. eexists h1, _. split; [done|]. split; [done|]. split; [by apply log_ok_suffix|].
    intros _. by apply handle_ok_app. }
  destruct res as [[p1 ch]|e]; [|intros [= <- <-]; by apply Hdone].
  run_gen. destruct (GeneratePodProtector _ _ _) as [[q|e]|msg]; [| |done]; [|intros [= <- <-]; by apply Hdone].
  destruct (ch || _); run_gen; [|intros [= <- <-]; by apply Hdone].
  intros Hret. assert (s = st h1 false ((l1 ++ suffix) ++
    [Updated (with_Spec p1 (Spec q)) (onUpdate a (l1 ++ suffix) (with_Spec p1 (Spec q)))])) as ->.
  { by destruct (onUpdate _ _ _); injection Hret as _ <-. }
  rewrite <- app_assoc. apply Hdone. apply Forall_app. split; [done|]. by repeat constructor.
Qed.

(** ** The loop over the required and the existing PodProtectors *)

Definition pair_done l (pair : string * (option (RequiredProtector Obj) * option PodProtector)) : Prop :=
  pair.2.1 = None ∧ ∀ p, pair.2.2 = Some p → gone l p.

Definition loop_inv done (s : state Obj log) : Prop :=
  ∃ h b l, s = st h b l ∧ handle_ok h l ∧ log_ok l ∧ (b = true → Forall (pair_done l) done).
Definition loop_failed (s : state Obj log) : Prop :=
  ∃ h b l, s = st h b l ∧ cached h = obj ∧ log_ok l.

Lemma pair_safe done pair s s' err :
  loop_inv done s → reconcilePair GroupVersion_String pair s = Ret (s', err) →
  match err with None => loop_inv (done ++ [pair]) s' | Some _ => loop_failed s' end.
Proof.
  intros (h & b & l & -> & Hh & Hl & Hdone). destruct pair as [n [[r|] [p|]]];
    unfold reconcilePair, tryReconcile; run_gen.
  - destruct (syncProtector _ _ _ _) as [[err' s1]|msg] eqn:Hrun; [|done]. run_gen. intros [= <- <-].
    destruct (sync_safe p r h b l err' s1 Hh Hl Hrun) as (h1 & l1 & -> & Hc & Hl1 & Hn).
    destruct err'; exists h1, false, l1; [done|]. split; [done|]. split; [by apply Hn|done].
  - destruct (createProtector _ _ _) as [[err' s1]|msg] eqn:Hrun; [|done]. run_gen. intros [= <- <-].
    destruct (create_safe r h b l err' s1 Hh Hl Hrun) as (h1 & l1 & -> & Hc & Hl1 & Hn).
    destruct err'; exists h1, false, l1; [done|]. split; [done|]. split; [by apply Hn|done].
  - destruct (delete_cases a p h b l) as (err' & suffix & -> & Hsuf & Hgone & _). run_gen. intros [= <- <-].
    destruct err' as [e|]; eexists h, _, (l ++ suffix); (split; [done|]).
    + split; [apply Hh|by apply log_ok_suffix].
    + split; [by apply handle_ok_app|]. split; [by apply log_ok_suffix|]. intros Hb. apply Forall_app. split.
      * eapply Forall_impl; [by apply Hdone|]. intros pr [H1 H2]. split; [done|]. intros q Hq. by apply gone_app, H2.
      * repeat constructor. intros q [= <-]. by apply Hgone.
  - intros [= <- <-]. exists h, b, l. split; [done|]. split; [done|]. split; [done|]. intros Hb.
    apply Forall_app. split; [by apply Hdone|]. by repeat constructor.
Qed.

Lemma loop_safe pairs : ∀ done s s' err,
  loop_inv done s → try_list (reconcilePair GroupVersion_String) s pairs = Ret (s', err) →
  match err with None => loop_inv (done ++ pairs) s' | Some _ => loop_failed s' end.
Proof.
  induction pairs as [|pair pairs IH]; intros done s s' err Hs; cbn [try_list].
  { intros [= <- <-]. by rewrite app_nil_r. }
  destruct (reconcilePair _ pair s) as [[s1 e]|msg] eqn:Hrun; [|done]. cbn [mbind outcome_bind].
  pose proof (pair_safe done pair s s1 e Hs Hrun) as H1. destruct e as [e|].
  - intros [= <- <-]. done.
  - intros Htry. pose proof (IH (done ++ [pair]) s1 s' err H1 Htry) as H2. by rewrite <- app_assoc in H2.
Qed.

End safety.

(** The run of the loop of a reconciliation whose indexer answers. *)
Lemma reconcileObject_loop `{!GoRuntime} {Obj W} `{!SourceObject Obj, !ApiServer Obj W} GroupVersion_String ty
    (sourceObject : option Obj) ByIndex nsName (w : W) pprs :
  ByIndex (slash_join [gvkGroup (typeKind ty); gvkKind (typeKind ty);
    Namespaced.Namespace nsName; Namespaced.Name nsName]) = inl pprs →
  reconcileObject GroupVersion_String ty sourceObject ByIndex nsName w =
    ('(s, err) ← try_list (reconcilePair GroupVersion_String)
        {| source := (λ obj, {| cached := obj; own := None |}) <$> sourceObject;
           sourceFinalizerNeedsRemoval := true; world := w |}
        (pairs2 match sourceObject with
                | Some obj => Slices.SliceToMap (GetRequiredProtectors obj) (λ reqmt, reqName reqmt obj)
                | None => ∅
                end (Slices.SliceToMap pprs (λ ppr, Name (pprMeta ppr))));
     match err with
     | Some err => Ret (Some err, s)
     | None =>
         if sourceFinalizerNeedsRemoval s && Optional.IsSome (source s) then removeSourceFinalizer s
         else Ret (None, s)
     end).
Proof.
  intros Hix. unfold reconcileObject. rewrite Hix, CollectMap_SliceToMap. cbn [mbind outcome_bind].
  by rewrite (pushes_TryForEach _ _ _ _ (FromMap2_pushes _ _)).
Qed.

Definition index_key (ty : TypeDef) (nsName : Namespaced.NamespacedName) : string :=
  slash_join [gvkGroup (typeKind ty); gvkKind (typeKind ty); Namespaced.Namespace nsName; Namespaced.Name nsName].

(** ** When a reconciliation requests nothing *)
Section quiescence.
Context `{!GoRuntime} {Obj : Type} `{!SourceObject Obj}.
Variables (GroupVersion_String : string → string → string) (a : answers Obj) (obj : Obj).
Notation log := (list (event Obj)).
Notation run_pair := (reconcilePair GroupVersion_String).

(** What follows the finalizer in the two operations. *)
Definition create_rest (r : RequiredProtector Obj) : gen Obj log (option error) :=
  obj ← getSource;
  ppr ← lift (GeneratePodProtector GroupVersion_String obj r);
  match ppr with
  | inr err => mret (Some (TagWrapf "GeneratePpr" (Some err) "generating PodProtector from source object"))
  | inl ppr =>
      res ← request (CreatePpr ppr);
      mret (match res with
            | inr err => Some (TagWrapf "CreateNewPpr" (Some err) "create new PodProtector object")
            | inl _ => None
            end)
  end.
Definition sync_rest (p : PodProtector) (r : RequiredProtector Obj) : gen Obj log (option error) :=
  removed ← tryRemoveCells p;
  match removed with
  | inr err => mret (Some (TagWrapf "RemoveCells" (Some err) "removing obsolete cells from PodProtector status"))
  | inl (current, hasChange) =>
      obj ← getSource;
      expected ← lift (GeneratePodProtector GroupVersion_String obj r);
      match expected with
      | inr err => mret (Some (TagWrapf "GeneratePpr" (Some err) "generating PodProtector from source object"))
      | inl expected =>
          if hasChange || negb (bool_decide (Spec current = Spec expected)) then
            r ← request (UpdatePpr (Obj := Obj) (with_Spec current (Spec expected)));
            mret (match r with
                  | inr err => Some (TagWrapf "UpdatePprSpec" (Some err) "update PodProtector object spec")
                  | inl _ => None
                  end)
          else mret None
      end
  end.

Lemma create_unfold r s :
  createProtector GroupVersion_String r s =
    match ensureSourceFinalizer s with
    | Ret (None, s) => create_rest r s
    | Ret (Some err, s) => Ret (if IsErrNoFinalizer err then None
        else Some (TagWrapf "EnsureSourceFinalizer" (Some err) "ensure finalizer in source object"), s)
    | Panic msg => Panic msg
    end.
Proof.
  unfold createProtector. unfold mbind at 1, gen_bind at 1.
  destruct (ensureSourceFinalizer s) as [[[e|] s1]|msg]; [by destruct (IsErrNoFinalizer e)|done|done].
Qed.

Lemma sync_unfold p r s :
  syncProtector GroupVersion_String p r s =
    match ensureSourceFinalizer s with
    | Ret (None, s) => sync_rest p r s
    | Ret (Some err, s) => Ret (Some (TagWrapf "EnsureSourceFinalizer" (Some err) "ensure finalizer in source object"), s)
    | Panic msg => Panic msg
    end.
Proof.
  unfold syncProtector. unfold mbind at 1, gen_bind at 1.
  by destruct (ensureSourceFinalizer s) as [[[e|] s1]|msg].
Qed.

(** A protector that needs no request, given the object as it was read. *)
Definition pair_settled (reqmt : option (RequiredProtector Obj)) (ppr : option PodProtector) : Prop :=
  match reqmt, ppr with
  | Some r, Some p => fin obj = true ∧ Annotations (pprMeta p) !! PprAnnotationRemoveCellOnce = None ∧
      reqSpec r obj = Ret (inl (Spec p))
  | Some r, None => fin obj = false ∧ terminating obj = true
  | None, Some p => hasFinalizer (Finalizers (pprMeta p)) = false ∧
      IsZeroPtr (DeletionTimestamp (pprMeta p)) = false
  | None, None => True
  end.

(** Requests are only added. *)
Definition grows (l : log) (s : state Obj log) : Prop := ∃ h b suffix, s = st h b (l ++ suffix).

Lemma grows_refl h b l : grows l (st h b l).
Proof. exists h, b, []. by rewrite app_nil_r. Qed.
Lemma grows_trans l s1 s2 : grows l s1 → grows (world s1) s2 → grows l s2.
Proof. intros (h1 & b1 & u1 & ->) (h2 & b2 & u2 & ->). exists h2, b2, (u1 ++ u2). simpl. by rewrite app_assoc. Qed.

Lemma ensure_grows h b l : ∃ err s, ensureSourceFinalizer (st h b l) = Ret (err, s) ∧ grows l s.
Proof.
  rewrite ensure_eq. destruct (fin _); [|destruct (terminating _)]; (do 2 eexists; split; [done|]);
    try apply grows_refl. by do 3 eexists.
Qed.

Lemma removeCells_grows p h b l : ∃ res s, tryRemoveCells p (st h b l) = Ret (res, s) ∧ grows l s.
Proof.
  rewrite removeCells_eq. destruct (_ !! _); [|do 2 eexists; split; [done|apply grows_refl]].
  cbv zeta. case_decide; (do 2 eexists; split; [done|]); [apply grows_refl|by do 3 eexists].
Qed.

Lemma create_rest_grows r h b l err s : create_rest r (st h b l) = Ret (err, s) → err = None → ∃ h' b' u, u ≠ [] ∧ s = st h' b' (l ++ u).
Proof.
  unfold create_rest. run_gen. destruct (GeneratePodProtector _ _ _) as [[p|e]|msg]; [| |done]; run_gen.
  - intros [= _ <-] _. by eexists h, b, [_].
  - by intros [= <- _].
Qed.

Lemma sync_rest_grows p r h b l err s : sync_rest p r (st h b l) = Ret (err, s) → grows l s.
Proof.
  unfold sync_rest, mbind, gen_bind. destruct (removeCells_grows p h b l) as (res & s2 & -> & Hg).
  destruct res as [[p1 ch]|e]; [|by intros [= <- <-]]. destruct Hg as (h2 & b2 & u2 & ->). run_gen.
  destruct (GeneratePodProtector _ _ _) as [[q|e]|msg]; [| |done]; [|intros [= _ <-]; by exists h2, b2, u2].
  destruct (ch || _); run_gen; intros [= _ <-]; [|by exists h2, b2, u2].
  eexists h2, b2, (u2 ++ [_]). by rewrite app_assoc.
Qed.

Lemma create_grows r h b l err s :
  createProtector GroupVersion_String r (st h b l) = Ret (err, s) → grows l s.
Proof.
  rewrite create_unfold. destruct (ensure_grows h b l) as (e & s1 & -> & h1 & b1 & u & ->).
  destruct e as [e|]; [intros [= _ <-]; by do 3 eexists|].
  unfold create_rest. run_gen. destruct (GeneratePodProtector _ _ _) as [[p|e]|msg]; [| |done]; run_gen; intros [= _ <-].
  - eexists h1, b1, (u ++ [_]). by rewrite app_assoc.
  - by exists h1, b1, u.
Qed.

Lemma sync_grows p r h b l err s :
  syncProtector GroupVersion_String p r (st h b l) = Ret (err, s) → grows l s.
Proof.
  rewrite sync_unfold. destruct (ensure_grows h b l) as (e & s1 & -> & Hg).
  destruct e as [e|]; [by intros [= _ <-]|]. destruct Hg as (h1 & b1 & u & ->). intros Hs%sync_rest_grows.
  apply (grows_trans l (st h1 b1 (l ++ u))); [|done]. by exists h1, b1, u.
Qed.

Lemma pair_grows pair h b l s err :
  run_pair pair (st h b l) = Ret (s, err) → grows l s.
Proof.
  destruct pair as [n [[r|] [p|]]]; unfold reconcilePair, tryReconcile; run_gen.
  - destruct (syncProtector _ _ _ _) as [[e s1]|msg] eqn:Hs; [|done]. intros [= <- <-]. by eapply sync_grows.
  - destruct (createProtector _ _ _) as [[e s1]|msg] eqn:Hs; [|done]. intros [= <- <-]. by eapply create_grows.
  - destruct (delete_cases a p h b l) as (e & u & -> & _). intros [= <- <-]. by do 3 eexists.
  - intros [= <- <-]. apply grows_refl.
Qed.

Lemma loop_grows pairs : ∀ h b l s err, try_list run_pair (st h b l) pairs = Ret (s, err) → grows l s.
Proof.
  induction pairs as [|pair pairs IH]; intros h b l s err; cbn [try_list]; [intros [= <- <-]; apply grows_refl|].
  destruct (run_pair pair (st h b l)) as [[s1 e]|msg] eqn:Hrun; [|done]. cbn [mbind outcome_bind].
  apply pair_grows in Hrun. destruct e as [e|]; [by intros [= <- <-]|]. intros Htry.
  destruct Hrun as (h1 & b1 & u & ->). apply (grows_trans l (st h1 b1 (l ++ u))); [|by eapply IH].
  by exists h1, b1, u.
Qed.

(** The handle of the object as it was read. *)
Definition as_read : handle Obj := {| cached := obj; own := None |}.

Lemma pair_settled_quiet n reqmt ppr b l :
  pair_settled reqmt ppr →
  run_pair (n, (reqmt, ppr)) (st as_read b l) =
    Ret (st as_read (match reqmt with Some _ => false | None => b end) l, None).
Proof.
  destruct reqmt as [r|], ppr as [p|]; unfold reconcilePair, tryReconcile; run_gen.
  - intros (Hf & Ha & Hs). unfold syncProtector, mbind, gen_bind. rewrite ensure_eq.
    change (current as_read) with obj. rewrite Hf, removeCells_eq, Ha. run_gen.
    unfold GeneratePodProtector, current, as_read. simpl. rewrite Hs. simpl. by rewrite bool_decide_eq_true_2.
  - intros [Hf Ht]. unfold createProtector, mbind, gen_bind. rewrite ensure_eq.
    change (current as_read) with obj. rewrite Hf, Ht. done.
  - intros [Hf Hz]. destruct (delete_cases a p as_read b l) as (e & u & -> & _ & _ & Hu & He).
    assert (u = []) as -> by (by apply Hu). rewrite He, app_nil_r by done. done.
  - done.
Qed.

(** A log with a request is longer. *)
Lemma grows_cons l ev s : grows (l ++ [ev]) s → world s ≠ l.
Proof.
  intros (h & b & u & ->) Heq. simpl in Heq. apply (f_equal length) in Heq. rewrite !length_app in Heq. simpl in Heq. lia.
Qed.

Lemma sync_rest_quiet p r b l s :
  sync_rest p r (st as_read b l) = Ret (None, s) → world s = l →
  Annotations (pprMeta p) !! PprAnnotationRemoveCellOnce = None ∧ reqSpec r obj = Ret (inl (Spec p)).
Proof.
  unfold sync_rest, mbind, gen_bind. rewrite removeCells_eq.
  destruct (_ !! PprAnnotationRemoveCellOnce) as [removals|]; [cbv zeta; case_decide|].
  - run_gen. destruct (GeneratePodProtector _ _ _) as [[q|e]|msg]; [|done|done]. run_gen.
    intros [= _ <-] Hw. exfalso. eapply grows_cons; [apply grows_refl|exact Hw].
  - destruct (onStatus _ _ _) as [next|e]; [|done]. run_gen.
    destruct (GeneratePodProtector _ _ _) as [[q|e]|msg]; [|done|done]. run_gen.
    intros [= _ <-] Hw. exfalso. eapply grows_cons; [|exact Hw]. by eexists as_read, b, [_].
  - run_gen. destruct (GeneratePodProtector GroupVersion_String obj r) as [[q|e]|msg] eqn:Hq; [|done|done].
    simpl. intros Hret Hw. split; [done|].
    unfold GeneratePodProtector in Hq. destruct (reqSpec r obj) as [[spec|e]|msg]; [|done|done].
    injection Hq as <-. simpl in Hret. case_bool_decide as Hs; [by rewrite Hs|]. simpl in Hret. revert Hret. run_gen.
    intros [= _ <-]. exfalso. eapply grows_cons; [apply grows_refl|exact Hw].
Qed.

Lemma pair_quiet_settled n reqmt ppr b l s :
  run_pair (n, (reqmt, ppr)) (st as_read b l) = Ret (s, None) → world s = l → pair_settled reqmt ppr.
Proof.
  destruct reqmt as [r|], ppr as [p|]; unfold reconcilePair, tryReconcile; run_gen.
  - rewrite sync_unfold, ensure_eq. change (current as_read) with obj.
    destruct (fin obj); [|destruct (terminating obj); [done|]].
    + destruct (sync_rest p r _) as [[e s1]|msg] eqn:Hs; [|done]. intros [= <- ->] Hw.
      split; [done|]. by eapply sync_rest_quiet.
    + unfold write_error, after_write. destruct (onSource _ _ _) as [o|e]; [|done].
      destruct (sync_rest p r _) as [[e s1]|msg] eqn:Hs; [|done]. intros [= <- ->] Hw. exfalso.
      eapply grows_cons; [by eapply sync_rest_grows|exact Hw].
  - rewrite create_unfold, ensure_eq. change (current as_read) with obj.
    destruct (fin obj); [|destruct (terminating obj); [done|]].
    + destruct (create_rest r _) as [[e s1]|msg] eqn:Hs; [|done]. intros [= <- ->] Hw. exfalso.
      apply create_rest_grows in Hs as (h' & b' & u & Hu & ->); [|done]. simpl in Hw.
      apply (f_equal length) in Hw. rewrite length_app in Hw. destruct u; [done|simpl in Hw; lia].
    + unfold write_error, after_write. destruct (onSource _ _ _) as [o|e].
      * destruct (create_rest r _) as [[e s1]|msg] eqn:Hs; [|done]. intros [= <- ->] Hw. exfalso.
        apply create_rest_grows in Hs as (h' & b' & u & _ & ->); [|done].
        eapply grows_cons; [by eexists h', b', u|exact Hw].
      * intros [= <- _] Hw. exfalso. eapply grows_cons; [apply grows_refl|exact Hw].
  - destruct (delete_cases a p as_read b l) as (e & u & -> & _ & _ & Hu & _). intros [= <- ->] Hw.
    apply Hu. simpl in Hw. apply (f_equal length) in Hw. rewrite length_app in Hw. destruct u; [done|simpl in Hw; lia].
  - done.
Qed.

Definition unrequired (pairs : list (string * (option (RequiredProtector Obj) * option PodProtector))) : bool :=
  forallb (λ pair, match pair.2.1 with Some _ => false | None => true end) pairs.

Lemma loop_settled pairs b l :
  Forall (λ pair, pair_settled pair.2.1 pair.2.2) pairs →
  try_list run_pair (st as_read b l) pairs = Ret (st as_read (b && unrequired pairs) l, None).
Proof.
  intros Hall. revert b. induction Hall as [|[n [r p]] pairs Hp Hall IH]; intros b; cbn [try_list].
  { by rewrite andb_true_r. }
  rewrite pair_settled_quiet by done. cbn [mbind outcome_bind]. rewrite IH. simpl.
  by destruct r; rewrite ?andb_false_r.
Qed.

Lemma loop_quiet pairs : ∀ b l s,
  try_list run_pair (st as_read b l) pairs = Ret (s, None) → world s = l →
  Forall (λ pair, pair_settled pair.2.1 pair.2.2) pairs.
Proof.
  induction pairs as [|[n [r p]] pairs IH]; intros b l s; cbn [try_list]; [constructor|].
  destruct (run_pair (n, (r, p)) (st as_read b l)) as [[s1 e]|msg] eqn:Hrun; [|done]. cbn [mbind outcome_bind].
  destruct e as [e|]; [done|]. intros Htry Hw.
  pose proof (pair_grows _ _ _ _ _ _ Hrun) as (h1 & b1 & u1 & ->).
  destruct (loop_grows _ _ _ _ _ _ Htry) as (h2 & b2 & u2 & ->).
  assert (u1 = [] ∧ u2 = []) as [-> ->].
  { simpl in Hw. apply (f_equal length) in Hw. rewrite !length_app in Hw.
    destruct u1, u2; simpl in Hw; try lia. done. }
  rewrite app_nil_r in Hrun, Htry.
  assert (Hp : pair_settled r p) by (by eapply pair_quiet_settled).
  rewrite pair_settled_quiet in Hrun by done. injection Hrun as <- <-.
  constructor; [done|]. eapply IH; [exact Htry|simpl; apply app_nil_r].
Qed.

End quiescence.

(** ** Properties *)

(** C10. Safety of a reconciliation, for any answers of the API server and wherever it stops. The
    object in the informer cache is never mutated; a PodProtector is only created once the
    source object is known to have the finalizer, as it was read or in a version that the
    server accepted; and the source object is only written without the finalizer as the last
    request, when it requires no protector and each of its PodProtectors is being deleted. *)
Theorem reconcileObject_safe `{!GoRuntime} {Obj : Type} `{!SourceObject Obj}
    (GroupVersion_String : string → string → string) (a : answers Obj) (ty : TypeDef) (obj : Obj)
    (ByIndex : string → list PodProtector + error) (nsName : Namespaced.NamespacedName) (err : option error)
    (s : state Obj (list (event Obj))) :
  (∀ l o e, onSource a l o = inr e → IsErrNoFinalizer e = false) →
  reconcileObject GroupVersion_String ty (Some obj) ByIndex nsName [] = Ret (err, s) →
  (∃ h, source s = Some h ∧ cached h = obj) ∧
  creates_protected obj (world s) ∧
  ∀ l1 o r l2, world s = l1 ++ SourceUpdated o r :: l2 → fin o = false →
    l2 = [] ∧ GetRequiredProtectors obj = [] ∧
    ∃ pprs, ByIndex (index_key ty nsName) = inl pprs ∧
      ∀ p, p ∈ pprs → NoDup ((λ ppr, Name (pprMeta ppr)) <$> pprs) → gone l1 p.
Proof.
  intros Herr. destruct (ByIndex (index_key ty nsName)) as [pprs|e] eqn:Hix.
  2:{ unfold reconcileObject. unfold index_key in Hix. rewrite Hix. intros [= <- <-]. simpl. split; [by eexists|].
      split; [intros l1 p r l2 Heq|intros l1 o r l2 Heq]; by destruct l1. }
  rewrite (reconcileObject_loop _ _ _ _ _ _ pprs) by done.
  set (pairs := pairs2 _ _).
  destruct (try_list _ _ pairs) as [[s1 err1]|msg] eqn:Hloop; [|done]. cbn [mbind outcome_bind].
  assert (Hinv0 : loop_inv obj [] (st {| cached := obj; own := None |} true [])).
  { do 3 eexists. split; [done|]. split; [split; [done|by left]|]. split; [|by constructor].
    split; [intros l1 p r l2 Heq; by destruct l1|by intros o r ?%not_elem_of_nil]. }
  pose proof (loop_safe GroupVersion_String a obj Herr pairs [] _ s1 err1 Hinv0 Hloop) as Hinv.
  assert (Hkept : ∀ h b l, keeps_finalizer l → cached h = obj → creates_protected obj l → s = st h b l →
    (∃ h, source s = Some h ∧ cached h = obj) ∧ creates_protected obj (world s) ∧
    ∀ l1 o r l2, world s = l1 ++ SourceUpdated o r :: l2 → fin o = false →
      l2 = [] ∧ GetRequiredProtectors obj = [] ∧ ∃ pprs0 : list PodProtector, inl (B := error) pprs = inl pprs0 ∧
        ∀ p, p ∈ pprs0 → NoDup ((λ ppr, Name (pprMeta ppr)) <$> pprs0) → gone l1 p).
  { intros h b l Hk Hc Hp ->. split; [by eexists|]. split; [done|]. intros l1 o r l2 Heq Hf. exfalso.
    simpl in Heq. rewrite (Hk o r) in Hf; [done|]. rewrite Heq. set_solver. }
  destruct err1 as [e|].
  { destruct Hinv as (h & b & l & -> & Hc & Hp & Hk). intros [= <- <-]. by eapply Hkept. }
  destruct Hinv as (h & b & l & -> & [Hc Ho] & [Hp Hk] & Hdone). simpl.
  rewrite andb_true_r. destruct b; [|intros [= <- <-]; by eapply Hkept].
  destruct (removeSource_eq a h true l) as [obj' Hrem]. rewrite Hrem.
  destruct (fin (current h)); [|intros [= <- <-]; by eapply Hkept].
  intros [= _ <-]. simpl. split; [by eexists|]. split; [by apply creates_snoc|].
  intros l1 o r l2 Heq Hf. unfold after_write in Heq. destruct l2 as [|ev l2 _] using rev_ind.
  - apply app_inj_tail in Heq as [-> _]. split; [done|]. specialize (Hdone eq_refl). rewrite app_nil_l in Hdone.
    rewrite Forall_forall in Hdone. split.
    + destruct (GetRequiredProtectors obj) as [|r0 rs] eqn:Hreq; [done|].
      destruct (SliceToMap_elem (r0 :: rs) (λ reqmt, reqName reqmt obj) r0) as [r1 Hr1]; [by left|].
      destruct (Hdone (reqName r0 obj, (Some r1, Slices.SliceToMap pprs (λ ppr, Name (pprMeta ppr))
        !! reqName r0 obj))) as [Hn _]; [|by simpl in Hn].
      subst pairs. apply elem_of_pairs2. split; [done|]. split; [done|]. left; eauto.
    + exists pprs. split; [done|]. intros p Hin Hnd.
      destruct (Hdone (Name (pprMeta p), (Slices.SliceToMap (GetRequiredProtectors obj) (λ reqmt, reqName reqmt obj)
        !! Name (pprMeta p), Some p))) as [_ Hg]; [|by apply Hg].
      subst pairs. apply elem_of_pairs2. split; [done|].
      by rewrite (SliceToMap_unique pprs (λ ppr, Name (pprMeta ppr)) p) by done; eauto.
  - exfalso. rewrite app_comm_cons, app_assoc in Heq. apply app_inj_tail in Heq as [-> _].
    rewrite (Hk o r) in Hf; [done|]. set_solver.
Qed.

(** A deployment and the PodProtector that is generated for it. *)
Definition example_percent (v : Deployment.IntOrString) (total : Z) (_ : bool) : Z + error :=
  match v with Deployment.FromInt i => inl i | Deployment.FromString _ => inl ((total + 3) `div` 4)%Z end.
Definition example_deployment (replicas : Z) (fs : list string) (deleted : option Time) : Deployment.Deployment := {|
  Deployment.deployMeta := {| Name := "web"; Namespace := "ns"; UID := "u"; ResourceVersion := "1";
    CreationTimestamp := 1%Z; Labels := ∅; Annotations := ∅; Finalizers := fs; OwnerReferences := [];
    DeletionTimestamp := deleted |};
  Deployment.Replicas := Some replicas; Deployment.deployMinReadySeconds := 0%Z;
  Deployment.deploySelector := Some {| MatchLabels := {[ "app" := "web" ]}; MatchExpressions := [] |};
  Deployment.RollingUpdate := None |}.
Definition example_source : SourceObject Deployment.Deployment :=
  Deployment.deployment_source example_percent (λ _, true) false.
Definition example_generated (replicas : Z) : PodProtector :=
  match GeneratePodProtector (SourceObject0 := example_source) (λ g v, g +:+ "/" +:+ v)
    (example_deployment replicas [GeneratorFinalizer] None) (Deployment.defaultReqmt example_percent)
  with
  | Ret (inl ppr) => ppr
  | _ => example_ppr 0 []
  end.
(** The server accepts every request as it is. *)
Definition example_answers : answers Deployment.Deployment := {|
  onCreate _ ppr := inl ppr; onUpdate _ ppr := inl ppr; onStatus _ ppr := inl ppr; onDelete _ _ _ := None;
  onSource _ obj := inl obj |}.
Definition example_name : Namespaced.NamespacedName := {| Namespaced.Namespace := "ns"; Namespaced.Name := "web" |}.
Definition example_reconcile (obj : option Deployment.Deployment) (pprs : list PodProtector) :=
  reconcileObject (SourceObject0 := example_source) (ApiServer0 := recording example_answers)
    (λ g v, g +:+ "/" +:+ v) Deployment.deployment_type obj (λ _, inl pprs) example_name [].

Definition example_deletion :=
  example_reconcile (Some (example_deployment 4 [GeneratorFinalizer] (Some 9%Z))) [example_generated 4].
Definition example_log (m : outcome (option error * state Deployment.Deployment (list (event Deployment.Deployment)))) :
    list (event Deployment.Deployment) :=
  match m with Ret (_, s) => world s | Panic _ => [] end.

(** The deployment is being deleted: its PodProtector is released and deleted, and then the
    finalizer of the deployment is removed. *)
Lemma reconcileObject_safe_witness :
  ∃ l1 o r, example_log example_deletion = l1 ++ [SourceUpdated o r] ∧ Finalizers (Deployment.deployMeta o) = [] ∧
    gone l1 (example_generated 4).
Proof.
  pose proof (λ err s, reconcileObject_safe (SourceObject0 := example_source) (λ g v, g +:+ "/" +:+ v) example_answers
    Deployment.deployment_type (example_deployment 4 [GeneratorFinalizer] (Some 9%Z)) (λ _, inl [example_generated 4])
    example_name err s) as Hsafe.
  change (reconcileObject _ _ _ _ _ _) with example_deletion in Hsafe.
  assert (Hlog : ∃ l1 o r, example_log example_deletion = l1 ++ [SourceUpdated o r] ∧
    Finalizers (Deployment.deployMeta o) = []).
  { exists (take 2 (example_log example_deletion)), (example_deployment 4 [] (Some 9%Z)),
      (inl (example_deployment 4 [] (Some 9%Z))). split; vm_compute; reflexivity. }
  destruct Hlog as (l1 & o & r & Hlog & Hfs). exists l1, o, r. split; [exact Hlog|]. split; [exact Hfs|].
  destruct example_deletion as [[err s]|msg]; [|by destruct l1].
  destruct (Hsafe err s) as (_ & _ & Hlast); [done|reflexivity|].
  destruct (Hlast l1 o r [] Hlog) as (_ & _ & pprs & Hp & Hg).
  - unfold fin. change (GetMeta o) with (Deployment.deployMeta o). by rewrite Hfs.
  - injection Hp as <-. apply Hg; [by left|]. apply NoDup_singleton.
Defined.

(** C11. A reconciliation has nothing to do, and does nothing, exactly when the cluster is as the
    source object asks. Without a source object no request is made, even for dangling
    PodProtectors. With one, the reconciliation succeeds without a request iff every required
    protector exists with the spec that is computed for it and no cells to remove while the
    object has the finalizer (or the object is terminating and was never protected), every
    other PodProtector is released and being deleted, and an object that requires no
    protector has no finalizer. *)
Theorem reconcileObject_settled `{!GoRuntime} {Obj : Type} `{!SourceObject Obj}
    (GroupVersion_String : string → string → string) (a : answers Obj) (ty : TypeDef)
    (ByIndex : string → list PodProtector + error) (nsName : Namespaced.NamespacedName)
    (pprs : list PodProtector) (l : list (event Obj)) :
  ByIndex (index_key ty nsName) = inl pprs →
  (∃ s, reconcileObject GroupVersion_String ty None ByIndex nsName l = Ret (None, s) ∧ world s = l) ∧
  ∀ obj, (∃ s, reconcileObject GroupVersion_String ty (Some obj) ByIndex nsName l = Ret (None, s) ∧ world s = l) ↔
    (∀ n, pair_settled obj (Slices.SliceToMap (GetRequiredProtectors obj) (λ reqmt, reqName reqmt obj) !! n)
      (Slices.SliceToMap pprs (λ ppr, Name (pprMeta ppr)) !! n)) ∧
    (GetRequiredProtectors obj = [] → fin obj = false).
Proof.
  intros Hix. split.
  { rewrite (reconcileObject_loop _ _ _ _ _ _ pprs) by done. eexists. split; [|shelve].
    assert (Hloop : ∀ pairs (b : bool), Forall (λ pair, pair.2.1 = None) pairs →
      try_list (reconcilePair GroupVersion_String) {| source := None : option (handle Obj);
        sourceFinalizerNeedsRemoval := b; world := l |} pairs =
      Ret ({| source := None; sourceFinalizerNeedsRemoval := b; world := l |}, None)).
    { intros pairs b Hall. induction Hall as [|[n [r p]] pairs Hp Hall IH]; [done|]. simpl in Hp. subst r.
      destruct p; apply IH. }
    rewrite Hloop; [done|]. apply Forall_forall. intros [n [r p]] (-> & _)%elem_of_pairs2. simpl. apply lookup_empty.
    Unshelve. done. }
  intros obj. rewrite (reconcileObject_loop _ _ _ _ _ _ pprs) by done.
  set (pairs := pairs2 _ _). set (reqs := Slices.SliceToMap (GetRequiredProtectors obj) _) in pairs |- *.
  set (prs := Slices.SliceToMap pprs _) in pairs |- *.
  change {| source := _; sourceFinalizerNeedsRemoval := true; world := l |} with (st (as_read obj) true l).
  assert (Hpairs : Forall (λ pair, pair_settled obj pair.2.1 pair.2.2) pairs ↔
    ∀ n, pair_settled obj (reqs !! n) (prs !! n)).
  { rewrite Forall_forall. split.
    - intros Hall n. destruct (reqs !! n) as [r|] eqn:Hr, (prs !! n) as [p|] eqn:Hp; try done;
        apply (Hall (n, (_, _))), elem_of_pairs2; rewrite Hr, Hp; naive_solver.
    - intros Hall [n [r p]] (-> & -> & _)%elem_of_pairs2. apply Hall. }
  assert (Hreq : unrequired pairs = true ↔ GetRequiredProtectors obj = []).
  { unfold unrequired. rewrite forallb_forall. setoid_rewrite <- list_elem_of_In. split.
    - intros Hall. destruct (GetRequiredProtectors obj) as [|r0 rs] eqn:Hr; [done|]. exfalso.
      destruct (SliceToMap_elem (r0 :: rs) (λ reqmt, reqName reqmt obj) r0) as [r1 Hr1]; [by left|].
      specialize (Hall (reqName r0 obj, (Some r1, prs !! reqName r0 obj))). discriminate Hall.
      apply elem_of_pairs2. split; [done|]. split; [done|]. left; eauto.
    - intros Hr [n [r p]] (-> & _)%elem_of_pairs2. simpl.
      replace (reqs !! n) with (None : option (RequiredProtector Obj)); [done|].
      subst reqs. rewrite Hr. symmetry. apply (lookup_empty (M := gmap string)). }
  destruct (removeSource_eq a (as_read obj) true l) as [o' Hrem]. change (current (as_read obj)) with obj in Hrem.
  rewrite <- Hpairs, <- Hreq. split.
  - intros (s & Hrun & Hw).
    destruct (try_list _ _ pairs) as [[s1 [e|]]|msg] eqn:Hloop; [done| |done]. cbn [mbind outcome_bind] in Hrun.
    destruct (loop_grows _ _ _ _ _ _ _ _ Hloop) as (h1 & b1 & u & Hs1).
    assert (Hu : u = []).
    { subst s1. simpl in Hrun. destruct (b1 && true); [|injection Hrun as <-; simpl in Hw].
      - destruct (removeSource_eq a h1 b1 (l ++ u)) as [o1 H1]. rewrite H1 in Hrun.
        destruct (fin (current h1)); [injection Hrun as _ <-|injection Hrun as <-]; simpl in Hw; unfold after_write in Hw;
          apply (f_equal length) in Hw; rewrite ?length_app in Hw; simpl in Hw;
          destruct u; [done|simpl in Hw; lia|done|simpl in Hw; lia].
      - apply (f_equal length) in Hw. rewrite length_app in Hw. destruct u; [done|simpl in Hw; lia]. }
    assert (Hset : Forall (λ pair, pair_settled obj pair.2.1 pair.2.2) pairs).
    { eapply loop_quiet; [exact Hloop|]. subst s1 u. simpl. apply app_nil_r. }
    split; [done|]. intros Hun. rewrite loop_settled in Hloop by done. injection Hloop as Hs. rewrite <- Hs, Hun in Hrun.
    simpl in Hrun. rewrite Hrem in Hrun. destruct (fin obj); [|done]. injection Hrun as _ <-. exfalso.
    simpl in Hw. unfold after_write in Hw. apply (f_equal length) in Hw. rewrite length_app in Hw. simpl in Hw. lia.
  - intros [Hset Hfin]. rewrite loop_settled by done. simpl. destruct (unrequired pairs); [|by eexists].
    simpl. rewrite Hrem, Hfin by done. by eexists.
Qed.

Lemma example_maps :
  Slices.SliceToMap (GetRequiredProtectors (SourceObject := example_source) (example_deployment 4 [GeneratorFinalizer] None))
    (λ reqmt, reqName reqmt (example_deployment 4 [GeneratorFinalizer] None)) =
    {[ "deployment-web" := Deployment.defaultReqmt example_percent ]} ∧
  Slices.SliceToMap [example_generated 4] (λ ppr, Name (pprMeta ppr)) = {[ "deployment-web" := example_generated 4 ]}.
Proof. done. Qed.

(** The deployment and its PodProtector agree: nothing is requested. *)
Lemma reconcileObject_settled_witness :
  ∃ s, example_reconcile (Some (example_deployment 4 [GeneratorFinalizer] None)) [example_generated 4] = Ret (None, s) ∧
    world s = [].
Proof.
  destruct (reconcileObject_settled (SourceObject0 := example_source) (λ g v, g +:+ "/" +:+ v) example_answers
    Deployment.deployment_type (λ _, inl [example_generated 4]) example_name [example_generated 4] [] eq_refl) as [_ Hset].
  apply Hset. split; [|done]. destruct example_maps as [Hreq Hprs]. intros n. unfold GetRequiredProtectors in Hreq |- *.
  rewrite Hreq, Hprs. destruct (decide (n = "deployment-web")) as [->|Hne].
  - rewrite !lookup_singleton_eq. split; [reflexivity|]. split; reflexivity.
  - by rewrite !lookup_singleton_ne by done.
Defined.

(** ** Names and indexes *)

Definition no_char (c : Ascii.ascii) (s : string) : Prop := c ∉ String.list_ascii_of_string s.

Lemma Split_word sep (w : string) :
  no_char sep w → Split w sep = [w].
Proof.
  unfold no_char. induction w as [|c w IH]; simpl; [done|]. rewrite not_elem_of_cons. intros [Hc Hw].
  destruct (Ascii.eqb_spec c sep) as [->|_]; [done|]. by rewrite IH.
Qed.

Lemma Split_app sep (w s : string) :
  no_char sep w → Split (w +:+ String sep s) sep = w :: Split s sep.
Proof.
  unfold no_char. induction w as [|c w IH]; simpl.
  - intros _. by rewrite Ascii.eqb_refl.
  - rewrite not_elem_of_cons. intros [Hc Hw].
    destruct (Ascii.eqb_spec c sep) as [->|_]; [done|]. rewrite IH by done. done.
Qed.

(** Splitting undoes joining. *)
Lemma Split_concat sep (l : list string) :
  l ≠ [] → Forall (no_char sep) l → Split (String.concat (String sep "") l) sep = l.
Proof.
  intros Hne Hall. destruct l as [|w l]; [done|]. clear Hne. revert w Hall.
  induction l as [|w' l IH]; intros w [Hw Hl]%Forall_cons; [by apply Split_word|].
  change (String.concat (String sep "") (w :: w' :: l)) with (w +:+ (String sep "" +:+ String.concat (String sep "") (w' :: l))).
  assert (∀ s, String sep "" +:+ s = String sep s) as -> by done. rewrite Split_app by done. by rewrite IH.
Qed.

Definition slash : Ascii.ascii := Ascii.ascii_of_nat 47.

(** C39. The index finds what the generator creates. The key that the index computes for a
    generated PodProtector is the key under which a reconciliation of its source object looks
    it up, and when no part has a slash, the key determines the group, the kind, the namespace and the name
    of the source object. *)
Theorem index_roundtrip {Obj : Type} `{!SourceObject Obj} (GroupVersion_String : string → string → string)
    (obj : Obj) (r : RequiredProtector Obj) (ppr : PodProtector) :
  let group := gvkGroup (typeKind (TypeOf obj)) in
  let kind := gvkKind (typeKind (TypeOf obj)) in
  let meta := GetMeta obj in
  GeneratePodProtector GroupVersion_String obj r = Ret (inl ppr) →
  gvrGroup (typeResource (TypeOf obj)) = group →
  Forall (no_char slash) [group; kind; Namespace meta; Name meta] →
  GroupKindNamespaceNameIndexFunc ppr =
    [index_key (TypeOf obj) {| Namespaced.Namespace := Namespace meta; Namespaced.Name := Name meta |}] ∧
  ∀ key, key ∈ GroupKindNamespaceNameIndexFunc ppr → Split key slash = [group; kind; Namespace meta; Name meta].
Proof.
  intros group kind meta. unfold GeneratePodProtector. destruct (reqSpec r obj) as [[spec|e]|msg]; [|done|done].
  intros [= <-] Hgroup Hall.
  match goal with |- GroupKindNamespaceNameIndexFunc ?ppr = _ ∧ _ =>
    assert (Hkey : GroupKindNamespaceNameIndexFunc ppr = [slash_join [group; kind; Namespace meta; Name meta]])
  end.
  { subst group. rewrite <- Hgroup. reflexivity. }
  rewrite Hkey. split; [done|]. intros key ->%list_elem_of_singleton. by apply Split_concat.
Qed.

Lemma index_roundtrip_witness :
  GroupKindNamespaceNameIndexFunc (example_generated 4) = ["apps/Deployment/ns/web"] ∧
  Split "apps/Deployment/ns/web" slash = ["apps"; "Deployment"; "ns"; "web"].
Proof.
  destruct (index_roundtrip (SourceObject0 := example_source) (λ g v, g +:+ "/" +:+ v)
    (example_deployment 4 [GeneratorFinalizer] None) (Deployment.defaultReqmt example_percent) (example_generated 4))
    as [H1 H2]; [reflexivity|reflexivity| |].
  - repeat constructor; unfold no_char; simpl; set_solver.
  - split; [exact H1|]. apply H2. rewrite H1. by left.
Defined.

(** C40. The spec of the PodProtector of a deployment: all replicas but the ones that its rolling
    update lets be unavailable, and never less than none or more than all. An error of the
    resolution is passed on, and a value that does not fit an int32 is refused. *)
Theorem reqmt_Spec_correct
    (GetValueFromIntOrPercent : Deployment.IntOrString → Z → bool → Z + error) (obj : Deployment.Deployment)
    (selector : LabelSelector) :
  let total := default 1%Z (Deployment.Replicas obj) in
  Deployment.deploySelector obj = Some selector → (0 ≤ total ≤ MaxInt32)%Z →
  (∀ v, GetValueFromIntOrPercent (Deployment.MaxUnavailable obj) total true = inl v → (0 ≤ v)%Z) →
  match GetValueFromIntOrPercent (Deployment.MaxUnavailable obj) total true with
  | inr err => ∃ err', Deployment.reqmt_Spec GetValueFromIntOrPercent obj = Ret (inr err') ∧
      err' = TagWrapf "ParseMaxUnavailable" (Some err) "parse max unavailable from deployment"
  | inl v =>
      if (MaxInt32 <? v)%Z then ∃ err', Deployment.reqmt_Spec GetValueFromIntOrPercent obj = Ret (inr err')
      else ∃ spec, Deployment.reqmt_Spec GetValueFromIntOrPercent obj = Ret (inl spec) ∧
        MinAvailable spec = Z.max 0 (total - v) ∧ (0 ≤ MinAvailable spec ≤ total)%Z ∧
        pprSelector spec = selector ∧ MinReadySeconds spec = Deployment.deployMinReadySeconds obj
  end.
Proof.
  intros total Hsel Htotal Hpos. unfold Deployment.reqmt_Spec, Deref. fold total.
  destruct (GetValueFromIntOrPercent _ total true) as [v|err]; [|by eexists].
  specialize (Hpos v eq_refl). destruct (Z.ltb_spec MaxInt32 v) as [Hv|Hv]; [by eexists|].
  rewrite Hsel. eexists. split; [done|]. simpl.
  rewrite (wrap32_id v) by (unfold in_int32, MinInt32, MaxInt32 in *; lia).
  rewrite wrap32_id by (unfold in_int32, MinInt32, MaxInt32 in *; lia).
  split; [lia|]. split; [lia|done].
Qed.

(** Of four replicas, one may be unavailable. *)
Lemma reqmt_Spec_correct_witness :
  ∃ spec, Deployment.reqmt_Spec example_percent (example_deployment 4 [] None) = Ret (inl spec) ∧ MinAvailable spec = 3%Z.
Proof.
  destruct (reqmt_Spec_correct example_percent (example_deployment 4 [] None)
    {| MatchLabels := {[ "app" := "web" ]}; MatchExpressions := [] |} eq_refl) as (spec & H1 & H2 & _).
  - vm_compute. split; discriminate.
  - intros v. vm_compute. intros [= <-]. discriminate.
  - exists spec. split; [exact H1|]. exact H2.
Defined.

(** Removing cells by annotation. While the source object has the finalizer, synchronizing a
    PodProtector that has the annotation first writes the status without the cells that the
    annotation lists, unless it lists none of the cells, and then writes the spec of the
    source object to the PodProtector that this returned, without the annotation, so that the
    removal happens once; an error stops at its request. *)
Theorem syncProtector_removes_cells {Obj : Type} `{!GoRuntime, !SourceObject Obj}
    (GroupVersion_String : string → string → string) (a : answers Obj) (obj : Obj) (r : RequiredProtector Obj)
    (p q : PodProtector) (removals : string) (b : bool) (l : list (event Obj)) :
  fin obj = true → Annotations (pprMeta p) !! PprAnnotationRemoveCellOnce = Some removals →
  GeneratePodProtector GroupVersion_String obj r = Ret (inl q) →
  let kept := filter (λ c, CellId c ∉ Split removals comma) (Cells (Status p)) in
  ∃ err events, syncProtector GroupVersion_String p r (st (as_read obj) b l) =
      Ret (err, st (as_read obj) false (l ++ events)) ∧
    let write l p := let final := with_Spec (strip_annotation p) (Spec q) in Updated final (onUpdate a l final) in
    let status := StatusUpdated (with_Cells p kept) (onStatus a l (with_Cells p kept)) in
    (∀ p', Annotations (pprMeta (with_Spec (strip_annotation p') (Spec q))) !! PprAnnotationRemoveCellOnce = None) ∧
    if decide (kept = Cells (Status p)) then
      events = [write l p] ∧
      (err = None ↔ ∃ p', onUpdate a l (with_Spec (strip_annotation p) (Spec q)) = inl p')
    else
      match onStatus a l (with_Cells p kept) with
      | inl next => events = [status; write (l ++ [status]) next] ∧
          (err = None ↔ ∃ p', onUpdate a (l ++ [status]) (with_Spec (strip_annotation next) (Spec q)) = inl p')
      | inr _ => events = [status] ∧ err ≠ None
      end.
Proof.
  intros Hf Ha Hq kept. rewrite (sync_unfold GroupVersion_String a), ensure_eq.
  change (current (as_read obj)) with obj. rewrite Hf. unfold sync_rest, mbind, gen_bind.
  rewrite removeCells_eq, Ha. cbv zeta. fold (kept_cells removals p) in kept. fold kept.
  assert (Hstrip : ∀ p', Annotations (pprMeta (with_Spec (strip_annotation p') (Spec q)))
    !! PprAnnotationRemoveCellOnce = None) by (intros p'; simpl; apply lookup_delete_eq).
  case_decide as Hk.
  - run_gen. rewrite Hq. run_gen. eexists _, [_]. split; [reflexivity|]. split; [done|]. split; [done|].
    destruct (onUpdate _ _ _); [split; eauto|split; [done|intros [? ?]; done]].
  - destruct (onStatus a l (with_Cells p kept)) as [next|e] eqn:Ho; run_gen.
    + rewrite Hq. run_gen. eexists _, [_; _]. split; [by rewrite <- app_assoc|]. split; [done|].
      split; [done|].
      destruct (onUpdate _ _ _); [split; eauto|split; [done|intros [? ?]; done]].
    + eexists (Some _), [_]. split; [reflexivity|]. by split.
Qed.

Lemma syncProtector_removes_cells_witness :
  let p := with_pprMeta (with_Cells (example_generated 4) [example_cell 5 []])
    (with_Annotations (pprMeta (example_generated 4)) {[ PprAnnotationRemoveCellOnce := "old,cell" ]}) in
  ∃ err events, syncProtector (SourceObject0 := example_source) (ApiServer0 := recording example_answers)
      (λ g v, g +:+ "/" +:+ v) p (Deployment.defaultReqmt example_percent)
      (st (as_read (example_deployment 4 [GeneratorFinalizer] None)) true []) =
      Ret (err, st (as_read (example_deployment 4 [GeneratorFinalizer] None)) false events) ∧
    err = None ∧ ∃ r final r', events = [StatusUpdated (with_Cells p []) r; Updated final r'] ∧
      Annotations (pprMeta final) !! PprAnnotationRemoveCellOnce = None.
Proof.
  intros p.
  destruct (syncProtector_removes_cells (SourceObject0 := example_source) (λ g v, g +:+ "/" +:+ v) example_answers
    (example_deployment 4 [GeneratorFinalizer] None) (Deployment.defaultReqmt example_percent) p (example_generated 4)
    "old,cell" true []) as (err & events & Hrun & Ha & Hev); [reflexivity|reflexivity|reflexivity|].
  exists err, events. split; [exact Hrun|].
  match type of Hev with context [decide ?P] => destruct (decide P) as [Hd|_] end; [by vm_compute in Hd|].
  cbn [onStatus example_answers] in Hev. destruct Hev as [-> He]. split; [apply He; eexists; reflexivity|].
  do 3 eexists. split; [reflexivity|]. apply Ha.
Defined.
