(* ===== verification/Monitor.v ===== *)
(** * Monitor: the statistics of the PodProtectors of a generator

    [Module Monitor] is generator/monitor/monitor.go with the sums of
    generator/observer/observer.go. The mutex of the status makes each update atomic, and one
    informer delivers the events in sequence, so that a run is a list of events. *)

From S2P Require Import Prelude Util Errors Iter Canonical SetTrie LabelIndex Api PprUtil.

Module Monitor.

Record StatusCount : Type := { MeetsMinAvailable : Z; AggregatedReplicas : Z; SumProportionPpm : Z }.
#[export] Instance StatusCount_zero : Zero StatusCount :=
  {| MeetsMinAvailable := 0; AggregatedReplicas := 0; SumProportionPpm := 0 |}%Z.

Record MonitorWorkloads : Type := {
  NumWorkloads : Z;
  NumNonZeroWorkloads : Z;
  SumMinAvailable : Z;
  EstimatedAvailableReplicas : Z;
  SumLatencyMillis : Z;
  Created : StatusCount;
  Available : StatusCount;
  Ready : StatusCount;
  Scheduled : StatusCount;
  Running : StatusCount
}.
#[export] Instance MonitorWorkloads_zero : Zero MonitorWorkloads := {|
  NumWorkloads := 0; NumNonZeroWorkloads := 0; SumMinAvailable := 0; EstimatedAvailableReplicas := 0;
  SumLatencyMillis := 0; Created := zero; Available := zero; Ready := zero; Scheduled := zero; Running := zero |}%Z.

Definition StatusCount_Add (dest delta : StatusCount) : StatusCount := {|
  MeetsMinAvailable := wrap64 (MeetsMinAvailable dest + MeetsMinAvailable delta);
  AggregatedReplicas := wrap64 (AggregatedReplicas dest + AggregatedReplicas delta);
  SumProportionPpm := wrap64 (SumProportionPpm dest + SumProportionPpm delta) |}.
Definition StatusCount_Subtract (dest delta : StatusCount) : StatusCount := {|
  MeetsMinAvailable := wrap64 (MeetsMinAvailable dest - MeetsMinAvailable delta);
  AggregatedReplicas := wrap64 (AggregatedReplicas dest - AggregatedReplicas delta);
  SumProportionPpm := wrap64 (SumProportionPpm dest - SumProportionPpm delta) |}.

Definition Add (dest delta : MonitorWorkloads) : MonitorWorkloads := {|
  NumWorkloads := wrap64 (NumWorkloads dest + NumWorkloads delta);
  NumNonZeroWorkloads := wrap64 (NumNonZeroWorkloads dest + NumNonZeroWorkloads delta);
  SumMinAvailable := wrap64 (SumMinAvailable dest + SumMinAvailable delta);
  EstimatedAvailableReplicas := wrap64 (EstimatedAvailableReplicas dest + EstimatedAvailableReplicas delta);
  SumLatencyMillis := wrap64 (SumLatencyMillis dest + SumLatencyMillis delta);
  Created := StatusCount_Add (Created dest) (Created delta);
  Available := StatusCount_Add (Available dest) (Available delta);
  Ready := StatusCount_Add (Ready dest) (Ready delta);
  Scheduled := StatusCount_Add (Scheduled dest) (Scheduled delta);
  Running := StatusCount_Add (Running dest) (Running delta) |}.
Definition Subtract (dest delta : MonitorWorkloads) : MonitorWorkloads := {|
  NumWorkloads := wrap64 (NumWorkloads dest - NumWorkloads delta);
  NumNonZeroWorkloads := wrap64 (NumNonZeroWorkloads dest - NumNonZeroWorkloads delta);
  SumMinAvailable := wrap64 (SumMinAvailable dest - SumMinAvailable delta);
  EstimatedAvailableReplicas := wrap64 (EstimatedAvailableReplicas dest - EstimatedAvailableReplicas delta);
  SumLatencyMillis := wrap64 (SumLatencyMillis dest - SumLatencyMillis delta);
  Created := StatusCount_Subtract (Created dest) (Created delta);
  Available := StatusCount_Subtract (Available dest) (Available delta);
  Ready := StatusCount_Subtract (Ready dest) (Ready delta);
  Scheduled := StatusCount_Subtract (Scheduled dest) (Scheduled delta);
  Running := StatusCount_Subtract (Running dest) (Running delta) |}.

Definition ProportionPpmUnits : Z := 1000000%Z.

Definition makeStatusCount (aggregated minAvailable : Z) : outcome StatusCount :=
  proportionPpm ← (if (0 <? minAvailable)%Z
    then rounded ← Math.RoundedIntDiv (wrap64 (aggregated * ProportionPpmUnits)) minAvailable;
         Ret (Z.min ProportionPpmUnits rounded)
    else Ret 0%Z);
  Ret {| MeetsMinAvailable := if (minAvailable <=? aggregated)%Z then 1 else 0;
         AggregatedReplicas := aggregated;
         SumProportionPpm := proportionPpm |}%Z.

Definition pprToStatus (ppr : PodProtector) : outcome MonitorWorkloads :=
  let min := MinAvailable (Spec ppr) in
  let summary := Summary (Status ppr) in
  created ← makeStatusCount (Total summary) min;
  available ← makeStatusCount (AggregatedAvailable summary) min;
  ready ← makeStatusCount (AggregatedReady summary) min;
  scheduled ← makeStatusCount (AggregatedScheduled summary) min;
  running ← makeStatusCount (AggregatedRunning summary) min;
  Ret {| NumWorkloads := 1; NumNonZeroWorkloads := if 0 <? min then 1 else 0; SumMinAvailable := min;
         EstimatedAvailableReplicas := EstimatedAvailable summary; SumLatencyMillis := MaxLatencyMillis summary;
         Created := created; Available := available; Ready := ready; Scheduled := scheduled; Running := running |}%Z.

Record State : Type := {
  status : MonitorWorkloads;
  addedDeltaCache : gmap Namespaced.NamespacedName MonitorWorkloads
}.

Definition initial : State := {| status := zero; addedDeltaCache := ∅ |}.

(** An absent entry of the cache is the zero value. *)
Definition add (nsName : Namespaced.NamespacedName) (newDelta : MonitorWorkloads) (state : State) : State :=
  let old := default zero (addedDeltaCache state !! nsName) in
  {| status := Add (Subtract (status state) old) newDelta;
     addedDeltaCache := <[nsName := newDelta]> (addedDeltaCache state) |}.
Definition remove (nsName : Namespaced.NamespacedName) (state : State) : State :=
  let old := default zero (addedDeltaCache state !! nsName) in
  {| status := Subtract (status state) old; addedDeltaCache := delete nsName (addedDeltaCache state) |}.

(** The event handler. *)
Definition handle (ppr : PodProtector) (stillPresent : bool) (state : State) : outcome State :=
  let nsName := {| Namespaced.Namespace := Namespace (pprMeta ppr); Namespaced.Name := Name (pprMeta ppr) |} in
  if stillPresent then
    status ← pprToStatus ppr;
    Ret (add nsName status state)
  else Ret (remove nsName state).

End Monitor.

(** ** Lemmas *)
Section monitor_lemmas.
Import Monitor.

(** The sums of a status, and those of a PodProtector, as a list. *)
Definition counts (c : StatusCount) : list Z := [MeetsMinAvailable c; AggregatedReplicas c; SumProportionPpm c].
Definition sums (w : MonitorWorkloads) : list Z :=
  [NumWorkloads w; NumNonZeroWorkloads w; SumMinAvailable w; EstimatedAvailableReplicas w; SumLatencyMillis w] ++
  counts (Created w) ++ counts (Available w) ++ counts (Ready w) ++ counts (Scheduled w) ++ counts (Running w).
Definition sum_at (i : nat) (w : MonitorWorkloads) : Z := default 0%Z (sums w !! i).

Lemma sums_Add a b : sums (Add a b) = zip_with (λ x y, wrap64 (x + y)) (sums a) (sums b).
Proof. done. Qed.
Lemma sums_Subtract a b : sums (Subtract a b) = zip_with (λ x y, wrap64 (x - y)) (sums a) (sums b).
Proof. done. Qed.

Lemma sum_at_Add i a b : sum_at i (Add a b) = wrap64 (sum_at i a + sum_at i b).
Proof. by do 20 (destruct i as [|i]; [reflexivity|]). Qed.
Lemma sum_at_Subtract i a b : sum_at i (Subtract a b) = wrap64 (sum_at i a - sum_at i b).
Proof. by do 20 (destruct i as [|i]; [reflexivity|]). Qed.
Lemma sum_at_zero i : sum_at i zero = 0%Z.
Proof. by do 20 (destruct i as [|i]; [reflexivity|]). Qed.

(** The sum over a cache. *)
Definition total (i : nat) (m : gmap Namespaced.NamespacedName MonitorWorkloads) : Z :=
  map_fold (λ _ w acc, sum_at i w + acc)%Z 0%Z m.

Lemma total_insert i m k w : m !! k = None → total i (<[k := w]> m) = (sum_at i w + total i m)%Z.
Proof. intros Hk. unfold total. rewrite map_fold_insert_L; [done| |done]. intros; lia. Qed.

Lemma total_delete i m k : total i m = (sum_at i (default zero (m !! k)) + total i (delete k m))%Z.
Proof.
  destruct (m !! k) as [w|] eqn:Hk; simpl.
  - rewrite <- (total_insert i (delete k m) k w) by apply lookup_delete_eq. by rewrite insert_delete_id.
  - by rewrite delete_id, sum_at_zero.
Qed.

(** The status is the sum of the cache, in 64-bit arithmetic. *)
Definition consistent (s : State) : Prop := ∀ i, sum_at i (status s) = wrap64 (total i (addedDeltaCache s)).

Lemma consistent_initial : consistent initial.
Proof. intros i. simpl. by rewrite sum_at_zero. Qed.

Lemma consistent_remove k s : consistent s → consistent (remove k s).
Proof.
  intros Hs i. simpl. rewrite sum_at_Subtract, Hs, wrap64_sub_l, (total_delete i (addedDeltaCache s) k). f_equal. lia.
Qed.

Lemma consistent_add k w s : consistent s → consistent (add k w s).
Proof.
  intros Hs i. simpl. rewrite sum_at_Add. change (Subtract _ _) with (status (remove k s)).
  rewrite (consistent_remove k s Hs), wrap64_add_l. simpl.
  rewrite <- insert_delete_eq, total_insert by apply lookup_delete_eq. f_equal. lia.
Qed.

End monitor_lemmas.

Section monitor_runs.
Import Monitor.

Lemma RoundedIntDiv_total n d : (0 < d)%Z → ∃ q, Math.RoundedIntDiv n d = Ret q.
Proof.
  intros Hd. unfold Math.RoundedIntDiv. rewrite (proj2 (Z.ltb_ge d 0)), (proj2 (Z.eqb_neq d 0)) by lia. eauto.
Qed.

Lemma makeStatusCount_total agg min : ∃ c, makeStatusCount agg min = Ret c.
Proof.
  unfold makeStatusCount. destruct (Z.ltb_spec 0 min) as [Hm|_]; [|simpl; eauto].
  destruct (RoundedIntDiv_total (wrap64 (agg * ProportionPpmUnits)) min Hm) as [q ->]. simpl. eauto.
Qed.

Lemma pprToStatus_total ppr : ∃ w, pprToStatus ppr = Ret w.
Proof.
  unfold pprToStatus.
  repeat match goal with |- context [makeStatusCount ?x ?y] =>
    let c := fresh "c" in let H := fresh "H" in destruct (makeStatusCount_total x y) as [c H]; rewrite H; clear H; simpl
  end. eauto.
Qed.

(** What a PodProtector contributes. *)
Definition contribution (ppr : PodProtector) : MonitorWorkloads :=
  match pprToStatus ppr with Ret w => w | Panic _ => zero end.

Definition ppr_name (ppr : PodProtector) : Namespaced.NamespacedName :=
  {| Namespaced.Namespace := Namespace (pprMeta ppr); Namespaced.Name := Name (pprMeta ppr) |}.

Lemma handle_total ppr b s :
  handle ppr b s = Ret (if b then add (ppr_name ppr) (contribution ppr) s else remove (ppr_name ppr) s).
Proof.
  unfold handle, contribution. destruct b; [|done]. destruct (pprToStatus_total ppr) as [w ->]. done.
Qed.

(** The PodProtectors that exist after a list of events. *)
Definition observed (m : gmap Namespaced.NamespacedName PodProtector) (ev : PodProtector * bool) :=
  if ev.2 then <[ppr_name ev.1 := ev.1]> m else delete (ppr_name ev.1) m.

Lemma monitor_run (events : list (PodProtector * bool)) : ∀ s m,
  consistent s → addedDeltaCache s = contribution <$> m →
  ∃ s', outcome_foldl (λ s '(ppr, b), handle ppr b s) s events = Ret s' ∧ consistent s' ∧
    addedDeltaCache s' = contribution <$> foldl observed m events.
Proof.
  induction events as [|[ppr b] events IH]; intros s m Hc Hm; cbn [outcome_foldl foldl]; [by eauto|].
  rewrite handle_total. cbn [mbind outcome_bind]. apply IH.
  - destruct b; [by apply consistent_add|by apply consistent_remove].
  - unfold observed. destruct b; simpl; rewrite Hm; [by rewrite fmap_insert|by rewrite fmap_delete].
Qed.

Lemma total_fmap i (m : gmap Namespaced.NamespacedName PodProtector) :
  total i (contribution <$> m) = map_fold (λ _ ppr acc, sum_at i (contribution ppr) + acc)%Z 0%Z m.
Proof.
  induction m as [|k ppr m Hk IH] using map_ind; [done|].
  rewrite fmap_insert, total_insert, IH by (by rewrite lookup_fmap, Hk).
  symmetry. rewrite map_fold_insert_L; [done| |done]. intros; lia.
Qed.

End monitor_runs.

(** ** Properties *)

(** C38. The statistics never drift. After any sequence of events of PodProtectors the handler has
    not panicked, and each of the twenty statistics is, in 64-bit arithmetic, the sum of what
    the PodProtectors that exist contribute, each counted once with its last version, however
    often it was updated, deleted or deleted again. *)
Theorem Monitor_sums (events : list (PodProtector * bool)) :
  ∃ s, outcome_foldl (λ s '(ppr, stillPresent), Monitor.handle ppr stillPresent s) Monitor.initial events = Ret s ∧
    ∀ i, sum_at i (Monitor.status s) =
      wrap64 (map_fold (λ _ ppr acc, sum_at i (contribution ppr) + acc)%Z 0%Z (foldl observed ∅ events)).
Proof.
  destruct (monitor_run events Monitor.initial ∅ consistent_initial) as (s & Hrun & Hc & Hm); [by rewrite fmap_empty|].
  exists s. split; [done|]. intros i. by rewrite Hc, Hm, total_fmap.
Qed.

(** What a PodProtector contributes to a status. The proportion lies between zero and one
    million, it is one million when the minimum is met, and otherwise it is the
    ratio of the pods to the minimum, rounded to the nearest millionth; a PodProtector
    without a minimum contributes no proportion. *)
Theorem makeStatusCount_correct (aggregated minAvailable : Z) :
  (0 ≤ aggregated ≤ MaxInt32)%Z → (0 ≤ minAvailable ≤ MaxInt32)%Z →
  ∃ c, Monitor.makeStatusCount aggregated minAvailable = Ret c ∧
    Monitor.AggregatedReplicas c = aggregated ∧
    (Monitor.MeetsMinAvailable c = 1 ↔ minAvailable ≤ aggregated)%Z ∧
    (0 ≤ Monitor.SumProportionPpm c ≤ Monitor.ProportionPpmUnits)%Z ∧
    (minAvailable = 0 → Monitor.SumProportionPpm c = 0)%Z ∧
    (0 < minAvailable ≤ aggregated → Monitor.SumProportionPpm c = Monitor.ProportionPpmUnits)%Z ∧
    (aggregated < minAvailable →
      - minAvailable < 2 * (Monitor.SumProportionPpm c * minAvailable - aggregated * Monitor.ProportionPpmUnits)
        ≤ minAvailable)%Z.
Proof.
  intros Ha Hm. unfold Monitor.makeStatusCount, Monitor.ProportionPpmUnits in *.
  assert (Hmeets : ((if (minAvailable <=? aggregated)%Z then 1 else 0) = 1 ↔ minAvailable ≤ aggregated)%Z).
  { destruct (Z.leb_spec minAvailable aggregated); lia. }
  destruct (Z.ltb_spec 0 minAvailable) as [Hpos|Hz].
  - rewrite wrap64_id by (unfold_wrap; lia).
    rewrite RoundedIntDiv_eq by (unfold_wrap; change (9223372036854775807 / 2)%Z with 4611686018427387903%Z; lia).
    simpl. eexists. split; [done|]. simpl. split; [done|]. split; [done|].
    set (q := ((2 * (aggregated * 1000000) + minAvailable) / (2 * minAvailable))%Z).
    pose proof (Z.div_mod (2 * (aggregated * 1000000) + minAvailable) (2 * minAvailable) ltac:(lia)) as Hdm.
    pose proof (Z.mod_pos_bound (2 * (aggregated * 1000000) + minAvailable) (2 * minAvailable) ltac:(lia)) as Hb.
    fold q in Hdm. set (r := ((2 * (aggregated * 1000000) + minAvailable) `mod` (2 * minAvailable))%Z) in *.
    assert (Hq0 : (0 ≤ q)%Z) by nia.
    split; [lia|]. split; [lia|]. split; [intros ?; assert (1000000 ≤ q)%Z by nia; lia|].
    intros Hlt. assert (Hq1 : (q ≤ 1000000)%Z) by nia. rewrite Z.min_r by lia. nia.
  - simpl. eexists. split; [done|]. simpl. split; [done|]. split; [done|]. lia.
Qed.

(** Of three required pods, two are available: 666667 ppm. *)
Lemma makeStatusCount_correct_witness :
  ∃ c, Monitor.makeStatusCount 2 3 = Ret c ∧ (-3 < 2 * (Monitor.SumProportionPpm c * 3 - 2 * 1000000) ≤ 3)%Z.
Proof.
  destruct (makeStatusCount_correct 2 3) as (c & H1 & _ & _ & _ & _ & _ & H2); [vm_compute; split; discriminate..|].
  exists c. split; [exact H1|]. apply H2. reflexivity.
Defined.
