(* ===== verification/Flags.v ===== *)
(** * Flags: the values of command line flags (util/flag)

    A flag value parses an argument with [Set_] and prints itself with [String_], which is also how its
    default is printed. The functions of strings and strconv that the source calls are here, for
    ASCII separators; [strconv.Quote], label selectors and the printing of keys and values are parameters. *)

From Stdlib Require Import Ascii.
From stdpp Require Import pretty.
From S2P Require Import Prelude Util Errors.

(** ** The functions of package strings *)
Module Strings.

(** [strings.Split(s, sep)] with a separator of one byte. *)
Fixpoint Split (s : string) (sep : ascii) : list string :=
  match s with
  | EmptyString => [EmptyString]
  | String c s =>
      if bool_decide (c = sep) then EmptyString :: Split s sep
      else match Split s sep with
           | [] => [String c EmptyString]
           | word :: words => String c word :: words
           end
  end.

(** [strings.Join(words, sep)]. *)
Definition Join (words : list string) (sep : ascii) : string := String.concat (String sep EmptyString) words.

(** [strings.IndexRune(s, c)]. *)
Fixpoint IndexRune (s : string) (c : ascii) : Z :=
  match s with
  | EmptyString => (-1)%Z
  | String d s =>
      if bool_decide (d = c) then 0%Z
      else let i := IndexRune s c in if (i =? -1)%Z then (-1)%Z else (i + 1)%Z
  end.

(** [s[:i]] and [s[i:]]. *)
Definition slice_to (s : string) (i : Z) : string := String.substring 0 (Z.to_nat i) s.
Definition slice_from (s : string) (i : Z) : string := String.substring (Z.to_nat i) (String.length s - Z.to_nat i) s.

End Strings.

(** ** The functions of package strconv, in base 10 *)
Module Strconv.

Definition digit (c : ascii) : option Z :=
  let n := Z.of_nat (nat_of_ascii c) in
  if ((48 <=? n) && (n <=? 57))%Z then Some (n - 48)%Z else None.

Definition ErrSyntax : error := errorString "invalid syntax".
Definition ErrRange : error := errorString "value out of range".

(** The digits are read from the left; the first one that is none or that leads beyond [maxVal] is an error. *)
Fixpoint ParseUint_loop (maxVal n : Z) (s : string) : Z + error :=
  match s with
  | EmptyString => inl n
  | String c s =>
      match digit c with
      | None => inr ErrSyntax
      | Some d => if (maxVal <? n * 10 + d)%Z then inr ErrRange else ParseUint_loop maxVal (n * 10 + d)%Z s
      end
  end.

Definition ParseUint (s : string) (bitSize : Z) : Z + error :=
  match s with
  | EmptyString => inr ErrSyntax
  | _ => ParseUint_loop (2 ^ bitSize - 1)%Z 0 s
  end.

Definition ParseInt (s : string) (bitSize : Z) : Z + error :=
  match s with
  | EmptyString => inr ErrSyntax
  | String c s' =>
      let neg := bool_decide (c = "-"%char) in
      let s := if neg || bool_decide (c = "+"%char) then s' else s in
      match ParseUint s bitSize with
      | inr err => inr err
      | inl un =>
          let cutoff := (2 ^ (bitSize - 1))%Z in
          if negb neg && (cutoff <=? un)%Z then inr ErrRange
          else if neg && (cutoff <? un)%Z then inr ErrRange
          else inl (if neg then - un else un)%Z
      end
  end.

Definition FormatInt (z : Z) : string := pretty z.

End Strconv.

(** ** Integers of a fixed size (int.go) *)
Module Int.

(** The parser and the formatter of the value are fixed by the type of the flag. *)
Record integerValue := {
  value : Z;
  parser : string → Z + error;
  formatter : Z → string
}.

Definition with_value (v : integerValue) (z : Z) : integerValue :=
  {| value := z; parser := parser v; formatter := formatter v |}.

Definition String_ (v : integerValue) : string := formatter v (value v).

Definition Set_ (v : integerValue) (input : string) : option error * integerValue :=
  match parser v input with
  | inr err => (Some err, v)
  | inl parsed => (None, with_value v parsed)
  end.

(** [T(value)] for a signed and an unsigned type [T] of [width] bits. *)
Definition to_signed (width value : Z) : Z := wrap width value.
Definition to_unsigned (width value : Z) : Z := (value `mod` 2 ^ width)%Z.

(** The type [T] has [width] bits. *)
Definition makeSignedIntegerFunc (width bitSize : Z) (defaultValue : Z) : integerValue := {|
  value := defaultValue;
  parser s :=
    match Strconv.ParseInt s bitSize with
    | inr err => inr (TagWrapf "ParseArg" (Some err) "argument expects integer")
    | inl value => inl (to_signed width value)
    end;
  formatter := Strconv.FormatInt
|}.
Definition makeUnsignedIntegerFunc (width bitSize : Z) (defaultValue : Z) : integerValue := {|
  value := defaultValue;
  parser s :=
    match Strconv.ParseUint s bitSize with
    | inr err => inr (TagWrapf "ParseArg" (Some err) "argument expects integer")
    | inl value => inl (to_unsigned width value)
    end;
  formatter := Strconv.FormatInt
|}.

Definition Int8 := makeSignedIntegerFunc 8 8.
Definition Int16 := makeSignedIntegerFunc 16 16.
Definition Int32 := makeSignedIntegerFunc 32 32.
Definition Int64 := makeSignedIntegerFunc 32 64.
Definition Uint8 := makeUnsignedIntegerFunc 8 8.
Definition Uint16 := makeUnsignedIntegerFunc 16 16.
Definition Uint32 := makeUnsignedIntegerFunc 32 32.
Definition Uint64 := makeUnsignedIntegerFunc 32 64.

End Int.

(** ** Lists and sets of strings (slice.go) *)
Module Slice.

Definition stringSliceValue : Type := list string.
Definition stringSlice_String (value : stringSliceValue) : string := Strings.Join value ","%char.
Definition stringSlice_Set (value : stringSliceValue) (input : string) : option error * stringSliceValue :=
  if bool_decide (input = "") then (None, []) else (None, Strings.Split input ","%char).

(** The flag keeps the set object: it is cleared and filled again. [sets.List] sorts. *)
Definition stringSetValue : Type := gset string.
Definition stringSet_String (value : stringSetValue) : string :=
  Strings.Join (stable_sort string_lt (elements value)) ","%char.
Definition stringSet_Set (value : stringSetValue) (input : string) : option error * stringSetValue :=
  let value : gset string := ∅ in
  if bool_decide (input = "") then (None, value)
  else (None, value ∪ list_to_set (Strings.Split input ","%char)).

End Slice.

(** ** Maps (map.go) *)
Module Map.

Definition ErrNoEqual : error := TagErrorf "ErrNoEqual" "map options expect values in the form k1=v1,k2=v2,k3=v3".

Definition Parser (T : Type) : Type := string → T + error.
Definition StringParser : Parser string := λ s, inl s.

Section map.
Context `{!GoRuntime} {K V : Type} `{Countable K}.
(** [Sprint_K] and [Sprint_V] print keys and values. *)
Variables (keyParser : Parser K) (valueParser : Parser V) (Sprint_K : K → string) (Sprint_V : V → string).

Definition mapValue : Type := gmap K V.

Definition writeEntry (output : string) (entry : K * V) : string :=
  let output := if (String.length output =? 0) then output +:+ "," else output in
  output +:+ Sprint_K entry.1 +:+ "=" +:+ Sprint_V entry.2.

Definition String_ (mv : mapValue) : string := foldl writeEntry "" (map_order mv).

(** The entries before one that is malformed are kept. *)
Fixpoint setEntries (entries : list string) (mv : mapValue) : option error * mapValue :=
  match entries with
  | [] => (None, mv)
  | entry :: entries =>
      let eq := Strings.IndexRune entry "="%char in
      if (eq =? -1)%Z then (Some ErrNoEqual, mv)
      else
        match keyParser (Strings.slice_to entry eq) with
        | inr err => (Some err, mv)
        | inl entryKey =>
            match valueParser (Strings.slice_from entry (eq + 1)) with
            | inr err => (Some err, mv)
            | inl entryValue => setEntries entries (<[entryKey := entryValue]> mv)
            end
        end
  end.

Definition Set_ (mv : mapValue) (input : string) : option error * mapValue :=
  if bool_decide (input = "") then (None, ∅) else setEntries (Strings.Split input ","%char) ∅.

End map.

End Map.

(** ** Enumerations (enum.go) *)
Module Enum.

Section enum.
Context `{!GoRuntime} {T : Type} (Quote : string → string).

Record EnumValue := {
  typeName : string;
  options : list string;
  resolve : gmap string T;
  selectedKey : option string;
  selectedValue : option T
}.

(** [name] is the name of the type [T]. *)
Definition EnumFromMap (name : string) (resolve : gmap string T) : EnumValue := {|
  typeName := name; options := stable_sort string_lt (map_order resolve).*1; resolve := resolve;
  selectedKey := None; selectedValue := None |}.

Definition TypeName (enum : EnumValue) (name : string) : EnumValue := {|
  typeName := name; options := options enum; resolve := resolve enum;
  selectedKey := selectedKey enum; selectedValue := selectedValue enum |}.

Definition With (enum : EnumValue) (key : string) (value : T) : EnumValue := {|
  typeName := typeName enum; options := options enum ++ [key]; resolve := <[key := value]> (resolve enum);
  selectedKey := selectedKey enum; selectedValue := selectedValue enum |}.

Definition select (enum : EnumValue) (key : string) (value : T) : EnumValue := {|
  typeName := typeName enum; options := options enum; resolve := resolve enum;
  selectedKey := Some key; selectedValue := Some value |}.

Definition Default `{Zero T} (enum : EnumValue) (key : string) : EnumValue :=
  select enum key (Optional.GetOrZero (resolve enum !! key)).

(** The text of an empty selection is a pair of quotation marks. *)
Definition quotes : string := String (ascii_of_nat 34) (String (ascii_of_nat 34) "").
Definition String_ (enum : EnumValue) : string := Optional.GetOr (selectedKey enum) quotes.

Definition Set_ (enum : EnumValue) (input : string) : option error * EnumValue :=
  match resolve enum !! input with
  | None => (Some (TagErrorf "NoEnumVariant" ("unknown option " +:+ Quote input)), enum)
  | Some value => (None, select enum input value)
  end.

(** The options in the usage text. *)
Definition writeOption (n : nat) (usageOptions : string) (entry : nat * string) : string :=
  let '(i, option) := entry in
  let usageOptions :=
    if 0 <? i then (if i <? n - 1 then usageOptions +:+ ", " else usageOptions +:+ " or ") else usageOptions in
  usageOptions +:+ Quote option.
Definition usage (enum : EnumValue) (usage : string) : string :=
  usage +:+ " (" +:+ foldl (writeOption (length (options enum))) "" (imap pair (options enum)) +:+ ")".

Definition Type_ (enum : EnumValue) : string := typeName enum.

End enum.

Arguments EnumValue : clear implicits.

End Enum.

(** ** Label selectors (labelselector.go) *)
Module LabelSelector.
Section label_selector.
Context {Selector : Type}.
(** [labels.Parse] and [Selector.String]. *)
Variables (Parse : string → Selector + error) (Selector_String : Selector → string).

Definition String_ (value : Selector) : string := Selector_String value.
Definition Set_ (value : Selector) (input : string) : option error * Selector :=
  match Parse input with
  | inr err => (Some (TagWrapf "ParseLabelSelector" (Some err) "invalid label seoector"), value)
  | inl selector => (None, selector)
  end.

End label_selector.
End LabelSelector.

(** ** The flags of a component (subset.go) *)
Module Subset.

Definition EmptyFlagName : string := "zzz-empty-flag-name".

Definition flagName (prefix name : string) : string :=
  if bool_decide (name = EmptyFlagName) then prefix else prefix +:+ "-" +:+ name.

(** The names that the flags [names] of a component get in the set of all flags. *)
Definition AddSubset (super : list string) (prefix : string) (names : list string) : list string :=
  super ++ (flagName prefix <$> names).

End Subset.

(** ** Lemmas: strings *)
Section string_lemmas.
Import Strings.
Implicit Types (s w : string) (c : ascii).

Notation chars := String.list_ascii_of_string.

Lemma append_cons d s1 s2 : String d s1 +:+ s2 = String d (s1 +:+ s2).
Proof. done. Qed.

Lemma append_nil s : "" +:+ s = s.
Proof. done. Qed.

Lemma chars_app s1 s2 : chars (s1 +:+ s2) = chars s1 ++ chars s2.
Proof. induction s1 as [|c s1 IH]; [done|]. rewrite append_cons. cbn. by f_equal. Qed.

Lemma append_inj_l (s1 s2 t : string) : s1 +:+ t = s2 +:+ t → s1 = s2.
Proof.
  intros Heq. apply (f_equal String.list_ascii_of_string) in Heq. rewrite !chars_app in Heq.
  apply app_inv_tail in Heq. apply (f_equal String.string_of_list_ascii) in Heq.
  by rewrite !String.string_of_list_ascii_of_string in Heq.
Qed.

Lemma Split_cons s c : ∃ w ws, Split s c = w :: ws.
Proof.
  destruct s as [|d s]; simpl; [eauto|]. case_bool_decide; [eauto|]. destruct (Split s c); eauto.
Qed.

Lemma Join_cons w ws c : ws ≠ [] → Join (w :: ws) c = w +:+ String c (Join ws c).
Proof. by destruct ws as [|w' ws]. Qed.

(** Splitting and joining are inverse. *)
Lemma Join_Split s c : Join (Split s c) c = s.
Proof.
  induction s as [|d s IH]; [done|]. simpl. destruct (Split_cons s c) as (w & ws & Hs). rewrite Hs in IH |- *.
  case_bool_decide as Hd; [subst d; by rewrite Join_cons, IH by done|].
  destruct ws as [|w' ws]; [cbn in *; by rewrite IH|].
  rewrite Join_cons in IH |- * by done. by rewrite append_cons, IH.
Qed.

Lemma strings_Split_word w c : c ∉ chars w → Split w c = [w].
Proof.
  induction w as [|d w IH]; [done|]. cbn. rewrite not_elem_of_cons. intros [Hd Hw].
  rewrite bool_decide_eq_false_2 by done. by rewrite IH.
Qed.
Lemma strings_Split_app w s c : c ∉ chars w → Split (w +:+ String c s) c = w :: Split s c.
Proof.
  induction w as [|d w IH]; [intros _; rewrite append_nil; cbn; by rewrite bool_decide_eq_true_2|].
  rewrite append_cons. cbn. rewrite not_elem_of_cons. intros [Hd Hw].
  rewrite bool_decide_eq_false_2 by done. by rewrite IH.
Qed.
Lemma Split_Join ws c : ws ≠ [] → Forall (λ w, c ∉ chars w) ws → Split (Join ws c) c = ws.
Proof.
  intros Hne. induction 1 as [|w ws Hw Hws IH]; [done|]. destruct (decide (ws = [])) as [->|Hn]; [by apply strings_Split_word|].
  by rewrite Join_cons, strings_Split_app, IH.
Qed.

Lemma Split_words s c : Forall (λ w, c ∉ chars w) (Split s c).
Proof.
  induction s as [|d s IH]; simpl; [apply Forall_singleton, not_elem_of_nil|].
  destruct (Split_cons s c) as (w & ws & Hs). rewrite Hs in *.
  case_bool_decide as Hd; [constructor; [apply not_elem_of_nil|done]|].
  apply Forall_cons in IH as [Hw Hws]. constructor; [|done]. cbn. rewrite not_elem_of_cons. split; [congruence|done].
Qed.

Lemma Join_empty ws c : Join ws c = "" → ws = [] ∨ ws = [""].
Proof.
  destruct ws as [|w [|w' ws]]; [by left|cbn; intros ->; by right|]. rewrite Join_cons by done. by destruct w.
Qed.

Lemma IndexRune_none s c : IndexRune s c = (-1)%Z ↔ c ∉ chars s.
Proof.
  enough (H : (-1 ≤ IndexRune s c)%Z ∧ (IndexRune s c = (-1)%Z ↔ c ∉ chars s)) by apply H.
  induction s as [|d s [IH1 IH2]]; cbn; [split; [lia|split; [intros _; apply not_elem_of_nil|done]]|].
  rewrite not_elem_of_cons. case_bool_decide as Hd; [split; [lia|]; split; [lia|]; intros [Hc _]; congruence|].
  destruct (Z.eqb_spec (IndexRune s c) (-1)) as [He|He]; (split; [lia|]); split; try lia.
  - intros _. split; [congruence|by apply IH2].
  - by intros [_ ?%IH2].
Qed.

Lemma slice_to_cons d s i : (0 ≤ i)%Z → slice_to (String d s) (i + 1) = String d (slice_to s i).
Proof. intros Hi. unfold slice_to. by replace (Z.to_nat (i + 1)) with (S (Z.to_nat i)) by lia. Qed.
Lemma slice_from_cons d s i : (0 ≤ i)%Z → slice_from (String d s) (i + 1) = slice_from s i.
Proof. intros Hi. unfold slice_from. by replace (Z.to_nat (i + 1)) with (S (Z.to_nat i)) by lia. Qed.
Lemma slice_from_0 s : slice_from s 0 = s.
Proof. unfold slice_from. simpl. rewrite Nat.sub_0_r. induction s as [|d s IH]; simpl; by f_equal. Qed.

(** What is before and what is after the first separator. *)
Lemma IndexRune_app s1 s2 c : c ∉ chars s1 →
  let i := IndexRune (s1 +:+ String c s2) c in
  (0 ≤ i)%Z ∧ slice_to (s1 +:+ String c s2) i = s1 ∧ slice_from (s1 +:+ String c s2) (i + 1) = s2.
Proof.
  induction s1 as [|d s1 IH].
  - intros _. rewrite append_nil. cbn [IndexRune]. rewrite bool_decide_eq_true_2 by done. split; [lia|].
    split; [by destruct s2|]. rewrite slice_from_cons by lia. apply slice_from_0.
  - rewrite append_cons. cbn [IndexRune String.list_ascii_of_string]. rewrite not_elem_of_cons. intros [Hd Hs1]. rewrite bool_decide_eq_false_2 by congruence.
    destruct (IH Hs1) as (Hi & Hto & Hfrom). cbv zeta in *.
    set (i := IndexRune (s1 +:+ String c s2) c) in *.
    destruct (Z.eqb_spec i (-1)); [lia|]. split; [lia|]. rewrite slice_to_cons, slice_from_cons, Hto by lia. done.
Qed.

End string_lemmas.

(** ** Lemmas: numbers *)
Section number_lemmas.
Import Strconv.
Implicit Types (n : N) (z max : Z) (s : string).

Definition is_digit (c : ascii) : Prop := is_Some (digit c).

Lemma digit_char n : (n < 10)%N → digit (pretty_N_char n) = Some (Z.of_N n).
Proof.
  intros Hn. assert (n = 0 ∨ n = 1 ∨ n = 2 ∨ n = 3 ∨ n = 4 ∨ n = 5 ∨ n = 6 ∨ n = 7 ∨ n = 8 ∨ n = 9)%N as Hcase by lia.
  by repeat destruct Hcase as [->|Hcase]; [..|subst n].
Qed.

Lemma go_digits n : ∀ s, Forall is_digit (String.list_ascii_of_string s) →
  Forall is_digit (String.list_ascii_of_string (pretty_N_go n s)).
Proof.
  induction (N.lt_wf_0 n) as [n _ IH]; intros s Hs. destruct (N.eq_0_gt_0_cases n) as [->|Hn]; [by rewrite pretty_N_go_0|].
  rewrite pretty_N_go_step by done. apply IH; [by apply N.div_lt|]. constructor; [|done].
  unfold is_digit. rewrite digit_char by (by apply N.mod_lt). eauto.
Qed.

(** A printed natural number starts with a digit. *)
Lemma pretty_digit n : ∃ c s, pretty n = String c s ∧ is_digit c.
Proof.
  assert (Hall : Forall is_digit (String.list_ascii_of_string (pretty n))).
  { unfold pretty, pretty_N. case_decide; [apply Forall_singleton; by eexists|by apply go_digits]. }
  destruct (pretty n) as [|c s] eqn:Hp; [|apply Forall_cons in Hall as [Hc _]; eauto].
  exfalso. unfold pretty, pretty_N in Hp. case_decide; [done|]. clear Hall.
  assert (Hlen : ∀ n s, s ≠ "" → pretty_N_go n s ≠ "").
  { clear. intros n. induction (N.lt_wf_0 n) as [n _ IH]; intros s Hs.
    destruct (N.eq_0_gt_0_cases n) as [->|Hn]; [by rewrite pretty_N_go_0|].
    rewrite pretty_N_go_step by done. apply IH; [by apply N.div_lt|done]. }
  rewrite pretty_N_go_step in Hp by lia. by apply Hlen in Hp.
Qed.

(** Reading what [pretty_N_go] writes in front of [s]. *)
Lemma loop_go max n : ∀ s,
  ParseUint_loop max 0 (pretty_N_go n s) =
    if (n =? 0)%N then ParseUint_loop max 0 s
    else if (max <? Z.of_N n)%Z then inr ErrRange else ParseUint_loop max (Z.of_N n) s.
Proof.
  induction (N.lt_wf_0 n) as [n _ IH]; intros s. destruct (N.eqb_spec n 0) as [->|Hn]; [by rewrite pretty_N_go_0|].
  rewrite pretty_N_go_step, IH by first [lia|by apply N.div_lt; lia]. cbn [ParseUint_loop].
  rewrite digit_char by (by apply N.mod_lt).
  assert (Hdm : (Z.of_N n = Z.of_N (n `div` 10) * 10 + Z.of_N (n `mod` 10))%Z)
    by (change 10%Z with (Z.of_N 10); rewrite <- N2Z.inj_mul, <- N2Z.inj_add, N.mul_comm; f_equal; apply N.div_mod').
  rewrite <- Hdm. assert (Hle : (Z.of_N (n `div` 10) ≤ Z.of_N n)%Z)
    by (clear IH; revert Hdm; generalize (n `div` 10)%N (n `mod` 10)%N; lia).
  destruct (N.eqb_spec (n `div` 10) 0) as [Hd|Hd]; [by rewrite Hd, Z.mul_0_l, Z.add_0_l in Hdm; rewrite Z.mul_0_l, Z.add_0_l, <- Hdm|].
  destruct (Z.ltb_spec max (Z.of_N (n `div` 10))); [|done]. destruct (Z.ltb_spec max (Z.of_N n)); [done|lia].
Qed.

Lemma ParseUint_pretty n bitSize : (0 ≤ bitSize)%Z →
  ParseUint (pretty n) bitSize = if (Z.of_N n <? 2 ^ bitSize)%Z then inl (Z.of_N n) else inr ErrRange.
Proof.
  intros Hb. assert (0 < 2 ^ bitSize)%Z by (apply Z.pow_pos_nonneg; lia).
  unfold ParseUint. destruct (pretty_digit n) as (c & s & Hp & _). rewrite Hp at 1. unfold pretty, pretty_N.
  case_decide as Hn; [subst n; cbn [ParseUint_loop Z.of_N]; change (digit "0") with (Some 0%Z)|rewrite loop_go; destruct (N.eqb_spec n 0); [done|]].
  - destruct (Z.ltb_spec 0 (2 ^ bitSize)), (Z.ltb_spec (2 ^ bitSize - 1) (0 * 10 + 0)); (done || lia).
  - destruct (Z.ltb_spec (Z.of_N n) (2 ^ bitSize)), (Z.ltb_spec (2 ^ bitSize - 1) (Z.of_N n)); (done || lia).
Qed.

(** Printed integers are read back when they fit. *)
Lemma ParseInt_FormatInt z bitSize : (1 ≤ bitSize)%Z →
  ParseInt (FormatInt z) bitSize =
    if ((- 2 ^ (bitSize - 1) <=? z) && (z <? 2 ^ (bitSize - 1)))%Z then inl z else inr ErrRange.
Proof.
  intros Hb. assert (Hpow : (2 ^ bitSize = 2 * 2 ^ (bitSize - 1))%Z) by (rewrite <- Z.pow_succ_r by lia; f_equal; lia).
  assert (0 < 2 ^ (bitSize - 1))%Z by (apply Z.pow_pos_nonneg; lia).
  assert (Hnn : ∀ n, ParseInt (pretty n) bitSize =
    if (Z.of_N n <? 2 ^ (bitSize - 1))%Z then inl (Z.of_N n) else inr ErrRange).
  { intros n. pose proof (ParseUint_pretty n bitSize ltac:(lia)) as Hu.
    destruct (pretty_digit n) as (c & s & Hp & [d Hd]). rewrite Hp in *. unfold ParseInt.
    rewrite !bool_decide_eq_false_2 by (intros ->; vm_compute in Hd; discriminate). cbn [orb]. rewrite Hu, Hpow.
    destruct (Z.ltb_spec (Z.of_N n) (2 * 2 ^ (bitSize - 1))), (Z.ltb_spec (Z.of_N n) (2 ^ (bitSize - 1))); [| |lia|done];
      cbn [negb andb]; destruct (Z.leb_spec (2 ^ (bitSize - 1)) (Z.of_N n)); (done || lia). }
  unfold FormatInt. destruct z as [|p|p].
  - change (pretty 0%Z) with (pretty 0%N). rewrite Hnn. cbn [Z.of_N].
    destruct (Z.ltb_spec 0 (2 ^ (bitSize - 1))), (Z.leb_spec (- 2 ^ (bitSize - 1)) 0); (done || lia).
  - change (pretty (Z.pos p)) with (pretty (N.pos p)). rewrite Hnn. cbn [Z.of_N].
    destruct (Z.leb_spec (- 2 ^ (bitSize - 1)) (Z.pos p)); [done|lia].
  - change (pretty (Z.neg p)) with (String "-"%char (pretty (N.pos p))). unfold ParseInt.
    rewrite bool_decide_eq_true_2 by done. cbn [orb negb andb]. rewrite ParseUint_pretty, Hpow by lia. cbn [Z.of_N].
    destruct (Z.ltb_spec (Z.pos p) (2 * 2 ^ (bitSize - 1))), (Z.ltb_spec (2 ^ (bitSize - 1)) (Z.pos p)),
      (Z.leb_spec (- 2 ^ (bitSize - 1)) (Z.neg p)), (Z.ltb_spec (Z.neg p) (2 ^ (bitSize - 1))); (done || lia).
Qed.

Lemma ParseUint_FormatInt z bitSize : (0 ≤ bitSize)%Z →
  match ParseUint (FormatInt z) bitSize with
  | inl z' => z' = z ∧ (0 ≤ z < 2 ^ bitSize)%Z
  | inr _ => ¬ (0 ≤ z < 2 ^ bitSize)%Z
  end.
Proof.
  intros Hb. assert (Hnn : ∀ n, match ParseUint (pretty n) bitSize with
    | inl z' => z' = Z.of_N n ∧ (0 ≤ Z.of_N n < 2 ^ bitSize)%Z
    | inr _ => ¬ (0 ≤ Z.of_N n < 2 ^ bitSize)%Z
    end).
  { intros n. rewrite ParseUint_pretty by done. destruct (Z.ltb_spec (Z.of_N n) (2 ^ bitSize)); lia. }
  unfold FormatInt. destruct z as [|p|p]; [apply (Hnn 0%N)|apply (Hnn (N.pos p))|].
  change (pretty (Z.neg p)) with (String "-"%char (pretty (N.pos p))).
  change (ParseUint (String "-"%char (pretty (N.pos p))) bitSize) with (inr (A := Z) ErrSyntax). cbv iota. lia.
Qed.

End number_lemmas.

(** ** Properties: numbers *)

(** An integer flag of 8, 16 or 32 bits reads a printed number if and only if the number fits its type, and then has that
    value; otherwise it reports an error and keeps its value. In particular its default, as printed, is
    read back. *)
Theorem integer_flags_correct (z d : Z) :
  Forall (λ '(flag, lo, hi),
    match Int.Set_ (flag d) (Strconv.FormatInt z) with
    | (None, v) => (lo ≤ z ≤ hi)%Z ∧ Int.value v = z ∧ Int.String_ v = Strconv.FormatInt z
    | (Some _, v) => ¬ (lo ≤ z ≤ hi)%Z ∧ v = flag d
    end)
    [(Int.Int8, -128, 127)%Z; (Int.Int16, -32768, 32767)%Z; (Int.Int32, MinInt32, MaxInt32);
     (Int.Uint8, 0, 255)%Z; (Int.Uint16, 0, 65535)%Z; (Int.Uint32, 0, 4294967295)%Z].
Proof.
  assert (Hs : ∀ w half, (1 ≤ w)%Z → (2 ^ (w - 1) = half)%Z →
    match Int.Set_ (Int.makeSignedIntegerFunc w w d) (Strconv.FormatInt z) with
    | (None, v) => (- half ≤ z ≤ half - 1)%Z ∧ Int.value v = z ∧ Int.String_ v = Strconv.FormatInt z
    | (Some _, v) => ¬ (- half ≤ z ≤ half - 1)%Z ∧ v = Int.makeSignedIntegerFunc w w d
    end).
  { intros w half Hw <-. unfold Int.Set_, Int.String_. cbn [Int.makeSignedIntegerFunc Int.parser]. rewrite ParseInt_FormatInt by done.
    destruct (Z.leb_spec (- 2 ^ (w - 1)) z), (Z.ltb_spec z (2 ^ (w - 1))); cbn [andb];
      [|by split; [lia|]..]. split; [lia|]. cbn. unfold Int.to_signed, wrap.
    assert (Hpow : (2 ^ w = 2 * 2 ^ (w - 1))%Z) by (rewrite <- Z.pow_succ_r by lia; f_equal; lia).
    replace ((z + 2 ^ (w - 1)) `mod` 2 ^ w - 2 ^ (w - 1))%Z with z by (rewrite Z.mod_small; lia). done. }
  assert (Hu : ∀ w size, (0 ≤ w)%Z → (2 ^ w = size)%Z →
    match Int.Set_ (Int.makeUnsignedIntegerFunc w w d) (Strconv.FormatInt z) with
    | (None, v) => (0 ≤ z ≤ size - 1)%Z ∧ Int.value v = z ∧ Int.String_ v = Strconv.FormatInt z
    | (Some _, v) => ¬ (0 ≤ z ≤ size - 1)%Z ∧ v = Int.makeUnsignedIntegerFunc w w d
    end).
  { intros w size Hw <-. unfold Int.Set_, Int.String_. cbn [Int.makeUnsignedIntegerFunc Int.parser].
    pose proof (ParseUint_FormatInt z w Hw) as Hp.
    destruct (Strconv.ParseUint (Strconv.FormatInt z) w) as [z'|err]; [|split; [lia|done]].
    destruct Hp as [-> Hz]. split; [lia|]. cbn. unfold Int.to_unsigned. by rewrite Z.mod_small. }
  repeat apply Forall_cons_2; [exact (Hs 8%Z 128%Z ltac:(lia) eq_refl)|exact (Hs 16%Z 32768%Z ltac:(lia) eq_refl)|
    exact (Hs 32%Z 2147483648%Z ltac:(lia) eq_refl)|exact (Hu 8%Z 256%Z ltac:(lia) eq_refl)|
    exact (Hu 16%Z 65536%Z ltac:(lia) eq_refl)|exact (Hu 32%Z 4294967296%Z ltac:(lia) eq_refl)|constructor].
Qed.

(** The flags of 64 bits have types of 32 bits: a number of more bits is accepted and cut off. *)
Theorem Int64_truncates (d : Z) :
  Int.Set_ (Int.Int64 d) "4294967296" = (None, Int.with_value (Int.Int64 d) 0) ∧
  Int.Set_ (Int.Uint64 d) "4294967296" = (None, Int.with_value (Int.Uint64 d) 0).
Proof. done. Qed.

(** ** Properties: lists, sets and maps *)

Definition comma_free (s : string) : Prop := ","%char ∉ String.list_ascii_of_string s.

Lemma stringSlice_Set_spec v ws :
  Forall comma_free ws → ws ≠ [""] → Slice.stringSlice_Set v (Strings.Join ws ","%char) = (None, ws).
Proof.
  intros Hws Hne. unfold Slice.stringSlice_Set. case_bool_decide as Hj.
  - by destruct (Join_empty _ _ Hj) as [-> | ->].
  - destruct (decide (ws = [])) as [->|Hn]; [done|]. by rewrite Split_Join.
Qed.

(** C37. What is given to a flag of a list is what it prints; a list without commas in its words, and a set of such
    words, is read back from its text, unless it is the list or the set of the empty word, whose
    text is that of the empty list. *)
Theorem slice_flags_roundtrip :
  (∀ v input, ∃ v', Slice.stringSlice_Set v input = (None, v') ∧ Slice.stringSlice_String v' = input) ∧
  (∀ v ws, Forall comma_free ws → ws ≠ [""] →
    Slice.stringSlice_Set v (Slice.stringSlice_String ws) = (None, ws)) ∧
  (∀ v ws, set_Forall comma_free ws → ws ≠ {[""]} →
    Slice.stringSet_Set v (Slice.stringSet_String ws) = (None, ws)).
Proof.
  split; [|split].
  - intros v input. unfold Slice.stringSlice_Set. case_bool_decide as Hi; [subst input; by exists []|].
    eexists. split; [done|]. apply Join_Split.
  - intros v ws. apply stringSlice_Set_spec.
  - intros v ws Hws Hne. unfold Slice.stringSet_Set, Slice.stringSet_String.
    set (l := stable_sort string_lt (elements ws)).
    assert (Hl : l ≡ₚ elements ws) by apply stable_sort_perm.
    assert (Hset : list_to_set l = ws) by (rewrite (list_to_set_perm_L _ _ Hl); apply list_to_set_elements_L).
    pose proof (stringSlice_Set_spec [] l) as Hs. unfold Slice.stringSlice_Set in Hs.
    assert (H1 : Forall comma_free l) by (rewrite Hl, Forall_forall; intros w Hw; by apply Hws, elem_of_elements).
    assert (H2 : l ≠ [""]) by (intros He; apply Hne; rewrite <- Hset, He; simpl; set_solver).
    specialize (Hs H1 H2). clearbody l. case_bool_decide; injection Hs as Hs.
    + rewrite <- Hset, <- Hs. done.
    + rewrite Hs. unfold Slice.stringSetValue in *. rewrite <- Hset. f_equal. apply (left_id_L ∅ (∪)).
Qed.

Section map_lemmas.
Import Map.
Notation Set_ := (Set_ StringParser StringParser).
Notation setEntries := (setEntries StringParser StringParser).

Definition equal_free (s : string) : Prop := "="%char ∉ String.list_ascii_of_string s.
Definition entry_text (kv : string * string) : string := kv.1 +:+ String "="%char kv.2.

Lemma setEntries_texts kvs : ∀ m, Forall (λ kv, equal_free kv.1) kvs →
  setEntries (entry_text <$> kvs) m = (None, foldl (λ m kv, <[kv.1 := kv.2]> m) m kvs).
Proof.
  induction kvs as [|[k v] kvs IH]; intros m Hk; [done|]. apply Forall_cons in Hk as [Hk Hkvs]. simpl in Hk.
  rewrite fmap_cons. cbn [Map.setEntries foldl fst snd].
  change (entry_text (k, v)) with (k +:+ String "="%char v).
  destruct (IndexRune_app k v _ Hk) as (Hi & Hto & Hfrom). cbv zeta in *.
  destruct (Z.eqb_spec (Strings.IndexRune (k +:+ String "=" v) "=") (-1)); [lia|]. rewrite Hto, Hfrom. by apply IH.
Qed.

Lemma setEntries_error es : ∀ m, (setEntries es m).1 = None ↔ Forall (λ e, ¬ equal_free e) es.
Proof.
  induction es as [|e es IH]; intros m; [by split|]. rewrite Forall_cons. cbn [Map.setEntries].
  pose proof (IndexRune_none e "="%char) as He. destruct (Z.eqb_spec (Strings.IndexRune e "=") (-1)) as [Hi|Hi].
  - split; [done|]. intros [Hn _]. exfalso. by apply Hn, He.
  - unfold StringParser at 1 2. rewrite IH. split; [|by intros [_ ?]]. intros Hes. split; [|done]. intros Hf. by apply Hi, He.
Qed.

Lemma entry_comma_free kv : comma_free kv.1 → comma_free kv.2 → comma_free (entry_text kv).
Proof.
  intros Hk Hv. unfold comma_free, entry_text. rewrite chars_app, not_elem_of_app. split; [done|].
  cbn. by apply not_elem_of_cons.
Qed.

End map_lemmas.

(** A flag of a map reads comma-separated entries, of which the last one of a key wins; it reports an error if and
    only if the text is not empty and some entry has no equals sign. *)
Theorem map_flag_correct (mv : gmap string string) :
  (∀ kvs, Forall (λ kv, equal_free kv.1 ∧ comma_free kv.1 ∧ comma_free kv.2) kvs →
    Map.Set_ Map.StringParser Map.StringParser mv (Strings.Join (entry_text <$> kvs) ","%char) =
      (None, list_to_map (reverse kvs))) ∧
  (∀ input, (Map.Set_ Map.StringParser Map.StringParser mv input).1 = None ↔
    input = "" ∨ Forall (λ e, ¬ equal_free e) (Strings.Split input ","%char)).
Proof.
  split.
  - intros kvs Hkvs. assert (Hfold : ∀ m : gmap string string, foldl (λ (m : gmap string string) kv, <[kv.1 := kv.2]> m) m kvs =
      (list_to_map (reverse kvs) : gmap string string) ∪ m).
    { clear. induction kvs as [|[k v] kvs IH]; intros m; [symmetry; apply (left_id_L (A := gmap string string) ∅ (∪))|].
      cbn [foldl fst snd]. rewrite IH, reverse_cons, list_to_map_app. cbn [list_to_map foldr]. simpl.
      by rewrite <- (assoc_L (∪)), insert_empty, <- insert_union_singleton_l. }
    unfold Map.Set_. case_bool_decide as Hj.
    + destruct (Join_empty _ _ Hj) as [Hn|Hn]; [by apply fmap_nil_inv in Hn as ->|].
      destruct kvs as [|[k v] [|kv kvs]]; try done. injection Hn as Hn. unfold entry_text in Hn. by destruct k.
    + destruct (decide (kvs = [])) as [->|Hn]; [done|].
      rewrite Split_Join, setEntries_texts; [| |by intros ->%fmap_nil_inv|].
      * f_equal. rewrite Hfold. apply (right_id_L (A := gmap string string) ∅ (∪)).
      * eapply Forall_impl; [exact Hkvs|]. by intros kv [? _].
      * apply Forall_fmap. eapply Forall_impl; [exact Hkvs|]. intros kv (_ & ? & ?). by apply entry_comma_free.
  - intros input. unfold Map.Set_. case_bool_decide as Hi; [by split; [left|]|]. rewrite setEntries_error.
    split; [by right|by intros [?|?]].
Qed.

(** The text of a map flag that is not empty is none that the flag reads: it separates no entries and starts with
    a comma. *)
Theorem map_flag_misprints `{!GoRuntime} {K V : Type} `{Countable K} (keyParser : Map.Parser K) (valueParser : Map.Parser V)
    (Sprint_K : K → string) (Sprint_V : V → string) (mv mv' : gmap K V) :
  mv ≠ ∅ →
  Map.Set_ keyParser valueParser mv' (Map.String_ Sprint_K Sprint_V mv) = (Some Map.ErrNoEqual, ∅).
Proof.
  intros Hne. assert (Hgrow : ∀ kvs s, ∃ s', foldl (Map.writeEntry Sprint_K Sprint_V) (String ","%char s) kvs = String ","%char s').
  { induction kvs as [|kv kvs IH]; intros s; [by eexists|]. cbn [foldl]. unfold Map.writeEntry at 2. cbn. apply IH. }
  unfold Map.String_. destruct (map_order mv) as [|kv kvs] eqn:Ho.
  - exfalso. apply Hne. pose proof (map_order_perm K V mv) as Hp. rewrite Ho in Hp.
    apply Permutation_nil_l in Hp. by apply map_to_list_empty_iff.
  - cbn [foldl]. unfold Map.writeEntry at 2. cbn [String.length Nat.eqb]. rewrite append_nil.
    change ("," +:+ ?s) with (String ","%char s). edestruct (Hgrow kvs) as [s' Hs]. erewrite Hs. done.
Qed.

(** ** Properties: enumerations *)
Section enum_lemmas.
Context `{!GoRuntime} {T : Type} `{Zero T} (Quote : string → string).
Implicit Types (e : Enum.EnumValue T) (m : gmap string T).

(** The inputs that are keys. *)
Notation accepted m inputs := (filter (λ i, is_Some (m !! i)) inputs).

Lemma enum_Set_inputs m inputs : ∀ e key, Enum.resolve e = m →
  Enum.selectedKey e = Some key → Enum.selectedValue e = m !! key →
  let e' := foldl (λ e input, (Enum.Set_ Quote e input).2) e inputs in
  let key' := List.last (accepted m inputs) key in
  Enum.resolve e' = m ∧ Enum.options e' = Enum.options e ∧ Enum.selectedKey e' = Some key' ∧ Enum.selectedValue e' = m !! key'.
Proof.
  induction inputs as [|i inputs IH]; intros e key Hm Hk Hv; [done|]. cbn [foldl]. rewrite filter_cons.
  unfold Enum.Set_ at 2 4 6 8. rewrite Hm. destruct (m !! i) as [v|] eqn:Hi; cbn [snd].
  - rewrite decide_True by done.
    destruct (IH (Enum.select e i v) i) as (H1 & H2 & H3 & H4); [done..|]. cbv zeta.
    replace (List.last (i :: accepted m inputs) key) with (List.last (accepted m inputs) i); [done|].
    clear. destruct (accepted m inputs) as [|j js]; [done|]. cbn [List.last]. revert j.
    induction js as [|j' js IH]; intros j; [done|]. apply IH.
  - rewrite decide_False by (by intros []). by apply IH.
Qed.

(** A flag of an enumeration with a default that is one of its keys always has a selection, the
    last input that is a key, with the value of that key; other inputs are refused. Its options are its keys in order. *)
Theorem enum_flag_correct (name default : string) m (inputs : list string) :
  is_Some (m !! default) →
  let enum := foldl (λ e input, (Enum.Set_ Quote e input).2) (Enum.Default (Enum.EnumFromMap name m) default) inputs in
  let key := List.last (accepted m inputs) default in
  Enum.String_ enum = key ∧ Enum.selectedValue enum = m !! key ∧ is_Some (m !! key) ∧
  (∀ input, (Enum.Set_ Quote enum input).1 = None ↔ is_Some (m !! input)) ∧
  Enum.options enum ≡ₚ (map_to_list m).*1 ∧ Sorted (λ a b, string_lt b a = false) (Enum.options enum).
Proof.
  intros [v Hd] enum key.
  destruct (enum_Set_inputs m inputs (Enum.Default (Enum.EnumFromMap name m) default) default) as (H1 & H2 & H3 & H4);
    [done|done|cbn; by rewrite Hd|]. cbv zeta in *. fold enum key in H1, H2, H3, H4.
  split; [unfold Enum.String_; by rewrite H3|]. split; [done|]. split.
  - unfold key. assert (Hall : Forall (λ i, is_Some (m !! i)) (accepted m inputs)).
    { apply Forall_forall. by intros i [? _]%list_elem_of_filter. }
    assert (Hs : is_Some (m !! default)) by eauto. clear -Hall Hs. revert Hall Hs. generalize (accepted m inputs).
    intros l. revert default. induction l as [|i l IH]; intros d Hall Hs; [done|]. apply Forall_cons in Hall as [Hi Hall].
    destruct l as [|j l]; [done|]. by apply (IH d).
  - split; [|split].
    + intros input. unfold Enum.Set_. rewrite H1. destruct (m !! input); by split; try by intros [].
    + rewrite H2. cbn [Enum.Default Enum.select Enum.options Enum.EnumFromMap]. rewrite stable_sort_perm.
      by rewrite (map_order_perm string T m).
    + rewrite H2. cbn [Enum.Default Enum.select Enum.options Enum.EnumFromMap]. 
      by apply swo_on_elements, swo_on_all, string_lt_swo.
Qed.

End enum_lemmas.
