(* ===== verification/Observe.v ===== *)
(** * Observe: observers and how they are joined (util/o11y/observer.go, util/o11y/component.go)

    Components report what they do to observers: structs of functions, of which a process may have several implementations
    (logs and metrics) or none. [Module Observer] is how functions and structs are joined; [Module Provider] is the component that
    collects the implementations of a process. An observer acts on a world; a function that runs until its context is
    canceled is the set of the traces that it may leave, since others run at the same time. *)

From Stdlib Require Import Morphisms Setoid.
From S2P Require Import Prelude.

Module Observer.
Section observer.
Context {Ctx Arg Sample W Action : Type}.

(** *** Functions of observers; nil is [None]. *)

Definition ObserveFunc : Type := option (Ctx → Arg → W → W).
Definition CancelFunc : Type := W → W.
Definition ObserveScopeFunc : Type := option (Ctx → Arg → W → Ctx * CancelFunc * W).
(** The traces of a monitor, for a getter of samples. *)
Definition MonitorFunc : Type := option (Ctx → Arg → (W → Sample) → list Action → Prop).

(** The traces of two goroutines. *)
Inductive interleave {A : Type} : list A → list A → list A → Prop :=
| interleave_nil : interleave [] [] []
| interleave_l a l1 l2 l : interleave l1 l2 l → interleave (a :: l1) l2 (a :: l)
| interleave_r a l1 l2 l : interleave l1 l2 l → interleave l1 (a :: l2) (a :: l).

Definition ObserveFunc_Join (fn other : ObserveFunc) : ObserveFunc :=
  match fn, other with
  | None, None => Some (λ _ _ w, w)
  | None, other => other
  | fn, None => fn
  | Some fn, Some other => Some (λ ctx arg w, other ctx arg (fn ctx arg w))
  end.

Definition ObserveScopeFunc_Join (fn other : ObserveScopeFunc) : ObserveScopeFunc :=
  match fn, other with
  | None, None => Some (λ ctx _ w, (ctx, id, w))
  | None, other => other
  | fn, None => fn
  | Some fn, Some other => Some (λ ctx arg w,
      let '(ctx, cancelFunc1, w) := fn ctx arg w in
      let '(ctx, cancelFunc2, w) := other ctx arg w in
      (ctx, λ w, cancelFunc2 (cancelFunc1 w), w))
  end.

(** Both run at once; the joined one returns when both have. *)
Definition MonitorFunc_Join (fn other : MonitorFunc) : MonitorFunc :=
  match fn, other with
  | None, None => Some (λ _ _ _ l, l = [])
  | None, other => other
  | fn, None => fn
  | Some fn, Some other => Some (λ ctx event getter l, ∃ l1 l2, fn ctx event getter l1 ∧ other ctx event getter l2 ∧ interleave l1 l2 l)
  end.

(** *** Structs

    A struct is a function of its fields, those of the observers in it included. *)
Inductive kind : Type := KObserve | KScope | KMonitor.
Definition func (k : kind) : Type :=
  match k with KObserve => ObserveFunc | KScope => ObserveScopeFunc | KMonitor => MonitorFunc end.
Definition Join {k : kind} : func k → func k → func k :=
  match k with KObserve => ObserveFunc_Join | KScope => ObserveScopeFunc_Join | KMonitor => MonitorFunc_Join end.
Definition nil_func (k : kind) : func k := match k with KObserve => None | KScope => None | KMonitor => None end.
Definition is_nil {k : kind} : func k → bool :=
  match k return func k → bool with
  | KObserve => λ f, match f with None => true | Some _ => false end
  | KScope => λ f, match f with None => true | Some _ => false end
  | KMonitor => λ f, match f with None => true | Some _ => false end
  end.

Context {Field : Type} (kind_of : Field → kind).
Definition struct : Type := ∀ field, func (kind_of field).

Definition Zero : struct := λ field, nil_func (kind_of field).
Definition ReflectJoin (left_ right_ : struct) : struct := λ field, Join (left_ field) (right_ field).
Definition ReflectNoop : struct := ReflectJoin Zero Zero.
Definition ReflectPopulate (obs : struct) : struct := ReflectJoin obs Zero.

End observer.
Arguments ObserveFunc : clear implicits.
Arguments ObserveScopeFunc : clear implicits.
Arguments MonitorFunc : clear implicits.
Arguments func : clear implicits.
Arguments struct _ _ _ _ _ {_} _.
End Observer.

(** ** What joining means

    A function does nothing if it is nil. Effects of one kind form a monoid, up to pointwise equality. *)
Section effects.
Import Observer.
Context {Ctx Arg Sample W Action : Type}.
Notation func := (func Ctx Arg Sample W Action).

Definition effect (k : kind) : Type :=
  match k with
  | KObserve => Ctx → Arg → W → W
  | KScope => Ctx → Arg → W → Ctx * CancelFunc (W := W) * W
  | KMonitor => Ctx → Arg → (W → Sample) → list Action → Prop
  end.

(** Two effects are the same if they do the same; cancel functions are compared by what they do. *)
#[export] Instance effect_equiv (k : kind) : Equiv (effect k) :=
  match k return Equiv (effect k) with
  | KObserve => λ f g, ∀ ctx arg w, f ctx arg w = g ctx arg w
  | KScope => λ f g, ∀ ctx arg w, (f ctx arg w).1.1 = (g ctx arg w).1.1 ∧ (f ctx arg w).2 = (g ctx arg w).2 ∧
      ∀ w', (f ctx arg w).1.2 w' = (g ctx arg w).1.2 w'
  | KMonitor => λ f g, ∀ ctx arg getter l, f ctx arg getter l ↔ g ctx arg getter l
  end.

Definition nothing (k : kind) : effect k :=
  match k return effect k with
  | KObserve => λ _ _ w, w
  | KScope => λ ctx _ w, (ctx, id, w)
  | KMonitor => λ _ _ _ l, l = []
  end.

(** First the one, then the other; contexts go through both; monitors run at once. *)
Definition both {k : kind} : effect k → effect k → effect k :=
  match k return effect k → effect k → effect k with
  | KObserve => λ f g ctx arg w, g ctx arg (f ctx arg w)
  | KScope => λ f g ctx arg w,
      let r := f ctx arg w in let r' := g r.1.1 arg r.2 in (r'.1.1, λ w, r'.1.2 (r.1.2 w), r'.2)
  | KMonitor => λ f g ctx arg getter l, ∃ l1 l2, f ctx arg getter l1 ∧ g ctx arg getter l2 ∧ interleave l1 l2 l
  end.

Definition does {k : kind} : func k → effect k :=
  match k return func k → effect k with
  | KObserve => λ f, match f with Some f => f | None => nothing KObserve end
  | KScope => λ f, match f with Some f => f | None => nothing KScope end
  | KMonitor => λ f, match f with Some f => f | None => nothing KMonitor end
  end.

#[export] Instance effect_equivalence k : Equivalence (≡@{effect k}).
Proof.
  destruct k; split.
  - by intros f ctx arg w.
  - by intros f g H ctx arg w.
  - intros f g h H1 H2 ctx arg w. by rewrite H1, H2.
  - by intros f ctx arg w.
  - intros f g H ctx arg w. by destruct (H ctx arg w) as (-> & -> & ?).
  - intros f g h H1 H2 ctx arg w. destruct (H1 ctx arg w) as (-> & -> & H1'), (H2 ctx arg w) as (-> & -> & H2').
    split; [done|]. split; [done|]. intros w'. by rewrite H1', H2'.
  - by intros f ctx arg getter l.
  - intros f g H ctx arg getter l. by rewrite (H ctx arg getter l).
  - intros f g h H1 H2 ctx arg getter l. by rewrite (H1 ctx arg getter l), (H2 ctx arg getter l).
Qed.

#[export] Instance both_proper k : Proper ((≡) ==> (≡) ==> (≡)) (both (k := k)).
Proof.
  destruct k; intros f f' Hf g g' Hg ctx arg.
  - intros w. cbn. by rewrite Hf, Hg.
  - intros w. cbn. destruct (Hf ctx arg w) as (-> & -> & Hc), (Hg (f' ctx arg w).1.1 arg (f' ctx arg w).2) as (-> & -> & Hc').
    split; [done|]. split; [done|]. intros w'. by rewrite Hc, Hc'.
  - intros getter l. cbn. split; intros (l1 & l2 & H1%Hf & H2%Hg & H); eauto.
Qed.

(** *** Interleaving *)
Lemma interleave_nil_l {A} (l l' : list A) : interleave [] l l' ↔ l = l'.
Proof.
  split; [|intros ->; induction l' as [|a l' IH]; by constructor].
  intros H. remember [] as e eqn:He. induction H; try done. f_equal. auto.
Qed.
Lemma interleave_sym {A} (l1 l2 l : list A) : interleave l1 l2 l → interleave l2 l1 l.
Proof. induction 1; by constructor. Qed.
Lemma interleave_assoc {A} (l1 l2 l12 : list A) : interleave l1 l2 l12 → ∀ l3 l, interleave l12 l3 l →
  ∃ l23, interleave l2 l3 l23 ∧ interleave l1 l23 l.
Proof.
  intros H12 l3 l H. revert l1 l2 H12. induction H as [|a l12 l3 l H IH|a l12 l3 l H IH]; intros l1 l2 H12.
  - inversion H12; subst. exists []. split; constructor.
  - inversion H12 as [|? ? ? ? H12'|? ? ? ? H12']; subst; destruct (IH _ _ H12') as (l23 & ? & ?).
    + exists l23. split; [done|by constructor].
    + exists (a :: l23). by split; constructor.
  - destruct (IH _ _ H12) as (l23 & ? & ?). exists (a :: l23). by split; constructor.
Qed.

(** *** The laws of a monoid *)
Lemma both_nothing_l k (f : effect k) : both (nothing k) f ≡ f.
Proof.
  destruct k; intros ctx arg; [done..|]. intros getter l. cbn. split.
  - by intros (? & l2 & -> & ? & <-%interleave_nil_l).
  - intros Hl. exists [], l. split; [done|]. split; [done|by apply interleave_nil_l].
Qed.
Lemma both_nothing_r k (f : effect k) : both f (nothing k) ≡ f.
Proof.
  destruct k; intros ctx arg; [done..|]. intros getter l. cbn. split.
  - by intros (l1 & ? & ? & -> & <-%interleave_sym%interleave_nil_l).
  - intros Hl. exists l, []. split; [done|]. split; [done|by apply interleave_sym, interleave_nil_l].
Qed.
Lemma both_assoc k (f g h : effect k) : both (both f g) h ≡ both f (both g h).
Proof.
  destruct k; intros ctx arg; [done..|]. intros getter l. cbn. split.
  - intros (l12 & l3 & (l1 & l2 & H1 & H2 & H12) & H3 & H). destruct (interleave_assoc _ _ _ H12 _ _ H) as (l23 & ? & ?). eauto 10.
  - intros (l1 & l23 & H1 & (l2 & l3 & H2 & H3 & H23) & H).
    destruct (interleave_assoc _ _ _ (interleave_sym _ _ _ H23) _ _ (interleave_sym _ _ _ H)) as (l12 & ? & ?).
    exists l12, l3. split; [|split; [done|by apply interleave_sym]]. exists l1, l2. split; [done|]. split; [done|].
    by apply interleave_sym.
Qed.

Lemma does_Join k (f g : func k) : does (Join f g) ≡ both (does f) (does g).
Proof.
  destruct k, f as [f|], g as [g|]; cbn [Join ObserveFunc_Join ObserveScopeFunc_Join MonitorFunc_Join does];
    rewrite ?both_nothing_l, ?both_nothing_r; try done.
  intros ctx arg w. cbn. destruct (f ctx arg w) as [[c1 k1] w1]. cbn. by destruct (g c1 arg w1) as [[c2 k2] w2].
Qed.
Lemma does_nil k : does (nil_func k) ≡ nothing k.
Proof. by destruct k. Qed.
Lemma is_nil_Join k (f g : func k) : is_nil (Join f g) = false.
Proof. by destruct k, f, g. Qed.

End effects.

(** ** The component of an observer *)
Module Provider.
Import Observer.
Section provider.
Context {Ctx Arg Sample W Action Field : Type} (kind_of : Field → kind).
Notation struct := (struct Ctx Arg Sample W Action kind_of).

(** A declaration has an implementation if it provides one; what it needs of other components is resolved already. *)
Definition newDeps (impl : option struct) : option struct := impl.

Definition onMerge (impl obsCtor : option struct) : option struct :=
  match impl with
  | None => obsCtor
  | Some impl =>
      match obsCtor with
      | Some prevCtor => Some (ReflectJoin kind_of prevCtor impl)
      | None => Some impl
      end
  end.

Definition init (obsCtor : option struct) : struct :=
  match obsCtor with
  | None => ReflectJoin kind_of (Zero kind_of) (Zero kind_of)
  | Some obs => ReflectPopulate kind_of obs
  end.

(** The observer of a process, from its declarations in the order in which they are resolved. *)
Definition Provide (first : option struct) (others : list (option struct)) : struct :=
  init (foldl (λ obsCtor impl, onMerge impl obsCtor) (newDeps first) others).

End provider.
End Provider.

(** ** Lemmas *)
Section provider_lemmas.
Import Observer.
Context {Ctx Arg Sample W Action Field : Type} (kind_of : Field → kind).
Notation struct := (struct Ctx Arg Sample W Action kind_of).
Implicit Types (obs : struct) (impls : list (option struct)).

(** What a list of implementations does in a field, one after the other. *)
Definition all_do (field : Field) (l : list struct) : effect (kind_of field) :=
  foldr (λ impl, both (does (impl field))) (nothing (kind_of field)) l.

Lemma all_do_snoc field l impl : all_do field (l ++ [impl]) ≡ both (all_do field l) (does (impl field)).
Proof.
  unfold all_do. rewrite foldr_app. cbn. induction l as [|impl' l IH]; cbn; [by rewrite both_nothing_l, both_nothing_r|].
  by rewrite IH, both_assoc.
Qed.

(** The constructor that declarations lead to stands for their implementations. *)
Definition collects (l : list struct) (obsCtor : option struct) : Prop :=
  match obsCtor with
  | None => l = []
  | Some obs => ∀ field, does (obs field) ≡ all_do field l
  end.

Lemma collects_onMerge l obsCtor (impl : option struct) :
  collects l obsCtor → collects (l ++ omap id [impl]) (Provider.onMerge kind_of impl obsCtor).
Proof.
  destruct impl as [impl|]; cbn; [|by rewrite app_nil_r]. destruct obsCtor as [obs|]; cbn.
  - intros Hobs field. unfold ReflectJoin. by rewrite does_Join, all_do_snoc, (Hobs field).
  - intros -> field. cbn. by rewrite both_nothing_r.
Qed.

Lemma collects_merges impls : ∀ l obsCtor,
  collects l obsCtor → collects (l ++ omap id impls) (foldl (λ obsCtor impl, Provider.onMerge kind_of impl obsCtor) obsCtor impls).
Proof.
  induction impls as [|impl impls IH]; intros l obsCtor Hl; [by rewrite app_nil_r|]. cbn [foldl].
  change (impl :: impls) with ([impl] ++ impls). rewrite omap_app, app_assoc. apply IH. by apply collects_onMerge.
Qed.

End provider_lemmas.

(** ** Properties *)

(** Whatever declarations of an observer a process has, and in whatever order those that provide an implementation come between those
    that only request one, the observer that every component gets has no nil function, and calling one of its functions
    calls that function of each implementation that has it, in the order of the declarations: the context goes through all
    of them, canceling cancels them in the same order, and monitors run at once and return together. *)
Theorem observers_joined {Ctx Arg Sample W Action Field : Type} (kind_of : Field → Observer.kind)
    (first : option (Observer.struct Ctx Arg Sample W Action kind_of))
    (others : list (option (Observer.struct Ctx Arg Sample W Action kind_of))) (field : Field) :
  Observer.is_nil (Provider.Provide kind_of first others field) = false ∧
  does (Provider.Provide kind_of first others field) ≡ all_do kind_of field (omap id (first :: others)).
Proof.
  assert (Hc : collects kind_of (omap id (first :: others))
    (foldl (λ obsCtor impl, Provider.onMerge kind_of impl obsCtor) (Provider.newDeps kind_of first) others)).
  { assert (Hsplit : omap id (first :: others) = omap id [first] ++ omap id others) by by destruct first.
    rewrite Hsplit. apply collects_merges. destruct first as [impl|]; [|done].
    intros f. cbn. by rewrite both_nothing_r. }
  unfold Provider.Provide. destruct (foldl _ _ _) as [obs|]; cbn [Provider.init].
  - split; [apply is_nil_Join|]. unfold Observer.ReflectPopulate, Observer.ReflectJoin, Observer.Zero.
    by rewrite does_Join, does_nil, both_nothing_r, (Hc field).
  - split; [apply is_nil_Join|]. change (omap id (first :: others) = []) in Hc. rewrite Hc. unfold Observer.ReflectJoin, Observer.Zero.
    by rewrite does_Join, !does_nil, both_nothing_r.
Qed.

(** Two implementations of one function, requested in between, and a function that neither has. *)
Example observers_example :
  let kind_of (b : bool) := if b then Observer.KObserve else Observer.KScope in
  let log (s : string) : Observer.struct unit nat nat (list string) nat kind_of := λ b,
    match b with true => Some (λ _ _ w, w ++ [s]) | false => None end in
  let obs := Provider.Provide kind_of None [Some (log "log"); None; Some (log "count")] in
  (λ f, f tt 0 []) <$> obs true = Some ["log"; "count"] ∧ (λ f, (f tt 0 []).2) <$> obs false = Some [].
Proof. split; vm_compute; reflexivity. Qed.
