(* ===== verification/Metrics.v ===== *)
(** * Metrics: tags, handles and unique counters (util/o11y/metrics)

    [Module Tags] is how the fields of a struct become the labels of a metric (reflection and the filter of api.go and
    component.go), [Module Metric] is registration and emission of metrics (api.go, multifield.go), and [Module Unique] is
    metrics/unique/unique.go. The registry of Prometheus and the sketches of hyperloglog are parameters. *)

From Stdlib Require Import Ascii.
From S2P Require Import Prelude Util Errors Flags.

Module Tags.

(** *** Struct types and their values

    A field has a name, is exported or not, and may be an embedded struct. *)
Inductive structType : Type :=
| Struct (fields : list (string * bool * option structType)).

Section tags.
Context {V : Type}.
(** A value is a struct, or anything that is printed. *)
Inductive value : Type :=
| Leaf (v : V)
| StructValue (fields : list value).

Definition is_upper (c : ascii) : bool := let n := nat_of_ascii c in (65 <=? n) && (n <=? 90).
Definition to_lower (c : ascii) : ascii := if is_upper c then ascii_of_nat (nat_of_ascii c + 32) else c.

(** [unicode.IsUpper] and [unicode.ToLower] on the letters of ASCII, which names of fields consist of. *)
Definition formatTagName (name : string) : string :=
  foldl (λ output char,
    if is_upper char
    then (if negb (String.length output =? 0) then output +:+ "_" else output) +:+ String (to_lower char) ""
    else output +:+ String char "") "" (String.list_ascii_of_string name).

(** The index of each field with its name; the loop of [discoverFields] with its recursive call as an argument. *)
Section loop.
Variables (recurse : structType → list nat → list (list nat * string)) (indexPrefix : list nat).
Fixpoint discoverLoop (fieldIndex : nat) (fields : list (string * bool * option structType)) : list (list nat * string) :=
  match fields with
  | [] => []
  | (name, exported, embedded) :: fields =>
      (if exported : bool then
         let indexList := indexPrefix ++ [fieldIndex] in
         match embedded with
         | Some ty => recurse ty indexList
         | None => [(indexList, formatTagName name)]
         end
       else []) ++ discoverLoop (S fieldIndex) fields
  end.
End loop.
Fixpoint discoverFields (ty : structType) (indexPrefix : list nat) : list (list nat * string) :=
  match ty with
  | Struct fields => discoverLoop discoverFields indexPrefix 0 fields
  end.

(** A struct of tags has keys, and values for each instance. *)
Record TagsDesc (Instance_ : Type) : Type := {
  TagKeys : list string;
  TagValues : Instance_ → outcome (list string)
}.
Arguments TagKeys {Instance_} _.
Arguments TagValues {Instance_} _ _.

Fixpoint FieldByIndex (v : value) (index : list nat) : outcome value :=
  match index with
  | [] => Ret v
  | i :: index =>
      match v with
      | StructValue fields => match fields !! i with Some v => FieldByIndex v index | None => Panic "reflect: Field index out of range" end
      | Leaf _ => Panic "reflect: call of reflect.Value.Field on non-struct Value"
      end
  end.

Fixpoint outcome_map {A B} (f : A → outcome B) (l : list A) : outcome (list B) :=
  match l with
  | [] => Ret []
  | a :: l => b ← f a; bs ← outcome_map f l; Ret (b :: bs)
  end.

(** How a value is printed: with its [String] method if it has one. *)
Variable Sprint : V → string.

Definition NewReflectTags (ty : structType) : TagsDesc value := {|
  TagKeys := (discoverFields ty []).*2;
  TagValues instance := outcome_map (λ fieldIndex,
    obj ← FieldByIndex instance fieldIndex;
    match obj with Leaf v => Ret (Sprint v) | StructValue _ => Panic "not a tag" end) (discoverFields ty []).*1
|}.

(** *** The filter *)
Record TagFilter : Type := { Namespace : bool; User : bool }.
Definition Test (filter : TagFilter) (tagName : string) : bool :=
  if bool_decide (tagName = "namespace") then Namespace filter
  else if bool_decide (tagName = "user") then User filter
  else true.

Definition filteredTagDesc {Instance_} (tagsDesc : TagsDesc Instance_) (f : TagFilter) : TagsDesc Instance_ :=
  let selected := filter (λ '(_, key), Test f key = true) (imap pair (TagKeys tagsDesc)) in
  {| TagKeys := selected.*2;
     TagValues instance :=
       superset ← TagValues tagsDesc instance;
       outcome_map (λ superIndex, match superset !! superIndex with
         | Some v => Ret v | None => Panic "index out of range" end) selected.*1 |}.

End tags.
Arguments value : clear implicits.
Arguments TagKeys {Instance_} _.
Arguments TagValues {Instance_} _ _.
End Tags.

(** ** Metrics *)
Module Metric.
Import Tags.

Inductive kind : Type := Gauge | Counter | Histogram.

(** The library: vectors of metrics with labels, and what is done to the one with given values. *)
Class Prometheus (Float W : Type) : Type := {
  Vec : Type;
  Series : Type;
  NewVec : kind → string → string → list Float → list string → Vec;
  WithLabelValues : Vec → list string → outcome Series;
  Update : kind → Series → Float → W → W;
  Registry : Type;
  MustRegister : Registry → Vec → outcome Registry
}.

Section metric.
Context {Float W : Type} `{!Prometheus Float W}.

(** The three types of metrics; the collector is nil before [InitCollector]. *)
Record Type_ (Value : Type) : Type := {
  metricKind : kind;
  typeConv : Value → Float;
  buckets : list Float;
  collector : option Vec
}.
Arguments metricKind {Value} _.
Arguments typeConv {Value} _ _.
Arguments buckets {Value} _.
Arguments collector {Value} _.

Definition InitCollector {Value} (ty : Type_ Value) (name help : string) (tagKeys : list string) : Type_ Value * Vec :=
  let vec := NewVec (metricKind ty) name help (buckets ty) tagKeys in
  ({| metricKind := metricKind ty; typeConv := typeConv ty; buckets := buckets ty; collector := Some vec |}, vec).

Definition Type_Emit {Value} (ty : Type_ Value) (tags : list string) (v : Value) (w : W) : outcome W :=
  match collector ty with
  | None => Panic "invalid memory address or nil pointer dereference"
  | Some vec => series ← WithLabelValues vec tags; Ret (Update (metricKind ty) series (typeConv ty v) w)
  end.

(** The bounds of an exponential histogram are machine integers. *)
Definition ExponentialIntHistogram (intToFloat64 : Z → Float) (numBuckets : nat) : Type_ Z := {|
  metricKind := Histogram; typeConv := intToFloat64; buckets := (λ i, intToFloat64 (wrap64 (2 ^ Z.of_nat i)%Z)) <$> seq 0 numBuckets; collector := None |}.

(** A handle emits to one metric, or to one for each field of a value. *)
Record Handle (Instance_ Value : Type) : Type := {
  metricType : list string → Value → W → outcome W;
  tagsDesc : TagsDesc Instance_
}.
Arguments metricType {Instance_ Value} _ _ _ _.
Arguments tagsDesc {Instance_ Value} _.

Definition With {Instance_ Value} (handle : Handle Instance_ Value) (tags : Instance_) : outcome (Value → W → outcome W) :=
  tagValues ← TagValues (tagsDesc handle) tags;
  Ret (metricType handle tagValues).
Definition Emit {Instance_ Value} (handle : Handle Instance_ Value) (v : Value) (tags : Instance_) (w : W) : outcome W :=
  emit ← With handle tags; emit v w.

Definition registerWith {Instance_ Value} (registry : Registry) (filter : TagFilter) (name help : string) (ty : Type_ Value)
    (tagsDesc : TagsDesc Instance_) : outcome (Handle Instance_ Value * Registry) :=
  let tagsDesc := filteredTagDesc tagsDesc filter in
  let '(ty, vec) := InitCollector ty name help (TagKeys tagsDesc) in
  registry ← MustRegister registry vec;
  Ret ({| metricType := Type_Emit ty; tagsDesc := tagsDesc |}, registry).

(** *** multifield.go *)
Inductive AnyField (StructType : Type) : Type :=
| NewField (FieldType : Type) (name help : string) (ty : Type_ FieldType) (extractor : StructType → FieldType).
Arguments NewField {StructType FieldType} _ _ _ _.

Definition InitFieldCollector {StructType} (field : AnyField StructType) (namePrefix helpPrefix : string) (tagKeys : list string) :
    AnyField StructType * Vec :=
  match field with
  | NewField name help ty extractor =>
      let '(ty, vec) := InitCollector ty (namePrefix +:+ "_" +:+ name) (helpPrefix +:+ ": " +:+ help) tagKeys in
      (NewField name help ty extractor, vec)
  end.
Definition EmitField {StructType} (field : AnyField StructType) (tagValues : list string) (v : StructType) (w : W) : outcome W :=
  match field with
  | NewField _ _ ty extractor => Type_Emit ty tagValues (extractor v) w
  end.
Definition EmitFields {StructType} (fields : list (AnyField StructType)) (tagValues : list string) (v : StructType) (w : W) : outcome W :=
  outcome_foldl (λ w field, EmitField field tagValues v w) w fields.

Fixpoint initFields {StructType} (registry : Registry) (namePrefix helpPrefix : string) (tagKeys : list string)
    (fields : list (AnyField StructType)) : outcome (list (AnyField StructType) * Registry) :=
  match fields with
  | [] => Ret ([], registry)
  | field :: fields =>
      let '(field, vec) := InitFieldCollector field namePrefix helpPrefix tagKeys in
      registry ← MustRegister registry vec;
      '(fields, registry) ← initFields registry namePrefix helpPrefix tagKeys fields;
      Ret (field :: fields, registry)
  end.
Definition RegisterMultiField {Instance_ StructType} (registry : Registry) (filter : TagFilter) (namePrefix helpPrefix : string)
    (tagsDesc : TagsDesc Instance_) (fields : list (AnyField StructType)) : outcome (Handle Instance_ StructType * Registry) :=
  let tagsDesc := filteredTagDesc tagsDesc filter in
  '(fields, registry) ← initFields registry namePrefix helpPrefix (TagKeys tagsDesc) fields;
  Ret ({| metricType := EmitFields fields; tagsDesc := tagsDesc |}, registry).

End metric.
Arguments NewField {Float W _ StructType FieldType} _ _ _ _.
Arguments metricKind {Float W _ Value} _.
Arguments typeConv {Float W _ Value} _ _.
Arguments buckets {Float W _ Value} _.
Arguments collector {Float W _ Value} _.
End Metric.

(** ** Unique counters *)
Module Unique.
Import Strings.

(** A sketch counts distinct values, approximately. *)
Class HyperLogLog : Type := {
  Sketch : Type;
  New16 : Sketch;
  Insert : string → Sketch → Sketch;
  Estimate : Sketch → Z
}.

Section unique.
Context `{!GoRuntime, !HyperLogLog}.

(** The gauge of a counter is the one of the tags that it was made for. *)
Record counter : Type := { hll : Sketch; gauge : list string }.
Record counterVec : Type := { counters : gmap string counter; gauges : gmap (list string) Z }.
Definition NewCounterVec : counterVec := {| counters := ∅; gauges := ∅ |}.

Definition observe (v : string) (c : counter) : counter := {| hll := Insert v (hll c); gauge := gauge c |}.
Definition reportAndReset (c : counter) : Z * counter := (Estimate (hll c), {| hll := New16; gauge := gauge c |}).

(** Making a gauge sets it to zero. *)
Definition Emit (tags : list string) (v : string) (ty : counterVec) : counterVec :=
  let key := Join tags "|" in
  match counters ty !! key with
  | Some c => {| counters := <[key := observe v c]> (counters ty); gauges := gauges ty |}
  | None => {| counters := <[key := observe v {| hll := New16; gauge := tags |}]> (counters ty);
               gauges := <[tags := default 0%Z (gauges ty !! tags)]> (gauges ty) |}
  end.

Definition flushOne (ty : counterVec) (entry : string * counter) : counterVec :=
  let '(key, c) := entry in
  let '(estimate, c) := reportAndReset c in
  {| counters := <[key := c]> (counters ty); gauges := <[gauge c := estimate]> (gauges ty) |}.
Definition Flush (ty : counterVec) : counterVec := foldl flushOne ty (map_order (counters ty)).

(** What is registered with a counter: it is flushed at some frequency, and once more at the end. *)
Definition flushable (ticks : nat) (ty : counterVec) : counterVec := Flush (Nat.iter ticks Flush ty).

End unique.
End Unique.

(** ** Lemmas: tags *)
Section tags_lemmas.
Import Tags.
Context {V : Type} (Sprint : V → string).

Lemma structType_nested_ind (P : structType → Prop) :
  (∀ fields, Forall (λ '(_, _, embedded), match embedded with Some ty => P ty | None => True end) fields → P (Struct fields)) →
  ∀ ty, P ty.
Proof.
  intros IH. fix IHty 1. intros [fields]. apply IH. induction fields as [|[[name exported] [ty|]] fields IHf]; constructor; auto.
Qed.

(** The exported fields of a value of a struct type, those of embedded structs included; [None] if the value does not have the type. *)
Section fields_loop.
Variable recurse : structType → value V → option (list (string * V)).
Definition field_values (name : string) (embedded : option structType) (v : value V) : option (list (string * V)) :=
  match embedded, v with
  | Some ty, v => recurse ty v
  | None, Leaf x => Some [(name, x)]
  | None, StructValue _ => None
  end.
Fixpoint fieldsLoop (fields : list (string * bool * option structType)) (vs : list (value V)) : option (list (string * V)) :=
  match fields, vs with
  | [], [] => Some []
  | (name, exported, embedded) :: fields, v :: vs =>
      l ← field_values name embedded v;
      ls ← fieldsLoop fields vs;
      Some ((if exported : bool then l else []) ++ ls)
  | _, _ => None
  end.
End fields_loop.
Fixpoint fields_of (ty : structType) (v : value V) : option (list (string * V)) :=
  match ty, v with
  | Struct fields, StructValue vs => fieldsLoop fields_of fields vs
  | _, Leaf _ => None
  end.

Lemma outcome_map_app {A B} (f : A → outcome B) l1 l2 b1 b2 :
  outcome_map f l1 = Ret b1 → outcome_map f l2 = Ret b2 → outcome_map f (l1 ++ l2) = Ret (b1 ++ b2).
Proof.
  revert b1. induction l1 as [|a l1 IH]; intros b1; cbn; [by intros [= <-]|]. destruct (f a) as [b|]; [|done].
  cbn. destruct (outcome_map f l1) as [bs|] eqn:H1; [|done]. intros [= <-] H2. by rewrite (IH bs eq_refl H2).
Qed.

Lemma FieldByIndex_app (root v : value V) index1 index2 :
  FieldByIndex root index1 = Ret v → FieldByIndex root (index1 ++ index2) = FieldByIndex v index2.
Proof.
  revert root. induction index1 as [|i index1 IH]; intros root; cbn; [by intros [= ->]|].
  destruct root as [|fields]; [done|]. destruct (fields !! i); [apply IH|done].
Qed.

Definition read (root : value V) (fieldIndex : list nat) : outcome string :=
  obj ← FieldByIndex root fieldIndex;
  match obj with Leaf v => Ret (Sprint v) | StructValue _ => Panic "not a tag" end.

Definition discovered (root : value V) (found : list (list nat * string)) (l : list (string * V)) : Prop :=
  found.*2 = formatTagName <$> l.*1 ∧ outcome_map (read root) found.*1 = Ret (Sprint <$> l.*2).

Lemma discovered_app root found1 found2 l1 l2 :
  discovered root found1 l1 → discovered root found2 l2 → discovered root (found1 ++ found2) (l1 ++ l2).
Proof. intros [H1 H1'] [H2 H2']. split; rewrite !fmap_app; [by rewrite H1, H2|by apply outcome_map_app]. Qed.

Lemma discoverFields_spec ty : ∀ indexPrefix root v l,
  FieldByIndex root indexPrefix = Ret v → fields_of ty v = Some l → discovered root (discoverFields ty indexPrefix) l.
Proof.
  induction ty as [fields IH] using structType_nested_ind. intros indexPrefix root v l Hroot Hl. destruct v as [x|all]; [done|].
  cbn [discoverFields fields_of] in *. enough (Hgen : ∀ pre vs, all = pre ++ vs → ∀ l,
    fieldsLoop fields_of fields vs = Some l → discovered root (discoverLoop discoverFields indexPrefix (length pre) fields) l)
    by by apply (Hgen [] all).
  clear l Hl. induction IH as [|[[name exported] embedded] fields Hty _ IHf]; intros pre vs Hall l.
  { destruct vs; [|done]. by intros [= <-]. }
  destruct vs as [|v vs]; [done|]. cbn [fieldsLoop discoverLoop].
  destruct (field_values fields_of name embedded v) as [lh|] eqn:Hh; [|done]. cbn [mbind option_bind].
  destruct (fieldsLoop fields_of fields vs) as [lt|] eqn:Ht; [|done]. intros [= <-].
  assert (Hv : FieldByIndex root (indexPrefix ++ [length pre]) = Ret v).
  { rewrite (FieldByIndex_app _ _ _ _ Hroot). cbn. by rewrite Hall, list_lookup_middle. }
  apply discovered_app.
  - destruct exported; [|done]. destruct embedded as [ty|]; cbn in Hh; [by eapply Hty|].
    destruct v as [x|]; [|done]. injection Hh as <-. split; [done|]. cbn. unfold read. by rewrite Hv.
  - replace (S (length pre)) with (length (pre ++ [v])) by (rewrite length_app; cbn; lia).
    apply (IHf (pre ++ [v]) vs); [by rewrite <- app_assoc|done].
Qed.

(** Keys and values of a type and of a value of it. *)
Lemma NewReflectTags_spec ty v l :
  fields_of ty v = Some l →
  TagKeys (NewReflectTags Sprint ty) = formatTagName <$> l.*1 ∧
  TagValues (NewReflectTags Sprint ty) v = Ret (Sprint <$> l.*2).
Proof. intros Hl. exact (discoverFields_spec ty [] v v l eq_refl Hl). Qed.

(** The filter takes the same places of the keys and of the values. *)
Lemma filteredTagDesc_spec {I} (desc : TagsDesc I) f i (vs : list string) :
  TagValues desc i = Ret vs → length vs = length (TagKeys desc) →
  let labels := filter (λ '(key, _), Test f key = true) (zip (TagKeys desc) vs) in
  TagKeys (filteredTagDesc desc f) = labels.*1 ∧ TagValues (filteredTagDesc desc f) i = Ret labels.*2.
Proof.
  intros Hvs Hlen labels. unfold filteredTagDesc. cbn. rewrite Hvs. cbn. unfold labels. clear labels Hvs.
  assert (Hgen : ∀ keys vs', length vs' = length keys → ∀ pre, vs = pre ++ vs' →
    let sel := filter (λ '(_, key), Test f key = true) (imap (λ k x, (length pre + k, x)) keys) in
    let labels := filter (λ '(key, _), Test f key = true) (zip keys vs') in
    sel.*2 = labels.*1 ∧ outcome_map (λ superIndex, match vs !! superIndex with Some v => Ret v | None => Panic "index out of range" end) sel.*1
      = Ret labels.*2); [|by apply (Hgen (TagKeys desc) vs Hlen [])].
  induction keys as [|key keys IH]; intros [|v vs'] Hl pre Hpre; try done. cbn [imap zip zip_with].
  injection Hl as Hl. destruct (IH vs' Hl (pre ++ [v])) as [H1 H2]; [by rewrite <- app_assoc|].
  assert (Himap : imap ((λ k x, (length pre + k, x)) ∘ S) keys = imap (λ k x, (length (pre ++ [v]) + k, x)) keys).
  { apply imap_ext. intros k x _. cbn. rewrite length_app. cbn. f_equal. lia. }
  rewrite Himap, !filter_cons, Nat.add_0_r. repeat case_decide; try done. cbn.
  split; [exact (f_equal (cons key) H1)|]. assert (Hat : vs !! length pre = Some v) by by rewrite Hpre, list_lookup_middle.
  rewrite Hat. exact (f_equal (λ m, bs ← m; Ret (v :: bs)) H2).
Qed.

End tags_lemmas.

(** ** Lemmas: registered metrics *)
Section metric_lemmas.
Import Tags Metric.
Context {Float W V : Type} `{!Prometheus Float W} (Sprint : V → string).

(** The labels of a metric: the exported fields that pass the filter, with their values. *)
Definition labels_of (f : TagFilter) (fields : list (string * V)) : list (string * string) :=
  filter (λ '(key, _), Test f key = true) ((λ '(name, x), (formatTagName name, Sprint x)) <$> fields).

Lemma filtered_reflect ty (instance : value V) fields f :
  fields_of ty instance = Some fields →
  TagKeys (filteredTagDesc (NewReflectTags Sprint ty) f) = (labels_of f fields).*1 ∧
  TagValues (filteredTagDesc (NewReflectTags Sprint ty) f) instance = Ret (labels_of f fields).*2.
Proof.
  intros Hf. destruct (NewReflectTags_spec Sprint ty instance fields Hf) as [Hk Hv].
  destruct (filteredTagDesc_spec (NewReflectTags Sprint ty) f instance _ Hv) as [H1 H2].
  { by rewrite Hk, !length_fmap. }
  rewrite Hk in H1, H2. unfold labels_of.
  assert (Hzip : zip (formatTagName <$> fields.*1) (Sprint <$> fields.*2) = (λ '(name, x), (formatTagName name, Sprint x)) <$> fields).
  { clear. induction fields as [|[n x] fields IH]; [done|]. cbn. by f_equal. }
  by rewrite Hzip in H1, H2.
Qed.

(** A metric and a field of a struct whose collector has the keys [keys]. *)
Definition field_ready {S} (keys : list string) (field : AnyField S) : Prop :=
  match field with NewField _ _ ty _ => ∃ k name help b, collector ty = Some (NewVec k name help b keys) end.

Lemma initFields_ready {S} (fields : list (AnyField S)) keys namePrefix helpPrefix : ∀ registry fields' registry',
  initFields registry namePrefix helpPrefix keys fields = Ret (fields', registry') → Forall (field_ready keys) fields'.
Proof.
  induction fields as [|[T name help ty ex] fields IH]; intros registry fields' registry'; cbn; [by intros [= <- _]|].
  destruct (MustRegister _ _) as [reg|]; [|done]. cbn. destruct (initFields reg _ _ _ fields) as [[fs reg']|] eqn:Hi; [|done].
  intros [= <- _]. constructor; [|by eapply IH]. cbn. by eexists _, _, _, _.
Qed.

(** A vector has a metric for as many values as it has labels. *)
Hypothesis labelled : ∀ k name help b keys vs, length vs = length keys → is_ret (WithLabelValues (NewVec k name help b keys) vs) = true.

Lemma EmitFields_ret {S} (fields : list (AnyField S)) keys vs v : ∀ w,
  length vs = length keys → Forall (field_ready keys) fields → is_ret (EmitFields fields vs v w) = true.
Proof.
  induction fields as [|[T name help ty ex] fields IH]; intros w Hlen Hf; [done|].
  apply Forall_cons in Hf as [(k & n & h & b & Hc) Hf]. unfold EmitFields. cbn [outcome_foldl EmitField]. unfold Type_Emit at 1.
  rewrite Hc. specialize (labelled k n h b keys vs Hlen). destruct (WithLabelValues _ _) as [s|]; [|done]. cbn. by apply IH.
Qed.

End metric_lemmas.

(** ** Lemmas: unique counters *)
Section unique_lemmas.
Import Unique Strings.
Context `{!GoRuntime, !HyperLogLog}.
Notation chars := String.list_ascii_of_string.

(** Tags that the key of a counter tells apart: as many as the counter has keys, without its separator. *)
Definition plain_tags (n : nat) (tags : list string) : Prop := length tags = n ∧ Forall (λ w, "|"%char ∉ chars w) tags.

Lemma Join_plain_inj n tags tags' : plain_tags n tags → plain_tags n tags' → Join tags "|" = Join tags' "|" → tags = tags'.
Proof.
  intros [Hl Hw] [Hl' Hw'] Heq. destruct tags as [|t tags], tags' as [|t' tags']; cbn in Hl, Hl'; subst; try done.
  rewrite <- (Split_Join (t :: tags) "|"), <- (Split_Join (t' :: tags') "|") by done. by rewrite Heq.
Qed.

(** What is specified: the values of each list of tags since the last flush, and the gauges. *)
Record spec : Type := { seen : gmap (list string) (list string); shown : gmap (list string) Z }.
Inductive op : Type := OpEmit (tags : list string) (v : string) | OpFlush.

Definition sketch (vs : list string) : Sketch := foldl (λ s v, Insert v s) New16 vs.
Definition spec_step (s : spec) (o : op) : spec :=
  match o with
  | OpEmit tags v => {| seen := <[tags := default [] (seen s !! tags) ++ [v]]> (seen s);
                        shown := match seen s !! tags with
                                 | Some _ => shown s | None => <[tags := default 0%Z (shown s !! tags)]> (shown s) end |}
  | OpFlush => {| seen := (λ _, []) <$> seen s; shown := ((Estimate ∘ sketch) <$> seen s) ∪ shown s |}
  end.
Definition step (ty : counterVec) (o : op) : counterVec :=
  match o with OpEmit tags v => Emit tags v ty | OpFlush => Flush ty end.

Record counts (n : nat) (ty : counterVec) (s : spec) : Prop := {
  counts_counter : ∀ key c, counters ty !! key = Some c →
    key = Join (gauge c) "|" ∧ ∃ vs, seen s !! gauge c = Some vs ∧ hll c = sketch vs;
  counts_seen : ∀ tags vs, seen s !! tags = Some vs → plain_tags n tags ∧
    ∃ c, counters ty !! Join tags "|" = Some c ∧ gauge c = tags;
  counts_shown : gauges ty = shown s
}.

Lemma counts_insert n ty s tags vs c gs :
  counts n ty s → plain_tags n tags → gauge c = tags → hll c = sketch vs →
  counts n {| counters := <[Join tags "|" := c]> (counters ty); gauges := gs |} {| seen := <[tags := vs]> (seen s); shown := gs |}.
Proof.
  intros [Hc Hs _] Hp Hgc Hh. split; cbn; [| |done].
  - intros key c'. rewrite lookup_insert_Some. intros [[<- <-]|[Hne Hc']].
    + rewrite Hgc. split; [done|]. exists vs. by rewrite lookup_insert_eq.
    + destruct (Hc _ _ Hc') as (-> & vs' & ? & ?). split; [done|]. exists vs'. rewrite lookup_insert_ne by congruence. done.
  - intros tags' vs'. rewrite lookup_insert_Some. intros [[<- <-]|[Hne Hvs']].
    + split; [done|]. exists c. by rewrite lookup_insert_eq.
    + destruct (Hs _ _ Hvs') as (Hp2 & c2 & Hc2 & Hg2). split; [done|]. exists c2. rewrite lookup_insert_ne; [done|].
      intros Heq. apply Hne. by eapply Join_plain_inj.
Qed.

(** A list of tags has a counter if values were seen for it. *)
Lemma counts_lookup n ty s tags : counts n ty s → plain_tags n tags →
  match counters ty !! Join tags "|" with
  | Some c => gauge c = tags ∧ ∃ vs, seen s !! tags = Some vs ∧ hll c = sketch vs
  | None => seen s !! tags = None
  end.
Proof.
  intros [Hc Hs _] Hp. destruct (counters ty !! Join tags "|") as [c|] eqn:Hk.
  - destruct (Hc _ _ Hk) as (Hj & vs & Hvs & Hh). destruct (Hs _ _ Hvs) as [Hp' _].
    rewrite (Join_plain_inj n _ _ Hp Hp' Hj). split; [done|]. by exists vs.
  - destruct (seen s !! tags) as [vs|] eqn:Hvs; [|done]. destruct (Hs _ _ Hvs) as (_ & c & Hc' & _). congruence.
Qed.

Lemma counts_emit n ty s tags v : counts n ty s → plain_tags n tags → counts n (Emit tags v ty) (spec_step s (OpEmit tags v)).
Proof.
  intros Hcs Hp. pose proof (counts_lookup _ _ _ _ Hcs Hp) as Hl. pose proof (counts_shown _ _ _ Hcs) as Hg. unfold Emit. cbn [spec_step].
  destruct (counters ty !! Join tags "|") as [c|].
  - destruct Hl as (<- & vs & Hvs & Hh). rewrite Hvs, Hg. apply counts_insert; [done..|]. unfold sketch. rewrite foldl_app. cbn. by f_equal.
  - rewrite Hl, Hg. by apply counts_insert.
Qed.

(** A flush visits each counter once. *)
Lemma flush_fold l : ∀ ty, NoDup l.*1 → NoDup (gauge <$> l.*2) →
  let ty' := foldl flushOne ty l in
  counters ty' = (list_to_map (prod_map id (snd ∘ reportAndReset) <$> l) : gmap string counter) ∪ counters ty ∧
  gauges ty' = (list_to_map ((λ c, (gauge c, Estimate (hll c))) <$> l.*2) : gmap (list string) Z) ∪ gauges ty.
Proof.
  induction l as [|[key c] l IH]; intros ty Hk Hg; [split; cbn; by rewrite (left_id_L ∅ (∪))|]. cbn [foldl fmap list_fmap] in *.
  apply NoDup_cons in Hk as [Hk1 Hk], Hg as [Hg1 Hg]. destruct (IH (flushOne ty (key, c)) Hk Hg) as [IH1 IH2].
  cbv zeta. rewrite IH1, IH2. cbn. split.
  - rewrite <- insert_union_r; [by rewrite insert_union_l|]. apply not_elem_of_list_to_map_1.
    rewrite <- list_fmap_compose. erewrite list_fmap_ext; [exact Hk1|]. by intros _ [k' c'] _.
  - rewrite <- insert_union_r; [by rewrite insert_union_l|]. apply not_elem_of_list_to_map_1.
    by rewrite <- list_fmap_compose.
Qed.

Lemma counts_flush n ty s : counts n ty s → counts n (Flush ty) (spec_step s OpFlush).
Proof.
  intros Hcs. pose proof Hcs as [Hc Hs Hg]. unfold Flush.
  assert (Hnd : NoDup (map_order (counters ty)).*1) by (rewrite map_order_perm; apply NoDup_fst_map_to_list).
  assert (Hin : ∀ c, c ∈ (map_order (counters ty)).*2 ↔ counters ty !! Join (gauge c) "|" = Some c).
  { intros c. rewrite list_elem_of_fmap. split.
    - intros ([key c'] & -> & Hk%elem_of_map_order). destruct (Hc _ _ Hk) as [Hj _]. cbn. by rewrite <- Hj.
    - intros Hk. exists (Join (gauge c) "|", c). split; [done|]. by apply elem_of_map_order. }
  assert (Hndg : NoDup (gauge <$> (map_order (counters ty)).*2)).
  { rewrite map_order_perm. apply NoDup_fmap_2_strong.
    - intros c1 c2 H1 H2 Heq. rewrite <- map_order_perm in H1, H2. apply Hin in H1, H2. rewrite Heq in H1. congruence.
    - apply NoDup_fmap_2_strong; [|apply NoDup_map_to_list]. intros [k1 c1] [k2 c2] H1%elem_of_map_to_list H2%elem_of_map_to_list.
      cbn. intros ->. destruct (Hc _ _ H1) as [-> _], (Hc _ _ H2) as [-> _]. done. }
  destruct (flush_fold _ ty Hnd Hndg) as [H1 H2].
  assert (Hself : (list_to_map (map_order (counters ty)) : gmap string counter) = counters ty).
  { rewrite <- (list_to_map_to_list (counters ty)). apply list_to_map_proper; [by rewrite list_to_map_to_list|].
    rewrite list_to_map_to_list. apply map_order_perm. }
  rewrite list_to_map_fmap, Hself in H1.
  set (ty' := foldl flushOne ty _) in *.
  assert (Hlook : ∀ key, counters ty' !! key = (snd ∘ reportAndReset) <$> counters ty !! key).
  { intros key. rewrite H1, lookup_union, lookup_fmap. by destruct (counters ty !! key). }
  split; cbn.
  - intros key c. rewrite Hlook, fmap_Some. intros (c0 & Hc0 & ->). destruct (Hc _ _ Hc0) as (-> & vs & Hvs & _).
    split; [done|]. exists []. cbn. by rewrite lookup_fmap, Hvs.
  - intros tags vs. rewrite lookup_fmap, fmap_Some. intros (vs0 & Hvs0 & ->). destruct (Hs _ _ Hvs0) as (Hp & c & Hc0 & Hgc).
    split; [done|]. exists (reportAndReset c).2. by rewrite Hlook, Hc0.
  - rewrite H2, Hg. f_equal. apply map_eq. intros tags. apply option_eq. intros z.
    rewrite <- elem_of_list_to_map by (rewrite <- list_fmap_compose; exact Hndg).
    rewrite lookup_fmap, fmap_Some, list_elem_of_fmap. split.
    + intros (c & [= -> ->] & Hcin%Hin). destruct (Hc _ _ Hcin) as (_ & vs & Hvs & Hh). exists vs. by rewrite Hh.
    + intros (vs & Hvs & ->). destruct (Hs _ _ Hvs) as (_ & c & Hc0 & <-). exists c. split; [|by apply Hin].
      destruct (Hc _ _ Hc0) as (_ & vs' & Hvs' & Hh). cbn. rewrite Hh. by simplify_eq.
Qed.

Lemma counts_run n ops : ∀ ty s, counts n ty s → Forall (λ o, match o with OpEmit tags _ => plain_tags n tags | OpFlush => True end) ops →
  counts n (foldl step ty ops) (foldl spec_step s ops).
Proof.
  induction ops as [|[tags v|] ops IH]; intros ty s Hcs Hops; [done|..]; apply Forall_cons in Hops as [Ho Hops]; cbn [foldl];
    apply IH; try done; [by apply counts_emit|by apply counts_flush].
Qed.

End unique_lemmas.

(** ** Properties *)

(** A metric is emitted as it was registered: for every type of tags, every value of it and every filter, a metric that is registered
    has the names of the exported fields that pass the filter as labels, embedded structs included, and emitting
    does not panic but updates the metric whose labels have the values of these fields, in the same order. *)
Theorem metrics_emit_labels {Float W V Value : Type} `{!Metric.Prometheus Float W} (Sprint : V → string) (ty : Tags.structType)
    (f : Tags.TagFilter) (name help : string) (mt : Metric.Type_ Value) (registry registry' : Metric.Registry)
    (handle : Metric.Handle (Tags.value V) Value) (instance : Tags.value V) (fields : list (string * V)) (v : Value) (w : W) :
  (∀ k name help b keys vs, length vs = length keys →
    is_ret (Metric.WithLabelValues (Metric.NewVec k name help b keys) vs) = true) →
  Metric.registerWith registry f name help mt (Tags.NewReflectTags Sprint ty) = Ret (handle, registry') →
  fields_of ty instance = Some fields →
  let labels := labels_of Sprint f fields in
  ∃ series,
    Metric.WithLabelValues (Metric.NewVec (Metric.metricKind mt) name help (Metric.buckets mt) labels.*1) labels.*2 = Ret series ∧
    Metric.Emit handle v instance w = Ret (Metric.Update (Metric.metricKind mt) series (Metric.typeConv mt v) w).
Proof.
  intros Hlab Hreg Hf labels. destruct (filtered_reflect Sprint ty instance fields f Hf) as [Hk Hv]. fold labels in Hk, Hv.
  unfold Metric.registerWith in Hreg. cbn in Hreg. destruct (Metric.MustRegister _ _) as [r|]; [|done]. injection Hreg as <- <-.
  specialize (Hlab (Metric.metricKind mt) name help (Metric.buckets mt) labels.*1 labels.*2 ltac:(by rewrite !length_fmap)).
  destruct (Metric.WithLabelValues _ _) as [series|] eqn:Hs; [|done]. exists series. split; [done|].
  unfold Metric.Emit, Metric.With. cbn [Metric.tagsDesc Metric.metricType]. rewrite Hv. cbn. unfold Metric.Type_Emit. cbn.
  cbn in Hk. rewrite Hk, Hs. done.
Qed.

(** The same for a metric per field of a value: none of them panics. *)
Lemma multifield_emits {Float W V S : Type} `{!Metric.Prometheus Float W} (Sprint : V → string) (ty : Tags.structType)
    (f : Tags.TagFilter) (namePrefix helpPrefix : string) (metrics : list (Metric.AnyField S)) (registry registry' : Metric.Registry)
    (handle : Metric.Handle (Tags.value V) S) (instance : Tags.value V) (fields : list (string * V)) (v : S) (w : W) :
  (∀ k name help b keys vs, length vs = length keys →
    is_ret (Metric.WithLabelValues (Metric.NewVec k name help b keys) vs) = true) →
  Metric.RegisterMultiField registry f namePrefix helpPrefix (Tags.NewReflectTags Sprint ty) metrics = Ret (handle, registry') →
  fields_of ty instance = Some fields → is_ret (Metric.Emit handle v instance w) = true.
Proof.
  intros Hlab Hreg Hf. destruct (filtered_reflect Sprint ty instance fields f Hf) as [Hk Hv]. unfold Metric.RegisterMultiField in Hreg.
  destruct (Metric.initFields _ _ _ _ _) as [[fs r]|] eqn:Hi; [|done]. injection Hreg as <- <-.
  apply initFields_ready in Hi. unfold Metric.Emit, Metric.With. cbn [Metric.tagsDesc Metric.metricType]. rewrite Hv. cbn.
  rewrite Hk in Hi. eapply EmitFields_ret; [exact Hlab| |exact Hi]. by rewrite !length_fmap.
Qed.

(** Metrics that record what is done to them. *)
#[local] Instance example_prometheus : Metric.Prometheus Z (list (list string * Z)) := {|
  Metric.Vec := list string; Metric.Series := list string;
  Metric.NewVec _ _ _ _ keys := keys;
  Metric.WithLabelValues vec vs := if length vs =? length vec then Ret vs else Panic "inconsistent label cardinality";
  Metric.Update _ series x w := w ++ [(series, x)];
  Metric.Registry := unit; Metric.MustRegister r _ := Ret r |}.

(** An embedded struct with the user, who is not shown. *)
Lemma metrics_emit_labels_witness :
  let ty := Tags.Struct [("Cell", true, None); ("Subject", true, Some (Tags.Struct [("Namespace", true, None); ("User", true, None)]));
    ("cache", false, None)] in
  let instance := Tags.StructValue [Tags.Leaf "c1"; Tags.StructValue [Tags.Leaf "ns"; Tags.Leaf "me"]; Tags.Leaf "x"] in
  let f := {| Tags.Namespace := true; Tags.User := false |} in
  let mt := {| Metric.metricKind := Metric.Counter; Metric.typeConv := λ z : Z, z; Metric.buckets := []; Metric.collector := None |} in
  ∃ handle, Metric.registerWith () f "requests" "" mt (Tags.NewReflectTags id ty) = Ret (handle, ()) ∧
    Metric.Emit handle 1%Z instance [] = Ret [(["c1"; "ns"], 1%Z)].
Proof.
  intros ty instance f mt. eexists. split; [reflexivity|].
  destruct (metrics_emit_labels id ty f "requests" "" mt () () _ instance [("Cell", "c1"); ("Namespace", "ns"); ("User", "me")] 1%Z []
    ltac:(intros k name help b keys vs Hlen; cbn; rewrite Hlen, Nat.eqb_refl; reflexivity) eq_refl eq_refl) as (series & Hs & He).
  rewrite He. vm_compute in Hs. injection Hs as <-. reflexivity.
Defined.

(** A counter of distinct values refines one map of values per list of tags: as long as tags have no separator and are as many as the
    counter has keys, after any emissions and flushes each gauge shows the estimate of the values that were emitted with
    exactly its tags before the last flush and after the one before it. *)
Theorem unique_counters_refine `{!GoRuntime, !Unique.HyperLogLog} (n : nat) (ops : list op) :
  Forall (λ o, match o with OpEmit tags _ => plain_tags n tags | OpFlush => True end) ops →
  Unique.gauges (foldl step Unique.NewCounterVec ops) = shown (foldl spec_step {| seen := ∅; shown := ∅ |} ops).
Proof.
  intros Hops. eapply counts_shown, (counts_run n); [|exact Hops]. by split.
Qed.

#[local] Instance example_sketch : Unique.HyperLogLog := {|
  Unique.Sketch := gset string; Unique.New16 := ∅; Unique.Insert v s := {[v]} ∪ s; Unique.Estimate s := Z.of_nat (size s) |}.

Lemma unique_counters_refine_witness :
  let ops := [OpEmit ["a"; "b"] "x"; OpEmit ["a"; "b"] "y"; OpEmit ["a"; "c"] "x"; OpFlush; OpEmit ["a"; "b"] "x"] in
  Unique.gauges (foldl step Unique.NewCounterVec ops) !! ["a"; "b"] = Some 2%Z.
Proof.
  intros ops. rewrite (unique_counters_refine 2 ops).
  - vm_compute. reflexivity.
  - unfold ops, plain_tags. repeat (apply Forall_cons; split); try exact I;
      [split; [reflexivity|apply (bool_decide_eq_true_1 _); vm_compute; reflexivity]..|apply Forall_nil; exact I].
Defined.

(** Tags that have the separator may share a counter: its values are counted together, for the tags that came first. *)
Lemma unique_counters_collide :
  let ty := foldl step Unique.NewCounterVec [OpEmit ["a|b"; "c"] "x"; OpEmit ["a"; "b|c"] "y"; OpFlush] in
  Unique.gauges ty !! ["a|b"; "c"] = Some 2%Z ∧ Unique.gauges ty !! ["a"; "b|c"] = None.
Proof. vm_compute. split; reflexivity. Qed.
