(* ===== verification/Component.v ===== *)
(** * Component: the dependency framework that assembles a process

    [Module Component] is util/component/interface.go, with the selection of multiplexed
    implementations of mux.go and the order in which util/cmd/cmd.go initializes and joins what
    is left. A declaration is any type with a name, the requests that it makes, and what merging it does:
    it updates the instance that was registered first and adds requests. An instance is known by its
    name here; [Handles] has the handles of the components to each other. Counts of requests are natural numbers. *)

From S2P Require Import Prelude Util Errors Iter.

Module Component.

Definition mainRequester : string := "_main".

(** [m[k]++] on a map of counts. *)
Definition increment (k : string) (m : gmap string nat) : gmap string nat :=
  <[k := S (default 0 (m !! k))]> m.
(** A count that is read from a map: zero if absent. *)
Definition count_of (k : string) (m : gmap string nat) : nat := default 0 (m !! k).

(** *** Resolution of requests *)

(** A recursion that has run out of fuel, or an outcome. *)
Definition run (A : Type) : Type := option (outcome A).
#[export] Instance run_ret : MRet run := λ A a, Some (Ret a).
#[export] Instance run_bind : MBind run := λ A B f m,
  match m with
  | Some (Ret a) => f a
  | Some (Panic msg) => Some (Panic msg)
  | None => None
  end.

Section resolve.
Context {Decl : Type}.
Variables (Name : Decl → string) (dependencies : Decl → list Decl) (mergeInto : Decl → Decl → outcome (Decl * list Decl)).

Record componentMapEntry : Type := {
  comp : Decl;
  requesters : gmap string nat;
  deps : gmap string nat
}.

(** An entry is nil while its dependencies are resolved. *)
Notation componentMap := (gmap string (option componentMapEntry)).

Definition add_dep (depName : string) (e : componentMapEntry) : componentMapEntry :=
  {| comp := comp e; requesters := requesters e; deps := increment depName (deps e) |}.
Definition add_requester (requester : string) (e : componentMapEntry) : componentMapEntry :=
  {| comp := comp e; requesters := increment requester (requesters e); deps := deps e |}.

Definition merge_comp (other : Decl) (e : componentMapEntry) : componentMapEntry :=
  {| comp := other; requesters := requesters e; deps := deps e |}.

(** The loop over requests; [onDep] is what follows each of them. *)
Fixpoint resolveLoop {S} (resolve : componentMap → Decl → run (string * componentMap))
    (onDep : string → componentMap * S → componentMap * S) (requests : list Decl) (acc : componentMap * S) :
    run (componentMap * S) :=
  match requests with
  | [] => mret acc
  | request :: requests =>
      '(depName, cm) ← resolve acc.1 request;
      resolveLoop resolve onDep requests (onDep depName (cm, acc.2))
  end.

Fixpoint resolveRequest (fuel : nat) (cm : componentMap) (request : Decl) (requester : string) :
    run (string * componentMap) :=
  match fuel with
  | O => None
  | S fuel =>
      let requestName := Name request in
      let resolve cm dep := resolveRequest fuel cm dep requestName in
      match cm !! requestName with
      | Some None => Some (Panic "cyclic dependency detected")
      | Some (Some prev) =>
          '(other, merged) ← Some (mergeInto request (comp prev));
          '(cm, _) ← resolveLoop resolve
            (λ depName '(cm, u), (alter (fmap (add_dep depName)) requestName cm, u)) merged
            (alter (fmap (merge_comp other)) requestName cm, tt);
          mret (requestName, alter (fmap (add_requester requester)) requestName cm)
      | None =>
          '(cm, requestTimes) ← resolveLoop resolve
            (λ depName '(cm, times), (cm, increment depName times))
            (dependencies request) (<[requestName := None]> cm, ∅);
          mret (requestName, <[requestName := Some {| comp := request;
            requesters := {[ requester := 1 ]}; deps := requestTimes |}]> cm)
      end
  end.

(** The loop of [ResolveList] over the requests from main. *)
Definition resolveMain (fuel : nat) (requests : list Decl) : run componentMap :=
  '(cm, _) ← resolveLoop (λ cm request, resolveRequest fuel cm request mainRequester) (λ _ acc, acc)
    requests (∅, tt);
  mret cm.

End resolve.

(** *** Topological sorting *)

Section sort.
Context `{!GoRuntime}.

(** The edges of the components, from each name to the names that it depends on. *)
Variable edges : gmap string (gmap string nat).

Record dfsState : Type := { pending : gset string; visited : gset string; sorted : list string }.

(** The error is the chain of names, from the repeated one. *)
Fixpoint dfs (fuel : nat) (compName : string) (s : dfsState) : run (dfsState * option (list string)) :=
  match fuel with
  | O => None
  | S fuel =>
      if negb (bool_decide (compName ∈ pending s)) then mret (s, None)
      else if bool_decide (compName ∈ visited s) then mret (s, Some [compName])
      else
        let s := {| pending := pending s; visited := {[compName]} ∪ visited s; sorted := sorted s |} in
        match edges !! compName with
        | None => Some (Panic "invalid memory address or nil pointer dereference")
        | Some deps =>
            '(s, err) ← (fix loop (deps : list string) (s : dfsState) : run (dfsState * option (list string)) :=
              match deps with
              | [] => mret (s, None)
              | dep :: deps =>
                  '(s, err) ← dfs fuel dep s;
                  match err with
                  | Some err => mret (s, Some (err ++ [compName]))
                  | None => loop deps s
                  end
              end) (map_order deps).*1 s;
            match err with
            | Some err => mret (s, Some err)
            | None => mret ({| pending := pending s ∖ {[compName]}; visited := visited s;
                              sorted := sorted s ++ [compName] |}, None)
            end
        end
  end.

(** [util.GetArbitraryMapEntry] of the pending names: the first one in the order of the map. *)
Fixpoint toposortLoop (rounds fuel : nat) (s : dfsState) : run (list string) :=
  match set_order (pending s) with
  | [] => mret (sorted s)
  | seed :: _ =>
      match rounds with
      | O => None
      | S rounds =>
          '(s, err) ← dfs fuel seed s;
          match err with
          | Some _ => Some (Panic "recursive dependency chain")
          | None => toposortLoop rounds fuel s
          end
      end
  end.

Definition toposort (rounds fuel : nat) : run (list string) :=
  toposortLoop rounds fuel {| pending := dom edges; visited := ∅; sorted := [] |}.

End sort.

(** [ResolveList]: the components that requests from main lead to, in the order of initialization. *)
Section resolve_list.
Context `{!GoRuntime} {Decl : Type}.
Variables (Name : Decl → string) (dependencies : Decl → list Decl) (mergeInto : Decl → Decl → outcome (Decl * list Decl)).

Definition edges_of (cm : gmap string (option (componentMapEntry (Decl := Decl)))) : gmap string (gmap string nat) :=
  omap (fmap deps) cm.

Definition ResolveList (fuel : nat) (requests : list Decl) : run (list string) :=
  cm ← resolveMain Name dependencies mergeInto fuel requests;
  toposort (edges_of cm) (size cm) (S (size cm)).

End resolve_list.

(** *** Trimming what is not requested *)

(** The in-edges and the out-edges of a component; the maps are shared by the list and the
    map of components, so that one store holds them. *)
Record node : Type := { in_edges : gmap string nat; out_edges : gmap string nat }.
Notation store := (gmap string node).

Definition set_in (f : gmap string nat → gmap string nat) (n : node) : node :=
  {| in_edges := f (in_edges n); out_edges := out_edges n |}.
Definition set_out (f : gmap string nat → gmap string nat) (n : node) : node :=
  {| in_edges := in_edges n; out_edges := f (out_edges n) |}.

(** [SliceToMap] of the sorted components. *)
Definition store_of {Decl} (cm : gmap string (option (componentMapEntry (Decl := Decl)))) : store :=
  omap (fmap (λ e, {| in_edges := requesters e; out_edges := deps e |})) cm.

Section trim.
Context `{!GoRuntime}.
Variables (isRequestedFromMain : string → bool) (unrequestDeps : string → list string).

(** The requests of [dep] by the component [c] are one less. *)
Definition unrequest (c : string) (st : store) (dep : string) : outcome store :=
  let depRequests := default 0 (st !! c ≫= λ n, out_edges n !! dep) in
  if negb (depRequests =? default 0 (st !! dep ≫= λ n, in_edges n !! c))
  then Panic "out-edge and in-edge value are out of sync"
  else if depRequests =? 0 then Panic "cannot unrequest dependency that was not requested"
  else if depRequests - 1 =? 0
  then Ret (alter (set_in (delete c)) dep (alter (set_out (delete dep)) c st))
  else Ret (alter (set_in <[c := depRequests - 1]>) dep (alter (set_out <[dep := depRequests - 1]>) c st)).

Definition removeDirectDeps (components : list string) (st : store) : outcome store :=
  outcome_foldl (λ st c,
    let st :=
      match st !! c with
      | Some n =>
          if bool_decide (is_Some (in_edges n !! mainRequester)) && negb (isRequestedFromMain c)
          then alter (set_in (delete mainRequester)) c st else st
      | None => st
      end in
    outcome_foldl (unrequest c) st (unrequestDeps c)) st components.

Definition total_requests (n : node) : nat := map_fold (λ _ k acc, k + acc) 0 (in_edges n).

(** One pass over the map; each component is visited in the order of the map as it was. *)
Definition shakeTreeOnce (st : store) : store * bool :=
  foldl (λ '(st, hasChanged) compName,
    match st !! compName with
    | Some n =>
        if total_requests n =? 0
        then (delete compName (foldl (λ st dep, alter (set_in (delete compName)) dep st) st
                (map_order (out_edges n)).*1), true)
        else (st, hasChanged)
    | None => (st, hasChanged)
    end) (st, false) (map_order st).*1.

Fixpoint shakeTree (fuel : nat) (st : store) : option store :=
  match fuel with
  | O => None
  | S fuel => let '(st, hasChanged) := shakeTreeOnce st in if hasChanged : bool then shakeTree fuel st else Some st
  end.

Definition TrimNonRequested (fuel : nat) (components : list string) (st : store) : run (list string) :=
  match removeDirectDeps components st with
  | Panic msg => Some (Panic msg)
  | Ret st =>
      st ← shakeTree fuel st;
      Some (Ret (filter (λ c, is_Some (st !! c)) components))
  end.

End trim.

(** *** mux.go: the names of the implementations that are not selected *)

(** [impls] maps the names of the implementations to those of their components; nothing is
    selected when the interface was never requested. *)
Definition mux_unrequestDeps `{!GoRuntime} (impls : gmap string string) (selection : option string) : list string :=
  match selection with
  | Some selection => (filter (λ '(implName, _), implName ≠ selection) (map_order impls)).*2
  | None => []
  end.

(** *** cmd.go *)

(** Components are initialized one by one, up to the first error. *)
Fixpoint initComponents {W : Type} (Init : string → W → option error * W) (components : list string) (w : W) :
    option error * W :=
  match components with
  | [] => (None, w)
  | c :: components =>
      match Init c w with
      | (Some err, w) => (Some (TagWrapf "Init" (Some err) (c +:+ " init error")), w)
      | (None, w) => initComponents Init components w
      end
  end.

(** The loop of [tryRun] that joins the components, from the last one to the first. *)
Fixpoint joinComponents {W : Type} (Join : string → W → option error * W) (reversed : list string) (w : W) :
    option error * W :=
  match reversed with
  | [] => (None, w)
  | c :: reversed =>
      match Join c w with
      | (Some err, w) => (Some (TagWrapf "Join" (Some err) (c +:+ " join error")), w)
      | (None, w) => joinComponents Join reversed w
      end
  end.

End Component.
