(* ===== verification/ComponentCorrect.v ===== *)
(** * ComponentCorrect: what the dependency framework guarantees

    Requests are counted once by the requester and once by what it requested, the order of
    initialization puts dependencies first, and what is left after trimming is exactly what
    main reaches through requests that were not withdrawn. *)

From S2P Require Import Prelude Util Errors Iter Component.

(** ** Lemmas: the in-edges are the out-edges *)
Section resolve_lemmas.
Import Component.
Context {Decl : Type}.
Variables (Name : Decl → string) (dependencies : Decl → list Decl) (mergeInto : Decl → Decl → outcome (Decl * list Decl)).
Notation cmap := (gmap string (option (componentMapEntry (Decl := Decl)))).
Notation resolve := (resolveRequest Name dependencies mergeInto).
Implicit Types (cm : cmap) (a b x : string).

Definition out_count cm a b : Z :=
  match cm !! a with Some (Some e) => Z.of_nat (count_of b (deps e)) | _ => 0 end.
Definition in_count cm a b : Z :=
  match cm !! b with Some (Some e) => Z.of_nat (count_of a (requesters e)) | _ => 0 end.
(** The requests of [a] for [b] that only [b] has recorded. *)
Definition unbalanced cm a b : Z := (in_count cm a b - out_count cm a b)%Z.
Definition delta (r n a b : string) : Z := if bool_decide (a = r ∧ b = n) then 1 else 0.

(** Components stay, and nothing new is left unresolved. *)
Definition extends cm cm' : Prop :=
  (∀ x, cm !! x = Some None ↔ cm' !! x = Some None) ∧
  (∀ x e, cm !! x = Some (Some e) → ∃ e', cm' !! x = Some (Some e')).

Lemma extends_refl cm : extends cm cm.
Proof. split; [done|]. intros x e Hx. eauto. Qed.
Lemma extends_trans cm1 cm2 cm3 : extends cm1 cm2 → extends cm2 cm3 → extends cm1 cm3.
Proof.
  intros [H1 H2] [H3 H4]. split; [intros x; by rewrite H1|].
  intros x e Hx. destruct (H2 x e Hx) as (e1 & Hx1). by eapply H4.
Qed.

Lemma count_increment k k' m : count_of k (increment k' m) = count_of k m + if decide (k = k') then 1 else 0.
Proof.
  unfold count_of, increment. destruct (decide (k = k')) as [->|Hne].
  - rewrite lookup_insert_eq. simpl. lia.
  - rewrite lookup_insert_ne by done. lia.
Qed.

Lemma extends_alter f x cm : extends cm (alter (fmap f) x cm).
Proof.
  split.
  - intros y. destruct (decide (x = y)) as [->|Hne]; [|by rewrite lookup_alter_ne].
    rewrite lookup_alter_eq. destruct (cm !! y) as [[e|]|]; simpl; split; congruence.
  - intros y e Hy. destruct (decide (x = y)) as [->|Hne]; [|rewrite lookup_alter_ne by done; eauto].
    rewrite lookup_alter_eq, Hy. simpl. eauto.
Qed.

(** Merging an instance moves no counts. *)
Lemma unbalanced_merge_comp other n cm a b : unbalanced (alter (fmap (merge_comp other)) n cm) a b = unbalanced cm a b.
Proof.
  unfold unbalanced, in_count, out_count. rewrite !lookup_alter.
  by repeat case_decide; subst; repeat destruct (cm !! _) as [[?|]|].
Qed.

(** Recording a request in the requester, and in what is requested. *)
Lemma unbalanced_add_dep n x cm a b e :
  cm !! n = Some (Some e) → unbalanced (alter (fmap (add_dep x)) n cm) a b = (unbalanced cm a b - delta n x a b)%Z.
Proof.
  intros Hn. unfold unbalanced.
  assert (Hin : in_count (alter (fmap (add_dep x)) n cm) a b = in_count cm a b).
  { unfold in_count. rewrite lookup_alter. case_decide; subst; [|done]. by rewrite Hn. }
  assert (Hout : out_count (alter (fmap (add_dep x)) n cm) a b = (out_count cm a b + delta n x a b)%Z).
  { unfold out_count, delta. rewrite lookup_alter. case_decide as Ha; subst.
    - rewrite Hn. simpl. rewrite count_increment. case_decide as Hb; subst.
      + rewrite bool_decide_eq_true_2 by done. lia.
      + rewrite bool_decide_eq_false_2 by naive_solver. lia.
    - rewrite bool_decide_eq_false_2 by naive_solver. lia. }
  lia.
Qed.

Lemma unbalanced_add_requester r n cm a b e :
  cm !! n = Some (Some e) →
  unbalanced (alter (fmap (add_requester r)) n cm) a b = (unbalanced cm a b + delta r n a b)%Z.
Proof.
  intros Hn. unfold unbalanced.
  assert (Hout : out_count (alter (fmap (add_requester r)) n cm) a b = out_count cm a b).
  { unfold out_count. rewrite lookup_alter. case_decide; subst; [|done]. by rewrite Hn. }
  assert (Hin : in_count (alter (fmap (add_requester r)) n cm) a b = (in_count cm a b + delta r n a b)%Z).
  { unfold in_count, delta. rewrite lookup_alter. case_decide as Hb; subst.
    - rewrite Hn. simpl. rewrite count_increment. case_decide as Ha; subst.
      + rewrite bool_decide_eq_true_2 by done. lia.
      + rewrite bool_decide_eq_false_2 by naive_solver. lia.
    - rewrite bool_decide_eq_false_2 by naive_solver. lia. }
  lia.
Qed.

(** Registering a component whose own requests, [times], are recorded by what it requested. *)
Lemma unbalanced_register n r c times cm a b :
  cm !! n = Some None →
  unbalanced (<[n := Some {| comp := c; requesters := {[ r := 1 ]}; deps := times |}]> cm) a b =
    (unbalanced cm a b + delta r n a b - if decide (a = n) then Z.of_nat (count_of b times) else 0)%Z.
Proof.
  intros Hn. unfold unbalanced, in_count, out_count, delta. rewrite !lookup_insert.
  assert (Hr : Z.of_nat (count_of a ({[ r := 1 ]} : gmap string nat)) = if decide (a = r) then 1%Z else 0%Z).
  { unfold count_of. rewrite lookup_singleton. by repeat case_decide; subst. }
  destruct (decide (n = a)) as [<-|Ha], (decide (n = b)) as [<-|Hb]; simpl; rewrite ?Hn, ?Hr;
    repeat case_decide; case_bool_decide; subst; try tauto; try lia; naive_solver.
Qed.

(** What a resolution guarantees: one more request is recorded by what was requested. *)
Definition resolves cm (r : string) (d : Decl) (res : string * cmap) : Prop :=
  res.1 = Name d ∧ extends cm res.2 ∧ (∃ e, res.2 !! res.1 = Some (Some e)) ∧
  ∀ a b, unbalanced res.2 a b = (unbalanced cm a b + delta r res.1 a b)%Z.

(** The loop, where [onDep] moves the balance of [r] into its second component. *)
Lemma resolveLoop_spec {S} (P : S → string → Z) r (step : cmap → Decl → run (string * cmap))
    (onDep : string → cmap * S → cmap * S) (Q : cmap → Prop) requests :
  (∀ cm d res, step cm d = Some (Ret res) → resolves cm r d res) →
  (∀ cm cm', Q cm → extends cm cm' → Q cm') →
  (∀ cm u n, Q cm → extends cm (onDep n (cm, u)).1 ∧ ∀ a b,
    (unbalanced (onDep n (cm, u)).1 a b - (if decide (a = r) then P (onDep n (cm, u)).2 b else 0) =
     unbalanced cm a b - (if decide (a = r) then P u b else 0) - delta r n a b)%Z) →
  ∀ cm u res, Q cm → resolveLoop step onDep requests (cm, u) = Some (Ret res) →
    extends cm res.1 ∧ ∀ a b,
    (unbalanced res.1 a b - (if decide (a = r) then P res.2 b else 0) =
     unbalanced cm a b - (if decide (a = r) then P u b else 0))%Z.
Proof.
  intros Hstep HQ Hon. induction requests as [|d requests IH]; intros cm u res Hcm; cbn [resolveLoop].
  { intros [= <-]. split; [apply extends_refl|done]. }
  cbn [fst snd]. destruct (step cm d) as [[[n cm1]|msg]|] eqn:Hs; [|done|done].
  cbn [mbind run_bind]. destruct (Hstep _ _ _ Hs) as (_ & He1 & _ & Hb1). simpl in He1, Hb1.
  destruct (Hon cm1 u n (HQ _ _ Hcm He1)) as [He2 Hb2].
  destruct (onDep n (cm1, u)) as [cm2 u2] eqn:Hod. simpl in He2, Hb2. intros Hrun.
  destruct (IH cm2 u2 res) as [He3 Hb3]; [by eapply HQ, He2; eapply HQ, He1|done|].
  split; [by eapply extends_trans, extends_trans|]. intros a b. rewrite Hb3, Hb2, Hb1. lia.
Qed.

Lemma resolveRequest_spec fuel : ∀ cm d r res,
  resolve fuel cm d r = Some (Ret res) → resolves cm r d res.
Proof.
  induction fuel as [|fuel IH]; intros cm d r res; cbn [resolveRequest]; [done|].
  destruct (cm !! Name d) as [[prev|]|] eqn:Hn; [| done|].
  - destruct (mergeInto d (comp prev)) as [[other merged]|msg]; [|done]. cbn [mbind run_bind].
    destruct (resolveLoop _ _ merged _) as [[[cm1 u1]|msg]|] eqn:Hloop; [|done|done]. cbn [mbind run_bind].
    intros [= <-].
    eapply (resolveLoop_spec (S := unit) (λ _ _, 0%Z) (Name d)) with
      (Q := λ cm, ∃ e, cm !! Name d = Some (Some e)) in Hloop as [He Hb]; [|clear Hloop..].
    2:{ intros cm0 d0 res0. apply IH. }
    2:{ intros cm0 cm0' (e & He0) [_ He']. by eapply He'. }
    2:{ intros cm0 [] n (e & He0). split; [by apply extends_alter|]. intros a b. simpl.
      rewrite (unbalanced_add_dep _ _ _ _ _ e He0). unfold delta. repeat case_decide; case_bool_decide; lia. }
    2:{ rewrite lookup_alter_eq, Hn. simpl. eauto. }
    + simpl in He, Hb. pose proof (extends_trans _ _ _ (extends_alter (merge_comp other) (Name d) cm) He) as He'.
      destruct He' as [He1 He2]. destruct (He2 _ _ Hn) as (e & He3).
      split; [done|]. split; [eapply extends_trans; [by split|by apply extends_alter]|]. split.
      * simpl. rewrite lookup_alter_eq, He3. simpl. eauto.
      * intros a b. simpl. rewrite (unbalanced_add_requester _ _ _ _ _ e He3). specialize (Hb a b).
        rewrite unbalanced_merge_comp in Hb. repeat case_decide; lia.
  - destruct (resolveLoop _ _ (dependencies d) _) as [[[cm1 times]|msg]|] eqn:Hloop; [|done|done].
    cbn [mbind run_bind]. intros [= <-].
    assert (Hn0 : ∀ a b, unbalanced (<[Name d := None]> cm) a b = unbalanced cm a b).
    { intros a b. unfold unbalanced, in_count, out_count. rewrite !lookup_insert.
      by repeat case_decide; subst; rewrite ?Hn. }
    eapply (resolveLoop_spec (λ times b, Z.of_nat (count_of b times)) (Name d)) with
      (Q := λ _, True) in Hloop as [He Hb]; [|clear Hloop..].
    2:{ intros cm0 d0 res0. apply IH. }
    2:{ done. }
    2:{ intros cm0 u n _. split; [apply extends_refl|]. intros a b. simpl. rewrite count_increment. unfold delta.
      repeat case_decide; case_bool_decide; subst; try tauto; try lia; naive_solver. }
    2:{ done. }
    + simpl in He, Hb. destruct He as [He1 He2].
      assert (Hnone : cm1 !! Name d = Some None) by (apply He1; apply lookup_insert_eq).
      split; [done|]. split; [split|split].
      * intros x. simpl. rewrite lookup_insert. case_decide as Hx; subst; [rewrite Hn; split; congruence|].
        rewrite <- He1. by rewrite lookup_insert_ne.
      * intros x e Hx. simpl. rewrite lookup_insert. case_decide as Hxn; subst; [congruence|].
        apply (He2 x e). by rewrite lookup_insert_ne.
      * simpl. rewrite lookup_insert_eq. eauto.
      * intros a b. simpl. rewrite unbalanced_register by done. specialize (Hb a b). rewrite Hn0 in Hb.
        unfold count_of in Hb at 2. rewrite lookup_empty in Hb. simpl in Hb. repeat case_decide; lia.
Qed.

(** An invariant of the loop over requests. *)
Lemma resolveLoop_ind {S} (I : cmap * S → Prop) (step : cmap → Decl → run (string * cmap))
    (onDep : string → cmap * S → cmap * S) requests :
  (∀ cm u d n cm', I (cm, u) → d ∈ requests → step cm d = Some (Ret (n, cm')) → I (onDep n (cm', u))) →
  ∀ acc res, I acc → resolveLoop step onDep requests acc = Some (Ret res) → I res.
Proof.
  induction requests as [|d requests IH]; intros Hstep [cm u] res Hacc; cbn [resolveLoop fst snd]; [by intros [= <-]|].
  destruct (step cm d) as [[[n cm1]|msg]|] eqn:Hs; [|done|done]. cbn [mbind run_bind].
  apply IH; [|eapply Hstep; [exact Hacc|left|exact Hs]].
  intros cm0 u0 d0 n0 cm0' HI Hd. apply Hstep; [done|by right].
Qed.

Lemma resolveLoop_returns {S} (step : cmap → Decl → run (string * cmap))
    (onDep : string → cmap * S → cmap * S) requests :
  (∀ cm d, d ∈ requests → step cm d ≠ None) → ∀ acc, resolveLoop step onDep requests acc ≠ None.
Proof.
  induction requests as [|d requests IH]; intros Hstep acc; cbn [resolveLoop]; [done|].
  pose proof (Hstep acc.1 d (list_elem_of_here _ _)) as Hd.
  destruct (step acc.1 d) as [[[n cm1]|msg]|]; [|done|done]. cbn [mbind run_bind].
  apply IH. intros cm d' Hd'. apply Hstep. by right.
Qed.

(** Names are those of declarations, and counts that are recorded are positive. *)
Definition positive (m : gmap string nat) : Prop := map_Forall (λ _ n, 0 < n) m.
Definition well_recorded cm : Prop :=
  ∀ x oe, cm !! x = Some oe → (∃ d, Name d = x) ∧
    ∀ e, oe = Some e → positive (deps e) ∧ positive (requesters e).

Lemma positive_increment k m : positive m → positive (increment k m).
Proof. intros Hm. apply map_Forall_insert_2; [lia|done]. Qed.

Lemma well_recorded_insert x oe cm :
  well_recorded cm → (∃ d, Name d = x) →
  (∀ e, oe = Some e → positive (deps e) ∧ positive (requesters e)) →
  well_recorded (<[x := oe]> cm).
Proof.
  intros Hcm Hx Hoe y oe' Hy. rewrite lookup_insert in Hy.
  case_decide; [injection Hy as <-; subst; done|by apply Hcm].
Qed.

Lemma well_recorded_alter f x cm :
  well_recorded cm →
  (∀ e, (positive (deps e) → positive (deps (f e))) ∧
    (positive (requesters e) → positive (requesters (f e)))) →
  well_recorded (alter (fmap f) x cm).
Proof.
  intros Hcm Hf y oe Hy. rewrite lookup_alter in Hy. case_decide; [subst|by apply Hcm].
  destruct (cm !! y) as [oe'|] eqn:Hy'; [|done]. injection Hy as <-.
  destruct (Hcm _ _ Hy') as [Hd He]. split; [done|]. intros e He'.
  destruct oe' as [e'|]; [|done]. injection He' as <-. destruct (He e' eq_refl) as [? ?].
  destruct (Hf e') as [? ?]. auto.
Qed.

Lemma resolveRequest_well_recorded fuel : ∀ cm d r res,
  well_recorded cm → resolve fuel cm d r = Some (Ret res) → well_recorded res.2.
Proof.
  induction fuel as [|fuel IH]; intros cm d r res Hcm; cbn [resolveRequest]; [done|].
  destruct (cm !! Name d) as [[prev|]|] eqn:Hn; [| done|].
  - destruct (mergeInto d (comp prev)) as [[other merged]|msg]; [|done]. cbn [mbind run_bind].
    destruct (resolveLoop _ _ merged _) as [[[cm1 u1]|msg]|] eqn:Hloop; [|done|done]. intros [= <-].
    apply (resolveLoop_ind (λ acc, well_recorded acc.1)) in Hloop; [|clear Hloop|by apply well_recorded_alter].
    + apply well_recorded_alter; [done|]. intros e. split; [done|apply positive_increment].
    + intros cm0 u d0 n cm0' H0 _ Hrun. apply well_recorded_alter; [by eapply IH in Hrun|].
      intros e. split; [apply positive_increment|done].
  - destruct (resolveLoop _ _ (dependencies d) _) as [[[cm1 times]|msg]|] eqn:Hloop; [|done|done]. intros [= <-].
    apply (resolveLoop_ind (λ acc, well_recorded acc.1 ∧ positive acc.2)) in Hloop as [H1 H2]; [|clear Hloop..].
    + apply well_recorded_insert; [done|by eexists|]. intros e [= <-]. split; [done|].
      apply map_Forall_singleton. lia.
    + intros cm0 u d0 n cm0' [H0 Hu] _ Hrun. split; [by eapply IH in Hrun|by apply positive_increment].
    + split; [|by apply map_Forall_empty]. apply well_recorded_insert; [done|by eexists|done].
Qed.

(** What is recorded once all requests from main are resolved. *)
Lemma resolveMain_spec fuel requests cm :
  resolveMain Name dependencies mergeInto fuel requests = Some (Ret cm) →
  well_recorded cm ∧ (∀ x, cm !! x ≠ Some None) ∧
  (∀ d, d ∈ requests → ∃ e, cm !! Name d = Some (Some e)) ∧
  ∀ a b, unbalanced cm a b =
    if decide (a = mainRequester) then Z.of_nat (length (filter (λ d, Name d = b) requests)) else 0%Z.
Proof.
  unfold resolveMain. destruct (resolveLoop _ _ requests _) as [[[cm' u]|msg]|] eqn:Hloop; [|done|done].
  intros [= ->].
  assert (Hgen : ∀ requests cm0 u0 res, well_recorded cm0 →
    resolveLoop (λ cm request, resolve fuel cm request mainRequester) (λ _ acc, acc) requests (cm0, u0 : unit)
      = Some (Ret res) →
    well_recorded res.1 ∧ extends cm0 res.1 ∧ (∀ d, d ∈ requests → ∃ e, res.1 !! Name d = Some (Some e)) ∧
    ∀ a b, unbalanced res.1 a b = (unbalanced cm0 a b +
      if decide (a = mainRequester) then Z.of_nat (length (filter (λ d, Name d = b) requests)) else 0)%Z).
  { clear. induction requests as [|d requests IH]; intros cm0 u0 res Hcm; cbn [resolveLoop fst snd].
    - intros [= <-]. split; [done|]. split; [apply extends_refl|]. split; [by intros d ?%not_elem_of_nil|].
      intros a b. case_decide; simpl; lia.
    - destruct (resolve fuel cm0 d mainRequester) as [[[n cm1]|msg]|] eqn:Hs; [|done|done].
      cbn [mbind run_bind]. intros Hrun.
      pose proof (resolveRequest_well_recorded _ _ _ _ _ Hcm Hs) as Hcm1.
      destruct (resolveRequest_spec _ _ _ _ _ Hs) as (Hname & He1 & (e & Hne) & Hb1). simpl in *. subst n.
      destruct (IH _ _ _ Hcm1 Hrun) as (H1 & He2 & H3 & H4). split; [done|].
      split; [by eapply extends_trans|]. split.
      + intros d' [->|Hd']%elem_of_cons; [|by apply H3]. destruct He2 as [_ He2].
        by eapply He2.
      + intros a b. rewrite H4, Hb1, filter_cons. unfold delta. clear.
        repeat case_decide; case_bool_decide; simpl; try lia; naive_solver. }
  destruct (Hgen requests ∅ tt (cm, u)) as (H1 & [H2 _] & H3 & H4); [|done|].
  { intros x oe Hx. by rewrite lookup_empty in Hx. }
  simpl in *. split; [done|]. split; [|split; [done|]].
  - intros x Hx. apply H2 in Hx. by rewrite lookup_empty in Hx.
  - intros a b. rewrite H4. unfold unbalanced, in_count, out_count. rewrite !lookup_empty. lia.
Qed.

(** The edges of what was resolved lead to what was resolved. *)
Lemma edges_closed cm a b :
  well_recorded cm → (∀ a b, a ≠ mainRequester → unbalanced cm a b = 0%Z) → (∀ d, Name d ≠ mainRequester) →
  (∃ m, edges_of cm !! a = Some m ∧ is_Some (m !! b)) → b ∈ dom (edges_of cm).
Proof.
  intros Hcm Hbal Hmain (m & Hm & n & Hn). unfold edges_of in *. rewrite lookup_omap in Hm.
  destruct (cm !! a) as [[e|]|] eqn:Ha; [|done|done]. injection Hm as <-.
  destruct (Hcm _ _ Ha) as [[d Hd] He]. destruct (He e eq_refl) as [Hpos _].
  assert (a ≠ mainRequester) by (rewrite <- Hd; apply Hmain).
  specialize (Hbal a b ltac:(done)). unfold unbalanced, in_count, out_count, count_of in Hbal. rewrite Ha, Hn in Hbal.
  specialize (Hpos b n Hn). simpl in *. apply elem_of_dom. rewrite lookup_omap.
  destruct (cm !! b) as [[eb|]|]; simpl in *; eauto; lia.
Qed.

(** Enough fuel for declarations whose requests have a lower rank. *)
Lemma resolveRequest_returns (rank : Decl → nat) :
  (∀ d d', d' ∈ dependencies d → rank d' < rank d) →
  (∀ d prev other l d', mergeInto d prev = Ret (other, l) → d' ∈ l → rank d' < rank d) →
  ∀ fuel cm d r, rank d < fuel → resolve fuel cm d r ≠ None.
Proof.
  intros Hdeps Hmerge. induction fuel as [|fuel IH]; intros cm d r Hfuel; [lia|]. cbn [resolveRequest].
  destruct (cm !! Name d) as [[prev|]|]; [|done|].
  - destruct (mergeInto d (comp prev)) as [[other merged]|msg] eqn:Hm; [|done]. cbn [mbind run_bind].
    destruct (resolveLoop _ _ merged _) as [[[cm1 u1]|msg]|] eqn:Hloop; [done|done|]. exfalso. revert Hloop.
    apply resolveLoop_returns. intros cm0 d' Hd'. apply IH. specialize (Hmerge _ _ _ _ _ Hm Hd'). lia.
  - destruct (resolveLoop _ _ (dependencies d) _) as [[[cm1 u1]|msg]|] eqn:Hloop; [done|done|]. exfalso. revert Hloop.
    apply resolveLoop_returns. intros cm0 d' Hd'. apply IH. specialize (Hdeps _ _ Hd'). lia.
Qed.

End resolve_lemmas.

(** ** Lemmas: depth-first search *)
Section sort_lemmas.
Import Component.
Context `{!GoRuntime}.
Variable edges : gmap string (gmap string nat).
Implicit Types (s : dfsState) (a b c x : string) (path : list string).

Definition edge a b : Prop := ∃ m, edges !! a = Some m ∧ is_Some (m !! b).
Hypothesis closed : ∀ a b, edge a b → b ∈ dom edges.

(** In a list that is sorted, what a component depends on comes before it. *)
Definition deps_before (l : list string) : Prop :=
  ∀ l1 a l2, l = l1 ++ a :: l2 → ∀ b, edge a b → b ∈ l1.

(** The state of a search whose calls are pending along [path]. *)
Record search_inv path s : Prop := {
  inv_dom : pending s ⊆ dom edges;
  inv_nodup : NoDup (sorted s);
  inv_sorted : ∀ x, x ∈ sorted s ↔ x ∈ dom edges ∧ x ∉ pending s;
  inv_path : ∀ x, x ∈ path ↔ x ∈ visited s ∧ x ∈ pending s;
  inv_before : deps_before (sorted s)
}.

Definition unvisited s : nat := size (pending s ∖ visited s).

Definition cyclic : Prop := ∃ x, tc edge x x.

Definition explored s s' : Prop := pending s' ⊆ pending s ∧ visited s ⊆ visited s'.

Lemma explored_unvisited s s' : explored s s' → unvisited s' ≤ unvisited s.
Proof. intros [Hp Hv]. unfold unvisited. apply subseteq_size. set_solver. Qed.

Definition dfs_post path s c (r : dfsState * option (list string)) : Prop :=
  match r.2 with
  | None => search_inv path r.1 ∧ c ∉ pending r.1 ∧ explored s r.1
  | Some _ => cyclic
  end.

(** The loop over the dependencies of [c]. *)
Definition dfs_loop fuel c := fix loop (deps : list string) s : run (dfsState * option (list string)) :=
  match deps with
  | [] => mret (s, None)
  | dep :: deps =>
      '(s, err) ← dfs edges fuel dep s;
      match err with
      | Some err => mret (s, Some (err ++ [c]))
      | None => loop deps s
      end
  end.

Lemma dfs_loop_spec fuel c path :
  (∀ c' s, search_inv (c :: path) s → (∀ x, x ∈ c :: path → tc edge x c') → unvisited s < fuel →
    ∃ r, dfs edges fuel c' s = Some (Ret r) ∧ dfs_post (c :: path) s c' r) →
  (∀ x, x ∈ path → tc edge x c) →
  ∀ ds s, (∀ b, b ∈ ds → edge c b) → search_inv (c :: path) s → unvisited s < fuel →
  ∃ r, dfs_loop fuel c ds s = Some (Ret r) ∧
    match r.2 with
    | None => search_inv (c :: path) r.1 ∧ explored s r.1 ∧ ∀ b, b ∈ ds → b ∉ pending r.1
    | Some _ => cyclic
    end.
Proof.
  intros Hdfs Hpath. induction ds as [|d ds IH]; intros s Hds Hinv Hfuel.
  { eexists. split; [done|]. simpl. split; [done|]. split; [by split|]. by intros b ?%not_elem_of_nil. }
  assert (Hcd : edge c d) by (apply Hds; left).
  destruct (Hdfs d s Hinv) as ([s1 err] & Hrun & Hpost); [|done|].
  { intros x [->|Hx]%elem_of_cons; [by apply tc_once|]. eapply tc_r; [by apply Hpath|done]. }
  cbn [dfs_loop]. rewrite Hrun. cbn [mbind run_bind]. destruct err as [err|].
  { eexists. split; [done|]. exact Hpost. }
  destruct Hpost as (Hinv1 & Hd & He1). simpl in Hinv1, Hd, He1.
  destruct (IH s1) as (r & Hr & Hpost); [intros b Hb; apply Hds; by right|done| |].
  { pose proof (explored_unvisited _ _ He1). lia. }
  exists r. split; [exact Hr|]. destruct r as [s2 [err|]]; [done|]. destruct Hpost as (Hinv2 & [Hp2 Hv2] & Hall).
  simpl in *. destruct He1 as [Hp1 Hv1]. split; [done|]. split; [split; set_solver|].
  intros b [->|Hb]%elem_of_cons; [set_solver|by apply Hall].
Qed.

Lemma deps_before_snoc l c : deps_before l → (∀ b, edge c b → b ∈ l) → deps_before (l ++ [c]).
Proof.
  intros Hl Hc l1 a l2 Heq b Hab. destruct l2 as [|y l2 _] using rev_ind.
  - apply app_inj_tail in Heq as [-> ->]. by apply Hc.
  - rewrite app_comm_cons, app_assoc in Heq. apply app_inj_tail in Heq as [-> _]. by eapply Hl.
Qed.

Lemma dfs_spec fuel : ∀ path c s,
  search_inv path s → (∀ x, x ∈ path → tc edge x c) → unvisited s < fuel →
  ∃ r, dfs edges fuel c s = Some (Ret r) ∧ dfs_post path s c r.
Proof.
  induction fuel as [|fuel IH]; intros path c s Hinv Hpath Hfuel; [lia|].
  cbn [dfs]. case_bool_decide as Hp; cbn [negb].
  2:{ eexists. split; [done|]. split; [done|]. split; [done|by split]. }
  case_bool_decide as Hv.
  { eexists. split; [done|]. exists c. apply Hpath. apply (inv_path _ _ Hinv). done. }
  assert (Hc : c ∈ dom edges) by (by apply (inv_dom _ _ Hinv)).
  apply elem_of_dom in Hc as [ds Hds]. rewrite Hds.
  set (s0 := {| pending := pending s; visited := {[c]} ∪ visited s; sorted := sorted s |}).
  assert (Hinv0 : search_inv (c :: path) s0).
  { destruct Hinv as [H1 H2 H3 H4 H5]. split; try done. intros x. simpl. rewrite elem_of_cons, H4. set_solver. }
  assert (Hfuel0 : unvisited s0 < fuel).
  { assert (unvisited s0 < unvisited s); [|lia]. unfold unvisited. apply subset_size. subst s0. simpl. set_solver. }
  destruct (dfs_loop_spec fuel c path) with ((map_order ds).*1) s0 as (r & Hr & Hpost); try done.
  { intros c' s' Hinv' Hpath' Hfuel'. by apply IH. }
  { intros b Hb. apply list_elem_of_fmap in Hb as ([b' n] & -> & Hb%elem_of_map_order). exists ds. eauto. }
  fold (dfs_loop fuel c). rewrite Hr. cbn [mbind run_bind]. destruct r as [s1 [err|]]; [by eexists|].
  eexists. split; [done|]. destruct Hpost as (Hinv1 & [Hp1 Hv1] & Hall). simpl in Hinv1, Hp1, Hv1, Hall.
  assert (Hcp : c ∈ visited s1 ∧ c ∈ pending s1) by (apply (inv_path _ _ Hinv1); left).
  split; [|split; [simpl; set_solver|split; simpl; set_solver]]. simpl.
  destruct Hinv1 as [H1 H2 H3 H4 H5]. split; simpl.
  - set_solver.
  - apply NoDup_app. split; [done|]. split; [|apply NoDup_singleton]. intros x Hx ->%list_elem_of_singleton.
    apply H3 in Hx as [_ Hx]. tauto.
  - intros x. rewrite elem_of_app, H3, list_elem_of_singleton, elem_of_difference, elem_of_singleton.
    destruct (decide (x = c)) as [->|Hne]; [|tauto].
    assert (c ∈ dom edges) by (apply elem_of_dom; eauto). naive_solver.
  - intros x. specialize (H4 x). rewrite elem_of_cons in H4. rewrite elem_of_difference, elem_of_singleton.
    assert (x ∈ path → x ≠ c) by (intros Hx ->; apply (inv_path _ _ Hinv) in Hx; tauto). tauto.
  - apply deps_before_snoc; [done|]. intros b Hb. apply H3. split; [by eapply closed|].
    apply Hall. destruct Hb as (m & Hm & [n Hn]). rewrite Hds in Hm. injection Hm as <-.
    apply list_elem_of_fmap. exists (b, n). by rewrite elem_of_map_order.
Qed.

(** Sorting succeeds on acyclic components, with the number of components as fuel. *)
Lemma toposort_spec rounds fuel :
  size (dom edges) ≤ rounds → size (dom edges) < fuel →
  (∃ l, toposort edges rounds fuel = Some (Ret l) ∧ NoDup l ∧ (∀ x, x ∈ l ↔ x ∈ dom edges) ∧ deps_before l) ∨
  (toposort edges rounds fuel = Some (Panic "recursive dependency chain") ∧ cyclic).
Proof.
  intros Hr Hf. unfold toposort.
  assert (Hloop : ∀ rounds s, search_inv [] s → size (pending s) ≤ rounds →
    (∃ l, toposortLoop edges rounds fuel s = Some (Ret l) ∧ NoDup l ∧ (∀ x, x ∈ l ↔ x ∈ dom edges) ∧ deps_before l) ∨
    (toposortLoop edges rounds fuel s = Some (Panic "recursive dependency chain") ∧ cyclic)).
  { clear Hr rounds. induction rounds as [|rounds IH]; intros s Hinv Hsize; unfold toposortLoop; fold (toposortLoop edges);
      destruct (set_order (pending s)) as [|seed rest] eqn:Horder.
    1,3: left; exists (sorted s); split; [done|]; split; [apply Hinv|]; split; [|apply Hinv];
      intros x; rewrite (inv_sorted _ _ Hinv); rewrite <- (elem_of_set_order (pending s) x), Horder; set_solver.
    - exfalso. assert (seed ∈ pending s) by (rewrite <- elem_of_set_order, Horder; by left).
      assert (pending s ≡ ∅) by (apply size_empty_iff; lia). set_solver.
    - assert (Hseed : seed ∈ pending s) by (rewrite <- elem_of_set_order, Horder; by left).
      destruct (dfs_spec fuel [] seed s Hinv) as ([s1 err] & Hrun & Hpost).
      { by intros x ?%not_elem_of_nil. }
      { assert (unvisited s ≤ size (dom edges)); [|lia]. unfold unvisited. apply subseteq_size.
        pose proof (inv_dom _ _ Hinv). set_solver. }
      rewrite Hrun. cbn [mbind run_bind]. destruct err as [err|]; [by right|].
      destruct Hpost as (Hinv1 & Hs & [Hp _]). simpl in *. apply IH; [done|].
      assert (size (pending s1) < size (pending s)); [|lia]. apply subset_size. set_solver. }
  apply Hloop; [|done]. split; simpl; try done.
  - apply NoDup_nil_2.
  - intros x. set_solver.
  - intros x. set_solver.
  - intros l1 a l2 Heq. by destruct l1.
Qed.

End sort_lemmas.

(** ** ResolveList *)
Section resolve_list_spec.
Import Component.
Context `{!GoRuntime} {Decl : Type}.
Variables (Name : Decl → string) (dependencies : Decl → list Decl) (mergeInto : Decl → Decl → outcome (Decl * list Decl)).
Hypothesis names : ∀ d, Name d ≠ mainRequester.
Notation ResolveList := (ResolveList Name dependencies mergeInto).

Lemma size_edges_of (cm : gmap string (option (componentMapEntry (Decl := Decl)))) :
  size (dom (edges_of cm)) ≤ size cm.
Proof.
  rewrite <- (size_dom (D := gset string)). apply subseteq_size. intros x (m & Hm)%elem_of_dom.
  unfold edges_of in Hm. rewrite lookup_omap in Hm. apply elem_of_dom. by destruct (cm !! x); eauto.
Qed.

Lemma elem_of_edges_of (cm : gmap string (option (componentMapEntry (Decl := Decl)))) x :
  x ∈ dom (edges_of cm) ↔ ∃ e, cm !! x = Some (Some e).
Proof.
  rewrite elem_of_dom. unfold edges_of. rewrite lookup_omap.
  destruct (cm !! x) as [[e|]|]; simpl; split; try (intros [? [=]]); eauto.
Qed.

(** The resolved components are sorted, or their requests are cyclic. *)
Lemma ResolveList_cases fuel requests :
  match resolveMain Name dependencies mergeInto fuel requests with
  | None => ResolveList fuel requests = None
  | Some (Panic msg) => ResolveList fuel requests = Some (Panic msg)
  | Some (Ret cm) =>
      (∃ l, ResolveList fuel requests = Some (Ret l) ∧ NoDup l ∧ (∀ x, x ∈ l ↔ x ∈ dom (edges_of cm)) ∧
        deps_before (edges_of cm) l) ∨
      (ResolveList fuel requests = Some (Panic "recursive dependency chain") ∧ cyclic (edges_of cm))
  end.
Proof.
  unfold Component.ResolveList.
  destruct (resolveMain _ _ _ fuel requests) as [[cm|msg]|] eqn:Hmain; [|done|done]. cbn [mbind run_bind].
  destruct (resolveMain_spec _ _ _ _ _ _ Hmain) as (Hwell & _ & _ & Hbal).
  apply toposort_spec; [|apply size_edges_of|pose proof (size_edges_of cm); lia].
  intros a b. apply (edges_closed Name); [done| |done]. intros a' b' Ha'. rewrite Hbal. by rewrite decide_False.
Qed.

End resolve_list_spec.

(** ** Lemmas: trimming *)
Section trim_lemmas.
Import Component.
Context `{!GoRuntime}.
Implicit Types (st : store) (a b c x : string).

(** The requests of [a] for [b], as [a] and as [b] have recorded them. *)
Definition requests_out st a b : option nat := st !! a ≫= λ n, out_edges n !! b.
Definition requests_in st a b : option nat := st !! b ≫= λ n, in_edges n !! a.

Record in_sync st : Prop := {
  sync_eq : ∀ a b, a ≠ mainRequester → requests_out st a b = requests_in st a b;
  sync_pos : ∀ a b k, requests_in st a b = Some k → 0 < k;
  sync_main : st !! mainRequester = None
}.

(** The components that [root] and [dep] lead to. *)
Inductive reached (root : string → Prop) (dep : string → string → Prop) : string → Prop :=
  | reached_root c : root c → reached root dep c
  | reached_dep a b : reached root dep a → dep a b → reached root dep b.

Definition drop_one (k : option nat) : option nat := n ← k; if n - 1 =? 0 then None else Some (n - 1).

Lemma reached_mono (P Q : string → Prop) (R S : string → string → Prop) x :
  (∀ c, P c → Q c) → (∀ a b, R a b → S a b) → reached P R x → reached Q S x.
Proof. intros HP HR. induction 1; [apply reached_root|eapply reached_dep]; eauto. Qed.

(** An update of the edges of one component, and of one edge among them. *)
Lemma requests_out_set_in f c st a b : requests_out (alter (set_in f) c st) a b = requests_out st a b.
Proof. unfold requests_out. rewrite lookup_alter. case_decide; [subst|done]. by destruct (st !! a). Qed.
Lemma requests_in_set_out f c st a b : requests_in (alter (set_out f) c st) a b = requests_in st a b.
Proof. unfold requests_in. rewrite lookup_alter. case_decide; [subst|done]. by destruct (st !! b). Qed.

Lemma requests_out_set_out f c d v st a b :
  (∀ m x, f m !! x = if decide (x = d) then v else m !! x) → is_Some (st !! c) →
  requests_out (alter (set_out f) c st) a b = if decide (a = c ∧ b = d) then v else requests_out st a b.
Proof.
  intros Hf [n Hn]. unfold requests_out. rewrite lookup_alter. destruct (decide (c = a)) as [->|Hc].
  - rewrite Hn. simpl. rewrite Hf. repeat case_decide; tauto.
  - rewrite decide_False; [done|naive_solver].
Qed.
Lemma requests_in_set_in f c d v st a b :
  (∀ m x, f m !! x = if decide (x = c) then v else m !! x) → is_Some (st !! d) →
  requests_in (alter (set_in f) d st) a b = if decide (a = c ∧ b = d) then v else requests_in st a b.
Proof.
  intros Hf [n Hn]. unfold requests_in. rewrite lookup_alter. destruct (decide (d = b)) as [->|Hd].
  - rewrite Hn. simpl. rewrite Hf. repeat case_decide; tauto.
  - rewrite decide_False; [done|naive_solver].
Qed.

Lemma lookup_delete_at (d : string) (m : gmap string nat) x : delete d m !! x = if decide (x = d) then None else m !! x.
Proof. rewrite lookup_delete. by repeat case_decide; subst. Qed.
Lemma lookup_insert_at (d : string) k (m : gmap string nat) x :
  <[d := k]> m !! x = if decide (x = d) then Some k else m !! x.
Proof. rewrite lookup_insert. by repeat case_decide; subst. Qed.

(** The requests in [P] are dropped once, on both sides. *)
Definition dropped (P : string → string → Prop) `{!∀ a b, Decision (P a b)} st st' : Prop :=
  dom st' = dom st ∧ ∀ a b,
    requests_out st' a b = (if decide (P a b) then drop_one (requests_out st a b) else requests_out st a b) ∧
    requests_in st' a b = (if decide (P a b) then drop_one (requests_in st a b) else requests_in st a b).

Lemma in_sync_drop (P : string → string → Prop) `{!∀ a b, Decision (P a b)} st st' :
  in_sync st → dropped P st st' → in_sync st'.
Proof.
  intros [H1 H2 H3] [Hdom Hdrop]. split.
  - intros a b Ha. destruct (Hdrop a b) as [-> ->]. by rewrite H1.
  - intros a b k. destruct (Hdrop a b) as [_ ->]. case_decide; [|apply H2]. destruct (requests_in st a b); [|done]. simpl.
    destruct (n - 1 =? 0) eqn:E; [done|]. intros [= <-]. apply Nat.eqb_neq in E. lia.
  - apply not_elem_of_dom. rewrite Hdom. by apply not_elem_of_dom.
Qed.

Lemma dropped_trans (P Q R : string → string → Prop) `{!∀ a b, Decision (P a b), !∀ a b, Decision (Q a b),
    !∀ a b, Decision (R a b)} st1 st2 st3 :
  (∀ a b, R a b ↔ P a b ∨ Q a b) → (∀ a b, P a b → Q a b → False) →
  dropped P st1 st2 → dropped Q st2 st3 → dropped R st1 st3.
Proof.
  intros HR Hdisj [Hdom1 Hdrop1] [Hdom2 Hdrop2]. split; [congruence|]. intros a b.
  destruct (Hdrop1 a b) as [Ho1 Hi1], (Hdrop2 a b) as [-> ->]. rewrite Ho1, Hi1. specialize (HR a b). specialize (Hdisj a b).
  repeat case_decide; tauto.
Qed.

Lemma unrequest_spec c d st k :
  in_sync st → c ≠ mainRequester → requests_out st c d = Some k →
  ∃ st', unrequest c st d = Ret st' ∧ dropped (λ a b, a = c ∧ b = d) st st'.
Proof.
  intros [H1 H2 H3] Hc Hk. assert (Hi : requests_in st c d = Some k) by (by rewrite <- H1).
  pose proof (H2 _ _ _ Hi) as Hpos. unfold unrequest. fold (requests_out st c d) (requests_in st c d).
  rewrite Hk, Hi. cbn [default from_option id]. rewrite Nat.eqb_refl. cbn [negb].
  destruct (Nat.eqb_spec k 0) as [?|_]; [lia|].
  assert (Hdom : ∀ f g, dom (alter (set_in f) d (alter (set_out g) c st)) = dom st).
  { intros f g. by rewrite !dom_alter_L. }
  assert (Hc' : is_Some (st !! c)) by (unfold requests_out in Hk; destruct (st !! c); [eauto|done]).
  assert (Hd' : is_Some (st !! d)) by (unfold requests_in in Hi; destruct (st !! d); [eauto|done]).
  destruct (k - 1 =? 0) eqn:E; eexists; (split; [done|]); (split; [apply Hdom|]); intros a b; split.
  - rewrite requests_out_set_in, (requests_out_set_out _ c d None) by eauto using lookup_delete_at.
    case_decide as Hab; [|done]. destruct Hab as [-> ->]. rewrite Hk. simpl. by rewrite E.
  - rewrite (requests_in_set_in _ c d None), requests_in_set_out
      by (try apply lookup_alter_is_Some; eauto using lookup_delete_at).
    case_decide as Hab; [|done]. destruct Hab as [-> ->]. rewrite Hi. simpl. by rewrite E.
  - rewrite requests_out_set_in, (requests_out_set_out _ c d (Some (k - 1))) by eauto using lookup_insert_at.
    case_decide as Hab; [|done]. destruct Hab as [-> ->]. rewrite Hk. simpl. by rewrite E.
  - rewrite (requests_in_set_in _ c d (Some (k - 1))), requests_in_set_out
      by (try apply lookup_alter_is_Some; eauto using lookup_insert_at).
    case_decide as Hab; [|done]. destruct Hab as [-> ->]. rewrite Hi. simpl. by rewrite E.
Qed.

Lemma unrequest_loop c ds : ∀ st,
  in_sync st → c ≠ mainRequester → NoDup ds → (∀ d, d ∈ ds → is_Some (requests_out st c d)) →
  ∃ st', outcome_foldl (unrequest c) st ds = Ret st' ∧ dropped (λ a b, a = c ∧ b ∈ ds) st st'.
Proof.
  induction ds as [|d ds IH]; intros st Hst Hc Hnd Hds; cbn [outcome_foldl].
  { exists st. split; [done|]. split; [done|]. intros a b. by rewrite !decide_False by (by intros [_ ?%not_elem_of_nil]). }
  apply NoDup_cons in Hnd as [Hd Hnd]. destruct (Hds d) as [k Hk]; [left|].
  destruct (unrequest_spec c d st k Hst Hc Hk) as (st1 & -> & Hdrop1). cbn [mbind outcome_bind].
  destruct (IH st1) as (st2 & Hrun & Hdrop2); [by eapply in_sync_drop|done..| |].
  { intros d' Hd'. destruct Hdrop1 as [_ Hdrop1]. destruct (Hdrop1 c d') as [-> _].
    rewrite decide_False by (intros [_ ->]; done). apply Hds. by right. }
  exists st2. split; [done|]. eapply dropped_trans, Hdrop2; [| |exact Hdrop1].
  - intros a b. rewrite elem_of_cons. tauto.
  - intros a b [-> ->] [_ ?]. done.
Qed.

Variables (isRequestedFromMain : string → bool) (unrequestDeps : string → list string).

(** Main requests the component, and the component confirms it. *)
Definition kept_root st c : Prop := isRequestedFromMain c = true ∧ is_Some (requests_in st mainRequester c).
(** A request that is not withdrawn, or one of several. *)
Definition kept_dep st a b : Prop := ∃ k, requests_out st a b = Some k ∧ (b ∈ unrequestDeps a → 1 < k).

(** What [removeDirectDeps] needs of the requests that components withdraw. *)
Definition can_withdraw st (components : list string) : Prop :=
  ∀ c, c ∈ components → c ≠ mainRequester ∧ NoDup (unrequestDeps c) ∧
    ∀ d, d ∈ unrequestDeps c → is_Some (requests_out st c d).

Lemma delete_main_spec c st :
  in_sync st → let st' := alter (set_in (delete mainRequester)) c st in
  in_sync st' ∧ dom st' = dom st ∧ (∀ a b, requests_out st' a b = requests_out st a b) ∧
  ∀ a b, requests_in st' a b = if decide (a = mainRequester ∧ b = c) then None else requests_in st a b.
Proof.
  intros [H1 H2 H3] st'.
  assert (Hout : ∀ a b, requests_out st' a b = requests_out st a b) by (intros; apply requests_out_set_in).
  assert (Hin : ∀ a b, requests_in st' a b = if decide (a = mainRequester ∧ b = c) then None else requests_in st a b).
  { intros a b. destruct (st !! c) as [n|] eqn:Hc.
    - apply requests_in_set_in; [apply lookup_delete_at|by rewrite Hc].
    - subst st'. unfold requests_in. rewrite lookup_alter. case_decide; subst; [rewrite Hc|]; simpl; case_decide; naive_solver. }
  assert (Hdom : dom st' = dom st) by apply dom_alter_L. split; [|done]. split.
  - intros a b Ha. rewrite Hout, Hin, decide_False by tauto. by apply H1.
  - intros a b k. rewrite Hin. case_decide; [done|apply H2].
  - apply not_elem_of_dom. rewrite Hdom. by apply not_elem_of_dom.
Qed.

(** The requests from main that components do not confirm are gone, and those withdrawn are dropped. *)
Record removed (components : list string) st st' : Prop := {
  removed_sync : in_sync st';
  removed_dom : dom st' = dom st;
  removed_out a b : requests_out st' a b =
    if decide (a ∈ components ∧ b ∈ unrequestDeps a) then drop_one (requests_out st a b) else requests_out st a b;
  removed_in b : requests_in st' mainRequester b =
    if decide (b ∈ components ∧ isRequestedFromMain b = false) then None else requests_in st mainRequester b
}.

Lemma removed_one c st st1 st2 :
  in_sync st → c ≠ mainRequester →
  st1 = match st !! c with
    | Some n =>
        if bool_decide (is_Some (in_edges n !! mainRequester)) && negb (isRequestedFromMain c)
        then alter (set_in (delete mainRequester)) c st else st
    | None => st
    end →
  in_sync st1 ∧ (dropped (λ a b, a = c ∧ b ∈ unrequestDeps c) st1 st2 → removed [c] st st2).
Proof.
  intros Hst Hc ->.
  set (st1 := match st !! c with Some n => _ | None => st end).
  assert (H1 : in_sync st1 ∧ dom st1 = dom st ∧ (∀ a b, requests_out st1 a b = requests_out st a b) ∧
    ∀ b, requests_in st1 mainRequester b =
      if decide (b = c ∧ isRequestedFromMain b = false) then None else requests_in st mainRequester b).
  { subst st1. destruct (st !! c) as [n|] eqn:Hn.
    - destruct (isRequestedFromMain c) eqn:Hr; [|case_bool_decide as Hm]; cbn [negb andb].
      + rewrite andb_false_r. split; [done|]. split; [done|]. split; [done|].
        intros b. rewrite decide_False; [done|]. naive_solver congruence.
      + destruct (delete_main_spec c st Hst) as (? & ? & ? & Hin). split; [done|]. split; [done|]. split; [done|].
        intros b. rewrite Hin. repeat case_decide; naive_solver.
      + split; [done|]. split; [done|]. split; [done|]. intros b. case_decide as Hb; [|done]. destruct Hb as [-> _].
        unfold requests_in. rewrite Hn. simpl. by apply eq_None_not_Some.
    - split; [done|]. split; [done|]. split; [done|]. intros b. case_decide as Hb; [|done]. destruct Hb as [-> _].
      unfold requests_in. by rewrite Hn. }
  destruct H1 as (Hs1 & Hdom1 & Hout1 & Hin1). split; [done|]. intros Hdrop.
  pose proof (in_sync_drop _ _ _ Hs1 Hdrop) as Hs2. destruct Hdrop as [Hdom2 Hdrop]. split; [done|congruence| |].
  - intros a b. destruct (Hdrop a b) as [-> _]. rewrite Hout1.
    repeat case_decide; set_unfold; naive_solver.
  - intros b. destruct (Hdrop mainRequester b) as [_ ->]. rewrite decide_False by naive_solver.
    rewrite Hin1. repeat case_decide; set_unfold; naive_solver.
Qed.

Lemma removeDirectDeps_spec components : ∀ st,
  in_sync st → NoDup components → can_withdraw st components →
  ∃ st', removeDirectDeps isRequestedFromMain unrequestDeps components st = Ret st' ∧ removed components st st'.
Proof.
  induction components as [|c components IH]; intros st Hst Hnd Hcan; unfold removeDirectDeps; cbn [outcome_foldl].
  { exists st. split; [done|]. split; try done; intros; rewrite decide_False; try done; by intros [?%not_elem_of_nil _]. }
  apply NoDup_cons in Hnd as [Hc Hnd]. destruct (Hcan c) as (Hcm & Hndc & Hds); [left|].
  destruct (removed_one c st _ st Hst Hcm eq_refl) as [Hs1 _].
  set (st1 := match st !! c with Some n => _ | None => st end) in *.
  assert (Hout1 : ∀ a b, requests_out st1 a b = requests_out st a b).
  { intros a b. subst st1. destruct (st !! c); [|done]. case_match; [|done]. apply requests_out_set_in. }
  destruct (unrequest_loop c (unrequestDeps c) st1) as (st2 & Hrun2 & Hdrop2); [done..| |].
  { intros d Hd. rewrite Hout1. by apply Hds. }
  destruct (removed_one c st _ st2 Hst Hcm eq_refl) as [_ Hrem2]. specialize (Hrem2 Hdrop2) as [Hs2 Hd2 Ho2 Hi2].
  rewrite Hrun2. cbn [mbind outcome_bind]. destruct (IH st2) as (st3 & Hrun3 & [Hs3 Hd3 Ho3 Hi3]); [done..| |].
  { intros c' Hc'. destruct (Hcan c') as (? & ? & Hds'); [by right|]. split; [done|]. split; [done|].
    intros d Hd. rewrite Ho2, decide_False; [by apply Hds'|]. intros [->%list_elem_of_singleton _]. done. }
  exists st3. split; [exact Hrun3|]. split; [done|congruence| |].
  - intros a b. rewrite Ho3, Ho2. repeat case_decide; set_unfold; naive_solver.
  - intros b. rewrite Hi3, Hi2. repeat case_decide; set_unfold; naive_solver.
Qed.

(** What main still requests, and what components still request, are the kept requests. *)
Lemma removed_kept components st st' c :
  removed components st st' → in_sync st → (∀ x, x ∈ components ↔ x ∈ dom st) →
  reached (λ c, is_Some (requests_in st' mainRequester c)) (λ a b, is_Some (requests_out st' a b)) c ↔
  reached (kept_root st) (kept_dep st) c.
Proof.
  intros [Hs Hd Ho Hi] Hst Hcov.
  assert (Hroot : ∀ c, is_Some (requests_in st' mainRequester c) ↔ kept_root st c).
  { intros x. rewrite Hi. unfold kept_root. destruct (requests_in st mainRequester x) as [k|] eqn:Hk.
    - assert (x ∈ components) by (apply Hcov, elem_of_dom; unfold requests_in in Hk; destruct (st !! x); [eauto|done]).
      case_decide as Hx; destruct (isRequestedFromMain x); split; try naive_solver.
    - split; [case_decide; by intros [? ?]|by intros [_ [? ?]]]. }
  assert (Hdep : ∀ a b, is_Some (requests_out st' a b) ↔ kept_dep st a b).
  { intros a b. rewrite Ho. unfold kept_dep. destruct (requests_out st a b) as [k|] eqn:Hk.
    - assert (a ∈ components) by (apply Hcov, elem_of_dom; unfold requests_out in Hk; destruct (st !! a); [eauto|done]).
      assert (a ≠ mainRequester).
      { intros ->. unfold requests_out in Hk. by rewrite (sync_main _ Hst) in Hk. }
      pose proof (sync_pos _ Hst a b k) as Hpos. rewrite <- (sync_eq _ Hst) in Hpos by done. specialize (Hpos Hk).
      case_decide as Hx; simpl.
      + destruct (Nat.eqb_spec (k - 1) 0) as [E|E]; split.
        * by intros [? ?].
        * intros (k' & [= <-] & Hk'). destruct Hx as [_ Hx]. specialize (Hk' Hx). lia.
        * intros _. exists k. split; [done|]. lia.
        * eauto.
      + split; [|by eauto]. intros _. exists k. split; [done|]. tauto.
    - split; [case_decide; by intros [? ?]|by intros (? & ? & _)]. }
  split; apply reached_mono; intros *; first [apply Hroot | apply Hdep].
Qed.

End trim_lemmas.

(** ** Lemmas: shaking the tree *)
Section shake_lemmas.
Import Component.
Context `{!GoRuntime}.
Implicit Types (st : store) (a b c x : string).

Notation needed st := (reached (λ c, is_Some (requests_in st mainRequester c)) (λ a b, is_Some (requests_out st a b))).

Lemma total_requests_zero n :
  positive (in_edges n) → total_requests n = 0 ↔ in_edges n = ∅.
Proof.
  unfold total_requests. generalize (in_edges n). intros m. induction m as [|k v m Hk IH] using map_ind.
  - by rewrite map_fold_empty.
  - intros Hpos. rewrite map_fold_insert_L by (done || intros; lia). apply map_Forall_insert in Hpos as [Hv _]; [|done].
    split; [lia|]. intros He. by apply insert_non_empty in He.
Qed.

Lemma remove_requester c ds : ∀ st, let st' := foldl (λ st d, alter (set_in (delete c)) d st) st ds in
  dom st' = dom st ∧ (∀ a b, requests_out st' a b = requests_out st a b) ∧
  ∀ a b, requests_in st' a b = if decide (a = c ∧ b ∈ ds) then None else requests_in st a b.
Proof.
  induction ds as [|d ds IH]; intros st; simpl.
  - split; [done|]. split; [done|]. intros a b. by rewrite decide_False by (by intros [_ ?%not_elem_of_nil]).
  - destruct (IH (alter (set_in (delete c)) d st)) as (Hdom & Hout & Hin). split; [by rewrite Hdom, dom_alter_L|].
    split; [intros a b; by rewrite Hout, requests_out_set_in|]. intros a b. rewrite Hin.
    assert (Hd : requests_in (alter (set_in (delete c)) d st) a b =
      if decide (a = c ∧ b = d) then None else requests_in st a b).
    { destruct (st !! d) as [n|] eqn:Hn.
      { apply (requests_in_set_in _ c d None); [intros; apply lookup_delete_at|by rewrite Hn]. }
      unfold requests_in. rewrite lookup_alter. case_decide as Hdb; subst; [rewrite Hn; simpl|]; case_decide as Hab; try done.
      destruct Hab; congruence. }
    rewrite Hd. repeat case_decide; set_unfold; naive_solver.
Qed.

(** Disabling a component that nobody requests. *)
Lemma disable_spec c n st :
  in_sync st → st !! c = Some n → total_requests n = 0 →
  let st' := delete c (foldl (λ st d, alter (set_in (delete c)) d st) st (map_order (out_edges n)).*1) in
  in_sync st' ∧ dom st' = dom st ∖ {[c]} ∧ (∀ a, requests_in st a c = None) ∧
  (∀ a b, requests_out st' a b = if decide (a = c) then None else requests_out st a b) ∧
  (∀ a b, requests_in st' a b = if decide (a = c) then None else requests_in st a b).
Proof.
  intros Hst Hn Htotal st'. pose proof Hst as [H1 H2 H3].
  assert (Hc : c ≠ mainRequester) by (intros ->; by rewrite H3 in Hn).
  assert (Hnone : ∀ a, requests_in st a c = None).
  { intros a. unfold requests_in. rewrite Hn. simpl. apply total_requests_zero in Htotal as ->; [done|].
    intros k v Hk. apply (H2 k c). unfold requests_in. by rewrite Hn. }
  destruct (remove_requester c (map_order (out_edges n)).*1 st) as (Hdom & Hout & Hin).
  set (st0 := foldl _ st _) in *.
  assert (Hout' : ∀ a b, requests_out st' a b = if decide (a = c) then None else requests_out st a b).
  { intros a b. unfold requests_out at 1. subst st'. rewrite lookup_delete. repeat case_decide; subst; try done. apply Hout. }
  assert (Hin' : ∀ a b, requests_in st' a b = if decide (a = c) then None else requests_in st a b).
  { intros a b. unfold requests_in at 1. subst st'. rewrite lookup_delete. destruct (decide (c = b)) as [<-|Hb].
    { simpl. rewrite Hnone. by case_decide. }
    fold (requests_in st0 a b). rewrite Hin. destruct (decide (a = c)) as [->|Ha]; [|by rewrite decide_False by tauto].
    case_decide as Hd; [done|]. rewrite <- H1 by done. unfold requests_out. rewrite Hn. simpl.
    destruct (out_edges n !! b) as [v|] eqn:Hv; [|done]. exfalso. apply Hd. split; [done|].
    apply list_elem_of_fmap. exists (b, v). by rewrite elem_of_map_order. }
  assert (Hdom' : dom st' = dom st ∖ {[c]}) by (subst st'; by rewrite dom_delete_L, Hdom).
  split; [|done]. split.
  - intros a b Ha. rewrite Hout', Hin'. by rewrite H1.
  - intros a b k. rewrite Hin'. case_decide; [done|]. apply H2.
  - apply not_elem_of_dom. rewrite Hdom'. apply not_elem_of_dom in H3. set_solver.
Qed.

(** What is left of [st1]: its needed components, with the requests that they made. *)
Record shaken st1 st : Prop := {
  shaken_sync : in_sync st;
  shaken_dom : dom st ⊆ dom st1;
  shaken_out a b : a ∈ dom st → requests_out st a b = requests_out st1 a b;
  shaken_in b : b ∈ dom st → requests_in st mainRequester b = requests_in st1 mainRequester b;
  shaken_needed x : needed st1 x → x ∈ dom st
}.

Lemma requests_in_dom st a b : is_Some (requests_in st a b) → b ∈ dom st.
Proof. intros [k Hk]. apply elem_of_dom. unfold requests_in in Hk. destruct (st !! b); [eauto|done]. Qed.
Lemma requests_out_dom st a b : is_Some (requests_out st a b) → a ∈ dom st.
Proof. intros [k Hk]. apply elem_of_dom. unfold requests_out in Hk. destruct (st !! a); [eauto|done]. Qed.

Lemma shaken_refl st : in_sync st → shaken st st.
Proof.
  intros Hst. split; try done. induction 1 as [x Hx|a b _ Ha Hab]; [by eapply requests_in_dom|].
  apply (requests_in_dom _ a). rewrite <- (sync_eq _ Hst); [done|]. intros ->.
  apply requests_out_dom, elem_of_dom in Hab as [? Hm]. by rewrite (sync_main _ Hst) in Hm.
Qed.

Lemma shaken_disable st1 st c n :
  shaken st1 st → st !! c = Some n → total_requests n = 0 →
  shaken st1 (delete c (foldl (λ st d, alter (set_in (delete c)) d st) st (map_order (out_edges n)).*1)).
Proof.
  intros [H1 H2 H3 H4 H5] Hn Htotal. destruct (disable_spec c n st H1 Hn Htotal) as (Hs & Hdom & Hnone & Hout & Hin).
  set (st' := delete c _) in *.
  assert (Hc : c ∈ dom st) by (apply elem_of_dom; eauto).
  assert (Hm : ∀ a, a ∈ dom st → a ≠ mainRequester).
  { intros a Ha ->. apply elem_of_dom in Ha as [? Ha]. by rewrite (sync_main _ H1) in Ha. }
  split; [done|set_solver| | |].
  - intros a b Ha. rewrite Hdom in Ha. rewrite Hout, decide_False by set_solver. apply H3. set_solver.
  - intros b Hb. rewrite Hdom in Hb. rewrite Hin, decide_False by (intros <-; by apply Hm in Hc). apply H4. set_solver.
  - intros x Hx. rewrite Hdom. apply elem_of_difference. split; [by apply H5|]. intros ->%elem_of_singleton.
    destruct Hx as [x Hx|a x Ha Hax].
    + rewrite <- H4, Hnone in Hx by done. by destruct Hx.
    + apply H5 in Ha. rewrite <- H3, (sync_eq _ H1), Hnone in Hax by auto. by destruct Hax.
Qed.

Lemma size_shaken_disable c n st :
  in_sync st → st !! c = Some n → total_requests n = 0 →
  size (delete c (foldl (λ st d, alter (set_in (delete c)) d st) st (map_order (out_edges n)).*1)) < size st.
Proof.
  intros Hst Hn Htotal. destruct (disable_spec c n st Hst Hn Htotal) as (_ & Hdom & _).
  rewrite <- (size_dom (D := gset string) (delete c _)), <- (size_dom (D := gset string) st), Hdom.
  apply subset_size. assert (c ∈ dom st) by (apply elem_of_dom; eauto). set_solver.
Qed.

(** One pass: something is disabled, or all components visited are requested. *)
Lemma shakeTreeOnce_spec st1 st :
  shaken st1 st → let '(st', hasChanged) := shakeTreeOnce st in
  shaken st1 st' ∧ if hasChanged : bool then size st' < size st
    else st' = st ∧ ∀ c n, st !! c = Some n → total_requests n ≠ 0.
Proof.
  intros Hst. unfold shakeTreeOnce. set (step := λ '(_, _) _, _).
  assert (Hgen : ∀ names st0 h, shaken st1 st0 → let '(st', hasChanged) := foldl step (st0, h) names in
    shaken st1 st' ∧ size st' ≤ size st0 ∧
    if hasChanged then h = true ∨ size st' < size st0
    else h = false ∧ st' = st0 ∧ ∀ c n, c ∈ names → st0 !! c = Some n → total_requests n ≠ 0).
  { induction names as [|c names IH]; intros st0 h Hst0; cbn [foldl].
    { split; [done|]. split; [done|]. destruct h; [by left|]. split; [done|]. split; [done|]. by intros c n ?%not_elem_of_nil. }
    destruct (st0 !! c) as [n|] eqn:Hn.
    - destruct (Nat.eqb_spec (total_requests n) 0) as [Ht|Ht].
      + pose proof (size_shaken_disable c n st0 (shaken_sync _ _ Hst0) Hn Ht) as Hsize.
        specialize (IH _ true (shaken_disable _ _ _ _ Hst0 Hn Ht)).
        replace (step (st0, h) c) with
          (delete c (foldl (λ st d, alter (set_in (delete c)) d st) st0 (map_order (out_edges n)).*1), true)
          by (unfold step; rewrite Hn; by destruct (Nat.eqb_spec (total_requests n) 0)).
        destruct (foldl step _ names) as [st' h']. destruct IH as (? & ? & Hh). split; [done|]. split; [lia|].
        destruct h'; [right; lia|]. by destruct Hh.
      + replace (step (st0, h) c) with (st0, h)
          by (unfold step; rewrite Hn; by destruct (Nat.eqb_spec (total_requests n) 0)).
        specialize (IH _ h Hst0). destruct (foldl step _ names) as [st' h']. destruct IH as (? & ? & Hh).
        split; [done|]. split; [done|]. destruct h'; [done|]. destruct Hh as (? & ? & Hall). split; [done|]. split; [done|].
        intros c' n' [->|Hc']%elem_of_cons Hn'; [congruence|by eapply Hall].
    - replace (step (st0, h) c) with (st0, h) by (unfold step; by rewrite Hn).
      specialize (IH _ h Hst0). destruct (foldl step _ names) as [st' h']. destruct IH as (? & ? & Hh).
      split; [done|]. split; [done|]. destruct h'; [done|]. destruct Hh as (? & ? & Hall). split; [done|]. split; [done|].
      intros c' n' [->|Hc']%elem_of_cons Hn'; [congruence|by eapply Hall]. }
  specialize (Hgen (map_order st).*1 st false Hst). destruct (foldl step _ _) as [st' h'].
  destruct Hgen as (? & ? & Hh). split; [done|]. destruct h'; [by destruct Hh|]. destruct Hh as (_ & ? & Hall).
  split; [done|]. intros c n Hn. eapply Hall; [|done]. apply list_elem_of_fmap. exists (c, n). by rewrite elem_of_map_order.
Qed.

(** Passes end, when all that is left is requested. *)
Lemma shakeTree_spec st1 fuel : ∀ st,
  shaken st1 st → size st < fuel →
  ∃ st', shakeTree fuel st = Some st' ∧ shaken st1 st' ∧ ∀ c n, st' !! c = Some n → total_requests n ≠ 0.
Proof.
  induction fuel as [|fuel IH]; intros st Hst Hfuel; [lia|]. cbn [shakeTree].
  pose proof (shakeTreeOnce_spec st1 st Hst) as Hpass. destruct (shakeTreeOnce st) as [st' h].
  destruct Hpass as [Hst' Hh]. destruct h; [apply IH; [done|lia]|]. destruct Hh as [-> Hall]. eauto.
Qed.

Lemma total_requests_requested st c n :
  in_sync st → st !! c = Some n → total_requests n ≠ 0 → ∃ a, is_Some (requests_in st a c).
Proof.
  intros Hst Hn Ht. destruct (map_choose_or_empty (in_edges n)) as [(a & k & Hk)|He].
  - exists a, k. unfold requests_in. by rewrite Hn.
  - exfalso. apply Ht. unfold total_requests. by rewrite He, map_fold_empty.
Qed.

(** If requesters come later in [l], then what is left is needed. *)
Lemma left_needed st1 st l :
  shaken st1 st → (∀ c n, st !! c = Some n → total_requests n ≠ 0) →
  NoDup l → (∀ x, x ∈ dom st → x ∈ l) →
  (∀ l1 a l2, l = l1 ++ a :: l2 → ∀ b, is_Some (requests_out st1 a b) → b ∈ l1) →
  ∀ x, x ∈ dom st → needed st1 x.
Proof.
  intros Hst Hall Hnd Hcov Hsorted x Hx. pose proof (shaken_sync _ _ Hst) as Hsync.
  assert (Hsuffix : ∀ l2 l1, l = l1 ++ l2 → ∀ x, x ∈ l2 → x ∈ dom st → needed st1 x); [|by eapply (Hsuffix l []); auto].
  clear x Hx. induction l2 as [|c l2 IH]; intros l1 Hl x; [by intros ?%not_elem_of_nil|].
  assert (IH' := IH (l1 ++ [c])). rewrite <- app_assoc in IH'. specialize (IH' Hl).
  intros [->|Hx]%elem_of_cons Hdom; [|by apply IH'].
  pose proof Hdom as [n Hn]%elem_of_dom.
  destruct (total_requests_requested st c n Hsync Hn (Hall _ _ Hn)) as [a Ha].
  destruct (decide (a = mainRequester)) as [->|Hm].
  { apply reached_root. by rewrite <- (shaken_in _ _ Hst). }
  rewrite <- (sync_eq _ Hsync) in Ha by done. pose proof (requests_out_dom _ _ _ Ha) as Had.
  rewrite (shaken_out _ _ Hst) in Ha by done. apply (reached_dep _ _ a); [|done].
  pose proof (Hcov _ Had) as Hal. rewrite Hl in Hnd. apply NoDup_app in Hnd as (_ & Hdisj & _).
  assert (Hc : c ∉ l1) by (intros Hc; apply (Hdisj c Hc); left).
  rewrite Hl in Hal. apply elem_of_app in Hal as [Hal|[->|Hal]%elem_of_cons].
  - apply list_elem_of_split in Hal as (m1 & m2 & Hm12). exfalso. apply Hc.
    rewrite Hm12 in Hl. rewrite <- app_assoc in Hl. specialize (Hsorted _ _ _ Hl _ Ha). rewrite Hm12. set_solver.
  - exfalso. apply Hc. by eapply Hsorted.
  - by apply IH'.
Qed.

End shake_lemmas.

(** ** Trimming as a whole *)
Section trim_spec.
Import Component.
Context `{!GoRuntime}.
Variables (isRequestedFromMain : string → bool) (unrequestDeps : string → list string).
Notation enabled st := (reached (kept_root isRequestedFromMain st) (kept_dep unrequestDeps st)).

Lemma edge_requests_out (st : store) a b : edge (out_edges <$> st) a b ↔ is_Some (requests_out st a b).
Proof.
  unfold edge, requests_out. rewrite lookup_fmap. destruct (st !! a) as [n|]; simpl.
  - split; [by intros (m & [= <-] & ?)|eauto].
  - split; [by intros (m & ? & _)|by intros [? ?]].
Qed.

Lemma TrimNonRequested_spec components (st : store) :
  in_sync st → NoDup components → (∀ x, x ∈ components ↔ x ∈ dom st) →
  can_withdraw unrequestDeps st components → deps_before (out_edges <$> st) components →
  ∃ l, TrimNonRequested isRequestedFromMain unrequestDeps (S (size st)) components st = Some (Ret l) ∧
    l `sublist_of` components ∧ ∀ c, c ∈ l ↔ enabled st c.
Proof.
  intros Hst Hnd Hcov Hcan Hsorted.
  destruct (removeDirectDeps_spec isRequestedFromMain unrequestDeps components st Hst Hnd Hcan) as (st1 & Hrun & Hrem).
  pose proof (removed_sync _ _ _ _ _ Hrem) as Hst1. pose proof (removed_dom _ _ _ _ _ Hrem) as Hdom1.
  assert (Hsize : size st1 = size st).
  { by rewrite <- (size_dom (D := gset string) st1), Hdom1, size_dom. }
  destruct (shakeTree_spec st1 (S (size st)) st1 (shaken_refl _ Hst1)) as (st2 & Hrun2 & Hst2 & Hall); [lia|].
  unfold TrimNonRequested. rewrite Hrun, Hrun2. eexists. split; [reflexivity|]. split; [apply sublist_filter|].
  intros c. rewrite <- (removed_kept _ _ components st st1 c Hrem Hst Hcov), list_elem_of_filter, <- elem_of_dom.
  split; [intros [Hc _]|].
  - apply (left_needed st1 st2 components); try done.
    + intros x Hx%(shaken_dom _ _ Hst2). apply Hcov. by rewrite <- Hdom1.
    + intros l1 a l2 Hl b Hab. eapply Hsorted; [exact Hl|]. apply edge_requests_out.
      rewrite (removed_out _ _ _ _ _ Hrem) in Hab. case_decide; [|done].
      destruct (requests_out st a b); [done|by destruct Hab].
  - intros Hc. split; [by apply (shaken_needed _ _ Hst2)|]. apply Hcov. rewrite <- Hdom1.
    apply (shaken_dom _ _ Hst2). by apply (shaken_needed _ _ Hst2).
Qed.

End trim_spec.

(** The store that the sorted list and its map share. *)
Section store_of.
Import Component.
Context {Decl : Type} (Name : Decl → string).
Notation cmap := (gmap string (option (componentMapEntry (Decl := Decl)))).

Lemma out_edges_store_of (cm : cmap) : out_edges <$> store_of cm = edges_of cm.
Proof.
  apply map_eq. intros x. rewrite lookup_fmap. unfold store_of, edges_of. rewrite !lookup_omap.
  by destruct (cm !! x) as [[e|]|].
Qed.

Lemma store_of_in_sync (cm : cmap) :
  well_recorded Name cm → (∀ a b, a ≠ mainRequester → unbalanced cm a b = 0%Z) →
  (∀ d, Name d ≠ mainRequester) → in_sync (store_of cm).
Proof.
  intros Hwell Hbal Hmain.
  assert (Hstore : ∀ x, store_of cm !! x =
    (oe ← cm !! x; e ← oe; Some {| in_edges := requesters e; out_edges := deps e |})).
  { intros x. unfold store_of. rewrite lookup_omap. by destruct (cm !! x) as [[e|]|]. }
  assert (Hpos : ∀ x e, cm !! x = Some (Some e) → positive (deps e) ∧ positive (requesters e)).
  { intros x e Hx. destruct (Hwell _ _ Hx) as [_ He]. by destruct (He e eq_refl). }
  split.
  - intros a b Ha. specialize (Hbal a b Ha). unfold unbalanced, in_count, out_count in Hbal.
    unfold requests_out, requests_in. rewrite !Hstore.
    assert (Hcount : ∀ k (m : gmap string nat), positive m → m !! k = if decide (count_of k m = 0) then None else Some (count_of k m)).
    { intros k m Hm. unfold count_of. destruct (m !! k) as [n|] eqn:Hk; [|done]. specialize (Hm k n Hk). simpl in *.
      case_decide; [lia|done]. }
    destruct (cm !! a) as [[ea|]|] eqn:Hea, (cm !! b) as [[eb|]|] eqn:Heb; simpl; try done;
      rewrite ?(Hcount _ (deps ea)), ?(Hcount _ (requesters eb)) by (by eapply Hpos);
      repeat case_decide; try done; try lia; f_equal; lia.
  - intros a b k Hk. unfold requests_in in Hk. rewrite Hstore in Hk.
    destruct (cm !! b) as [[e|]|] eqn:Hb; try done. destruct (Hpos _ _ Hb) as [_ Hr]. by apply (Hr a).
  - rewrite Hstore. destruct (cm !! mainRequester) as [oe|] eqn:Hm; [|done].
    destruct (Hwell _ _ Hm) as [[d Hd] _]. by apply Hmain in Hd.
Qed.

End store_of.

(** ** Properties *)

(** What a sorted list orders does not depend on itself. *)
Lemma deps_before_acyclic edges (l : list string) x : NoDup l → deps_before edges l → x ∈ l → ¬ tc (edge edges) x x.
Proof.
  intros Hnd Hl Hx Hxx.
  assert (Hbefore : ∀ a b, tc (edge edges) a b → ∀ l1 l2, l = l1 ++ a :: l2 → b ∈ l1).
  { induction 1 as [a b Hab|a b c Hab _ IH]; intros l1 l2 Heq; [by eapply Hl|].
    pose proof (Hl _ _ _ Heq _ Hab) as Hb. apply list_elem_of_split in Hb as (m1 & m2 & ->).
    rewrite <- app_assoc in Heq. specialize (IH _ _ Heq). set_solver. }
  apply list_elem_of_split in Hx as (l1 & l2 & Heq). specialize (Hbefore x x Hxx l1 l2 Heq).
  rewrite Heq in Hnd. apply NoDup_app in Hnd as (_ & Hdisj & _). apply (Hdisj x Hbefore). left.
Qed.

(** A sublist of a sorted list is sorted for what it has. *)
Lemma sublist_deps_before edges (l components l1 l2 : list string) c b :
  NoDup components → deps_before edges components → l `sublist_of` components →
  l = l1 ++ c :: l2 → edge edges c b → b ∈ l → b ∈ l1.
Proof.
  intros Hnd Hbefore Hsub -> Hcb Hb. apply sublist_app_l in Hsub as (k1 & k2 & -> & Hk1 & Hk2).
  apply sublist_cons_l in Hk2 as (k21 & k22 & -> & Hk22).
  assert (Hbk : b ∈ k1 ++ k21). { eapply Hbefore, Hcb. by rewrite <- app_assoc. }
  rewrite app_assoc in Hnd. apply NoDup_app in Hnd as (_ & Hdisj & _).
  apply elem_of_app in Hb as [Hb|Hb]; [done|]. exfalso. apply (Hdisj b Hbk).
  apply elem_of_cons in Hb as [->|Hb]; [left|right]. eapply elem_of_submseteq; [exact Hb|by apply sublist_submseteq].
Qed.

Section component_properties.
Import Component.
Context `{!GoRuntime} {Decl : Type}.
Variables (Name : Decl → string) (dependencies : Decl → list Decl) (mergeInto : Decl → Decl → outcome (Decl * list Decl)).

(** [resolveRequest] and [ResolveList] keep both ends of each request: once all requests from
    main are resolved, no entry is nil, every requested name is there, a component counts as many
    requests for another one as the other one counts from it (what [removeDirectDeps] checks
    before it withdraws a request), and main's requests are counted one by one. *)
Theorem resolveMain_balanced (fuel : nat) (requests : list Decl) cm :
  (∀ d, Name d ≠ mainRequester) →
  resolveMain Name dependencies mergeInto fuel requests = Some (Ret cm) →
  (∀ x, cm !! x ≠ Some None) ∧
  (∀ d, d ∈ requests → ∃ e, cm !! Name d = Some (Some e)) ∧
  (∀ a b, a ≠ mainRequester → out_count cm a b = in_count cm a b) ∧
  ∀ b, in_count cm mainRequester b = Z.of_nat (length (filter (λ d, Name d = b) requests)).
Proof.
  intros Hnames Hrun. destruct (resolveMain_spec _ _ _ _ _ _ Hrun) as (Hwell & Hnil & Hreg & Hbal).
  split; [done|]. split; [done|]. split.
  - intros a b Ha. specialize (Hbal a b). rewrite decide_False in Hbal by done. unfold unbalanced in Hbal. lia.
  - intros b. specialize (Hbal mainRequester b). rewrite decide_True in Hbal by done. unfold unbalanced in Hbal.
    enough (out_count cm mainRequester b = 0%Z) by lia. unfold out_count.
    destruct (cm !! mainRequester) as [oe|] eqn:Hm; [|done]. destruct (Hwell _ _ Hm) as [[d Hd] _]. by apply Hnames in Hd.
Qed.

(** The topological sort of [ResolveList]: the components are listed once each, every dependency
    before the components that request it, unless requests are cyclic, in which case
    the process panics instead of starting in some order. *)
Theorem ResolveList_correct (fuel : nat) (requests : list Decl) cm :
  (∀ d, Name d ≠ mainRequester) →
  resolveMain Name dependencies mergeInto fuel requests = Some (Ret cm) →
  (cyclic (edges_of cm) ∧
    ResolveList Name dependencies mergeInto fuel requests = Some (Panic "recursive dependency chain")) ∨
  (¬ cyclic (edges_of cm) ∧ ∃ l, ResolveList Name dependencies mergeInto fuel requests = Some (Ret l) ∧
    NoDup l ∧ (∀ x, x ∈ l ↔ is_Some (cm !! x)) ∧ (∀ d, d ∈ requests → Name d ∈ l) ∧
    deps_before (edges_of cm) l).
Proof.
  intros Hnames Hrun. pose proof (ResolveList_cases Name dependencies mergeInto Hnames fuel requests) as Hcases.
  rewrite Hrun in Hcases. destruct (resolveMain_spec _ _ _ _ _ _ Hrun) as (Hwell & Hnil & Hreg & Hbal).
  destruct Hcases as [(l & Hl & Hnd & Hdom & Hbefore)|[? ?]]; [right|by left].
  assert (Hin : ∀ x, x ∈ l ↔ is_Some (cm !! x)).
  { intros x. rewrite Hdom, elem_of_edges_of. specialize (Hnil x). split; [by intros [e ->]|].
    intros [[e|] He]; [eauto|done]. }
  split.
  - intros [x Hx]. eapply (deps_before_acyclic _ l x); try done. apply Hdom, elem_of_dom.
    inversion Hx as [? ? (m & Hm & _)|? y ? (m & Hm & _)]; subst; eauto.
  - exists l. split; [done|]. split; [done|]. split; [exact Hin|]. split; [|done]. intros d Hd. apply Hin. destruct (Hreg d Hd) as [e He]. rewrite He. eauto.
Qed.

(** C30. Resolution ends: when what a declaration requests, on its own or when it is merged,
    has a lower rank, then fuel above the ranks of the requests gives a list or a panic. *)
Theorem ResolveList_terminates (rank : Decl → nat) (fuel : nat) (requests : list Decl) :
  (∀ d, Name d ≠ mainRequester) →
  (∀ d d', d' ∈ dependencies d → rank d' < rank d) →
  (∀ d prev other l d', mergeInto d prev = Ret (other, l) → d' ∈ l → rank d' < rank d) →
  (∀ d, d ∈ requests → rank d < fuel) →
  ∃ result, ResolveList Name dependencies mergeInto fuel requests = Some result.
Proof.
  intros Hnames Hdeps Hmerge Hfuel.
  pose proof (ResolveList_cases Name dependencies mergeInto Hnames fuel requests) as Hcases.
  destruct (resolveMain Name dependencies mergeInto fuel requests) as [[cm|msg]|] eqn:Hmain.
  - destruct Hcases as [(l & Hl & _)|[Hl _]]; eauto.
  - eauto.
  - exfalso. unfold resolveMain in Hmain. destruct (resolveLoop _ _ requests _) as [[[cm u]|msg]|] eqn:Hloop; try done.
    revert Hloop. apply resolveLoop_returns. intros cm d Hd. by apply (resolveRequest_returns _ _ _ rank); auto.
Qed.

Lemma resolved_in_sync (fuel : nat) (requests : list Decl) cm :
  (∀ d, Name d ≠ mainRequester) → resolveMain Name dependencies mergeInto fuel requests = Some (Ret cm) → in_sync (store_of cm).
Proof.
  intros Hnames Hrun. destruct (resolveMain_spec _ _ _ _ _ _ Hrun) as (Hwell & _ & _ & Hbal).
  apply (store_of_in_sync Name); [done| |done]. intros a b Ha. rewrite Hbal. by rewrite decide_False.
Qed.

(** The statement of [enabled_components_in_order], for the processes of the repository. *)
Lemma trim_resolved (fuel : nat) (requests : list Decl) cm components
    (isRequestedFromMain : string → bool) (unrequestDeps : string → list string) :
  (∀ d, Name d ≠ mainRequester) →
  resolveMain Name dependencies mergeInto fuel requests = Some (Ret cm) →
  ResolveList Name dependencies mergeInto fuel requests = Some (Ret components) →
  can_withdraw unrequestDeps (store_of cm) components →
  ∃ l, TrimNonRequested isRequestedFromMain unrequestDeps (S (size (store_of cm))) components (store_of cm) =
      Some (Ret l) ∧
    (∀ c, c ∈ l ↔ reached (kept_root isRequestedFromMain (store_of cm)) (kept_dep unrequestDeps (store_of cm)) c) ∧
    (∀ l1 c l2, l = l1 ++ c :: l2 → ∀ b, kept_dep unrequestDeps (store_of cm) c b → b ∈ l1) ∧ NoDup l.
Proof.
  intros Hnames Hrun Hlist Hcan.
  pose proof (ResolveList_cases Name dependencies mergeInto Hnames fuel requests) as Hcases.
  rewrite Hrun, Hlist in Hcases. destruct Hcases as [(l & [= <-] & Hnd & Hdom & Hbefore)|[? _]]; [|done].
  destruct (TrimNonRequested_spec isRequestedFromMain unrequestDeps components (store_of cm))
    as (l & Htrim & Hsub & Hin); [|done| |done| |].
  - by eapply resolved_in_sync.
  - intros x. rewrite Hdom, <- out_edges_store_of. by rewrite dom_fmap_L.
  - by rewrite out_edges_store_of.
  - exists l. split; [exact Htrim|]. split; [exact Hin|]. split; [|by eapply sublist_NoDup].
    intros l1 c l2 Hl b Hcb.
    eapply sublist_deps_before; [exact Hnd|exact Hbefore|exact Hsub|exact Hl| |].
    + rewrite <- out_edges_store_of. apply edge_requests_out. destruct Hcb as (k & Hk & _). eauto.
    + apply Hin. eapply reached_dep, Hcb. apply Hin. rewrite Hl. set_solver.
Qed.

(** C25. From declarations to what is initialized: after [ResolveList], trimming ends without the
    panics of [removeDirectDeps] when components withdraw, at most once, requests that they made;
    the components that are left are exactly those that main leads to through confirmed requests
    that were not withdrawn, and each comes after every component that it still requests. *)
Theorem enabled_components_in_order (fuel : nat) (requests : list Decl) cm components
    (isRequestedFromMain : string → bool) (unrequestDeps : string → list string) :
  (∀ d, Name d ≠ mainRequester) →
  resolveMain Name dependencies mergeInto fuel requests = Some (Ret cm) →
  ResolveList Name dependencies mergeInto fuel requests = Some (Ret components) →
  can_withdraw unrequestDeps (store_of cm) components →
  ∃ l, TrimNonRequested isRequestedFromMain unrequestDeps (S (size (store_of cm))) components (store_of cm) =
      Some (Ret l) ∧
    (∀ c, c ∈ l ↔ reached (kept_root isRequestedFromMain (store_of cm)) (kept_dep unrequestDeps (store_of cm)) c) ∧
    ∀ l1 c l2, l = l1 ++ c :: l2 → ∀ b, kept_dep unrequestDeps (store_of cm) c b → b ∈ l1.
Proof.
  intros Hnames Hrun Hlist Hcan. destruct (trim_resolved _ _ _ _ isRequestedFromMain _ Hnames Hrun Hlist Hcan) as (l & ? & ? & ? & _). by exists l.
Qed.

End component_properties.

(** ** A process with a multiplexed interface *)
Module Example.
Import Component.

(** The webhook needs a provider, which is an informer or a static list. *)
Inductive decl := Webhook | Provider | InformerImpl | StaticImpl | Kube.
Definition name (d : decl) : string :=
  match d with
  | Webhook => "webhook" | Provider => "provider" | Kube => "kube"
  | InformerImpl => "provider.informer" | StaticImpl => "provider.static"
  end.
Definition dependencies (d : decl) : list decl :=
  match d with
  | Webhook => [Provider; Kube]
  | Provider => [InformerImpl; StaticImpl]
  | InformerImpl => [Kube]
  | _ => []
  end.
Definition mergeInto (_ other : decl) : outcome (decl * list decl) := Ret (other, []).
Definition isRequestedFromMain (c : string) : bool := negb (bool_decide (c = "provider")).
Definition unrequestDeps (c : string) : list string :=
  if bool_decide (c = "provider")
  then mux_unrequestDeps {[ "informer" := "provider.informer"; "static" := "provider.static" ]} (Some "informer")
  else [].
Definition requests : list decl := [Webhook; Provider].
Definition rank (d : decl) : nat :=
  match d with Webhook => 3 | Provider => 2 | InformerImpl => 1 | _ => 0 end.

Notation resolved := (resolveMain name dependencies mergeInto 4 requests).
Notation listed := (ResolveList name dependencies mergeInto 4 requests).

Lemma name_ne d : name d ≠ mainRequester.
Proof. by destruct d. Qed.
Definition order : list string := ["kube"; "provider.static"; "provider.informer"; "provider"; "webhook"].
Lemma listed_eq : listed = Some (Ret order).
Proof. vm_compute. reflexivity. Qed.

Lemma resolved_ret : ∃ cm, resolved = Some (Ret cm).
Proof.
  assert (H : match resolved with Some (Ret _) => true | _ => false end = true) by (vm_compute; reflexivity).
  destruct resolved as [[cm|]|]; [eauto|done|done].
Qed.

Lemma withdraw_static cm : resolved = Some (Ret cm) → can_withdraw unrequestDeps (store_of cm) order.
Proof.
  intros Hcm.
  assert (Hout : match resolved with
    | Some (Ret cm) => bool_decide (requests_out (store_of cm) "provider" "provider.static" = Some 1)
    | _ => false end = true) by (vm_compute; reflexivity).
  rewrite Hcm in Hout. apply bool_decide_eq_true in Hout.
  intros c Hc. unfold unrequestDeps. case_bool_decide as Hp; [subst c|].
  - split; [done|]. assert (Hu : mux_unrequestDeps {[ "informer" := "provider.informer"; "static" := "provider.static" ]}
      (Some "informer") = ["provider.static"]) by (vm_compute; reflexivity). rewrite Hu.
    split; [apply NoDup_singleton|]. intros d ->%list_elem_of_singleton. by rewrite Hout.
  - clear Hout Hcm. split.
    + intros ->. repeat (apply elem_of_cons in Hc as [Hc|Hc]; [discriminate Hc|]). by apply not_elem_of_nil in Hc.
    + split; [apply NoDup_nil_2|]. by intros d ?%not_elem_of_nil.
Qed.
End Example.

Lemma resolveMain_balanced_witness : ∃ cm, Example.resolved = Some (Ret cm) ∧
  (∀ a b, a ≠ Component.mainRequester → out_count cm a b = in_count cm a b) ∧
  in_count cm Component.mainRequester "provider" = 1%Z.
Proof.
  destruct Example.resolved_ret as [cm Hcm]. exists cm. split; [exact Hcm|].
  destruct (resolveMain_balanced Example.name Example.dependencies Example.mergeInto 4 Example.requests cm
    Example.name_ne Hcm) as (_ & _ & Hbal & Hmain).
  split; [exact Hbal|]. exact (Hmain "provider").
Defined.

Lemma ResolveList_correct_witness : Example.listed = Some (Ret Example.order) ∧
  ∃ cm, Example.resolved = Some (Ret cm) ∧ deps_before (Component.edges_of cm) Example.order.
Proof.
  split; [exact Example.listed_eq|]. destruct Example.resolved_ret as [cm Hcm]. exists cm. split; [exact Hcm|].
  destruct (ResolveList_correct Example.name Example.dependencies Example.mergeInto 4 Example.requests cm
    Example.name_ne Hcm) as [[_ Hpanic]|(_ & l & Hl & _ & _ & _ & Hbefore)].
  - pose proof Example.listed_eq as Heq. rewrite Hpanic in Heq. discriminate Heq.
  - pose proof Example.listed_eq as Heq. rewrite Hl in Heq. injection Heq as Heq.
    rewrite <- Heq. exact Hbefore.
Defined.

Lemma ResolveList_terminates_witness : ∃ result,
  Component.ResolveList Example.name Example.dependencies Example.mergeInto 4 Example.requests = Some result.
Proof.
  apply (ResolveList_terminates Example.name Example.dependencies Example.mergeInto Example.rank 4).
  - exact Example.name_ne.
  - intros [] d' Hd'; simpl in Hd'; repeat (apply elem_of_cons in Hd' as [->|Hd']; [simpl; lia|]);
      by apply not_elem_of_nil in Hd'.
  - intros d prev other l d' [= <- <-] Hd'. by apply not_elem_of_nil in Hd'.
  - intros d Hd. repeat (apply elem_of_cons in Hd as [->|Hd]; [simpl; lia|]). by apply not_elem_of_nil in Hd.
Defined.

Lemma enabled_components_in_order_witness : ∃ cm l, Example.resolved = Some (Ret cm) ∧
  Component.TrimNonRequested Example.isRequestedFromMain Example.unrequestDeps (S (size (Component.store_of cm)))
    Example.order (Component.store_of cm) = Some (Ret l) ∧
  ∀ l1 c l2, l = l1 ++ c :: l2 → ∀ b, kept_dep Example.unrequestDeps (Component.store_of cm) c b → b ∈ l1.
Proof.
  destruct Example.resolved_ret as [cm Hcm].
  destruct (enabled_components_in_order Example.name Example.dependencies Example.mergeInto 4 Example.requests cm
    Example.order Example.isRequestedFromMain Example.unrequestDeps Example.name_ne Hcm Example.listed_eq
    (Example.withdraw_static cm Hcm)) as (l & Hl & _ & Hbefore).
  exists cm, l. split; [exact Hcm|]. split; [exact Hl|exact Hbefore].
Defined.

(** The static implementation is not selected, so that it is not initialized. *)
Example static_is_trimmed :
  match Example.resolved with
  | Some (Ret cm) => Component.TrimNonRequested Example.isRequestedFromMain Example.unrequestDeps
      (S (size (Component.store_of cm))) Example.order (Component.store_of cm)
  | _ => None
  end = Some (Ret ["kube"; "provider.informer"; "provider"; "webhook"]).
Proof. vm_compute. reflexivity. Qed.
