(* ===== verification/Handles.v ===== *)
(** * Handles: what components get of each other (util/component/declare.go, interface.go)

    A component reaches another one through a handle, a pointer into the declaration that it requested. Resolution redirects the
    declaration to the instance that was registered first under its name. [Module Handles] is resolution with the
    objects and pointers; [Component] is the same without them, which [handles_refine] shows. A declaration is made for each
    request, as all callers of [DepPtr] do. *)

From S2P Require Import Prelude Component.

Module Handles.
Import Component.

Definition loc : Type := positive.

Section handles.
Context {Decl Ty : Type} `{EqDecision Ty}.
Variables (Name : Decl → string) (ApiType : Decl → Ty) (dependencies : Decl → list Decl)
  (mergeInto : Decl → Decl → outcome (Decl * list Decl)).

(** *** Objects

    [Declare_] makes a component and the declaration that has it. An [api] is a function of the data of the
    component that it was made with, which stands for it. [Deps] are the handles that a component got. *)
Record declaredImpl : Type := { decl_comp : loc; decl_api : loc }.
Record componentImpl : Type := { name : string; apiType : Ty; Args : Decl; Deps : list loc }.
Record heap : Type := { declareds : gmap loc declaredImpl; components : gmap loc componentImpl }.

Definition Declare_ (d : Decl) (h : heap) : loc * heap :=
  let l := fresh (dom (declareds h) ∪ dom (components h)) in
  (l, {| declareds := <[l := {| decl_comp := l; decl_api := l |}]> (declareds h);
         components := <[l := {| name := Name d; apiType := ApiType d; Args := d; Deps := [] |}]> (components h) |}).

(** [DepPtr], for each declaration of a list: a request and a handle are pointers to the declaration. *)
Fixpoint DepPtrs (ds : list Decl) (h : heap) : list loc * heap :=
  match ds with
  | [] => ([], h)
  | d :: ds => let '(l, h) := Declare_ d h in let '(ls, h) := DepPtrs ds h in (l :: ls, h)
  end.

(** [Dep.Get]: the component whose data is read. *)
Definition Get (h : heap) (dep : loc) : option loc := decl_api <$> declareds h !! dep.

Definition GetNew (h : heap) (request : loc) : outcome declaredImpl :=
  match declareds h !! request with
  | Some decl => Ret decl
  | None => Panic "invalid memory address or nil pointer dereference"
  end.
Definition component (h : heap) (c : loc) : outcome componentImpl :=
  match components h !! c with
  | Some impl => Ret impl
  | None => Panic "invalid memory address or nil pointer dereference"
  end.

(** The API of a request has the type of the component that the request was made with. *)
Definition incompatible : string := "declared the same name with incompatible APIs".
Definition set (request comp api : loc) (h : heap) : outcome heap :=
  base ← component h request;
  impl ← component h api;
  if decide (apiType impl = apiType base)
  then Ret {| declareds := <[request := {| decl_comp := comp; decl_api := api |}]> (declareds h); components := components h |}
  else Panic incompatible.

(** The methods of a component that make requests. *)
Definition impl_dependencies (c : loc) (h : heap) : outcome (list loc * heap) :=
  impl ← component h c;
  let '(requests, h) := DepPtrs (dependencies (Args impl)) h in
  Ret (requests, {| declareds := declareds h;
    components := <[c := {| name := name impl; apiType := apiType impl; Args := Args impl; Deps := requests |}]> (components h) |}).
Definition impl_mergeInto (c other : loc) (h : heap) : outcome (list loc * heap) :=
  impl ← component h c;
  into ← component h other;
  '(args, merged) ← mergeInto (Args impl) (Args into);
  let '(requests, h) := DepPtrs merged h in
  Ret (requests, {| declareds := declareds h;
    components := <[other := {| name := name into; apiType := apiType into; Args := args; Deps := Deps into ++ requests |}]>
      (components h) |}).

(** *** Resolution *)
Record componentMapEntry : Type := {
  comp : loc;
  apiGetter : loc;
  requesters : gmap string nat;
  deps : gmap string nat
}.
Notation componentMap := (gmap string (option componentMapEntry)).
Notation state := (heap * componentMap)%type.

Definition add_dep (depName : string) (e : componentMapEntry) : componentMapEntry :=
  {| comp := comp e; apiGetter := apiGetter e; requesters := requesters e; deps := increment depName (deps e) |}.
Definition add_requester (requester : string) (e : componentMapEntry) : componentMapEntry :=
  {| comp := comp e; apiGetter := apiGetter e; requesters := increment requester (requesters e); deps := deps e |}.

Fixpoint resolveLoop {S} (resolve : state → loc → run (string * loc * loc * state))
    (onDep : string → componentMap * S → componentMap * S) (requests : list loc) (s : state) (acc : S) : run (state * S) :=
  match requests with
  | [] => mret (s, acc)
  | request :: requests =>
      '(depName, depComp, depApi, (h, cm)) ← resolve s request;
      h ← (Some (set request depComp depApi h) : run heap);
      let '(cm, acc) := onDep depName (cm, acc) in
      resolveLoop resolve onDep requests (h, cm) acc
  end.

Fixpoint resolveRequest (fuel : nat) (s : state) (request : loc) (requester : string) : run (string * loc * loc * state) :=
  match fuel with
  | O => None
  | S fuel =>
      let '(h, cm) := s in
      new ← (Some (GetNew h request) : run declaredImpl);
      impl ← (Some (component h (decl_comp new)) : run componentImpl);
      let requestName := name impl in
      let resolve s dep := resolveRequest fuel s dep requestName in
      match cm !! requestName with
      | Some None => Some (Panic "cyclic dependency detected")
      | Some (Some prev) =>
          '(merged, h) ← (Some (impl_mergeInto (decl_comp new) (comp prev) h) : run (list loc * heap));
          '((h, cm), _) ← resolveLoop resolve (λ depName '(cm, u), (alter (fmap (add_dep depName)) requestName cm, u)) merged (h, cm) tt;
          mret (requestName, comp prev, apiGetter prev, (h, alter (fmap (add_requester requester)) requestName cm))
      | None =>
          '(requests, h) ← (Some (impl_dependencies (decl_comp new) h) : run (list loc * heap));
          '((h, cm), requestTimes) ← resolveLoop resolve (λ depName '(cm, times), (cm, increment depName times)) requests
            (h, <[requestName := None]> cm) ∅;
          mret (requestName, decl_comp new, decl_api new, (h, <[requestName := Some {| comp := decl_comp new;
            apiGetter := decl_api new; requesters := {[ requester := 1 ]}; deps := requestTimes |}]> cm))
      end
  end.

(** [ResolveList] up to sorting, with the handles of main. *)
Definition resolveMain (fuel : nat) (requests : list Decl) : run (list loc * state) :=
  let '(handles, h) := DepPtrs requests {| declareds := ∅; components := ∅ |} in
  '(s, _) ← resolveLoop (λ s request, resolveRequest fuel s request mainRequester) (λ _ acc, acc) handles (h, ∅) tt;
  mret (handles, s).

End handles.
Arguments heap : clear implicits.
Arguments componentImpl : clear implicits.
End Handles.

(** ** Lemmas *)
Section handles_lemmas.
Import Component Handles.
Context {Decl Ty : Type} `{EqDecision Ty}.
Variables (Name : Decl → string) (ApiType : Decl → Ty).
Notation heap := (heap Decl Ty).
Notation state := (heap * gmap string (option Handles.componentMapEntry))%type.
Notation plainMap := (gmap string (option (Component.componentMapEntry (Decl := Decl)))).
Implicit Types (h : heap) (s : state) (X F U : gset loc) (cmC : plainMap).

Definition registered s (l : loc) : Prop := ∃ n e, s.2 !! n = Some (Some e) ∧ comp e = l.

(** A handle of a name reads the component that is registered under it. *)
Definition resolved s (l : loc) (n : string) : Prop :=
  ∃ e i, s.2 !! n = Some (Some e) ∧ declareds s.1 !! l = Some {| decl_comp := comp e; decl_api := comp e |} ∧
    components s.1 !! l = Some i ∧ name i = n.

(** Declarations in [F] are as they were made; handles in [U] have not been redirected. *)
Record inv s F U : Prop := {
  inv_entry n e : s.2 !! n = Some (Some e) → apiGetter e = comp e ∧ comp e ∉ F ∧
    ∃ i, components s.1 !! comp e = Some i ∧ name i = n ∧ Forall (λ l, l ∈ U ∨ ∃ m, resolved s l m) (Deps i);
  inv_fresh l : l ∈ F → declareds s.1 !! l = Some {| decl_comp := l; decl_api := l |} ∧
    ∃ i, components s.1 !! l = Some i ∧ name i = Name (Args i);
  inv_unset : U ⊆ dom (declareds s.1);
  inv_made l i : components s.1 !! l = Some i → ∃ d, name i = Name d ∧ apiType i = ApiType d
}.

(** What changes at most: the declarations in [X], and components that are registered. *)
Record evolves X s s' : Prop := {
  evolves_declared l d : l ∉ X → declareds s.1 !! l = Some d → declareds s'.1 !! l = Some d;
  evolves_component l i : components s.1 !! l = Some i → ∃ i', components s'.1 !! l = Some i' ∧ name i' = name i ∧ apiType i' = apiType i;
  evolves_held l i : l ∉ X → ¬ registered s l → components s.1 !! l = Some i → components s'.1 !! l = Some i ∧ ¬ registered s' l;
  evolves_entry n e : s.2 !! n = Some (Some e) → ∃ e', s'.2 !! n = Some (Some e') ∧ comp e' = comp e;
  evolves_pending n : s.2 !! n = Some None → s'.2 !! n = Some None;
  evolves_dom : dom (declareds s.1) ⊆ dom (declareds s'.1)
}.

Lemma resolved_evolves X s s' l n : evolves X s s' → l ∉ X → resolved s l n → resolved s' l n.
Proof.
  intros Hg Hl (e & i & He & Hd & Hi & Hn). destruct (evolves_entry _ _ _ Hg _ _ He) as (e' & He' & Hc).
  destruct (evolves_component _ _ _ Hg _ _ Hi) as (i' & Hi' & Hn' & _). exists e', i'. rewrite Hc, Hn'.
  repeat split; [done| |done..]. by apply (evolves_declared _ _ _ Hg).
Qed.

Lemma evolves_refl s : evolves ∅ s s.
Proof. split; eauto. Qed.

Lemma evolves_trans X1 X2 s1 s2 s3 : evolves X1 s1 s2 → evolves X2 s2 s3 → evolves (X1 ∪ X2) s1 s3.
Proof.
  intros H1 H2. split.
  - intros l d Hl Hd. apply (evolves_declared _ _ _ H2); [set_solver|]. apply (evolves_declared _ _ _ H1); [set_solver|done].
  - intros l i Hi. destruct (evolves_component _ _ _ H1 _ _ Hi) as (i1 & Hi1 & Hn1 & Ht1).
    destruct (evolves_component _ _ _ H2 _ _ Hi1) as (i2 & Hi2 & Hn2 & Ht2). exists i2. by rewrite Hn2, Ht2.
  - intros l i Hl Hr Hi. destruct (evolves_held _ _ _ H1 l i) as [Hi1 Hr1]; [set_solver|done..|].
    by apply (evolves_held _ _ _ H2); [set_solver|..].
  - intros n e He. destruct (evolves_entry _ _ _ H1 _ _ He) as (e1 & He1 & Hc1).
    destruct (evolves_entry _ _ _ H2 _ _ He1) as (e2 & He2 & Hc2). exists e2. by rewrite Hc2.
  - intros n Hn. by apply (evolves_pending _ _ _ H2), (evolves_pending _ _ _ H1).
  - etrans; [by apply (evolves_dom _ _ _ H1)|by apply (evolves_dom _ _ _ H2)].
Qed.

(** What is new does not matter. *)
Lemma evolves_weaken X Y s s' : evolves (X ∪ Y) s s' → Y ## dom (declareds s.1) → Y ## dom (components s.1) → evolves X s s'.
Proof.
  intros Hg Hd Hc. split; try by destruct Hg.
  - intros l d Hl Hld. apply (evolves_declared _ _ _ Hg); [|done]. apply elem_of_dom_2 in Hld. set_solver.
  - intros l i Hl Hr Hi. apply (evolves_held _ _ _ Hg); [|done..]. apply elem_of_dom_2 in Hi. set_solver.
Qed.

(** *** Declarations *)
Lemma DepPtrs_spec (ds : list Decl) : ∀ h ls h', DepPtrs Name ApiType ds h = (ls, h') →
  NoDup ls ∧ list_to_set ls ## dom (declareds h) ∧ list_to_set ls ## dom (components h) ∧
  declareds h ⊆ declareds h' ∧ components h ⊆ components h' ∧
  (∀ l i, components h' !! l = Some i → components h !! l = Some i ∨ ∃ d, name i = Name d ∧ apiType i = ApiType d) ∧
  Forall2 (λ l d, declareds h' !! l = Some {| decl_comp := l; decl_api := l |} ∧
    components h' !! l = Some {| name := Name d; apiType := ApiType d; Args := d; Deps := [] |}) ls ds.
Proof.
  induction ds as [|d ds IH]; intros h ls h'; cbn [DepPtrs].
  { intros [= <- <-]. repeat split; [apply NoDup_nil_2|set_solver..| |by constructor]. auto. }
  unfold Declare_. set (l := fresh _). destruct (DepPtrs Name ApiType ds _) as [ls' h1] eqn:Hds. intros [= <- <-].
  assert (Hl : l ∉ dom (declareds h) ∪ dom (components h)) by apply is_fresh.
  apply IH in Hds as (Hnd & Hdd & Hdc & Hsd & Hsc & Hmade & Hall). cbn in *. rewrite dom_insert_L in Hdd. rewrite (dom_insert_L (components h)) in Hdc.
  apply not_elem_of_union in Hl as [Hld Hlc]. apply not_elem_of_dom in Hld as Hld', Hlc as Hlc'. split; [|repeat split].
  - apply NoDup_cons. split; [set_solver|done].
  - set_solver.
  - set_solver.
  - etrans; [|exact Hsd]. by apply insert_subseteq.
  - etrans; [|exact Hsc]. by apply insert_subseteq.
  - intros l' i [Hi|Hi]%Hmade; [|by right]. apply lookup_insert_Some in Hi as [[<- <-]|[_ Hi]]; [right; by exists d|by left].
  - constructor; [|done]. split; [eapply lookup_weaken; [|exact Hsd]|eapply lookup_weaken; [|exact Hsc]]; by apply lookup_insert_eq.
Qed.

(** *** Simulation *)
Definition sim_entry h (e : option Handles.componentMapEntry) (eC : option (Component.componentMapEntry (Decl := Decl))) : Prop :=
  match e, eC with
  | None, None => True
  | Some e, Some eC => (Args <$> components h !! comp e) = Some (Component.comp eC) ∧
      requesters e = Component.requesters eC ∧ deps e = Component.deps eC
  | _, _ => False
  end.
Definition sim s cmC : Prop := ∀ n, option_Forall2 (sim_entry s.1) (s.2 !! n) (cmC !! n).

Definition same_shape (cm cm' : gmap string (option Handles.componentMapEntry)) : Prop :=
  ∀ n, option_Forall2 (option_Forall2 (λ e e', comp e = comp e' ∧ apiGetter e = apiGetter e')) (cm !! n) (cm' !! n).

Lemma same_shape_alter f n cm : (∀ e, comp (f e) = comp e ∧ apiGetter (f e) = apiGetter e) → same_shape cm (alter (fmap f) n cm).
Proof.
  intros Hf n'. rewrite lookup_alter. case_decide as Hn; [subst n'|].
  - destruct (cm !! n) as [[e|]|]; cbn; constructor; [|by constructor]. constructor. by destruct (Hf e) as [-> ->].
  - destruct (cm !! n') as [[e|]|]; constructor; by constructor.
Qed.
Lemma same_shape_refl cm : same_shape cm cm.
Proof. intros n. destruct (cm !! n) as [[e|]|]; constructor; by constructor. Qed.

Lemma same_shape_cases cm cm' n : same_shape cm cm' →
  (cm !! n = None ∧ cm' !! n = None) ∨ (cm !! n = Some None ∧ cm' !! n = Some None) ∨
  ∃ e e', cm !! n = Some (Some e) ∧ cm' !! n = Some (Some e') ∧ comp e = comp e' ∧ apiGetter e = apiGetter e'.
Proof.
  intros Hs. specialize (Hs n). destruct (cm !! n) as [[e|]|], (cm' !! n) as [[e'|]|]; inversion_clear Hs as [? ? He|];
    [inversion_clear He as [? ? [? ?]|]; right; right; eauto 10|by inversion He|by inversion He|by right; left|by left].
Qed.

(** Counting changes nothing else. *)
Lemma inv_shape h cm cm' F U : inv (h, cm) F U → same_shape cm cm' → inv (h, cm') F U ∧ evolves ∅ (h, cm) (h, cm').
Proof.
  intros Hinv Hs.
  assert (Hto : ∀ n e, cm !! n = Some (Some e) → ∃ e', cm' !! n = Some (Some e') ∧ comp e' = comp e ∧ apiGetter e' = apiGetter e).
  { intros n e He. destruct (same_shape_cases _ _ n Hs) as [[? ?]|[[? ?]|(e1 & e2 & ? & ? & ? & ?)]]; [congruence..|].
    exists e2. split; [done|]. split; congruence. }
  assert (Hfrom : ∀ n e', cm' !! n = Some (Some e') → ∃ e, cm !! n = Some (Some e) ∧ comp e' = comp e ∧ apiGetter e' = apiGetter e).
  { intros n e He. destruct (same_shape_cases _ _ n Hs) as [[? ?]|[[? ?]|(e1 & e2 & ? & ? & ? & ?)]]; [congruence..|].
    exists e1. split; [done|]. split; congruence. }
  assert (Hg : evolves ∅ (h, cm) (h, cm')).
  { split; cbn; eauto.
    - intros l i _ Hr Hi. split; [done|]. intros (n & e' & He' & Hc). apply Hfrom in He' as (e & He & Hce & _). apply Hr. exists n, e.
      by rewrite <- Hce.
    - intros n e He. apply Hto in He as (e' & ? & ? & _). eauto.
    - intros n Hn. destruct (same_shape_cases _ _ n Hs) as [[? ?]|[[? ?]|(e1 & e2 & ? & ? & ? & ?)]]; congruence. }
  split; [|done]. destruct Hinv as [He Hf Hu Hm]. split; [|done..]. intros n e' He'. apply Hfrom in He' as (e & Hne & -> & ->).
  destruct (He _ _ Hne) as (Ha & Hc & i & Hi & Hni & Hall). split; [done|]. split; [done|]. exists i. split; [done|]. split; [done|].
  eapply Forall_impl; [exact Hall|]. intros l [?|[m Hm']]; [by left|right]. exists m. eapply resolved_evolves; [done|set_solver|done].
Qed.

Lemma inv_DepPtrs h cm F U ds ls h' : inv (h, cm) F U → DepPtrs Name ApiType ds h = (ls, h') →
  inv (h', cm) (F ∪ list_to_set ls) (U ∪ list_to_set ls) ∧ evolves ∅ (h, cm) (h', cm).
Proof.
  intros Hinv Hds. apply DepPtrs_spec in Hds as (Hnd & Hdd & Hdc & Hsd & Hsc & Hmade & Hall).
  assert (Hg : evolves ∅ (h, cm) (h', cm)).
  { split; cbn; eauto using lookup_weaken. by apply subseteq_dom. }
  split; [|done]. destruct Hinv as [He Hf Hu Hm]. split; cbn.
  - intros n e Hne. destruct (He _ _ Hne) as (Ha & Hc & i & Hi & Hni & Hds'). split; [done|]. split.
    { cbn in Hi. apply elem_of_dom_2 in Hi. set_solver. }
    exists i. split; [by eapply lookup_weaken|]. split; [done|]. eapply Forall_impl; [exact Hds'|].
    intros l [?|[m Hm']]; [set_solver|right]. exists m. eapply resolved_evolves; [done|set_solver|done].
  - intros l [Hl|Hl]%elem_of_union.
    + destruct (Hf l Hl) as (Hd & i & Hi & Hni). split; [by eapply lookup_weaken|]. exists i. split; [by eapply lookup_weaken|done].
    + apply elem_of_list_to_set in Hl. apply list_elem_of_lookup in Hl as [k Hk].
      destruct (Forall2_lookup_l _ _ _ _ _ Hall Hk) as (d & _ & Hd & Hi). eauto.
  - apply union_subseteq. split; [etrans; [exact Hu|by apply subseteq_dom]|]. intros l Hl%elem_of_list_to_set.
    apply list_elem_of_lookup in Hl as [k Hk]. destruct (Forall2_lookup_l _ _ _ _ _ Hall Hk) as (d & _ & Hd & _). by apply elem_of_dom_2 in Hd.
  - intros l i [Hi|?]%Hmade; [|done]. eauto.
Qed.

Lemma inv_set h cm F U l n e i : inv (h, cm) F U → l ∉ F → cm !! n = Some (Some e) → components h !! l = Some i → name i = n →
  match set l (comp e) (comp e) h with
  | Panic msg => msg = incompatible ∧ ∃ d d', Name d = Name d' ∧ ApiType d ≠ ApiType d'
  | Ret h' => inv (h', cm) F (U ∖ {[l]}) ∧ evolves {[l]} (h, cm) (h', cm) ∧ resolved (h', cm) l n ∧ components h' = components h
  end.
Proof.
  intros Hinv Hl He Hi Hn. destruct (inv_entry _ _ _ Hinv _ _ He) as (Ha & Hc & i' & Hi' & Hn' & _). cbn in Hi'.
  unfold set, component. rewrite Hi, Hi'. cbn. case_decide as Ht.
  2: { split; [done|]. destruct (inv_made _ _ _ Hinv _ _ Hi) as (d & Hd & Htd), (inv_made _ _ _ Hinv _ _ Hi') as (d' & Hd' & Htd').
       exists d, d'. split; [congruence|]. intros He'. apply Ht. congruence. }
  set (h' := {| declareds := _; components := _ |}).
  assert (Hres : resolved (h', cm) l n) by (exists e, i; repeat split; [done|by apply lookup_insert_eq|done..]).
  assert (Hg : evolves {[l]} (h, cm) (h', cm)).
  { split; cbn; eauto; [|set_solver]. intros l' d Hl' Hd. rewrite lookup_insert_ne; [done|set_solver]. }
  split; [|done]. destruct Hinv as [Hent Hf Hu Hm]. split; cbn; [| | |done].
  - intros n1 e1 He1. destruct (Hent _ _ He1) as (Ha1 & Hc1 & i1 & Hi1 & Hni1 & Hds). split; [done|]. split; [done|].
    exists i1. split; [done|]. split; [done|]. eapply Forall_impl; [exact Hds|]. intros l1 Hl1.
    destruct (decide (l1 = l)) as [->|Hne]; [by right; exists n|]. destruct Hl1 as [?|[m Hm']]; [left; set_solver|right].
    exists m. eapply resolved_evolves; [done|set_solver|done].
  - intros l1 Hl1. destruct (Hf _ Hl1) as [Hd1 Hi1]. split; [|done]. rewrite lookup_insert_ne; [done|set_solver].
  - cbn in Hu. set_solver.
Qed.

(** The instance that a declaration is merged into. *)
Lemma inv_merge h cm F U c n e i args ls : inv (h, cm) F U → cm !! n = Some (Some e) → comp e = c → components h !! c = Some i →
  list_to_set ls ⊆ U →
  let h' := {| declareds := declareds h;
    components := <[c := {| name := name i; apiType := apiType i; Args := args; Deps := Deps i ++ ls |}]> (components h) |} in
  inv (h', cm) F U ∧ evolves ∅ (h, cm) (h', cm).
Proof.
  intros Hinv He Hce Hi Hls h'. set (i1 := {| name := _ |}) in h'.
  assert (Hg : evolves ∅ (h, cm) (h', cm)).
  { split; cbn; eauto.
    - intros l i' Hi'. rewrite lookup_insert. case_decide; [|eauto]. exists i1. split; [done|]. split; cbn; congruence.
    - intros l i' _ Hr Hi'. split; [|done]. rewrite lookup_insert_ne; [done|]. intros <-. apply Hr. by exists n, e. }
  split; [|done]. destruct Hinv as [Hent Hf Hu Hm]. split; cbn; [| |done|].
  - intros n1 e1 He1. destruct (Hent _ _ He1) as (Ha1 & Hc1 & i2 & Hi2 & Hni2 & Hds). split; [done|]. split; [done|].
    assert (Hds' : Forall (λ l, l ∈ U ∨ ∃ m, resolved (h', cm) l m) (Deps i2)).
    { eapply Forall_impl; [exact Hds|]. intros l1 [?|[m Hm']]; [by left|right]. exists m. eapply resolved_evolves; [done|set_solver|done]. }
    rewrite lookup_insert. case_decide as Hcc; [|eauto]. cbn in Hi2. rewrite <- Hcc, Hi in Hi2. injection Hi2 as <-.
    exists i1. split; [done|]. split; [done|]. apply Forall_app. split; [done|]. apply Forall_forall. set_solver.
  - intros l Hl. destruct (Hf l Hl) as (Hd & i2 & Hi2 & Hn2). split; [done|].
    destruct (Hent _ _ He) as (_ & Hne & _). rewrite lookup_insert_ne; [eauto|]. intros <-. by rewrite Hce in Hne.
  - intros l i2. rewrite lookup_insert. case_decide; [|eauto]. intros [= <-]. cbn. by apply (Hm c).
Qed.

(** A new component, while its dependencies are resolved. *)
Lemma inv_hold h cm F U l n i ls : inv (h, cm) F U → l ∉ F → ¬ registered (h, cm) l → cm !! n = None → components h !! l = Some i →
  let h' := {| declareds := declareds h;
    components := <[l := {| name := name i; apiType := apiType i; Args := Args i; Deps := ls |}]> (components h) |} in
  inv (h', <[n := None]> cm) F U ∧ evolves {[l]} (h, cm) (h', <[n := None]> cm) ∧ ¬ registered (h', <[n := None]> cm) l.
Proof.
  intros Hinv Hl Hr Hcm Hi h'. set (i1 := {| name := _ |}) in h'. set (cm' := <[n := None]> cm).
  assert (Hent' : ∀ n1 e1, cm' !! n1 = Some (Some e1) → cm !! n1 = Some (Some e1)).
  { intros n1 e1 [[_ [=]]|[_ ?]]%lookup_insert_Some. done. }
  assert (Hg : evolves {[l]} (h, cm) (h', cm')).
  { split; cbn; eauto.
    - intros l1 i' Hi'. rewrite lookup_insert. case_decide; [|eauto]. exists i1. split; [done|]. split; cbn; congruence.
    - intros l1 i' Hl1 Hr1 Hi'. split; [rewrite lookup_insert_ne; [done|set_solver]|]. intros (n1 & e1 & He1 & Hc1).
      apply Hr1. exists n1, e1. split; [by apply Hent'|done].
    - intros n1 e1 He1. exists e1. split; [|done]. unfold cm'. rewrite lookup_insert_ne; [done|]. intros <-. by rewrite Hcm in He1.
    - intros n1 Hn1. unfold cm'. rewrite lookup_insert. by case_decide. }
  split; [|split; [done|]].
  2: { intros (n1 & e1 & He1 & Hc1). apply Hr. exists n1, e1. split; [by apply Hent'|done]. }
  destruct Hinv as [Hent Hf Hu Hm]. split; cbn; [| |done|].
  - intros n1 e1 He1%Hent'. destruct (Hent _ _ He1) as (Ha1 & Hc1 & i2 & Hi2 & Hni2 & Hds). split; [done|]. split; [done|].
    exists i2. split; [rewrite lookup_insert_ne; [done|]|split; [done|]].
    { intros ->. apply Hr. by exists n1, e1. }
    eapply Forall_impl; [exact Hds|]. intros l1 [?|[m (e2 & i3 & He2 & Hd2 & Hi3 & Hn3)]]; [by left|right]. exists m.
    destruct (evolves_component _ _ _ Hg _ _ Hi3) as (i4 & Hi4 & Hn4 & _). exists e2, i4. cbn. rewrite Hn4.
    repeat split; [|done..]. unfold cm'. rewrite lookup_insert_ne; [done|]. intros <-. cbn in *. congruence.
  - intros l1 Hl1. destruct (Hf l1 Hl1) as (Hd & i2 & Hi2 & Hn2). split; [done|]. rewrite lookup_insert_ne; [eauto|set_solver].
  - intros l1 i2. rewrite lookup_insert. case_decide; [|eauto]. intros [= <-]. cbn. by apply (Hm l).
Qed.

(** It is registered. *)
Lemma inv_register h cm F U n i e : inv (h, cm) F U → cm !! n = Some None → comp e ∉ F → apiGetter e = comp e →
  components h !! comp e = Some i → name i = n → Forall (λ l, ∃ m, resolved (h, cm) l m) (Deps i) →
  inv (h, <[n := Some e]> cm) F U ∧ ∀ l m, resolved (h, cm) l m → resolved (h, <[n := Some e]> cm) l m.
Proof.
  intros Hinv Hcm Hl Ha Hi Hn Hds. set (cm' := <[n := Some e]> cm).
  assert (Hres : ∀ l m, resolved (h, cm) l m → resolved (h, cm') l m).
  { intros l m (e1 & i1 & He1 & Hrest). exists e1, i1. split; [|done]. cbn. unfold cm'. rewrite lookup_insert_ne; [done|].
    intros <-. cbn in He1. by rewrite Hcm in He1. }
  split; [|done]. destruct Hinv as [Hent Hf Hu Hm]. split; [|done..]. cbn.
  intros n1 e1 [[<- [= <-]]|[_ He1]]%lookup_insert_Some.
  - split; [done|]. split; [done|]. exists i. split; [done|]. split; [done|]. eapply Forall_impl; [exact Hds|]. intros l [m Hm']. eauto.
  - destruct (Hent _ _ He1) as (Ha1 & Hc1 & i2 & Hi2 & Hni2 & Hds2). split; [done|]. split; [done|]. exists i2. split; [done|].
    split; [done|]. eapply Forall_impl; [exact Hds2|]. intros l [?|[m ?]]; [by left|right; eauto].
Qed.

(** *** Simulation, step by step *)
Lemma sim_lookup s cmC n : sim s cmC →
  match s.2 !! n, cmC !! n with
  | None, None | Some None, Some None => True
  | Some (Some e), Some (Some eC) => sim_entry s.1 (Some e) (Some eC)
  | _, _ => False
  end.
Proof.
  intros Hs. specialize (Hs n). destruct (s.2 !! n) as [[e|]|], (cmC !! n) as [[eC|]|]; inversion_clear Hs as [? ? He|]; done.
Qed.

Lemma sim_heap h h' cm cmC : (∀ n e, cm !! n = Some (Some e) → Args <$> components h' !! comp e = Args <$> components h !! comp e) →
  sim (h, cm) cmC → sim (h', cm) cmC.
Proof.
  intros Hh Hs n. specialize (Hh n). specialize (Hs n). cbn in *.
  destruct (cm !! n) as [[e|]|], (cmC !! n) as [[eC|]|]; inversion_clear Hs as [? ? He|]; constructor; try done.
  cbn in *. by rewrite (Hh e eq_refl).
Qed.

Lemma sim_insert h cm cmC n e eC : sim_entry h e eC → sim (h, cm) cmC → sim (h, <[n := e]> cm) (<[n := eC]> cmC).
Proof. intros He Hs n'. cbn. rewrite !lookup_insert. case_decide; [by constructor|apply Hs]. Qed.

Lemma sim_alter h cm cmC n f fC : (∀ e eC, sim_entry h (Some e) (Some eC) → sim_entry h (Some (f e)) (Some (fC eC))) →
  sim (h, cm) cmC → sim (h, alter (fmap f) n cm) (alter (fmap fC) n cmC).
Proof.
  intros Hf Hs n'. specialize (Hs n'). cbn in *. rewrite !lookup_alter. case_decide as Hn; [subst n'|done].
  destruct (cm !! n) as [[e|]|], (cmC !! n) as [[eC|]|]; inversion_clear Hs as [? ? He|]; constructor; try done. by apply Hf.
Qed.

Lemma sim_merge h cm cmC F U n e i args l1 : inv (h, cm) F U → cm !! n = Some (Some e) → components h !! comp e = Some i → sim (h, cm) cmC →
  sim ({| declareds := declareds h;
    components := <[comp e := {| name := name i; apiType := apiType i; Args := args; Deps := l1 |}]> (components h) |}, cm)
    (alter (fmap (merge_comp args)) n cmC).
Proof.
  intros Hinv He Hi Hs n'. specialize (Hs n'). cbn in *. rewrite lookup_alter.
  destruct (inv_entry _ _ _ Hinv _ _ He) as (_ & _ & i1 & Hi1 & Hn1 & _). cbn in Hi1. case_decide as Hnn.
  - subst n'. rewrite He in Hs |- *. destruct (cmC !! n) as [[eC|]|]; inversion_clear Hs as [? ? Hx|]; try by destruct Hx. constructor. cbn in *.
    rewrite lookup_insert_eq. split; [done|apply Hx].
  - destruct (cm !! n') as [[e'|]|] eqn:He', (cmC !! n') as [[eC|]|]; inversion_clear Hs as [? ? Hx|]; constructor; try done. cbn in *.
    destruct (inv_entry _ _ _ Hinv _ _ He') as (_ & _ & i2 & Hi2 & Hn2 & _). cbn in Hi2. rewrite lookup_insert_ne; [done|]. congruence.
Qed.

(** *** Running both *)
Definition matches {A B} (P : A → B → Prop) (r : run A) (rC : run B) : Prop :=
  match r with
  | None => rC = None
  | Some (Panic msg) => rC = Some (Panic msg) ∨ (msg = incompatible ∧ ∃ d d', Name d = Name d' ∧ ApiType d ≠ ApiType d')
  | Some (Ret a) => ∃ b, rC = Some (Ret b) ∧ P a b
  end.

Lemma matches_bind {A B A' B'} (P : A → B → Prop) (Q : A' → B' → Prop) r rC (f : A → run A') (g : B → run B') :
  matches P r rC → (∀ a b, P a b → matches Q (f a) (g b)) → matches Q (r ≫= f) (rC ≫= g).
Proof.
  destruct r as [[a|msg]|]; cbn.
  - intros (b & -> & HP) Hf. by apply Hf.
  - intros [->|?] _; cbn; [by left|by right].
  - by intros ->.
Qed.

(** What a request leads to. *)
Definition answers F U s l : string * loc * loc * state → string * plainMap → Prop := λ '(n, c, a, s') '(nC, cmC'),
  n = nC ∧ inv s' (F ∖ {[l]}) U ∧ evolves {[l]} s s' ∧ sim s' cmC' ∧ (∃ e, s'.2 !! n = Some (Some e) ∧ comp e = c ∧ a = c) ∧
  ∃ i, components s.1 !! l = Some i ∧ name i = n.
Definition resolves (resolve : state → loc → run (string * loc * loc * state)) (resolveC : plainMap → Decl → run (string * plainMap)) : Prop :=
  ∀ s cmC F U l i, inv s F U → sim s cmC → l ∈ F → components s.1 !! l = Some i →
    matches (answers F U s l) (resolve s l) (resolveC cmC (Args i)).

Definition counts {S} (onDep : string → gmap string (option Handles.componentMapEntry) * S → gmap string (option Handles.componentMapEntry) * S)
    (onDepC : string → plainMap * S → plainMap * S) : Prop :=
  ∀ n h cm cmC acc, sim (h, cm) cmC → same_shape cm (onDep n (cm, acc)).1 ∧ sim (h, (onDep n (cm, acc)).1) (onDepC n (cmC, acc)).1 ∧
    (onDep n (cm, acc)).2 = (onDepC n (cmC, acc)).2.

Lemma held_args X s s' ls (ds : list Decl) : evolves X s s' → (∀ l, l ∈ ls → l ∉ X ∧ ¬ registered s l) →
  Forall2 (λ l d, Args <$> components s.1 !! l = Some d) ls ds → Forall2 (λ l d, Args <$> components s'.1 !! l = Some d) ls ds.
Proof.
  intros Hg Hls Hds. induction Hds as [|l d ls ds Hd Hds IH]; constructor; [|apply IH; set_solver].
  apply fmap_Some in Hd as (i & Hi & ->). destruct (Hls l ltac:(left)) as [HX Hr].
  destruct (evolves_held _ _ _ Hg l i HX Hr Hi) as [-> _]. done.
Qed.

Lemma resolveLoop_matches {S} resolve resolveC (onDep : _ → _ * S → _ * S) onDepC : resolves resolve resolveC → counts onDep onDepC →
  ∀ requests ds s cmC F U acc, inv s F U → sim s cmC → NoDup requests → list_to_set requests ⊆ F →
  Forall2 (λ l d, Args <$> components s.1 !! l = Some d) requests ds →
  matches (λ '(s', acc') '(cmC', accC), acc' = accC ∧ inv s' (F ∖ list_to_set requests) (U ∖ list_to_set requests) ∧ sim s' cmC' ∧
      evolves (list_to_set requests) s s' ∧ Forall (λ l, ∃ m, resolved s' l m) requests)
    (Handles.resolveLoop resolve onDep requests s acc) (Component.resolveLoop resolveC onDepC ds (cmC, acc)).
Proof.
  intros Hres Hcnt requests. induction requests as [|l requests IH]; intros ds s cmC F U acc Hinv Hsim Hnd HF Hds;
    apply Forall2_cons_inv_l in Hds as Hds' || apply Forall2_nil_inv_l in Hds as ->.
  { cbn. eexists; split; [done|]. cbn. split; [done|]. rewrite !difference_empty_L.
    split; [exact Hinv|]. split; [exact Hsim|]. split; [apply evolves_refl|by constructor]. }
  clear Hds. destruct Hds' as (d & ds' & Hd & Hds & ->). apply NoDup_cons in Hnd as [Hl Hnd].
  apply fmap_Some in Hd as (i & Hi & ->). cbn [Handles.resolveLoop Component.resolveLoop list_to_set] in *.
  eapply matches_bind; [apply (Hres s cmC F U l i); [done|done|set_solver|done]|].
  intros [[[n c] a] [h1 cm1]] [nC cmC1] (<- & Hinv1 & Hg1 & Hsim1 & (e & He & Hc & Ha) & (i' & Hi' & Hn)). cbn in He, Hinv1, Hsim1. subst c a.
  rewrite Hi in Hi'. injection Hi' as <-. destruct (evolves_component _ _ _ Hg1 _ _ Hi) as (i1 & Hi1 & Hn1 & _). cbn in Hi1.
  pose proof (inv_set h1 cm1 _ U l n e i1 Hinv1 ltac:(set_solver) He Hi1 ltac:(congruence)) as Hset.
  destruct (Handles.set l (comp e) (comp e) h1) as [h2|msg]; [|destruct Hset as [-> Ht]; right; split; [done|exact Ht]].
  destruct Hset as (Hinv2 & Hg2 & Hr2 & Hcomp2). cbn.
  assert (Hsim2 : sim (h2, cm1) cmC1) by (eapply sim_heap; [|exact Hsim1]; intros; by rewrite Hcomp2).
  destruct (Hcnt n h2 cm1 cmC1 acc Hsim2) as (Hshape & Hsim3 & Hacc).
  destruct (onDep n (cm1, acc)) as [cm2 acc2], (onDepC n (cmC1, acc)) as [cmC2 accC]. cbn in Hshape, Hsim3, Hacc. subst accC.
  destruct (inv_shape _ _ _ _ _ Hinv2 Hshape) as [Hinv3 Hg3].
  assert (Hg : evolves {[l]} s (h2, cm2)).
  { pose proof (evolves_trans _ _ _ _ _ Hg1 (evolves_trans _ _ _ _ _ Hg2 Hg3)) as Hg.
    replace ({[l]} ∪ ({[l]} ∪ ∅)) with ({[l]} : gset loc) in Hg by set_solver. done. }
  pose proof (IH ds' (h2, cm2) cmC2 _ _ acc2 Hinv3 Hsim3 Hnd ltac:(set_solver)) as Hrest.
  assert (Hds2 : Forall2 (λ l d, Args <$> components (h2, cm2).1 !! l = Some d) requests ds').
  { eapply held_args; [exact Hg| |done]. intros l' Hl'. split; [set_solver|]. intros (n' & e' & He' & <-).
    destruct (inv_entry _ _ _ Hinv _ _ He') as (_ & Hne & _). set_solver. }
  specialize (Hrest Hds2). destruct (Handles.resolveLoop _ _ _ _ _) as [[[s' acc']|msg]|]; cbn in Hrest |- *; [|done|done].
  destruct Hrest as ([cmC' accC] & -> & -> & Hinv' & Hsim' & Hg' & Hall). exists (cmC', accC). split; [done|]. split; [done|].
  split; [|split; [done|split]].
  - rewrite !difference_difference_l_L in Hinv'. done.
  - by eapply evolves_trans.
  - constructor; [|done]. exists n. eapply resolved_evolves; [exact Hg'|set_solver|]. eapply resolved_evolves; [exact Hg3|set_solver|done].
Qed.

Lemma evolves_register X s h cm n e : evolves X s (h, cm) → s.2 !! n = None → comp e ∈ X → evolves X s (h, <[n := Some e]> cm).
Proof.
  intros Hg Hn He. split; try by destruct Hg.
  - intros l i Hl Hr Hi. destruct (evolves_held _ _ _ Hg l i Hl Hr Hi) as [Hi' Hr']. split; [done|]. intros (n1 & e1 & He1 & Hc1).
    cbn in He1. apply lookup_insert_Some in He1 as [[<- [= <-]]|[_ He1]]; [congruence|]. apply Hr'. by exists n1, e1.
  - intros n1 e1 He1. destruct (evolves_entry _ _ _ Hg _ _ He1) as (e' & He' & Hc'). exists e'. split; [|done]. cbn in *.
    rewrite lookup_insert_ne; [done|]. intros <-. congruence.
  - intros n1 Hn1. cbn. rewrite lookup_insert_ne; [by apply (evolves_pending _ _ _ Hg)|]. intros <-. congruence.
Qed.

Lemma Forall2_impl_elem {A B} (P Q : A → B → Prop) l k : Forall2 P l k → (∀ x y, x ∈ l → P x y → Q x y) → Forall2 Q l k.
Proof. induction 1; intros HPQ; constructor; [apply HPQ; [left|done]|]. apply IHForall2. intros; apply HPQ; [by right|done]. Qed.

(** A component that is new, or that another one is merged into. *)
Variables (dependencies : Decl → list Decl) (mergeInto : Decl → Decl → outcome (Decl * list Decl)).
Lemma new_matches fuel requester n l i F U h cm cmC :
  resolves (λ s dep, Handles.resolveRequest Name ApiType dependencies mergeInto fuel s dep n)
    (λ cmC dep, Component.resolveRequest Name dependencies mergeInto fuel cmC dep n) →
  inv (h, cm) F U → sim (h, cm) cmC → l ∈ F → components h !! l = Some i → name i = n → cm !! n = None →
  matches (answers F U (h, cm) l)
    ('(requests, h) ← (Some (impl_dependencies Name ApiType dependencies l h) : run (list loc * heap));
     '((h, cm), requestTimes) ← Handles.resolveLoop (λ s dep, Handles.resolveRequest Name ApiType dependencies mergeInto fuel s dep n)
       (λ depName '(cm, times), (cm, increment depName times)) requests (h, <[n := None]> cm) ∅;
     mret (n, l, l, (h, <[n := Some {| comp := l; apiGetter := l; requesters := {[ requester := 1 ]}; deps := requestTimes |}]> cm)))
    ('(cm, requestTimes) ← Component.resolveLoop (λ cmC dep, Component.resolveRequest Name dependencies mergeInto fuel cmC dep n)
       (λ depName '(cm, times), (cm, increment depName times)) (dependencies (Args i)) (<[n := None]> cmC, ∅);
     mret (n, <[n := Some {| Component.comp := Args i; Component.requesters := {[ requester := 1 ]}; Component.deps := requestTimes |}]> cm)).
Proof.
  intros Hres Hinv Hsim Hl Hi Hn Hcm. unfold impl_dependencies, component. rewrite Hi. cbn.
  destruct (DepPtrs Name ApiType (dependencies (Args i)) h) as [ls h1] eqn:Hds. cbn.
  destruct (inv_DepPtrs _ _ _ _ _ _ _ Hinv Hds) as [Hinv1 Hg1]. apply DepPtrs_spec in Hds as (Hnd & Hdd & Hdc & Hsd & Hsc & Hmade & Hall).
  assert (Hi1 : components h1 !! l = Some i) by by eapply lookup_weaken.
  assert (Hnr : ¬ registered (h1, cm) l).
  { intros (n1 & e1 & He1 & <-). by destruct (inv_entry _ _ _ Hinv _ _ He1) as (_ & ? & _). }
  assert (Hlls : l ∉ ls) by (apply elem_of_dom_2 in Hi; set_solver).
  assert (HF : ∀ x, x ∈ F → x ∉ ls).
  { intros x Hx. destruct (inv_fresh _ _ _ Hinv x Hx) as [Hx1%elem_of_dom_2 _]. set_solver. }
  assert (HU : ∀ x, x ∈ U → x ∉ ls) by (intros x Hx%(inv_unset _ _ _ Hinv); set_solver).
  assert (Hinv1' : inv (h1, cm) ((F ∖ {[l]}) ∪ list_to_set ls) (U ∪ list_to_set ls)).
  { destruct Hinv1 as [Hent Hf Hu Hm]. split; [|intros; apply Hf; set_solver|done..]. intros n1 e1 He1.
    destruct (Hent _ _ He1) as (? & ? & ?). split; [done|]. split; [set_solver|done]. }
  destruct (inv_hold h1 cm _ _ l n i ls Hinv1' ltac:(set_solver) Hnr Hcm Hi1) as (Hinv2 & Hg2 & Hnr2).
  set (h2 := {| declareds := declareds h1; components := _ |}) in *.
  assert (Hsim2 : sim (h2, <[n := None]> cm) (<[n := None]> cmC)).
  { apply sim_insert; [done|]. eapply sim_heap; [|exact Hsim]. intros n1 e1 He1.
    destruct (inv_entry _ _ _ Hinv _ _ He1) as (_ & Hne & i1 & Hi1' & _). cbn in *.
    rewrite lookup_insert_ne; [|intros ->; by apply Hne]. by rewrite Hi1', (lookup_weaken _ _ _ _ Hi1' Hsc). }
  eapply matches_bind; [eapply (resolveLoop_matches _ _ _ _ Hres); [|exact Hinv2|exact Hsim2|exact Hnd|set_solver|]|].
  { intros n1 h' cm' cmC' acc Hs. split; [apply same_shape_refl|]. by split. }
  { eapply Forall2_impl_elem; [exact Hall|]. cbn. intros l' d Hl' [_ Hi']. rewrite lookup_insert_ne by (by intros ->). by rewrite Hi'. }
  intros [[h3 cm3] times] [cmC3 timesC] (-> & Hinv3 & Hsim3 & Hg3 & Hres3). cbn. eexists. split; [done|]. cbn. split; [done|].
  destruct (evolves_held _ _ _ Hg3 l {| name := name i; apiType := apiType i; Args := Args i; Deps := ls |}) as [Hi3 Hnr3];
    [by rewrite elem_of_list_to_set|exact Hnr2|cbn; by rewrite lookup_insert_eq|]. cbn in Hi3.
  set (e := {| comp := l; apiGetter := l; requesters := _; deps := timesC |}).
  assert (Hcm3 : cm3 !! n = Some None) by (apply (evolves_pending _ _ _ Hg3); cbn; by rewrite lookup_insert_eq).
  assert (HsetF : ((F ∖ {[l]}) ∪ list_to_set ls) ∖ list_to_set ls = F ∖ {[l]}) by set_solver.
  assert (HsetU : (U ∪ list_to_set ls) ∖ list_to_set ls = U) by set_solver.
  rewrite HsetF, HsetU in Hinv3.
  destruct (inv_register h3 cm3 _ _ n _ e Hinv3 Hcm3 ltac:(cbn; set_solver) eq_refl Hi3 Hn Hres3) as [Hinv4 Hres4].
  split; [done|]. split; [|split; [|split]].
  - apply evolves_register; [|done|cbn; set_solver]. apply (evolves_weaken _ (list_to_set ls)); [|done..].
    pose proof (evolves_trans _ _ _ _ _ (evolves_trans _ _ _ _ _ Hg1 Hg2) Hg3) as Hg. by rewrite union_empty_l_L in Hg.
  - apply sim_insert; [|done]. cbn. by rewrite Hi3.
  - exists e. split; [by rewrite lookup_insert_eq|done].
  - eauto.
Qed.

Lemma merge_matches fuel requester n l i prev prevC F U h cm cmC :
  resolves (λ s dep, Handles.resolveRequest Name ApiType dependencies mergeInto fuel s dep n)
    (λ cmC dep, Component.resolveRequest Name dependencies mergeInto fuel cmC dep n) →
  inv (h, cm) F U → sim (h, cm) cmC → l ∈ F → components h !! l = Some i → name i = n →
  cm !! n = Some (Some prev) → cmC !! n = Some (Some prevC) →
  matches (answers F U (h, cm) l)
    ('(merged, h) ← (Some (impl_mergeInto Name ApiType mergeInto l (comp prev) h) : run (list loc * heap));
     '((h, cm), _) ← Handles.resolveLoop (λ s dep, Handles.resolveRequest Name ApiType dependencies mergeInto fuel s dep n)
       (λ depName '(cm, u), (alter (fmap (Handles.add_dep depName)) n cm, u)) merged (h, cm) tt;
     mret (n, comp prev, apiGetter prev, (h, alter (fmap (Handles.add_requester requester)) n cm)))
    ('(other, merged) ← (Some (mergeInto (Args i) (Component.comp prevC)) : run (Decl * list Decl));
     '(cm, _) ← Component.resolveLoop (λ cmC dep, Component.resolveRequest Name dependencies mergeInto fuel cmC dep n)
       (λ depName '(cm, u), (alter (fmap (Component.add_dep depName)) n cm, u)) merged (alter (fmap (merge_comp other)) n cmC, tt);
     mret (n, alter (fmap (Component.add_requester requester)) n cm)).
Proof.
  intros Hres Hinv Hsim Hl Hi Hn Hcm HcmC. destruct (inv_entry _ _ _ Hinv _ _ Hcm) as (Ha & Hc & j & Hj & Hnj & _). cbn in Hj.
  pose proof (sim_lookup _ _ n Hsim) as Hent. cbn in Hent. rewrite Hcm, HcmC in Hent. destruct Hent as (Hargs & _). rewrite Hj in Hargs.
  injection Hargs as Hargs. unfold impl_mergeInto, component. rewrite Hi, Hj. cbn. rewrite Hargs.
  destruct (mergeInto (Args i) (Component.comp prevC)) as [[other merged]|msg]; cbn; [|by left].
  destruct (DepPtrs Name ApiType merged h) as [ls h1] eqn:Hds. cbn.
  destruct (inv_DepPtrs _ _ _ _ _ _ _ Hinv Hds) as [Hinv1 Hg1]. apply DepPtrs_spec in Hds as (Hnd & Hdd & Hdc & Hsd & Hsc & Hmade & Hall).
  assert (Hj1 : components h1 !! comp prev = Some j) by by eapply lookup_weaken.
  assert (HF : ∀ x, x ∈ F → x ∉ ls).
  { intros x Hx. destruct (inv_fresh _ _ _ Hinv x Hx) as [Hx1%elem_of_dom_2 _]. set_solver. }
  assert (HU : ∀ x, x ∈ U → x ∉ ls) by (intros x Hx%(inv_unset _ _ _ Hinv); set_solver).
  assert (Hcls : comp prev ∉ ls) by (apply elem_of_dom_2 in Hj; set_solver).
  destruct (inv_merge h1 cm _ _ (comp prev) n prev j other ls Hinv1 Hcm eq_refl Hj1 ltac:(set_solver)) as [Hinv2 Hg2].
  set (h2 := {| declareds := declareds h1; components := _ |}) in *.
  assert (Hsim2 : sim (h2, cm) (alter (fmap (merge_comp other)) n cmC)).
  { eapply sim_merge; [exact Hinv1|done..|]. eapply sim_heap; [|exact Hsim]. intros n1 e1 He1.
    destruct (inv_entry _ _ _ Hinv _ _ He1) as (_ & Hne & i1 & Hi1' & _). cbn in *.
    by rewrite Hi1', (lookup_weaken _ _ _ _ Hi1' Hsc). }
  eapply matches_bind; [eapply (resolveLoop_matches _ _ _ _ Hres); [|exact Hinv2|exact Hsim2|exact Hnd|set_solver|]|].
  { intros n1 h' cm' cmC' acc Hs. split; [by apply same_shape_alter|]. split; [|done]. apply sim_alter; [|done].
    intros e eC (? & ? & Hd). cbn. rewrite Hd. done. }
  { eapply Forall2_impl_elem; [exact Hall|]. cbn. intros l' d Hl' [_ Hi']. rewrite lookup_insert_ne by (by intros <-). by rewrite Hi'. }
  intros [[h3 cm3] []] [cmC3 []] (_ & Hinv3 & Hsim3 & Hg3 & _). cbn. eexists. split; [done|]. cbn. split; [done|].
  assert (HsetF : (F ∪ list_to_set ls) ∖ list_to_set ls = F) by set_solver.
  assert (HsetU : (U ∪ list_to_set ls) ∖ list_to_set ls = U) by set_solver.
  rewrite HsetF, HsetU in Hinv3.
  destruct (inv_shape h3 cm3 _ _ _ Hinv3 (same_shape_alter (Handles.add_requester requester) n cm3 ltac:(done))) as [Hinv4 Hg4].
  assert (Hg : evolves ∅ (h, cm) (h3, alter (fmap (Handles.add_requester requester)) n cm3)).
  { apply (evolves_weaken _ (list_to_set ls)); [|done..].
    pose proof (evolves_trans _ _ _ _ _ (evolves_trans _ _ _ _ _ (evolves_trans _ _ _ _ _ Hg1 Hg2) Hg3) Hg4) as Hg.
    rewrite union_empty_l_L. by rewrite !union_empty_l_L, union_empty_r_L in Hg. }
  split; [|split; [|split; [|split]]].
  - destruct Hinv4 as [Hent Hf Hu Hm]. split; [|intros; apply Hf; set_solver|done..]. intros n1 e1 He1.
    destruct (Hent _ _ He1) as (? & ? & ?). split; [done|]. split; [set_solver|done].
  - pose proof (evolves_trans _ _ _ _ _ (evolves_refl _ : evolves ∅ (h, cm) _) Hg) as Hg'. split; try by destruct Hg.
    + intros l' d _. by apply (evolves_declared _ _ _ Hg).
    + intros l' i' _. by apply (evolves_held _ _ _ Hg).
  - apply sim_alter; [|done]. intros e eC (? & Hr & ?). cbn. rewrite Hr. done.
  - destruct (evolves_entry _ _ _ Hg n prev Hcm) as (e' & He' & Hce'). exists e'. split; [done|]. split; congruence.
  - eauto.
Qed.

Lemma resolveRequest_matches fuel : ∀ requester,
  resolves (λ s request, Handles.resolveRequest Name ApiType dependencies mergeInto fuel s request requester)
    (λ cmC request, Component.resolveRequest Name dependencies mergeInto fuel cmC request requester).
Proof.
  induction fuel as [|fuel IH]; intros requester [h cm] cmC F U l i Hinv Hsim Hl Hi; [done|].
  destruct (inv_fresh _ _ _ Hinv l Hl) as (Hd & i' & Hi' & Hn). cbn in Hd, Hi, Hi'. rewrite Hi in Hi'. injection Hi' as <-.
  cbn [Handles.resolveRequest Component.resolveRequest]. unfold GetNew, component. rewrite Hd. cbn. rewrite Hi. cbn. rewrite <- Hn.
  pose proof (sim_lookup _ _ (name i) Hsim) as Hent. cbn in Hent.
  destruct (cm !! name i) as [[prev|]|] eqn:Hcm, (cmC !! name i) as [[prevC|]|] eqn:HcmC; try done.
  - by eapply merge_matches.
  - by left.
  - by eapply new_matches.
Qed.

End handles_lemmas.

(** ** Properties *)

(** C28. Resolution with objects and handles does what resolution of [Component] does, step by step: it runs out of fuel, panics or
    returns with it, with the same components, data and counts, except that it also panics if two declarations of one name have APIs of
    different types. If it returns, every handle that main or a registered component got, by its dependencies or by merging, reads the
    instance that is registered under the name that was requested, so that all who request a name share one instance. *)
Theorem handles_refine {Decl Ty : Type} `{EqDecision Ty} (Name : Decl → string) (ApiType : Decl → Ty) (dependencies : Decl → list Decl)
    (mergeInto : Decl → Decl → outcome (Decl * list Decl)) (fuel : nat) (requests : list Decl) :
  match Handles.resolveMain Name ApiType dependencies mergeInto fuel requests with
  | None => Component.resolveMain Name dependencies mergeInto fuel requests = None
  | Some (Panic msg) => Component.resolveMain Name dependencies mergeInto fuel requests = Some (Panic msg) ∨
      (msg = Handles.incompatible ∧ ∃ d d', Name d = Name d' ∧ ApiType d ≠ ApiType d')
  | Some (Ret (handles, (h, cm))) =>
      (∃ cmC, Component.resolveMain Name dependencies mergeInto fuel requests = Some (Ret cmC) ∧ sim (h, cm) cmC) ∧
      Forall2 (λ dep d, ∃ e, cm !! Name d = Some (Some e) ∧ Handles.Get h dep = Some (Handles.comp e)) handles requests ∧
      ∀ n e, cm !! n = Some (Some e) → ∃ i, Handles.components h !! Handles.comp e = Some i ∧ Handles.name i = n ∧
        Forall (λ dep, ∃ m, resolved (h, cm) dep m) (Handles.Deps i)
  end.
Proof.
  unfold Handles.resolveMain, Component.resolveMain. set (h0 := {| Handles.declareds := ∅; Handles.components := ∅ |}).
  destruct (Handles.DepPtrs Name ApiType requests h0) as [ls h1] eqn:Hds.
  assert (Hinv0 : inv Name ApiType (h0, ∅) ∅ ∅) by (split; cbn; [by intros|set_solver|set_solver|by intros]).
  destruct (inv_DepPtrs Name ApiType _ _ _ _ _ _ _ Hinv0 Hds) as [Hinv1 _]. apply DepPtrs_spec in Hds as (Hnd & _ & _ & _ & _ & _ & Hall).
  assert (Hloop := resolveLoop_matches Name ApiType _ _ (λ _ acc, acc) (λ _ acc, acc)
    (resolveRequest_matches Name ApiType dependencies mergeInto fuel Component.mainRequester)
    ltac:(intros n h cm cmC acc Hs; split; [apply same_shape_refl|by split]) ls requests (h1, ∅) ∅ _ _ tt Hinv1
    ltac:(intros n; cbn; rewrite !lookup_empty; constructor) Hnd ltac:(set_solver)
    ltac:(eapply Forall2_impl; [exact Hall|]; cbn; intros l d [_ ->]; done)).
  unfold matches in Hloop.
  destruct (Handles.resolveLoop _ _ ls (h1, ∅) tt) as [[[[h cm] []]|msg]|]; cbn in Hloop |- *.
  - destruct Hloop as ([cmC []] & -> & _ & Hinv & Hsim & Hg & Hres). split; [by exists cmC|]. split.
    + rewrite Forall_forall in Hres. eapply Forall2_impl_elem; [exact Hall|]. cbn. intros l d Hl [_ Hi].
      destruct (Hres l Hl) as (m & e & i & He & Hd & Hi' & Hn). destruct (evolves_component _ _ _ Hg _ _ Hi) as (i' & Hi2 & Hn2 & _).
      cbn in *. rewrite Hi2 in Hi'. injection Hi' as ->. cbn in Hn2. exists e. rewrite <- Hn2, Hn. split; [done|].
      unfold Handles.Get. by rewrite Hd.
    + intros n e He. destruct (inv_entry _ _ _ _ _ Hinv _ _ He) as (_ & _ & i & Hi & Hn & Hds). exists i. split; [done|]. split; [done|].
      eapply Forall_impl; [exact Hds|]. intros l [Hl|?]; [set_solver|done].
  - destruct Hloop as [Hp|[-> Ht]]; [left; by rewrite Hp|by right].
  - by rewrite Hloop.
Qed.

(** A diamond: both ways lead to one instance. *)
Example handles_example :
  let deps (d : nat * nat) := match d.1 with 0 => [(1, 5); (2, 6)] | 1 => [(2, 7)] | _ => [] end in
  let name (d : nat * nat) := String (Ascii.ascii_of_nat (65 + d.1)) "" in
  let run ty := Handles.resolveMain name ty deps (λ _ other, Ret (other, [])) 9 [(0, 0); (2, 8)] in
  match run (λ _, 0) with
  | Some (Ret (handles, (h, _))) => (λ dep, Handles.Args <$> (Handles.Get h dep ≫= λ c, Handles.components h !! c)) <$> handles
  | _ => []
  end = [Some (0, 0); Some (2, 7)] ∧
  run snd = Some (Panic Handles.incompatible).
Proof. split; vm_compute; reflexivity. Qed.
