(* ===== verification/Mux.v ===== *)
(** * Mux: multiplexed interfaces (util/component/mux.go)

    An interface is declared under one name by those who need it ([ProvideMux]) and by each of its
    implementations ([DeclareMuxImpl]); the declarations are merged in the order of resolution, and a
    flag selects the implementation. Handles of components are the names of the components. *)

From S2P Require Import Prelude Util Errors Iter Flags Component.

Module Mux.

Record muxArgs : Type := {
  description : option string;
  impls : gmap string string;
  defaultOption : option string
}.

(** The component of the interface: its arguments and the handles of its dependencies. *)
Record muxComp : Type := { args : muxArgs; deps : gmap string string }.

(** A declaration by an implementation, or by someone who needs the interface. *)
Inductive muxDecl : Type :=
| DeclareMuxImpl (implName : string) (isDefault : bool)
| ProvideMux (description : string).

Section mux.
Context `{!GoRuntime}.
Variables (muxName : string) (Quote : string → string).

(** The name of the component of an implementation. *)
Definition implComponent (implName : string) : string := muxName +:+ "." +:+ implName.

(** Each implementation is requested. *)
Definition collectDeps (args : muxArgs) : list string * gmap string string := ((map_order (impls args)).*2, impls args).

(** The arguments of a declaration that is the first of its name. *)
Definition newArgs (decl : muxDecl) : muxArgs :=
  match decl with
  | DeclareMuxImpl implName isDefault => {| description := None; impls := {[ implName := implComponent implName ]};
      defaultOption := Optional.Filter (Some implName) (λ _, isDefault) |}
  | ProvideMux d => {| description := Some d; impls := ∅; defaultOption := None |}
  end.
Definition newComp (decl : muxDecl) : muxComp := {| args := newArgs decl; deps := (collectDeps (newArgs decl)).2 |}.

(** A declaration of a name that is there already; it updates the component and may request one more dependency. *)
Definition onMerge (decl : muxDecl) (prev : muxComp) : outcome (muxComp * list string) :=
  match decl with
  | DeclareMuxImpl implName isDefault =>
      let prevArgs := {| description := description (args prev);
        impls := <[implName := implComponent implName]> (impls (args prev)); defaultOption := defaultOption (args prev) |} in
      let prevDeps := <[implName := implComponent implName]> (deps prev) in
      prevArgs ← (if isDefault : bool then
                    if Optional.IsSome (defaultOption prevArgs) then Panic "multiple implementations provided as default"
                    else Ret {| description := description prevArgs; impls := impls prevArgs; defaultOption := Some implName |}
                  else Ret prevArgs);
      Ret ({| args := prevArgs; deps := prevDeps |}, [implComponent implName])
  | ProvideMux d => Ret ({| args := {| description := Some d; impls := impls (args prev);
      defaultOption := defaultOption (args prev) |}; deps := deps prev |}, [])
  end.

(** The component after the first declaration and the others, in this order. *)
Definition declareAll (first : muxDecl) (others : list muxDecl) : outcome muxComp :=
  outcome_foldl (λ comp decl, fst <$> onMerge decl comp) (newComp first) others.

(** The flag that selects an implementation; there is none unless someone needs the interface. *)
Definition addFlags (args : muxArgs) : outcome (option (Enum.EnumValue string)) :=
  match description args with
  | None => Ret None
  | Some _ =>
      let implNames := map_imap (λ key _, Some key) (impls args) in
      defaultName ← Optional.MustGet (defaultOption args) "no implementations provided as default";
      Ret (Some (Enum.Default (Enum.TypeName (Enum.EnumFromMap "string" implNames) "type") defaultName))
  end.

(** The value of the flag. *)
Definition selection (opt : option (Enum.EnumValue string)) : option string := opt ≫= Enum.selectedValue.

Definition getImpl (comp : muxComp) (opt : option (Enum.EnumValue string)) : outcome string :=
  selected ← Optional.MustGet (selection opt) "this interface was never requested";
  match deps comp !! selected with
  | Some handle => Ret handle
  | None => Panic "invalid memory address or nil pointer dereference"
  end.

Definition unrequestDeps (comp : muxComp) (opt : option (Enum.EnumValue string)) : list string :=
  Component.mux_unrequestDeps (impls (args comp)) (selection opt).

(** The flag after the values that it is given on the command line, or the error of the first one that names no implementation. *)
Fixpoint setAll (enum : Enum.EnumValue string) (inputs : list string) : Enum.EnumValue string + error :=
  match inputs with
  | [] => inl enum
  | input :: inputs =>
      match Enum.Set_ Quote enum input with
      | (None, enum) => setAll enum inputs
      | (Some err, _) => inr err
      end
  end.
Definition parse (opt : option (Enum.EnumValue string)) (inputs : list string) : option (Enum.EnumValue string) + error :=
  match opt with
  | None => inl None
  | Some enum => match setAll enum inputs with inl enum => inl (Some enum) | inr err => inr err end
  end.

End mux.
End Mux.

(** ** Lemmas *)
Section mux_lemmas.
Import Mux.
Context `{!GoRuntime}.
Variable muxName : string.
Implicit Types (d : muxDecl) (ds : list muxDecl) (comp : muxComp).

Definition impl_of d : option string := match d with DeclareMuxImpl implName _ => Some implName | ProvideMux _ => None end.
Definition default_of d : option string := match d with DeclareMuxImpl implName true => Some implName | _ => None end.
Definition needs d : bool := match d with ProvideMux _ => true | _ => false end.

(** What the declarations so far have led to. *)
Record merged ds comp : Prop := {
  merged_impls : ∀ name, impls (args comp) !! name = if decide (name ∈ omap impl_of ds) then Some (implComponent muxName name) else None;
  merged_deps : deps comp = impls (args comp);
  merged_default : omap default_of ds = Optional.AsSlice (defaultOption (args comp));
  merged_description : Optional.IsSome (description (args comp)) = existsb needs ds
}.

Lemma merged_new d : merged [d] (newComp muxName d).
Proof.
  destruct d as [name [|]|text]; split; try done; intros n; cbn; rewrite ?lookup_singleton, ?lookup_empty;
    repeat case_decide; subst; try done; set_solver.
Qed.

Lemma merged_onMerge ds d comp :
  merged ds comp →
  match onMerge muxName d comp with
  | Ret (comp', _) => merged (ds ++ [d]) comp'
  | Panic _ => 2 ≤ length (omap default_of (ds ++ [d]))
  end.
Proof.
  intros [Hi Hd Hdef Hdesc].
  assert (Hname : ∀ b name n, <[name := implComponent muxName name]> (impls (args comp)) !! n =
    if decide (n ∈ omap impl_of (ds ++ [DeclareMuxImpl name b])) then Some (implComponent muxName n) else None).
  { intros b name n. rewrite lookup_insert, Hi, omap_app. cbn. repeat case_decide; subst; try done; set_solver. }
  destruct d as [name [|]|text]; cbn.
  - destruct (defaultOption (args comp)) as [name'|] eqn:Ho; cbn.
    + rewrite omap_app, Hdef. cbn. lia.
    + split; [exact (Hname true name)|by rewrite Hd|by rewrite omap_app, Hdef|]. cbn. rewrite Hdesc, existsb_app. cbn. by rewrite orb_false_r.
  - split; [exact (Hname false name)|by rewrite Hd|by rewrite omap_app, Hdef, app_nil_r|]. cbn. rewrite Hdesc, existsb_app. cbn. by rewrite orb_false_r.
  - split; [|done|by rewrite omap_app, Hdef, app_nil_r|by rewrite existsb_app, orb_true_r].
    intros n. cbn. by rewrite Hi, omap_app, app_nil_r.
Qed.

Lemma declareAll_merged d ds :
  match declareAll muxName d ds with
  | Ret comp => merged (d :: ds) comp
  | Panic _ => 2 ≤ length (omap default_of (d :: ds))
  end.
Proof.
  unfold declareAll. pose proof (merged_new d) as Hm. change (d :: ds) with ([d] ++ ds).
  revert Hm. generalize (newComp muxName d). generalize [d]. induction ds as [|d' ds IH]; intros before comp Hm.
  - cbn. by rewrite app_nil_r.
  - cbn [outcome_foldl]. pose proof (merged_onMerge before d' comp Hm) as Hm'.
    destruct (onMerge muxName d' comp) as [[comp' reqs]|msg]; cbn.
    + specialize (IH (before ++ [d']) comp' Hm'). by rewrite <- app_assoc in IH.
    + change (d' :: ds) with ([d'] ++ ds). rewrite app_assoc, omap_app, length_app. lia.
Qed.

Lemma merged_names ds comp name : merged ds comp → is_Some (impls (args comp) !! name) ↔ name ∈ omap impl_of ds.
Proof. intros Hm. rewrite (merged_impls _ _ Hm). case_decide; by split; try by intros []. Qed.

(** What is withdrawn are the components of the other implementations. *)
Lemma elem_of_unrequestDeps ds comp key x :
  merged ds comp →
  x ∈ Component.mux_unrequestDeps (impls (args comp)) (Some key) ↔
    ∃ name, name ∈ omap impl_of ds ∧ name ≠ key ∧ x = implComponent muxName name.
Proof.
  intros Hm. unfold Component.mux_unrequestDeps. rewrite list_elem_of_fmap. split.
  - intros ([name c] & -> & [Hne Hin]%list_elem_of_filter). exists name.
    rewrite map_order_perm, elem_of_map_to_list in Hin. split; [by apply (merged_names _ _ _ Hm); rewrite Hin|].
    split; [done|]. rewrite (merged_impls _ _ Hm) in Hin. case_decide; [by injection Hin|done].
  - intros (name & Hin & Hne & ->). exists (name, implComponent muxName name). split; [done|].
    apply list_elem_of_filter. split; [done|]. rewrite map_order_perm, elem_of_map_to_list, (merged_impls _ _ Hm).
    by rewrite decide_True.
Qed.

(** Every value up to the first one that is not a key is taken; the last one is selected. *)
Lemma setAll_spec (Quote : string → string) (m : gmap string string) inputs : ∀ enum key,
  Enum.resolve enum = m → Enum.selectedKey enum = Some key → Enum.selectedValue enum = m !! key →
  match setAll Quote enum inputs with
  | inl enum' => Forall (λ i, is_Some (m !! i)) inputs ∧ Enum.resolve enum' = m ∧
      Enum.selectedKey enum' = Some (List.last inputs key) ∧ Enum.selectedValue enum' = m !! List.last inputs key
  | inr err => ∃ pre input post, inputs = pre ++ input :: post ∧ Forall (λ i, is_Some (m !! i)) pre ∧ m !! input = None ∧
      err = TagErrorf "NoEnumVariant" ("unknown option " +:+ Quote input)
  end.
Proof.
  induction inputs as [|i inputs IH]; intros enum key Hm Hk Hv; [done|]. cbn [setAll]. unfold Enum.Set_. rewrite Hm.
  destruct (m !! i) as [v|] eqn:Hi; [|by exists [], i, inputs].
  specialize (IH (Enum.select enum i v) i Hm eq_refl (eq_sym Hi)). destruct (setAll _ _ inputs) as [enum'|err].
  - destruct IH as (H1 & H2 & H3 & H4). split; [by apply Forall_cons|]. split; [done|].
    replace (List.last (i :: inputs) key) with (List.last inputs i); [done|].
    clear. revert i. induction inputs as [|j js IH]; intros i; [done|]. destruct js; [done|]. apply (IH i).
  - destruct IH as (pre & input & post & -> & H1 & H2). exists (i :: pre), input, post. split; [done|]. by split; [apply Forall_cons|].
Qed.

Lemma last_in {A} (P : A → Prop) (l : list A) (z : A) : Forall P l → P z → P (List.last l z).
Proof.
  intros Hl. revert z. induction Hl as [|i l Hi Hl IH]; intros z Hz; [done|]. destruct l as [|j l]; [done|]. by apply (IH z).
Qed.

Lemma default_declared ds comp default : merged ds comp → defaultOption (args comp) = Some default → default ∈ omap impl_of ds.
Proof.
  intros Hm Ho. assert (Hd : default ∈ omap default_of ds) by (rewrite (merged_default _ _ Hm), Ho; left).
  apply list_elem_of_omap in Hd as (x & Hx & Hxd). apply list_elem_of_omap. exists x. split; [done|]. by destruct x as [? []|].
Qed.

(** The flag of an interface that is needed, when it is registered. *)
Lemma addFlags_default ds comp enum :
  merged ds comp → addFlags (args comp) = Ret (Some enum) →
  is_Some (description (args comp)) ∧ ∃ default, defaultOption (args comp) = Some default ∧ default ∈ omap impl_of ds ∧
    Enum.selectedKey enum = Some default ∧ Enum.selectedValue enum = Enum.resolve enum !! default ∧
    ∀ name, Enum.resolve enum !! name = if decide (name ∈ omap impl_of ds) then Some name else None.
Proof.
  intros Hm. unfold addFlags. destruct (description (args comp)) as [text|]; [|done].
  destruct (defaultOption (args comp)) as [default|] eqn:Ho; [|done]. cbn [Optional.MustGet mbind outcome_bind]. intros [= <-].
  pose proof (default_declared _ _ _ Hm Ho) as Hin. split; [by eexists|]. exists default. cbn.
  assert (Hnames : ∀ name, map_imap (λ key (_ : string), Some key) (impls (args comp)) !! name =
    if decide (name ∈ omap impl_of ds) then Some name else None).
  { intros name. rewrite map_lookup_imap, (merged_impls _ _ Hm). by case_decide. }
  repeat (split; [done|]). split; [|done]. rewrite Hnames. by rewrite decide_True.
Qed.

(** The flag after some values: the last one, or the default, if all of them name implementations. *)
Lemma parse_selection (Quote : string → string) ds comp enum inputs :
  merged ds comp → addFlags (args comp) = Ret (Some enum) →
  match parse Quote (Some enum) inputs with
  | inl opt => Forall (.∈ omap impl_of ds) inputs ∧ ∃ default, defaultOption (args comp) = Some default ∧
      selection opt = Some (List.last inputs default) ∧ List.last inputs default ∈ omap impl_of ds
  | inr err => ∃ pre input post, inputs = pre ++ input :: post ∧ Forall (.∈ omap impl_of ds) pre ∧ input ∉ omap impl_of ds ∧
      err = TagErrorf "NoEnumVariant" ("unknown option " +:+ Quote input)
  end.
Proof.
  intros Hm Hadd. destruct (addFlags_default _ _ _ Hm Hadd) as (_ & default & Ho & Hin & Hk & Hv & Hnames).
  assert (Hkey : ∀ name, is_Some (Enum.resolve enum !! name) ↔ name ∈ omap impl_of ds).
  { intros name. rewrite Hnames. case_decide; by split; try by intros []. }
  unfold parse, selection. pose proof (setAll_spec Quote _ inputs enum default eq_refl Hk Hv) as Hset.
  destruct (setAll Quote enum inputs) as [enum'|err].
  - destruct Hset as (Hall & _ & _ & Hsel). assert (Hall' : Forall (.∈ omap impl_of ds) inputs)
      by (eapply Forall_impl; [exact Hall|]; intros i; apply Hkey).
    split; [done|]. exists default. split; [done|]. cbn [mbind option_bind].
    assert (Hlast : List.last inputs default ∈ omap impl_of ds) by (by apply (last_in (.∈ omap impl_of ds))).
    split; [|done]. rewrite Hsel, Hnames. by rewrite decide_True.
  - destruct Hset as (pre & input & post & -> & Hpre & Hnone & ->). exists pre, input, post. split; [done|].
    split; [eapply Forall_impl; [exact Hpre|]; intros i; apply Hkey|]. split; [|done]. rewrite <- Hkey, Hnone. by intros [].
Qed.

(** What is needed is there when the flag has been parsed. *)
Lemma merged_selected (Quote : string → string) ds comp enum opt inputs :
  merged ds comp → addFlags (args comp) = Ret (Some enum) → parse Quote (Some enum) inputs = inl opt →
  ∃ key, selection opt = Some key ∧ key ∈ omap impl_of ds ∧ getImpl comp opt = Ret (implComponent muxName key).
Proof.
  intros Hm Hadd Hparse. pose proof (parse_selection Quote _ _ _ inputs Hm Hadd) as Hsel. rewrite Hparse in Hsel.
  destruct Hsel as (_ & default & _ & Hsel & Hkey). eexists. split; [exact Hsel|]. split; [exact Hkey|].
  unfold getImpl. rewrite Hsel. cbn [Optional.MustGet mbind outcome_bind].
  rewrite (merged_deps _ _ Hm), (merged_impls _ _ Hm). by rewrite decide_True.
Qed.

End mux_lemmas.

(** ** Properties *)

(** However an interface and its implementations are declared, the process starts only if at most one implementation
    is the default, and exactly one if the interface is needed; then a value that names no implementation is refused, and otherwise
    the interface is the implementation that the last value names, or the default, and exactly the requests for the components of the
    other implementations are withdrawn. An interface that nobody needs has no flag and withdraws nothing. *)
Theorem mux_selects `{!GoRuntime} (muxName : string) (Quote : string → string) (d : Mux.muxDecl) (ds : list Mux.muxDecl)
    (inputs : list string) :
  let names := omap impl_of (d :: ds) in
  let defaults := omap default_of (d :: ds) in
  match Mux.declareAll muxName d ds with
  | Panic _ => 2 ≤ length defaults
  | Ret comp =>
      length defaults ≤ 1 ∧
      match Mux.addFlags (Mux.args comp) with
      | Panic _ => existsb needs (d :: ds) = true ∧ defaults = []
      | Ret None => existsb needs (d :: ds) = false ∧ Mux.unrequestDeps comp None = []
      | Ret (Some enum) =>
          ∃ default, defaults = [default] ∧
          match Mux.parse Quote (Some enum) inputs with
          | inr err => ∃ pre input post, inputs = pre ++ input :: post ∧ Forall (.∈ names) pre ∧ input ∉ names ∧
              err = TagErrorf "NoEnumVariant" ("unknown option " +:+ Quote input)
          | inl opt => Forall (.∈ names) inputs ∧ ∃ key, key = List.last inputs default ∧ key ∈ names ∧
              Mux.getImpl comp opt = Ret (Mux.implComponent muxName key) ∧
              ∀ x, x ∈ Mux.unrequestDeps comp opt ↔ ∃ name, name ∈ names ∧ name ≠ key ∧ x = Mux.implComponent muxName name
          end
      end
  end.
Proof.
  intros names defaults. pose proof (declareAll_merged muxName d ds) as Hm.
  destruct (Mux.declareAll muxName d ds) as [comp|msg]; [|done]. pose proof Hm as [_ Hdeps Hdef Hdesc].
  fold defaults in Hdef. split; [rewrite Hdef; by destruct (Mux.defaultOption (Mux.args comp)); cbn; lia|].
  destruct (Mux.addFlags (Mux.args comp)) as [[enum|]|msg] eqn:Hadd.
  - pose proof (parse_selection muxName Quote _ _ _ inputs Hm Hadd) as Hsel.
    destruct (addFlags_default _ _ _ _ Hm Hadd) as (_ & default & Ho & _). exists default. split; [by rewrite Hdef, Ho|].
    destruct (Mux.parse Quote (Some enum) inputs) as [opt|err]; [|done].
    destruct Hsel as (Hall & default' & Ho' & Hsel & Hkey). rewrite Ho in Ho'. injection Ho' as <-. split; [done|].
    eexists. split; [done|]. split; [done|]. unfold Mux.getImpl, Mux.unrequestDeps. rewrite Hsel. cbn [Optional.MustGet mbind outcome_bind].
    split; [rewrite Hdeps, (merged_impls _ _ _ Hm); by rewrite decide_True|]. intros x. by apply elem_of_unrequestDeps.
  - split; [|done]. unfold Mux.addFlags in Hadd. rewrite <- Hdesc. destruct (Mux.description (Mux.args comp)); [|done].
    by destruct (Mux.defaultOption (Mux.args comp)).
  - unfold Mux.addFlags in Hadd. rewrite <- Hdesc, Hdef. destruct (Mux.description (Mux.args comp)); [|done].
    by destruct (Mux.defaultOption (Mux.args comp)).
Qed.

(** Two implementations, of which the one that is not the default is selected; a third one is unknown. *)
Example mux_example :
  (comp ← Mux.declareAll "provider" (Mux.DeclareMuxImpl "informer" true)
     [Mux.ProvideMux "where objects are"; Mux.DeclareMuxImpl "static" false];
   opt ← Mux.addFlags (Mux.args comp);
   match Mux.parse id opt ["informer"; "static"], Mux.parse id opt ["static"; "none"] with
   | inl opt, inr err => impl ← Mux.getImpl comp opt; Ret (impl, Mux.unrequestDeps comp opt, err)
   | _, _ => Panic "unexpected"
   end) =
  Ret ("provider.static", ["provider.informer"], TagErrorf "NoEnumVariant" "unknown option none").
Proof. vm_compute. reflexivity. Qed.
