(* ===== verification/Wiring.v ===== *)
(** * Wiring: the four processes as they are put together

    [Module Wiring] is what the packages of the repository declare with [component.Declare] and its relatives: the names, flags
    and dependencies of all components, how repeated declarations merge, and the lists of src/webhook/main.go, src/aggregator/main.go,
    src/generator/main.go and src/allinone/main.go, to which util/cmd/cmd.go adds two. The framework of [Component] and [Mux]
    is run on them. Tests declare components of their own, which are left out. *)

From S2P Require Import Prelude Util Errors Iter Flags Component ComponentCorrect Mux.

Module Wiring.

Definition WorkerClusterName : string := "worker".
Definition CoreClusterName : string := "core".
Definition LeaderPhase : string := "main".

Record ElectorArgs : Type := { ClusterName : string; ElectorName : string }.
Definition AggregatorElectorArgs : ElectorArgs := {| ClusterName := WorkerClusterName; ElectorName := "aggregator" |}.
Definition GeneratorElectorArgs : ElectorArgs := {| ClusterName := CoreClusterName; ElectorName := "generator" |}.

(** *** Multiplexed interfaces and their implementations *)

Inductive mux : Type := SourceProvider | RequiresPodName | CellClientProvider | PodInterpreter.
Definition muxName (m : mux) : string :=
  match m with
  | SourceProvider => "podprotector-source-provider"
  | RequiresPodName => "webhook-requires-pod-name"
  | CellClientProvider => "webhook-worker-client-provider"
  | PodInterpreter => "aggregator-informer-synctime-algorithm"
  end.
Definition muxDescription (m : mux) : string :=
  match m with
  | SourceProvider => "provider for clusters hosting PodProtectors"
  | RequiresPodName => "whether pod name should be written into PodProtector admission history"
  | CellClientProvider => "provider for worker cluster client, used for pod lookup during eviction requests"
  | PodInterpreter => "the algorithm to infer reflector update time from pod events"
  end.

Inductive impl : Type :=
| SingleSource (clusterName : string)
| ConstantRequiresPodName (arg : bool)
| FilterByCellRequiresPodName
| ProvideNone
| ProvideSingle
| ProvideMap
| ProvideClock
| ProvideStatus.
Definition mux_of (i : impl) : mux :=
  match i with
  | SingleSource _ => SourceProvider
  | ConstantRequiresPodName _ | FilterByCellRequiresPodName => RequiresPodName
  | ProvideNone | ProvideSingle | ProvideMap => CellClientProvider
  | ProvideClock | ProvideStatus => PodInterpreter
  end.
Definition implName (i : impl) : string :=
  match i with
  | SingleSource clusterName => clusterName +:+ "-only"
  | ConstantRequiresPodName arg => if arg then "always" else "never"
  | FilterByCellRequiresPodName => "by-cell"
  | ProvideNone => "none" | ProvideSingle => "single" | ProvideMap => "map"
  | ProvideClock => "clock" | ProvideStatus => "status"
  end.

(** A declaration of the component of an interface: by an implementation or by someone who needs it. *)
Inductive muxRequest : Type :=
| Implements (i : impl) (isDefault : bool)
| Needs.
Definition muxDecl (m : mux) (r : muxRequest) : Mux.muxDecl :=
  match r with
  | Implements i isDefault => Mux.DeclareMuxImpl (implName i) isDefault
  | Needs => Mux.ProvideMux (muxDescription m)
  end.

(** *** Observers *)

Inductive observed : Type :=
| ObsWebhook | ObsAggregator | ObsGenerator | ObsRetrybatch | ObsWorker | ObsInformer | ObsHealthz | ObsElector.
Definition observerName (o : observed) : string :=
  match o with
  | ObsWebhook => "webhook" | ObsAggregator => "aggregator" | ObsGenerator => "generator" | ObsRetrybatch => "retrybatch"
  | ObsWorker => "worker" | ObsInformer => "ppr-informer" | ObsHealthz => "healthz" | ObsElector => "elector"
  end.
Inductive provided : Type := Logging | Metrics.

(** *** Components

    A request and the instance that it is resolved to have one type. An instance of an observer has the implementations that were
    merged into it, and that of an interface the declarations, in their order. *)
Inductive declared : Type :=
| Klog
| Registry
| KubeMetrics
| Client (clusterName : string)
| EventRecorder (clusterName component : string)
| Shutdown
| Elector (args : ElectorArgs)
| Informers (clusterName phase : string) (elector : option ElectorArgs) (informerSetName : string)
| Observer (o : observed) (impls : list provided)
| Worker (name : string)
| DefaultConfig
| IndexedInformer (suffix : string) (elector : option ElectorArgs)
| MuxInterface (m : mux) (first : muxRequest) (others : list muxRequest)
| MuxImpl (i : impl)
| Pprof
| MetricsHttp
| Healthz
| WebhookServer
| WebhookHandler
| Aggregator
| UpdateTrigger
| Generator
| DeploymentPlugin
| Monitor.

Definition Name (d : declared) : string :=
  match d with
  | Klog => "klog"
  | Registry => "metrics"
  | KubeMetrics => "kube-metrics"
  | Client clusterName => clusterName +:+ "-kube"
  | EventRecorder _ component => "event-recorder-" +:+ component
  | Shutdown => "shutdown-notifier"
  | Elector args => ElectorName args +:+ "-leader-elector"
  | Informers clusterName phase _ informerSetName => clusterName +:+ "-" +:+ phase +:+ "-" +:+ informerSetName +:+ "-informers"
  | Observer o _ => "observer-" +:+ observerName o
  | Worker name => name +:+ "-worker"
  | DefaultConfig => "default-admission-history-config"
  | IndexedInformer suffix _ => "podprotector-indexed-informer-" +:+ suffix
  | MuxInterface m _ _ => muxName m
  | MuxImpl i => Mux.implComponent (muxName (mux_of i)) (implName i)
  | Pprof => "pprof"
  | MetricsHttp => "prometheus-http"
  | Healthz => "healthz"
  | WebhookServer => "webhook"
  | WebhookHandler => "webhook-handler"
  | Aggregator => "aggregator"
  | UpdateTrigger => "update-trigger"
  | Generator => "generator"
  | DeploymentPlugin => "deployment-plugin"
  | Monitor => "generator-monitor"
  end.

(** [DepPtr] of a mux, [Request] of an observer, and the declarations of informers. *)
Definition need (m : mux) : declared := MuxInterface m Needs [].
Definition RequestObserver (o : observed) : declared := Observer o [].
Definition NativeInformers (clusterName phase : string) (elector : option ElectorArgs) : declared :=
  Informers clusterName phase elector "native".
Definition PodseidonInformers (clusterName phase : string) (elector : option ElectorArgs) : declared :=
  Informers clusterName phase elector "podseidon".

(** *** Dependencies *)

(** What an implementation of an observer requests. *)
Definition providerDeps (p : provided) : list declared :=
  match p with Logging => [Klog] | Metrics => [Registry] end.
Definition implDeps (i : impl) : list declared :=
  match i with
  | SingleSource clusterName => [Client clusterName]
  | ProvideSingle => [Client "webhook-worker-client-provider.single"]
  | _ => []
  end.
Definition muxDeps (r : muxRequest) : list declared :=
  match r with Implements i _ => [MuxImpl i] | Needs => [] end.

Definition electorDeps (args : ElectorArgs) : list declared :=
  [Client (ClusterName args); EventRecorder (ClusterName args) (ElectorName args +:+ "-leader-election"); Shutdown;
   RequestObserver ObsElector].
Definition informersDeps (clusterName : string) (elector : option ElectorArgs) : list declared :=
  Optional.AsSlice (Elector <$> elector) ++ [Client clusterName].
Definition indexedInformerDeps (elector : option ElectorArgs) : list declared :=
  [RequestObserver ObsInformer; need SourceProvider] ++ Optional.AsSlice (Elector <$> elector).
Definition webhookServerDeps : list declared := [RequestObserver ObsWebhook; WebhookHandler].
Definition webhookHandlerDeps : list declared :=
  [need SourceProvider; IndexedInformer "" None; RequestObserver ObsWebhook; need RequiresPodName;
   RequestObserver ObsRetrybatch; DefaultConfig; need CellClientProvider].
Definition aggregatorDeps : list declared :=
  [need SourceProvider; need PodInterpreter; Client WorkerClusterName; IndexedInformer "" (Some AggregatorElectorArgs);
   RequestObserver ObsAggregator; Elector AggregatorElectorArgs; Worker "aggregator"; DefaultConfig].
Definition updateTriggerDeps : list declared :=
  [Client WorkerClusterName; Elector AggregatorElectorArgs; RequestObserver ObsAggregator].
(** The only type of the generator is the one of deployments. *)
Definition generatorDeps : list declared :=
  [DeploymentPlugin; Client CoreClusterName; Elector GeneratorElectorArgs;
   PodseidonInformers CoreClusterName LeaderPhase (Some GeneratorElectorArgs); RequestObserver ObsGenerator; Worker "generator"].
Definition deploymentDeps : list declared :=
  [RequestObserver ObsGenerator; Client CoreClusterName; NativeInformers CoreClusterName LeaderPhase (Some GeneratorElectorArgs)].
Definition monitorDeps : list declared :=
  [RequestObserver ObsGenerator; PodseidonInformers CoreClusterName LeaderPhase (Some GeneratorElectorArgs)].

Definition dependencies (d : declared) : list declared :=
  match d with
  | Klog | Registry | Shutdown | DefaultConfig | Pprof => []
  | KubeMetrics | MetricsHttp => [Registry]
  | Client _ => [KubeMetrics]
  | EventRecorder clusterName _ => [Client clusterName]
  | Elector args => electorDeps args
  | Informers clusterName _ elector _ => informersDeps clusterName elector
  | Observer _ impls => impls ≫= providerDeps
  | Worker _ => [RequestObserver ObsWorker]
  | IndexedInformer _ elector => indexedInformerDeps elector
  | MuxInterface _ first _ => muxDeps first
  | MuxImpl i => implDeps i
  | Healthz => [RequestObserver ObsHealthz]
  | WebhookServer => webhookServerDeps
  | WebhookHandler => webhookHandlerDeps
  | Aggregator => aggregatorDeps
  | UpdateTrigger => updateTriggerDeps
  | Generator => generatorDeps
  | DeploymentPlugin => deploymentDeps
  | Monitor => monitorDeps
  end.

(** *** Merging *)

#[export] Instance ElectorArgs_eq_dec : EqDecision ElectorArgs.
Proof. solve_decision. Defined.
#[export] Instance mux_eq_dec : EqDecision mux.
Proof. solve_decision. Defined.
#[export] Instance impl_eq_dec : EqDecision impl.
Proof. solve_decision. Defined.
#[export] Instance muxRequest_eq_dec : EqDecision muxRequest.
Proof. solve_decision. Defined.
#[export] Instance observed_eq_dec : EqDecision observed.
Proof. solve_decision. Defined.
#[export] Instance provided_eq_dec : EqDecision provided.
Proof. solve_decision. Defined.
#[export] Instance declared_eq_dec : EqDecision declared.
Proof. solve_decision. Defined.

(** Whether two components have one type: the set of an informer is its factory, the name of a worker its items. *)
Definition sameType (c d : declared) : bool :=
  match c, d with
  | Client _, Client _ | EventRecorder _ _, EventRecorder _ _ | Elector _, Elector _ | IndexedInformer _ _, IndexedInformer _ _ => true
  | Informers _ _ _ s, Informers _ _ _ s' => bool_decide (s = s')
  | Observer o _, Observer o' _ => bool_decide (o = o')
  | MuxInterface m _ _, MuxInterface m' _ _ => bool_decide (m = m')
  | _, _ => bool_decide (c = d)
  end.

(** What pflag makes of a command line, which is given as the flags that it sets and the texts that it sets them to, in order: how it quotes,
    the error of setting a flag that does not select an implementation, if any (also that there is no such flag), and how it
    wraps the error of a value that is refused. *)
Class Pflag : Type := {
  Quote : string → string;
  SetOther : string → string → option error;
  InvalidArgument : string → string → error → error
}.

Section wiring.
Context `{!GoRuntime, !Pflag}.

(** The data of an interface after its declarations. *)
Definition muxComp (m : mux) (first : muxRequest) (others : list muxRequest) : outcome Mux.muxComp :=
  Mux.declareAll (muxName m) (muxDecl m first) (muxDecl m <$> others).

(** Only observers and interfaces do something; the others keep the first instance as it is. *)
Definition mergeInto (c other : declared) : outcome (declared * list declared) :=
  if negb (sameType c other) then Panic "cannot merge into incompatible Component type"
  else match c, other with
  | Observer _ impls, Observer o impls' => Ret (Observer o (impls' ++ impls), impls ≫= providerDeps)
  | MuxInterface _ r _, MuxInterface m first others =>
      _ ← muxComp m first (others ++ [r]); Ret (MuxInterface m first (others ++ [r]), muxDeps r)
  | _, _ => Ret (other, [])
  end.

(** *** Flags *)

Variable klogFlags : list string.

Definition serverOptions (prefix : string) : list string := [prefix +:+ "enable"; prefix +:+ "bind-addr"; prefix +:+ "port"].
(** [DeclareServer], with the flags of the component that it wraps. *)
Definition DeclareServer (newOptions : list string) : list string :=
  serverOptions "" ++ serverOptions "https-" ++ ["https-cert-file"; "https-key-file"; "read-header-timeout"] ++ newOptions.

Definition NewGlobalClientOptions : list string :=
  ["impersonate-username"; "impersonate-uid"; "impersonate-groups"; "qps"; "burst"; "user-agent"].
Definition NewClientOptions : list string := ["config"; "master"; "target-namespace"] ++ NewGlobalClientOptions.
Definition critPair (desc : string) : list string :=
  ["health-criterion-" +:+ desc +:+ "-key"; "health-criterion-" +:+ desc +:+ "-value"].
Definition NewCritAnnots : list string := critPair "scheduled" ++ critPair "running" ++ critPair "ready".
Definition registryFlags : list string := ["sample-frequency"; "by-namespace"; "by-user"].
Definition electorFlags : list string := ["enable"; "namespace"; "name"; "lease-duration"; "renew-deadline"; "retry-period"].
Definition workerFlags : list string := ["concurrency"; "backoff-base"; "backoff-max"; "backoff-conflict"].
Definition defaultConfigFlags : list string := ["max-concurrent-lag"; "compact-threshold"; "aggregation-rate"].
Definition webhookServerFlags : list string := DeclareServer ["path-prefix"; "dry-run"].
Definition webhookHandlerFlags : list string := ["cold-start-delay"; "retry-backoff-base"; "retry-jitter"] ++ NewCritAnnots.
Definition aggregatorFlags : list string :=
  ["cell-id"; "podprotector-label-selector"; "pod-label-selector"; "pod-informer-shards"; "pod-relist-period"; "rate-jitter-low";
   "rate-jitter-high"].
Definition updateTriggerFlags : list string :=
  ["enable"; "update-frequency"; "dummy-pod-name"; "dummy-pod-namespace"; "dummy-pod-labels"; "dummy-pod-annotations";
   "dummy-pod-image"; "dummy-pod-scheduler"].
Definition pprofFlags : list string := DeclareServer ["block-profile"; "mutex-profile"].
Definition implFlags (i : impl) : list string :=
  match i with
  | FilterByCellRequiresPodName => ["filter"]
  | ProvideMap => NewGlobalClientOptions ++ ["configs"; "masters"]
  | _ => []
  end.

(** The names of the flags of a component; an interface has one if someone needs it. *)
Definition AddFlags (d : declared) : outcome (list string) :=
  match d with
  | Klog => Ret klogFlags
  | Registry => Ret registryFlags
  | Client _ => Ret NewClientOptions
  | Elector _ => Ret electorFlags
  | Worker _ => Ret workerFlags
  | DefaultConfig => Ret defaultConfigFlags
  | MuxInterface m first others =>
      comp ← muxComp m first others;
      opt ← Mux.addFlags (Mux.args comp);
      Ret (match opt with Some _ => [Subset.EmptyFlagName] | None => [] end)
  | MuxImpl i => Ret (implFlags i)
  | Pprof => Ret pprofFlags
  | MetricsHttp | Healthz => Ret (DeclareServer [])
  | WebhookServer => Ret webhookServerFlags
  | WebhookHandler => Ret webhookHandlerFlags
  | Aggregator => Ret aggregatorFlags
  | UpdateTrigger => Ret updateTriggerFlags
  | DeploymentPlugin => Ret ["protection-selector"; "protect-non-zero"]
  | Monitor => Ret ["enable"]
  | _ => Ret []
  end.

Notation componentMap := (gmap string (option (Component.componentMapEntry (Decl := declared)))).

Definition instance_of (cm : componentMap) (name : string) : option declared :=
  match cm !! name with Some (Some e) => Some (Component.comp e) | _ => None end.

(** A flag set panics when a name is registered twice. *)
Definition setupFlags (cm : componentMap) (components : list string) : outcome (list string) :=
  outcome_foldl (λ fs name,
    match instance_of cm name with
    | None => Ret fs
    | Some d =>
        names ← AddFlags d;
        let fs := Subset.AddSubset fs name names in
        _ ← guard_or_panic (bool_decide (NoDup fs)) "flag redefined";
        Ret fs
    end) [] components.

(** *** What the flags decide *)

(** The flag of an interface, if someone needs it. *)
Definition newFlag (cm : componentMap) (name : string) : option (Enum.EnumValue string) :=
  match instance_of cm name with
  | Some (MuxInterface m first others) =>
      match (comp ← muxComp m first others; Mux.addFlags (Mux.args comp)) with Ret opt => opt | Panic _ => None end
  | _ => None
  end.
(** The flags of all interfaces, by their names. *)
Definition newFlags (cm : componentMap) (components : list string) : gmap string (Enum.EnumValue string) :=
  foldr (λ c flags, match newFlag cm c with
    | Some enum => <[Subset.flagName c Subset.EmptyFlagName := enum]> flags
    | None => flags
    end) ∅ components.

(** The flag set sets the flags of the command line one after the other, and returns the first error. *)
Fixpoint Parse (flags : gmap string (Enum.EnumValue string)) (cmdline : list (string * string)) :
    gmap string (Enum.EnumValue string) + error :=
  match cmdline with
  | [] => inl flags
  | (name, value) :: cmdline =>
      match flags !! name with
      | Some enum =>
          match Enum.Set_ Quote enum value with
          | (None, enum) => Parse (<[name := enum]> flags) cmdline
          | (Some err, _) => inr (InvalidArgument name value err)
          end
      | None =>
          match SetOther name value with
          | None => Parse flags cmdline
          | Some err => inr err
          end
      end
  end.

(** An interface and the value of its flag. *)
Definition muxFlag (flags : gmap string (Enum.EnumValue string)) (d : declared) : option (Mux.muxComp * option (Enum.EnumValue string)) :=
  match d with
  | MuxInterface m first others =>
      match muxComp m first others with
      | Ret comp => Some (comp, flags !! muxName m)
      | Panic _ => None
      end
  | _ => None
  end.

Definition isRequestedFromMain (cm : componentMap) (c : string) : bool :=
  match instance_of cm c with Some (MuxInterface _ _ _) => false | _ => true end.
Definition unrequestDeps (flags : gmap string (Enum.EnumValue string)) (cm : componentMap) (c : string) : list string :=
  match instance_of cm c ≫= muxFlag flags with
  | Some (comp, opt) => Mux.unrequestDeps comp opt
  | None => []
  end.

End wiring.

(** *** The processes *)

(** [Provide] of each package of observers. *)
Definition Provide (o : observed) : list declared :=
  (λ p, Observer o [p]) <$> (match o with ObsRetrybatch => [Metrics] | _ => [Logging; Metrics] end).
(** The function that [DeclareMuxImpl] returns. *)
Definition implement (i : impl) (isDefault : bool) : declared := MuxInterface (mux_of i) (Implements i isDefault) [].

Definition DefaultRequiresPodNameImpls : list declared :=
  [implement (ConstantRequiresPodName true) false; implement (ConstantRequiresPodName false) true;
   implement FilterByCellRequiresPodName false].
Definition DefaultCellClientImpls : list declared :=
  [implement ProvideNone true; implement ProvideSingle false; implement ProvideMap false].
Definition DefaultPodInterpreterImpls : list declared := [implement ProvideClock true; implement ProvideStatus false].

Definition webhookMain : list declared :=
  [Pprof; MetricsHttp] ++ Provide ObsHealthz ++ Provide ObsInformer ++ Provide ObsWebhook ++ Provide ObsRetrybatch ++
  [WebhookServer; implement (SingleSource "core") true] ++ DefaultRequiresPodNameImpls ++ DefaultCellClientImpls.
Definition aggregatorMain : list declared :=
  [Pprof; MetricsHttp] ++ Provide ObsHealthz ++ Provide ObsWorker ++ Provide ObsElector ++ Provide ObsAggregator ++
  Provide ObsInformer ++ [Aggregator; implement (SingleSource "core") true] ++ DefaultPodInterpreterImpls ++ [UpdateTrigger].
Definition generatorMain : list declared :=
  [Pprof; MetricsHttp] ++ Provide ObsHealthz ++ Provide ObsWorker ++ Provide ObsElector ++ Provide ObsInformer ++
  Provide ObsGenerator ++ [Generator; Monitor].
Definition allinoneMain : list declared :=
  [Pprof; MetricsHttp] ++ Provide ObsWorker ++ Provide ObsElector ++ Provide ObsInformer ++ Provide ObsHealthz ++
  Provide ObsGenerator ++ Provide ObsAggregator ++ Provide ObsWebhook ++ [Aggregator] ++ DefaultPodInterpreterImpls ++
  [UpdateTrigger; Generator; Monitor; WebhookServer; implement (SingleSource "core") true] ++
  DefaultRequiresPodNameImpls ++ DefaultCellClientImpls.

Inductive process : Type := WebhookProcess | AggregatorProcess | GeneratorProcess | AllInOneProcess.
Definition main (p : process) : list declared :=
  match p with
  | WebhookProcess => webhookMain | AggregatorProcess => aggregatorMain
  | GeneratorProcess => generatorMain | AllInOneProcess => allinoneMain
  end.

(** What [tryRun] requests, and how it gets the list of components that it initializes. The longest chain of requests has nine
    components. *)
Definition requests (p : process) : list declared := main p ++ [Healthz; Shutdown].
Definition depth : nat := 10.

Section process.
Import Component.
Context `{!GoRuntime, !Pflag}.
Variables (klogFlags : list string) (cmdline : list (string * string)) (p : process).

Definition resolved := resolveMain Name dependencies mergeInto depth (requests p).
Definition listed := ResolveList Name dependencies mergeInto depth (requests p).
(** The names of all flags, the values of those that select implementations, and the components that are left; or an error. *)
Definition tryRun : run (list string * gmap string (Enum.EnumValue string) * list string + error) :=
  cm ← resolved;
  components ← listed;
  fs ← Some (setupFlags klogFlags cm components);
  match Parse (newFlags cm components) cmdline with
  | inr err => mret (inr (TagWrapf "ParseArgs" (Some err) "parse args"))
  | inl flags =>
      l ← TrimNonRequested (isRequestedFromMain cm) (unrequestDeps flags cm)
        (S (size (store_of cm))) components (store_of cm);
      mret (inl (fs, flags, l))
  end.

End process.

End Wiring.

(** ** Lemmas *)

(** A string that ends with [t] differs from another one, letter by letter. *)
Lemma ends_ne_cons t a r : t ≠ String a r → (∀ s, s +:+ t ≠ r) → ∀ s, s +:+ t ≠ String a r.
Proof. intros Ht Hr [|b s]; rewrite ?append_nil, ?append_cons; [done|]. intros [= _ Heq]. by eapply Hr. Qed.
Lemma ends_ne_nil b t s : s +:+ String b t ≠ "".
Proof. by destruct s. Qed.
Ltac differs := repeat (apply ends_ne_cons; [discriminate|intros ?]); apply ends_ne_nil.

Section wiring_lemmas.
Import Wiring.

Lemma Name_not_main d : Name d ≠ Component.mainRequester.
Proof.
  destruct d; try discriminate; unfold Name, Component.mainRequester; rewrite ?append_cons, ?append_nil; try solve [differs].
  all: try discriminate; by destruct m || destruct i.
Qed.

(** What an interface requests is what [Mux] says, for its first declaration and for those that are merged. *)
Lemma muxDeps_collectDeps `{!GoRuntime} m r :
  (∀ i b, r = Implements i b → mux_of i = m) →
  Name <$> muxDeps r = (Mux.collectDeps (Mux.newArgs (muxName m) (muxDecl m r))).1.
Proof.
  intros Hr. unfold Mux.collectDeps. symmetry. destruct r as [i b|]; cbn.
  - rewrite (Hr i b eq_refl). apply Permutation_singleton_r. by rewrite map_order_perm, map_to_list_singleton.
  - apply Permutation_nil_r. by rewrite map_order_perm, map_to_list_empty.
Qed.
Lemma muxDeps_onMerge m r comp comp' reqs :
  (∀ i b, r = Implements i b → mux_of i = m) →
  Mux.onMerge (muxName m) (muxDecl m r) comp = Ret (comp', reqs) → Name <$> muxDeps r = reqs.
Proof.
  intros Hr. destruct r as [i b|]; cbn; [|by intros [= _ <-]]. rewrite (Hr i b eq_refl).
  destruct b; [|by intros [= _ <-]]. cbn. destruct (Mux.defaultOption _); [done|by intros [= _ <-]].
Qed.

(** *** What is computed once and for all

    The order of a process in one run of the runtime ranks its components. *)
Definition order (p : process) : list string :=
  match listed p with Some (Ret l) => l | _ => [] end.
Definition rank (l : list string) (name : string) : nat := default 0 (fst <$> list_find (name =.) l).

Section check.
Context `{!GoRuntime}.
Variables (klogFlags : list string).
Abbreviation componentMap := (gmap string (option (Component.componentMapEntry (Decl := declared)))).

Definition mux_ok (cm : componentMap) (name : string) (deps : gmap string nat) (comp : Mux.muxComp) : bool :=
  let impls := (map_to_list (Mux.impls (Mux.args comp))).*2 in
  forallb (λ c, bool_decide (deps !! c = Some 1)) impls &&
  forallb (λ c, match cm !! c with Some (Some e) => bool_decide (Component.requesters e = {[ name := 1 ]}) | _ => false end) impls &&
  forallb (λ '(c, _), bool_decide (c ∈ impls)) (map_to_list deps) &&
  is_ret (Mux.addFlags (Mux.args comp)).

Definition entry_ok (cm : componentMap) (name : string) (e : Component.componentMapEntry (Decl := declared)) : bool :=
  bool_decide (name = Name (Component.comp e)) && is_ret (AddFlags klogFlags (Component.comp e)) &&
  match Component.comp e with
  | MuxInterface m first others =>
      match muxComp m first others with
      | Ret comp => mux_ok cm name (Component.deps e) comp &&
          forallb (λ '(r, _), bool_decide (r = Component.mainRequester) || Optional.IsSome (Mux.description (Mux.args comp)))
            (map_to_list (Component.requesters e))
      | Panic _ => false
      end
  | _ => true
  end.

Definition flags_of (cm : componentMap) (name : string) : list string :=
  match instance_of cm name with
  | Some d => match AddFlags klogFlags d with Ret names => Subset.flagName name <$> names | Panic _ => [] end
  | None => []
  end.

Definition cm_ok (reqs : list declared) (l : list string) (cm : componentMap) : bool :=
  forallb (λ '(name, oe), match oe with
    | Some e => entry_ok cm name e && forallb (λ '(b, _), rank l b <? rank l name) (map_to_list (Component.deps e))
    | None => false
    end) (map_to_list cm) &&
  bool_decide (NoDup l) && forallb (λ c, bool_decide (is_Some (cm !! c))) l &&
  forallb (λ '(c, _), bool_decide (c ∈ l)) (map_to_list cm) &&
  bool_decide (instance_of cm "klog" = Some Klog) &&
  forallb (λ d, bool_decide (is_Some (requests_in (Component.store_of cm) Component.mainRequester (Name d)))) reqs &&
  (let others := filter (.≠ "klog") l ≫= flags_of cm in
   bool_decide (NoDup others) && forallb (λ f, negb (String.prefix "klog" f)) others).

Lemma processes_ok p : match resolved p with Some (Ret cm) => cm_ok (requests p) (order p) cm | _ => false end = true.
Proof. destruct p; vm_compute; reflexivity. Qed.
End check.

(** *** What follows from it *)
Section checked.
Context `{!GoRuntime}.
Variables (klogFlags : list string).
Abbreviation componentMap := (gmap string (option (Component.componentMapEntry (Decl := declared)))).
Implicit Types (cm : componentMap) (e : Component.componentMapEntry (Decl := declared)).

Record checked (reqs : list declared) (l : list string) cm : Prop := {
  ck_entry : ∀ name oe, cm !! name = Some oe → ∃ e, oe = Some e ∧ entry_ok klogFlags cm name e = true ∧
    ∀ b k, Component.deps e !! b = Some k → rank l b < rank l name;
  ck_nodup : NoDup l;
  ck_dom : ∀ c, c ∈ l ↔ is_Some (cm !! c);
  ck_instance : instance_of cm "klog" = Some Klog;
  ck_reqs : ∀ d, d ∈ reqs → is_Some (requests_in (Component.store_of cm) Component.mainRequester (Name d));
  ck_flags : NoDup (filter (.≠ "klog") l ≫= flags_of klogFlags cm);
  ck_klog : ∀ f, f ∈ filter (.≠ "klog") l ≫= flags_of klogFlags cm → String.prefix "klog" f = false
}.

Lemma cm_ok_spec reqs l cm : cm_ok klogFlags reqs l cm = true → checked reqs l cm.
Proof.
  unfold cm_ok. rewrite !andb_true_iff, !bool_decide_eq_true, !forallb_forall.
  intros ((((((Hentry & Hnd) & Hin) & Hdom) & Hinst) & Hreqs) & Hflags & Hklog). split; try done.
  - intros name oe Hoe. specialize (Hentry (name, oe)). cbn in Hentry. rewrite <- list_elem_of_In, elem_of_map_to_list in Hentry.
    specialize (Hentry Hoe). destruct oe as [e|]; [|done]. apply andb_true_iff in Hentry as [He Hrank]. exists e. split; [done|].
    split; [done|]. intros b k Hb. rewrite forallb_forall in Hrank. apply Nat.ltb_lt. apply (Hrank (b, k)).
    by apply list_elem_of_In, elem_of_map_to_list.
  - intros c. split.
    + intros Hc%list_elem_of_In%Hin. by apply bool_decide_eq_true in Hc.
    + intros [oe Hoe]. specialize (Hdom (c, oe)). cbn in Hdom. rewrite <- list_elem_of_In, elem_of_map_to_list in Hdom.
      by specialize (Hdom Hoe); apply bool_decide_eq_true in Hdom.
  - intros d Hd%list_elem_of_In%Hreqs. by apply bool_decide_eq_true in Hd.
  - intros f Hf%list_elem_of_In%Hklog. by destruct (String.prefix "klog" f).
Qed.

Lemma checked_acyclic reqs l cm : checked reqs l cm → ¬ cyclic (Component.edges_of cm).
Proof.
  intros Hck [x Hx]. enough (Hlt : ∀ a b, tc (edge (Component.edges_of cm)) a b → rank l b < rank l a) by (specialize (Hlt x x Hx); lia).
  assert (Hedge : ∀ a b, edge (Component.edges_of cm) a b → rank l b < rank l a).
  { intros a b (m & Hm & [k Hk]). unfold Component.edges_of in Hm. rewrite lookup_omap in Hm.
    destruct (cm !! a) as [oe|] eqn:Ha; [|done]. destruct (ck_entry _ _ _ Hck _ _ Ha) as (e & -> & _ & Hrank). cbn in Hm.
    injection Hm as <-. by eapply Hrank. }
  clear x Hx. induction 1 as [a b Hab|a b c Hab _ IH]; [by apply Hedge|]. specialize (Hedge a b Hab). lia.
Qed.

(** The component of an interface. *)
Lemma checked_mux reqs l cm name m first others e :
  checked reqs l cm → cm !! name = Some (Some e) → Component.comp e = MuxInterface m first others →
  name = muxName m ∧ ∃ comp opt, muxComp m first others = Ret comp ∧ Mux.addFlags (Mux.args comp) = Ret opt ∧
    merged (muxName m) (muxDecl m first :: (muxDecl m <$> others)) comp ∧
    (∀ r, is_Some (Component.requesters e !! r) → r = Component.mainRequester ∨ is_Some (Mux.description (Mux.args comp))) ∧
    (∀ c, c ∈ (map_to_list (Mux.impls (Mux.args comp))).*2 ↔ Component.deps e !! c = Some 1) ∧
    ∀ c, c ∈ (map_to_list (Mux.impls (Mux.args comp))).*2 →
      ∃ e, cm !! c = Some (Some e) ∧ Component.requesters e = {[ muxName m := 1 ]}.
Proof.
  intros Hck He Hcomp. destruct (ck_entry _ _ _ Hck _ _ He) as (e' & [= <-] & Hok & _).
  unfold entry_ok in Hok. rewrite Hcomp, !andb_true_iff, bool_decide_eq_true in Hok. destruct Hok as ((-> & _) & Hok).
  split; [done|]. unfold muxComp in *.
  pose proof (declareAll_merged (muxName m) (muxDecl m first) (muxDecl m <$> others)) as Hm.
  destruct (Mux.declareAll _ _ _) as [comp|]; [|done]. unfold mux_ok in Hok.
  rewrite !andb_true_iff, !forallb_forall in Hok. destruct Hok as ((((Himpls & Hreq) & Hdeps) & Hadd) & Hneed).
  destruct (Mux.addFlags (Mux.args comp)) as [opt|] eqn:Hopt; [|done]. exists comp, opt. split; [done|]. split; [done|]. split; [done|]. split.
  { intros r [k Hr]. specialize (Hneed (r, k)). cbn in Hneed. rewrite <- list_elem_of_In, elem_of_map_to_list in Hneed.
    specialize (Hneed Hr). apply orb_true_iff in Hneed as [Hr'|Hs]; [left; by apply bool_decide_eq_true in Hr'|right].
    by destruct (Mux.description (Mux.args comp)). }
  split; [|intros c Hc%list_elem_of_In%Hreq; destruct (cm !! c) as [[e'|]|]; try done; apply bool_decide_eq_true in Hc; by exists e'].
  intros c. split.
  - intros Hc%list_elem_of_In%Himpls. by apply bool_decide_eq_true in Hc.
  - intros Hc. specialize (Hdeps (c, 1)). cbn in Hdeps. rewrite <- list_elem_of_In, elem_of_map_to_list in Hdeps.
    specialize (Hdeps Hc). by apply bool_decide_eq_true in Hdeps.
Qed.

(** What an interface withdraws, for any value of its flag. *)
Lemma unrequestDeps_mux flags reqs l cm name :
  checked reqs l cm →
  unrequestDeps flags cm name = [] ∨
  ∃ m first others e comp key,
    cm !! name = Some (Some e) ∧ Component.comp e = MuxInterface m first others ∧ name = muxName m ∧
    muxComp m first others = Ret comp ∧ merged (muxName m) (muxDecl m first :: (muxDecl m <$> others)) comp ∧
    unrequestDeps flags cm name = Component.mux_unrequestDeps (Mux.impls (Mux.args comp)) (Some key).
Proof.
  intros Hck. unfold unrequestDeps, instance_of. destruct (cm !! name) as [[e|]|] eqn:He; [|by left..].
  cbn [mbind option_bind]. destruct (Component.comp e) as [| | | | | | | | | | | |m first others| | | | | | | | | | |] eqn:Hcomp; try by left.
  destruct (checked_mux _ _ _ _ _ _ _ _ Hck He Hcomp) as (Hname & comp & opt & Hc & Hopt & Hm & _).
  unfold muxFlag. rewrite Hc. unfold Mux.unrequestDeps. destruct (Mux.selection (flags !! muxName m)) as [key|]; [right|by left].
  by exists m, first, others, e, comp, key.
Qed.

Lemma NoDup_mux_unrequestDeps muxname ds comp key :
  merged muxname ds comp → NoDup (Component.mux_unrequestDeps (Mux.impls (Mux.args comp)) (Some key)).
Proof.
  intros Hm. unfold Component.mux_unrequestDeps. apply NoDup_fmap_2_strong.
  - intros [n1 c1] [n2 c2] [_ H1]%list_elem_of_filter [_ H2]%list_elem_of_filter.
    rewrite map_order_perm, elem_of_map_to_list, (merged_impls _ _ _ Hm) in H1, H2. repeat case_decide; [|done..].
    cbn. intros <-. injection H1 as H1. injection H2 as H2. rewrite <- H2 in H1.
    unfold Mux.implComponent in H1. apply (inj _), (inj _) in H1. congruence.
  - apply NoDup_filter. rewrite map_order_perm. apply NoDup_map_to_list.
Qed.

Lemma checked_withdraw flags reqs l cm components :
  checked reqs l cm → (∀ c, c ∈ components → is_Some (cm !! c)) →
  can_withdraw (unrequestDeps flags cm) (Component.store_of cm) components.
Proof.
  intros Hck Hcomponents c Hc. destruct (Hcomponents c Hc) as [oe Hoe].
  destruct (ck_entry _ _ _ Hck _ _ Hoe) as (e & -> & Hok & _). split; [|].
  { unfold entry_ok in Hok. rewrite !andb_true_iff, bool_decide_eq_true in Hok. destruct Hok as ((-> & _) & _). apply Name_not_main. }
  destruct (unrequestDeps_mux flags _ _ _ c Hck) as [->|(m & first & others & e' & comp & key & He' & Hcomp & -> & _ & Hm & ->)].
  { split; [apply NoDup_nil_2|by intros d ?%not_elem_of_nil]. }
  split; [by eapply NoDup_mux_unrequestDeps|]. rewrite Hoe in He'. injection He' as <-. intros d Hd.
  destruct (checked_mux _ _ _ _ _ _ _ _ Hck Hoe Hcomp) as (_ & comp' & opt & Hc' & _ & Hm' & _ & Hdeps & _).
  apply (elem_of_unrequestDeps _ _ _ _ _ Hm) in Hd as (name & Hname & _ & ->).
  assert (Hone : Component.deps e !! Mux.implComponent (muxName m) name = Some 1).
  { apply Hdeps, list_elem_of_fmap. exists (name, Mux.implComponent (muxName m) name). split; [done|].
    apply elem_of_map_to_list. rewrite (merged_impls _ _ _ Hm'). by rewrite decide_True. }
  unfold requests_out, Component.store_of. rewrite lookup_omap, Hoe. cbn. by rewrite Hone.
Qed.

(** *** Flags *)

Lemma flagName_inj prefix : Inj (=) (=) (Subset.flagName prefix).
Proof.
  assert (Hlong : ∀ s, prefix ≠ prefix +:+ "-" +:+ s).
  { intros s Heq. apply (f_equal (length ∘ String.list_ascii_of_string)) in Heq. cbn in Heq.
    rewrite !chars_app, !length_app in Heq. cbn in Heq. lia. }
  intros n1 n2. unfold Subset.flagName. repeat case_bool_decide; subst; try done.
  - by intros ?%Hlong.
  - by intros Heq%symmetry%Hlong.
  - by intros Heq%(inj _)%(inj _).
Qed.

Lemma setupFlags_ret reqs l cm components :
  checked reqs l cm → (∀ c, c ∈ components → is_Some (cm !! c)) →
  NoDup (components ≫= flags_of klogFlags cm) →
  setupFlags klogFlags cm components = Ret (components ≫= flags_of klogFlags cm).
Proof.
  intros Hck Hin. unfold setupFlags. change (components ≫= flags_of klogFlags cm) with ([] ++ (components ≫= flags_of klogFlags cm)).
  generalize (@nil string). induction components as [|c components IH]; intros fs Hnd; [cbn; by rewrite app_nil_r|].
  destruct (Hin c ltac:(left)) as [oe Hoe]. destruct (ck_entry _ _ _ Hck _ _ Hoe) as (e & -> & Hok & _).
  unfold entry_ok in Hok. rewrite !andb_true_iff in Hok. destruct Hok as ((_ & Hadd) & _).
  rewrite bind_cons in Hnd |- *. cbn [outcome_foldl].
  assert (Hf : flags_of klogFlags cm c = match AddFlags klogFlags (Component.comp e) with
    | Ret names => Subset.flagName c <$> names | Panic _ => [] end) by (unfold flags_of, instance_of; by rewrite Hoe).
  assert (Hi : instance_of cm c = Some (Component.comp e)) by (unfold instance_of; by rewrite Hoe).
  rewrite Hi. destruct (AddFlags klogFlags (Component.comp e)) as [names|] eqn:Hn; [|done]. rewrite Hf in *.
  cbn [mbind outcome_bind]. unfold Subset.AddSubset. rewrite app_assoc in Hnd.
  rewrite bool_decide_true by by apply NoDup_app in Hnd as [? _]. cbn. rewrite IH; [by rewrite <- app_assoc| |done].
  intros b Hb. apply Hin. by right.
Qed.

Lemma checked_flags reqs l cm components :
  checked reqs l cm → NoDup klogFlags → NoDup components → (∀ c, c ∈ components ↔ is_Some (cm !! c)) →
  NoDup (components ≫= flags_of klogFlags cm).
Proof.
  intros Hck Hklog Hnd Hin. assert (Hperm : components ≡ₚ "klog" :: filter (.≠ "klog") l).
  { apply NoDup_Permutation; [done| |].
    - apply NoDup_cons. split; [by intros [? _]%list_elem_of_filter|apply NoDup_filter, (ck_nodup _ _ _ Hck)].
    - intros c. rewrite Hin, <- (ck_dom _ _ _ Hck), elem_of_cons, list_elem_of_filter. split; [destruct (decide (c = "klog")); auto|].
      intros [->|[_ ?]]; [|done]. rewrite (ck_dom _ _ _ Hck). pose proof (ck_instance _ _ _ Hck) as Hi. unfold instance_of in Hi.
      by destruct (cm !! "klog"). }
  rewrite Hperm, bind_cons. unfold flags_of at 1. rewrite (ck_instance _ _ _ Hck). cbn [AddFlags].
  apply NoDup_app. split; [apply NoDup_fmap_2; [apply flagName_inj|done]|]. split; [|apply (ck_flags _ _ _ Hck)].
  intros f Hf Hf'%(ck_klog _ _ _ Hck). apply list_elem_of_fmap in Hf as (n & -> & _).
  unfold Subset.flagName in Hf'. case_bool_decide; [done|]. by rewrite !append_cons in Hf'.
Qed.

(** *** Selected implementations *)

Definition enabled flags cm : string → Prop :=
  reached (kept_root (isRequestedFromMain cm) (Component.store_of cm)) (kept_dep (unrequestDeps flags cm) (Component.store_of cm)).

Lemma requests_in_entry cm a b e :
  cm !! b = Some (Some e) → requests_in (Component.store_of cm) a b = Component.requesters e !! a.
Proof. intros Hb. unfold requests_in, Component.store_of. by rewrite lookup_omap, Hb. Qed.
Lemma requests_out_entry cm a b e :
  cm !! a = Some (Some e) → requests_out (Component.store_of cm) a b = Component.deps e !! b.
Proof. intros Ha. unfold requests_out, Component.store_of. by rewrite lookup_omap, Ha. Qed.

(** A request of a component is seen at its other end. *)
Lemma requests_out_in cm a b k :
  in_sync (Component.store_of cm) → requests_out (Component.store_of cm) a b = Some k →
  a ≠ Component.mainRequester ∧ requests_in (Component.store_of cm) a b = Some k.
Proof.
  intros Hs Hout. assert (Ha : a ≠ Component.mainRequester).
  { intros ->. unfold requests_out in Hout. by rewrite (sync_main _ Hs) in Hout. }
  split; [done|]. by rewrite <- (sync_eq _ Hs).
Qed.

(** An interface that is enabled was requested by someone who needs it. *)
Lemma enabled_needed reqs l cm flags m first others e comp :
  checked reqs l cm → in_sync (Component.store_of cm) → cm !! muxName m = Some (Some e) → Component.comp e = MuxInterface m first others →
  (∀ r, is_Some (Component.requesters e !! r) → r = Component.mainRequester ∨ is_Some (Mux.description (Mux.args comp))) →
  enabled flags cm (muxName m) → is_Some (Mux.description (Mux.args comp)).
Proof.
  intros Hck Hs He Hcomp Hneed Hen. inversion Hen as [? [Hroot _] Heq|a b Ha (k & Hk & _) Heq].
  - unfold isRequestedFromMain, instance_of in Hroot. by rewrite He, Hcomp in Hroot.
  - apply (requests_out_in _ _ _ _ Hs) in Hk as [Hne Hk]. rewrite (requests_in_entry _ _ _ _ He) in Hk.
    destruct (Hneed a) as [?|?]; [by eexists|done|done].
Qed.

(** The component of an implementation is enabled by its interface only. *)
Lemma enabled_impl cm flags name c e :
  in_sync (Component.store_of cm) → cm !! c = Some (Some e) → Component.requesters e = {[ name := 1 ]} → name ≠ Component.mainRequester →
  enabled flags cm c → c ∉ unrequestDeps flags cm name.
Proof.
  intros Hs He Hreq Hname Hen. inversion Hen as [? [_ Hroot] Heq|a b Ha (k & Hk & Hmore) Heq]; subst.
  - rewrite (requests_in_entry _ _ _ _ He), Hreq in Hroot. by rewrite lookup_singleton_ne in Hroot by done; destruct Hroot.
  - apply (requests_out_in _ _ _ _ Hs) in Hk as [_ Hk]. rewrite (requests_in_entry _ _ _ _ He), Hreq in Hk.
    apply lookup_singleton_Some in Hk as [<- <-]. intros Hun%Hmore. lia.
Qed.

(** *** The command line *)
Context `{!Pflag}.

(** The values that a flag is given, and the error of a setting that is refused. *)
Definition values (name : string) (cmdline : list (string * string)) : list string :=
  omap (λ '(n, value), if decide (n = name) then Some value else None) cmdline.
Definition refused_by (flag : string → option (Enum.EnumValue string)) (name value : string) : option error :=
  match flag name with
  | Some enum =>
      match Enum.resolve enum !! value with
      | Some _ => None
      | None => Some (InvalidArgument name value (TagErrorf "NoEnumVariant" ("unknown option " +:+ Quote value)))
      end
  | None => SetOther name value
  end.

Lemma lookup_newFlags cm components name :
  (∀ c, c ∈ components ↔ is_Some (cm !! c)) → newFlags cm components !! name = newFlag cm name.
Proof.
  intros Hin. assert (Hgen : newFlags cm components !! name = if decide (name ∈ components) then newFlag cm name else None).
  { clear Hin. induction components as [|c components IH]; [by unfold newFlags; cbn [foldr]; rewrite lookup_empty|]. cbn [newFlags foldr].
    fold (newFlags cm components). change (Subset.flagName c Subset.EmptyFlagName) with c. destruct (decide (name = c)) as [->|Hne].
    - rewrite decide_True by left. destruct (newFlag cm c) as [enum|] eqn:Hc; [by rewrite lookup_insert_eq|]. rewrite IH. by case_decide.
    - assert (Hiff : name ∈ c :: components ↔ name ∈ components) by (rewrite elem_of_cons; naive_solver).
      transitivity (newFlags cm components !! name); [destruct (newFlag cm c); [by rewrite lookup_insert_ne|done]|].
      rewrite IH. destruct (decide (name ∈ components)); [by rewrite decide_True by (by right)|]. rewrite decide_False; [done|]. by rewrite Hiff. }
  rewrite Hgen. destruct (decide (name ∈ components)) as [|Hn]; [done|]. unfold newFlag, instance_of.
  destruct (cm !! name) eqn:Hc; [|done]. exfalso. apply Hn, Hin. by rewrite Hc.
Qed.

Lemma Parse_spec cmdline : ∀ flags,
  match Parse flags cmdline with
  | inl flags' => (∀ n v, (n, v) ∈ cmdline → refused_by (flags !!.) n v = None) ∧
      ∀ name, Mux.parse Quote (flags !! name) (values name cmdline) = inl (flags' !! name)
  | inr err => ∃ pre n v post, cmdline = pre ++ (n, v) :: post ∧ (∀ n v, (n, v) ∈ pre → refused_by (flags !!.) n v = None) ∧
      refused_by (flags !!.) n v = Some err
  end.
Proof.
  induction cmdline as [|[n v] cmdline IH]; intros flags; cbn [Parse].
  { split; [by intros ? ? ?%not_elem_of_nil|]. intros name. cbn. by destruct (flags !! name). }
  assert (Hcons : ∀ flags', refused_by (flags !!.) n v = None →
    (∀ n' v', refused_by (flags' !!.) n' v' = refused_by (flags !!.) n' v') →
    (∀ name, Mux.parse Quote (flags !! name) (values name ((n, v) :: cmdline)) = Mux.parse Quote (flags' !! name) (values name cmdline)) →
    match Parse flags' cmdline with
    | inl flags'' => (∀ n' v', (n', v') ∈ (n, v) :: cmdline → refused_by (flags !!.) n' v' = None) ∧
        ∀ name, Mux.parse Quote (flags !! name) (values name ((n, v) :: cmdline)) = inl (flags'' !! name)
    | inr err => ∃ pre n' v' post, (n, v) :: cmdline = pre ++ (n', v') :: post ∧
        (∀ n v, (n, v) ∈ pre → refused_by (flags !!.) n v = None) ∧ refused_by (flags !!.) n' v' = Some err
    end).
  { intros flags' Hnow Hsame Hparse. specialize (IH flags'). destruct (Parse flags' cmdline) as [flags''|err].
    - destruct IH as [H1 H2]. split; [|intros name; by rewrite Hparse].
      intros n' v' [[= -> ->]|Hin]%elem_of_cons; [done|]. rewrite <- Hsame. by apply H1.
    - destruct IH as (pre & n' & v' & post & -> & H1 & H2). exists ((n, v) :: pre), n', v', post. split; [done|].
      split; [|by rewrite <- Hsame]. intros n'' v'' [[= -> ->]|Hin]%elem_of_cons; [done|]. rewrite <- Hsame. by apply H1. }
  destruct (flags !! n) as [enum|] eqn:Hn.
  - unfold Enum.Set_. destruct (Enum.resolve enum !! v) as [x|] eqn:Hx.
    + apply Hcons.
      * unfold refused_by. by rewrite Hn, Hx.
      * intros n' v'. unfold refused_by. destruct (decide (n' = n)) as [->|]; [by rewrite lookup_insert_eq, Hn|by rewrite lookup_insert_ne].
      * intros name. cbn [values omap list_omap]. destruct (decide (n = name)) as [<-|]; [|by rewrite lookup_insert_ne].
        rewrite lookup_insert_eq, Hn. unfold Mux.parse. cbn [Mux.setAll]. unfold Enum.Set_. by rewrite Hx.
    + exists [], n, v, cmdline. split; [done|]. split; [by intros ? ? ?%not_elem_of_nil|]. unfold refused_by. by rewrite Hn, Hx.
  - destruct (SetOther n v) as [err|] eqn:Ho.
    + exists [], n, v, cmdline. split; [done|]. split; [by intros ? ? ?%not_elem_of_nil|]. unfold refused_by. by rewrite Hn.
    + apply Hcons; [unfold refused_by; by rewrite Hn|done|]. intros name. cbn [values omap list_omap].
      destruct (decide (n = name)) as [<-|]; [by rewrite Hn|done].
Qed.

(** An enabled interface has exactly the implementation that its flag selects. *)
Lemma enabled_mux reqs l cm flags cmdline c m first others :
  checked reqs l cm → in_sync (Component.store_of cm) →
  (∀ name, Mux.parse Quote (newFlag cm name) (values name cmdline) = inl (flags !! name)) →
  instance_of cm c = Some (MuxInterface m first others) → enabled flags cm c →
  ∃ comp opt default selected, muxFlag flags (MuxInterface m first others) = Some (comp, opt) ∧
    Mux.defaultOption (Mux.args comp) = Some default ∧
    Mux.impls (Mux.args comp) !! List.last (values c cmdline) default = Some selected ∧
    Mux.getImpl comp opt = Ret selected ∧ enabled flags cm selected ∧
    ∀ name c', Mux.impls (Mux.args comp) !! name = Some c' → enabled flags cm c' → c' = selected.
Proof.
  intros Hck Hs Hparsed Hi Hen. pose proof (Hparsed c) as Hparse. unfold newFlag in Hparse. rewrite Hi in Hparse.
  unfold instance_of in Hi. destruct (cm !! c) as [[e|]|] eqn:He; try done. injection Hi as Hcomp.
  destruct (checked_mux _ _ _ _ _ _ _ _ Hck He Hcomp) as (-> & comp & opt & Hc & Hopt & Hm & Hneed & Hdeps & Hreq).
  rewrite Hc in Hparse. cbn [mbind outcome_bind] in Hparse. rewrite Hopt in Hparse.
  pose proof (enabled_needed _ _ _ _ _ _ _ _ _ Hck Hs He Hcomp Hneed Hen) as [text Hdesc].
  destruct opt as [enum|]; [|unfold Mux.addFlags in Hopt; rewrite Hdesc in Hopt; by destruct (Mux.defaultOption (Mux.args comp))].
  pose proof (parse_selection _ Quote _ _ _ (values (muxName m) cmdline) Hm Hopt) as Hsel. rewrite Hparse in Hsel.
  destruct Hsel as (_ & default & Hdef & Hsel & Hkey). set (key := List.last (values (muxName m) cmdline) default) in *.
  destruct (merged_selected _ Quote _ _ _ _ _ Hm Hopt Hparse) as (key' & Hsel' & _ & Hget). rewrite Hsel in Hsel'. injection Hsel' as <-.
  assert (Himpl : ∀ name c', Mux.impls (Mux.args comp) !! name = Some c' → c' ∈ (map_to_list (Mux.impls (Mux.args comp))).*2).
  { intros name c' Hn. apply list_elem_of_fmap. exists (name, c'). split; [done|by apply elem_of_map_to_list]. }
  assert (Hflag : muxFlag flags (MuxInterface m first others) = Some (comp, flags !! muxName m)) by (unfold muxFlag; by rewrite Hc).
  assert (Hun : unrequestDeps flags cm (muxName m) = Component.mux_unrequestDeps (Mux.impls (Mux.args comp)) (Some key)).
  { unfold unrequestDeps, instance_of. rewrite He, Hcomp. cbn [mbind option_bind]. rewrite Hflag. unfold Mux.unrequestDeps. by rewrite Hsel. }
  assert (Hin : Mux.impls (Mux.args comp) !! key = Some (Mux.implComponent (muxName m) key)).
  { rewrite (merged_impls _ _ _ Hm). by rewrite decide_True. }
  exists comp, (flags !! muxName m), default, (Mux.implComponent (muxName m) key).
  split; [done|]. split; [done|]. split; [done|]. split; [done|]. split.
  - eapply reached_dep; [exact Hen|]. exists 1. split.
    + rewrite (requests_out_entry _ _ _ _ He). by apply Hdeps, (Himpl key).
    + rewrite Hun, (elem_of_unrequestDeps _ _ _ _ _ Hm). intros (name & _ & Hne & Heq).
      unfold Mux.implComponent in Heq. apply (inj _), (inj _) in Heq. congruence.
  - intros name c' Hn Hen'. destruct (Hreq c' (Himpl _ _ Hn)) as (e' & He' & Hr).
    pose proof (enabled_impl _ _ _ _ _ Hs He' Hr (Name_not_main (MuxInterface m first others)) Hen') as Hnot.
    rewrite (merged_impls _ _ _ Hm) in Hn. case_decide as Hdecl; [|done]. injection Hn as <-.
    destruct (decide (name = key)) as [->|Hne]; [done|]. exfalso. apply Hnot. rewrite Hun, (elem_of_unrequestDeps _ _ _ _ _ Hm).
    by exists name.
Qed.

End checked.
End wiring_lemmas.

Section listed.
Import Wiring.
Context `{!GoRuntime}.

Lemma checked_listed klogFlags p reqs l cm :
  checked klogFlags reqs l cm → resolved p = Some (Ret cm) →
  ∃ components, listed p = Some (Ret components) ∧ NoDup components ∧ ∀ c, c ∈ components ↔ is_Some (cm !! c).
Proof.
  intros Hck Hrun. pose proof (ResolveList_cases Name dependencies mergeInto Name_not_main depth (requests p)) as Hcases.
  unfold resolved in Hrun. rewrite Hrun in Hcases.
  destruct Hcases as [(components & Hlist & Hnd & Hdom & _)|[_ Hcyc]]; [|by apply (checked_acyclic _ _ _ _ Hck) in Hcyc].
  exists components. split; [done|]. split; [done|]. intros c. rewrite Hdom, elem_of_edges_of. split; [by intros [e ->]|].
  intros [oe Hoe]. destruct (ck_entry _ _ _ _ Hck _ _ Hoe) as (e & -> & _). by exists e.
Qed.

(** The components that a process initializes, if its command line is accepted. *)
Lemma process_list `{!Pflag} klogFlags cmdline p :
  NoDup klogFlags →
  ∃ cm fs, resolved p = Some (Ret cm) ∧ checked klogFlags (requests p) (order p) cm ∧ NoDup fs ∧
  ((∃ pre name value post err, cmdline = pre ++ (name, value) :: post ∧ (∀ n v, (n, v) ∈ pre → refused_by (newFlag cm) n v = None) ∧
      refused_by (newFlag cm) name value = Some err ∧
      tryRun klogFlags cmdline p = Some (Ret (inr (TagWrapf "ParseArgs" (Some err) "parse args")))) ∨
   (∀ n v, (n, v) ∈ cmdline → refused_by (newFlag cm) n v = None) ∧
   ∃ flags l, tryRun klogFlags cmdline p = Some (Ret (inl (fs, flags, l))) ∧
     (∀ name, Mux.parse Quote (newFlag cm name) (values name cmdline) = inl (flags !! name)) ∧
     (∀ c, c ∈ l ↔ enabled flags cm c) ∧
     (∀ l1 c l2, l = l1 ++ c :: l2 → ∀ b, kept_dep (unrequestDeps flags cm) (Component.store_of cm) c b → b ∈ l1) ∧ NoDup l).
Proof.
  intros Hklog. pose proof (processes_ok klogFlags p) as Hok. unfold tryRun.
  destruct (resolved p) as [[cm|]|] eqn:Hrun; [|done..]. apply cm_ok_spec in Hok.
  destruct (checked_listed _ _ _ _ _ Hok Hrun) as (components & Hlist & Hnd & Hin).
  assert (Hsome : ∀ c, c ∈ components → is_Some (cm !! c)) by (intros c; apply Hin).
  pose proof (checked_flags _ _ _ _ _ Hok Hklog Hnd Hin) as Hflags.
  exists cm, (components ≫= flags_of klogFlags cm). split; [done|]. split; [done|]. split; [done|].
  rewrite Hlist. cbn [mbind Component.run_bind]. rewrite (setupFlags_ret _ _ _ _ _ Hok Hsome Hflags). cbn [mbind Component.run_bind].
  assert (Hnew : ∀ n v, refused_by (newFlags cm components !!.) n v = refused_by (newFlag cm) n v).
  { intros n v. unfold refused_by. by rewrite lookup_newFlags. }
  pose proof (Parse_spec cmdline (newFlags cm components)) as Hparse. destruct (Parse _ cmdline) as [flags|err].
  - right. destruct Hparse as [H1 H2]. split; [intros n v Hnv; rewrite <- Hnew; by apply H1|].
    destruct (trim_resolved Name dependencies mergeInto depth (requests p) cm components
      (isRequestedFromMain cm) (unrequestDeps flags cm) Name_not_main Hrun Hlist
      (checked_withdraw _ _ _ _ _ _ Hok Hsome)) as (l & Htrim & Hl & Hbefore & Hndl).
    exists flags, l. rewrite Htrim. split; [done|]. split; [intros name; rewrite <- H2; by rewrite lookup_newFlags|done].
  - left. destruct Hparse as (pre & name & value & post & -> & H1 & H2). exists pre, name, value, post, err. split; [done|].
    split; [intros n v Hnv; rewrite <- Hnew; by apply H1|]. split; [by rewrite <- Hnew|done].
Qed.
End listed.

(** ** Properties *)

(** C27. Every process of the repository gets past the framework, however maps are ordered, for any command line: its requests are resolved
    without cycles or clashes of types or of flags, and no interface lacks a default. If a flag is refused, as an implementation that does
    not exist is, the process ends with the error of the first such flag; otherwise trimming succeeds, each component that is left
    comes after those it still requests, what main requests is there, and each interface that is left has the implementation that
    the last value of its flag names, or the default, and no other one. *)
Theorem processes_start `{!GoRuntime, !Wiring.Pflag} (klogFlags : list string) (cmdline : list (string * string)) (p : Wiring.process) :
  NoDup klogFlags →
  ∃ cm fs, Wiring.resolved p = Some (Ret cm) ∧ NoDup fs ∧
  match Wiring.tryRun klogFlags cmdline p with
  | Some (Ret (inr err)) =>
      ∃ pre name value post err', cmdline = pre ++ (name, value) :: post ∧
        (∀ n v, (n, v) ∈ pre → refused_by (Wiring.newFlag cm) n v = None) ∧
        refused_by (Wiring.newFlag cm) name value = Some err' ∧ err = TagWrapf "ParseArgs" (Some err') "parse args"
  | Some (Ret (inl (fs', flags, l))) =>
      (∀ n v, (n, v) ∈ cmdline → refused_by (Wiring.newFlag cm) n v = None) ∧ fs' = fs ∧
      (∀ l1 c l2 b, l = l1 ++ c :: l2 →
        kept_dep (Wiring.unrequestDeps flags cm) (Component.store_of cm) c b → b ∈ l1) ∧
      (∀ d, d ∈ Wiring.requests p → Wiring.isRequestedFromMain cm (Wiring.Name d) = true → Wiring.Name d ∈ l) ∧
      ∀ c m first others, Wiring.instance_of cm c = Some (Wiring.MuxInterface m first others) → c ∈ l →
        ∃ comp opt default selected, Wiring.muxFlag flags (Wiring.MuxInterface m first others) = Some (comp, opt) ∧
          Mux.defaultOption (Mux.args comp) = Some default ∧
          Mux.impls (Mux.args comp) !! List.last (values c cmdline) default = Some selected ∧
          Mux.getImpl comp opt = Ret selected ∧ selected ∈ l ∧
          ∀ name c', Mux.impls (Mux.args comp) !! name = Some c' → c' ∈ l → c' = selected
  | _ => False
  end.
Proof.
  intros Hklog. destruct (process_list klogFlags cmdline p Hklog) as (cm & fs & Hrun & Hok & Hfs & Hcases).
  exists cm, fs. split; [done|]. split; [done|]. destruct Hcases as [Hfail|[Hacc Hlist]].
  { destruct Hfail as (pre & name & value & post & err & Heq & Hpre & Href & ->). by exists pre, name, value, post, err. }
  destruct Hlist as (flags & l & -> & Hparsed & Hl & Hbefore & _).
  pose proof (resolved_in_sync _ _ _ _ _ _ Name_not_main Hrun) as Hs.
  split; [done|]. split; [done|]. split; [intros l1 c l2 b Heq; by eapply Hbefore|]. split.
  - intros d Hd Hroot. apply Hl, reached_root. split; [done|by apply (ck_reqs _ _ _ _ Hok)].
  - intros c m first others Hi Hc%Hl.
    destruct (enabled_mux _ _ _ _ _ _ _ _ _ _ Hok Hs Hparsed Hi Hc) as (comp & opt & default & sel & ? & ? & ? & ? & Hsel & Hother).
    exists comp, opt, default, sel. do 4 (split; [done|]). split; [by apply Hl|]. intros name c' Hn Hc'%Hl. by eapply Hother.
Qed.

(** A flag set that has two flags of klog besides. *)
#[local] Instance example_pflag : Wiring.Pflag := {|
  Wiring.Quote := id;
  Wiring.SetOther name value := if decide (name ∈ ["klog-v"; "klog-logtostderr"]) then None else Some (errorString ("unknown flag: --" +:+ name));
  Wiring.InvalidArgument name value err := wrapError ("invalid argument " +:+ value +:+ " for --" +:+ name) err |}.

(** The webhook when it is told to use a map of clients, and when it is told to use clients that do not exist. *)
Lemma processes_start_witness :
  let good := [("klog-v", "4"); ("webhook-worker-client-provider", "map")] in
  let bad := [("webhook-worker-client-provider", "etcd")] in
  NoDup ["v"; "logtostderr"] ∧
  (∃ cm fs flags l, Wiring.resolved Wiring.WebhookProcess = Some (Ret cm) ∧
    Wiring.tryRun ["v"; "logtostderr"] good Wiring.WebhookProcess = Some (Ret (inl (fs, flags, l))) ∧ NoDup fs ∧
    ∀ l1 c l2 b, l = l1 ++ c :: l2 → kept_dep (Wiring.unrequestDeps flags cm) (Component.store_of cm) c b → b ∈ l1) ∧
  ∃ err, Wiring.tryRun ["v"; "logtostderr"] bad Wiring.WebhookProcess = Some (Ret (inr err)).
Proof.
  intros good bad.
  assert (Hnd : NoDup ["v"; "logtostderr"]) by (apply (bool_decide_eq_true_1 _); vm_compute; reflexivity).
  split; [exact Hnd|]. split.
  - destruct (processes_start ["v"; "logtostderr"] good Wiring.WebhookProcess Hnd) as (cm & fs & Hcm & Hfs & Hrun).
    assert (Hgood : match Wiring.tryRun ["v"; "logtostderr"] good Wiring.WebhookProcess with
      | Some (Ret (inl _)) => True | _ => False end) by (vm_compute; exact I).
    destruct (Wiring.tryRun _ good _) as [[[[[fs' flags] l]|err]|msg]|]; [|destruct Hgood..].
    destruct Hrun as (_ & -> & Hl & _). exists cm, fs, flags, l. split; [exact Hcm|]. split; [reflexivity|]. split; [exact Hfs|exact Hl].
  - assert (Hbad : match Wiring.tryRun ["v"; "logtostderr"] bad Wiring.WebhookProcess with
      | Some (Ret (inr _)) => True | _ => False end) by (vm_compute; exact I).
    destruct (Wiring.tryRun _ bad _) as [[[[[fs' flags] l]|err]|msg]|]; [destruct Hbad| |destruct Hbad..]. exists err. reflexivity.
Defined.

(** What the webhook then has: the flags of all components, and the components that are initialized. *)
Example webhook_components :
  match Wiring.tryRun [] [("webhook-worker-client-provider", "none"); ("webhook-worker-client-provider", "map")] Wiring.WebhookProcess with
  | Some (Ret (inl (_, _, l))) => Some l
  | _ => None
  end =
  Some ["klog"; "metrics"; "observer-webhook"; "observer-retrybatch"; "observer-healthz"; "observer-ppr-informer"; "kube-metrics";
    "webhook-worker-client-provider.map"; "webhook-worker-client-provider"; "webhook-requires-pod-name.never";
    "webhook-requires-pod-name"; "default-admission-history-config"; "core-kube"; "podprotector-source-provider.core-only";
    "podprotector-source-provider"; "podprotector-indexed-informer-"; "webhook-handler"; "webhook"; "shutdown-notifier"; "healthz";
    "prometheus-http"; "pprof"].
Proof. vm_compute. reflexivity. Qed.

(** *** What components share *)
Section shared.
Import Wiring.
Context `{!GoRuntime}.

(** Observers and interfaces are meant to be merged; the others are taken from the first request. *)
Definition merges (d : declared) : bool := match d with Observer _ _ | MuxInterface _ _ _ => true | _ => false end.

(** Every dependency of a component is the one that it declared. *)
Definition as_requested cm : Prop := ∀ c d d',
  instance_of cm c = Some d → d' ∈ dependencies d → merges d' = false → instance_of cm (Name d') = Some d'.
Definition as_requested_check (cm : gmap string (option (Component.componentMapEntry (Decl := declared)))) : bool :=
  forallb (λ '(c, _), match instance_of cm c with
    | Some d => forallb (λ d', merges d' || bool_decide (instance_of cm (Name d') = Some d')) (dependencies d)
    | None => true
    end) (map_to_list cm).

Lemma as_requested_spec cm : as_requested_check cm = true → as_requested cm.
Proof.
  intros Hck c d d' Hc Hd' Hm. unfold as_requested_check in Hck. rewrite forallb_forall in Hck.
  assert (Hin : ∃ oe, (c, oe) ∈ map_to_list cm).
  { unfold instance_of in Hc. destruct (cm !! c) as [oe|] eqn:Hoe; [|done]. exists oe. by apply elem_of_map_to_list. }
  destruct Hin as [oe Hin]. apply list_elem_of_In in Hin. specialize (Hck _ Hin). cbn in Hck. rewrite Hc, forallb_forall in Hck.
  apply list_elem_of_In in Hd'. specialize (Hck d' Hd'). rewrite Hm in Hck. by apply bool_decide_eq_true in Hck.
Qed.

(** What the implementations of an observer in a process are. *)
Definition observers_of cm (o : observed) : list provided :=
  match instance_of cm (Name (RequestObserver o)) with Some (Observer _ impls) => impls | _ => [] end.

Lemma shared_check p :
  match resolved p with
  | Some (Ret cm) => match p with
      | AllInOneProcess => bool_decide (instance_of cm "webhook-handler" = Some WebhookHandler) &&
          bool_decide (instance_of cm "podprotector-indexed-informer-" = Some (IndexedInformer "" (Some AggregatorElectorArgs))) &&
          bool_decide (observers_of cm ObsWebhook = [Logging; Metrics]) && bool_decide (observers_of cm ObsRetrybatch = [])
      | WebhookProcess => as_requested_check cm && bool_decide (observers_of cm ObsWebhook = [Logging; Metrics]) &&
          bool_decide (observers_of cm ObsRetrybatch = [Metrics])
      | _ => as_requested_check cm
      end
  | _ => false
  end = true.
Proof. destruct p; vm_compute; reflexivity. Qed.
End shared.

(** In the webhook, the aggregator and the generator every component gets the dependencies that it declares, and the observers of the
    webhook and of its pool are those that main provides. In the process that has all of them the webhook is given
    the informer of the aggregator, which has the same name but waits for the leader election of the aggregator, and nobody
    observes the pool. *)
Theorem components_share_as_declared `{!GoRuntime} (p : Wiring.process) :
  ∃ cm, Wiring.resolved p = Some (Ret cm) ∧
  match p with
  | Wiring.AllInOneProcess =>
      Wiring.instance_of cm "webhook-handler" = Some Wiring.WebhookHandler ∧
      Wiring.IndexedInformer "" None ∈ Wiring.dependencies Wiring.WebhookHandler ∧
      Wiring.instance_of cm (Wiring.Name (Wiring.IndexedInformer "" None)) =
        Some (Wiring.IndexedInformer "" (Some Wiring.AggregatorElectorArgs)) ∧
      observers_of cm Wiring.ObsWebhook = [Wiring.Logging; Wiring.Metrics] ∧ observers_of cm Wiring.ObsRetrybatch = []
  | Wiring.WebhookProcess => as_requested cm ∧
      observers_of cm Wiring.ObsWebhook = [Wiring.Logging; Wiring.Metrics] ∧ observers_of cm Wiring.ObsRetrybatch = [Wiring.Metrics]
  | _ => as_requested cm
  end.
Proof.
  pose proof (shared_check p) as Hck. destruct (Wiring.resolved p) as [[cm|]|]; [|done..]. exists cm. split; [done|].
  destruct p; rewrite ?andb_true_iff, ?bool_decide_eq_true in Hck.
  - destruct Hck as ((? & ?) & ?). split; [by apply as_requested_spec|done].
  - by apply as_requested_spec.
  - by apply as_requested_spec.
  - destruct Hck as (((? & ?) & ?) & ?). split; [done|]. split; [by right; left|]. done.
Qed.

(** The flags of an implementation are prefixed with the name of its component, which has a dot. *)
Example implementation_flags :
  Subset.flagName (Wiring.Name (Wiring.MuxImpl Wiring.FilterByCellRequiresPodName)) <$>
    Wiring.implFlags Wiring.FilterByCellRequiresPodName = ["webhook-requires-pod-name.by-cell-filter"].
Proof. vm_compute. reflexivity. Qed.
