(* ===== verification/Worker.v ===== *)
(** * Worker: the workers of a reconciler (util/worker)

    Items of a work queue are handed to an executor by several workers; failed items are queued again
    with a backoff. The queue is that of client-go: a class states what its documentation promises
    of the operations that the workers use, and the workers are verified against the class. *)

From S2P Require Import Prelude Util Errors.

(** ** The work queue

    Of a queue one can observe when an item is due at the earliest, whether it is being processed, and how many
    rate-limited additions were not forgotten. [AddAfter] keeps the sooner time; an
    item that is processed is not delivered, whatever is added, until it is [Done]. The rate limiter
    is the exponential one that [New] configures. *)
Class WorkQueue (Item : Type) := {
  Queue : Type;
  due : Queue → Item → option Time;
  processing : Queue → Item → bool;
  NumRequeues : Queue → Item → nat;
  Add : Time → Item → Queue → Queue;
  AddAfter : Time → Item → Duration → Queue → Queue;
  AddRateLimited : Time → Item → Queue → Queue;
  Done : Item → Queue → Queue;
  Delivers : Time → Queue → Item → Queue → Prop;
  BaseDelay : Duration;
  MaxDelay : Duration;
  backoff_delay (n : nat) : Duration := (MaxDelay `min` (BaseDelay * 2 ^ Z.of_nat n))%Z;
  sooner (t : option Time) (u : Time) : Time := match t with Some t => (t `min` u)%Z | None => u end;
  Add_law : ∀ now i q, let q' := Add now i q in
    due q' i = Some (sooner (due q i) now) ∧ (∀ j, j ≠ i → due q' j = due q j) ∧
    (∀ j, processing q' j = processing q j) ∧ (∀ j, NumRequeues q' j = NumRequeues q j);
  AddAfter_law : ∀ now i d q, let q' := AddAfter now i d q in
    due q' i = Some (sooner (due q i) (now + d)%Z) ∧ (∀ j, j ≠ i → due q' j = due q j) ∧
    (∀ j, processing q' j = processing q j) ∧ (∀ j, NumRequeues q' j = NumRequeues q j);
  AddRateLimited_law : ∀ now i q, let q' := AddRateLimited now i q in
    due q' i = Some (sooner (due q i) (now + backoff_delay (NumRequeues q i))%Z) ∧ (∀ j, j ≠ i → due q' j = due q j) ∧
    (∀ j, processing q' j = processing q j) ∧
    NumRequeues q' i = S (NumRequeues q i) ∧ (∀ j, j ≠ i → NumRequeues q' j = NumRequeues q j);
  Done_law : ∀ i q, let q' := Done i q in
    (∀ j, due q' j = due q j) ∧ processing q' i = false ∧ (∀ j, j ≠ i → processing q' j = processing q j) ∧
    (∀ j, NumRequeues q' j = NumRequeues q j);
  Delivers_law : ∀ now q i q', Delivers now q i q' →
    (∃ t, due q i = Some t ∧ (t ≤ now)%Z) ∧ processing q i = false ∧ processing q' i = true ∧
    (∀ j, j ≠ i → due q' j = due q j ∧ processing q' j = processing q j) ∧
    (∀ j, NumRequeues q' j = NumRequeues q j)
}.

Module Worker.

Section worker.
Context `{!GoRuntime, !KubeErrors} {Item : Type} `{!WorkQueue Item} {W : Type}.

(** What [Api] offers: additions to the queue. An executor acts on the world and enqueues. *)
Inductive addition : Type :=
| Enqueue (item : Item)
| EnqueueDelayed (item : Item) (delay : Duration).
Definition enqueue (now : Time) (q : Queue) (a : addition) : Queue :=
  match a with
  | Enqueue item => Add now item q
  | EnqueueDelayed item delay => AddAfter now item delay q
  end.
Definition Executor : Type := Item → W → option error * W * list addition.

(** The backoff of conflicts is ignored if it is the maximal backoff. *)
Definition conflictBackoff (MaxDelayConflict : Duration) : option Duration :=
  Optional.Filter (Some MaxDelayConflict) (λ d, negb (bool_decide (d = MaxDelay))).

(** [spinOnce] after the executor has returned; [Done] is deferred to the end. *)
Definition finish (now : Time) (queueItem : Item) (conflictBackoff : option Duration) (err : option error) (queue : Queue) : Queue :=
  let queue :=
    match err with
    | None => queue
    | Some err =>
        let queue := AddRateLimited now queueItem queue in
        match conflictBackoff with
        | Some conflictBackoff => if IsConflict err then AddAfter now queueItem conflictBackoff queue else queue
        | None => queue
        end
    end in
  Done queueItem queue.

(** [executor] runs from time [now] to time [later]. *)
Definition spinOnce (now later : Time) (queueItem : Item) (executor : Executor) (conflictBackoff : option Duration)
    (queue : Queue) (w : W) : Queue * W :=
  let '(err, w, added) := executor queueItem w in
  (finish later queueItem conflictBackoff err (foldl (enqueue now) queue added), w).

(** *** Start *)

(** A prerequisite waits until it holds or the context is done, which it reports. *)
Record Prereq : Type := { Wait : W → bool * W; IsReady : W → bool }.
Record State : Type := {
  executor : option Executor;
  prereqs : gmap string Prereq;
  beforeStart : option (W → option error * W);
  started : bool
}.
Definition newState : State := {| executor := None; prereqs := ∅; beforeStart := None; started := false |}.

Definition SetExecutor (ex : Executor) (prereqs : gmap string Prereq) (s : State) : outcome State :=
  match executor s with
  | Some _ => Panic "Attempt to set executor for worker multiple times"
  | None => Ret {| executor := Some ex; prereqs := prereqs; beforeStart := beforeStart s; started := started s |}
  end.
Definition SetBeforeStart (f : W → option error * W) (s : State) : outcome State :=
  match beforeStart s with
  | Some _ => Panic "Attempt to set beforeStart for worker multiple times"
  | None => Ret {| executor := executor s; prereqs := prereqs s; beforeStart := Some f; started := started s |}
  end.

Fixpoint waitAll (l : list Prereq) (w : W) : bool * W :=
  match l with
  | [] => (true, w)
  | prereq :: l => match Wait prereq w with (true, w) => waitAll l w | (false, w) => (false, w) end
  end.

(** The number of workers that are started is part of the result. *)
Definition start (WorkerCount : nat) (s : State) (w : W) : outcome (nat * State * W) :=
  match executor s with
  | None => Panic "worker.Api.SetExecutor is not called"
  | Some _ =>
      let '(err, w) := match beforeStart s with Some f => f w | None => (None, w) end in
      match err with
      | Some _ => Ret (0, s, w)
      | None =>
          let s := {| executor := executor s; prereqs := prereqs s; beforeStart := beforeStart s; started := true |} in
          match waitAll (map_order (prereqs s)).*2 w with
          | (false, w) => Ret (0, s, w)
          | (true, w) => Ret (WorkerCount, s, w)
          end
      end
  end.

(** The health check of each prerequisite. *)
Definition HealthChecks (s : State) : gmap string (W → option error) :=
  map_imap (λ name prereq, Some (λ w,
    if negb (started s) then None
    else if negb (IsReady prereq w) then Some (TagErrorf "PrereqNotReady" ("prerequisite " +:+ name +:+ " returned false"))
    else None)) (prereqs s).

(** *** Concurrency *)

(** A worker is in [Get], executes an item, has its result, or has returned. *)
Inductive worker : Type :=
| WGet
| WExec (item : Item)
| WEnd (item : Item) (err : option error)
| WReturned.

Record state : Type := { workers : list worker; queue : Queue; world : W }.

Definition held (w : worker) : option Item :=
  match w with WExec item | WEnd item _ => Some item | _ => None end.

Inductive step (ex : Executor) (conflictBackoff : option Duration) (s : state) : state → Prop :=
| step_get now k item q :
    workers s !! k = Some WGet → Delivers now (queue s) item q →
    step ex conflictBackoff s {| workers := <[k := WExec item]> (workers s); queue := q; world := world s |}
| step_shutdown k :
    workers s !! k = Some WGet →
    step ex conflictBackoff s {| workers := <[k := WReturned]> (workers s); queue := queue s; world := world s |}
| step_execute now k item err w added :
    workers s !! k = Some (WExec item) → ex item (world s) = (err, w, added) →
    step ex conflictBackoff s {| workers := <[k := WEnd item err]> (workers s);
      queue := foldl (enqueue now) (queue s) added; world := w |}
| step_finish now k item err :
    workers s !! k = Some (WEnd item err) →
    step ex conflictBackoff s {| workers := <[k := WGet]> (workers s);
      queue := finish now item conflictBackoff err (queue s); world := world s |}
| step_enqueue now a :
    step ex conflictBackoff s {| workers := workers s; queue := enqueue now (queue s) a; world := world s |}
| step_world w :
    step ex conflictBackoff s {| workers := workers s; queue := queue s; world := w |}.

(** [start] has spawned the workers, and nothing is processed. *)
Definition initial (WorkerCount : nat) (s : state) : Prop :=
  workers s = replicate WorkerCount WGet ∧ ∀ i, processing (queue s) i = false.

End worker.

Arguments Executor : clear implicits.
Arguments State : clear implicits.
Arguments worker : clear implicits.
Arguments state Item {_} W.

End Worker.

(** ** Lemmas *)
Section worker_lemmas.
Import Worker.
Context `{!GoRuntime, !KubeErrors} {Item : Type} `{!WorkQueue Item} {W : Type}.
Implicit Types (q : Queue) (i j item : Item) (s : Worker.state Item W) (ws : list (Worker.worker Item)).

(** Additions deliver nothing, finish nothing and forget nothing. *)
Lemma enqueue_keeps now a q j :
  processing (enqueue now q a) j = processing q j ∧ NumRequeues (enqueue now q a) j = NumRequeues q j.
Proof.
  destruct a as [i|i d]; cbn; [destruct (Add_law now i q) as (_ & _ & ? & ?)|
    destruct (AddAfter_law now i d q) as (_ & _ & ? & ?)]; auto.
Qed.
Lemma enqueue_all_keeps now l : ∀ q j,
  processing (foldl (enqueue now) q l) j = processing q j ∧ NumRequeues (foldl (enqueue now) q l) j = NumRequeues q j.
Proof.
  induction l as [|a l IH]; intros q j; [done|]. cbn. destruct (IH (enqueue now q a) j) as [-> ->]. apply enqueue_keeps.
Qed.

(** When a failed item is tried again. *)
Definition retry_delay q item (conflictBackoff : option Duration) (err : error) : Duration :=
  let exponential := backoff_delay (NumRequeues q item) in
  match conflictBackoff with
  | Some d => if IsConflict err then (exponential `min` d)%Z else exponential
  | None => exponential
  end.

Lemma finish_spec now item conflictBackoff err q :
  let q' := finish now item conflictBackoff err q in
  processing q' item = false ∧
  (∀ j, j ≠ item → due q' j = due q j ∧ processing q' j = processing q j ∧ NumRequeues q' j = NumRequeues q j) ∧
  match err with
  | None => due q' item = due q item ∧ NumRequeues q' item = NumRequeues q item
  | Some err => due q' item = Some (sooner (due q item) (now + retry_delay q item conflictBackoff err)%Z) ∧
      NumRequeues q' item = S (NumRequeues q item)
  end.
Proof.
  cbv zeta. unfold finish, retry_delay. destruct err as [err|].
  - destruct (AddRateLimited_law now item q) as (R1 & R2 & R3 & R4 & R5). set (q1 := AddRateLimited now item q) in *.
    assert (Hq2 : let q2 := match conflictBackoff with
        | Some d => if IsConflict err then AddAfter now item d q1 else q1 | None => q1 end in
      due q2 item = Some (sooner (due q item) (now + retry_delay q item conflictBackoff err)%Z) ∧
      (∀ j, j ≠ item → due q2 j = due q1 j) ∧ (∀ j, processing q2 j = processing q1 j) ∧
      (∀ j, NumRequeues q2 j = NumRequeues q1 j)).
    { unfold retry_delay. destruct conflictBackoff as [d|]; [|done]. destruct (IsConflict err); [|done].
      destruct (AddAfter_law now item d q1) as (A1 & A2 & A3 & A4). split; [|done]. rewrite A1, R1.
      f_equal. unfold sooner. destruct (due q item); lia. }
    cbv zeta in Hq2. set (q2 := match conflictBackoff with Some d => _ | None => q1 end) in *.
    destruct Hq2 as (A1 & A2 & A3 & A4). destruct (Done_law item q2) as (D1 & D2 & D3 & D4).
    split; [done|]. split.
    + intros j Hj. by rewrite D1, D3, D4, A2, A3, A4, R2, R3, R5.
    + rewrite D1, D4, A4, R4. by split.
  - destruct (Done_law item q) as (D1 & D2 & D3 & D4). split; [done|]. split; [|by rewrite D1, D4].
    intros j Hj. by rewrite D1, D3, D4.
Qed.

Definition holds ws (k : nat) item : Prop := ∃ w, ws !! k = Some w ∧ held w = Some item.

Lemma holds_insert ws k old w k' item :
  ws !! k = Some old → holds (<[k := w]> ws) k' item ↔ if decide (k' = k) then held w = Some item else holds ws k' item.
Proof.
  intros Hk. pose proof (lookup_lt_Some _ _ _ Hk) as Hlt. unfold holds. case_decide as Hk'; [subst k'|].
  - rewrite list_lookup_insert_eq by done. naive_solver.
  - by rewrite list_lookup_insert_ne by done.
Qed.

(** The queue counts an item as processed exactly when some worker holds it, and then only one does. *)
Record exclusive s : Prop := {
  exclusive_held : ∀ item, processing (queue s) item = true ↔ ∃ k, holds (workers s) k item;
  exclusive_unique : ∀ k k' item, holds (workers s) k item → holds (workers s) k' item → k = k'
}.

Lemma exclusive_initial (WorkerCount : nat) s : initial WorkerCount s → exclusive s.
Proof.
  intros [Hws Hproc]. assert (Hnone : ∀ k item, ¬ holds (workers s) k item).
  { intros k item (w & Hw & Hh). rewrite Hws in Hw. apply lookup_replicate_1 in Hw as [-> _]. done. }
  split; [|intros k k' item Hk; by apply Hnone in Hk].
  intros item. rewrite Hproc. split; [done|]. intros [k Hk]. by apply Hnone in Hk.
Qed.

(** A worker that keeps what it holds, while the queue keeps what it processes. *)
Lemma exclusive_same s k old w q (x : W) :
  exclusive s → workers s !! k = Some old → held w = held old →
  (∀ item, processing q item = processing (queue s) item) →
  exclusive {| workers := <[k := w]> (workers s); queue := q; world := x |}.
Proof.
  intros [H1 H2] Hk Hheld Hq.
  assert (Hsame : ∀ k' item, holds (<[k := w]> (workers s)) k' item ↔ holds (workers s) k' item).
  { intros k' item. rewrite (holds_insert _ _ _ _ _ _ Hk). case_decide; [subst|done]. rewrite Hheld.
    split; [intros ?; by exists old|]. intros (w' & Hw' & ?). congruence. }
  split; cbn [workers queue].
  - intros item. rewrite Hq, H1. by setoid_rewrite Hsame.
  - intros k1 k2 item. rewrite !Hsame. apply H2.
Qed.

Lemma exclusive_step `{!EqDecision Item} ex conflictBackoff s s' : exclusive s → step ex conflictBackoff s s' → exclusive s'.
Proof.
  intros Hs Hstep. pose proof Hs as [H1 H2].
  destruct Hstep as [now k item q Hk Hd|k Hk|now k item err w added Hk Hex|now k item err Hk|now a|w].
  - destruct (Delivers_law now (queue s) item q Hd) as (_ & Hfree & Hproc & Hothers & _).
    assert (Hnone : ∀ k', ¬ holds (workers s) k' item).
    { intros k' Hk'. rewrite (proj2 (H1 item)) in Hfree by eauto. done. }
    split; cbn [workers queue].
    + intros i. setoid_rewrite (holds_insert _ _ _ _ _ _ Hk). destruct (decide (i = item)) as [->|Hi].
      * rewrite Hproc. split; [intros _; exists k; by rewrite decide_True|done].
      * destruct (Hothers i Hi) as [_ ->]. rewrite H1. split; intros [k' Hk']; exists k'.
        -- case_decide; [subst k'|done]. destruct Hk' as (w' & Hw' & Hh). rewrite Hk in Hw'. by injection Hw' as <-.
        -- case_decide; [|done]. cbn in Hk'. congruence.
    + intros k1 k2 i. rewrite !(holds_insert _ _ _ _ _ _ Hk). repeat case_decide; subst; cbn; try done; [| |by apply H2].
      * intros [= <-] Hh. by apply Hnone in Hh.
      * intros Hh [= <-]. by apply Hnone in Hh.
  - by eapply exclusive_same.
  - eapply exclusive_same; try done. intros i. apply enqueue_all_keeps.
  - destruct (finish_spec now item conflictBackoff err (queue s)) as (Hdone & Hothers & _).
    assert (Hit : holds (workers s) k item) by (by eexists).
    split; cbn [workers queue].
    + intros i. setoid_rewrite (holds_insert _ _ _ _ _ _ Hk). destruct (decide (i = item)) as [->|Hi].
      * rewrite Hdone. split; [done|]. intros [k' Hk']. case_decide; [done|]. by rewrite (H2 _ _ _ Hk' Hit) in *.
      * destruct (Hothers i Hi) as (_ & -> & _). rewrite H1. split; intros [k' Hk']; exists k'.
        -- case_decide; [subst k'|done]. destruct Hk' as (w' & Hw' & Hh). rewrite Hk in Hw'. injection Hw' as <-. cbn in Hh. congruence.
        -- by case_decide.
    + intros k1 k2 i. rewrite !(holds_insert _ _ _ _ _ _ Hk). repeat case_decide; subst; cbn; try done. apply H2.
  - split; cbn [workers queue]; [|done]. intros i. destruct (enqueue_keeps now a (queue s) i) as [-> _]. apply H1.
  - by split.
Qed.

Lemma requeues_step `{!EqDecision Item} ex conflictBackoff s s' item :
  step ex conflictBackoff s s' → NumRequeues (queue s) item ≤ NumRequeues (queue s') item.
Proof.
  destruct 1 as [now k i q Hk Hd|k Hk|now k i err w added Hk Hex|now k i err Hk|now a|w]; cbn; try done.
  - destruct (Delivers_law _ _ _ _ Hd) as (_ & _ & _ & _ & ->). done.
  - destruct (enqueue_all_keeps now added (queue s) item) as [_ ->]. done.
  - destruct (finish_spec now i conflictBackoff err (queue s)) as (_ & Hothers & Hi).
    destruct (decide (item = i)) as [->|Hne]; [|by destruct (Hothers item Hne) as (_ & _ & ->)].
    destruct err; destruct Hi as [_ ->]; lia.
  - destruct (enqueue_keeps now a (queue s) item) as [_ ->]. done.
Qed.

End worker_lemmas.

(** ** Properties *)
Section worker_properties.
Import Worker.
Context `{!GoRuntime, !KubeErrors} {Item : Type} `{!EqDecision Item, !WorkQueue Item} {W : Type}.

(** C31. Workers never work on the same item at the same time, however many there are and whatever is enqueued
    meanwhile: in every reachable state, two workers that hold an item hold different ones, and the items that
    are held are those that the queue counts as processed. *)
Theorem workers_exclusive (WorkerCount : nat) (ex : Executor Item W) (conflictBackoff : option Duration) (s0 s : state Item W) :
  initial WorkerCount s0 → rtc (step ex conflictBackoff) s0 s →
  (∀ k k' w w' item, workers s !! k = Some w → workers s !! k' = Some w' →
    held w = Some item → held w' = Some item → k = k') ∧
  ∀ item, processing (queue s) item = true ↔ ∃ k w, workers s !! k = Some w ∧ held w = Some item.
Proof.
  intros Hinit Hsteps. assert (Hs : exclusive s).
  { apply exclusive_initial in Hinit. induction Hsteps as [s|s1 s2 s3 Hstep _ IH]; [done|].
    apply IH. by eapply exclusive_step. }
  split; [|apply (exclusive_held s Hs)]. intros k k' w w' item Hw Hw' Hh Hh'.
  eapply (exclusive_unique s Hs); by eexists.
Qed.

(** An item that failed is tried again after the exponential backoff, after a conflict no later than the backoff of
    conflicts, or as soon as it was due anyway; a success leaves it when it was due. In both cases the item is
    done, and nothing happens to the others but what the executor enqueued. *)
Theorem spinOnce_correct (now later : Time) (item : Item) (ex : Executor Item W) (conflictBackoff : option Duration)
    (q : Queue) (w : W) :
  let '(err, w', added) := ex item w in
  let q1 := foldl (enqueue now) q added in
  ∃ q', spinOnce now later item ex conflictBackoff q w = (q', w') ∧ processing q' item = false ∧
    (∀ j, j ≠ item → due q' j = due q1 j ∧ processing q' j = processing q j ∧ NumRequeues q' j = NumRequeues q j) ∧
    match err with
    | None => due q' item = due q1 item ∧ NumRequeues q' item = NumRequeues q item
    | Some err => due q' item = Some (sooner (due q1 item) (later + retry_delay q item conflictBackoff err)%Z) ∧
        NumRequeues q' item = S (NumRequeues q item)
    end.
Proof.
  unfold spinOnce. destruct (ex item w) as [[err w'] added]. cbv zeta.
  eexists. split; [done|].
  pose proof (enqueue_all_keeps now added q) as Hadd. set (q1 := foldl (enqueue now) q added) in *.
  destruct (finish_spec later item conflictBackoff err q1) as (H1 & H2 & H3). split; [done|]. split.
  - intros j Hj. destruct (H2 j Hj) as (-> & -> & ->). destruct (Hadd j) as [-> ->]. done.
  - unfold retry_delay in *. destruct err; destruct H3 as [-> ->]; destruct (Hadd item) as [_ ->]; done.
Qed.

(** The failures of an item are never forgotten, not even after a success: the backoff of its next failure counts all
    failures since the start of the process. *)
Theorem failures_never_forgotten (ex : Executor Item W) (conflictBackoff : option Duration) (s s' : state Item W) (item : Item) :
  rtc (step ex conflictBackoff) s s' → NumRequeues (queue s) item ≤ NumRequeues (queue s') item.
Proof.
  induction 1 as [s|s1 s2 s3 Hstep _ IH]; [done|]. pose proof (requeues_step _ _ _ _ item Hstep). lia.
Qed.

(** Workers run only after [beforeStart] has succeeded and every prerequisite has been waited for; a worker without an
    executor panics. *)
Theorem start_correct (WorkerCount : nat) (s : State Item W) (w : W) :
  match start WorkerCount s w with
  | Panic _ => executor s = None
  | Ret (n, s', w') =>
      is_Some (executor s) ∧
      let '(err, w1) := match beforeStart s with Some f => f w | None => (None, w) end in
      (started s' = true ↔ err = None ∨ started s = true) ∧
      (n = if bool_decide (err = None) && (waitAll (map_order (prereqs s)).*2 w1).1 then WorkerCount else 0) ∧
      (err ≠ None → s' = s ∧ w' = w1)
  end.
Proof.
  unfold start. destruct (executor s) as [ex|] eqn:Hex; [|done].
  destruct (match beforeStart s with Some f => f w | None => (None, w) end) as [err w1].
  destruct err as [err|]; cbn [andb].
  - split; [eauto|]. split; [split; [by right|by intros [?|?]]|]. split; [|done]. by rewrite bool_decide_eq_false_2.
  - destruct (waitAll _ w1) as [[] w2]; cbn; (split; [eauto|]; split; [split; [by left|done]|]; by split).
Qed.

End worker_properties.

(** ** A queue *)
Module ExampleQueue.

Record queue : Type := { dues : gmap string Time; busy : gset string; requeues : gmap string nat }.
Definition earliest (t : option Time) (u : Time) : Time := match t with Some t => (t `min` u)%Z | None => u end.
Definition set_due (i : string) (u : Time) (q : queue) : queue :=
  {| dues := <[i := earliest (dues q !! i) u]> (dues q); busy := busy q; requeues := requeues q |}.
Definition count (q : queue) (i : string) : nat := default 0 (requeues q !! i).
Definition delay (n : nat) : Duration := ((60 * Second) `min` (Second * 2 ^ Z.of_nat n))%Z.

#[local] Obligation Tactic := idtac.
Program Definition example_queue : WorkQueue string := {|
  Queue := queue;
  due q i := dues q !! i;
  processing q i := bool_decide (i ∈ busy q);
  NumRequeues := count;
  Add now i q := set_due i now q;
  AddAfter now i d q := set_due i (now + d)%Z q;
  AddRateLimited now i q := let q' := set_due i (now + delay (count q i))%Z q in
    {| dues := dues q'; busy := busy q'; requeues := <[i := S (count q i)]> (requeues q') |};
  Done i q := {| dues := dues q; busy := busy q ∖ {[i]}; requeues := requeues q |};
  Delivers now q i q' := ∃ t, dues q !! i = Some t ∧ (t ≤ now)%Z ∧ i ∉ busy q ∧
    q' = {| dues := delete i (dues q); busy := {[i]} ∪ busy q; requeues := requeues q |};
  BaseDelay := Second;
  MaxDelay := (60 * Second)%Z
|}.
Next Obligation. intros now i q. cbn. rewrite lookup_insert_eq. split; [done|]. split; [|done]. intros j Hj. by rewrite lookup_insert_ne. Qed.
Next Obligation. intros now i d q. cbn. rewrite lookup_insert_eq. split; [done|]. split; [|done]. intros j Hj. by rewrite lookup_insert_ne. Qed.
Next Obligation.
  intros now i q. cbn. unfold count. cbn. rewrite !lookup_insert_eq. split; [done|]. split; [|split; [done|split; [done|]]];
    intros j Hj; by rewrite lookup_insert_ne.
Qed.
Next Obligation.
  intros i q. cbn. split; [done|]. split; [apply bool_decide_eq_false; set_solver|]. split; [|done].
  intros j Hj. apply bool_decide_ext. set_solver.
Qed.
Next Obligation.
  intros now q i q' (t & Ht & Hle & Hb & ->). cbn. split; [by eauto|]. split; [by apply bool_decide_eq_false|].
  split; [apply bool_decide_eq_true; set_solver|]. split; [|done]. intros j Hj. rewrite lookup_delete_ne by done.
  split; [done|]. apply bool_decide_ext. set_solver.
Qed.
#[export] Existing Instance example_queue.

(** Two items are due, and their execution succeeds. *)
Definition two_items : queue := {| dues := {[ "a" := 1%Z; "b" := 2%Z ]}; busy := ∅; requeues := ∅ |}.
Definition executor : Worker.Executor string unit := λ _ _, (None, tt, []).
Definition two_workers : Worker.state string unit :=
  {| Worker.workers := [Worker.WGet; Worker.WGet]; Worker.queue := two_items; Worker.world := tt |}.
Definition one_busy : Worker.state string unit := {|
  Worker.workers := [Worker.WExec "a"; Worker.WGet];
  Worker.queue := {| dues := delete "a" (dues two_items); busy := {["a"]} ∪ ∅; requeues := ∅ |};
  Worker.world := tt |}.
Definition both_busy : Worker.state string unit := {|
  Worker.workers := [Worker.WExec "a"; Worker.WExec "b"];
  Worker.queue := {| dues := delete "b" (delete "a" (dues two_items)); busy := {["b"]} ∪ ({["a"]} ∪ ∅); requeues := ∅ |};
  Worker.world := tt |}.

Lemma both_busy_reachable : rtc (Worker.step executor None) two_workers both_busy.
Proof.
  apply (rtc_l _ _ one_busy).
  - apply (Worker.step_get executor None two_workers 3%Z 0 "a" (Worker.queue one_busy)); [done|].
    exists 1%Z. split; [done|]. split; [lia|]. by split; [set_solver|].
  - apply rtc_once, (Worker.step_get executor None one_busy 3%Z 1 "b" (Worker.queue both_busy)); [done|].
    exists 2%Z. split; [done|]. split; [lia|]. by split; [set_solver|].
Qed.

End ExampleQueue.

Lemma workers_exclusive_witness :
  Worker.initial 2 ExampleQueue.two_workers ∧
  rtc (Worker.step ExampleQueue.executor None) ExampleQueue.two_workers ExampleQueue.both_busy ∧
  ∀ k k' w w' item, Worker.workers ExampleQueue.both_busy !! k = Some w → Worker.workers ExampleQueue.both_busy !! k' = Some w' →
    Worker.held w = Some item → Worker.held w' = Some item → k = k'.
Proof.
  assert (Hi : Worker.initial 2 ExampleQueue.two_workers) by (split; [reflexivity|]; intros i; reflexivity).
  split; [exact Hi|]. split; [exact ExampleQueue.both_busy_reachable|].
  apply (workers_exclusive 2 ExampleQueue.executor None ExampleQueue.two_workers ExampleQueue.both_busy Hi).
  exact ExampleQueue.both_busy_reachable.
Defined.
