(* ===== verification/Controller.v ===== *)
(** * Controller: how the aggregator is put together (aggregator/aggregator/controller.go)

    [Module Controller] is [initController] and what it calls: the shards of the informer of pods with the options of their lists, and what
    the worker waits for. The informers of client-go are parameters; [Worker] and [Watch] are what it configures. *)

From stdpp Require Import pretty.
From S2P Require Import Prelude Util Errors Iter Canonical LabelIndex Api PprUtil Informer Watch Aggregator Flags Worker.

Module Controller.
Import Aggregator.

(** [metav1.ListOptions], as far as it is written. *)
Record ListOptions : Type := {
  LabelSelector : string;
  ShardingIndex : Z;
  ShardingCount : Z;
  ShardingLabelKey : string
}.

(** The options that the wiring reads; a selector is given by its text. *)
Record ControllerOptions : Type := { podLabelSelector : string; podInformerShards : Z }.

Section controller.
Context `{!GoRuntime, !KubeErrors} {W SourceDesc Handler : Type}.
Variable DefaultInformerShardingLabelKey : string.

Definition configureListOptions (listOptions : ListOptions) (options : ControllerOptions) (shardNumber : nat) : ListOptions :=
  let listOptions := {| LabelSelector := podLabelSelector options; ShardingIndex := ShardingIndex listOptions;
    ShardingCount := ShardingCount listOptions; ShardingLabelKey := ShardingLabelKey listOptions |} in
  if (1 <? podInformerShards options)%Z
  then {| LabelSelector := LabelSelector listOptions; ShardingIndex := Z.of_nat shardNumber;
          ShardingCount := podInformerShards options; ShardingLabelKey := DefaultInformerShardingLabelKey |}
  else listOptions.

(** The list function of a shard. An empty list has no event that would tell that the shard is in sync. *)
Definition ListFunc (List : ListOptions → W → (list PodObject + error) * W) (now : Time) (options : ControllerOptions)
    (shardNumber : nat) (listOptions : ListOptions) (lastInformerSync : option Time) (w : W) :
    (list PodObject + error) * option Time * W :=
  let '(items, w) := List (configureListOptions listOptions options shardNumber) w in
  (items, match items with
          | inl [] => SyncTime.initialMarker now lastInformerSync
          | _ => lastInformerSync
          end, w).

(** *** Shards *)
Variables (SetTransform AddEventHandler : nat → option error)
  (emptyLister : string → string → option PodObject * option error).

Definition createPodInformer (shardNumber : nat) : option error :=
  match SetTransform shardNumber with
  | Some err => Some (TagWrapf "SetTransform" (Some err) "set pod transformation")
  | None =>
      match AddEventHandler shardNumber with
      | Some err => Some (TagWrapf "AddPodEventHandler" (Some err) "add event handler to Pod informer")
      | None => None
      end
  end.

Definition newPodInformerShard (shardNumber : nat) : podInformerShard + error :=
  match createPodInformer shardNumber with
  | Some err => inr (TagWrapf "CreatePodInformer" (Some err) "start PodProtector informer")
  | None => inl {| podLister := emptyLister; informerSyncReader := None;
                   notifyOnInformerEvent := NextEventPool.newNextEventPool |}
  end.

Fixpoint newShards (shardNumbers : list nat) : list podInformerShard + error :=
  match shardNumbers with
  | [] => inl []
  | shardNumber :: shardNumbers =>
      match newPodInformerShard shardNumber with
      | inr err => inr err
      | inl shard => match newShards shardNumbers with inr err => inr err | inl shards => inl (shard :: shards) end
      end
  end.

(** *** What the worker waits for *)
Variables (WaitForCacheSync : (W → bool) → W → bool * W) (pprHasSynced : W → bool) (podHasSynced : nat → W → bool)
  (Await : W → option error * W).

Definition HasSyncedPrereq (hasSynced : W → bool) : Worker.Prereq := {|
  Worker.Wait := WaitForCacheSync hasSynced; Worker.IsReady := hasSynced |}.

Definition shardPrereq (shardNumber : nat) : string :=
  "pod-informer-" +:+ Strconv.FormatInt (Z.of_nat shardNumber) +:+ "-synced".

Definition prereqs (shardNumbers : list nat) : gmap string Worker.Prereq :=
  foldl (λ prereqs shardNumber, <[shardPrereq shardNumber := HasSyncedPrereq (podHasSynced shardNumber)]> prereqs)
    {[ "ppr-informer-synced" := HasSyncedPrereq pprHasSynced ]} shardNumbers.

Record ControllerState : Type := {
  podIndex : SetsIndex;
  podInformerShards_ : list podInformerShard;
  worker : Worker.State Informer.PodProtectorKey W;
  pprInformer : Watch.state SourceDesc Handler
}.

(** [reconcile] and [enqueue] are the closures that the worker and the informer of PodProtectors are given. *)
Definition initController (reconcile : Worker.Executor Informer.PodProtectorKey W) (enqueue : Handler)
    (options : ControllerOptions) (worker : Worker.State Informer.PodProtectorKey W) (pprInformer : Watch.state SourceDesc Handler) :
    outcome (ControllerState + error) :=
  if (podInformerShards options <? 1)%Z
  then Ret (inr (TagErrorf "TooFewShards" "--aggregator-pod-informer-shards must be a positive integer"))
  else
    let podIndex := NewPodIndex in
    let shardNumbers := seq 0 (Z.to_nat (podInformerShards options)) in
    match newShards shardNumbers with
    | inr err => Ret (inr err)
    | inl shards =>
        worker ← Worker.SetExecutor reconcile (prereqs shardNumbers) worker;
        worker ← Worker.SetBeforeStart Await worker;
        Ret (inl {| podIndex := podIndex; podInformerShards_ := shards; worker := worker;
                    pprInformer := Watch.AddPostHandler enqueue pprInformer |})
    end.

(** [Start], in its goroutine: the shards run once the elector has elected; the result tells which ones. *)
Definition startPodInformers (s : ControllerState) (w : W) : list nat * W :=
  let '(err, w) := Await w in
  (match err with Some _ => [] | None => seq 0 (length (podInformerShards_ s)) end, w).

End controller.

End Controller.

(** ** Lemmas *)
Section controller_lemmas.
Import Controller.
Context `{!GoRuntime, !KubeErrors} {W : Type} (SetTransform AddEventHandler : nat → option error)
  (emptyLister : string → string → option PodObject * option error).

Lemma newShards_spec l :
  match newShards SetTransform AddEventHandler emptyLister l with
  | inl shards => length shards = length l ∧ ∀ n, n ∈ l → createPodInformer SetTransform AddEventHandler n = None
  | inr _ => ∃ n, n ∈ l ∧ createPodInformer SetTransform AddEventHandler n ≠ None
  end.
Proof.
  induction l as [|k l IH]; cbn [newShards]; [split; [done|by intros n ?%not_elem_of_nil]|]. unfold newPodInformerShard.
  destruct (createPodInformer SetTransform AddEventHandler k) as [err|] eqn:Hk; [exists k; split; [left|congruence]|].
  destruct (newShards _ _ _ l) as [shards|err].
  - destruct IH as [IH1 IH2]. split; [cbn; congruence|]. intros n [->|Hn]%elem_of_cons; [done|by apply IH2].
  - destruct IH as (n & Hn & He). exists n. split; [by right|done].
Qed.

End controller_lemmas.

Section prereq_lemmas.
Import Controller.
Context `{!GoRuntime, !KubeErrors} {W : Type}.

Lemma shardPrereq_inj n n' : shardPrereq n = shardPrereq n' → n = n'.
Proof.
  unfold shardPrereq. rewrite !append_cons, !append_nil. intros [= Heq%append_inj_l].
  apply (inj pretty) in Heq. lia.
Qed.

Variables (WaitForCacheSync : (W → bool) → W → bool * W) (pprHasSynced : W → bool) (podHasSynced : nat → W → bool).
Notation prereq := (HasSyncedPrereq WaitForCacheSync).
Notation prereqs := (prereqs WaitForCacheSync pprHasSynced podHasSynced).

(** The informers of the aggregator. *)
Definition informer_synced (f : W → bool) : Prop := f = pprHasSynced ∨ ∃ n, f = podHasSynced n.

Lemma prereqs_lookup l :
  prereqs l !! "ppr-informer-synced" = Some (prereq pprHasSynced) ∧
  (∀ n, n ∈ l → prereqs l !! shardPrereq n = Some (prereq (podHasSynced n))) ∧
  ∀ name p, prereqs l !! name = Some p → ∃ f, informer_synced f ∧ p = prereq f.
Proof.
  induction l as [|n l IH] using rev_ind; unfold Controller.prereqs; rewrite ?foldl_app; cbn [foldl].
  - split; [by rewrite lookup_singleton_eq|]. split; [by intros n ?%not_elem_of_nil|].
    intros name p [_ <-]%lookup_singleton_Some. exists pprHasSynced. split; [by left|done].
  - fold (prereqs l). destruct IH as (IH1 & IH2 & IH3). split; [by rewrite lookup_insert_ne by done|]. split.
    + intros k Hk. destruct (decide (k = n)) as [->|Hne]; [by rewrite lookup_insert_eq|].
      rewrite lookup_insert_ne by (by intros ?%shardPrereq_inj). apply IH2.
      by apply elem_of_app in Hk as [Hk|Hk%list_elem_of_singleton].
    + intros name p [[_ <-]|[_ Hp]]%lookup_insert_Some; [|by eapply IH3]. eexists. split; [right; by eexists|done].
Qed.

(** What was waited for holds when all is waited for. *)
Hypothesis wait_synced : ∀ f w w', informer_synced f → WaitForCacheSync f w = (true, w') → f w' = true.
Hypothesis synced_stays : ∀ f g w b w', informer_synced f → informer_synced g → f w = true →
  WaitForCacheSync g w = (b, w') → f w' = true.

Lemma waitAll_synced (l : list Worker.Prereq) : ∀ w w',
  (∀ p, p ∈ l → ∃ f, informer_synced f ∧ p = prereq f) → Worker.waitAll l w = (true, w') →
  ∀ f, informer_synced f → (f w = true ∨ prereq f ∈ l) → f w' = true.
Proof.
  induction l as [|p l IH]; intros w w' Hl; cbn [Worker.waitAll].
  { intros [= <-] f _ [Hf|Hf]; [done|by apply not_elem_of_nil in Hf]. }
  destruct (Hl p ltac:(left)) as (g & Hg & ->). cbn [Worker.Wait HasSyncedPrereq].
  destruct (WaitForCacheSync g w) as [[|] w1] eqn:Hw; [|done]. intros Hrest f Hf Hor.
  apply (IH w1 w'); [intros p Hp; apply Hl; by right|done|done|].
  destruct Hor as [Hor|[Heq|Hor]%elem_of_cons]; [left; exact (synced_stays f g w true w1 Hf Hg Hor Hw)| |by right].
  left. pose proof (f_equal Worker.IsReady Heq) as Hfg. cbn in Hfg. subst f. exact (wait_synced g w w1 Hg Hw).
Qed.

(** A worker that has started has waited for its informers. *)
Lemma start_synced {Item : Type} (ex : Worker.Executor Item W) (m : gmap string Worker.Prereq) (Await : W → option error * W) workers w :
  (∀ name p, m !! name = Some p → ∃ f, informer_synced f ∧ p = prereq f) →
  match Worker.start workers {| Worker.executor := Some ex; Worker.prereqs := m; Worker.beforeStart := Some Await; Worker.started := false |} w with
  | Panic _ => False
  | Ret (started, _, w') => started = 0 ∨ started = workers ∧ (Await w).1 = None ∧
      ∀ name f, informer_synced f → m !! name = Some (prereq f) → f w' = true
  end.
Proof.
  intros Hm. unfold Worker.start. cbn. destruct (Await w) as [[err|] w1]; [by left|].
  destruct (Worker.waitAll (map_order m).*2 w1) as [[|] w'] eqn:Hall; [right|by left]. split; [done|]. split; [done|].
  intros name f Hf Hp. refine (waitAll_synced _ w1 w' _ Hall f Hf _).
  - intros p ([name' p'] & -> & Hp'%elem_of_map_order)%list_elem_of_fmap. by eapply Hm.
  - right. apply list_elem_of_fmap. exists (name, prereq f). split; [done|]. by apply elem_of_map_order.
Qed.

End prereq_lemmas.

(** ** Properties *)

(** C22. The aggregator reconciles nothing before it leads and has synced. Its set-up fails exactly if there is no shard, or if an informer
    of a shard cannot be made, and does not panic for a new worker; otherwise there is a shard for each number, and
    whenever the worker starts workers, the elector has elected and the informers of PodProtectors and of all shards
    have synced. [WaitForCacheSync] is supposed to return true only when the informer has synced, and
    an informer that has synced to stay so. *)
Theorem reconciles_after_sync `{!GoRuntime, !KubeErrors} {W SourceDesc Handler : Type} (SetTransform AddEventHandler : nat → option error)
    (emptyLister : string → string → option PodObject * option error) (WaitForCacheSync : (W → bool) → W → bool * W)
    (pprHasSynced : W → bool) (podHasSynced : nat → W → bool) (Await : W → option error * W)
    (reconcile : Worker.Executor Informer.PodProtectorKey W) (enqueue : Handler) (options : Controller.ControllerOptions)
    (pprInformer : Watch.state SourceDesc Handler) :
  (∀ f w w', informer_synced pprHasSynced podHasSynced f → WaitForCacheSync f w = (true, w') → f w' = true) →
  (∀ f g w b w', informer_synced pprHasSynced podHasSynced f → informer_synced pprHasSynced podHasSynced g → f w = true →
    WaitForCacheSync g w = (b, w') → f w' = true) →
  let shards := Z.to_nat (Controller.podInformerShards options) in
  match Controller.initController SetTransform AddEventHandler emptyLister WaitForCacheSync pprHasSynced podHasSynced Await
    reconcile enqueue options Worker.newState pprInformer with
  | Panic _ => False
  | Ret (inr _) => shards = 0 ∨ ∃ n, n < shards ∧ Controller.createPodInformer SetTransform AddEventHandler n ≠ None
  | Ret (inl s) => length (Controller.podInformerShards_ s) = shards ∧ 0 < shards ∧
      (∀ n, n < shards → Controller.createPodInformer SetTransform AddEventHandler n = None) ∧
      Watch.postHandlers (Controller.pprInformer s) = Watch.postHandlers pprInformer ++ [enqueue] ∧
      ∀ workers w, match Worker.start workers (Controller.worker s) w with
        | Panic _ => False
        | Ret (started, _, w') => started = 0 ∨
            started = workers ∧ (Await w).1 = None ∧ pprHasSynced w' = true ∧ ∀ n, n < shards → podHasSynced n w' = true
        end
  end.
Proof.
  intros Hwait Hstays shards. unfold Controller.initController.
  destruct (Z.ltb_spec (Controller.podInformerShards options) 1) as [Hlt|Hge]; [left; unfold shards; lia|]. fold shards.
  pose proof (newShards_spec SetTransform AddEventHandler emptyLister (seq 0 shards)) as Hnew.
  destruct (Controller.newShards _ _ _ _) as [l|err].
  2: { destruct Hnew as (n & Hn%elem_of_seq & Hne). right. exists n. split; [lia|done]. }
  destruct Hnew as [Hlen Hok]. rewrite length_seq in Hlen. cbn -[Worker.start].
  split; [done|]. split; [unfold shards; lia|]. split; [intros n Hn; apply Hok, elem_of_seq; lia|]. split; [done|].
  intros workers w. destruct (prereqs_lookup WaitForCacheSync pprHasSynced podHasSynced (seq 0 shards)) as (H1 & H2 & H3).
  pose proof (start_synced WaitForCacheSync pprHasSynced podHasSynced Hwait Hstays reconcile _ Await workers w H3) as Hstart.
  destruct (Worker.start _ _ w) as [[[started st] w']|]; [|done]. destruct Hstart as [->|(-> & Ha & Hs)]; [by left|right].
  split; [done|]. split; [done|]. split; [eapply Hs; [by left|exact H1]|].
  intros n Hn. eapply Hs; [right; by eexists|]. apply H2, elem_of_seq. lia.
Qed.

(** Two shards; the world is the set of the informers that have synced. *)
Lemma reconciles_after_sync_witness :
  let options := {| Controller.podLabelSelector := ""; Controller.podInformerShards := 2%Z |} in
  let ppr (w : gset nat) := bool_decide (0 ∈ w) in
  let pod (n : nat) (w : gset nat) := bool_decide (S n ∈ w) in
  let wait (f : gset nat → bool) (w : gset nat) := let w' := w ∪ {[ 0; 1; 2 ]} in (f w', w') in
  let get := match Controller.initController (λ _, None) (λ _, None) (λ _ _, (None, None)) wait ppr pod (λ w, (None, w))
    (λ _ w, (None, w, [])) "h" options Worker.newState (Watch.initial (SourceDesc := unit) false) with
    | Ret (inl s) => match Worker.start 5 (Controller.worker s) ∅ with Ret (started, _, w') => Some (started, w') | Panic _ => None end
    | _ => None
    end in
  ∃ w', get = Some (5, w') ∧ ppr w' = true ∧ pod 0 w' = true ∧ pod 1 w' = true.
Proof.
  intros options ppr pod wait get.
  pose proof (reconciles_after_sync (λ _, None) (λ _, None) (λ _ _, (None, None)) wait ppr pod (λ w, (None, w))
    (λ _ w, (None, w, [])) "h" options (Watch.initial (SourceDesc := unit) false)) as H.
  assert (Hmono : ∀ f w, informer_synced ppr pod f → f w = true → f (w ∪ {[ 0; 1; 2 ]}) = true).
  { intros f w Hf Hw. destruct Hf as [->|[n ->]]; apply bool_decide_eq_true in Hw;
      apply bool_decide_eq_true, elem_of_union; by left. }
  specialize (H ltac:(intros f w w' _ Heq; injection Heq as Hf <-; exact Hf)
    ltac:(intros f g w b w' Hf _ Hw Heq; injection Heq as _ <-; exact (Hmono f w Hf Hw))).
  assert (Hget : fst <$> get = Some 5) by (vm_compute; reflexivity). unfold get in Hget |- *.
  destruct (Controller.initController _ _ _ _ _ _ _ _ _ _ _ _) as [[s|err]|]; [|discriminate Hget..].
  destruct H as (_ & _ & _ & _ & H). specialize (H 5 ∅).
  destruct (Worker.start 5 (Controller.worker s) ∅) as [[[started st] w']|]; [|discriminate Hget].
  injection Hget as ->. exists w'. destruct H as [H|(_ & _ & H1 & H2)]; [discriminate H|].
  split; [reflexivity|]. split; [exact H1|]. split; apply H2; apply Nat.ltb_lt; vm_compute; reflexivity.
Defined.
