(* ===== verification/GeneratorSetup.v ===== *)
(** * GeneratorSetup: how the generator is put together (generator/generator/controller.go)

    [Module EventHandler] is util/kube/util.go, what handlers of informer events are given. [Module GeneratorController] is the set-up of the
    controller: the index of PodProtectors, what the worker waits for and runs, and the handlers of the events of
    source objects; with the deployments of generator/resource/deployment/deployment.go, the only type that
    src/generator/main.go has. The informers of client-go are parameters. *)

From S2P Require Import Prelude Util Errors Iter Canonical LabelIndex Api PprUtil Generator Informer Watch Aggregator Flags Worker Controller.

(** ** util/kube/util.go *)
Module EventHandler.
Section event_handler.
Context {Obj : Type}.

(** What an informer delivers: an object, the last state that was known of a deleted one, or something else. *)
Inductive any : Type :=
| Object (obj : Obj)
| DeletedFinalStateUnknown (obj : any)
| Other.
Inductive event : Type :=
| OnAdd (obj : any)
| OnUpdate (oldObj newObj : any)
| OnDelete (obj : any).

Definition unwrap (obj : any) : any := match obj with DeletedFinalStateUnknown obj => obj | _ => obj end.
(** [meta.Accessor]: an error for what is no object. *)
Definition Accessor (obj : any) : option Obj := match obj with Object obj => Some obj | _ => None end.

Definition eventObject (e : event) : any * bool :=
  match e with OnAdd obj => (obj, true) | OnUpdate _ newObj => (newObj, true) | OnDelete obj => (obj, false) end.

Variable meta : Obj → ObjectMeta.
Definition nsNameOf (obj : Obj) : Namespaced.NamespacedName :=
  {| Namespaced.Namespace := Namespace (meta obj); Namespaced.Name := Name (meta obj) |}.

(** The calls of a handler; a type assertion panics. *)
Definition GenericEventHandler {A} (handler : Namespaced.NamespacedName → A) (e : event) : option A :=
  match Accessor (unwrap (eventObject e).1) with
  | Some obj => Some (handler (nsNameOf obj))
  | None => None
  end.
Definition GenericEventHandlerWithStaleState {A} (handler : Obj → bool → A) (e : event) : outcome A :=
  let '(obj, stillPresent) := eventObject e in
  match Accessor (unwrap obj) with
  | Some obj => Ret (handler obj stillPresent)
  | None => Panic "interface conversion"
  end.

End event_handler.
Arguments any : clear implicits.
Arguments event : clear implicits.
End EventHandler.

(** ** The controller *)
Module GeneratorController.
Import Generator Resource EventHandler.

Section controller.
Context `{!GoRuntime, !KubeErrors} {Obj : Type} `{!SourceObject Obj} {W : Type} `{!ApiServer Obj W}.
Variable GroupVersion_String : string → string → string.

(** A type of source objects: its definition, and what its informer does. *)
Record TypeProvider : Type := {
  providerType : TypeDef;
  GetObject : W → Namespaced.NamespacedName → option Obj;
  AddPrereqs : gmap string (Worker.Prereq (W := W)) → gmap string (Worker.Prereq (W := W));
  AddEventHandler : option error
}.

(** [Enqueue] of the events of one type. *)
Definition typeHandler (index : nat) (nsName : Namespaced.NamespacedName) : Generator.QueueKey :=
  {| Generator.NsName := nsName; Generator.TypeDefIndex := index |}.

(** What is registered, in the order of the types, up to the first error. *)
Fixpoint addHandlers (index : nat) (types : list TypeProvider) : list (event Obj → option Generator.QueueKey) + error :=
  match types with
  | [] => inl []
  | ty :: types =>
      match AddEventHandler ty with
      | Some err => inr (TagWrapf "AddPprEventHandler" (Some err) "add event handler to PodProtector informer")
      | None =>
          match addHandlers (S index) types with
          | inl handlers => inl (GenericEventHandler GetMeta (typeHandler index) :: handlers)
          | inr err => inr err
          end
      end
  end.

Variables (AddIndexers : option error) (pprPrereq : Worker.Prereq (W := W)) (ByIndex : W → string → list PodProtector + error)
  (Await : W → option error * W) (crash : string → W → option error * W).

(** The closure that the worker runs; [crash] is what a panic does to the process. *)
Definition executor (types : list TypeProvider) : Worker.Executor Generator.QueueKey W := λ item w,
  let providers := Slices.MapSlice types (λ ty, {| Generator.providerType := providerType ty; Generator.GetObject := GetObject ty w |}) in
  match Generator.ReconcileItem GroupVersion_String providers (ByIndex w) item w with
  | Ret (err, s) => (err, world s, [])
  | Panic msg => (crash msg w, [])
  end.

Definition prereqs (types : list TypeProvider) : gmap string (Worker.Prereq (W := W)) :=
  foldl (λ prereqs ty, AddPrereqs ty prereqs) {[ "ppr-informer-synced" := pprPrereq ]} types.

(** [init]: the worker, and the handlers of events by the index of their type. *)
Definition init (types : list TypeProvider) (queue : Worker.State Generator.QueueKey W) :
    outcome (Worker.State Generator.QueueKey W * list (event Obj → option Generator.QueueKey) + error) :=
  match AddIndexers with
  | Some err => Ret (inr (TagWrapf "AddIndexers" (Some err) "add pod indexer to ppr informer"))
  | None =>
      queue ← Worker.SetExecutor (executor types) (prereqs types) queue;
      queue ← Worker.SetBeforeStart Await queue;
      Ret match addHandlers 0 types with
          | inl handlers => inl (queue, handlers)
          | inr err => inr err
          end
  end.

End controller.
Arguments TypeProvider : clear implicits.

(** *** The type of deployments *)
Section deployment.
Context {W : Type}.
Variables (Lister : W → string → string → Deployment.Deployment + error) (hasSynced : W → bool)
  (WaitForCacheSync : (W → bool) → W → bool * W) (registered : option error).

Definition deploymentType : TypeProvider Deployment.Deployment W := {|
  providerType := Deployment.deployment_type;
  GetObject w nsName :=
    match Lister w (Namespaced.Namespace nsName) (Namespaced.Name nsName) with inl obj => Some obj | inr _ => None end;
  AddPrereqs := <["deployment/informer-sync" := Controller.HasSyncedPrereq WaitForCacheSync hasSynced]>;
  AddEventHandler :=
    match registered with
    | Some err => Some (TagWrapf "AddDeploymentEventHandler" (Some err) "add event handler to deployment informer")
    | None => None
    end
|}.

End deployment.
End GeneratorController.

(** ** Lemmas *)
Section setup_lemmas.
Import GeneratorController EventHandler Resource.
Context `{!GoRuntime, !KubeErrors} {Obj : Type} `{!SourceObject Obj} {W : Type} `{!ApiServer Obj W}.
Implicit Types (types : list (TypeProvider Obj W)).

Lemma addHandlers_spec types : ∀ index,
  match addHandlers index types with
  | inl handlers => handlers = imap (λ i _, GenericEventHandler GetMeta (typeHandler (index + i))) types ∧
      Forall (λ ty, AddEventHandler ty = None) types
  | inr _ => Exists (λ ty, AddEventHandler ty ≠ None) types
  end.
Proof.
  induction types as [|ty types IH]; intros index; cbn [addHandlers]; [by split|].
  destruct (AddEventHandler ty) eqn:Hty; [by left; rewrite Hty|]. specialize (IH (S index)).
  destruct (addHandlers (S index) types) as [handlers|err]; [|by right]. destruct IH as [-> Hall]. split; [|by constructor].
  cbn. rewrite Nat.add_0_r. f_equal. apply imap_ext. intros i ty' _. cbn. by rewrite Nat.add_succ_r.
Qed.

(** The types of source objects, each with an informer and a name for its prerequisite. *)
Variables (WaitForCacheSync : (W → bool) → W → bool * W) (pprHasSynced : W → bool) (typeHasSynced : nat → W → bool) (prereqName : nat → string).
Notation prereq := (Controller.HasSyncedPrereq WaitForCacheSync).
Definition adds_prereqs types : Prop := ∀ i ty, types !! i = Some ty →
  AddPrereqs ty = <[prereqName i := prereq (typeHasSynced i)]> ∧ prereqName i ≠ "ppr-informer-synced" ∧
  ∀ j, prereqName j = prereqName i → j = i.

Lemma generator_prereqs_lookup types : adds_prereqs types →
  prereqs (prereq pprHasSynced) types !! "ppr-informer-synced" = Some (prereq pprHasSynced) ∧
  (∀ i, i < length types → prereqs (prereq pprHasSynced) types !! prereqName i = Some (prereq (typeHasSynced i))) ∧
  ∀ name p, prereqs (prereq pprHasSynced) types !! name = Some p → ∃ f, informer_synced pprHasSynced typeHasSynced f ∧ p = prereq f.
Proof.
  unfold prereqs. induction types as [|ty types IH] using rev_ind; intros Hty; [cbn|rewrite foldl_snoc].
  - split; [by rewrite lookup_singleton_eq|]. split; [intros i Hi; cbn in Hi; lia|].
    intros name p [_ <-]%lookup_singleton_Some. exists pprHasSynced. split; [by left|done].
  - destruct IH as (IH1 & IH2 & IH3). { intros i ty' Hi. apply Hty. by apply lookup_app_l_Some. }
    destruct (Hty (length types) ty (list_lookup_middle _ _ _ _ eq_refl)) as (-> & Hne & Hinj). split; [by rewrite lookup_insert_ne|]. split.
    + intros i Hi. rewrite length_app in Hi. cbn in Hi. destruct (decide (i = length types)) as [->|Hi']; [by rewrite lookup_insert_eq|].
      rewrite lookup_insert_ne by (by intros Heq; apply Hi', Hinj). apply IH2. lia.
    + intros name p [[_ <-]|[_ Hp]]%lookup_insert_Some; [|by eapply IH3]. eexists. split; [right; by eexists|done].
Qed.

End setup_lemmas.

(** ** Properties *)

(** C26. The generator reconciles nothing before it leads and has synced, and misses no event of a source object. Its set-up fails exactly
    if the index cannot be added or the events of a type cannot be had, and does not panic for a new worker. Otherwise,
    whenever the worker starts workers, the elector has elected and the informers of PodProtectors and of each type have
    synced; and each event of an informer of a type, be it an update, a deletion or one that was noticed late, leads to the key of its
    object, for which the worker runs the reconciliation with the definition and the informer of that type. Supposed of
    [WaitForCacheSync]: it returns true only when the informer has synced, and an informer that has synced stays so. *)
Theorem generator_reconciles_events `{!GoRuntime, !KubeErrors} {Obj : Type} `{!Resource.SourceObject Obj} {W : Type}
    `{!Resource.ApiServer Obj W} (GroupVersion_String : string → string → string) (AddIndexers : option error)
    (WaitForCacheSync : (W → bool) → W → bool * W) (pprHasSynced : W → bool) (typeHasSynced : nat → W → bool) (prereqName : nat → string)
    (ByIndex : W → string → list PodProtector + error) (Await : W → option error * W) (crash : string → W → option error * W)
    (types : list (GeneratorController.TypeProvider Obj W)) :
  (∀ f w w', informer_synced pprHasSynced typeHasSynced f → WaitForCacheSync f w = (true, w') → f w' = true) →
  (∀ f g w b w', informer_synced pprHasSynced typeHasSynced f → informer_synced pprHasSynced typeHasSynced g → f w = true →
    WaitForCacheSync g w = (b, w') → f w' = true) →
  adds_prereqs WaitForCacheSync typeHasSynced prereqName types →
  match GeneratorController.init GroupVersion_String AddIndexers (Controller.HasSyncedPrereq WaitForCacheSync pprHasSynced)
    ByIndex Await crash types Worker.newState with
  | Panic _ => False
  | Ret (inr _) => AddIndexers ≠ None ∨ Exists (λ ty, GeneratorController.AddEventHandler ty ≠ None) types
  | Ret (inl (queue, handlers)) =>
      (∀ workers w, match Worker.start workers queue w with
        | Panic _ => False
        | Ret (started, _, w') => started = 0 ∨
            started = workers ∧ (Await w).1 = None ∧ pprHasSynced w' = true ∧ ∀ i, i < length types → typeHasSynced i w' = true
        end) ∧
      ∀ i ty, types !! i = Some ty → ∃ handler, handlers !! i = Some handler ∧
        ∀ e obj, EventHandler.unwrap (EventHandler.eventObject e).1 = EventHandler.Object obj →
          let nsName := EventHandler.nsNameOf Resource.GetMeta obj in
          let key := {| Generator.NsName := nsName; Generator.TypeDefIndex := i |} in
          handler e = Some key ∧
          ∀ w, ∃ ex, Worker.executor queue = Some ex ∧
            ex key w = match Generator.reconcileObject GroupVersion_String (GeneratorController.providerType ty)
              (GeneratorController.GetObject ty w nsName) (ByIndex w) nsName w with
            | Ret (err, s) => (err, Generator.world s, [])
            | Panic msg => (crash msg w, [])
            end
  end.
Proof.
  intros Hwait Hstays Hty. unfold GeneratorController.init. destruct AddIndexers as [err|]; [by left|].
  cbn -[Worker.start]. pose proof (addHandlers_spec types 0) as Hh.
  destruct (GeneratorController.addHandlers 0 types) as [handlers|err]; [|by right]. destruct Hh as [-> _]. split.
  - intros workers w. destruct (generator_prereqs_lookup WaitForCacheSync pprHasSynced typeHasSynced prereqName types Hty) as (Hppr & Hall & Hrange).
    pose proof (start_synced WaitForCacheSync pprHasSynced typeHasSynced Hwait Hstays
      (GeneratorController.executor GroupVersion_String ByIndex crash types) _ Await workers w Hrange) as Hstart.
    destruct (Worker.start _ _ w) as [[[started st] w']|]; [|done]. destruct Hstart as [->|(-> & Ha & Hs)]; [by left|right].
    split; [done|]. split; [done|]. split; [eapply Hs; [by left|exact Hppr]|].
    intros i Hi. eapply Hs; [right; by eexists|]. by apply Hall.
  - intros i ty Hi. eexists. split; [rewrite list_lookup_imap, Hi; reflexivity|]. intros e obj He.
    unfold EventHandler.GenericEventHandler. rewrite He. split; [done|]. intros w. eexists. split; [done|]. cbn.
    unfold GeneratorController.executor, Generator.ReconcileItem, Slices.MapSlice. cbn. by rewrite list_lookup_fmap, Hi.
Qed.

(** The generator as it is, with deployments; the world tells which informers have synced, and the API server refuses. *)
#[local] Instance refusing_server : Resource.ApiServer Deployment.Deployment (gset nat) := {|
  Resource.CreatePpr _ w := (inr (errorString "no"), w); Resource.UpdatePpr _ w := (inr (errorString "no"), w);
  Resource.UpdatePprStatus _ w := (inr (errorString "no"), w); Resource.DeletePpr _ _ w := (None, w); Resource.UpdateSource _ w := (inr (errorString "no"), w) |}.
#[local] Instance all_deployments : Resource.SourceObject Deployment.Deployment :=
  Deployment.deployment_source (λ _ _ _, inl 1%Z) (λ _, true) false.

Definition example_deployment : Deployment.Deployment := {|
  Deployment.deployMeta := {| Name := "d"; Namespace := "ns"; UID := "u"; ResourceVersion := "1"; CreationTimestamp := 0%Z; Labels := ∅;
    Annotations := ∅; Finalizers := []; OwnerReferences := []; DeletionTimestamp := None |};
  Deployment.Replicas := None; Deployment.deployMinReadySeconds := 0%Z; Deployment.deploySelector := None; Deployment.RollingUpdate := None |}.

Lemma generator_reconciles_events_witness :
  let ppr (w : gset nat) := bool_decide (0 ∈ w) in
  let deploy (w : gset nat) := bool_decide (1 ∈ w) in
  let wait (f : gset nat → bool) (w : gset nat) := let w' := w ∪ {[ 0; 1 ]} in (f w', w') in
  let ty := GeneratorController.deploymentType (λ _ _ _, inr (errorString "not found")) deploy wait None in
  match GeneratorController.init (λ g v, g) None (Controller.HasSyncedPrereq wait ppr) (λ _ _, inl []) (λ w, (None, w))
    (λ msg w, (None, w)) [ty] Worker.newState with
  | Ret (inl (queue, [handler])) =>
      (∃ st w', Worker.start 3 queue ∅ = Ret (3, st, w') ∧ ppr w' = true ∧ deploy w' = true) ∧
      (λ key, Generator.TypeDefIndex key) <$> handler (EventHandler.OnDelete (EventHandler.DeletedFinalStateUnknown (EventHandler.Object example_deployment))) = Some 0
  | _ => False
  end.
Proof.
  intros ppr deploy wait ty.
  pose proof (generator_reconciles_events (λ g v, g) None wait ppr (λ _, deploy) (λ i, if i =? 0 then "deployment/informer-sync" else "")
    (λ _ _, inl []) (λ w, (None, w)) (λ msg w, (None, w)) [ty]) as H.
  assert (Hmono : ∀ f w, informer_synced ppr (λ _, deploy) f → f w = true → f (w ∪ {[ 0; 1 ]}) = true).
  { intros f w Hf Hw. destruct Hf as [->|[n ->]]; apply bool_decide_eq_true in Hw; apply bool_decide_eq_true, elem_of_union; by left. }
  specialize (H ltac:(intros f w w' _ Heq; injection Heq as Hf <-; exact Hf)
    ltac:(intros f g w b w' Hf _ Hw Heq; injection Heq as _ <-; exact (Hmono f w Hf Hw))).
  assert (Hadds : adds_prereqs wait (λ _, deploy) (λ i, if i =? 0 then "deployment/informer-sync" else "") [ty]).
  { intros [|i] ty' Hi; [injection Hi as <-|discriminate Hi]. split; [reflexivity|]. split; [discriminate|]. intros [|j]; [done|discriminate]. }
  specialize (H Hadds).
  assert (Hinit : ∃ queue handler, GeneratorController.init (λ g v, g) None (Controller.HasSyncedPrereq wait ppr) (λ _ _, inl []) (λ w, (None, w))
    (λ msg w, (None, w)) [ty] Worker.newState = Ret (inl (queue, [handler])) ∧
    ∃ w', Worker.start 3 queue ∅ = Ret (3, {| Worker.executor := Worker.executor queue; Worker.prereqs := Worker.prereqs queue;
      Worker.beforeStart := Worker.beforeStart queue; Worker.started := true |}, w')).
  { eexists _, _. split; [reflexivity|]. eexists. reflexivity. }
  destruct Hinit as (queue & handler & Hinit & w' & Hs). rewrite Hinit in H |- *. destruct H as [Hstart Hevents]. split.
  - specialize (Hstart 3 ∅). rewrite Hs in Hstart.
    destruct Hstart as [Heq|(_ & _ & Hp & Hd)]; [discriminate Heq|]. eexists _, w'. split; [exact Hs|]. split; [done|]. apply (Hd 0). cbn. lia.
  - destruct (Hevents 0 ty eq_refl) as (handler' & Hh & He). injection Hh as <-.
    destruct (He (EventHandler.OnDelete (EventHandler.DeletedFinalStateUnknown (EventHandler.Object example_deployment))) _ eq_refl) as (Hkey & _).
    rewrite Hkey. reflexivity.
Defined.
