(* ===== verification/Process.v ===== *)
(** * Process: what runs around the controllers

    [Shutdown] (util/shutdown), [Elector] (util/kube/leaderelection.go) and [Lifecycle] (the phases and health checks of
    util/component/declare.go, and [tryRun] of util/cmd/cmd.go); the clients of the cells
    (webhook/cellclient) and of a single source (util/podprotector/single_source_provider.go); the update trigger of
    the aggregator (aggregator/updatetrigger). Clients, signals and the elector of client-go are parameters; what
    the latter calls, and when, is part of the step relation. *)

From Stdlib Require Import Ascii.
From S2P Require Import Prelude Util Errors Api Component Aggregator Flags.

(** ** The notifier of shutdown

    [Close] is called by signals, by lost elections and on failures, possibly at once. Each of its
    atomic actions is a step. Closing a closed channel panics. *)
Module Shutdown.

Inductive caller : Type := CStart | CWon | CDone | CPanic.
Record Notifier : Type := { stopped : bool; watchClosed : bool; callers : list caller }.
Definition init (n : nat) : Notifier := {| stopped := false; watchClosed := false; callers := replicate n CStart |}.

Inductive step (s : Notifier) : Notifier → Prop :=
| step_swap k :
    callers s !! k = Some CStart →
    step s {| stopped := true; watchClosed := watchClosed s;
              callers := <[k := if stopped s then CDone else CWon]> (callers s) |}
| step_close k :
    callers s !! k = Some CWon →
    step s {| stopped := stopped s; watchClosed := true;
              callers := <[k := if watchClosed s then CPanic else CDone]> (callers s) |}.

(** [CallOnStop] calls the function once the channel is closed. *)
Definition runs_on_stop (s : Notifier) : bool := watchClosed s.

End Shutdown.

(** ** Leader election *)
Module Elector.

Section elector.
Context `{!KubeErrors}.

(** [electionCloseCh] is the done channel of the context of the lease; [None] is the nil channel, which is never ready. *)
Record ElectorState : Type := {
  electedCh : bool;
  electionErr : option error;
  electionCloseCh : option unit
}.

(** The elector of client-go has not been run, is a candidate, leads, or has returned from [Run]. *)
Inductive runState : Type := NotRun | Candidate | Leader | Returned.
(** [OnStartedLeading], in a goroutine of its own: not called, before [electionCloseCh] is set, before [electedCh] is
    closed, or done. *)
Inductive callback : Type := NotCalled | SetCloseCh | CloseElected | Called.
Record state : Type := { elector : ElectorState; run : runState; onStarted : callback; leaseDone : bool; shutdown : bool }.

Definition newState : state := {|
  elector := {| electedCh := false; electionErr := None; electionCloseCh := None |};
  run := NotRun; onStarted := NotCalled; leaseDone := false; shutdown := false |}.

(** The first error of what [runElector] calls before it runs the elector. *)
Definition runErrors (hostname lock new : option error) : option error :=
  match hostname with
  | Some err => Some (TagWrapf "GetHostname" (Some err) "get hostname")
  | None =>
      match lock with
      | Some err => Some (TagWrapf "CreateResourceLock" (Some err) "creating resource lock")
      | None =>
          match new with
          | Some err => Some (TagWrapf "NewLeaderElector" (Some err) "create leader elector")
          | None => None
          end
      end
  end.

Definition runElector (Enabled : bool) (hostname lock new : option error) (ctxDone : bool) (s : state) : option error * state :=
  if negb Enabled then
    (None, {| elector := {| electedCh := true; electionErr := electionErr (elector s);
                            electionCloseCh := electionCloseCh (elector s) |};
              run := run s; onStarted := onStarted s; leaseDone := leaseDone s; shutdown := shutdown s |})
  else
    match runErrors hostname lock new with
    | Some err => (Some err, s)
    | None =>
        (None, if ctxDone : bool then s
               else {| elector := elector s; run := Candidate; onStarted := onStarted s;
                       leaseDone := leaseDone s; shutdown := shutdown s |})
    end.

(** The elector of client-go spawns [OnStartedLeading] when it acquires the lease; when it has lost it, it cancels the context that it has
    passed and calls [OnStoppedLeading], which it also calls when it never led. *)
Inductive step (s : state) : state → Prop :=
| step_acquire :
    run s = Candidate →
    step s {| elector := elector s; run := Leader; onStarted := SetCloseCh; leaseDone := leaseDone s; shutdown := shutdown s |}
| step_set_close :
    onStarted s = SetCloseCh →
    step s {| elector := {| electedCh := electedCh (elector s); electionErr := electionErr (elector s); electionCloseCh := Some tt |};
              run := run s; onStarted := CloseElected; leaseDone := leaseDone s; shutdown := shutdown s |}
| step_close_elected :
    onStarted s = CloseElected →
    step s {| elector := {| electedCh := true; electionErr := electionErr (elector s); electionCloseCh := electionCloseCh (elector s) |};
              run := run s; onStarted := Called; leaseDone := leaseDone s; shutdown := shutdown s |}
| step_lease_done :
    run s = Leader →
    step s {| elector := elector s; run := run s; onStarted := onStarted s; leaseDone := true; shutdown := shutdown s |}
| step_stopped :
    run s = Candidate ∨ run s = Leader ∧ leaseDone s = true →
    step s {| elector := elector s; run := Returned; onStarted := onStarted s; leaseDone := leaseDone s; shutdown := true |}.

(** The context of [Await]: the parent alone, or until the lease is done. *)
Inductive awaited : Type := ParentOnly | UntilLeaseDone.

(** What [Await] may return, with [ctxErr] the error of its context, if that is done: a select takes any of its cases that are ready,
    and without one it blocks. *)
Definition Await (e : ElectorState) (ctxErr : option error) : list (awaited + error) :=
  (if electedCh e
   then [match electionErr e with
         | Some err => inr err
         | None => inl (match electionCloseCh e with Some _ => UntilLeaseDone | None => ParentOnly end)
         end]
   else []) ++
  Optional.AsSlice (inr <$> ctxErr).
Definition HasElected (e : ElectorState) : bool := electedCh e.

(** Whether a context of [Await] is done, given that of the parent. *)
Definition ctx_done (s : state) (parentDone : bool) (c : awaited) : bool :=
  match c with ParentOnly => parentDone | UntilLeaseDone => parentDone || leaseDone s end.

End elector.
End Elector.

(** ** The update trigger of the aggregator *)
Module UpdateTrigger.

Definition AlreadyExists (err : error) : bool := bool_decide (reason_of err = Some "AlreadyExists").

(** [strings.ReplaceAll(s, "/", "~1")]. *)
Fixpoint escape (s : string) : string :=
  match s with
  | EmptyString => EmptyString
  | String c s => if bool_decide (c = "/"%char) then "~1" +:+ escape s else String c (escape s)
  end.
Definition patchPath : string := "/metadata/annotations/" +:+ escape SyncTime.AnnotUpdateTriggerTime.

(** The annotations of the dummy pod; those of the flags are written over the time. *)
Definition annotations `{!GoRuntime} (time : string) (PodAnnotations : gmap string string) : gmap string string :=
  foldl (λ m kv, <[kv.1 := kv.2]> m) {[ SyncTime.AnnotUpdateTriggerTime := time ]} (map_order PodAnnotations).

Section trigger.
Context {W : Type}.
Variables (Create Patch : W → option error * W).

Definition spinCreate (w : W) : option error * W :=
  let '(err, w) := Create w in
  match err with
  | Some err => if AlreadyExists err then (None, w) else (Some (TagWrapf "CreatePod" (Some err) "create trigger pod on worker apiserver"), w)
  | None => (None, w)
  end.
Definition spinUpdate (w : W) : option error * W :=
  let '(err, w) := Patch w in
  match err with
  | Some err => (Some (TagWrapf "PatchPod" (Some err) "patch trigger pod on worker apiserver"), w)
  | None => (None, w)
  end.

(** One period: [created] tells which of the two [spin] is. *)
Definition tick (created : bool) (w : W) : bool * W :=
  let '(err, w) := (if created then spinUpdate w else spinCreate w) in
  (if Optional.IsNone err then true else created, w).
Fixpoint ticks (n : nat) (created : bool) (w : W) : bool * W :=
  match n with
  | O => (created, w)
  | S n => let '(created, w) := tick created w in ticks n created w
  end.

End trigger.
End UpdateTrigger.

(** ** Clients *)
Module CellClient.
Section cell_client.
Context `{!GoRuntime} {Config Client : Type}.
Variables (Quote : string → string) (BuildConfigFromFlags : string → string → Config + error) (PatchRestConfig : Config → Config)
  (NewForConfig : Config → Client + error).

Definition NoneProvide (cellId : string) : Client + error :=
  inr (TagErrorf "NoneProvider" "--webhook-worker-client-provider is set to none").
Definition SingleProvide (client : Client) (cellId : string) : Client + error := inl client.

Definition buildClient (KubeconfigPaths MasterUrls : gmap string string) (cellId : string) : Client + error :=
  match BuildConfigFromFlags (default "" (MasterUrls !! cellId)) (default "" (KubeconfigPaths !! cellId)) with
  | inr err => inr (TagWrapf "BuildConfig" (Some err) "build rest config from arguments")
  | inl restConfig =>
      match NewForConfig (PatchRestConfig restConfig) with
      | inr err => inr (TagWrapf "NewForConfig" (Some err) "build kubernetes client from rest config")
      | inl client => inl client
      end
  end.

Fixpoint buildClients (build : string → Client + error) (cellIds : list string) (clients : gmap string Client) :
    gmap string Client + error :=
  match cellIds with
  | [] => inl clients
  | cellId :: cellIds =>
      match build cellId with
      | inr err => inr (TagWrapf "buildClient" (Some err) ("build client for cell " +:+ Quote cellId))
      | inl client => buildClients build cellIds (<[cellId := client]> clients)
      end
  end.

(** The [init] of [ProvideMap]. *)
Definition initMap (KubeconfigPaths MasterUrls : gmap string string) : gmap string Client + error :=
  buildClients (buildClient KubeconfigPaths MasterUrls) (map_order KubeconfigPaths).*1 ∅.

Definition MapProvide (clients : gmap string Client) (cellId : string) : Client + error :=
  match clients !! cellId with
  | None => inr (TagErrorf "UnknownCell" ("unknown cell " +:+ Quote cellId))
  | Some client => inl client
  end.

End cell_client.
End CellClient.

Module SingleSource.
Section single_source.
Context {Client W : Type}.

Definition IsSourceIdentifying : bool := false.
(** The one map that [Watch] sends. *)
Definition Watch (client : Client) : gmap string Client := {[ "" := client ]}.
Definition UpdateStatus (clientUpdateStatus : PodProtector → W → option error * W) (_ : string) (ppr : PodProtector) (w : W) :
    option error * W :=
  let '(err, w) := clientUpdateStatus ppr w in
  (match err with
   | Some err => Some (TagWrapf "ClientUpdateStatus" (Some err) "call update status on client")
   | None => None
   end, w).

End single_source.
End SingleSource.

(** ** The lifecycle of a process *)
Module Lifecycle.

(** Each component has a phase if it has a [Start]. *)
Definition phaseStarted : string := "Started".
Definition isPhaseReady (phase : string) : bool := bool_decide (phase = phaseStarted).

Section lifecycle.
Context {W : Type}.

(** What [Declare] is given of the lifecycle of a component; a nil function is [None]. *)
Record component : Type := {
  Init : W → option error * W;
  Start : option (W → option error * W);
  Join : option (W → option error * W);
  HealthChecks : gmap string (option (W → option error))
}.
Variable components : gmap string component.

(** The phases, by the name of the component. *)
Notation phases := (gmap string string).

Definition initPhases : phases := omap (λ c, (λ _, "Init") <$> Start c) components.

Definition on_component {A} (f : component → A) (name : string) (none : A) : A :=
  match components !! name with Some c => f c | None => none end.

(** [impl.Start], with the wrapper of [Declare]. *)
Definition startComponent (name : string) (s : phases * W) : option error * (phases * W) :=
  match components !! name ≫= Start with
  | None => (None, s)
  | Some start =>
      let '(ph, w) := s in
      let ph := <[name := "Starting"]> ph in
      let '(err, w) := start w in
      (err, (<[name := if Optional.IsSome err then "StartError" else phaseStarted]> ph, w))
  end.

(** The goroutines of [startComponents] in the order in which they run; the errors are joined. *)
Fixpoint startAll (names : list string) (s : phases * W) : list error * (phases * W) :=
  match names with
  | [] => ([], s)
  | name :: names =>
      let '(err, s) := startComponent name s in
      let '(errs, s) := startAll names s in
      (match err with Some err => TagWrapf "Start" (Some err) (name +:+ " start error") :: errs | None => errs end, s)
  end.
Definition startComponents (schedule : list string) (s : phases * W) : option error * (phases * W) :=
  let '(errs, s) := startAll schedule s in
  (if 0 <? length errs then Some (joinError errs) else None, s).

(** [RegisterHealthChecks] of a component; that a failure is also observed ([onFail]) is left out. *)
Definition RegisterHealthChecks (name : string) (checks : gmap string (phases * W → option error)) :
    gmap string (phases * W → option error) :=
  match components !! name with
  | None => checks
  | Some c =>
      let checks :=
        match Start c with
        | Some _ => <[name +:+ "/phase" := λ s,
            let phase := default "" (s.1 !! name) in
            if isPhaseReady phase then None else Some (TagErrorf "PhaseReady" ("phase is " +:+ phase))]> checks
        | None => checks
        end in
      map_fold (λ check checker checks,
        match checker with
        | Some checker => <[name +:+ "/" +:+ check := λ s, checker s.2]> checks
        | None => checks
        end) checks (HealthChecks c)
  end.

(** [tryRun] once components are resolved, configured and trimmed; [wait] is what happens until the process is told to
    stop. The health checks are the last part of the result. *)
Definition tryRun (names schedule : list string) (wait : W → W) (w : W) :
    option error * (phases * W) * gmap string (phases * W → option error) :=
  match Component.initComponents (λ name, on_component Init name (λ w, (None, w))) names w with
  | (Some err, w) => (Some err, (initPhases, w), ∅)
  | (None, w) =>
      let checks := foldl (λ checks name, RegisterHealthChecks name checks) ∅ names in
      match startComponents schedule (initPhases, w) with
      | (Some err, s) => (Some err, s, checks)
      | (None, (ph, w)) =>
          let '(err, w) := Component.joinComponents
            (λ name, on_component (λ c, match Join c with Some join => join | None => λ w, (None, w) end) name (λ w, (None, w)))
            (reverse names) (wait w) in
          (err, (ph, w), checks)
      end
  end.

End lifecycle.
End Lifecycle.

(** ** Properties: shutdown *)
Section shutdown_lemmas.
Import Shutdown.
Implicit Types s : Notifier.

(** The swap is won once, and its winner closes the channel. *)
Record close_inv s : Prop := {
  close_no_panic : ∀ k, callers s !! k ≠ Some CPanic;
  close_before : stopped s = false → watchClosed s = false ∧ ∀ k c, callers s !! k = Some c → c = CStart;
  close_winner : stopped s = true → watchClosed s = false → ∃ k, callers s !! k = Some CWon ∧
    ∀ k', callers s !! k' = Some CWon → k' = k;
  close_after : watchClosed s = true → ∀ k, callers s !! k ≠ Some CWon
}.

Lemma close_inv_init n : close_inv (init n).
Proof.
  split; cbn; try done.
  - intros k [? _]%lookup_replicate_1. done.
  - intros _. split; [done|]. by intros k c [-> _]%lookup_replicate_1.
Qed.

Lemma close_inv_step s s' : close_inv s → step s s' → close_inv s'.
Proof.
  intros [H1 H2 H3 H4] Hstep. destruct Hstep as [k Hk|k Hk]; pose proof (lookup_lt_Some _ _ _ Hk) as Hlt.
  - destruct (stopped s) eqn:Hst.
    + split; cbn; try done.
      * intros k'. rewrite list_lookup_insert by done. case_decide; [done|]. apply H1.
      * intros _ Hc. destruct (H3 eq_refl Hc) as (w & Hw & Huniq). exists w. assert (k ≠ w) by (intros ->; congruence).
        rewrite list_lookup_insert_ne by done. split; [done|]. intros k'.
        rewrite list_lookup_insert by done. case_decide; [done|]. apply Huniq.
      * intros Hc k'. rewrite list_lookup_insert by done. case_decide; [done|]. by apply H4.
    + destruct (H2 eq_refl) as [Hc Hall]. split; cbn; try done.
      * intros k'. rewrite list_lookup_insert by done. case_decide; [done|]. apply H1.
      * intros _ _. exists k. rewrite list_lookup_insert_eq by done. split; [done|]. intros k'.
        rewrite list_lookup_insert by done. case_decide; [intros _; naive_solver|]. by intros ?%Hall.
      * by rewrite Hc.
  - assert (Hst : stopped s = true).
    { destruct (stopped s); [done|]. destruct (H2 eq_refl) as [_ Hall]. by apply Hall in Hk. }
    assert (Hc : watchClosed s = false) by (destruct (watchClosed s); [by apply (H4 eq_refl) in Hk|done]).
    destruct (H3 Hst Hc) as (w & Hw & Huniq). pose proof (Huniq k Hk) as <-. rewrite Hc.
    split; cbn; try done.
    + intros k'. rewrite list_lookup_insert by done. case_decide; [done|]. apply H1.
    + by rewrite Hst.
    + intros _ k'. rewrite list_lookup_insert by done. case_decide; [done|]. intros Hk'%Huniq. naive_solver.
Qed.

End shutdown_lemmas.

(** However many callers close the notifier at the same time, the channel is closed once: no call panics, and when a call has
    returned the channel is closed, or the call that won is about to close it. *)
Theorem shutdown_closes_once (n : nat) (s : Shutdown.Notifier) :
  rtc Shutdown.step (Shutdown.init n) s →
  (∀ k, Shutdown.callers s !! k ≠ Some Shutdown.CPanic) ∧
  ∀ k, Shutdown.callers s !! k = Some Shutdown.CDone →
    Shutdown.watchClosed s = true ∨ ∃ k', Shutdown.callers s !! k' = Some Shutdown.CWon.
Proof.
  intros Hsteps. assert (Hinv : close_inv s).
  { pose proof (close_inv_init n) as Hi. induction Hsteps as [s|s1 s2 s3 Hstep _ IH]; [done|]. by eapply IH, close_inv_step. }
  destruct Hinv as [H1 H2 H3 H4]. split; [done|]. intros k Hk. destruct (Shutdown.watchClosed s) eqn:Hc; [by left|right].
  destruct (Shutdown.stopped s) eqn:Hst; [destruct (H3 eq_refl eq_refl) as (w & Hw & _); eauto|].
  destruct (H2 eq_refl) as [_ Hall]. by apply Hall in Hk.
Qed.

(** ** Properties: leader election *)
Section elector_lemmas.
Import Elector.
Implicit Types s : state.

(** Without an error of the election, [Await] returns a context once elected, and the error of its own one. *)
Lemma elem_of_Await (e : ElectorState) ctxErr result :
  electionErr e = None →
  result ∈ Await e ctxErr ↔
    electedCh e = true ∧ result = inl (match electionCloseCh e with Some _ => UntilLeaseDone | None => ParentOnly end) ∨
    ∃ err, ctxErr = Some err ∧ result = inr err.
Proof.
  unfold Await. intros ->. rewrite elem_of_app.
  destruct (electedCh e), ctxErr; cbn; rewrite ?list_elem_of_singleton, ?elem_of_nil; naive_solver.
Qed.

(** What [OnStartedLeading] has written so far. *)
Definition elector_of (c : callback) : ElectorState := {|
  electedCh := match c with Called => true | _ => false end;
  electionErr := None;
  electionCloseCh := match c with CloseElected | Called => Some tt | _ => None end |}.
Definition is_called (c : callback) : bool := match c with NotCalled => false | _ => true end.

(** An enabled elector: the callback is called by a leader, and the lease is done before a leader returns. *)
Record elected_inv s : Prop := {
  inv_elector : elector s = elector_of (onStarted s);
  inv_run : match run s with
    | NotRun | Candidate => onStarted s = NotCalled ∧ leaseDone s = false
    | Leader => is_called (onStarted s) = true
    | Returned => leaseDone s = is_called (onStarted s)
    end;
  inv_shutdown : shutdown s = match run s with Returned => true | _ => false end
}.

Lemma elected_inv_run hostname lock new ctxDone :
  elected_inv (runElector true hostname lock new ctxDone newState).2.
Proof.
  unfold runElector. cbn [negb]. destruct (runErrors hostname lock new); [by split|]. by destruct ctxDone; split.
Qed.

Lemma elected_inv_step s s' : elected_inv s → step s s' → elected_inv s'.
Proof.
  intros [H1 H2 H3] Hstep. destruct s as [e r c l d]. cbn in *. subst e d.
  destruct Hstep as [Hr|Hc|Hc|Hr|Hr]; cbn in *; subst.
  - destruct H2 as [-> ->]. by split.
  - split; cbn; [done| |done]. destruct r; by destruct_and?.
  - split; cbn; [done| |done]. destruct r; by destruct_and?.
  - by split.
  - split; cbn; [done| |done]. by destruct Hr as [->|[-> ->]]; [destruct H2 as [-> ->]|].
Qed.

End elector_lemmas.


(** Who awaits an elector that failed to start waits until the own context is done: there is no error for the election, whose
    field is never set. *)
Theorem elector_failure_blocks (hostname lock new : option error) (ctxDone : bool) (err : error) (s' s : Elector.state) :
  Elector.runElector true hostname lock new ctxDone Elector.newState = (Some err, s') →
  rtc Elector.step s' s → Elector.Await (Elector.elector s) None = [].
Proof.
  unfold Elector.runElector. cbn [negb]. destruct (Elector.runErrors hostname lock new); [|done]. intros [= <- <-] Hsteps.
  remember Elector.newState as s0 eqn:Hs0. destruct Hsteps as [s|s1 s2 s3 Hstep _]; [by subst|]. subst. exfalso.
  inversion Hstep; cbn in *; try done. naive_solver.
Qed.

(** ** Properties: the update trigger *)
Section trigger_lemmas.
Context {W : Type} (Create Patch : W → option error * W).
Import UpdateTrigger.

(** The world after [n] calls. *)
Fixpoint repeat_call (f : W → option error * W) (n : nat) (w : W) : W :=
  match n with O => w | S n => repeat_call f n (f w).2 end.
(** Whether the pod is there after a call of [Create]. *)
Definition created_by (w : W) : bool :=
  match (Create w).1 with None => true | Some err => AlreadyExists err end.

Lemma ticks_created n : ∀ w, ticks Create Patch n true w = (true, repeat_call Patch n w).
Proof.
  induction n as [|n IH]; intros w; [done|]. cbn [ticks repeat_call]. unfold tick, spinUpdate.
  destruct (Patch w) as [[err|] w']; apply IH.
Qed.

End trigger_lemmas.

(** The trigger creates its pod until that succeeds or the pod exists, and from then on patches it once per period, whatever
    becomes of the patches. *)
Theorem trigger_creates_then_patches {W : Type} (Create Patch : W → option error * W) (n : nat) (w : W) :
  (∀ k, k < n → created_by Create (repeat_call Create k w) = false) ∧
    UpdateTrigger.ticks Create Patch n false w = (false, repeat_call Create n w) ∨
  ∃ k, k < n ∧ (∀ j, j < k → created_by Create (repeat_call Create j w) = false) ∧
    created_by Create (repeat_call Create k w) = true ∧
    UpdateTrigger.ticks Create Patch n false w = (true, repeat_call Patch (n - S k) (repeat_call Create (S k) w)).
Proof.
  revert w. induction n as [|n IH]; intros w; [left; split; [lia|done]|].
  cbn [UpdateTrigger.ticks]. unfold UpdateTrigger.tick, UpdateTrigger.spinCreate.
  destruct (Create w) as [err w'] eqn:Hc.
  assert (Hcb : created_by Create w = match err with None => true | Some err => UpdateTrigger.AlreadyExists err end)
    by (unfold created_by; by rewrite Hc).
  assert (Hw : ∀ j, repeat_call Create (S j) w = repeat_call Create j w') by (intros j; cbn; by rewrite Hc).
  assert (Hdone : created_by Create w = true →
    ∃ k, k < S n ∧ (∀ j, j < k → created_by Create (repeat_call Create j w) = false) ∧
      created_by Create (repeat_call Create k w) = true ∧
      UpdateTrigger.ticks Create Patch n true w' = (true, repeat_call Patch (S n - S k) (repeat_call Create (S k) w))).
  { intros Hw0. exists 0. split; [lia|]. split; [lia|]. split; [done|]. rewrite ticks_created, Hw. by rewrite Nat.sub_succ, Nat.sub_0_r. }
  destruct err as [err|]; cbn [Optional.IsNone Optional.IsSome negb]; [|by right; apply Hdone].
  destruct (UpdateTrigger.AlreadyExists err) eqn:Hae; cbn [Optional.IsNone Optional.IsSome negb]; [by right; apply Hdone|].
  destruct (IH w') as [[Hall Hrun]|(k & Hk & Hbefore & Hkc & Hrun)]; [left|right].
  - split; [|by rewrite Hrun, Hw]. intros [|k] Hk; [done|]. rewrite Hw. apply Hall. lia.
  - exists (S k). split; [lia|]. split; [|split; [by rewrite Hw|]].
    + intros [|j] Hj; [done|]. rewrite Hw. apply Hbefore. lia.
    + by rewrite Hrun, (Hw (S k)).
Qed.

(** ** Properties: clients *)
Section client_lemmas.
Context `{!GoRuntime} {Client : Type} (Quote : string → string) (build : string → Client + error).

Lemma buildClients_spec cellIds : ∀ clients,
  match CellClient.buildClients Quote build cellIds clients with
  | inl clients' => (∀ c, c ∈ cellIds → ∃ client, build c = inl client ∧ clients' !! c = Some client) ∧
      ∀ c, c ∉ cellIds → clients' !! c = clients !! c
  | inr _ => ∃ c err, c ∈ cellIds ∧ build c = inr err
  end.
Proof.
  induction cellIds as [|cell cellIds IH]; intros clients; cbn; [split; [by intros c ?%not_elem_of_nil|done]|].
  destruct (build cell) as [client|err] eqn:Hb; [|exists cell, err; split; [left|done]].
  specialize (IH (<[cell := client]> clients)). destruct (CellClient.buildClients _ _ _ _) as [clients'|err].
  - destruct IH as [H1 H2]. split.
    + intros c [->|Hc]%elem_of_cons; [|by apply H1]. destruct (decide (cell ∈ cellIds)) as [Hin|Hin]; [by apply H1|].
      exists client. by rewrite H2, lookup_insert_eq.
    + intros c [Hne Hc]%not_elem_of_cons. by rewrite H2, lookup_insert_ne.
  - destruct IH as (c & e & Hc & He). exists c, e. split; [by right|done].
Qed.

End client_lemmas.

(** The webhook starts with a client for each cell that has a configuration, built from this configuration and from the
    master of the cell, if any, or not at all; requests from other cells are refused. *)
Theorem cell_clients_correct `{!GoRuntime} {Config Client : Type} (Quote : string → string)
    (BuildConfigFromFlags : string → string → Config + error) (PatchRestConfig : Config → Config)
    (NewForConfig : Config → Client + error) (paths masters : gmap string string) :
  match CellClient.initMap Quote BuildConfigFromFlags PatchRestConfig NewForConfig paths masters with
  | inl clients => ∀ c,
      match paths !! c with
      | Some path => ∃ config client, BuildConfigFromFlags (default "" (masters !! c)) path = inl config ∧
          NewForConfig (PatchRestConfig config) = inl client ∧ CellClient.MapProvide Quote clients c = inl client
      | None => ∃ err, CellClient.MapProvide Quote clients c = inr err
      end
  | inr _ => ∃ c path, paths !! c = Some path ∧ ∀ config client,
      BuildConfigFromFlags (default "" (masters !! c)) path = inl config → NewForConfig (PatchRestConfig config) ≠ inl client
  end.
Proof.
  unfold CellClient.initMap.
  set (build := CellClient.buildClient BuildConfigFromFlags PatchRestConfig NewForConfig paths masters).
  pose proof (buildClients_spec Quote build (map_order paths).*1 ∅) as Hs.
  assert (Hin : ∀ c, c ∈ (map_order paths).*1 ↔ is_Some (paths !! c)).
  { intros c. rewrite (map_order_perm string string paths), list_elem_of_fmap. split.
    - intros ([c' p] & -> & Hp%elem_of_map_to_list). simpl. eauto.
    - intros [p Hp]. exists (c, p). split; [done|]. by apply elem_of_map_to_list. }
  destruct (CellClient.buildClients _ _ _ _) as [clients|err].
  - destruct Hs as [H1 H2]. intros c. destruct (paths !! c) as [path|] eqn:Hp.
    + destruct (H1 c) as (client & Hb & Hc); [apply Hin; by rewrite Hp|]. unfold build, CellClient.buildClient in Hb.
      rewrite Hp in Hb. cbn in Hb. destruct (BuildConfigFromFlags _ path) as [config|] eqn:Hcfg; [|done].
      destruct (NewForConfig (PatchRestConfig config)) as [client'|] eqn:Hn; [|done]. injection Hb as ->.
      exists config, client. split; [done|]. split; [done|]. unfold CellClient.MapProvide. by rewrite Hc.
    + unfold CellClient.MapProvide. rewrite H2, lookup_empty; [eauto|]. rewrite Hin, Hp. by intros [].
  - destruct Hs as (c & e & Hc & Hb). apply Hin in Hc as [path Hp]. exists c, path. split; [done|].
    intros config client Hcfg Hn. unfold build, CellClient.buildClient in Hb. rewrite Hp in Hb. cbn in Hb.
    by rewrite Hcfg, Hn in Hb.
Qed.

(** Conflicts are still recognized after the single source has wrapped them. *)
Lemma single_source_conflict `{!KubeErrors} {W : Type} (update : PodProtector → W → option error * W) src ppr w :
  match (SingleSource.UpdateStatus update src ppr w).1, (update ppr w).1 with
  | Some err', Some err => IsConflict err' = IsConflict err
  | None, None => True
  | _, _ => False
  end.
Proof.
  unfold SingleSource.UpdateStatus. destruct (update ppr w) as [[err|] w']; [|done]. cbn.
  by rewrite IsConflict_tagged, IsConflict_wrap.
Qed.

(** ** Properties: the lifecycle *)
Section lifecycle_lemmas.
Import Lifecycle.
Context {W : Type} (components : gmap string (component (W := W))).
Implicit Types (name : string) (names : list string) (ph : gmap string string).

(** The phases of what is not started stay; what is started ends in the phase that its result tells. *)
Lemma startAll_phases names : ∀ ph w errs ph' w',
  NoDup names → startAll components names (ph, w) = (errs, (ph', w')) →
  (∀ name, name ∉ names → ph' !! name = ph !! name) ∧
  (errs = [] → ∀ name, name ∈ names → is_Some (components !! name ≫= Start) → ph' !! name = Some phaseStarted).
Proof.
  induction names as [|name names IH]; intros ph w errs ph' w' Hnd; cbn [startAll].
  { intros [= <- <- <-]. split; [done|]. by intros _ ? ?%not_elem_of_nil. }
  apply NoDup_cons in Hnd as [Hnew Hnd].
  destruct (startComponent components name (ph, w)) as [err [ph1 w1]] eqn:Hstart.
  destruct (startAll components names (ph1, w1)) as [errs1 [ph2 w2]] eqn:Hrest. intros [= <- <- <-].
  destruct (IH ph1 w1 errs1 ph2 w2 Hnd Hrest) as [H1 H2].
  assert (Hone : (∀ n, n ≠ name → ph1 !! n = ph !! n) ∧
    (err = None → is_Some (components !! name ≫= Start) → ph1 !! name = Some phaseStarted)).
  { unfold startComponent in Hstart. destruct (components !! name ≫= Start) as [start|].
    - destruct (start w) as [err' w''] eqn:Hs. injection Hstart as <- <- <-. split.
      + intros n Hn. by rewrite !lookup_insert_ne.
      + intros -> _. by rewrite lookup_insert_eq.
    - injection Hstart as <- <- <-. split; [done|]. by intros _ []. }
  destruct Hone as [H3 H4]. split.
  - intros n [Hne Hn]%not_elem_of_cons. by rewrite H1, H3.
  - intros Herrs n [->|Hn]%elem_of_cons Hsome; destruct err; try done; [|by apply H2]. rewrite H1 by done. by apply H4.
Qed.

End lifecycle_lemmas.

(** What a process does, in order. *)
Inductive process_event : Type := EInit (name : string) (failed : bool) | EStart (name : string) (failed : bool) | EStopped
  | EJoin (name : string) (failed : bool).

(** What a component does with its world, and a record of what was called and whether it failed. *)
Section tracing.
Import Lifecycle.
Context {W : Type}.
Definition call (f : W → option error * W) (event : bool → process_event) (s : W * list process_event) :
    option error * (W * list process_event) :=
  let '(err, w) := f s.1 in (err, (w, s.2 ++ [event (Optional.IsSome err)])).
Definition traced (name : string) (c : component (W := W)) : component (W := W * list process_event) := {|
  Init := call (Init c) (EInit name);
  Start := option_map (λ start, call start (EStart name)) (Start c);
  Join := option_map (λ join, call join (EJoin name)) (Join c);
  HealthChecks := option_map (λ (check : W → option error) (s : W * list process_event), check s.1) <$> HealthChecks c |}.
Definition trace (components : gmap string (component (W := W))) : gmap string (component (W := W * list process_event)) :=
  map_imap (λ name c, Some (traced name c)) components.
End tracing.

(** Calls that end with the first one that fails. *)
Definition up_to_failure (names : list string) (calls : list (string * bool)) (failed : bool) : Prop :=
  if failed then ∃ pre name post, names = pre ++ name :: post ∧ calls = ((λ n, (n, false)) <$> pre) ++ [(name, true)]
  else calls = (λ n, (n, false)) <$> names.

Section order_lemmas.
Import Lifecycle.
Context {W : Type} (components : gmap string (component (W := W))).
Implicit Types (names : list string) (log : list process_event) (w : W).
Abbreviation events E := (fmap (λ c : string * bool, E c.1 c.2)).

Definition has_start name : bool := Optional.IsSome (components !! name ≫= Start).
Definition has_join name : bool := Optional.IsSome (components !! name ≫= Join).

Lemma lookup_trace name : trace components !! name = traced name <$> components !! name.
Proof. unfold trace. rewrite map_lookup_imap. by destruct (components !! name). Qed.

Lemma up_to_failure_cons name names calls failed :
  up_to_failure names calls failed → up_to_failure (name :: names) ((name, false) :: calls) failed.
Proof. destruct failed; cbn; [intros (pre & n & post & -> & ->); by exists (name :: pre), n, post|by intros ->]. Qed.

Lemma on_traced (f : ∀ {W}, component (W := W) → W → option error * W) name c none none' :
  components !! name = Some c →
  on_component components f name none = f c ∧ on_component (trace components) f name none' = f (traced name c).
Proof. intros Hc. unfold on_component. by rewrite lookup_trace, Hc. Qed.

Lemma initComponents_traced names : ∀ w log, (∀ name, name ∈ names → is_Some (components !! name)) →
  let r := Component.initComponents (λ name, on_component components Init name (λ w, (None, w))) names w in
  ∃ calls failed, up_to_failure names calls failed ∧ Optional.IsSome r.1 = failed ∧
    Component.initComponents (λ name, on_component (trace components) Init name (λ s, (None, s))) names (w, log) =
      (r.1, (r.2, log ++ events EInit calls)).
Proof.
  induction names as [|name names IH]; intros w log Hin; [exists [], false; by rewrite app_nil_r|].
  destruct (Hin name ltac:(left)) as [c Hc]. destruct (on_traced (λ W, Init (W := W)) name c (λ w, (None, w)) (λ s, (None, s)) Hc) as [H1 H2].
  cbv beta in H1, H2.
  cbv zeta. cbn [Component.initComponents]. rewrite !H1, H2. cbn [traced Init]. unfold call. cbn [fst snd].
  destruct (Init c w) as [[err|] w'].
  - exists [(name, true)], true. split; [by exists [], name, names|]. by split.
  - destruct (IH w' (log ++ [EInit name false])) as (calls & failed & Hcalls & Hf & Hrun); [intros n Hn; apply Hin; by right|].
    exists ((name, false) :: calls), failed. split; [by apply up_to_failure_cons|]. split; [done|].
    cbn [Optional.IsSome]. by rewrite Hrun, <- app_assoc.
Qed.

Lemma joinComponents_traced names : ∀ w log,
  let r := Component.joinComponents (λ name, on_component components
    (λ c, match Join c with Some join => join | None => λ w, (None, w) end) name (λ w, (None, w))) names w in
  ∃ calls failed, up_to_failure (filter (λ n, has_join n = true) names) calls failed ∧ Optional.IsSome r.1 = failed ∧
    Component.joinComponents (λ name, on_component (trace components)
      (λ c, match Join c with Some join => join | None => λ s, (None, s) end) name (λ s, (None, s))) names (w, log) =
      (r.1, (r.2, log ++ events EJoin calls)).
Proof.
  induction names as [|name names IH]; intros w log; [exists [], false; by rewrite app_nil_r|].
  cbv zeta. cbn [Component.joinComponents].
  destruct (components !! name ≫= Join) as [join|] eqn:Hj.
  - rewrite filter_cons_True by (unfold has_join; by rewrite Hj). destruct (components !! name) as [c|] eqn:Hc; [|done]. cbn in Hj.
    destruct (on_traced (λ W c, match Join c with Some join => join | None => λ w : W, (None, w) end) name c (λ w, (None, w)) (λ s, (None, s)) Hc)
      as [H1 H2]. cbv beta in H1, H2.
    rewrite !H1, H2. cbn [traced Join]. rewrite Hj. cbn [option_map]. unfold call. cbn [fst snd].
    destruct (join w) as [[err|] w'].
    + exists [(name, true)], true. split; [by eexists [], name, _|]. by split.
    + destruct (IH w' (log ++ [EJoin name false])) as (calls & failed & Hcalls & Hf & Hrun).
      exists ((name, false) :: calls), failed. split; [by apply up_to_failure_cons|]. split; [done|].
      cbn [Optional.IsSome]. by rewrite Hrun, <- app_assoc.
  - rewrite filter_cons_False by (unfold has_join; by rewrite Hj).
    destruct (IH w log) as (calls & failed & Hcalls & Hf & Hrun). exists calls, failed. split; [done|].
    assert (H1 : on_component components (λ c, match Join c with Some join => join | None => λ w, (None, w) end) name (λ w, (None, w)) w =
      (None, w)) by (unfold on_component; destruct (components !! name); [cbn in Hj; by rewrite Hj|done]).
    assert (H2 : on_component (trace components) (λ c, match Join c with Some join => join | None => λ s, (None, s) end) name (λ s, (None, s))
      (w, log) = (None, (w, log))).
    { unfold on_component. rewrite lookup_trace. destruct (components !! name); [cbn in Hj |- *; by rewrite Hj|done]. }
    rewrite !H1, H2. by split.
Qed.

(** Starting: the phases and the errors are those of the components, and all are called. *)
Lemma startAll_traced names : ∀ ph w log,
  let r := startAll components names (ph, w) in
  ∃ calls, calls.*1 = filter (λ n, has_start n = true) names ∧ (r.1 = [] ↔ Forall (λ c, c.2 = false) calls) ∧
    startAll (trace components) names (ph, (w, log)) = (r.1, (r.2.1, (r.2.2, log ++ events EStart calls))).
Proof.
  induction names as [|name names IH]; intros ph w log; [exists []; by rewrite app_nil_r|].
  cbn [startAll]. unfold startComponent. rewrite lookup_trace.
  destruct (components !! name ≫= Start) as [start|] eqn:Hs.
  - rewrite filter_cons_True by (unfold has_start; by rewrite Hs). destruct (components !! name) as [c|]; [|done]. cbn in Hs.
    cbn [mbind option_bind fmap option_fmap option_map traced Start]. rewrite Hs. cbn [option_map]. unfold call. cbn [fst snd].
    destruct (start w) as [err w'].
    destruct (IH (<[name:=if Optional.IsSome err then "StartError" else phaseStarted]> (<[name:="Starting"]> ph)) w'
      (log ++ [EStart name (Optional.IsSome err)])) as (calls & Hcalls & Hf & Hrun).
    exists ((name, Optional.IsSome err) :: calls). split; [by rewrite fmap_cons, Hcalls|]. rewrite Hrun, <- app_assoc.
    destruct (startAll components names _) as [errs [ph' w'']]. cbn in *. rewrite Forall_cons.
    split; [|by destruct err]. destruct err; cbn; [split; [done|by intros [? _]]|]. naive_solver.
  - rewrite filter_cons_False by (unfold has_start; by rewrite Hs).
    destruct (IH ph w log) as (calls & Hcalls & Hf & Hrun). exists calls. split; [done|].
    destruct (components !! name) as [c|]; cbn in Hs; cbn [mbind option_bind fmap option_fmap option_map traced Start]; rewrite ?Hs; cbn [option_map];
      rewrite Hrun; by destruct (startAll components names _) as [errs [ph' w'']].
Qed.

Lemma initPhases_trace : initPhases (trace components) = initPhases components.
Proof.
  apply map_eq. intros name. unfold initPhases. rewrite !lookup_omap, lookup_trace.
  destruct (components !! name) as [c|]; [cbn; by destruct (Start c)|done].
Qed.
Lemma lookup_initPhases name : has_start name = true → initPhases components !! name = Some "Init".
Proof.
  unfold has_start, initPhases. rewrite lookup_omap. destruct (components !! name) as [c|]; [cbn|done]. by destruct (Start c).
Qed.

(** No check of a component has the name of the check of a phase. *)
Definition phase_reserved names : Prop := ∀ n c check checker name,
  n ∈ names → name ∈ names → components !! n = Some c → HealthChecks c !! check = Some (Some checker) →
  n +:+ "/" +:+ check ≠ name +:+ "/phase".

Definition phase_check name : gmap string string * W → option error := λ s,
  let phase := default "" (s.1 !! name) in
  if isPhaseReady phase then None else Some (TagErrorf "PhaseReady" ("phase is " +:+ phase)).

Lemma registered_one names n name checks :
  phase_reserved names → n ∈ names → name ∈ names →
  RegisterHealthChecks components n checks !! (name +:+ "/phase") =
    if decide (n = name) then if has_start name then Some (phase_check name) else checks !! (name +:+ "/phase")
    else checks !! (name +:+ "/phase").
Proof.
  intros Hres Hn Hname. unfold RegisterHealthChecks, has_start.
  destruct (components !! n) as [c|] eqn:Hc; [|destruct (decide (n = name)) as [<-|]; [by rewrite Hc|done]].
  set (base := match Start c with Some _ => _ | None => _ end).
  assert (Hbase : base !! (name +:+ "/phase") =
    if decide (n = name) then if Optional.IsSome (components !! name ≫= Start) then Some (phase_check name) else checks !! (name +:+ "/phase")
    else checks !! (name +:+ "/phase")).
  { unfold base. destruct (decide (n = name)) as [Heq|Heq].
    - rewrite <- Heq, Hc. cbn. destruct (Start c); [by rewrite lookup_insert_eq|done].
    - destruct (Start c); [|done]. rewrite lookup_insert_ne; [done|]. by intros ?%append_inj_l. }
  rewrite <- Hbase. clearbody base. clear Hbase.
  assert (Hsub : ∀ check checker, HealthChecks c !! check = Some (Some checker) → n +:+ "/" +:+ check ≠ name +:+ "/phase")
    by (intros check checker; by apply (Hres n c)).
  revert Hsub. apply (map_fold_weak_ind (λ r m, (∀ check checker, m !! check = Some (Some checker) → n +:+ "/" +:+ check ≠ name +:+ "/phase") →
    r !! (name +:+ "/phase") = base !! (name +:+ "/phase"))); [done|].
  intros check checker m r Hm IH Hsub. destruct checker as [checker|].
  - rewrite lookup_insert_ne by (eapply Hsub; by rewrite lookup_insert_eq). apply IH. intros check' checker' Hl.
    apply (Hsub check' checker'). rewrite lookup_insert_ne; [done|congruence].
  - apply IH. intros check' checker' Hl. apply (Hsub check' checker'). rewrite lookup_insert_ne; [done|congruence].
Qed.

Lemma registered_phase all names name :
  phase_reserved all → (∀ n, n ∈ names → n ∈ all) → name ∈ all →
  foldl (λ checks n, RegisterHealthChecks components n checks) ∅ names !! (name +:+ "/phase") =
    if decide (name ∈ names) then if has_start name then Some (phase_check name) else None else None.
Proof.
  intros Hres Hall Hname. induction names as [|n names IH] using rev_ind; [done|].
  rewrite foldl_app. cbn [foldl]. rewrite (registered_one all) by (try done; apply Hall; set_solver).
  rewrite IH by (intros m Hm; apply Hall; set_solver). destruct (decide (n = name)) as [Heq|Heq].
  - rewrite Heq, (decide_True (P := name ∈ names ++ [name])) by set_solver. destruct (has_start name); [done|]. by case_decide.
  - destruct (decide (name ∈ names)) as [Hin|Hin]; [by rewrite decide_True by set_solver|].
    rewrite decide_False; [done|]. set_solver.
Qed.

End order_lemmas.

(** C34. The order of a process, for any components with any behaviour: components are initialized one by one in the given order, then all
    that have a [Start] are started, in any order; once the process is told to stop those that have a [Join] are joined in the reverse order. The first
    failure to initialize or to join ends the process, a failure to start ends it when all were started; without a failure the process ends
    without an error. Exactly the components with a [Start] have a health check of their phase; it fails at first, and
    once all have started it passes. It is supposed that no component has a check of its own with the name of such a check. *)
Theorem process_order {W : Type} (components : gmap string (Lifecycle.component (W := W))) (names schedule : list string) (wait : W → W) (w0 : W) :
  (∀ name, name ∈ names → is_Some (components !! name)) → NoDup names → schedule ≡ₚ names → phase_reserved components names →
  let '(err, (phases, w), checks) := Lifecycle.tryRun components names schedule wait w0 in
  let '(err', (phases', (w', log)), _) :=
    Lifecycle.tryRun (trace components) names schedule (λ s, (wait s.1, s.2 ++ [EStopped])) (w0, []) in
  err' = err ∧ phases' = phases ∧ w' = w ∧
  ∃ inits initFailed, up_to_failure names inits initFailed ∧
    if initFailed : bool then log = (λ c, EInit c.1 c.2) <$> inits ∧ is_Some err
    else ∃ starts, starts.*1 = filter (λ n, has_start components n = true) schedule ∧
      if existsb snd starts
      then log = ((λ c, EInit c.1 c.2) <$> inits) ++ ((λ c, EStart c.1 c.2) <$> starts) ∧ is_Some err
      else ∃ joins joinFailed, up_to_failure (filter (λ n, has_join components n = true) (reverse names)) joins joinFailed ∧
        log = ((λ c, EInit c.1 c.2) <$> inits) ++ ((λ c, EStart c.1 c.2) <$> starts) ++ EStopped :: ((λ c, EJoin c.1 c.2) <$> joins) ∧
        (err = None ↔ joinFailed = false) ∧
        ∀ name, name ∈ names →
          if has_start components name
          then ∃ check, checks !! (name +:+ "/phase") = Some check ∧ check (phases, w) = None ∧
            is_Some (check (Lifecycle.initPhases components, w))
          else checks !! (name +:+ "/phase") = None.
Proof.
  intros Hin Hnd Hperm Hres. unfold Lifecycle.tryRun.
  destruct (initComponents_traced components names w0 [] Hin) as (inits & initFailed & Hinits & Hif & ->).
  destruct (Component.initComponents _ names w0) as [ierr w1]. cbn [fst snd] in *.
  destruct ierr as [err|]; cbn [Optional.IsSome] in Hif; subst initFailed.
  { rewrite initPhases_trace. do 3 (split; [done|]). by exists inits, true. }
  unfold Lifecycle.startComponents. rewrite initPhases_trace.
  destruct (startAll_traced components schedule (Lifecycle.initPhases components) w1 ([] ++ ((λ c, EInit c.1 c.2) <$> inits)))
    as (starts & Hstarts & Hsf & ->).
  destruct (Lifecycle.startAll components schedule _) as [errs [ph w2]] eqn:Hstart. cbn [fst snd] in *.
  assert (Hex : existsb snd starts = negb (bool_decide (errs = []))).
  { apply Bool.eq_iff_eq_true. rewrite negb_true_iff, bool_decide_eq_false, Hsf. rewrite existsb_exists. split.
    - intros (c & Hc%list_elem_of_In & Hs) Hall. rewrite Forall_forall in Hall. by rewrite (Hall c Hc) in Hs.
    - intros Hn. apply not_Forall_Exists in Hn; [|solve_decision]. apply Exists_exists in Hn as (c & Hc & Hs).
      exists c. split; [by apply list_elem_of_In|]. by apply not_false_is_true. }
  destruct errs as [|err errs]; cbn [length Nat.ltb Nat.leb].
  2: { do 3 (split; [done|]). exists inits, false. split; [done|]. exists starts. split; [done|]. by rewrite Hex. }
  destruct (joinComponents_traced components (reverse names) (wait w2)
    ((([] ++ ((λ c, EInit c.1 c.2) <$> inits)) ++ ((λ c, EStart c.1 c.2) <$> starts)) ++ [EStopped]))
    as (joins & joinFailed & Hjoins & Hjf & ->).
  destruct (Component.joinComponents _ (reverse names) _) as [jerr w3]. cbn [fst snd] in *.
  do 3 (split; [done|]). exists inits, false. split; [done|]. exists starts. split; [done|]. rewrite Hex.
  exists joins, joinFailed. split; [done|]. split; [by rewrite <- !app_assoc|]. split; [by destruct jerr, joinFailed|].
  intros name Hname. rewrite (registered_phase components names names) by done. rewrite decide_True by done.
  destruct (has_start components name) eqn:Hs; [|done]. exists (phase_check name). split; [done|].
  assert (Hns : NoDup schedule) by (by rewrite Hperm).
  destruct (startAll_phases components schedule _ _ _ _ _ Hns Hstart) as [_ Hph].
  unfold phase_check. cbn [fst]. rewrite lookup_initPhases by done. split; [|by eexists].
  rewrite Hph; [done|done|by rewrite Hperm|]. unfold has_start in Hs. by destruct (components !! name ≫= Lifecycle.Start).
Qed.

(** Two components, of which one has nothing to start and a check of its own. *)
Definition example_a : Lifecycle.component (W := nat) := {|
  Lifecycle.Init := λ w, (None, S w); Lifecycle.Start := Some (λ w, (None, S w)); Lifecycle.Join := Some (λ w, (None, S w));
  Lifecycle.HealthChecks := ∅ |}.
Definition example_b : Lifecycle.component (W := nat) := {|
  Lifecycle.Init := λ w, (None, S w); Lifecycle.Start := None; Lifecycle.Join := Some (λ w, (None, S w));
  Lifecycle.HealthChecks := {[ "synced" := Some (λ w, None) ]} |}.
Definition example_components : gmap string (Lifecycle.component (W := nat)) := {[ "a" := example_a; "b" := example_b ]}.

Lemma process_order_witness :
  let names := ["a"; "b"] in
  NoDup names ∧ ["b"; "a"] ≡ₚ names ∧ phase_reserved example_components names ∧
  ∃ check, (Lifecycle.tryRun example_components names ["b"; "a"] (λ w, w) 0).2 !! ("a" +:+ "/phase") = Some check ∧
    check (Lifecycle.tryRun example_components names ["b"; "a"] (λ w, w) 0).1.2 = None ∧
    (Lifecycle.tryRun (trace example_components) names ["b"; "a"] (λ s, (s.1, s.2 ++ [EStopped])) (0, [])).1.2.2 =
      (5, [EInit "a" false; EInit "b" false; EStart "a" false; EStopped; EJoin "b" false; EJoin "a" false]).
Proof.
  intros names.
  assert (Hin : ∀ name, name ∈ names → is_Some (example_components !! name)).
  { intros name [->|[->|[]%elem_of_nil]%elem_of_cons]%elem_of_cons; by eexists. }
  assert (Hnd : NoDup names) by (apply (bool_decide_unpack _); vm_compute; exact I).
  assert (Hp : ["b"; "a"] ≡ₚ names) by apply Permutation_swap.
  assert (Hr : phase_reserved example_components names).
  { intros n c check checker name Hn Hname Hc Hl Heq.
    assert (Hcheck : n = "b" ∧ check = "synced").
    { apply elem_of_cons in Hn as [->|Hn]; [|apply list_elem_of_singleton in Hn as ->].
      - change (Some example_a = Some c) in Hc. injection Hc as <-. discriminate Hl.
      - change (Some example_b = Some c) in Hc. injection Hc as <-. split; [done|].
        cbn [example_b Lifecycle.HealthChecks] in Hl. by apply lookup_singleton_Some in Hl as [<- _]. }
    destruct Hcheck as [-> ->].
    apply elem_of_cons in Hname as [->|Hname]; [|apply list_elem_of_singleton in Hname as ->]; discriminate Heq. }
  split; [exact Hnd|]. split; [exact Hp|]. split; [exact Hr|].
  pose proof (process_order example_components names ["b"; "a"] (λ w, w) 0 Hin Hnd Hp Hr) as H.
  assert (Hlog : (Lifecycle.tryRun (trace example_components) names ["b"; "a"] (λ s, (s.1, s.2 ++ [EStopped])) (0, [])).1.2.2 =
    (5, [EInit "a" false; EInit "b" false; EStart "a" false; EStopped; EJoin "b" false; EJoin "a" false])) by (vm_compute; reflexivity).
  assert (Hph : (Lifecycle.tryRun example_components names ["b"; "a"] (λ w, w) 0).1 = (None, ({[ "a" := "Started" ]}, 5)))
    by (vm_compute; reflexivity).
  destruct (Lifecycle.tryRun example_components names ["b"; "a"] _ 0) as [[err [phases w]] checks].
  cbn [fst snd] in Hph |- *. injection Hph as -> -> ->.
  destruct (Lifecycle.tryRun (trace example_components) names ["b"; "a"] _ _) as [[err' [phases' [w' log]]] checks'].
  cbn [fst snd] in Hlog |- *. injection Hlog as -> ->.
  destruct H as (_ & _ & _ & inits & [] & _ & H); [by destruct H as [_ []]|].
  destruct H as (starts & _ & H). destruct (existsb snd starts); [by destruct H as [_ []]|].
  destruct H as (joins & joinFailed & _ & _ & _ & H). specialize (H "a" ltac:(left)).
  destruct H as (check & H1 & H2 & _). exists check. split; [exact H1|]. split; [exact H2|reflexivity].
Defined.

(** Two callers: the first one wins, the second one returns, then the channel is closed. *)
Lemma shutdown_closes_once_witness :
  let s := {| Shutdown.stopped := true; Shutdown.watchClosed := true; Shutdown.callers := [Shutdown.CDone; Shutdown.CDone] |} in
  rtc Shutdown.step (Shutdown.init 2) s ∧ ∀ k, Shutdown.callers s !! k ≠ Some Shutdown.CPanic.
Proof.
  intros s. assert (Hs : rtc Shutdown.step (Shutdown.init 2) s).
  { eapply rtc_l; [by apply (Shutdown.step_swap _ 0)|]. eapply rtc_l; [by apply (Shutdown.step_swap _ 1)|].
    eapply rtc_l; [by apply (Shutdown.step_close _ 0)|]. apply rtc_refl. }
  split; [exact Hs|]. apply (shutdown_closes_once 2 s Hs).
Defined.

