(* ===== verification/System.v ===== *)
(** * System: the webhook and the aggregators on one PodProtector

    The components meet in the status of a PodProtector on the API server. Here they run together:
    batches of the webhook ([PoolAdapter.tryExecute]) and reconciliations of the aggregators
    ([Aggregator.tryReconcile]) read any earlier version of the PodProtector, as a lagging informer
    has it, and write through the optimistic concurrency of the API server. Pods become available,
    the generator changes the spec and removes cells at any time; pods may go away in other ways. [step] has all that the code may do.
    What users are promised is that the available pods whose deletion was not
    granted do not fall below [MinAvailable]. The code keeps this under conditions on each step, which [permitted] lists: beyond
    them it is not true, as [compaction_breaks_the_promise] shows for one of them. *)

From S2P Require Import Prelude Util Errors Iter Canonical SetTrie LabelIndex Api PprUtil Quota RetryBatch Informer PoolAdapter Handler Aggregator AggregatorCorrect.

Module System.

(** A pod, by its cell and its UID. *)
Notation pod := (string * string)%type.

Definition with_ResourceVersion (m : ObjectMeta) (rv : string) : ObjectMeta := {|
  Name := Name m; Namespace := Namespace m; UID := UID m; ResourceVersion := rv;
  CreationTimestamp := CreationTimestamp m; Labels := Labels m; Annotations := Annotations m;
  Finalizers := Finalizers m; OwnerReferences := OwnerReferences m; DeletionTimestamp := DeletionTimestamp m |}.

Definition version_of (ppr : PodProtector) : string := ResourceVersion (pprMeta ppr).
Definition next_version (cur : PodProtector) (status : PodProtectorStatus) (rv : string) : PodProtector :=
  with_Status (with_pprMeta cur (with_ResourceVersion (pprMeta cur) rv)) status.

(** The API server keeps the versions of the object, the current one first. An update of the status
    is refused, or its resource version is the current one; then the status alone is replaced, and
    the object gets a resource version that it never had. *)
Record StatusServer := {
  UpdateStatus : string → PodProtector → list PodProtector → option error * list PodProtector;
  UpdateStatus_law : ∀ src new w,
    match UpdateStatus src new w with
    | (Some _, w') => w' = w
    | (None, w') => ∃ cur rest rv, w = cur :: rest ∧ version_of new = version_of cur ∧
        rv ∉ version_of <$> w ∧ w' = next_version cur (Status new) rv :: w
    end
}.

(** The pods of a cell. *)
Definition in_cell (id : string) (A : gset pod) : gset pod := filter (λ p, p.1 = id) A.

(** [available] are the available pods whose deletion was not granted, and [granted] are the pods
    whose deletion was. *)
Record system := {
  versions : list PodProtector;
  available : gset pod;
  granted : gset pod
}.

Section system.
Context `{!GoRuntime, !KubeErrors} (server : StatusServer).
Variables (requiresPodName : RequiresPodName.RequiresPodName) (defaultConfig : DefaultConfig.Options)
  (HashFNV32 : string → Z).

Definition config_of (ppr : PodProtector) : DefaultConfig.Computed :=
  DefaultConfig.Compute defaultConfig (Some (HistoryConfig (Spec ppr))).
Definition threshold_of (ppr : PodProtector) : nat := Z.to_nat (DefaultConfig.CompactThreshold (config_of ppr)).

(** Whether the handler grants a deletion with a result of the batch. *)
Definition grants (key : Informer.PodProtectorKey) (arg : PoolAdapter.BatchItem) (r : BatchItem.Result) : bool :=
  match Handler.resultStatus key (DisruptionQuota.HealthCriterion_ (PoolAdapter.PodStatus arg)) r with
  | Ret res => Optional.IsNone (Handler.Err res) && Optional.IsNone (Handler.rejection res)
  | Panic _ => false
  end.

Definition pod_of (arg : PoolAdapter.BatchItem) : pod := (PoolAdapter.CellId arg, PoolAdapter.PodUid arg).

(** The pods of a batch whose deletion is granted. *)
Definition granted_by (key : Informer.PodProtectorKey) (args : list PoolAdapter.BatchItem) (r : RetryBatch.ExecuteResult BatchItem.Result) : gset pod :=
  match r with
  | RetryBatch.ExecuteResultSuccess results =>
      list_to_set (omap (λ '(i, arg),
        match results i with
        | Ret result => if grants key arg result then Some (pod_of arg) else None
        | Panic _ => None
        end) (imap pair args))
  | _ => ∅
  end.

(** A request is judged by availability, and an available pod is not reported as unavailable. *)
Definition honest_request (s : system) (arg : PoolAdapter.BatchItem) : Prop :=
  same_criterion HealthCriterion.Available (PoolAdapter.PodStatus arg) ∧
  (pod_of arg ∈ available s → Pod.IsAvailable (DisruptionQuota.Status (PoolAdapter.PodStatus arg)) = true).

(** Histories have room for the batch, and numbers fit their width. *)
Record batch_fits (ppr : PodProtector) (args : list PoolAdapter.BatchItem) : Prop := {
  fits_threshold : (1 ≤ DefaultConfig.CompactThreshold (config_of ppr))%Z;
  fits_batch : length args ≤ threshold_of ppr;
  fits_histories : histories_fit (threshold_of ppr - length args) (Cells (Status ppr));
  fits_min : (0 ≤ MinAvailable (Spec ppr) ∧ 0 ≤ cells_count (Cells (Status ppr)) ∧
    MinAvailable (Spec ppr) + cells_count (Cells (Status ppr)) ≤ MaxInt32)%Z;
  fits_available : in_int32 (sum_by (AvailableReplicas ∘ Aggregation) (Cells (Status ppr)));
  fits_estimate : in_int32 (sum_by (AvailableReplicas ∘ Aggregation) (Cells (Status ppr)) -
    cells_count (Cells (Status ppr)) - Z.of_nat (length args))
}.

(** The pods of an index that a PodProtector selects. *)
Definition selected (ppr : PodProtector) (m : gmap Namespaced.NamespacedName (gmap string string))
    (nn : Namespaced.NamespacedName) : Prop :=
  Namespaced.Namespace nn = Namespace (pprMeta ppr) ∧
  ∃ labels, m !! nn = Some labels ∧ selector_selects (PprUtil.GetAggregationSelector ppr) labels.

(** The pods that an aggregator counts in its cell are available, or the last event times of its
    shards do not account for their admissions yet. *)
Record honest_snapshot (s : system) (ppr : PodProtector) (shards : list Aggregator.podInformerShard)
    (m : gmap Namespaced.NamespacedName (gmap string string)) (clk : nat → Time) (my : string) (ts : list Time) : Prop := {
  snapshot_uids : ∀ nn nn' p p', selected ppr m nn → selected ppr m nn' →
    live_pod shards nn = Some p → live_pod shards nn' = Some p' → UID (podMeta p) = UID (podMeta p') → nn = nn';
  snapshot_pods : ∀ nn p i, selected ppr m nn → live_pod shards nn = Some p →
    Pod.IsAvailable (pod_status (MinReadySeconds (Spec ppr)) (clk i, p)) = true →
    (my, UID (podMeta p)) ∈ available s ∨
    ∃ b, in_history (Cells (Status ppr)) my b ∧ PodUid b = Some (UID (podMeta p)) ∧
      ∀ min, min ∈ ts → (∀ t, t ∈ ts → (min ≤ t)%Z) →
        obsolete HashFNV32 {| Aggregator.shardTimes := ts; Aggregator.minTime := min |} (length ts) b = false
}.

(** *** Steps

    What happens, with what it reads: [found] and [err] are what the lister of the webhook has for the PodProtector, [get] what that of
    the aggregator has. *)
Inductive event : Type :=
| Review (found : option PodProtector) (err : option error) (key : Informer.PodProtectorKey) (args : list PoolAdapter.BatchItem)
    (now : Time) (backoff : Duration)
| Aggregate (get : Informer.PodProtectorKey → outcome (option PodProtector * option error)) (Matches : gmap string string → bool)
    (clk : nat → Time) (pushNow : Time) (my : string) (index : Aggregator.SetsIndex) (key : Informer.PodProtectorKey)
    (a : Aggregator.reconcileState (W := list PodProtector))
| PodsAvailable (pods : gset pod)
| PodsLost (pods : gset pod)
| UpdateSpec (spec : PodProtectorSpec) (rv : string)
| RemoveCells (cells : list PodProtectorCellStatus) (rv : string).

(** Listers have what was a version of the object at some time, or nothing. *)
Inductive step (s : system) : event → system → Prop :=
| step_review found err key args now backoff r w :
    (∀ ppr, found = Some ppr → ppr ∈ versions s) →
    PoolAdapter.tryExecute requiresPodName (λ _ _, Ret (found, err)) (λ _, now) (λ _, backoff)
      (UpdateStatus server) defaultConfig key args (versions s) = Ret (r, w) →
    step s (Review found err key args now backoff)
      {| versions := w; available := available s ∖ granted_by key args r; granted := granted s ∪ granted_by key args r |}
| step_aggregate get Matches clk pushNow my index key (a a' : Aggregator.reconcileState) e :
    (∀ ppr err, get key = Ret (Some ppr, err) → ppr ∈ versions s) →
    Aggregator.world a = versions s →
    Aggregator.tryReconcile HashFNV32 get Matches (UpdateStatus server) clk pushNow my defaultConfig index key a = Ret (e, a') →
    step s (Aggregate get Matches clk pushNow my index key a)
      {| versions := Aggregator.world a'; available := available s; granted := granted s |}
| step_available pods :
    step s (PodsAvailable pods) {| versions := versions s; available := available s ∪ pods; granted := granted s |}
| step_lost pods :
    step s (PodsLost pods) {| versions := versions s; available := available s ∖ pods; granted := granted s |}
| step_spec cur rest spec rv :
    versions s = cur :: rest → rv ∉ version_of <$> versions s →
    step s (UpdateSpec spec rv)
      {| versions := with_Spec (next_version cur (Status cur) rv) spec :: versions s; available := available s; granted := granted s |}
| step_remove_cells cur rest cells rv :
    versions s = cur :: rest → rv ∉ version_of <$> versions s → cells `sublist_of` Cells (Status cur) →
    step s (RemoveCells cells rv)
      {| versions := next_version cur {| Cells := cells; Summary := Summary (Status cur) |} rv :: versions s;
         available := available s; granted := granted s |}.

(** *** Conditions

    A step is permitted if it changes nothing, or:
    - a batch is reviewed on a version that the lister has, its pods are judged by availability and reported as they are, and
      with its admissions histories stay within the compaction threshold and numbers within 32 bits;
    - an aggregator that writes has a working index and listers, reads a history within the compaction threshold, and what it counts
      is available or still has an admission that its event times do not account for;
    - a pod whose deletion was granted does not become available again, and available pods are lost by granted deletions only. *)
Definition permitted (s : system) (ev : event) (s' : system) : Prop :=
  s' = s ∨
  match ev with
  | Review found err key args now backoff =>
      ∃ ppr, found = Some ppr ∧ err = None ∧ Forall (honest_request s) args ∧ batch_fits ppr args
  | Aggregate get Matches clk pushNow my index key a =>
      ∃ ppr m ts, reconcile_ready get Matches defaultConfig index m key ppr a ts ∧
        histories_fit (threshold_of ppr) (Cells (Status ppr)) ∧ honest_snapshot s ppr (Aggregator.shards a) m clk my ts
  | PodsAvailable pods => pods ## granted s
  | PodsLost _ => False
  | UpdateSpec _ _ | RemoveCells _ _ => True
  end.
Definition permitted_step (s s' : system) : Prop := ∃ ev, step s ev s' ∧ permitted s ev s'.

(** A PodProtector before any admission; what its cells count is available. *)
Definition initial (s : system) : Prop :=
  ∃ ppr, versions s = [ppr] ∧ granted s = ∅ ∧ NoDup (CellId <$> Cells (Status ppr)) ∧
    ∀ c, c ∈ Cells (Status ppr) → Buckets c = [] ∧
      (AvailableReplicas (Aggregation c) ≤ Z.of_nat (size (in_cell (CellId c) (available s))))%Z.

End system.

End System.

(** ** Lemmas: cells and their pods *)
Section slack_lemmas.
Import System.
Implicit Types (cells : list PodProtectorCellStatus) (c : PodProtectorCellStatus) (id : string)
  (A G : gset (string * string)).

(** What a cell has beyond its admissions, if it has the id. *)
Definition weight id c : Z :=
  if decide (CellId c = id) then (AvailableReplicas (Aggregation c) - sum_by bucket_count (Buckets c))%Z else 0%Z.
Definition slack id cells : Z := sum_by (weight id) cells.

Lemma slack_app id cells1 cells2 : slack id (cells1 ++ cells2) = (slack id cells1 + slack id cells2)%Z.
Proof. apply sum_by_app. Qed.
Lemma slack_cons id c cells : slack id (c :: cells) = (weight id c + slack id cells)%Z.
Proof. done. Qed.
Lemma slack_none id cells : id ∉ CellId <$> cells → slack id cells = 0%Z.
Proof.
  induction cells as [|c cells IH]; [done|]. rewrite fmap_cons, not_elem_of_cons, slack_cons. intros [Hc Hid].
  unfold weight. rewrite decide_False, IH by done. done.
Qed.

(** Of cells with distinct ids, one at most has the id. *)
Lemma slack_elem c cells : NoDup (CellId <$> cells) → c ∈ cells → slack (CellId c) cells = weight (CellId c) c.
Proof.
  induction cells as [|d cells IH]; [by intros _ ?%not_elem_of_nil|]. rewrite fmap_cons, slack_cons.
  intros [Hd Hnd]%NoDup_cons [->|Hc]%elem_of_cons; [rewrite slack_none by done; lia|].
  rewrite IH by done. unfold weight at 1. rewrite decide_False; [lia|]. intros Heq. apply Hd. rewrite Heq.
  by apply list_elem_of_fmap_2.
Qed.
Lemma slack_sublist id cells1 cells2 :
  cells1 `sublist_of` cells2 → NoDup (CellId <$> cells2) → slack id cells1 = slack id cells2 ∨ slack id cells1 = 0%Z.
Proof.
  intros Hsub Hnd. assert (Hnd1 : NoDup (CellId <$> cells1)) by (by eapply sublist_NoDup, fmap_sublist).
  destruct (decide (id ∈ CellId <$> cells1)) as [(c & -> & Hc)%list_elem_of_fmap|Hid]; [left|right; by apply slack_none].
  assert (c ∈ cells2) by (eapply elem_of_submseteq; [exact Hc|by apply sublist_submseteq]). by rewrite !slack_elem.
Qed.

(** Cells with the same counts and the same admissions, start times and order aside. *)
Definition view (b : PodProtectorAdmissionBucket) : option string * option Z := (PodUid b, Counter b).
Definition eqv_cell c c' : Prop :=
  CellId c = CellId c' ∧ Aggregation c = Aggregation c' ∧ view <$> Buckets c ≡ₚ view <$> Buckets c'.
Notation eqv := (Forall2 eqv_cell).

#[export] Instance eqv_cell_equiv : Equivalence eqv_cell.
Proof.
  split.
  - done.
  - intros c c' (? & ? & ?). by repeat split.
  - intros c1 c2 c3 (? & ? & ?) (? & ? & ?). split; [congruence|]. split; [congruence|]. by etrans.
Qed.

Lemma sum_bucket_count bs : sum_by bucket_count bs = sum_by (λ v : option string * option Z, Deref v.2 1%Z) (view <$> bs).
Proof. induction bs as [|b bs IH]; [done|]. simpl. by rewrite IH. Qed.

Lemma eqv_weight id c c' : eqv_cell c c' → weight id c = weight id c'.
Proof.
  intros (Hid & Ha & Hb). unfold weight. rewrite Hid, Ha, !sum_bucket_count.
  by rewrite (sum_by_perm _ _ _ Hb).
Qed.
Lemma eqv_slack id cells cells' : eqv cells cells' → slack id cells = slack id cells'.
Proof.
  induction 1 as [|c c' cells cells' Hc _ IH]; [done|]. by rewrite !slack_cons, IH, (eqv_weight _ _ _ Hc).
Qed.
Lemma eqv_ids cells cells' : eqv cells cells' → CellId <$> cells = CellId <$> cells'.
Proof. induction 1 as [|c c' cells cells' (Hid & _) _ IH]; [done|]. by rewrite !fmap_cons, IH, Hid. Qed.
Lemma eqv_history cells cells' id b :
  eqv cells cells' → in_history cells' id b → ∃ b', view b' = view b ∧ in_history cells id b'.
Proof.
  intros Heq (c' & Hc' & Hid & Hb). apply list_elem_of_lookup in Hc' as [i Hi].
  destruct (Forall2_lookup_r _ _ _ _ _ Heq Hi) as (c & Hc & Hid' & _ & Hp).
  assert (Hv : view b ∈ view <$> Buckets c) by (rewrite Hp; by apply list_elem_of_fmap_2).
  apply list_elem_of_fmap in Hv as (b' & Hv & Hb'). exists b'. split; [done|].
  exists c. split; [by eapply list_elem_of_lookup_2|]. split; [congruence|done].
Qed.

Lemma same_cell_eqv cells cells' : Forall2 same_cell cells cells' → eqv cells cells'.
Proof.
  intros Hall. eapply Forall2_impl; [exact Hall|]. intros c c' (Hid & Ha & Hb). split; [done|]. split; [done|].
  enough (Heq : view <$> Buckets c = view <$> Buckets c') by (by rewrite Heq).
  revert Hb. generalize (Buckets c) (Buckets c'). induction 1 as [|b b' bs bs' Hb _ IH]; [done|].
  rewrite !fmap_cons, IH. f_equal. injection Hb as _ Hu _ Hc. unfold view. by rewrite Hu, Hc.
Qed.
Lemma compacted_eqv `{!GoRuntime} config cells cells' :
  (1 ≤ DefaultConfig.CompactThreshold config)%Z → cells_ok cells →
  histories_fit (Z.to_nat (DefaultConfig.CompactThreshold config)) cells →
  Forall2 (cell_compacted config) cells cells' → eqv cells cells'.
Proof.
  intros Hthr Hok Hfit Hf. induction Hf as [|c c' cells cells' (bs & Hbs & ->) _ IH]; [constructor|].
  apply Forall_cons in Hfit as [Hfc Hfit]. constructor; [|apply IH; [intros c0 Hc0; apply Hok; by right|done]].
  rewrite CompactBuckets_eq, decide_True in Hbs by (done || by apply Hok; left). injection Hbs as <-.
  split; [done|]. split; [done|]. simpl. by rewrite sorted_buckets_perm.
Qed.

Lemma elem_of_in_cell id A p : p ∈ in_cell id A ↔ p.1 = id ∧ p ∈ A.
Proof. unfold in_cell. by rewrite elem_of_filter. Qed.

(** The pods of the first cell and the others. *)
Lemma slack_split c cells A :
  CellId c ∉ CellId <$> cells →
  let B := in_cell (CellId c) A in
  size A = size B + size (A ∖ B) ∧
  slack (CellId c) (c :: cells) = (AvailableReplicas (Aggregation c) - sum_by bucket_count (Buckets c))%Z ∧
  slack (CellId c) cells = 0%Z ∧ in_cell (CellId c) (A ∖ B) = ∅ ∧
  ∀ id, id ≠ CellId c → slack id cells = slack id (c :: cells) ∧ in_cell id (A ∖ B) = in_cell id A.
Proof.
  intros Hc B. assert (HB : B ⊆ A) by (intros p Hp; by apply elem_of_in_cell in Hp as [_ ?]).
  split; [|split; [|split; [by apply slack_none|split]]].
  - rewrite <- size_union by set_solver. f_equal. by apply union_difference_L.
  - rewrite slack_cons, (slack_none _ cells Hc). unfold weight. rewrite decide_True by done. lia.
  - apply set_eq. intros p. unfold B. rewrite elem_of_in_cell, elem_of_difference, elem_of_in_cell. set_solver.
  - intros id Hid. split.
    + rewrite slack_cons. unfold weight. rewrite decide_False by done. lia.
    + apply set_eq. intros p. unfold B. rewrite !elem_of_in_cell, elem_of_difference, elem_of_in_cell. naive_solver.
Qed.

(** The counts less the admissions of all cells, when each cell is covered by its pods. *)
Lemma slack_total cells : ∀ A,
  NoDup (CellId <$> cells) → (∀ id, (slack id cells ≤ Z.of_nat (size (in_cell id A)))%Z) →
  (sum_by (AvailableReplicas ∘ Aggregation) cells - cells_count cells ≤ Z.of_nat (size A))%Z.
Proof.
  induction cells as [|c cells IH]; intros A Hnd Hslack; [unfold cells_count; simpl; lia|].
  rewrite fmap_cons in Hnd. apply NoDup_cons in Hnd as [Hc Hnd].
  destruct (slack_split c cells A Hc) as (Hsize & Hw & H0 & _ & Hothers).
  pose proof (Hslack (CellId c)) as Hcell. rewrite Hw in Hcell.
  specialize (IH (A ∖ in_cell (CellId c) A) Hnd). unfold cells_count in *. simpl.
  enough (sum_by (AvailableReplicas ∘ Aggregation) cells - sum_by (λ c, sum_by bucket_count (Buckets c)) cells
    ≤ Z.of_nat (size (A ∖ in_cell (CellId c) A)))%Z by lia.
  apply IH. intros id. destruct (decide (id = CellId c)) as [->|Hid]; [rewrite H0; lia|].
  destruct (Hothers id Hid) as [-> ->]. apply Hslack.
Qed.

(** The same when each cell counts exactly its pods. *)
Lemma slack_total_eq cells : ∀ A,
  NoDup (CellId <$> cells) → (∀ id, slack id cells = Z.of_nat (size (in_cell id A))) →
  (sum_by (AvailableReplicas ∘ Aggregation) cells - cells_count cells)%Z = Z.of_nat (size A).
Proof.
  induction cells as [|c cells IH]; intros A Hnd Hslack.
  - assert (A = ∅) as ->; [|done]. apply set_eq. intros p. split; [|done]. intros Hp. specialize (Hslack p.1).
    assert (size (in_cell p.1 A) = 0) as Hz%size_empty_inv by (unfold slack in Hslack; simpl in Hslack; lia).
    apply (Hz p). by apply elem_of_in_cell.
  - rewrite fmap_cons in Hnd. apply NoDup_cons in Hnd as [Hc Hnd].
    destruct (slack_split c cells A Hc) as (Hsize & Hw & H0 & Hnil & Hothers).
    pose proof (Hslack (CellId c)) as Hcell. rewrite Hw in Hcell.
    specialize (IH (A ∖ in_cell (CellId c) A) Hnd). unfold cells_count in *. simpl.
    enough (sum_by (AvailableReplicas ∘ Aggregation) cells - sum_by (λ c, sum_by bucket_count (Buckets c)) cells
      = Z.of_nat (size (A ∖ in_cell (CellId c) A)))%Z by lia.
    apply IH. intros id. destruct (decide (id = CellId c)) as [->|Hid]; [by rewrite H0, Hnil|].
    destruct (Hothers id Hid) as [-> ->]. apply Hslack.
Qed.

(** Removing pods that are all in a list. *)
Lemma size_remove A G (l : list (string * string)) :
  (∀ p, p ∈ A → p ∈ G → p ∈ l) → size A ≤ size (A ∖ G) + length l.
Proof.
  intros Hl. trans (size ((A ∖ G) ∪ list_to_set l)).
  - apply subseteq_size. intros p Hp. destruct (decide (p ∈ G)); [|set_solver].
    apply elem_of_union_r, elem_of_list_to_set. auto.
  - rewrite size_union_alt. assert (size (list_to_set l ∖ (A ∖ G) : gset (string * string)) ≤ length l); [|lia].
    trans (size (list_to_set l : gset (string * string))); [apply subseteq_size; set_solver|].
    clear Hl. induction l as [|p l IH]; [done|]. simpl. rewrite size_union_alt.
    assert (size ((list_to_set l : gset (string * string)) ∖ {[p]}) ≤ size (list_to_set l : gset (string * string)))
      by (apply subseteq_size; set_solver). rewrite size_singleton. lia.
Qed.

End slack_lemmas.

(** ** Lemmas: a batch *)
Section batch_lemmas.
Import PoolAdapter.
Implicit Types (args : list BatchItem) (cells : list PodProtectorCellStatus) (id : string).

(** The items with a result. *)
Definition items_with (P : BatchItem → BatchItem.Result → bool) args (results : list BatchItem.Result) : list BatchItem :=
  (filter (λ x, P x.1 x.2 = true) (zip args results)).*1.
Definition recorded_in id : BatchItem → BatchItem.Result → bool :=
  λ arg x, bool_decide (CellId arg = id) && admitted x.

Lemma items_with_cons P arg args x results :
  items_with P (arg :: args) (x :: results) = (if P arg x then [arg] else []) ++ items_with P args results.
Proof. unfold items_with. simpl. rewrite filter_cons. simpl. by destruct (P arg x). Qed.

Lemma elem_of_items_with P args results arg :
  arg ∈ items_with P args results ↔ ∃ i x, args !! i = Some arg ∧ results !! i = Some x ∧ P arg x = true.
Proof.
  unfold items_with. rewrite list_elem_of_fmap. split.
  - intros ([a x] & -> & [HP Hin]%list_elem_of_filter). apply list_elem_of_lookup in Hin as [i Hi].
    apply lookup_zip_with_Some in Hi as (a' & x' & [= <- <-] & ? & ?). by exists i, x.
  - intros (i & x & Ha & Hx & HP). exists (arg, x). split; [done|]. apply list_elem_of_filter. split; [done|].
    eapply list_elem_of_lookup_2, lookup_zip_with_Some. eauto.
Qed.

Lemma slack_recordBucket requiresPodName t cells item id :
  slack id (recordBucket requiresPodName t cells item) =
    (slack id cells - if decide (cellId item = id) then 1 else 0)%Z.
Proof.
  destruct (recordBucket_spec requiresPodName t cells item) as (pre & c & post & -> & Hid & Hcells).
  rewrite slack_app, slack_cons. unfold weight at 1. simpl. rewrite Hid, sum_by_app. simpl.
  change (bucket_count (newBucket requiresPodName t item)) with 1%Z.
  destruct Hcells as [->|(-> & -> & Ha & Hb)].
  - rewrite slack_app, slack_cons. unfold weight. rewrite Hid. case_decide; lia.
  - rewrite Ha, Hb. simpl. unfold slack at 2. simpl. case_decide; simpl; lia.
Qed.

Lemma ids_recordBucket requiresPodName t cells item :
  NoDup (Api.CellId <$> cells) → NoDup (Api.CellId <$> recordBucket requiresPodName t cells item).
Proof.
  intros Hnd. unfold recordBucket.
  assert (Halter : ∀ (f : PodProtectorCellStatus → PodProtectorCellStatus) (i : nat) (l : list PodProtectorCellStatus),
    (∀ c, Api.CellId (f c) = Api.CellId c) → Api.CellId <$> alter f i l = Api.CellId <$> l).
  { intros f i l Hf. revert i. induction l as [|c l IH]; intros [|i]; [done..| |].
    - change (alter f 0 (c :: l)) with (f c :: l). by rewrite !fmap_cons, Hf.
    - change (alter f (S i) (c :: l)) with (c :: alter f i l). by rewrite !fmap_cons, IH. }
  destruct (GetOrAppendSliceWith_spec cells (λ cell, bool_decide (Api.CellId cell = cellId item))
    (λ _, {| Api.CellId := cellId item; Aggregation := zero; Buckets := [] |}))
    as (i & [[-> _]|(-> & -> & Hnone)]); rewrite Halter by done; [done|].
  rewrite fmap_app. apply NoDup_app. split; [done|]. split; [|apply NoDup_singleton].
  intros x Hx ->%list_elem_of_singleton. apply list_elem_of_fmap in Hx as (c & Hid & Hc). simpl in Hid.
  specialize (Hnone c Hc). simpl in Hnone. by rewrite bool_decide_eq_false in Hnone.
Qed.

Lemma slack_recorded requiresPodName t dup cells args id : ∀ i rs,
  length rs = length (fresh_statuses dup args) →
  slack id (recorded requiresPodName t (others dup i args) rs cells) =
    (slack id cells - Z.of_nat (length (items_with (recorded_in id) args (batch_results dup args rs))))%Z.
Proof.
  induction args as [|a args IH]; intros i rs Hl; simpl; [lia|]. rewrite fresh_statuses_cons in Hl.
  destruct (dup a).
  - rewrite items_with_cons. unfold recorded_in at 1. rewrite andb_false_r. simpl. by apply IH.
  - destruct rs as [|r rs]; [done|]. injection Hl as Hl. specialize (IH (S i) rs Hl). simpl.
    rewrite items_with_cons. unfold recorded_in at 1. rewrite admitted_ShouldDisrupt.
    destruct (DisruptionQuota.ShouldDisrupt r).
    + rewrite slack_recordBucket, IH, andb_true_r. simpl.
      destruct (decide (CellId a = id)) as [Hid|Hid].
      * rewrite bool_decide_eq_true_2 by done. simpl. lia.
      * rewrite bool_decide_eq_false_2 by done. simpl. lia.
    + rewrite IH, andb_false_r. done.
Qed.

Lemma ids_recorded requiresPodName t und : ∀ rs cells,
  NoDup (Api.CellId <$> cells) → NoDup (Api.CellId <$> recorded requiresPodName t und rs cells).
Proof.
  induction und as [|item und IH]; intros [|r rs] cells Hnd; simpl; try done.
  destruct (DisruptionQuota.ShouldDisrupt r); auto using ids_recordBucket.
Qed.

Lemma count_result_items r args results :
  length args = length results →
  count_result r results = Z.of_nat (length (items_with (λ _ x, bool_decide (x = r)) args results)).
Proof.
  revert results. induction args as [|a args IH]; intros [|x results] Hl; try done. injection Hl as Hl.
  rewrite count_result_cons, items_with_cons, (IH results Hl), length_app.
  case_decide; [rewrite bool_decide_eq_true_2 by done|rewrite bool_decide_eq_false_2 by done]; simpl; lia.
Qed.

(** An available pod is not answered as unhealthy. *)
Lemma getResult_unhealthy s p :
  same_criterion HealthCriterion.Available p →
  admitResultToBatchItemResult (DisruptionQuota.getResult s p) = BatchItem.ResultAlreadyUnhealthy →
  Pod.IsAvailable (DisruptionQuota.Status p) = false.
Proof.
  intros Hp. unfold DisruptionQuota.getResult. case_bool_decide; [done|].
  assert (Hc : DisruptionQuota.HealthCriterion_ p = HealthCriterion.Available ∨
    DisruptionQuota.HealthCriterion_ p = HealthCriterion.Unknown) by (destruct Hp as [->|[_ ->]]; auto).
  destruct (Pod.IsAvailable (DisruptionQuota.Status p)) eqn:Ha; [|done].
  unfold DisruptionQuota.getResultForCriterion. destruct Hc as [-> | ->]; simpl; by repeat case_match.
Qed.

End batch_lemmas.

(** ** The invariant *)

(** [Summarize] keeps the metadata. *)
Lemma Summarize_meta `{!GoRuntime} config ppr ppr' :
  PprUtil.Summarize config ppr = Ret ppr' → System.version_of ppr' = System.version_of ppr.
Proof.
  unfold PprUtil.Summarize. intros Hrun. inv_outcome. repeat case_match; inv_outcome; done.
Qed.

Section system_invariant.
Import System.
Context `{!GoRuntime, !KubeErrors} (server : StatusServer).
Variables (requiresPodName : RequiresPodName.RequiresPodName) (defaultConfig : DefaultConfig.Options)
  (HashFNV32 : string → Z).
Implicit Types (s : system) (ppr v : PodProtector) (id : string) (A G : gset pod).
Notation step := (permitted_step server requiresPodName defaultConfig HashFNV32).
Notation config_of := (config_of defaultConfig).
Notation threshold_of := (threshold_of defaultConfig).
Notation ids v := (CellId <$> Cells (Status v)).

(** A bucket of one granted deletion. *)
Definition single G id (b : PodProtectorAdmissionBucket) : Prop :=
  ∃ uid, PodUid b = Some uid ∧ Counter b = None ∧ (id, uid) ∈ G.

Record sound s : Prop := {
  sound_versions : NoDup (version_of <$> versions s);
  sound_granted : available s ## granted s;
  sound_history : ∀ v id b, v ∈ versions s → in_history (Cells (Status v)) id b → single (granted s) id b;
  sound_ids : ∀ v, v ∈ versions s → NoDup (ids v);
  sound_slack : ∃ cur rest, versions s = cur :: rest ∧
    ∀ id, (slack id (Cells (Status cur)) ≤ Z.of_nat (size (in_cell id (available s))))%Z
}.

Lemma single_mono G G' id b : G ⊆ G' → single G id b → single G' id b.
Proof. intros HG (uid & ? & ? & ?). exists uid. set_solver. Qed.

Lemma sound_initial s : initial s → sound s.
Proof.
  intros (ppr & Hv & Hg & Hids & Hcells). split; rewrite ?Hv, ?Hg.
  - apply NoDup_singleton.
  - set_solver.
  - intros v id b ->%list_elem_of_singleton (c & Hin & _ & Hb). destruct (Hcells c Hin) as [Hnil _].
    rewrite Hnil in Hb. by apply not_elem_of_nil in Hb.
  - by intros v ->%list_elem_of_singleton.
  - exists ppr, []. split; [done|]. intros id.
    destruct (decide (id ∈ ids ppr)) as [(c & -> & Hc)%list_elem_of_fmap|Hid]; [|rewrite slack_none by done; lia].
    destruct (Hcells c Hc) as [Hnil Hle].
    rewrite slack_elem by done. unfold weight. rewrite decide_True, Hnil by done. simpl. lia.
Qed.

Lemma sound_cells_ok s v : sound s → v ∈ versions s → cells_ok (Cells (Status v)).
Proof.
  intros Hs Hv c Hc. apply Forall_forall. intros b Hb. left.
  destruct (sound_history s Hs v (CellId c) b Hv) as (uid & -> & _); [by exists c|eauto].
Qed.

(** A write on top of the current version. *)
Lemma sound_write s v G A' cur rest :
  sound s → versions s = cur :: rest → version_of v ∉ version_of <$> versions s →
  granted s ⊆ G → A' ## G → NoDup (ids v) →
  (∀ id b, in_history (Cells (Status v)) id b → single G id b) →
  (∀ id, (slack id (Cells (Status v)) ≤ Z.of_nat (size (in_cell id A')))%Z) →
  sound {| versions := v :: versions s; available := A'; granted := G |}.
Proof.
  intros [H1 H2 H3 H4 H5] Hcur Hv HG HA Hids Hhist Hslack. split; cbn [versions available granted].
  - rewrite fmap_cons. by apply NoDup_cons.
  - done.
  - intros v' id b [->|Hv']%elem_of_cons Hb; [by apply Hhist|]. by eapply single_mono, H3.
  - intros v' [->|Hv']%elem_of_cons; [done|by apply H4].
  - exists v, (versions s). done.
Qed.

(** More deletions are granted of pods that are not available, and nothing is written. *)
Lemma sound_grant s G :
  sound s → available s ## G → sound {| versions := versions s; available := available s; granted := granted s ∪ G |}.
Proof.
  intros [H1 H2 H3 H4 H5] HG. split; simpl; try done; [set_solver|].
  intros v id b Hv Hb. eapply single_mono; [|by apply (H3 v id b)]. set_solver.
Qed.

(** A write succeeds from the current version only. *)
Lemma write_spec s ppr src new err w :
  sound s → ppr ∈ versions s → version_of new = version_of ppr →
  UpdateStatus server src new (versions s) = (err, w) →
  match err with
  | Some _ => w = versions s
  | None => ∃ rest rv, versions s = ppr :: rest ∧ rv ∉ version_of <$> versions s ∧
      w = next_version ppr (Status new) rv :: versions s
  end.
Proof.
  intros Hs Hppr Hnew Hup. pose proof (UpdateStatus_law server src new (versions s)) as Hlaw. rewrite Hup in Hlaw.
  destruct err as [err|]; [done|]. destruct Hlaw as (cur & rest & rv & Hv & Hrv & Hfresh & ->).
  assert (ppr = cur) as ->; [|by eauto].
  pose proof (sound_versions s Hs) as Hnd. rewrite Hv in Hppr, Hnd. rewrite fmap_cons in Hnd.
  apply NoDup_cons in Hnd as [Hnd _]. apply elem_of_cons in Hppr as [->|Hppr]; [done|].
  exfalso. apply Hnd. rewrite <- Hrv, Hnew. by apply list_elem_of_fmap_2.
Qed.

Lemma grants_eq key arg r :
  grants key arg r = true ↔
    r = BatchItem.ResultNoPpr ∨ r = BatchItem.ResultAlreadyHasBucket ∨ admitted r = true.
Proof. unfold grants. destruct r; simpl; naive_solver. Qed.

Lemma elem_of_granted_by key args results p :
  p ∈ granted_by key args (RetryBatch.ExecuteResultSuccess (PoolAdapter.resultAt results)) ↔
    ∃ i arg r, args !! i = Some arg ∧ results !! i = Some r ∧ grants key arg r = true ∧ p = pod_of arg.
Proof.
  unfold granted_by. rewrite elem_of_list_to_set, list_elem_of_omap. split.
  - intros ([i arg] & Hin & Heq). apply list_elem_of_lookup in Hin as [j Hj]. rewrite list_lookup_imap in Hj.
    destruct (args !! j) as [arg'|] eqn:Ha; [|done]. injection Hj as <- <-. unfold PoolAdapter.resultAt in Heq.
    destruct (results !! j) as [r|] eqn:Hr; [|done]. destruct (grants key arg' r) eqn:Hg; [|done].
    injection Heq as <-. by exists j, arg', r.
  - intros (i & arg & r & Ha & Hr & Hg & ->). exists (i, arg). split.
    + apply list_elem_of_lookup. exists i. by rewrite list_lookup_imap, Ha.
    + unfold PoolAdapter.resultAt. by rewrite Hr, Hg.
Qed.

(** What a batch does to the status. *)
Lemma review_status now ppr args :
  cells_ok (Cells (Status ppr)) → batch_fits defaultConfig ppr args →
  Forall (λ arg, same_criterion HealthCriterion.Available (PoolAdapter.PodStatus arg)) args →
  ∃ ppr2 results, PoolAdapter.executeOn requiresPodName defaultConfig now ppr args = Ret (ppr2, results) ∧
    length args = length results ∧ version_of ppr2 = version_of ppr ∧
    (NoDup (ids ppr) → NoDup (ids ppr2)) ∧
    (∀ id, slack id (Cells (Status ppr2)) =
      (slack id (Cells (Status ppr)) - Z.of_nat (length (items_with (recorded_in id) args results)))%Z) ∧
    (∀ id b, in_history (Cells (Status ppr2)) id b →
      (∃ b', view b' = view b ∧ in_history (Cells (Status ppr)) id b') ∨
      ∃ i arg r, args !! i = Some arg ∧ results !! i = Some r ∧ admitted r = true ∧
        id = PoolAdapter.CellId arg ∧ view b = (Some (PoolAdapter.PodUid arg), None)) ∧
    (∀ i arg r, args !! i = Some arg → results !! i = Some r →
      r ≠ BatchItem.ResultNoPpr ∧
      (r = BatchItem.ResultAlreadyHasBucket →
        ∃ b, in_history (Cells (Status ppr)) (PoolAdapter.CellId arg) b ∧ PodUid b = Some (PoolAdapter.PodUid arg)) ∧
      (r = BatchItem.ResultAlreadyUnhealthy →
        Pod.IsAvailable (DisruptionQuota.Status (PoolAdapter.PodStatus arg)) = false)) ∧
    (0 < count_result BatchItem.ResultNewDisruption results →
      MinAvailable (Spec ppr) ≤ sum_by (AvailableReplicas ∘ Aggregation) (Cells (Status ppr)) -
        cells_count (Cells (Status ppr)) - count_result BatchItem.ResultNewDisruption results)%Z.
Proof.
  intros Hok [Hthr Hlen Hfit Hmin Hav Hest] Hall.
  destruct (executeOn_quota requiresPodName defaultConfig now ppr args Hthr Hok Hlen Hfit Hall Hmin Hav Hest)
    as (ppr2 & results & Hex & _ & _ & Hquota).
  destruct (executeOn_eq requiresPodName defaultConfig now ppr args Hthr Hok)
    as (ppr1 & cells & ppr2' & H1 & Hc1 & _ & _ & Hs & Hex' & H2 & Hok2 & Hc2 & _).
  fold (config_of ppr) in H1, Hc1, Hex', H2, Hok2, Hc2. rewrite Hex in Hex'. injection Hex' as <- ->.
  assert (Hfit0 : histories_fit (threshold_of ppr) (Cells (Status ppr))).
  { eapply Forall_impl; [exact Hfit|]. simpl. lia. }
  set (dup := has_bucket (Cells (Status ppr1))).
  set (rs := DisruptionQuota.AdmitBatch ppr1 (fresh_statuses dup args) (config_of ppr)).
  assert (Hrs : length rs = length (fresh_statuses dup args)) by apply length_admitLoop.
  change (expected_cells requiresPodName now ppr1 (config_of ppr) args cells)
    with (recorded requiresPodName now (others dup 0 args) rs cells) in H2, Hok2, Hc2.
  change (expected_batch ppr1 (config_of ppr) args) with (batch_results dup args rs) in Hex, Hquota |- *.
  assert (Heqv1 : Forall2 eqv_cell (Cells (Status ppr)) cells).
  { etrans; [by apply (compacted_eqv (config_of ppr))|by apply same_cell_eqv]. }
  assert (Hfit2 : histories_fit (threshold_of ppr) (recorded requiresPodName now (others dup 0 args) rs cells)).
  { rewrite <- (Nat.sub_add _ _ Hlen). apply recorded_fit. destruct (same_cells_facts _ _ Hs) as (_ & _ & _ & Hm).
    apply Hm. destruct (compacted_cells_facts _ _ _ Hthr Hok Hc1) as (_ & _ & Hm1). by apply Hm1. }
  pose proof (compacted_eqv _ _ _ Hthr Hok2 Hfit2 Hc2) as Heqv2.
  exists ppr2, (batch_results dup args rs). split; [exact Hex|].
  split; [symmetry; exact (length_expected_batch ppr1 (config_of ppr) args)|].
  split; [etrans; [exact (Summarize_meta _ _ _ H2)|exact (Summarize_meta _ _ _ H1)]|].
  split; [intros Hnd; rewrite <- (eqv_ids _ _ Heqv2); apply ids_recorded; by rewrite <- (eqv_ids _ _ Heqv1)|].
  split; [intros id; by rewrite <- (eqv_slack _ _ _ Heqv2), slack_recorded, (eqv_slack _ _ _ Heqv1)|].
  split; [|split; [|exact Hquota]].
  - intros id b Hb. destruct (eqv_history _ _ _ _ Heqv2 Hb) as (b1 & Hv1 & Hb1).
    destruct (recorded_history _ _ _ _ _ _ _ _ _ Hb1) as [Hold|(i & arg & r & Ha & Hr & Hadm & -> & Hu & Hcnt)].
    + left. destruct (eqv_history _ _ _ _ Heqv1 Hold) as (b2 & Hv2 & Hb2). exists b2. split; [congruence|done].
    + right. exists i, arg, r. repeat (split; [done|]). rewrite <- Hv1. unfold view. by rewrite Hu, Hcnt.
  - intros i arg r Ha Hr. rewrite Forall_forall in Hall.
    pose proof (Hall arg (list_elem_of_lookup_2 _ _ _ Ha)) as Hcrit.
    destruct (batch_results_lookup _ _ _ _ _ _ Ha Hr) as [[Hd ->]|(Hd & j & q & Hj & Hq & ->)].
    + split; [done|]. split; [intros _|done]. unfold dup, has_bucket in Hd.
      destruct (find_cell_slot (Cells (Status ppr1)) (PoolAdapter.CellId arg)) as [[_ Hf]|(n & c & _ & Hn & Hid & Hf)];
        rewrite Hf in Hd; [done|]. apply existsb_elem_of in Hd as (b & Hb & Hu). apply bool_decide_eq_true in Hu.
      pose proof (compacted_eqv _ _ _ Hthr Hok Hfit0 Hc1) as Heqv0.
      destruct (eqv_history _ _ (PoolAdapter.CellId arg) b Heqv0) as (b' & Hv & Hb').
      { exists c. split; [by eapply list_elem_of_lookup_2|done]. }
      exists b'. split; [done|]. unfold view in Hv. congruence.
    + unfold rs, DisruptionQuota.AdmitBatch in Hq. destruct (admitLoop_lookup _ _ _ _ _ Hj Hq) as [s' ->].
      split; [by destruct (DisruptionQuota.getResult s' _)|]. split; [by destruct (DisruptionQuota.getResult s' _)|].
      by apply getResult_unhealthy.
Qed.

(** Among the available pods, deletions are granted as new disruptions only. *)
Lemma granted_available s ppr key args results p :
  sound s → ppr ∈ versions s → Forall (honest_request s) args →
  (∀ i arg r, args !! i = Some arg → results !! i = Some r →
    r ≠ BatchItem.ResultNoPpr ∧
    (r = BatchItem.ResultAlreadyHasBucket →
      ∃ b, in_history (Cells (Status ppr)) (PoolAdapter.CellId arg) b ∧ PodUid b = Some (PoolAdapter.PodUid arg)) ∧
    (r = BatchItem.ResultAlreadyUnhealthy →
      Pod.IsAvailable (DisruptionQuota.Status (PoolAdapter.PodStatus arg)) = false)) →
  p ∈ granted_by key args (RetryBatch.ExecuteResultSuccess (PoolAdapter.resultAt results)) → p ∈ available s →
  ∃ i arg, args !! i = Some arg ∧ results !! i = Some BatchItem.ResultNewDisruption ∧ p = pod_of arg.
Proof.
  intros Hs Hppr Hhonest Hres Hp Hav. apply elem_of_granted_by in Hp as (i & arg & r & Ha & Hr & Hg & ->).
  exists i, arg. split; [done|]. split; [|done]. destruct (Hres i arg r Ha Hr) as (Hno & Hdup & Hun).
  rewrite Forall_forall in Hhonest. destruct (Hhonest arg (list_elem_of_lookup_2 _ _ _ Ha)) as [_ Hh].
  apply grants_eq in Hg as [->|[->|Hadm]]; [done| |].
  - destruct (Hdup eq_refl) as (b & Hb & Hu). exfalso.
    destruct (sound_history s Hs ppr _ b Hppr Hb) as (uid & Hu' & _ & Hin). rewrite Hu in Hu'. injection Hu' as <-.
    by apply (sound_granted s Hs (pod_of arg)).
  - destruct r; try done. specialize (Hun eq_refl). rewrite (Hh Hav) in Hun. done.
Qed.

(** The pods of a cell that a batch takes are recorded in the history of the cell. *)
Lemma size_in_cell id A G (l : list pod) :
  (∀ p, p ∈ A → p ∈ G → p.1 = id → p ∈ l) →
  (Z.of_nat (size (in_cell id A)) - Z.of_nat (length l) ≤ Z.of_nat (size (in_cell id (A ∖ G))))%Z.
Proof.
  intros Hl. pose proof (size_remove (in_cell id A) G l) as Hsize.
  replace (in_cell id (A ∖ G)) with (in_cell id A ∖ G).
  - enough (size (in_cell id A) ≤ size (in_cell id A ∖ G) + length l) by lia.
    apply Hsize. intros p [Hp HA]%elem_of_in_cell HG. by apply Hl.
  - apply set_eq. intros p. rewrite elem_of_difference, !elem_of_in_cell, elem_of_difference. tauto.
Qed.

(** What [review_status] guarantees, as a relation between the PodProtector before and after. *)
Record reviewed ppr ppr2 args results : Prop := {
  reviewed_length : length args = length results;
  reviewed_version : version_of ppr2 = version_of ppr;
  reviewed_ids : NoDup (ids ppr) → NoDup (ids ppr2);
  reviewed_slack id : slack id (Cells (Status ppr2)) =
    (slack id (Cells (Status ppr)) - Z.of_nat (length (items_with (recorded_in id) args results)))%Z;
  reviewed_history id b : in_history (Cells (Status ppr2)) id b →
    (∃ b', view b' = view b ∧ in_history (Cells (Status ppr)) id b') ∨
    ∃ i arg r, args !! i = Some arg ∧ results !! i = Some r ∧ admitted r = true ∧
      id = PoolAdapter.CellId arg ∧ view b = (Some (PoolAdapter.PodUid arg), None);
  reviewed_quota : (0 < count_result BatchItem.ResultNewDisruption results →
    MinAvailable (Spec ppr) ≤ sum_by (AvailableReplicas ∘ Aggregation) (Cells (Status ppr)) -
      cells_count (Cells (Status ppr)) - count_result BatchItem.ResultNewDisruption results)%Z
}.

Section review.
Variables (s : system) (ppr ppr2 : PodProtector) (args : list PoolAdapter.BatchItem) (results : list BatchItem.Result)
  (G : gset pod).
Hypothesis (Hs : sound s) (Hppr : ppr ∈ versions s) (Hrev : reviewed ppr ppr2 args results).
(** [G] has the pods of all recorded items, and no available ones but those of new disruptions. *)
Hypothesis recorded_granted : ∀ i arg r,
  args !! i = Some arg → results !! i = Some r → admitted r = true → pod_of arg ∈ G.
Hypothesis available_granted : ∀ p, p ∈ G → p ∈ available s →
  ∃ i arg, args !! i = Some arg ∧ results !! i = Some BatchItem.ResultNewDisruption ∧ p = pod_of arg.

Lemma new_disruptions (P : PoolAdapter.BatchItem → BatchItem.Result → bool) p :
  p ∈ G → p ∈ available s → (∀ arg, p = pod_of arg → P arg BatchItem.ResultNewDisruption = true) →
  p ∈ pod_of <$> items_with P args results.
Proof.
  intros Hp Hav HP. destruct (available_granted p Hp Hav) as (i & arg & Ha & Hr & Heq). rewrite Heq.
  apply list_elem_of_fmap_2, elem_of_items_with. exists i, BatchItem.ResultNewDisruption. eauto.
Qed.

(** The batch changed nothing, so that no new disruption was admitted. *)
Lemma review_unchanged : ppr = ppr2 → G ## available s.
Proof.
  intros <- p Hp Hav. pose proof (reviewed_slack _ _ _ _ Hrev p.1) as Hslack.
  assert (Hin : p ∈ pod_of <$> items_with (recorded_in p.1) args results).
  { apply new_disruptions; [done..|]. intros arg ->. unfold recorded_in. by rewrite bool_decide_eq_true_2. }
  destruct (items_with _ args results); [by apply not_elem_of_nil in Hin|simpl in Hslack; lia].
Qed.

Lemma review_written rest rv :
  versions s = ppr :: rest → rv ∉ version_of <$> versions s →
  sound {| versions := next_version ppr (Status ppr2) rv :: versions s; available := available s ∖ G;
           granted := granted s ∪ G |}.
Proof.
  intros Hv Hfresh. apply (sound_write s _ _ _ ppr rest); try done.
  - set_solver.
  - pose proof (sound_granted s Hs). set_solver.
  - apply (reviewed_ids _ _ _ _ Hrev). by apply (sound_ids s Hs).
  - intros id b Hb.
    destruct (reviewed_history _ _ _ _ Hrev id b Hb) as [(b' & Hvb & Hb')|(i & arg & q & Ha & Hr & Hadm & -> & Hvb)].
    + destruct (sound_history s Hs ppr id b' Hppr Hb') as (uid & Hu & Hc & Hin). unfold view in Hvb.
      exists uid. split; [congruence|]. split; [congruence|]. set_solver.
    + unfold view in Hvb. exists (PoolAdapter.PodUid arg). split; [congruence|]. split; [congruence|].
      apply elem_of_union_r. by eapply recorded_granted.
  - intros id. cbn [next_version with_Status Status]. rewrite (reviewed_slack _ _ _ _ Hrev).
    destruct (sound_slack s Hs) as (cur & rest' & Hv' & Hsl). rewrite Hv in Hv'. injection Hv' as <- <-.
    specialize (Hsl id). rewrite <- (length_fmap pod_of).
    pose proof (size_in_cell id (available s) G (pod_of <$> items_with (recorded_in id) args results)) as Hsz.
    enough (∀ p, p ∈ available s → p ∈ G → p.1 = id → p ∈ pod_of <$> items_with (recorded_in id) args results)
      as Hp by (specialize (Hsz Hp); lia).
    intros p Hav Hp <-. apply new_disruptions; [done..|]. intros arg ->. unfold recorded_in. by rewrite bool_decide_eq_true_2.
Qed.

(** If a new disruption was admitted, then enough pods are left; otherwise no available pod is lost. *)
Lemma review_left rest :
  versions s = ppr :: rest →
  G ## available s ∨ (MinAvailable (Spec ppr) ≤ Z.of_nat (size (available s ∖ G)))%Z.
Proof.
  intros Hv. set (new := λ (_ : PoolAdapter.BatchItem) x, bool_decide (x = BatchItem.ResultNewDisruption)).
  assert (Hl : ∀ p, p ∈ available s → p ∈ G → p ∈ pod_of <$> items_with new args results).
  { intros p Hav Hp. apply new_disruptions; [done..|]. intros arg _. by apply bool_decide_eq_true_2. }
  destruct (decide (items_with new args results = [])) as [Hnil|Hne].
  - left. intros p Hp Hav. specialize (Hl p Hav Hp). rewrite Hnil in Hl. by apply not_elem_of_nil in Hl.
  - right. pose proof (reviewed_quota _ _ _ _ Hrev) as Hquota.
    rewrite (count_result_items _ args) in Hquota by apply Hrev. fold new in Hquota.
    pose proof (size_remove (available s) G _ Hl) as Hsize. rewrite length_fmap in Hsize.
    destruct (sound_slack s Hs) as (cur & rest' & Hv' & Hsl). rewrite Hv in Hv'. injection Hv' as <- <-.
    pose proof (slack_total _ (available s) (sound_ids s Hs ppr Hppr) Hsl).
    assert (Hpos : (0 < Z.of_nat (length (items_with new args results)))%Z)
      by (destruct (items_with new args results); [done|simpl; lia]).
    specialize (Hquota Hpos). lia.
Qed.

End review.

Lemma review_step s ppr key args now backoff r w :
  sound s → ppr ∈ versions s → Forall (honest_request s) args → batch_fits defaultConfig ppr args →
  PoolAdapter.tryExecute requiresPodName (λ _ _, Ret (Some ppr, None)) (λ _, now) (λ _, backoff)
    (UpdateStatus server) defaultConfig key args (versions s) = Ret (r, w) →
  let G := granted_by key args r in
  sound {| versions := w; available := available s ∖ G; granted := granted s ∪ G |} ∧
  (available s ∖ G = available s ∨
    ∃ cur rest, w = cur :: rest ∧ (MinAvailable (Spec cur) ≤ Z.of_nat (size (available s ∖ G)))%Z).
Proof.
  intros Hs Hppr Hhonest Hfits Hrun G.
  assert (Hcrit : Forall (λ arg, same_criterion HealthCriterion.Available (PoolAdapter.PodStatus arg)) args).
  { eapply Forall_impl; [exact Hhonest|]. by intros arg [? _]. }
  destruct (review_status now ppr args (sound_cells_ok s ppr Hs Hppr) Hfits Hcrit)
    as (ppr2 & results & Hex & H1 & H2 & H3 & H4 & H5 & Hres & H6).
  assert (Hrev : reviewed ppr ppr2 args results) by done. clear H1 H2 H3 H4 H5 H6.
  pose proof (λ p, granted_available s ppr key args results p Hs Hppr Hhonest Hres) as Hnew.
  assert (Hrec : ∀ i arg q, args !! i = Some arg → results !! i = Some q → admitted q = true →
    pod_of arg ∈ granted_by key args (RetryBatch.ExecuteResultSuccess (PoolAdapter.resultAt results))).
  { intros i arg q Ha Hr Hadm. apply elem_of_granted_by. exists i, arg, q. repeat (split; [done|]).
    split; [apply grants_eq; by right; right|done]. }
  assert (Hsame : ∀ G, G ## available s →
    sound {| versions := versions s; available := available s ∖ G; granted := granted s ∪ G |} ∧
    available s ∖ G = available s).
  { intros G' Hd. assert (Heq : available s ∖ G' = available s) by (apply set_eq; set_solver).
    rewrite Heq. split; [by apply sound_grant|done]. }
  unfold PoolAdapter.tryExecute in Hrun. cbn [mbind outcome_bind] in Hrun. rewrite Hex in Hrun.
  cbn [mbind outcome_bind] in Hrun. case_bool_decide as Heq.
  - injection Hrun as <- <-. destruct (Hsame G); [by eapply review_unchanged|auto].
  - destruct (UpdateStatus server (Informer.SourceName key) ppr2 (versions s)) as [[err|] w'] eqn:Hup;
      pose proof (write_spec s ppr _ ppr2 _ w' Hs Hppr (reviewed_version _ _ _ _ Hrev) Hup) as Hw; simpl in Hw.
    + injection Hrun as <- <-. assert (HG : G = ∅) by (unfold G; by destruct (IsConflict err)).
      rewrite Hw. destruct (Hsame G); [rewrite HG; set_solver|auto].
    + injection Hrun as <- <-. destruct Hw as (rest & rv & Hv & Hfresh & ->).
      split; [by eapply review_written|].
      destruct (review_left s ppr ppr2 args results G Hs Hppr Hrev Hnew rest Hv) as [Hd|Hmin].
      * left. by apply Hsame.
      * right. by eexists _, _.
Qed.

(** *** A reconciliation *)

Lemma NoDup_omap_fmap {K P U} (f : K → option P) (u : P → U) (l : list K) :
  NoDup l →
  (∀ k k' p p', k ∈ l → k' ∈ l → f k = Some p → f k' = Some p' → u p = u p' → k = k') →
  NoDup (u <$> omap f l).
Proof.
  induction 1 as [|k l Hk Hnd IH]; intros Hinj; [apply NoDup_nil_2|]. rewrite omap_cons.
  assert (IH' : NoDup (u <$> omap f l)).
  { apply IH. intros k1 k2 p1 p2 H1 H2. apply Hinj; by right. }
  destruct (f k) as [p|] eqn:Hf; [|done]. rewrite fmap_cons. apply NoDup_cons. split; [|done].
  intros Hin. apply list_elem_of_fmap in Hin as (p' & Hu & (k' & Hk' & Hf')%list_elem_of_omap).
  apply Hk. rewrite (Hinj k k' p p'); [done|left|by right|done..].
Qed.

Lemma size_covered (A B : gset pod) (l : list pod) :
  (∀ p, p ∈ A → p ∉ B → p ∈ l) → (Z.of_nat (size A) - Z.of_nat (length l) ≤ Z.of_nat (size B))%Z.
Proof.
  intros Hl. pose proof (size_remove A (A ∖ B) l) as Hsize.
  assert (size (A ∖ (A ∖ B)) ≤ size B) by (apply subseteq_size; set_solver).
  enough (size A ≤ size (A ∖ (A ∖ B)) + length l) by lia. apply Hsize. set_solver.
Qed.

(** The pods that a reconciliation counts as available. *)
Definition counted ppr (clk : nat → Time) (my : string) (pods : list PodObject) : gset pod :=
  list_to_set ((λ x : Time * PodObject, (my, UID (podMeta x.2))) <$>
    filter (λ x, Pod.IsAvailable (pod_status (MinReadySeconds (Spec ppr)) x) = true) (imap (λ i pod, (clk i, pod)) pods)).

Lemma elem_of_counted ppr clk my shards names p :
  p ∈ counted ppr clk my (omap (live_pod shards) names) ↔
  ∃ i nn pd, omap (live_pod shards) names !! i = Some pd ∧ nn ∈ names ∧ live_pod shards nn = Some pd ∧
    Pod.IsAvailable (pod_status (MinReadySeconds (Spec ppr)) (clk i, pd)) = true ∧ p = (my, UID (podMeta pd)).
Proof.
  unfold counted. rewrite elem_of_list_to_set, list_elem_of_fmap. split.
  - intros ([t pd] & -> & [Hav Hin]%list_elem_of_filter). apply list_elem_of_lookup in Hin as [i Hi].
    rewrite list_lookup_imap in Hi. destruct (omap _ _ !! i) as [pd'|] eqn:Hpi; [|done]. injection Hi as <- ->.
    pose proof (list_elem_of_lookup_2 _ _ _ Hpi) as (nn & Hnn & Hlive)%list_elem_of_omap. by exists i, nn, pd.
  - intros (i & nn & pd & Hi & _ & _ & Hav & ->). exists (clk i, pd). split; [done|]. apply list_elem_of_filter.
    split; [done|]. apply list_elem_of_lookup. exists i. by rewrite list_lookup_imap, Hi.
Qed.

(** Each of them once. *)
Lemma size_counted ppr clk my shards names :
  NoDup names →
  (∀ nn nn' p p', nn ∈ names → nn' ∈ names → live_pod shards nn = Some p → live_pod shards nn' = Some p' →
    UID (podMeta p) = UID (podMeta p') → nn = nn') →
  ∀ times status, AvailableReplicas (Aggregation (reconciled HashFNV32 clk ppr (omap (live_pod shards) names) times status)) =
    Z.of_nat (size (counted ppr clk my (omap (live_pod shards) names))).
Proof.
  intros Hnd Huid times status. set (pods := omap (live_pod shards) names).
  unfold counted. rewrite size_list_to_set; [by rewrite length_fmap|].
  set (items := filter _ _).
  assert (Hsub : items.*2 `sublist_of` pods).
  { assert (Hsnd : (imap (λ i pod, (clk i, pod)) pods).*2 = pods).
    { rewrite fmap_imap. etrans; [exact (imap_const id pods)|apply list_fmap_id]. }
    rewrite <- Hsnd. apply fmap_sublist, sublist_filter. }
  apply (fmap_sublist (λ p : PodObject, (my, UID (podMeta p)))) in Hsub. rewrite <- list_fmap_compose in Hsub.
  eapply sublist_NoDup; [|exact Hsub]. apply NoDup_omap_fmap; [done|].
  intros nn nn' p p' Hn Hn' Hp Hp' [= Heq]. by eapply Huid.
Qed.

(** The pods that are counted in a cell are available, or have an admission that is kept. *)
Lemma snapshot_covered s ppr shards m clk my ts names status min :
  sound s → ppr ∈ versions s → honest_snapshot HashFNV32 s ppr shards m clk my ts →
  NoDup names → (∀ nn, nn ∈ names → selected ppr m nn) →
  (∀ b, in_history (Cells (Status ppr)) my b ↔ b ∈ Buckets status) →
  min ∈ ts → (∀ t, t ∈ ts → (min ≤ t)%Z) →
  let times := {| Aggregator.shardTimes := ts; Aggregator.minTime := min |} in
  let cell := reconciled HashFNV32 clk ppr (omap (live_pod shards) names) times status in
  (AvailableReplicas (Aggregation cell) - sum_by bucket_count (Buckets cell) ≤
    Z.of_nat (size (in_cell my (available s))))%Z.
Proof.
  intros Hs Hppr [Huid Hseen] Hnd Hnames Hst Hmin Hle times cell. unfold cell at 1.
  rewrite (size_counted ppr clk my) by (done || (intros; by eapply Huid; eauto)).
  assert (Hkept : sum_by bucket_count (Buckets cell) = Z.of_nat (length (Buckets cell))).
  { assert (Hone : ∀ b, b ∈ Buckets cell → bucket_count b = 1%Z).
    { intros b [_ Hb]%list_elem_of_filter. apply Hst in Hb.
      destruct (sound_history s Hs ppr my b Hppr Hb) as (uid & _ & Hc & _). unfold bucket_count. by rewrite Hc. }
    revert Hone. generalize (Buckets cell). induction l as [|b l IH]; intros Hone; [done|].
    cbn [sum_by length]. rewrite IH, Hone by (intros; try apply Hone; set_solver). lia. }
  rewrite Hkept, <- (length_fmap (λ b, (my, default "" (PodUid b)))). apply size_covered.
  intros p (i & nn & pd & _ & Hnn & Hlive & Hav & ->)%elem_of_counted HB.
  destruct (Hseen nn pd i (Hnames nn Hnn) Hlive Hav) as [Hmine|(b & Hb & Hu & Hob)].
  - exfalso. apply HB. by apply elem_of_in_cell.
  - apply list_elem_of_fmap. exists b. split; [by rewrite Hu|]. apply list_elem_of_filter.
    split; [by apply Hob|by apply Hst].
Qed.

(** What changes when the cell in a slot gets a new status. *)
Lemma slot_ids my cells pre status status' post :
  cell_slot my cells pre status post → CellId status' = my → NoDup (CellId <$> cells) →
  NoDup (CellId <$> (pre ++ status' :: post)) ∧ my ∉ CellId <$> pre ∧ my ∉ CellId <$> post.
Proof.
  intros (Hid & Hpre & Hcells) Hid' Hnd.
  assert (Hp : my ∉ CellId <$> pre).
  { intros (c & -> & Hc)%list_elem_of_fmap. rewrite Forall_forall in Hpre. by apply (Hpre c). }
  rewrite fmap_app, fmap_cons, Hid'. destruct Hcells as [->|(-> & -> & _)].
  - rewrite fmap_app, fmap_cons, Hid in Hnd. split; [done|]. split; [done|].
    apply NoDup_app in Hnd as (_ & _ & Hnd). by apply NoDup_cons in Hnd as [? _].
  - split; [|split; [done|apply not_elem_of_nil]]. apply NoDup_app. split; [done|].
    split; [|apply NoDup_singleton]. by intros x Hx ->%list_elem_of_singleton.
Qed.

Lemma slot_slack my cells pre status status' post id :
  cell_slot my cells pre status post → CellId status' = my → NoDup (CellId <$> cells) →
  slack id (pre ++ status' :: post) = if decide (id = my) then weight my status' else slack id cells.
Proof.
  intros Hslot Hid' Hnd. destruct (slot_ids _ _ _ _ _ _ Hslot Hid' Hnd) as (_ & Hpre & Hpost).
  rewrite slack_app, slack_cons. case_decide as Hmy.
  - subst id. rewrite !slack_none by done. lia.
  - destruct Hslot as (Hid & _ & Hcells). unfold weight. rewrite decide_False by congruence.
    destruct Hcells as [->|(-> & -> & _)].
    + rewrite slack_app, slack_cons. unfold weight. rewrite decide_False by congruence. lia.
    + unfold slack at 2. simpl. lia.
Qed.

Lemma slot_history my cells pre status post :
  cell_slot my cells pre status post → NoDup (CellId <$> cells) →
  (∀ b, in_history cells my b ↔ b ∈ Buckets status) ∧
  (∀ c, c ∈ pre ++ post → c ∈ cells) ∧ (status ∈ cells ∨ Buckets status = []).
Proof.
  clear HashFNV32.
  intros Hslot Hnd. destruct (slot_ids _ _ _ _ status _ Hslot) as (_ & Hpre & Hpost); [apply Hslot|done|].
  destruct Hslot as (Hid & _ & Hcells). destruct Hcells as [->|(-> & -> & ->)].
  - split; [|split; [set_solver|left; set_solver]]. intros b. split.
    + intros (c & [Hc|[->|Hc]%elem_of_cons]%elem_of_app & Hcid & Hb); [|done|];
        exfalso; rewrite <- Hcid in *; [by apply Hpre, list_elem_of_fmap_2|by apply Hpost, list_elem_of_fmap_2].
    + intros Hb. exists status. split; [set_solver|done].
  - split; [|split; [set_solver|by right]]. intros b. split; [|by intros ?%not_elem_of_nil].
    intros (c & Hc & Hcid & _). exfalso. apply Hpre. rewrite <- Hcid. by apply list_elem_of_fmap_2.
Qed.

(** The cells that a reconciliation writes have admissions of the version that it read. *)
Lemma slot_status s ppr my pre status cell post :
  sound s → ppr ∈ versions s → cell_slot my (Cells (Status ppr)) pre status post → CellId cell = my →
  Buckets cell `sublist_of` Buckets status → histories_fit (threshold_of ppr) (Cells (Status ppr)) →
  let cells' := pre ++ cell :: post in
  (∀ id b, in_history cells' id b → in_history (Cells (Status ppr)) id b) ∧
  cells_ok cells' ∧ histories_fit (threshold_of ppr) cells'.
Proof.
  clear HashFNV32.
  intros Hs Hppr Hslot Hid Hsub Hfit cells'.
  destruct (slot_history _ _ _ _ _ Hslot (sound_ids s Hs ppr Hppr)) as (Hmy & Hothers & Hstatus).
  assert (Hhist : ∀ id b, in_history cells' id b → in_history (Cells (Status ppr)) id b).
  { intros id b (c & Hc & Hcid & Hb). apply elem_of_app in Hc as [Hc|[->|Hc]%elem_of_cons].
    - exists c. split; [apply Hothers; set_solver|done].
    - rewrite <- Hcid, Hid. apply Hmy. eapply elem_of_submseteq; [exact Hb|by apply sublist_submseteq].
    - exists c. split; [apply Hothers; set_solver|done]. }
  split; [exact Hhist|]. split.
  - intros c Hc. apply Forall_forall. intros b Hb. left.
    destruct (sound_history s Hs ppr (CellId c) b Hppr) as (uid & -> & _); [|eauto]. apply Hhist. by exists c.
  - unfold histories_fit in *. rewrite Forall_forall in Hfit. apply Forall_forall.
    intros c [Hc|[->|Hc]%elem_of_cons]%elem_of_app; [apply Hfit, Hothers; set_solver| |apply Hfit, Hothers; set_solver].
    apply sublist_length in Hsub. destruct Hstatus as [Hin|Hnil]; [|rewrite Hnil in Hsub; simpl in Hsub; lia].
    specialize (Hfit status Hin). simpl in *. lia.
Qed.

Lemma aggregate_written s ppr rest rv my pre status cell post ppr' :
  sound s → versions s = ppr :: rest → rv ∉ version_of <$> versions s →
  (1 ≤ DefaultConfig.CompactThreshold (config_of ppr))%Z → histories_fit (threshold_of ppr) (Cells (Status ppr)) →
  cell_slot my (Cells (Status ppr)) pre status post → CellId cell = my → Buckets cell `sublist_of` Buckets status →
  (weight my cell ≤ Z.of_nat (size (in_cell my (available s))))%Z →
  PprUtil.Summarize (config_of ppr) (with_Cells ppr (pre ++ cell :: post)) = Ret ppr' →
  sound {| versions := next_version ppr (Status ppr') rv :: versions s; available := available s; granted := granted s |}.
Proof.
  intros Hs Hv Hfresh Hthr Hfit Hslot Hid Hsub Hweight Hsum.
  assert (Hppr : ppr ∈ versions s) by (rewrite Hv; left). pose proof (sound_ids s Hs ppr Hppr) as Hids.
  destruct (slot_ids _ _ _ _ cell _ Hslot Hid Hids) as (Hids' & _).
  destruct (slot_status s ppr my pre status cell post Hs Hppr Hslot Hid Hsub Hfit) as (Hhist & Hok' & Hfit').
  destruct (Summarize_eq (config_of ppr) (with_Cells ppr (pre ++ cell :: post)) Hthr Hok') as (cells2 & Hsum' & Hcomp).
  rewrite Hsum in Hsum'. injection Hsum' as ->. cbn [with_Cells with_Status Status Cells] in Hcomp.
  pose proof (compacted_eqv _ _ _ Hthr Hok' Hfit' Hcomp) as Heqv.
  apply (sound_write s _ _ _ ppr rest); try done; cbn [next_version with_Status Status Cells].
  - by apply sound_granted.
  - by rewrite <- (eqv_ids _ _ Heqv).
  - intros id b Hb. destruct (eqv_history _ _ _ _ Heqv Hb) as (b' & Hview & Hb').
    destruct (sound_history s Hs ppr id b' Hppr (Hhist _ _ Hb')) as (uid & Hu & Hc & Hin).
    unfold view in Hview. exists uid. split; [congruence|]. split; [congruence|done].
  - intros id. rewrite <- (eqv_slack _ _ _ Heqv), (slot_slack my (Cells (Status ppr)) pre status) by done.
    case_decide as Hidmy; [by subst id|].
    destruct (sound_slack s Hs) as (cur & rest' & Hv' & Hsl). rewrite Hv in Hv'. by injection Hv' as <- <-.
Qed.

Lemma aggregate_step s ppr get Matches clk pushNow my index m key (a a' : Aggregator.reconcileState) ts e :
  sound s → ppr ∈ versions s → reconcile_ready get Matches defaultConfig index m key ppr a ts →
  histories_fit (threshold_of ppr) (Cells (Status ppr)) →
  honest_snapshot HashFNV32 s ppr (Aggregator.shards a) m clk my ts → Aggregator.world a = versions s →
  Aggregator.tryReconcile HashFNV32 get Matches (UpdateStatus server) clk pushNow my defaultConfig index key a =
    Ret (e, a') →
  sound {| versions := Aggregator.world a'; available := available s; granted := granted s |}.
Proof.
  intros Hs Hppr Hready Hfit Hhonest Hworld Hrun.
  assert (Hsame : sound {| versions := versions s; available := available s; granted := granted s |}) by (by destruct s).
  destruct (tryReconcile_spec HashFNV32 get Matches (UpdateStatus server) clk pushNow my defaultConfig index m key ppr
    a ts Hready) as (names & pre & status & post & min & e' & s' & Hnd & Hnames & Hslot & Hmin & Hle & Hrun' & Hres).
  rewrite Hrun in Hrun'. injection Hrun' as <- <-. cbv zeta in Hres. rewrite Hworld in Hres.
  case_match; [|by destruct Hres as [-> _]]. destruct Hres as (ppr' & Hsum & Hw & _).
  destruct (UpdateStatus server (Informer.SourceName key) ppr' (versions s)) as [err w] eqn:Hup.
  cbn [snd] in Hw. rewrite Hw.
  pose proof (write_spec s ppr _ ppr' err w Hs Hppr (Summarize_meta _ _ _ Hsum) Hup) as Hwrite.
  destruct err as [err|]; [by rewrite Hwrite|]. destruct Hwrite as (rest & rv & Hv & Hfresh & ->).
  eapply (aggregate_written s ppr rest rv my pre status _ post ppr'); [done|exact Hv|done| |done|exact Hslot| | | |exact Hsum].
  - by apply (ready_threshold _ _ _ _ _ _ _ _ _ Hready).
  - apply Hslot.
  - apply sublist_filter.
  - unfold weight. rewrite decide_True by apply Hslot.
    apply (snapshot_covered s ppr (Aggregator.shards a) m clk my ts names status min); try done.
    + intros nn Hnn. by apply Hnames.
    + by apply (slot_history _ _ _ _ _ Hslot (sound_ids s Hs ppr Hppr)).
Qed.

(** *** All steps *)

(** Steps that are permitted. *)
Lemma permitted_review s ppr key args now backoff r w :
  ppr ∈ versions s → Forall (honest_request s) args → batch_fits defaultConfig ppr args →
  PoolAdapter.tryExecute requiresPodName (λ _ _, Ret (Some ppr, None)) (λ _, now) (λ _, backoff)
    (UpdateStatus server) defaultConfig key args (versions s) = Ret (r, w) →
  step s {| versions := w; available := available s ∖ granted_by key args r; granted := granted s ∪ granted_by key args r |}.
Proof.
  intros Hppr Hhonest Hfits Hrun. exists (Review (Some ppr) None key args now backoff). split; [|right; by exists ppr].
  apply step_review; [by intros ? [= <-]|done].
Qed.
Lemma permitted_aggregate s ppr get Matches clk pushNow my index m key (a a' : Aggregator.reconcileState) ts e :
  ppr ∈ versions s → reconcile_ready get Matches defaultConfig index m key ppr a ts →
  histories_fit (threshold_of ppr) (Cells (Status ppr)) →
  honest_snapshot HashFNV32 s ppr (Aggregator.shards a) m clk my ts → Aggregator.world a = versions s →
  Aggregator.tryReconcile HashFNV32 get Matches (UpdateStatus server) clk pushNow my defaultConfig index key a = Ret (e, a') →
  step s {| versions := Aggregator.world a'; available := available s; granted := granted s |}.
Proof.
  intros Hppr Hready Hfit Hhonest Hworld Hrun. exists (Aggregate get Matches clk pushNow my index key a).
  split; [|right; by exists ppr, m, ts]. eapply step_aggregate; [|done|exact Hrun].
  intros ppr' err Hget. rewrite (ready_get _ _ _ _ _ _ _ _ _ Hready) in Hget. by injection Hget as <- <-.
Qed.

Lemma step_sound s s' :
  sound s → step s s' → sound s' ∧ (available s ⊆ available s' ∨
    ∃ cur rest, versions s' = cur :: rest ∧ (MinAvailable (Spec cur) ≤ Z.of_nat (size (available s')))%Z).
Proof.
  intros Hs (ev & Hstep & Hperm). pose proof (sound_granted s Hs) as Hdisj. destruct (sound_slack s Hs) as (cur0 & rest0 & Hv0 & Hsl).
  destruct Hperm as [->|Hperm]; [by split; [|left]|].
  inversion Hstep as [found err key args now backoff r w Hfound Hrun|
    get Matches clk pushNow my index key a a' e Hget Hworld Hrun|
    pods|pods|cur rest spec rv Hv Hfresh|cur rest cells rv Hv Hfresh Hsub]; subst ev s'; cbn [available versions permitted] in *.
  - destruct Hperm as (ppr & -> & -> & Hhonest & Hfits). pose proof (Hfound ppr eq_refl) as Hppr.
    destruct (review_step s ppr key args now backoff r w Hs Hppr Hhonest Hfits Hrun) as [H1 H2]. split; [done|].
    destruct H2 as [->|?]; [by left|by right].
  - destruct Hperm as (ppr & m & ts & Hready & Hfit & Hhonest). split; [|by left]. eapply aggregate_step; try done.
    by apply (Hget ppr None), Hready.
  - rename Hperm into Hpods. split; [|left; set_solver]. destruct Hs as [H1 H2 H3 H4 H5]. split; try done; cbn [available granted]; [set_solver|].
    exists cur0, rest0. split; [done|]. intros id. etrans; [apply Hsl|].
    apply Nat2Z.inj_le, subseteq_size. intros p. rewrite !elem_of_in_cell. set_solver.
  - done.
  - assert (cur0 = cur ∧ rest0 = rest) as [-> ->] by (split; congruence). split; [|by left].
    assert (Hcur : cur ∈ versions s) by (rewrite Hv; left).
    apply (sound_write s _ _ _ cur rest); try done; [exact (sound_ids s Hs cur Hcur)|].
    intros id b Hb. by apply (sound_history s Hs cur).
  - assert (cur0 = cur ∧ rest0 = rest) as [-> ->] by (split; congruence). split; [|by left].
    assert (Hcur : cur ∈ versions s) by (rewrite Hv; left).
    apply (sound_write s _ _ _ cur rest); try done; cbn [next_version with_Status Status Cells].
    + eapply sublist_NoDup; [by apply (sound_ids s Hs cur)|by apply fmap_sublist].
    + intros id b (c & Hc & Hb). apply (sound_history s Hs cur); [done|]. exists c. split; [|done].
      eapply elem_of_submseteq; [exact Hc|by apply sublist_submseteq].
    + intros id. destruct (slack_sublist id _ _ Hsub (sound_ids s Hs cur Hcur)) as [->| ->]; [apply Hsl|lia].
Qed.

Lemma reachable_sound s s' : initial s → rtc step s s' → sound s'.
Proof.
  intros Hs Hsteps. apply sound_initial in Hs. induction Hsteps as [s|s1 s2 s3 Hstep _ IH]; [done|].
  apply IH. by eapply step_sound.
Qed.

End system_invariant.

(** ** Properties *)
Section system_properties.
Import System.
Context `{!GoRuntime, !KubeErrors} (server : StatusServer).
Variables (requiresPodName : RequiresPodName.RequiresPodName) (defaultConfig : DefaultConfig.Options)
  (HashFNV32 : string → Z).
Notation step := (permitted_step server requiresPodName defaultConfig HashFNV32).

(** C2. In every run of the webhook, the aggregators and the generator whose steps are [permitted], where informers may lag and
    writes may conflict, the counts of the current status less its admissions, which is what
    the webhook decides on, never exceed the available pods whose deletion was not granted, and
    no granted pod is among these. The conditions on steps are: requests are judged by availability and report pods as they are, and the lister of
    the webhook has the PodProtector; admission histories stay within the compaction threshold, minima are not negative and numbers are within 32 bits; an
    aggregator that writes has a working index and working listers, and counts pods that are available or whose admission its event
    times do not account for; a pod whose deletion was granted does not become available again, and available pods are lost by granted
    deletions only. *)
Theorem estimate_is_covered (s0 s : system) :
  initial s0 → rtc step s0 s →
  available s ## granted s ∧ ∃ cur rest, versions s = cur :: rest ∧
    (sum_by (AvailableReplicas ∘ Aggregation) (Cells (Status cur)) - cells_count (Cells (Status cur)) ≤
      Z.of_nat (size (available s)))%Z.
Proof.
  intros Hinit Hsteps. pose proof (reachable_sound server requiresPodName defaultConfig HashFNV32 _ _ Hinit Hsteps) as Hs.
  split; [by apply sound_granted|]. destruct (sound_slack s Hs) as (cur & rest & Hv & Hsl). exists cur, rest.
  split; [done|]. apply slack_total; [|done]. apply (sound_ids s Hs). rewrite Hv. left.
Qed.

(** C1. The promise of Podseidon: while [MinAvailable] is [min], and at least that many pods are available
    before any admission, at least [min] available pods are left whose deletion was not granted,
    after any run of [permitted] steps, where informers may lag and writes may conflict. The conditions on steps are: requests are judged
    by availability and report pods as they are, and the lister of the webhook has the PodProtector; admission histories stay within the
    compaction threshold (above it the promise is broken, see [compaction_breaks_the_promise]), minima are not negative and numbers are within 32 bits; an
    aggregator that writes has a working index and working listers, and counts pods that are available or whose admission its event
    times do not account for; a pod whose deletion was granted does not become available again, and available pods are lost by granted
    deletions only. *)
Theorem min_available_is_kept (s0 s : system) (min : Z) :
  initial s0 → (min ≤ Z.of_nat (size (available s0)))%Z →
  rtc (λ s s', step s s' ∧ Forall (λ v, MinAvailable (Spec v) = min) (versions s')) s0 s →
  (min ≤ Z.of_nat (size (available s)))%Z.
Proof.
  intros Hinit Hmin Hsteps. apply sound_initial in Hinit. induction Hsteps as [s|s1 s2 s3 [Hstep Hspec] _ IH]; [done|].
  destruct (step_sound server requiresPodName defaultConfig HashFNV32 _ _ Hinit Hstep) as [Hs2 Hleft]. apply IH; [done|].
  destruct Hleft as [Hsub|(cur & rest & Hv & Hle)].
  - apply subseteq_size in Hsub. lia.
  - rewrite Hv in Hspec. apply Forall_cons in Hspec as [Hcur _]. lia.
Qed.

End system_properties.

(** ** A run *)

(** An API server that refuses stale updates. *)
Definition example_update (_ : string) (new : PodProtector) (w : list PodProtector) : option error * list PodProtector :=
  match w with
  | [] => (Some (apiStatus "NotFound" ""), w)
  | cur :: _ =>
      if bool_decide (System.version_of new = System.version_of cur)
      then (None, System.next_version cur (Status new) (fresh (System.version_of <$> w)) :: w)
      else (Some (apiStatus "Conflict" ""), w)
  end.

Lemma example_update_law src new w :
  match example_update src new w with
  | (Some _, w') => w' = w
  | (None, w') => ∃ cur rest rv, w = cur :: rest ∧ System.version_of new = System.version_of cur ∧
      rv ∉ System.version_of <$> w ∧ w' = System.next_version cur (Status new) rv :: w
  end.
Proof.
  destruct w as [|cur w]; [done|]. unfold example_update. case_bool_decide as Hv; [|done].
  do 3 eexists. split; [done|]. split; [done|]. split; [|done]. apply infinite_is_fresh.
Qed.

Definition example_server : System.StatusServer :=
  {| System.UpdateStatus := example_update; System.UpdateStatus_law := example_update_law |}.

Definition example_pods : gset (string * string) :=
  list_to_set ((λ uid, ("cell", uid)) <$> ["a"; "b"; "c"; "d"; "e"]).
Definition example_system : System.system := {|
  System.versions := [example_ppr 3%Z [example_cell 5%Z []]];
  System.available := example_pods; System.granted := ∅ |}.
Notation example_review := (PoolAdapter.tryExecute never (λ _ _, Ret (Some (example_ppr 3%Z [example_cell 5%Z []]), None))
  (λ _, 20%Z) (λ _, 100%Z) (System.UpdateStatus example_server) DefaultConfig.default_options example_key
  [example_item "a"] (System.versions example_system)).
Notation example_step := (System.permitted_step example_server never DefaultConfig.default_options (λ _, 0%Z)).
Definition after_review (r : RetryBatch.ExecuteResult BatchItem.Result) (w : list PodProtector) : System.system := {|
  System.versions := w; System.available := example_pods ∖ System.granted_by example_key [example_item "a"] r;
  System.granted := ∅ ∪ System.granted_by example_key [example_item "a"] r |}.

Lemma example_initial : System.initial example_system.
Proof.
  exists (example_ppr 3%Z [example_cell 5%Z []]). do 2 (split; [done|]). split; [apply NoDup_singleton|].
  intros c ->%list_elem_of_singleton. split; [done|]. apply Z.leb_le. vm_compute. reflexivity.
Qed.

(** The deletion of pod [a] is reviewed. *)
Lemma example_review_step : ∃ r w,
  example_review = Ret (r, w) ∧ example_step example_system (after_review r w) ∧
  ("cell", "a") ∈ System.granted (after_review r w) ∧
  example_ppr 3%Z [example_cell 5%Z []] ∈ w ∧ Forall (λ v, MinAvailable (Spec v) = 3%Z) w.
Proof.
  assert (Hw : match example_review with
    | Ret (r, w) => bool_decide (("cell", "a") ∈ System.granted (after_review r w) ∧ example_ppr 3%Z [example_cell 5%Z []] ∈ w ∧ Forall (λ v, MinAvailable (Spec v) = 3%Z) w)
    | Panic _ => false
    end = true) by (vm_compute; reflexivity).
  destruct example_review as [[r w]|msg] eqn:Hrun; [|done]. apply bool_decide_eq_true in Hw.
  exists r, w. split; [done|]. split; [|done]. eapply permitted_review; [by left| | |exact Hrun].
  - apply Forall_singleton. split; [by left|done].
  - split; try (vm_compute; intuition congruence).
    + apply Nat.leb_le. vm_compute. reflexivity.
    + apply Forall_singleton. unfold histories_fit. apply Nat.leb_le. vm_compute. reflexivity.
Qed.

(** Then an aggregator that sees no pods reads the first version. *)
Lemma example_aggregate_step r w :
  example_ppr 3%Z [example_cell 5%Z []] ∈ w →
  ∃ w', example_step (after_review r w) {| System.versions := w'; System.available := System.available (after_review r w);
    System.granted := System.granted (after_review r w) |}.
Proof.
  intros Hppr. set (ppr := example_ppr 3%Z [example_cell 5%Z []]).
  set (a := {| Aggregator.shards := [example_shard (Some 20%Z)]; Aggregator.queue := []; Aggregator.world := w |}).
  assert (Hready : reconcile_ready (λ _, Ret (Some ppr, None)) (λ _, true) DefaultConfig.default_options
    Aggregator.NewPodIndex ∅ (example_event_key "ppr") ppr a [20%Z]).
  { split; try reflexivity; try (vm_compute; discriminate).
    - apply pods_represent_new.
    - by intros req ?%not_elem_of_nil.
    - intros nn [? Hm]. by rewrite lookup_empty in Hm.
    - intros c ->%list_elem_of_singleton. constructor. }
  destruct (tryReconcile_spec (λ _, 0%Z) (λ _, Ret (Some ppr, None)) (λ _, true) (System.UpdateStatus example_server)
    (λ _, 40%Z) 41%Z "cell" DefaultConfig.default_options Aggregator.NewPodIndex ∅ (example_event_key "ppr") ppr a
    [20%Z] Hready) as (_ & _ & _ & _ & _ & e & a' & _ & _ & _ & _ & _ & Hrun & _).
  exists (Aggregator.world a'). eapply permitted_aggregate; [exact Hppr|exact Hready| | |reflexivity|exact Hrun].
  - apply Forall_singleton, Nat.leb_le. vm_compute. reflexivity.
  - split; intros nn; [intros ? ? ?|intros ? ?]; intros (_ & ? & Hm & _); by rewrite lookup_empty in Hm.
Qed.

(** *** Witnesses *)

(** After the deletion of [a] is granted and the aggregator has run, what is counted is still covered. *)
Lemma estimate_is_covered_witness :
  ∃ r w w', example_review = Ret (r, w) ∧ ("cell", "a") ∈ System.granted (after_review r w) ∧
    System.available (after_review r w) ## System.granted (after_review r w) ∧ ∃ cur rest, w' = cur :: rest ∧
    (sum_by (AvailableReplicas ∘ Aggregation) (Cells (Status cur)) - cells_count (Cells (Status cur)) ≤
      Z.of_nat (size (System.available (after_review r w))))%Z.
Proof.
  destruct example_review_step as (r & w & Hrun & Hstep & Ha & Hw & _). destruct (example_aggregate_step r w Hw) as [w' Hstep'].
  exists r, w, w'. split; [done|]. split; [done|].
  apply (estimate_is_covered example_server never DefaultConfig.default_options (λ _, 0%Z) example_system
    {| System.versions := w'; System.available := System.available (after_review r w);
       System.granted := System.granted (after_review r w) |}).
  - apply example_initial.
  - eapply rtc_l; [exact Hstep|]. by apply rtc_once.
Defined.

(** Of five available pods three must be kept: so they are after the deletion of [a] is granted. *)
Lemma min_available_is_kept_witness :
  ∃ r w, example_review = Ret (r, w) ∧ ("cell", "a") ∈ System.granted (after_review r w) ∧
    (3 ≤ Z.of_nat (size (System.available (after_review r w))))%Z.
Proof.
  destruct example_review_step as (r & w & Hrun & Hstep & Ha & _ & Hspec). exists r, w. split; [done|]. split; [done|].
  apply (min_available_is_kept example_server never DefaultConfig.default_options (λ _, 0%Z) example_system
    (after_review r w) 3%Z).
  - apply example_initial.
  - apply Z.leb_le. vm_compute. reflexivity.
  - apply rtc_once. by split.
Defined.

(** *** Beyond the conditions

    With a compaction threshold of one, requests that come one at a time, each reviewed on the current version. *)
Definition forgetful_options : DefaultConfig.Options :=
  {| DefaultConfig.optMaxConcurrentLag := 0; DefaultConfig.optCompactThreshold := 1; DefaultConfig.optAggregationRate := 5 * Second |}%Z.
Definition forgetful_review (s : System.system) (uid : string) : System.system :=
  match System.versions s with
  | [] => s
  | ppr :: _ =>
      match PoolAdapter.tryExecute never (λ _ _, Ret (Some ppr, None)) (λ _, 20%Z) (λ _, 100%Z)
        (System.UpdateStatus example_server) forgetful_options example_key [example_item uid] (System.versions s) with
      | Ret (r, w) => {| System.versions := w; System.available := System.available s ∖ System.granted_by example_key [example_item uid] r;
                         System.granted := System.granted s ∪ System.granted_by example_key [example_item uid] r |}
      | Panic _ => s
      end
  end.
Notation forgetful_step := (λ s s', ∃ ppr args now backoff,
  System.step example_server never forgetful_options (λ _, 0%Z) s (System.Review (Some ppr) None example_key args now backoff) s').

Lemma forgetful_steps uids : ∀ s, rtc forgetful_step s (foldl forgetful_review s uids).
Proof.
  induction uids as [|uid uids IH]; intros s; [done|]. cbn [foldl]. etrans; [|apply IH]. unfold forgetful_review.
  destruct (System.versions s) as [|ppr rest] eqn:Hv; [done|]. rewrite <- Hv.
  destruct (PoolAdapter.tryExecute _ _ _ _ _ _ _ _ _) as [[r w]|] eqn:Hrun; [|done]. apply rtc_once.
  exists ppr, [example_item uid], 20%Z, 100%Z. apply System.step_review; [intros ? [= <-]; rewrite Hv; left|done].
Qed.

(** Compaction breaks the promise: all deletions are requested, reported and granted as they should be, and of five available pods, of which
    three must be kept, none is left, because compacted admissions are not counted. *)
Theorem compaction_breaks_the_promise :
  ∃ s, System.initial example_system ∧ rtc forgetful_step example_system s ∧
    Forall (λ v, MinAvailable (Spec v) = 3%Z) (System.versions s) ∧
    size (System.available example_system) = 5 ∧ System.available s = ∅.
Proof.
  exists (foldl forgetful_review example_system ["a"; "b"; "c"; "d"; "e"]).
  split; [apply example_initial|]. split; [apply forgetful_steps|].
  assert (Hw : bool_decide (Forall (λ v, MinAvailable (Spec v) = 3%Z)
    (System.versions (foldl forgetful_review example_system ["a"; "b"; "c"; "d"; "e"])) ∧
    size (System.available example_system) = 5 ∧
    System.available (foldl forgetful_review example_system ["a"; "b"; "c"; "d"; "e"]) = ∅) = true) by (vm_compute; reflexivity).
  by apply bool_decide_eq_true in Hw.
Qed.
