(* ===== verification/Recovery.v ===== *)
(** * Recovery: admissions do not block deletions for ever

    [System] shows that the webhook never grants too much. Here is the other half: the admissions
    that the status of a PodProtector remembers are given up once the aggregators have seen their
    effect. After every aggregator has seen the pods of its cell as they are and has reconciled the
    current version once, the webhook grants any batch of deletions that leaves [MinAvailable]
    available pods and is within [MaxConcurrentLag], whatever permitted steps happened before. The operations are those of [PoolAdapter] and
    [Aggregator]; a round runs them one after the other on the versions of the API server. *)

From S2P Require Import Prelude Util Errors Iter Canonical SetTrie LabelIndex Api PprUtil Quota RetryBatch Informer PoolAdapter Handler Aggregator AggregatorCorrect System.

Module Recovery.
Import System.

(** What a reconciliation of an aggregator reads beside the API server. *)
Record aggregator : Type := {
  myCellId : string;
  pprSelector_Matches : gmap string string → bool;
  clk : nat → Time;
  pushNow : Time;
  podIndex : Aggregator.SetsIndex;
  queueItem : Informer.PodProtectorKey;
  shards : list Aggregator.podInformerShard
}.

Section round.
Context `{!GoRuntime, !KubeErrors} (server : StatusServer).
Variables (requiresPodName : RequiresPodName.RequiresPodName) (defaultConfig : DefaultConfig.Options)
  (HashFNV32 : string → Z).

(** A reconciliation whose informer has the current version. *)
Definition reconcile_current (agg : aggregator) (w : list PodProtector) : outcome (list PodProtector) :=
  '(_, s) ← Aggregator.tryReconcile HashFNV32 (λ _, Ret (head w, None)) (pprSelector_Matches agg) (UpdateStatus server)
    (clk agg) (pushNow agg) (myCellId agg) defaultConfig (podIndex agg) (queueItem agg)
    {| Aggregator.shards := shards agg; Aggregator.queue := []; Aggregator.world := w |};
  Ret (Aggregator.world s).

(** One reconciliation of each aggregator. *)
Definition round (aggs : list aggregator) (w : list PodProtector) : outcome (list PodProtector) :=
  outcome_foldl (λ w agg, reconcile_current agg w) w aggs.

(** A batch of the webhook whose informer has the current version. *)
Definition review_current (now : Time) (backoff : Duration) (key : Informer.PodProtectorKey)
    (args : list PoolAdapter.BatchItem) (w : list PodProtector) :
    outcome (RetryBatch.ExecuteResult BatchItem.Result * list PodProtector) :=
  PoolAdapter.tryExecute requiresPodName (λ _ w, Ret (head w, None)) (λ _, now) (λ _, backoff)
    (UpdateStatus server) defaultConfig key args w.

(** The API server accepts an update of the current version. *)
Definition accepts_current : Prop :=
  ∀ src new cur rest, version_of new = version_of cur → (UpdateStatus server src new (cur :: rest)).1 = None.

(** An aggregator that has seen all there is: its index [m] and its listers have exactly the
    available pods [A] of its cell among the pods that the PodProtector selects, and each shard had
    an event after every admission of the cell. *)
Record caught_up (A : gset pod) (ppr : PodProtector) (agg : aggregator)
    (m : gmap Namespaced.NamespacedName (gmap string string)) (ts : list Time) : Prop := {
  up_matches : pprSelector_Matches agg (Labels (pprMeta ppr)) = true;
  up_index : pods_represent (podIndex agg) m;
  up_lister : ∀ nn, is_Some (m !! nn) → pod_error (shards agg) nn = None;
  up_size : (Z.of_nat (size m) ≤ MaxInt32)%Z;
  up_shards : shards agg ≠ [];
  up_times : Aggregator.lastEventTimes (shards agg) = Some ts;
  up_uids : ∀ nn nn' p p', selected ppr m nn → selected ppr m nn' →
    live_pod (shards agg) nn = Some p → live_pod (shards agg) nn' = Some p' → UID (podMeta p) = UID (podMeta p') → nn = nn';
  up_counts : ∀ nn p i, selected ppr m nn → live_pod (shards agg) nn = Some p →
    Pod.IsAvailable (pod_status (MinReadySeconds (Spec ppr)) (clk agg i, p)) = true → (myCellId agg, UID (podMeta p)) ∈ A;
  up_sees : ∀ uid, (myCellId agg, uid) ∈ A → ∃ nn p, selected ppr m nn ∧ live_pod (shards agg) nn = Some p ∧
    UID (podMeta p) = uid ∧ ∀ i, Pod.IsAvailable (pod_status (MinReadySeconds (Spec ppr)) (clk agg i, p)) = true;
  up_events : ∀ b t, in_history (Cells (Status ppr)) (myCellId agg) b → t ∈ ts → (StartTime b < t)%Z
}.

(** Numbers and histories fit their bounds. *)
Record config_fits (ppr : PodProtector) : Prop := {
  cfg_selector : valid_selector (PprUtil.GetAggregationSelector ppr);
  cfg_threshold : (1 ≤ DefaultConfig.CompactThreshold (config_of defaultConfig ppr))%Z;
  cfg_lag : in_int32 (DefaultConfig.MaxConcurrentLag (config_of defaultConfig ppr));
  cfg_histories : histories_fit (threshold_of defaultConfig ppr) (Cells (Status ppr))
}.

End round.

(** A cell has no admissions, and counts exactly its available pods. *)
Definition settled (A : gset pod) (ppr : PodProtector) (id : string) : Prop :=
  (∀ b, ¬ in_history (Cells (Status ppr)) id b) ∧
  slack id (Cells (Status ppr)) = Z.of_nat (size (in_cell id A)).

(** What a reconciliation keeps of a PodProtector. *)
Record follows (ppr ppr' : PodProtector) : Prop := {
  follows_spec : Spec ppr' = Spec ppr;
  follows_namespace : Namespace (pprMeta ppr') = Namespace (pprMeta ppr);
  follows_labels : Labels (pprMeta ppr') = Labels (pprMeta ppr);
  follows_history : ∀ id b, in_history (Cells (Status ppr')) id b → in_history (Cells (Status ppr)) id b;
  follows_fit : ∀ k, histories_fit k (Cells (Status ppr)) → histories_fit k (Cells (Status ppr'))
}.
#[export] Instance follows_preorder : PreOrder follows.
Proof.
  split; [done|]. intros p1 p2 p3 [? ? ? H1 F1] [? ? ? H2 F2]. split; try congruence; auto.
Qed.

End Recovery.

Section recovery.
Import System Recovery.
Context `{!GoRuntime, !KubeErrors} (server : StatusServer).
Variables (requiresPodName : RequiresPodName.RequiresPodName) (defaultConfig : DefaultConfig.Options)
  (HashFNV32 : string → Z).
Implicit Types (s : system) (ppr cur : PodProtector) (id my : string) (A G : gset pod) (agg : aggregator).
Notation step := (permitted_step server requiresPodName defaultConfig HashFNV32).
Notation config_of := (config_of defaultConfig).
Notation threshold_of := (threshold_of defaultConfig).
Notation config_fits := (config_fits defaultConfig).
Notation ids v := (CellId <$> Cells (Status v)).
Notation with_versions s w := {| versions := w; available := available s; granted := granted s |}.

(** *** What is kept *)

Lemma config_fits_follows ppr ppr' : follows ppr ppr' → config_fits ppr → config_fits ppr'.
Proof.
  intros [Hspec _ _ _ Hfit] [H1 H2 H3 H4].
  assert (Hc : config_of ppr' = config_of ppr) by (unfold System.config_of; by rewrite Hspec).
  split; [|by rewrite Hc|by rewrite Hc|].
  - unfold PprUtil.GetAggregationSelector in *. by rewrite Hspec.
  - unfold System.threshold_of in *. rewrite Hc. by apply Hfit.
Qed.

Lemma selected_follows ppr ppr' m nn : follows ppr ppr' → selected ppr' m nn ↔ selected ppr m nn.
Proof.
  intros [Hspec Hns _ _ _]. unfold selected, PprUtil.GetAggregationSelector. by rewrite Hspec, Hns.
Qed.

Lemma caught_up_follows A ppr ppr' agg m ts :
  follows ppr ppr' → caught_up A ppr agg m ts → caught_up A ppr' agg m ts.
Proof.
  intros Hf [H1 H2 H3 H4 H5 H6 H7 H8 H9 H10]. pose proof Hf as [Hspec Hns Hlabels Hhist _].
  split; rewrite ?Hlabels, ?Hspec; try done.
  - intros nn nn' p p'. rewrite !(selected_follows ppr ppr') by done. apply H7.
  - intros nn p i. rewrite (selected_follows ppr ppr') by done. apply H8.
  - intros uid Huid. destruct (H9 uid Huid) as (nn & p & Hsel & ?). exists nn, p.
    by rewrite (selected_follows ppr ppr').
  - intros b t Hb. apply H10. by apply Hhist.
Qed.

(** Compaction keeps the admissions of histories that fit. *)
Lemma compacted_histories config cells cells' :
  (1 ≤ DefaultConfig.CompactThreshold config)%Z → cells_ok cells →
  histories_fit (Z.to_nat (DefaultConfig.CompactThreshold config)) cells →
  Forall2 (cell_compacted config) cells cells' → ∀ id b, in_history cells' id b → in_history cells id b.
Proof.
  intros Hthr Hok Hfit Hf id b (c' & Hc' & Hid & Hb). apply list_elem_of_lookup in Hc' as [i Hi].
  destruct (Forall2_lookup_r _ _ _ _ _ Hf Hi) as (c & Hc & bs & Hbs & ->).
  assert (Hin : c ∈ cells) by (by eapply list_elem_of_lookup_2). unfold histories_fit in Hfit.
  rewrite Forall_forall in Hfit. specialize (Hfit c Hin). simpl in Hfit.
  rewrite CompactBuckets_eq in Hbs by auto. rewrite decide_True in Hbs by done.
  injection Hbs as <-. exists c. split; [done|]. split; [done|]. simpl in Hb. by rewrite sorted_buckets_perm in Hb.
Qed.

(** *** A reconciliation settles its cell *)

(** Every admission of a pod that each shard had an event after is removed. *)
Lemma all_obsolete ts min (bs : list PodProtectorAdmissionBucket) :
  min ∈ ts → (∀ b, b ∈ bs → is_Some (PodUid b)) → (∀ b t, b ∈ bs → t ∈ ts → (StartTime b < t)%Z) →
  let times := {| Aggregator.shardTimes := ts; Aggregator.minTime := min |} in
  ∀ b, b ∈ bs → obsolete HashFNV32 times (length ts) b = true.
Proof.
  intros Hmin Huid Hseen times b Hb. unfold obsolete. destruct (Huid b Hb) as [uid ->].
  apply Z.ltb_lt, Hseen; [done|]. unfold bucket_time. case_match; [|done].
  destruct (_ !! _) as [t|] eqn:Ht; [by eapply list_elem_of_lookup_2|done].
Qed.

Lemma slot_weight my cells pre status post :
  cell_slot my cells pre status post → NoDup (CellId <$> cells) → slack my cells = weight my status.
Proof.
  intros Hslot Hnd. destruct (slot_ids _ _ _ _ status _ Hslot) as (_ & Hpre & Hpost); [apply Hslot|done|].
  destruct Hslot as (Hid & _ & [->|(-> & -> & ->)]).
  - rewrite slack_app, slack_cons, !slack_none by done. lia.
  - rewrite slack_none by done. unfold weight. by case_decide.
Qed.

Lemma counted_exactly A ppr agg m ts names :
  caught_up A ppr agg m ts → (∀ nn, nn ∈ names ↔ selected ppr m nn) →
  counted ppr (clk agg) (myCellId agg) (omap (live_pod (shards agg)) names) = in_cell (myCellId agg) A.
Proof.
  intros [_ _ _ _ _ _ _ Hcounts Hsees _] Hnames. apply set_eq. intros p. rewrite elem_of_counted, elem_of_in_cell. split.
  - intros (i & nn & pd & _ & Hnn & Hlive & Hav & ->). split; [done|]. apply Hnames in Hnn. by eapply Hcounts.
  - destruct p as [id uid]. simpl. intros [-> Hp]. destruct (Hsees uid Hp) as (nn & pd & Hsel & Hlive & <- & Hav).
    apply Hnames in Hsel. assert (Hin : pd ∈ omap (live_pod (shards agg)) names) by (apply list_elem_of_omap; eauto).
    apply list_elem_of_lookup in Hin as [i Hi]. specialize (Hav i). by exists i, nn, pd.
Qed.

Section reconcile.
Variables (s : system) (cur : PodProtector) (rest : list PodProtector) (agg : aggregator)
  (m : gmap Namespaced.NamespacedName (gmap string string)) (ts : list Time).
Hypothesis (Hs : sound s) (Hv : versions s = cur :: rest) (Hcfg : config_fits cur)
  (Hup : caught_up (available s) cur agg m ts).
Notation my := (myCellId agg).

Lemma cur_elem : cur ∈ versions s.
Proof. rewrite Hv. left. Qed.

(** The new status of the cell has no admissions and counts its pods. *)
Lemma reconciled_settled names pre status post min :
  NoDup names → (∀ nn, nn ∈ names ↔ selected cur m nn) → cell_slot my (Cells (Status cur)) pre status post → min ∈ ts →
  let times := {| Aggregator.shardTimes := ts; Aggregator.minTime := min |} in
  let cell := reconciled HashFNV32 (clk agg) cur (omap (live_pod (shards agg)) names) times status in
  Buckets cell = [] ∧ weight my cell = Z.of_nat (size (in_cell my (available s))).
Proof.
  intros Hnd Hnames Hslot Hmin times cell.
  pose proof (slot_history _ _ _ _ _ Hslot (sound_ids s Hs cur cur_elem)) as (Hmy & _).
  assert (Hnil : Buckets cell = []).
  { apply elem_of_nil_inv. intros b [Hob Hb]%list_elem_of_filter.
    assert (Hall : obsolete HashFNV32 times (length ts) b = true); [|simpl in Hob; congruence].
    apply (all_obsolete ts min (Buckets status)); try done.
    - intros b' Hb'%Hmy. destruct (sound_history s Hs cur my b' cur_elem Hb') as (uid & -> & _). eauto.
    - intros b' t Hb'%Hmy. by apply (up_events _ _ _ _ _ Hup). }
  split; [done|]. unfold weight. rewrite decide_True by apply Hslot. rewrite Hnil. simpl sum_by. unfold cell.
  rewrite (size_counted HashFNV32 cur (clk agg) my) by (done ||
    (intros nn nn' p p' Hn Hn'; apply (up_uids _ _ _ _ _ Hup); by apply Hnames)).
  by rewrite (counted_exactly _ _ _ _ _ _ Hup Hnames), Z.sub_0_r.
Qed.

(** The version that is written. *)
Lemma written_settles pre status cell post ppr' rv :
  cell_slot my (Cells (Status cur)) pre status post → CellId cell = my → Buckets cell = [] →
  weight my cell = Z.of_nat (size (in_cell my (available s))) →
  PprUtil.Summarize (config_of cur) (with_Cells cur (pre ++ cell :: post)) = Ret ppr' →
  let cur' := next_version cur (Status ppr') rv in
  follows cur cur' ∧ settled (available s) cur' my ∧
  ∀ id, id ≠ my → slack id (Cells (Status cur')) = slack id (Cells (Status cur)).
Proof.
  clear Hup m ts.
  intros Hslot Hid Hnil Hw Hsum cur'. pose proof (sound_ids s Hs cur cur_elem) as Hids.
  destruct Hcfg as [_ Hthr _ Hfit].
  destruct (slot_status defaultConfig s cur my pre status cell post Hs cur_elem Hslot Hid) as (Hhist & Hok & Hfit');
    [rewrite Hnil; apply sublist_nil_l|done|].
  destruct (Summarize_eq (config_of cur) (with_Cells cur (pre ++ cell :: post)) Hthr Hok) as (cells & Hsum' & Hcomp).
  rewrite Hsum in Hsum'. injection Hsum' as ->. cbn [with_Cells with_Status Status Cells] in Hcomp.
  pose proof (compacted_eqv _ _ _ Hthr Hok Hfit' Hcomp) as Heqv.
  pose proof (compacted_histories _ _ _ Hthr Hok Hfit' Hcomp) as Hcells.
  destruct (slot_ids _ _ _ _ cell _ Hslot Hid Hids) as (Hids' & Hpre & _).
  assert (Hslot' : cell_slot my (pre ++ cell :: post) pre cell post).
  { split; [done|]. split; [apply Hslot|by left]. }
  destruct (slot_history _ _ _ _ _ Hslot' Hids') as (Hmy & _).
  assert (Hslack : ∀ id, slack id cells = if decide (id = my) then weight my cell else slack id (Cells (Status cur))).
  { intros id. by rewrite <- (eqv_slack _ _ _ Heqv), (slot_slack my (Cells (Status cur)) pre status). }
  cbn [cur' next_version with_Status Status Cells]. split; [split; try done|split; [split|]].
  - intros id b Hb. by apply Hhist, Hcells.
  - intros k Hk. cbn [next_version with_Status Status Cells].
    eapply (proj2 (proj2 (compacted_cells_facts _ _ _ Hthr Hok Hcomp)) Hfit').
    unfold histories_fit in *. rewrite Forall_forall in Hk. apply Forall_forall.
    destruct (slot_history _ _ _ _ _ Hslot Hids) as (_ & Hothers & _).
    intros c [Hc|[->|Hc]%elem_of_cons]%elem_of_app; [|rewrite Hnil; simpl; lia|]; apply Hk, Hothers; set_solver.
  - intros b Hb%Hcells%Hmy. rewrite Hnil in Hb. by apply not_elem_of_nil in Hb.
  - by rewrite Hslack, decide_True.
  - intros id Hne. by rewrite Hslack, decide_False.
Qed.

(** Nothing is written when the cell is settled already. *)
Lemma unchanged_settled names pre status post min :
  NoDup names → (∀ nn, nn ∈ names ↔ selected cur m nn) → cell_slot my (Cells (Status cur)) pre status post → min ∈ ts →
  let pods := omap (live_pod (shards agg)) names in
  (has_cell my (Cells (Status cur)) || negb (length pods =? 0)) && reconcile_changes HashFNV32 (clk agg) cur pods
    {| Aggregator.shardTimes := ts; Aggregator.minTime := min |} status = false →
  settled (available s) cur my.
Proof.
  intros Hnd Hnames Hslot Hmin pods Hno. pose proof (sound_ids s Hs cur cur_elem) as Hids.
  destruct (slot_history _ _ _ _ _ Hslot Hids) as (Hmy & _).
  destruct (reconciled_settled names pre status post min Hnd Hnames Hslot Hmin) as [Hnil Hw]. fold pods in Hnil, Hw.
  apply andb_false_iff in Hno as [[Hhas Hlen]%orb_false_iff|[Hagg Hob]%orb_false_iff].
  - assert (Hcells : my ∉ ids cur).
    { intros (c & Hid & Hc)%list_elem_of_fmap. unfold has_cell in Hhas. apply not_true_iff_false in Hhas. apply Hhas.
      apply existsb_elem_of. exists c. split; [done|]. by apply bool_decide_eq_true. }
    split; [intros b (c & Hc & Hid & _); apply Hcells; rewrite <- Hid; by apply list_elem_of_fmap_2|].
    rewrite slack_none by done. apply negb_false_iff, Nat.eqb_eq in Hlen.
    assert (pods = []) as Hpods by (by apply nil_length_inv). rewrite <- (counted_exactly _ _ _ _ _ _ Hup Hnames).
    fold pods. by rewrite Hpods.
  - simpl in Hob. apply negb_false_iff, bool_decide_eq_true in Hagg. simpl in Hnil.
    rewrite (keep_all_buckets _ _ _ _ Hob) in Hnil. split; [intros b Hb%Hmy; rewrite Hnil in Hb; by apply not_elem_of_nil in Hb|].
    rewrite (slot_weight _ _ _ _ _ Hslot Hids), <- Hw. unfold weight, reconciled. simpl CellId. simpl Buckets.
    rewrite (keep_all_buckets _ _ _ _ Hob). simpl Aggregation. by rewrite Hagg.
Qed.

End reconcile.

(** A reconciliation of an aggregator that has caught up is a step that settles its cell. *)
Lemma reconcile_progress s cur rest agg m ts :
  sound s → versions s = cur :: rest → accepts_current server → config_fits cur →
  caught_up (available s) cur agg m ts →
  ∃ cur' rest', reconcile_current server defaultConfig HashFNV32 agg (versions s) = Ret (cur' :: rest') ∧
    step s (with_versions s (cur' :: rest')) ∧ follows cur cur' ∧ settled (available s) cur' (myCellId agg) ∧
    ∀ id, id ≠ myCellId agg → slack id (Cells (Status cur')) = slack id (Cells (Status cur)).
Proof.
  intros Hs Hv Hacc Hcfg Hup. pose proof (cur_elem s cur rest Hv) as Hcur. pose proof Hcfg as [Hsel Hthr _ Hfit].
  set (a := {| Aggregator.shards := shards agg; Aggregator.queue := []; Aggregator.world := versions s |}).
  assert (Hready : reconcile_ready (λ _, Ret (Some cur, None)) (pprSelector_Matches agg) defaultConfig (podIndex agg) m
    (queueItem agg) cur a ts).
  { destruct Hup. split; try done. by apply (sound_cells_ok s). }
  assert (Hsnap : honest_snapshot HashFNV32 s cur (Aggregator.shards a) m (clk agg) (myCellId agg) ts).
  { split; [apply (up_uids _ _ _ _ _ Hup)|]. intros nn p i Hnn Hlive Hav. left. by eapply (up_counts _ _ _ _ _ Hup). }
  destruct (tryReconcile_spec HashFNV32 (λ _, Ret (Some cur, None)) (pprSelector_Matches agg) (UpdateStatus server)
    (clk agg) (pushNow agg) (myCellId agg) defaultConfig (podIndex agg) m (queueItem agg) cur a ts Hready)
    as (names & pre & status & post & min & e & a' & Hnd & Hnames & Hslot & Hmin & _ & Hrun & Hres).
  assert (Hrec : reconcile_current server defaultConfig HashFNV32 agg (versions s) = Ret (Aggregator.world a')).
  { unfold reconcile_current. fold a. assert (head (versions s) = Some cur) as -> by (by rewrite Hv).
    by rewrite Hrun. }
  assert (Hstep : step s (with_versions s (Aggregator.world a'))).
  { by apply (permitted_aggregate server requiresPodName defaultConfig HashFNV32 s cur _ _ _ _ _ _ _ _ _ _ _ _ Hcur Hready
      Hfit Hsnap eq_refl Hrun). }
  rewrite Hrec. cbv zeta in Hres.
  destruct (_ && _) eqn:Hchg in Hres.
  - destruct Hres as (ppr' & Hsum & Hw & _). pose proof (UpdateStatus_law server (Informer.SourceName (queueItem agg)) ppr'
      (versions s)) as Hlaw. change (Aggregator.world a) with (versions s) in Hw.
    assert (Hver : version_of ppr' = version_of cur) by (by apply Summarize_meta in Hsum).
    pose proof (Hacc (Informer.SourceName (queueItem agg)) ppr' cur rest Hver) as Hnone. rewrite <- Hv in Hnone.
    destruct (UpdateStatus server _ ppr' (versions s)) as [err w']. simpl in Hnone, Hw. subst err w'.
    destruct Hlaw as (cur0 & rest0 & rv & Hv0 & _ & _ & Hw). rewrite Hv in Hv0. injection Hv0 as <- <-.
    rewrite Hw in Hstep |- *.
    destruct (reconciled_settled s cur rest agg m ts Hs Hv Hup names pre status post min Hnd Hnames Hslot Hmin) as [Hnil Hwt].
    destruct (written_settles s cur rest agg Hs Hv Hcfg pre status
      (reconciled HashFNV32 (clk agg) cur (omap (live_pod (shards agg)) names)
        {| Aggregator.shardTimes := ts; Aggregator.minTime := min |} status)
      post ppr' rv Hslot (proj1 Hslot) Hnil Hwt Hsum)
      as (Hf & Hset & Hothers).
    by exists (next_version cur (Status ppr') rv), (versions s).
  - destruct Hres as [Hw _]. change (Aggregator.world a) with (versions s) in Hw. rewrite Hw, Hv in Hstep |- *.
    exists cur, rest. do 2 (split; [done|]). split; [done|]. split; [|done].
    by eapply (unchanged_settled s cur rest agg m ts Hs Hv Hup names pre status post min).
Qed.

(** *** A round settles the cells of its aggregators *)

Lemma round_progress aggs : ∀ s cur rest,
  sound s → versions s = cur :: rest → accepts_current server → config_fits cur →
  (∀ agg, agg ∈ aggs → ∃ m ts, caught_up (available s) cur agg m ts) →
  ∃ cur' rest', round server defaultConfig HashFNV32 aggs (versions s) = Ret (cur' :: rest') ∧
    rtc step s (with_versions s (cur' :: rest')) ∧ follows cur cur' ∧
    ∀ id, id ∈ myCellId <$> aggs ∨ settled (available s) cur id → settled (available s) cur' id.
Proof.
  induction aggs as [|agg aggs IH]; intros s cur rest Hs Hv Hacc Hcfg Hups.
  - exists cur, rest. rewrite Hv. split; [done|]. split; [destruct s; simpl in Hv |- *; by rewrite Hv|]. split; [done|].
    by intros id [?%not_elem_of_nil|?].
  - destruct (Hups agg ltac:(left)) as (m & ts & Hup).
    destruct (reconcile_progress s cur rest agg m ts Hs Hv Hacc Hcfg Hup) as (cur1 & rest1 & Hrun & Hstep & Hf1 & Hset & Hoth).
    pose proof (proj1 (step_sound server requiresPodName defaultConfig HashFNV32 _ _ Hs Hstep)) as Hs1.
    destruct (IH (with_versions s (cur1 :: rest1)) cur1 rest1 Hs1 eq_refl Hacc) as (cur2 & rest2 & Hrun2 & Hsteps & Hf2 & Hall).
    + by eapply config_fits_follows.
    + intros agg' Hagg'. destruct (Hups agg' ltac:(by right)) as (m' & ts' & Hup'). exists m', ts'.
      by eapply caught_up_follows.
    + exists cur2, rest2. unfold round in Hrun2 |- *. simpl outcome_foldl. rewrite Hrun. split; [exact Hrun2|].
      split; [by eapply rtc_l|]. split; [by etrans|]. intros id Hid. apply Hall. simpl available.
      destruct (decide (id = myCellId agg)) as [->|Hne]; [by right|].
      rewrite fmap_cons, elem_of_cons in Hid. destruct Hid as [[?|?]|[Hhist Hslack]]; [done|by left|right].
      split; [|by rewrite Hoth]. intros b Hb. by apply (Hhist b), (follows_history _ _ Hf1).
Qed.

(** *** A batch on settled cells *)

(** A request for an available pod, judged by availability. *)
Definition available_request (arg : PoolAdapter.BatchItem) : Prop :=
  same_criterion HealthCriterion.Available (PoolAdapter.PodStatus arg) ∧
  Pod.IsAvailable (DisruptionQuota.Status (PoolAdapter.PodStatus arg)) = true.

(** Without admissions no pod has a bucket. *)
Lemma no_buckets config cells cells' :
  (1 ≤ DefaultConfig.CompactThreshold config)%Z → (∀ id b, ¬ in_history cells id b) →
  Forall2 (cell_compacted config) cells cells' → cells_count cells' = 0%Z ∧ ∀ arg, has_bucket cells' arg = false.
Proof.
  intros Hthr Hnone Hf.
  assert (Hnil : ∀ c, c ∈ cells → Buckets c = []).
  { intros c Hc. apply elem_of_nil_inv. intros b Hb. by apply (Hnone (CellId c) b); exists c. }
  assert (Hnil' : Forall (λ c, Buckets c = []) cells').
  { apply Forall_forall. intros c' Hc'. apply list_elem_of_lookup in Hc' as [i Hi].
    destruct (Forall2_lookup_r _ _ _ _ _ Hf Hi) as (c & Hc & bs & Hbs & ->). apply list_elem_of_lookup_2, Hnil in Hc.
    rewrite Hc, CompactBuckets_eq, decide_True in Hbs by (done || constructor || simpl; lia). injection Hbs as <-.
    simpl. apply Permutation_nil. by rewrite sorted_buckets_perm. }
  split.
  - clear -Hnil'. unfold cells_count. induction Hnil' as [|c cs Hc _ IH]; [done|]. cbn [sum_by]. rewrite IH, Hc. done.
  - intros arg. unfold has_bucket. destruct (find_cell_slot cells' (PoolAdapter.CellId arg)) as [[_ ->]|(n & c & _ & Hn & _ & ->)];
      [done|]. apply list_elem_of_lookup_2 in Hn. rewrite Forall_forall in Hnil'. unfold bucket_of. by rewrite (Hnil' c Hn).
Qed.

(** All of a batch within the surplus is admitted. *)
Lemma batch_admitted (ppr : PodProtector) config args :
  (∀ arg, has_bucket (Cells (Status ppr)) arg = false) → Forall available_request args →
  let summary := Summary (Status ppr) in
  EstimatedAvailable summary = AggregatedAvailable summary → in_int32 (DefaultConfig.MaxConcurrentLag config) →
  (0 ≤ MinAvailable (Spec ppr) ∧ MinAvailable (Spec ppr) + Z.of_nat (length args) ≤ AggregatedAvailable summary ≤ MaxInt32)%Z →
  expected_batch ppr config args = replicate (length args) BatchItem.ResultNewDisruption.
Proof.
  intros Hdup Hargs summary Hest Hlag Hmin. unfold expected_batch. set (dup := has_bucket _) in *.
  assert (Hfresh : fresh_statuses dup args = PoolAdapter.PodStatus <$> args).
  { unfold fresh_statuses. f_equal. apply filter_all, Forall_forall. intros arg _. apply Hdup. }
  rewrite Hfresh. set (ps := PoolAdapter.PodStatus <$> args).
  destruct (AdmitBatch_spec ppr config HealthCriterion.Available ps) as [_ Hcount]; fold summary; rewrite ?Hest, ?Z.sub_diag.
  - apply Forall_fmap. eapply Forall_impl; [exact Hargs|]. by intros arg [? _].
  - apply Remaining_nonzero; fold summary; rewrite Hest, Z.sub_diag; [|done].
    destruct (decide (DefaultConfig.MaxConcurrentLag config = 0%Z)); [by left|right]. by rewrite Z.sub_0_r.
  - lia.
  - simpl. unfold in_int32, MinInt32, MaxInt32 in *. fold summary. lia.
  - fold summary in Hcount. rewrite Hest, Z.sub_diag, Z.add_0_r in Hcount. simpl current in Hcount. fold summary in Hcount.
    assert (Hps : contributors HealthCriterion.Available ps = Z.of_nat (length args)).
    { unfold contributors. rewrite filter_all; [by unfold ps; rewrite length_fmap|].
      apply Forall_fmap. eapply Forall_impl; [exact Hargs|]. by intros arg [_ ?]. }
    set (rs := DisruptionQuota.AdmitBatch ppr ps config) in *.
    assert (Hlen : length rs = length args) by (unfold rs, DisruptionQuota.AdmitBatch, ps; by rewrite length_admitLoop, length_fmap).
    assert (Hall : Forall (λ r, r = DisruptionQuota.DisruptionResultOk) rs).
    { unfold count_ok in Hcount. rewrite <- (filter_same_length (λ r, r = DisruptionQuota.DisruptionResultOk) rs) by lia.
      apply Forall_forall. by intros r [? _]%list_elem_of_filter. }
    clearbody rs. clear -Hall Hlen Hdup. revert rs Hall Hlen.
    induction args as [|arg args IH]; intros rs Hall Hlen; [done|]. destruct rs as [|r rs]; [done|].
    apply Forall_cons in Hall as [-> Hall]. simpl. rewrite Hdup. simpl. f_equal. apply IH; [done|]. by injection Hlen.
Qed.

Lemma review_settled s cur rest now backoff key args :
  sound s → versions s = cur :: rest → accepts_current server → config_fits cur →
  (∀ id, settled (available s) cur id) → Forall available_request args →
  (0 ≤ MinAvailable (Spec cur) ∧
    MinAvailable (Spec cur) + Z.of_nat (length args) ≤ Z.of_nat (size (available s)) ≤ MaxInt32)%Z →
  ∃ w', review_current server requiresPodName defaultConfig now backoff key args (versions s) =
    Ret (RetryBatch.ExecuteResultSuccess (PoolAdapter.resultAt (replicate (length args) BatchItem.ResultNewDisruption)), w').
Proof.
  intros Hs Hv Hacc [_ Hthr Hlag Hfit] Hset Hargs Hmin. pose proof (cur_elem s cur rest Hv) as Hcur.
  pose proof (sound_cells_ok s cur Hs Hcur) as Hok.
  destruct (executeOn_eq requiresPodName defaultConfig now cur args Hthr Hok)
    as (ppr1 & cells & ppr2 & H1 & Hc1 & Hsum1 & Hspec & _ & Hex & H2 & _).
  fold (config_of cur) in H1, Hc1, Hex, H2. set (config := config_of cur) in *.
  destruct (no_buckets config _ _ Hthr (λ id, proj1 (Hset id)) Hc1) as [Hzero Hdup].
  destruct (compacted_cells_facts config _ _ Hthr Hok Hc1) as (_ & _ & Hcount). destruct (Hcount Hfit) as [Hcount' _].
  pose proof (slack_total_eq _ _ (sound_ids s Hs cur Hcur) (λ id, proj2 (Hset id))) as Htotal.
  rewrite <- Hcount', Hzero, Z.sub_0_r in Htotal.
  assert (Hav : wrap32 (sum_by (AvailableReplicas ∘ Aggregation) (Cells (Status cur))) = Z.of_nat (size (available s))).
  { rewrite Htotal. apply wrap32_id. unfold in_int32, MinInt32, MaxInt32 in *. lia. }
  assert (Hbatch : expected_batch ppr1 config args = replicate (length args) BatchItem.ResultNewDisruption).
  { apply batch_admitted; rewrite ?Hsum1, ?Hspec; simpl; try done.
    - by rewrite Hzero, Z.sub_0_r.
    - by rewrite Hav. }
  rewrite Hbatch in Hex. unfold review_current, PoolAdapter.tryExecute.
  assert (head (versions s) = Some cur) as -> by (by rewrite Hv). cbn [mbind outcome_bind]. rewrite Hex.
  cbn [mbind outcome_bind]. case_bool_decide; [by eexists|].
  assert (Hver : version_of ppr2 = version_of cur).
  { etrans; [exact (Summarize_meta _ _ _ H2)|exact (Summarize_meta _ _ _ H1)]. }
  pose proof (Hacc (Informer.SourceName key) ppr2 cur rest Hver) as Hnone. rewrite <- Hv in Hnone.
  destruct (UpdateStatus server _ ppr2 (versions s)) as [err w']. simpl in Hnone. subst err. by eexists.
Qed.

End recovery.

(** ** Properties *)

(** C3. Deletions are never blocked for good. From any state that the webhook, the aggregators and the
    generator reach by [permitted] steps, once each cell with a status or an available pod has an aggregator that has
    seen the pods and the events of its cell, one reconciliation of each of them on the current
    version leads to a state, by permitted steps, in which the webhook grants a whole batch of
    deletions of available pods if [MinAvailable] available pods are left after it and the batch is not larger than
    [MaxConcurrentLag], if that is set. It is supposed that the API server accepts updates of the current version, that the selector is
    valid, that the histories of the current version are within the compaction threshold and numbers within 32 bits, and that the requests are judged by availability
    and report available pods. *)
Theorem capacity_recovers `{!GoRuntime, !KubeErrors} (server : System.StatusServer)
    (requiresPodName : RequiresPodName.RequiresPodName) (defaultConfig : DefaultConfig.Options) (HashFNV32 : string → Z)
    (s0 s : System.system) (cur : PodProtector) (rest : list PodProtector) (aggs : list Recovery.aggregator)
    (now : Time) (backoff : Duration) (key : Informer.PodProtectorKey) (args : list PoolAdapter.BatchItem) :
  System.initial s0 → rtc (System.permitted_step server requiresPodName defaultConfig HashFNV32) s0 s →
  System.versions s = cur :: rest → Recovery.accepts_current server → Recovery.config_fits defaultConfig cur →
  (∀ agg, agg ∈ aggs → ∃ m ts, Recovery.caught_up (System.available s) cur agg m ts) →
  (∀ id, id ∈ CellId <$> Cells (Status cur) ∨ System.in_cell id (System.available s) ≠ ∅ → id ∈ Recovery.myCellId <$> aggs) →
  Forall available_request args →
  (let max := DefaultConfig.MaxConcurrentLag (System.config_of defaultConfig cur) in max = 0 ∨ Z.of_nat (length args) ≤ max)%Z →
  (0 ≤ MinAvailable (Spec cur) ∧
    MinAvailable (Spec cur) + Z.of_nat (length args) ≤ Z.of_nat (size (System.available s)) ≤ MaxInt32)%Z →
  ∃ w r w', Recovery.round server defaultConfig HashFNV32 aggs (System.versions s) = Ret w ∧
    rtc (System.permitted_step server requiresPodName defaultConfig HashFNV32) s
      {| System.versions := w; System.available := System.available s; System.granted := System.granted s |} ∧
    Recovery.review_current server requiresPodName defaultConfig now backoff key args w = Ret (r, w') ∧
    System.granted_by key args r = list_to_set (System.pod_of <$> args).
Proof.
  intros Hinit Hsteps Hv Hacc Hcfg Hups Hcover Hargs _ Hmin.
  pose proof (reachable_sound server requiresPodName defaultConfig HashFNV32 _ _ Hinit Hsteps) as Hs.
  destruct (round_progress server requiresPodName defaultConfig HashFNV32 aggs s cur rest Hs Hv Hacc Hcfg Hups)
    as (cur' & rest' & Hround & Hsteps' & Hf & Hset).
  pose proof (reachable_sound server requiresPodName defaultConfig HashFNV32 _ _ Hinit (transitivity Hsteps Hsteps')) as Hs'.
  destruct (review_settled server requiresPodName defaultConfig _ cur' rest' now backoff key args Hs' eq_refl Hacc)
    as (w' & Hrun); [by eapply config_fits_follows| |done|by rewrite (Recovery.follows_spec _ _ Hf)|].
  - intros id. apply Hset. destruct (decide (id ∈ Recovery.myCellId <$> aggs)) as [?|Hid]; [by left|right].
    assert (Hcell : id ∉ CellId <$> Cells (Status cur)) by (intros ?; apply Hid, Hcover; by left).
    assert (Hnone : System.in_cell id (System.available s) = ∅).
    { destruct (decide (System.in_cell id (System.available s) = ∅)); [done|]. exfalso. apply Hid, Hcover. by right. }
    split; [|by rewrite slack_none, Hnone]. intros b (c & Hc & <- & _). by apply Hcell, list_elem_of_fmap_2.
  - eexists _, _, w'. split; [exact Hround|]. split; [exact Hsteps'|]. split; [exact Hrun|].
    apply set_eq. intros p. rewrite elem_of_granted_by, elem_of_list_to_set, list_elem_of_fmap. split.
    + intros (i & arg & r & Ha & _ & _ & ->). exists arg. split; [done|]. by eapply list_elem_of_lookup_2.
    + intros (arg & -> & [i Hi]%list_elem_of_lookup). exists i, arg, BatchItem.ResultNewDisruption. split; [done|].
      split; [apply lookup_replicate; split; [done|by eapply lookup_lt_Some]|]. split; [|done].
      apply grants_eq. by right; right.
Qed.

(** *** A run *)

(** Of two available pods one is counted. The deletion of [a] is granted, and nothing more. *)
Definition blocked_initial : System.system := {|
  System.versions := [example_ppr 0%Z [example_cell 1%Z []]];
  System.available := {[ ("cell", "a"); ("cell", "b") ]}; System.granted := ∅ |}.
Definition blocked_review (uid : string) (w : list PodProtector) :=
  Recovery.review_current example_server never DefaultConfig.default_options 20%Z 100%Z example_key [example_item uid] w.
Definition blocked_system : System.system :=
  match blocked_review "a" (System.versions blocked_initial) with
  | Ret (r, w) => {|
      System.versions := w;
      System.available := System.available blocked_initial ∖ System.granted_by example_key [example_item "a"] r;
      System.granted := System.granted blocked_initial ∪ System.granted_by example_key [example_item "a"] r |}
  | Panic _ => blocked_initial
  end.
Definition blocked_ppr : PodProtector := default (example_ppr 0%Z []) (head (System.versions blocked_system)).

Lemma blocked_reachable : rtc (example_step) blocked_initial blocked_system.
Proof.
  unfold blocked_system. destruct (blocked_review "a" (System.versions blocked_initial)) as [[r w]|msg] eqn:Hrun; [|done].
  apply rtc_once. apply (permitted_review example_server never DefaultConfig.default_options (λ _, 0%Z) blocked_initial
    (example_ppr 0%Z [example_cell 1%Z []]) example_key [example_item "a"] 20%Z 100%Z r w); [by left| | |exact Hrun].
  - apply Forall_singleton. split; [by left|done].
  - split; try (vm_compute; intuition congruence).
    + apply Nat.leb_le. vm_compute. reflexivity.
    + apply Forall_singleton. unfold histories_fit. apply Nat.leb_le. vm_compute. reflexivity.
Qed.

Lemma blocked_start : System.initial blocked_initial.
Proof.
  exists (example_ppr 0%Z [example_cell 1%Z []]). do 2 (split; [done|]). split; [apply NoDup_singleton|].
  intros c ->%list_elem_of_singleton. split; [done|]. apply Z.leb_le. vm_compute. reflexivity.
Qed.

(** The aggregator has seen [b] become ready, and that [a] is gone. *)
Definition ready_pod (name : string) : PodObject := {|
  podMeta := podMeta (example_aggregated_pod name None); NodeName := "node"; Phase := PodRunning;
  Conditions := [{| ConditionType := PodReady; ConditionStat := ConditionTrue; LastProbeTime := 0%Z; LastTransitionTime := 2%Z |}] |}.
Definition ready_shard : Aggregator.podInformerShard := {|
  Aggregator.podLister := λ _ name, (if bool_decide (name = "b") then Some (ready_pod name) else None, None);
  Aggregator.informerSyncReader := Some 30%Z; Aggregator.notifyOnInformerEvent := NextEventPool.newNextEventPool |}.
Definition ready_aggregator (index : Aggregator.SetsIndex) : Recovery.aggregator := {|
  Recovery.myCellId := "cell"; Recovery.pprSelector_Matches := λ _, true; Recovery.clk := λ _, 40%Z;
  Recovery.pushNow := 41%Z; Recovery.podIndex := index; Recovery.queueItem := example_event_key "ppr";
  Recovery.shards := [ready_shard] |}.
Definition ready_name : Namespaced.NamespacedName := {| Namespaced.Namespace := "ns"; Namespaced.Name := "b" |}.

Lemma ready_live nn p : live_pod [ready_shard] nn = Some p ↔ Namespaced.Name nn = "b" ∧ p = ready_pod "b".
Proof.
  unfold live_pod, Aggregator.findPodFromAnyShard. simpl. case_bool_decide as Hb; simpl; [rewrite Hb|]; naive_solver.
Qed.

Lemma ready_caught_up index ppr :
  pods_represent index {[ ready_name := Labels (podMeta (ready_pod "b")) ]} →
  Cells (Status ppr) = [example_cell 1%Z [example_bucket 20%Z "a"]] → Spec ppr = Spec (example_ppr 0%Z []) →
  Namespace (pprMeta ppr) = "ns" →
  Recovery.caught_up {[ ("cell", "b") ]} ppr (ready_aggregator index)
    {[ ready_name := Labels (podMeta (ready_pod "b")) ]} [30%Z].
Proof.
  intros Hindex Hcells Hspec Hns.
  split; cbn [ready_aggregator Recovery.myCellId Recovery.pprSelector_Matches Recovery.clk Recovery.podIndex Recovery.shards].
  - done.
  - exact Hindex.
  - intros nn _. unfold pod_error, Aggregator.findPodFromAnyShard. simpl. by case_bool_decide.
  - rewrite map_size_singleton. done.
  - done.
  - done.
  - intros nn nn' p p' (_ & l & [<- _]%lookup_singleton_Some & _) (_ & l' & [<- _]%lookup_singleton_Some & _). done.
  - intros nn p i _ [_ ->]%ready_live _. by apply elem_of_singleton.
  - intros uid [= ->]%elem_of_singleton. exists ready_name, (ready_pod "b").
    split; [|split; [by apply ready_live|split; [done|]]].
    + split; [done|]. eexists. split; [apply lookup_singleton_eq|]. unfold PprUtil.GetAggregationSelector. rewrite Hspec.
      split; [apply map_empty_subseteq|]. by intros req ?%not_elem_of_nil.
    + intros i. rewrite Hspec. vm_compute. reflexivity.
  - intros b t (c & Hc & _ & Hb) ->%list_elem_of_singleton. rewrite Hcells in Hc. apply list_elem_of_singleton in Hc as ->.
    apply list_elem_of_singleton in Hb as ->. done.
Qed.

(** What the first review leaves: [b] is available, and the admission of [a] is recorded. *)
Lemma blocked_facts :
  System.versions blocked_system = blocked_ppr :: tail (System.versions blocked_system) ∧
  System.available blocked_system = {[ ("cell", "b") ]} ∧
  Cells (Status blocked_ppr) = [example_cell 1%Z [example_bucket 20%Z "a"]] ∧
  Spec blocked_ppr = Spec (example_ppr 0%Z []) ∧ Namespace (pprMeta blocked_ppr) = "ns".
Proof.
  assert (Hw : bool_decide (head (System.versions blocked_system) = Some blocked_ppr ∧
    System.available blocked_system = {[ ("cell", "b") ]} ∧
    Cells (Status blocked_ppr) = [example_cell 1%Z [example_bucket 20%Z "a"]] ∧
    Spec blocked_ppr = Spec (example_ppr 0%Z []) ∧ Namespace (pprMeta blocked_ppr) = "ns") = true) by (vm_compute; reflexivity).
  apply bool_decide_eq_true in Hw as [Hhead Hw]. split; [|done].
  destruct (System.versions blocked_system) as [|v vs]; [done|]. by injection Hhead as ->.
Qed.

(** The deletion of [b] is not granted after that of [a], until the aggregator has reconciled. *)
Lemma capacity_recovers_witness :
  ∃ agg w r w', Recovery.round example_server DefaultConfig.default_options (λ _, 0%Z) [agg] (System.versions blocked_system) = Ret w ∧
    match blocked_review "b" (System.versions blocked_system) with
    | Ret (r, _) => System.granted_by example_key [example_item "b"] r = ∅
    | Panic _ => False
    end ∧
    blocked_review "b" w = Ret (r, w') ∧ System.granted_by example_key [example_item "b"] r = {[ ("cell", "b") ]}.
Proof.
  destruct blocked_facts as (Hv & Hav & Hcells & Hspec & Hns).
  destruct (track_pod Aggregator.NewPodIndex ∅ ready_name (Labels (podMeta (ready_pod "b"))) pods_represent_new)
    as (index & _ & _ & Hindex).
  destruct (capacity_recovers example_server never DefaultConfig.default_options (λ _, 0%Z) blocked_initial blocked_system
    blocked_ppr (tail (System.versions blocked_system)) [ready_aggregator index] 20%Z 100%Z example_key [example_item "b"])
    as (w & r & w' & Hround & _ & Hrun & Hgranted).
  - exact blocked_start.
  - exact blocked_reachable.
  - exact Hv.
  - intros src new v vs Hver. simpl. unfold example_update. by rewrite bool_decide_eq_true_2.
  - split; unfold System.config_of, System.threshold_of, PprUtil.GetAggregationSelector; rewrite ?Hspec.
    + by intros req ?%not_elem_of_nil.
    + vm_compute. discriminate.
    + vm_compute. split; discriminate.
    + rewrite Hcells. apply Forall_singleton. apply Nat.leb_le. unfold System.config_of. rewrite Hspec. vm_compute. reflexivity.
  - intros agg ->%list_elem_of_singleton. rewrite Hav. do 2 eexists. by eapply ready_caught_up.
  - intros id Hid. apply list_elem_of_singleton. destruct Hid as [Hid|Hid]; [rewrite Hcells in Hid; by apply list_elem_of_singleton in Hid|].
    apply set_choose_L in Hid as [p [<- Hp]%elem_of_in_cell]. rewrite Hav in Hp. by apply elem_of_singleton in Hp as ->.
  - apply Forall_singleton. split; [by left|done].
  - left. unfold System.config_of. rewrite Hspec. vm_compute. reflexivity.
  - rewrite Hav, Hspec, size_singleton. done.
  - exists (ready_aggregator index), w, r, w'. split; [exact Hround|]. split; [vm_compute; reflexivity|]. split; [exact Hrun|].
    rewrite Hgranted. apply union_empty_r_L.
Defined.
