(* ===== verification/WellFormed.v ===== *)
(** * WellFormed: the type of a status (src/apis/v1alpha1/types.go)

    What the API documents of the status of a PodProtector and Go cannot express: every cell has one entry, a bucket
    stands for a pod or for a period, and counts are 32-bit integers. The three writers of the status (the webhook, the aggregator
    and the generator) are shown to keep it, whatever they read and whatever the API server answers. *)

From S2P Require Import Prelude Util Errors Iter Canonical LabelIndex Api PprUtil Quota RetryBatch Informer PoolAdapter Aggregator AggregatorCorrect Generator GeneratorCorrect System.
Import Resource.

(** ** Well-formed statuses *)
Definition optional_int32 (z : option Z) : Prop := match z with Some z => in_int32 z | None => True end.

Record aggregation_typed (a : PodProtectorAggregation) : Prop := {
  typed_total : in_int32 (TotalReplicas a);
  typed_available : in_int32 (AvailableReplicas a);
  typed_ready : in_int32 (ReadyReplicas a);
  typed_scheduled : in_int32 (ScheduledReplicas a);
  typed_running : in_int32 (RunningReplicas a);
  typed_pending : optional_int32 (PendingReplicas a);
  typed_unscheduled : optional_int32 (UnscheduledPendingReplicas a)
}.

(** A bucket without a pod has an end time. *)
Record bucket_typed (b : PodProtectorAdmissionBucket) : Prop := {
  typed_bucket : is_Some (PodUid b) ∨ is_Some (EndTime b);
  typed_counter : optional_int32 (Counter b)
}.

Record cell_typed (c : PodProtectorCellStatus) : Prop := {
  typed_aggregation : aggregation_typed (Aggregation c);
  typed_buckets : Forall bucket_typed (Buckets c)
}.

Record summary_typed (s : PodProtectorStatusSummary) : Prop := {
  typed_counts : Forall in_int32 [Total s; AggregatedAvailable s; EstimatedAvailable s; AggregatedReady s;
    AggregatedScheduled s; AggregatedRunning s];
  typed_latency : in_int64 (MaxLatencyMillis s)
}.

Record well_formed (s : PodProtectorStatus) : Prop := {
  typed_ids : NoDup (CellId <$> Cells s);
  typed_cells : Forall cell_typed (Cells s);
  typed_summary : summary_typed (Summary s)
}.

(** ** Lemmas *)
Section typed_lemmas.
Implicit Types (b : PodProtectorAdmissionBucket) (bs : list PodProtectorAdmissionBucket) (c : PodProtectorCellStatus)
  (cells : list PodProtectorCellStatus) (p : PodProtector).

Lemma aggregation_typed_zero : aggregation_typed zero.
Proof. by split. Qed.

Lemma cells_typed_ok cells : Forall cell_typed cells → cells_ok cells.
Proof.
  rewrite Forall_forall. intros Hc c Hin. destruct (Hc c Hin) as [_ Hb].
  eapply Forall_impl; [exact Hb|]. by intros b [? _].
Qed.

Lemma well_formed_ok p : well_formed (Status p) → cells_ok (Cells (Status p)).
Proof. intros [_ Hc _]. by apply cells_typed_ok. Qed.

Lemma cell_latency_range c : in_int64 (cell_latency c).
Proof.
  unfold cell_latency, in_int64. destruct (last (Buckets c)) as [b|]; [|done]. destruct (time_IsZero _); [done|].
  unfold duration_Milliseconds, time_Sub, Millisecond, MinInt64, MaxInt64.
  set (d := (_ `max` _)%Z). assert (Hd : (-9223372036854775808 ≤ d ≤ 9223372036854775807)%Z) by (unfold d; lia).
  pose proof (Z.quot_rem' d 1000000). pose proof (Z.rem_bound_abs d 1000000). lia.
Qed.

Lemma max_latency_range cells (acc : Z) : in_int64 acc → in_int64 (foldl Z.max acc (cell_latency <$> cells)).
Proof.
  revert acc. induction cells as [|c cells IH]; intros acc Hacc; [done|]. cbn. apply IH.
  pose proof (cell_latency_range c). unfold in_int64 in *. lia.
Qed.

Lemma summary_of_typed cells cells' : summary_typed (summary_of cells cells').
Proof.
  split; [|by apply max_latency_range].
  repeat constructor; apply wrap32_range.
Qed.

(** Compaction makes a period of the pods that it merges. *)
Lemma CompactBuckets_typed `{!GoRuntime} config bs bs' :
  (1 ≤ DefaultConfig.CompactThreshold config)%Z → Forall bucket_typed bs →
  PprUtil.CompactBuckets config bs = Ret bs' → Forall bucket_typed bs'.
Proof.
  intros Hthr Hbs Hc. rewrite CompactBuckets_eq in Hc; [|done|].
  2: { eapply Forall_impl; [exact Hbs|]. by intros b [? _]. }
  injection Hc as <-. rewrite <- (sorted_buckets_perm bs) in Hbs. case_decide; [done|].
  destruct (sorted_buckets bs) as [|first rest]; [done|]. apply Forall_cons in Hbs as [[_ Hcount] Hrest].
  constructor; [|by apply Forall_drop]. unfold compacted. split; cbn; [right; eauto|]. by destruct (PodUid first).
Qed.

Lemma compacted_typed `{!GoRuntime} config cells cells' :
  (1 ≤ DefaultConfig.CompactThreshold config)%Z → Forall cell_typed cells →
  Forall2 (cell_compacted config) cells cells' → Forall cell_typed cells' ∧ (CellId <$> cells') = (CellId <$> cells).
Proof.
  intros Hthr Hc Hf. induction Hf as [|c c' cells cells' (bs & Hbs & ->) _ IH]; [done|].
  apply Forall_cons in Hc as [[Ha Hb] Hc]. destruct (IH Hc) as [IH1 IH2]. split.
  - constructor; [|done]. split; [done|]. cbn. by eapply CompactBuckets_typed.
  - cbn. by rewrite IH2.
Qed.

(** [Summarize] does not panic on typed cells, and what it writes is well formed whatever the summary was. *)
Lemma Summarize_typed `{!GoRuntime} config p :
  (1 ≤ DefaultConfig.CompactThreshold config)%Z → NoDup (CellId <$> Cells (Status p)) → Forall cell_typed (Cells (Status p)) →
  ∃ p', PprUtil.Summarize config p = Ret p' ∧ well_formed (Status p').
Proof.
  intros Hthr Hids Hc. destruct (Summarize_eq config p Hthr (cells_typed_ok _ Hc)) as (cells' & -> & Hf).
  destruct (compacted_typed config _ _ Hthr Hc Hf) as [Hc' Hids']. eexists. split; [done|]. split; cbn.
  - by rewrite Hids'.
  - done.
  - apply summary_of_typed.
Qed.

(** Moved start times keep the type. *)
Lemma same_cells_typed cells cells' :
  Forall2 same_cell cells cells' → Forall cell_typed cells → Forall cell_typed cells' ∧ (CellId <$> cells') = (CellId <$> cells).
Proof.
  induction 1 as [|c c' cells cells' (Hid & Ha & Hb) _ IH]; [done|]. intros [[Hta Htb] Hc]%Forall_cons.
  destruct (IH Hc) as [IH1 IH2]. split; [|cbn; by rewrite IH2, Hid]. constructor; [|done].
  split; [by rewrite <- Ha|]. clear -Hb Htb. induction Hb as [|b b' bs bs' Hb _ IHb]; [done|].
  apply Forall_cons in Htb as [[Hu Hn] Htb]. constructor; [|by apply IHb]. injection Hb as _ Hu' He' Hn'.
  split; [by rewrite <- Hu', <- He'|by rewrite <- Hn'].
Qed.

Lemma recordBucket_typed requiresPodName t cells item :
  Forall cell_typed cells → Forall cell_typed (PoolAdapter.recordBucket requiresPodName t cells item).
Proof.
  intros Hc. destruct (recordBucket_spec requiresPodName t cells item) as (pre & c & post & -> & _ & Hcells).
  assert (Hnew : bucket_typed (PoolAdapter.newBucket requiresPodName t item)) by (split; [by left; eexists|done]).
  destruct Hcells as [->|(-> & -> & Ha & Hb)].
  - apply Forall_app in Hc as [Hpre [[Hta Htb] Hpost]%Forall_cons]. apply Forall_app. split; [done|].
    constructor; [|done]. split; [done|]. cbn. apply Forall_app. split; [done|]. by constructor.
  - apply Forall_app. split; [done|]. constructor; [|done]. split; cbn; [rewrite Ha; apply aggregation_typed_zero|].
    rewrite Hb. by constructor.
Qed.

Lemma recorded_typed requiresPodName t und cells : ∀ rs,
  Forall cell_typed cells → Forall cell_typed (recorded requiresPodName t und rs cells).
Proof.
  induction und as [|item und IH]; intros [|r rs] Hc; cbn; try done.
  destruct (DisruptionQuota.ShouldDisrupt r); [apply recordBucket_typed|]; by apply IH.
Qed.

(** A batch of the webhook. *)
Lemma executeOn_typed `{!GoRuntime} requiresPodName defaultConfig t p args :
  (1 ≤ DefaultConfig.CompactThreshold (DefaultConfig.Compute defaultConfig (Some (HistoryConfig (Spec p)))))%Z →
  well_formed (Status p) →
  ∃ p' results, PoolAdapter.executeOn requiresPodName defaultConfig t p args = Ret (p', results) ∧ well_formed (Status p').
Proof.
  intros Hthr Hwf. pose proof Hwf as [Hids Hc _].
  destruct (executeOn_eq requiresPodName defaultConfig t p args Hthr (well_formed_ok _ Hwf))
    as (p1 & cells & p2 & _ & Hc1 & _ & _ & Hsame & Hrun & _ & _ & Hc2 & Hsum2).
  destruct (compacted_typed _ _ _ Hthr Hc Hc1) as [Ht1 Hi1]. destruct (same_cells_typed _ _ Hsame Ht1) as [Ht2 Hi2].
  eexists p2, _. split; [exact Hrun|]. unfold expected_cells in Hc2, Hsum2.
  assert (Ht3 := λ u rs, recorded_typed requiresPodName t u cells rs Ht2).
  destruct (compacted_typed _ _ _ Hthr (Ht3 _ _) Hc2) as [Ht4 Hi4]. split; [|done|].
  - rewrite Hi4. apply ids_recorded. by rewrite Hi2, Hi1.
  - rewrite Hsum2. apply summary_of_typed.
Qed.

End typed_lemmas.

(** ** The aggregator *)
Section aggregator_writes.
Context `{!GoRuntime} (HashFNV32 : string → Z) {W : Type} (UpdateStatus : string → PodProtector → W → option error * W)
  (clk : nat → Time) (pushNow : Time) (my : string) (defaultConfig : DefaultConfig.Options).
Import Aggregator.
Implicit Types (ppr : PodProtector) (pods : list PodObject) (s : reconcileState (W := W)).

(** Nothing is written, or the status in which the slot of the cell has the counts of some pods. *)
Definition written_cell ppr key s s' pods pre status post : Prop :=
  world s' = world s ∨ ∃ min ts ppr',
    PprUtil.Summarize (DefaultConfig.Compute defaultConfig (Some (HistoryConfig (Spec ppr))))
      (with_Cells ppr (pre ++ reconciled HashFNV32 clk ppr pods {| shardTimes := ts; minTime := min |} status :: post)) = Ret ppr' ∧
    world s' = (UpdateStatus (Informer.SourceName key) ppr' (world s)).2.

Lemma reconcileCell_writes key ppr pre status post pods s s' e :
  (1 ≤ DefaultConfig.CompactThreshold (DefaultConfig.Compute defaultConfig (Some (HistoryConfig (Spec ppr)))))%Z →
  cells_ok (pre ++ status :: post) →
  reconcileCell HashFNV32 UpdateStatus clk pushNow defaultConfig key ppr (pre ++ status :: post) (length pre) pods s = Ret (e, s') →
  written_cell ppr key s s' pods pre status post ∧ ((MaxInt32 < Z.of_nat (length pods))%Z → world s' = world s).
Proof.
  intros Hthr Hok Hrun. destruct (Z.ltb_spec MaxInt32 (Z.of_nat (length pods))) as [Hmany|Hfew].
  { unfold reconcileCell in Hrun. rewrite list_lookup_middle in Hrun by done. unfold aggregateStatus in Hrun.
    rewrite (proj2 (Z.ltb_lt _ _) Hmany) in Hrun. injection Hrun as _ <-. split; [by left|done]. }
  split; [|lia]. destruct (lastEventTimes (shards s)) as [ts|] eqn:Hts.
  - destruct (decide (shards s = [])) as [Hno|Hne].
    + exfalso. unfold reconcileCell in Hrun. rewrite list_lookup_middle in Hrun by done.
      destruct (aggregateStatus_eq clk pods ppr None (Aggregation status) HasChange.New Hfew) as (ch & rq & Hagg & _).
      rewrite Hagg in Hrun. cbn in Hrun. rewrite Hno in Hts, Hrun. by injection Hts as <-.
    + destruct (reconcileCell_spec HashFNV32 UpdateStatus clk pushNow defaultConfig key ppr pre status post pods s ts
        Hthr Hok Hfew Hne Hts) as (min & e1 & s1 & _ & _ & Hrun1 & _ & Hres).
      rewrite Hrun in Hrun1. injection Hrun1 as <- <-. destruct (reconcile_changes _ _ _ _ _ _); [|by left; apply Hres].
      destruct Hres as (p' & Hsum & Hw & _). right. eauto.
  - left. unfold reconcileCell in Hrun. rewrite list_lookup_middle in Hrun by done.
    destruct (aggregateStatus_eq clk pods ppr None (Aggregation status) HasChange.New Hfew) as (ch & rq & Hagg & _).
    rewrite Hagg in Hrun. cbn in Hrun. rewrite Hts in Hrun. by injection Hrun as _ <-.
Qed.

Lemma tryReconcile_writes Get Matches index key ppr s s' e :
  (1 ≤ DefaultConfig.CompactThreshold (DefaultConfig.Compute defaultConfig (Some (HistoryConfig (Spec ppr)))))%Z →
  cells_ok (Cells (Status ppr)) → Get key = Ret (Some ppr, None) →
  tryReconcile HashFNV32 Get Matches UpdateStatus clk pushNow my defaultConfig index key s = Ret (e, s') →
  ∃ pods pre status post, cell_slot my (Cells (Status ppr)) pre status post ∧
    written_cell ppr key s s' pods pre status post ∧ ((MaxInt32 < Z.of_nat (length pods))%Z → world s' = world s).
Proof.
  intros Hthr Hok Hget Hrun. destruct (reconcile_slot my (Cells (Status ppr))) as (pre & status & post & Hslot & Hcase).
  assert (Hcells : cells_ok (pre ++ status :: post)).
  { destruct Hslot as (_ & _ & [<-|(<- & -> & ->)]); [done|].
    intros c [Hc| ->%list_elem_of_singleton]%elem_of_app; [by apply Hok|constructor]. }
  unfold tryReconcile in Hrun. rewrite Hget in Hrun. cbn [mbind outcome_bind] in Hrun.
  assert (Hskip : s' = s → ∃ pods pre status post, cell_slot my (Cells (Status ppr)) pre status post ∧
    written_cell ppr key s s' pods pre status post ∧ ((MaxInt32 < Z.of_nat (length pods))%Z → world s' = world s)).
  { intros ->. exists [], pre, status, post. split; [done|]. split; [by left|done]. }
  destruct (Matches (Labels (pprMeta ppr))); cbn [negb] in Hrun; [|apply Hskip; by injection Hrun].
  destruct (findRelevantPods index (shards s) ppr) as [[pods err]|]; cbn [mbind outcome_bind] in Hrun; [|done].
  destruct err as [err|]; [apply Hskip; by injection Hrun|].
  exists pods, pre, status, post. split; [done|].
  cbv zeta in Hcase, Hrun. destruct Hcase as [(Hi & Hpre & -> & Hst)|(Hi & Hpre & Hlen)]; rewrite Hi in Hrun; cbn [andb] in Hrun.
  - destruct (length pods =? 0); [injection Hrun as _ <-; split; [by left|done]|].
    rewrite Hpre, length_app, Nat.add_sub, <- Hst in Hrun. by eapply reconcileCell_writes.
  - rewrite Hlen, Hpre in Hrun. by eapply reconcileCell_writes.
Qed.

Lemma aggregation_of_typed minReadySeconds (items : list (Time * PodObject)) t :
  (Z.of_nat (length items) ≤ MaxInt32)%Z → aggregation_typed (aggregation_of minReadySeconds items t).
Proof.
  intros Hlen. assert (Hc : ∀ f : Time * PodObject → bool, in_int32 (count_pods f items)).
  { intros f. unfold count_pods, in_int32, MinInt32. pose proof (length_filter (λ x, f x = true) items). lia. }
  split; cbn; auto. unfold in_int32, MinInt32. lia.
Qed.

Lemma reconciled_typed ppr pods ts status :
  (Z.of_nat (length pods) ≤ MaxInt32)%Z → cell_typed status → cell_typed (reconciled HashFNV32 clk ppr pods ts status).
Proof.
  intros Hlen [_ Hb]. split; [apply aggregation_of_typed; by rewrite length_imap|]. cbn.
  rewrite Forall_forall in Hb |- *. intros b [_ Hin]%list_elem_of_filter. by apply Hb.
Qed.

End aggregator_writes.

(** ** Properties *)

(** A server that records the objects whose status it is asked to write, and answers in any way. *)
Definition record_status (answer : list PodProtector → string → PodProtector → option error) (src : string)
    (new : PodProtector) (w : list PodProtector) : option error * list PodProtector := (answer w src new, w ++ [new]).

(** C5. Statuses stay well formed. Given a PodProtector with a well-formed status and a positive compaction threshold,
    what the webhook writes for any batch (whose execution never panics), what the aggregator of any cell writes for any state
    of its informers, and what the generator writes when it removes cells is well formed again: one entry for each
    cell, buckets with a pod or an end, counts of 32 bits; and each of them writes the status at most once. *)
Theorem statuses_stay_well_formed `{!GoRuntime, !KubeErrors} {Obj : Type} `{!SourceObject Obj} (defaultConfig : DefaultConfig.Options)
    (answer : list PodProtector → string → PodProtector → option error) (server : answers Obj) (ppr : PodProtector) :
  (1 ≤ DefaultConfig.CompactThreshold (DefaultConfig.Compute defaultConfig (Some (HistoryConfig (Spec ppr)))))%Z →
  well_formed (Status ppr) →
  (∀ requiresPodName key args now backoff, ∃ r w,
    PoolAdapter.tryExecute requiresPodName (λ _ _, Ret (Some ppr, None)) (λ _, now) (λ _, backoff) (record_status answer)
      defaultConfig key args [] = Ret (r, w) ∧ Forall (well_formed ∘ Status) w ∧ length w ≤ 1) ∧
  (∀ HashFNV32 Get Matches clk pushNow my index key (s s' : Aggregator.reconcileState) e,
    Get key = Ret (Some ppr, None) → Aggregator.world s = [] →
    Aggregator.tryReconcile HashFNV32 Get Matches (record_status answer) clk pushNow my defaultConfig index key s = Ret (e, s') →
    Forall (well_formed ∘ Status) (Aggregator.world s') ∧ length (Aggregator.world s') ≤ 1) ∧
  (∀ h b, ∃ res s', Generator.tryRemoveCells ppr (st h b ([] : list (event Obj))) = Ret (res, s') ∧ length (Generator.world s') ≤ 1 ∧
    ∀ ev, ev ∈ Generator.world s' → ∃ q r, ev = StatusUpdated q r ∧ well_formed (Status q)).
Proof.
  intros Hthr Hwf. pose proof (well_formed_ok _ Hwf) as Hok. pose proof Hwf as [Hids Hc Hsum].
  split; [|split].
  - intros requiresPodName key args now backoff. unfold PoolAdapter.tryExecute. cbn [mbind outcome_bind].
    destruct (executeOn_typed requiresPodName defaultConfig now ppr args Hthr Hwf) as (p' & results & -> & Hwf').
    cbn [mbind outcome_bind]. case_bool_decide.
    { do 2 eexists. split; [done|]. split; [constructor|cbn; lia]. }
    unfold record_status.
    do 2 eexists. split; [done|]. split; [by apply Forall_singleton|cbn; lia].
  - intros Hash Get Matches clk pushNow my index key s s' e Hget Hw Hrun.
    destruct (tryReconcile_writes _ _ _ _ _ _ _ _ _ _ _ _ _ _ Hthr Hok Hget Hrun)
      as (pods & pre & status & post & Hslot & Hwritten & Hmany).
    destruct (Z.ltb_spec MaxInt32 (Z.of_nat (length pods))) as [Hlt|Hlen]; [rewrite Hmany, Hw by done; split; [constructor|cbn; lia]|].
    destruct Hwritten as [->|(min & ts & p' & Hs & ->)]; [rewrite Hw; split; [constructor|cbn; lia]|]. rewrite Hw. cbn.
    set (status' := reconciled _ _ _ _ _ _) in Hs.
    assert (Hcells : Forall cell_typed (pre ++ status' :: post)).
    { assert (Hall : Forall cell_typed pre ∧ cell_typed status ∧ Forall cell_typed post).
      { destruct Hslot as (_ & _ & [Heq|(Heq & -> & ->)]); rewrite Heq in Hc.
        - apply Forall_app in Hc as [? [??]%Forall_cons]. done.
        - split; [done|]. split; [split; [apply aggregation_typed_zero|constructor]|done]. }
      destruct Hall as (Hpre & Hst & Hpost). apply Forall_app. split; [done|]. constructor; [|done]. by apply reconciled_typed. }
    destruct (slot_ids _ _ _ _ status' _ Hslot) as (Hids' & _); [by destruct Hslot as (? & _)|done|].
    destruct (Summarize_typed _ (with_Cells ppr (pre ++ status' :: post)) Hthr Hids' Hcells) as (p2 & Hs2 & Hwf2).
    rewrite Hs in Hs2. injection Hs2 as <-. split; [by apply Forall_singleton|cbn; lia].
  - intros h b. rewrite removeCells_eq. destruct (Annotations (pprMeta ppr) !! _) as [removals|].
    2: { do 2 eexists. split; [done|]. split; [cbn; lia|]. by intros ev ?%not_elem_of_nil. }
    cbv zeta. case_decide; do 2 eexists; (split; [done|]); (split; [cbn; lia|]).
    + by intros ev ?%not_elem_of_nil.
    + intros ev ->%list_elem_of_singleton. do 2 eexists. split; [done|].
      assert (Hsub : kept_cells removals ppr `sublist_of` Cells (Status ppr)) by apply sublist_filter.
      split; cbn; [| |done].
      * eapply sublist_NoDup; [exact Hids|]. by apply fmap_sublist.
      * rewrite Forall_forall in Hc |- *. intros c Hin. apply Hc. by eapply elem_of_sublist.
Qed.

Lemma statuses_stay_well_formed_witness :
  (1 ≤ DefaultConfig.CompactThreshold (DefaultConfig.Compute DefaultConfig.default_options
    (Some (HistoryConfig (Spec example_batch_ppr)))))%Z ∧ well_formed (Status example_batch_ppr) ∧
  ∃ r p, PoolAdapter.tryExecute never (λ _ _, Ret (Some example_batch_ppr, None)) (λ _, 20%Z) (λ _, 100%Z)
      (record_status (λ _ _ _, None)) DefaultConfig.default_options example_key example_batch [] = Ret (r, [p]) ∧
    well_formed (Status p).
Proof.
  assert (Hthr : (1 ≤ DefaultConfig.CompactThreshold (DefaultConfig.Compute DefaultConfig.default_options
    (Some (HistoryConfig (Spec example_batch_ppr)))))%Z) by (vm_compute; discriminate).
  assert (Hint : ∀ z, Z.leb MinInt32 z && Z.leb z MaxInt32 = true → in_int32 z).
  { intros z [H1 H2]%andb_true_iff. by split; apply Z.leb_le. }
  assert (Hwf : well_formed (Status example_batch_ppr)).
  { split; [apply NoDup_singleton| |].
    - repeat constructor; try (by apply Hint); try done; by left; eexists.
    - split; [repeat constructor; by apply Hint|]. by split. }
  split; [exact Hthr|]. split; [exact Hwf|].
  destruct (statuses_stay_well_formed (Obj := Deployment.Deployment) (SourceObject0 := example_source) DefaultConfig.default_options
    (λ _ _ _, None) example_answers example_batch_ppr Hthr Hwf) as (Hweb & _).
  destruct (Hweb never example_key example_batch 20%Z 100%Z) as (r & w & Hrun & Hall & Hlen).
  destruct w as [|p [|p' w]]; [exfalso|exists r, p|cbn in Hlen; lia].
  - vm_compute in Hrun. discriminate Hrun.
  - split; [exact Hrun|]. by apply Forall_cons in Hall as [? _].
Defined.
