(* ===== verification/Meters.v ===== *)
(** * Meters: the metrics of the components

    The implementations of observers that fill in metrics: a module for each [ProvideMetrics] (webhook, aggregator, generator,
    retry batches, workers, the informer of PodProtectors, health checks, leader election), [Module Meter] for what they share
    (the rest of util/o11y/metrics), and [Module KubeMeter] for util/kube/metrics. Constructing an implementation registers
    its metrics; an event adds to a context or emits. The clock is read by the caller. *)

From Stdlib Require Import Ascii.
From S2P Require Import Prelude Util Errors Api Flags Metrics Monitor Component Wiring.

(** [float64], with the operations that the source uses; [Decimal m e] is the literal [m * 10 ^ e]. *)
Class GoFloat (Float : Type) : Type := {
  IntToFloat64 : Z → Float;
  Decimal : Z → Z → Float;
  float_add : Float → Float → Float;
  float_div : Float → Float → Float
}.

Module Meter.
Import Tags Metric.

(** A tag is a string, a boolean or an integer. *)
Inductive leaf : Type := Str (s : string) | Bool (b : bool) | Int (z : Z).
Definition Sprint (l : leaf) : string :=
  match l with Str s => s | Bool b => if b then "true" else "false" | Int z => Strconv.FormatInt z end.
Notation tags := (value leaf).
Definition strings (l : list string) : tags := StructValue ((λ s, Leaf (Str s)) <$> l).
(** A struct whose fields are all exported and not embedded. *)
Definition fieldsStruct (names : list string) : structType := Struct ((λ name, (name, true, None)) <$> names).
Definition Empty : structType := Struct [].
Definition empty : tags := StructValue [].

Section context.
Context {Entry A : Type}.
(** [ctx.Value] finds the value that was put last under a key; the type assertion on its result panics without one. *)
Definition Value (key : Entry → option A) (ctx : list Entry) : option A := head (omap key ctx).
Definition MustValue (key : Entry → option A) (ctx : list Entry) : outcome A :=
  match Value key ctx with Some v => Ret v | None => Panic "interface conversion: interface is nil" end.
End context.

Section meter.
Context {Float W : Type} `{!GoFloat Float, !Prometheus Float W, !Unique.HyperLogLog}.

(** *** Types of metrics *)
Definition Seconds (d : Duration) : Float :=
  float_add (IntToFloat64 (Z.quot d Second)) (float_div (IntToFloat64 (Z.rem d Second)) (Decimal 1 9)).

Definition gauge {Value} (typeConv : Value → Float) : Type_ Value :=
  {| metricKind := Gauge; typeConv := typeConv; buckets := []; collector := None |}.
Definition IntGauge : Type_ Z := gauge IntToFloat64.
Definition Int32Gauge : Type_ Z := gauge IntToFloat64.
Definition Int64Gauge : Type_ Z := gauge IntToFloat64.
Definition FloatGauge : Type_ Float := gauge id.
Definition DurationGauge : Type_ Duration := gauge Seconds.
Definition IntCounter : Type_ Z := {| metricKind := Counter; typeConv := IntToFloat64; buckets := []; collector := None |}.
Definition FloatCounter : Type_ Float := {| metricKind := Counter; typeConv := id; buckets := []; collector := None |}.
Definition DurationHistogram (bounds : list Float) : Type_ Duration :=
  {| metricKind := Histogram; typeConv := Seconds; buckets := bounds; collector := None |}.
Definition FunctionDurationHistogram : Type_ Duration := DurationHistogram
  [Decimal 1 (-6); Decimal 25 (-7); Decimal 5 (-6); Decimal 1 (-5); Decimal 25 (-6); Decimal 5 (-5); Decimal 1 (-4);
   Decimal 25 (-5); Decimal 5 (-4); Decimal 1 (-3); Decimal 25 (-4); Decimal 5 (-3); Decimal 1 (-2); Decimal 25 (-3);
   Decimal 5 (-2); Decimal 1 (-1); Decimal 25 (-2); Decimal 5 (-1); Decimal 1 0; Decimal 25 (-1); Decimal 5 0; Decimal 10 0]%Z.
Definition AsyncLatencyDurationHistogram : Type_ Duration := DurationHistogram
  [Decimal 1 (-3); Decimal 5 (-3); Decimal 1 (-2); Decimal 5 (-2); Decimal 1 (-1); Decimal 5 (-1); Decimal 1 0; Decimal 5 0;
   Decimal 20 0; Decimal 60 0; Decimal 300 0; Decimal 1800 0; Decimal 3600 0; Decimal 21600 0; Decimal 86400 0;
   Decimal 604800 0]%Z.

(** *** The registry

    The unique counters that are flushed, by the names of their metrics, with their frequencies. *)
Record registryState : Type := {
  PrometheusRegistry : Registry;
  tagFilter : TagFilter;
  flushables : list (string * Duration)
}.
Definition with_Prometheus (reg : registryState) (p : Registry) : registryState :=
  {| PrometheusRegistry := p; tagFilter := tagFilter reg; flushables := flushables reg |}.

Definition Register {Value} (reg : registryState) (name help : string) (ty : Type_ Value) (tagsType : structType) :
    outcome (Handle tags Value * registryState) :=
  '(handle, p) ← registerWith (PrometheusRegistry reg) (tagFilter reg) name help ty (NewReflectTags Sprint tagsType);
  Ret (handle, with_Prometheus reg p).

(** A unique counter has a gauge that is set when it is flushed. *)
Record UniqueHandle : Type := { metricName : string; uniqueTags : TagsDesc tags; uniqueVec : Vec }.
Definition RegisterFlushable (reg : registryState) (name help : string) (tagsType : structType) (frequency : Duration) :
    outcome (UniqueHandle * registryState) :=
  let reg := {| PrometheusRegistry := PrometheusRegistry reg; tagFilter := tagFilter reg;
                flushables := flushables reg ++ [(name, frequency)] |} in
  let tagsDesc := filteredTagDesc (NewReflectTags Sprint tagsType) (tagFilter reg) in
  let vec := NewVec Gauge name help [] (TagKeys tagsDesc) in
  p ← MustRegister (PrometheusRegistry reg) vec;
  Ret ({| metricName := name; uniqueTags := tagsDesc; uniqueVec := vec |}, with_Prometheus reg p).

(** The component of the registry: three collectors of the library, and the heartbeat. *)
Definition newRegistry (new : Registry) (filter : TagFilter) : outcome (Handle tags Float * registryState) :=
  Register {| PrometheusRegistry := new; tagFilter := filter; flushables := [] |}
    "heartbeat" "Number of seconds since process startup" FloatGauge Empty.
Definition heartbeat (handle : Handle tags Float) (startupTime now : Time) (w : W) : outcome W :=
  Metric.Emit handle (Seconds (time_Sub now startupTime)) empty w.

(** *** Emission *)
Record world : Type := { metrics : W; uniques : gmap string Unique.counterVec }.
Definition Emit {Value} (handle : Handle tags Value) (v : Value) (instance : tags) (w : world) : outcome world :=
  m ← Metric.Emit handle v instance (metrics w); Ret {| metrics := m; uniques := uniques w |}.

(** A counter for new tags makes its gauge first. *)
Definition EmitUnique (handle : UniqueHandle) (v : string) (instance : tags) (w : world) : outcome world :=
  tagValues ← TagValues (uniqueTags handle) instance;
  let ty := default Unique.NewCounterVec (uniques w !! metricName handle) in
  '() ← (match Unique.counters ty !! Strings.Join tagValues "|"%char with
    | Some _ => Ret ()
    | None => _ ← WithLabelValues (uniqueVec handle) tagValues; Ret ()
    end);
  Ret {| metrics := metrics w; uniques := <[metricName handle := Unique.Emit tagValues v ty]> (uniques w) |}.

(** What is sampled until the context is done. *)
Definition Repeating {Value} (handle : Handle tags Value) (instance : tags) (samples : list Value) (w : world) : outcome world :=
  tagged ← With handle instance;
  outcome_foldl (λ w v, m ← tagged v (metrics w); Ret {| metrics := m; uniques := uniques w |}) w samples.

End meter.
Arguments world W {_}.
End Meter.

(** ** Webhook (webhook/observer/metrics.go) *)
Module WebhookMeter.
Import Tags Metric Meter.

Definition UniqueRejectRateWindows : gmap string Duration := list_to_map
  [("30s", 30 * Second); ("5m", 300 * Second); ("15m", 900 * Second); ("1h", 3600 * Second); ("1d", 86400 * Second)]%Z.

Definition requestTags : structType := fieldsStruct ["Cell"; "Status"; "Cause"].
Definition httpErrorTags : structType := fieldsStruct ["Cell"; "Error"].
Definition PodInPprBaseTags : structType := fieldsStruct ["Rejected"].
Definition podInPprTags : structType := Struct [("PodCell", true, None); ("Namespace", true, None); ("User", true, None);
  ("RequestType", true, None); ("PodInPprBaseTags", true, Some PodInPprBaseTags)].

Record podInPprCtxValue : Type := {
  podStart : Time; namespace : string; user : string; pprName : string; podName : string; podCell : string; requestType : string
}.
Inductive entry : Type :=
| RequestCtx (cell : string) (startTime : Time)
| PodInPprCtx (v : podInPprCtxValue).
Definition requestCtxKey (e : entry) : option (string * Time) :=
  match e with RequestCtx cell startTime => Some (cell, startTime) | _ => None end.
Definition podInPprCtxKey (e : entry) : option podInPprCtxValue := match e with PodInPprCtx v => Some v | _ => None end.

(** What the observer reads of a request: its operation and subresource. *)
Record StartHandlePodInPpr : Type := {
  argNamespace : string; argPprName : string; argPodName : string; argPodCell : string; argRequestType : string;
  argDeleteUserName : string
}.

Section webhook.
Context {Float W : Type} `{!GoFloat Float, !Prometheus Float W, !Unique.HyperLogLog, !GoRuntime}.
Notation handle Value := (Handle (W := W) (value leaf) Value).
Notation world := (world W).

Record handles : Type := {
  requestHandle : handle Duration;
  httpErrorHandle : handle Z;
  podInPprHandle : handle Duration;
  handleUniquePprHandles : list UniqueHandle;
  handleUniquePodHandles : list UniqueHandle
}.

(** The body of the loop over the windows. *)
Definition registerWindow (acc : list UniqueHandle * list UniqueHandle * registryState) (window : string * Duration) :
    outcome (list UniqueHandle * list UniqueHandle * registryState) :=
  let '(pprHandles, podHandles, reg) := acc in
  let '(freqStr, freq) := window in
  '(ppr, reg) ← RegisterFlushable reg ("webhook_handle_unique_ppr_" +:+ freqStr)
    ("Number of unique PodProtectors handled every " +:+ freqStr +:+ ". Value is always 0 in the first " +:+ freqStr +:+ " after process restart.")
    PodInPprBaseTags freq;
  '(pod, reg) ← RegisterFlushable reg ("webhook_handle_unique_pod_" +:+ freqStr)
    ("Number of unique pods handled every " +:+ freqStr +:+ ". Value is always 0 in the first " +:+ freqStr +:+ " after process restart.")
    PodInPprBaseTags freq;
  Ret (pprHandles ++ [ppr], podHandles ++ [pod], reg).

Definition ProvideMetrics (reg : registryState) : outcome (handles * registryState) :=
  '(request, reg) ← Register reg "webhook_request" "Response latency of webhook server." FunctionDurationHistogram requestTags;
  '(httpError, reg) ← Register reg "webhook_http_error" "Number of error events during webhook processing." IntCounter httpErrorTags;
  '(podInPpr, reg) ← Register reg "webhook_handle_pod_in_ppr"
    "Duration of handling each matched PodProtector for a pod admission event." FunctionDurationHistogram podInPprTags;
  '(pprHandles, podHandles, reg) ← outcome_foldl registerWindow ([], [], reg) (map_order UniqueRejectRateWindows);
  Ret ({| requestHandle := request; httpErrorHandle := httpError; podInPprHandle := podInPpr;
          handleUniquePprHandles := pprHandles; handleUniquePodHandles := podHandles |}, reg).

Definition HttpRequest (now : Time) (cell : string) (ctx : list entry) : list entry := RequestCtx cell now :: ctx.

(** The cause by the operation and the subresource of the request, if there is one. *)
Definition cause (request : option (string * string)) : string :=
  match request with
  | Some (op, subres) =>
      if bool_decide (op = "DELETE") && bool_decide (subres = "") then "DeletePod"
      else if bool_decide (op = "CREATE") && bool_decide (subres = "eviction") then "EvictPod"
      else "Unknown"
  | None => "Unknown"
  end.
Definition HttpRequestComplete (h : handles) (now : Time) (ctx : list entry) (request : option (string * string)) (status : string)
    (w : world) : outcome world :=
  '(cell, startTime) ← MustValue requestCtxKey ctx;
  Emit (requestHandle h) (time_Sub now startTime) (strings [cell; status; cause request]) w.

Definition HttpError (h : handles) (ctx : list entry) (err : option error) (w : world) : outcome world :=
  '(cell, _) ← MustValue requestCtxKey ctx;
  Emit (httpErrorHandle h) 1%Z (strings [cell; SerializeTags err]) w.

(** The user name without the name of a node. *)
Definition userTag (user : string) : string := if String.prefix "system:node:" user then "system:node" else user.
Definition StartHandlePodInPpr_ (now : Time) (arg : StartHandlePodInPpr) (ctx : list entry) : list entry :=
  PodInPprCtx {| podStart := now; namespace := argNamespace arg; user := userTag (argDeleteUserName arg); pprName := argPprName arg;
    podName := argPodName arg; podCell := argPodCell arg; requestType := argRequestType arg |} :: ctx.

Definition baseTags (rejected : bool) : value leaf := StructValue [Leaf (Bool rejected)].
Definition EndHandlePodInPpr (h : handles) (now : Time) (ctx : list entry) (rejected : bool) (w : world) : outcome world :=
  v ← MustValue podInPprCtxKey ctx;
  w ← Emit (podInPprHandle h) (time_Sub now (podStart v))
    (StructValue [Leaf (Str (podCell v)); Leaf (Str (namespace v)); Leaf (Str (user v)); Leaf (Str (requestType v)); baseTags rejected]) w;
  w ← outcome_foldl (λ w handle, EmitUnique handle (namespace v +:+ "/" +:+ pprName v) (baseTags rejected) w) w (handleUniquePprHandles h);
  outcome_foldl (λ w handle, EmitUnique handle (namespace v +:+ "/" +:+ podName v) (baseTags rejected) w) w (handleUniquePodHandles h).

End webhook.
End WebhookMeter.

(** ** Aggregator (aggregator/observer/metrics.go) *)
Module AggregatorMeter.
Import Tags Metric Meter.

Definition reconcileTags : structType := fieldsStruct ["Namespace"; "Error"].
Definition enqueueTags : structType := fieldsStruct ["Namespace"; "Kind"].
Definition updateTriggerTags : structType := fieldsStruct ["Event"; "Error"].
Definition informerShardTags : structType := fieldsStruct ["Shard"].

Inductive entry : Type :=
| ReconcileStart (start : Time)
| NamespaceCtx (namespace : string)
| EnqueueCtx (kind : string) (start : Time).
Definition reconcileStartTime (e : entry) : option Time := match e with ReconcileStart start => Some start | _ => None end.
Definition namespaceCtxKey (e : entry) : option string := match e with NamespaceCtx ns => Some ns | _ => None end.
Definition enqueueCtxKey (e : entry) : option (string * Time) :=
  match e with EnqueueCtx kind start => Some (kind, start) | _ => None end.

Section aggregator.
Context {Float W : Type} `{!GoFloat Float, !Prometheus Float W, !Unique.HyperLogLog}.
Notation handle Value := (Handle (W := W) (value leaf) Value).
Notation world := (world W).

Record handles : Type := {
  reconcileHandle : handle Duration;
  enqueueHandle : handle Duration;
  indexErrorHandle : handle Z;
  nextEventPoolCurrentSizeHandle : handle Z;
  nextEventPoolCurrentLatencyHandle : handle Duration;
  nextEventPoolDrainSize : handle Z;
  nextEventPoolDrainPeriod : handle Duration;
  nextEventPoolDrainObjectLatency : handle Duration;
  updateTriggerHandle : handle Z
}.

Definition ProvideMetrics (reg : registryState) : outcome (handles * registryState) :=
  '(reconcile, reg) ← Register reg "aggregator_reconcile" "Duration of an aggregator reconcile run for a PodProtector."
    FunctionDurationHistogram reconcileTags;
  '(enqueue, reg) ← Register reg "aggregator_enqueue" "Duration of an aggregator pod informer event handler run."
    FunctionDurationHistogram enqueueTags;
  '(indexError, reg) ← Register reg "aggregator_index_error" "Number of error events during pod informer event handling."
    IntCounter reconcileTags;
  '(currentSize, reg) ← Register reg "aggregator_next_event_pool_current_size"
    "Current size of the aggregator NextEventPool (during sample)." IntGauge informerShardTags;
  '(currentLatency, reg) ← Register reg "aggregator_next_event_pool_current_latency"
    "Time since the oldest current object in the NextEventPool (during sample)." DurationGauge informerShardTags;
  '(drainSize, reg) ← Register reg "aggregator_next_event_pool_drain_count"
    "Number of items in NextEventPool each time it is drained." (ExponentialIntHistogram IntToFloat64 16) Empty;
  '(drainPeriod, reg) ← Register reg "aggregator_next_event_pool_drain_period" "Period between NextEventPool drains."
    AsyncLatencyDurationHistogram Empty;
  '(drainObjectLatency, reg) ← Register reg "aggregator_next_event_pool_drain_object_latency"
    "Time since the oldest object in NextEventPool during each drain." AsyncLatencyDurationHistogram Empty;
  '(updateTrigger, reg) ← Register reg "aggregator_update_trigger_spin" "A spin of aggregator update-trigger controller"
    IntCounter updateTriggerTags;
  Ret ({| reconcileHandle := reconcile; enqueueHandle := enqueue; indexErrorHandle := indexError;
          nextEventPoolCurrentSizeHandle := currentSize; nextEventPoolCurrentLatencyHandle := currentLatency;
          nextEventPoolDrainSize := drainSize; nextEventPoolDrainPeriod := drainPeriod;
          nextEventPoolDrainObjectLatency := drainObjectLatency; updateTriggerHandle := updateTrigger |}, reg).

Definition StartReconcile (now : Time) (namespace : string) (ctx : list entry) : list entry :=
  NamespaceCtx namespace :: ReconcileStart now :: ctx.
Definition EndReconcile (h : handles) (now : Time) (ctx : list entry) (err : option error) (w : world) : outcome world :=
  start ← MustValue reconcileStartTime ctx;
  namespace ← MustValue namespaceCtxKey ctx;
  Emit (reconcileHandle h) (time_Sub now start) (strings [namespace; SerializeTags err]) w.

Definition StartEnqueue (now : Time) (namespace kind : string) (ctx : list entry) : list entry :=
  NamespaceCtx namespace :: EnqueueCtx kind now :: ctx.
Definition EndEnqueue (h : handles) (now : Time) (ctx : list entry) (w : world) : outcome world :=
  '(kind, start) ← MustValue enqueueCtxKey ctx;
  namespace ← MustValue namespaceCtxKey ctx;
  Emit (enqueueHandle h) (time_Sub now start) (strings [namespace; kind]) w.
Definition EnqueueError (h : handles) (ctx : list entry) (err : option error) (w : world) : outcome world :=
  namespace ← MustValue namespaceCtxKey ctx;
  Emit (indexErrorHandle h) 1%Z (strings [namespace; SerializeTags err]) w.

Definition shard (shardNumber : Z) : value leaf := StructValue [Leaf (Int shardNumber)].
Definition NextEventPoolCurrentSize (h : handles) (shardNumber : Z) (samples : list Z) (w : world) : outcome world :=
  Repeating (nextEventPoolCurrentSizeHandle h) (shard shardNumber) samples w.
Definition NextEventPoolCurrentLatency (h : handles) (shardNumber : Z) (samples : list Duration) (w : world) : outcome world :=
  Repeating (nextEventPoolCurrentLatencyHandle h) (shard shardNumber) samples w.
Definition NextEventPoolSingleDrain (h : handles) (size : Z) (timeSinceLastDrain : option Duration) (objectLatency : Duration)
    (w : world) : outcome world :=
  w ← Emit (nextEventPoolDrainSize h) size empty w;
  w ← Emit (nextEventPoolDrainObjectLatency h) objectLatency empty w;
  match timeSinceLastDrain with
  | Some timeSinceLastDrain => Emit (nextEventPoolDrainPeriod h) timeSinceLastDrain empty w
  | None => Ret w
  end.

Definition TriggerPodCreate (h : handles) (err : option error) (w : world) : outcome world :=
  Emit (updateTriggerHandle h) 1%Z (strings ["create"; SerializeTags err]) w.
Definition TriggerPodUpdate (h : handles) (err : option error) (w : world) : outcome world :=
  Emit (updateTriggerHandle h) 1%Z (strings ["update"; SerializeTags err]) w.

End aggregator.
End AggregatorMeter.

(** ** Retry batches (util/retrybatch/observer/metrics.go) *)
Module RetrybatchMeter.
Import Tags Metric Meter.

Definition submitTags : structType := fieldsStruct ["Pool"; "Error"].
Definition batchTags : structType := fieldsStruct ["Pool"].
Definition executeTags : structType := fieldsStruct ["Pool"; "Result"; "Error"].
Definition poolTags : structType := fieldsStruct ["Pool"].

Inductive entry : Type :=
| SubmitData (startTime : Time) (poolName : string)
| BatchData (startTime : Time) (poolName : string)
| ExecuteData (startTime : Time) (poolName : string) (batchSize : Z).
Definition submitDataKey (e : entry) : option (Time * string) := match e with SubmitData t p => Some (t, p) | _ => None end.
Definition batchDataKey (e : entry) : option (Time * string) := match e with BatchData t p => Some (t, p) | _ => None end.
Definition executeDataKey (e : entry) : option (Time * string * Z) :=
  match e with ExecuteData t p n => Some (t, p, n) | _ => None end.

Section retrybatch.
Context {Float W : Type} `{!GoFloat Float, !Prometheus Float W, !Unique.HyperLogLog}.
Notation handle Value := (Handle (W := W) (value leaf) Value).
Notation world := (world W).

Record handles : Type := {
  submitHandle : handle Duration;
  submitRetryCountHandle : handle Z;
  batchHandle : handle Duration;
  batchRetryCountHandle : handle Z;
  executeHandle : handle Duration;
  executeBatchSizeHandle : handle Z;
  inFlightKeysHandle : handle Z
}.

Definition ProvideMetrics (reg : registryState) : outcome (handles * registryState) :=
  '(submit, reg) ← Register reg "retrybatch_submit" "Duration of a retrybatch submission." FunctionDurationHistogram submitTags;
  '(submitRetry, reg) ← Register reg "retrybatch_submit_retry_count" "Number of times each retrybatch submission is retried."
    (ExponentialIntHistogram IntToFloat64 5) submitTags;
  '(batch, reg) ← Register reg "retrybatch_batch" "Duration of a retrybatch batch." FunctionDurationHistogram batchTags;
  '(batchRetry, reg) ← Register reg "retrybatch_batch_retry_count" "Number of times each retrybatch batch is retried."
    (ExponentialIntHistogram IntToFloat64 5) batchTags;
  '(execute, reg) ← Register reg "retrybatch_execute" "Duration of a retrybatch execution." FunctionDurationHistogram executeTags;
  '(batchSize, reg) ← Register reg "retrybatch_execute_batch_size" "Number of batched items in a retrybatch execution."
    (ExponentialIntHistogram IntToFloat64 16) executeTags;
  '(inFlight, reg) ← Register reg "retrybatch_inflight_keys" "Number of keys currently waiting for retries." IntGauge poolTags;
  Ret ({| submitHandle := submit; submitRetryCountHandle := submitRetry; batchHandle := batch; batchRetryCountHandle := batchRetry;
          executeHandle := execute; executeBatchSizeHandle := batchSize; inFlightKeysHandle := inFlight |}, reg).

Definition StartSubmit (now : Time) (poolName : string) (ctx : list entry) : list entry := SubmitData now poolName :: ctx.
Definition EndSubmit (h : handles) (now : Time) (ctx : list entry) (err : option error) (retryCount : Z) (w : world) : outcome world :=
  '(startTime, poolName) ← MustValue submitDataKey ctx;
  let tags := strings [poolName; SerializeTags err] in
  w ← Emit (submitHandle h) (time_Sub now startTime) tags w;
  Emit (submitRetryCountHandle h) retryCount tags w.

Definition StartBatch (now : Time) (poolName : string) (ctx : list entry) : list entry := BatchData now poolName :: ctx.
Definition EndBatch (h : handles) (now : Time) (ctx : list entry) (retryCount : Z) (w : world) : outcome world :=
  '(startTime, poolName) ← MustValue batchDataKey ctx;
  let tags := strings [poolName] in
  w ← Emit (batchHandle h) (time_Sub now startTime) tags w;
  Emit (batchRetryCountHandle h) retryCount tags w.

Definition StartExecute (now : Time) (poolName : string) (batchSize : Z) (ctx : list entry) : list entry :=
  ExecuteData now poolName batchSize :: ctx.
Definition EndExecute (h : handles) (now : Time) (ctx : list entry) (variant : string) (err : option error) (w : world) : outcome world :=
  '(startTime, poolName, batchSize) ← MustValue executeDataKey ctx;
  let tags := strings [poolName; variant; SerializeTags err] in
  w ← Emit (executeHandle h) (time_Sub now startTime) tags w;
  Emit (executeBatchSizeHandle h) batchSize tags w.

Definition InFlightKeys (h : handles) (poolName : string) (samples : list Z) (w : world) : outcome world :=
  Repeating (inFlightKeysHandle h) (strings [poolName]) samples w.

End retrybatch.
End RetrybatchMeter.

(** ** Generator (generator/observer/metrics.go) *)
Module GeneratorMeter.
Import Tags Metric Meter Monitor.

Definition ReconcileTags : structType := fieldsStruct ["Group"; "Version"; "Resource"; "Namespace"].
Definition reconcileTags : structType := Struct [("ReconcileTags", true, Some ReconcileTags); ("Error", true, None)].
Definition actionTag : structType := Struct [("ReconcileTags", true, Some ReconcileTags); ("Action", true, None)].

Record reconcileGvr : Type := { Group : string; Version : string; Resource : string; Namespace : string }.
Inductive entry : Type := Gvr (tags : reconcileGvr) | ReconcileStart (start : Time).
Definition reconcileGvrKey (e : entry) : option reconcileGvr := match e with Gvr tags => Some tags | _ => None end.
Definition reconcileStartTime (e : entry) : option Time := match e with ReconcileStart start => Some start | _ => None end.

Definition gvrTags (tags : reconcileGvr) : value leaf := strings [Group tags; Version tags; Resource tags; Namespace tags].

Section generator.
Context {Float W : Type} `{!GoFloat Float, !Prometheus Float W, !Unique.HyperLogLog}.
Notation handle Value := (Handle (W := W) (value leaf) Value).
Notation world := (world W).

Definition quotient (a b : Z) : Float := float_div (IntToFloat64 a) (IntToFloat64 b).

(** The metrics of one kind of pods. *)
Definition appendCountFields (fields : list (AnyField MonitorWorkloads)) (name : string) (field : MonitorWorkloads → StatusCount) :
    list (AnyField MonitorWorkloads) :=
  fields ++ [
    NewField ("num_" +:+ name +:+ "_workloads")
      ("Number of workload objects managed by this generator with number of " +:+ name +:+ " pods >= minAvailable.")
      IntGauge (λ status, MeetsMinAvailable (field status));
    NewField ("proportion_" +:+ name +:+ "_workloads")
      ("Proportion of workload objects managed by this generator with number of " +:+ name +:+ " pods >= minAvailable.")
      FloatGauge (λ status, quotient (MeetsMinAvailable (field status)) (NumWorkloads status));
    NewField ("current_aggregated_" +:+ name +:+ "_pods")
      ("Current aggregated sum of " +:+ name +:+ " replicas in workloads managed by this generator.")
      Int64Gauge (λ status, AggregatedReplicas (field status));
    NewField ("proportion_" +:+ name +:+ "_pods")
      ("Ratio of the number of " +:+ name +:+ " pods managed by this generator relative to the sum of minAvailable.")
      FloatGauge (λ status, quotient (AggregatedReplicas (field status)) (SumMinAvailable status));
    NewField ("sum_" +:+ name +:+ "_proportion")
      ("Sum of the proportion of " +:+ name +:+ " replicas, saturated at 1 for each non-zero workload, rounded to nearest ppm (parts-per-million).")
      FloatGauge (λ status, quotient (SumProportionPpm (field status)) ProportionPpmUnits);
    NewField ("avg_" +:+ name +:+ "_proportion_ppm")
      ("Sum of the proportion of " +:+ name +:+ " replicas, saturated at 1 for each non-zero workload, rounded to nearest ppm (parts-per-million).")
      FloatGauge (λ status, float_div (quotient (SumProportionPpm (field status)) (NumNonZeroWorkloads status)) (IntToFloat64 ProportionPpmUnits))].

Definition monitorFields : list (AnyField MonitorWorkloads) :=
  let fields := [
    NewField "num_workloads" "Number of workload objects managed by this generator" IntGauge NumWorkloads;
    NewField "num_non_zero_workloads" "Number of workload objects managed by this generator with non-zero minAvailable" IntGauge
      NumNonZeroWorkloads;
    NewField "min_available" "Sum of minAvailable over workloads managed by this generator" Int64Gauge SumMinAvailable;
    NewField "current_estimated_available_replicas"
      "Current estimated sum of available replicas over workloads managed by this generator." Int64Gauge EstimatedAvailableReplicas;
    NewField "sum_latency_millis"
      "Sum of the .status.summary.maxLatencyMillis field over workloads managed by this generator." Int64Gauge SumLatencyMillis;
    NewField "total_outstanding_history" "Number of non-compacted admission history over all clusters" Int64Gauge
      (λ status, wrap64 (AggregatedReplicas (Available status) - EstimatedAvailableReplicas status))] in
  let fields := appendCountFields fields "created" Created in
  let fields := appendCountFields fields "available" Available in
  let fields := appendCountFields fields "ready" Ready in
  let fields := appendCountFields fields "scheduled" Scheduled in
  appendCountFields fields "running" Running.

Definition makeMonitorWorkloadsHandle (reg : registryState) : outcome (handle MonitorWorkloads * registryState) :=
  '(handle, p) ← RegisterMultiField (PrometheusRegistry reg) (tagFilter reg) "generator_monitor_workloads" "Global workload status"
    (NewReflectTags Sprint Empty) monitorFields;
  Ret (handle, with_Prometheus reg p).

Record handles : Type := {
  reconcileHandle : handle Duration;
  actionTypeHandle : handle Z;
  monitorWorkloadsHandle : handle MonitorWorkloads
}.

Definition ProvideMetrics (reg : registryState) : outcome (handles * registryState) :=
  '(reconcile, reg) ← Register reg "generator_reconcile" "Duration of generator reconcile runs." FunctionDurationHistogram reconcileTags;
  '(actionType, reg) ← Register reg "generator_action" "Number of generator reconcile runs by action." IntCounter actionTag;
  '(monitor, reg) ← makeMonitorWorkloadsHandle reg;
  Ret ({| reconcileHandle := reconcile; actionTypeHandle := actionType; monitorWorkloadsHandle := monitor |}, reg).

Definition emitActionOf (h : handles) (gvr : reconcileGvr) (action : string) (w : world) : outcome world :=
  Emit (actionTypeHandle h) 1%Z (StructValue [gvrTags gvr; Leaf (Str action)]) w.
Definition emitAction (h : handles) (ctx : list entry) (action : string) (w : world) : outcome world :=
  gvr ← MustValue reconcileGvrKey ctx; emitActionOf h gvr action w.

Definition StartReconcile (now : Time) (arg : reconcileGvr) (ctx : list entry) : list entry := ReconcileStart now :: Gvr arg :: ctx.
Definition EndReconcile (h : handles) (now : Time) (ctx : list entry) (err : option error) (w : world) : outcome world :=
  start ← MustValue reconcileStartTime ctx;
  gvr ← MustValue reconcileGvrKey ctx;
  Emit (reconcileHandle h) (time_Sub now start) (StructValue [gvrTags gvr; Leaf (Str (SerializeTags err))]) w.

Definition DanglingProtector (h : handles) (ctx : list entry) (ppr : PodProtector) (w : world) : outcome world :=
  if IsZeroPtr (DeletionTimestamp (pprMeta ppr)) then emitAction h ctx "Dangling" w else emitAction h ctx "Finalizing" w.
Definition CreateProtector (h : handles) (ctx : list entry) (w : world) : outcome world := emitAction h ctx "Create" w.
Definition SyncProtector (h : handles) (ctx : list entry) (w : world) : outcome world := emitAction h ctx "Sync" w.
Definition DeleteProtector (h : handles) (ctx : list entry) (w : world) : outcome world := emitAction h ctx "Delete" w.
Definition CleanSourceFinalizer (h : handles) (arg : reconcileGvr) (w : world) : outcome world :=
  emitActionOf h arg "CleanSourceFinalizer" w.
Definition MonitorWorkloads_ (h : handles) (samples : list MonitorWorkloads) (w : world) : outcome world :=
  Repeating (monitorWorkloadsHandle h) empty samples w.

End generator.
End GeneratorMeter.

(** ** Workers (util/worker/observer/metrics.go) *)
Module WorkerMeter.
Import Tags Metric Meter.

Definition reconcileTags : structType := fieldsStruct ["Worker"; "Error"].
Definition queueLengthTags : structType := fieldsStruct ["Worker"].
Record workerData : Type := { startTime : Time; workerName : string }.

Section worker.
Context {Float W : Type} `{!GoFloat Float, !Prometheus Float W, !Unique.HyperLogLog}.
Notation handle Value := (Handle (W := W) (value leaf) Value).
Notation world := (world W).

Record handles : Type := { reconcileHandle : handle Duration; queueLengthHandle : handle Z }.
Definition ProvideMetrics (reg : registryState) : outcome (handles * registryState) :=
  '(reconcile, reg) ← Register reg "worker_reconcile" "Duration of a worker reconcile run." FunctionDurationHistogram reconcileTags;
  '(queueLength, reg) ← Register reg "worker_queue_length" "Queue length of a worker." IntGauge queueLengthTags;
  Ret ({| reconcileHandle := reconcile; queueLengthHandle := queueLength |}, reg).

Definition StartReconcile (now : Time) (name : string) (ctx : list workerData) : list workerData :=
  {| startTime := now; workerName := name |} :: ctx.
Definition EndReconcile (h : handles) (now : Time) (ctx : list workerData) (err : option error) (w : world) : outcome world :=
  data ← MustValue Some ctx;
  Emit (reconcileHandle h) (time_Sub now (startTime data)) (strings [workerName data; SerializeTags err]) w.
Definition QueueLength (h : handles) (name : string) (samples : list Z) (w : world) : outcome world :=
  Repeating (queueLengthHandle h) (strings [name]) samples w.

End worker.
End WorkerMeter.

(** ** The informer of PodProtectors (util/podprotector/observer/metrics.go) *)
Module InformerMeter.
Import Tags Metric Meter.

Definition informerEventTags : structType := Empty.
Definition informerEventErrorTags : structType := fieldsStruct ["Error"].
Definition sourceListEventErrorTags : structType := fieldsStruct ["Error"].

Section informer.
Context {Float W : Type} `{!GoFloat Float, !Prometheus Float W, !Unique.HyperLogLog}.
Notation handle Value := (Handle (W := W) (value leaf) Value).
Notation world := (world W).

Record handles : Type := {
  informerEventHandle : handle Duration;
  indexErrorHandle : handle Z;
  sourceListLengthHandle : handle Z;
  sourceListErrorHandle : handle Z
}.
Definition ProvideInformerMetrics (reg : registryState) : outcome (handles * registryState) :=
  '(informerEvent, reg) ← Register reg "ppr_enqueue" "Informer event handler for PodProtector, including SetTrie maintenance."
    FunctionDurationHistogram informerEventTags;
  '(indexError, reg) ← Register reg "ppr_index_error" "Error events during PodProtector informer event handling." IntCounter
    informerEventErrorTags;
  '(sourceListLength, reg) ← Register reg "ppr_source_list_length" "Number of PodProtector source clusters" IntGauge Empty;
  '(sourceListError, reg) ← Register reg "ppr_source_list_error" "Error events from watching SourceProvider" IntCounter
    sourceListEventErrorTags;
  Ret ({| informerEventHandle := informerEvent; indexErrorHandle := indexError; sourceListLengthHandle := sourceListLength;
          sourceListErrorHandle := sourceListError |}, reg).

(** The context has start times only. *)
Definition StartHandleEvent (now : Time) (ctx : list Time) : list Time := now :: ctx.
Definition EndHandleEvent (h : handles) (now : Time) (ctx : list Time) (w : world) : outcome world :=
  start ← MustValue Some ctx; Emit (informerEventHandle h) (time_Sub now start) empty w.
Definition HandleEventError (h : handles) (err : option error) (w : world) : outcome world :=
  Emit (indexErrorHandle h) 1%Z (strings [SerializeTags err]) w.
Definition UpdateSourceList (h : handles) (newLength : Z) (w : world) : outcome world :=
  Emit (sourceListLengthHandle h) newLength empty w.
Definition UpdateSourceListError (h : handles) (err : option error) (w : world) : outcome world :=
  Emit (sourceListErrorHandle h) 1%Z (strings [SerializeTags err]) w.

End informer.
End InformerMeter.

(** ** Health checks (util/healthz/observer/metrics.go) *)
Module HealthzMeter.
Import Tags Metric Meter.

Definition healthzFailureTags : structType := fieldsStruct ["Check"; "Error"].

Section healthz.
Context {Float W : Type} `{!GoFloat Float, !Prometheus Float W, !Unique.HyperLogLog}.
Definition ProvideMetrics (reg : registryState) : outcome (Handle (W := W) (value leaf) Z * registryState) :=
  Register reg "healthck_failure" "Health check endpoint returned an error." IntCounter healthzFailureTags.
Definition CheckFailed (failureHandle : Handle (W := W) (value leaf) Z) (checkName : string) (err : option error) (w : world W) :
    outcome (world W) :=
  Emit failureHandle 1%Z (strings [checkName; SerializeTags err]) w.
End healthz.
End HealthzMeter.

(** ** Leader election (util/kube/observer/leaderelection_metrics.go) *)
Module ElectorMeter.
Import Tags Metric Meter.

Definition leaderEventTags : structType := fieldsStruct ["ClusterClass"; "ElectorName"; "Identity"; "Event"].
Definition leaderTags : structType := fieldsStruct ["ClusterClass"; "ElectorName"; "Identity"].
Record ElectorObserverArg : Type := { ClusterName : string; ElectorName : string; Identity : string }.

Section elector.
Context {Float W : Type} `{!GoFloat Float, !Prometheus Float W, !Unique.HyperLogLog}.
Notation handle Value := (Handle (W := W) (value leaf) Value).
Notation world := (world W).

Record handles : Type := { eventHandle : handle Z; heartbeatHandle : handle Float }.
Definition ProvideElectorMetrics (reg : registryState) : outcome (handles * registryState) :=
  '(event, reg) ← Register reg "leader_event" "" IntCounter leaderEventTags;
  '(heartbeat, reg) ← Register reg "leader_heartbeat"
    "Time since leader lease acquisition, only emitted by the active leader." FloatGauge leaderTags;
  Ret ({| eventHandle := event; heartbeatHandle := heartbeat |}, reg).

(** The context has the times of acquisition. *)
Definition Acquired (h : handles) (now : Time) (ctx : list Time) (arg : ElectorObserverArg) (w : world) : outcome (list Time * world) :=
  w ← Emit (eventHandle h) 1%Z (strings [ClusterName arg; ElectorName arg; Identity arg; "acquired"]) w;
  Ret (now :: ctx, w).
Definition Lost (h : handles) (arg : ElectorObserverArg) (w : world) : outcome world :=
  Emit (eventHandle h) 1%Z (strings [ClusterName arg; ElectorName arg; Identity arg; "lost"]) w.
Definition Heartbeat (h : handles) (now : Time) (ctx : list Time) (arg : ElectorObserverArg) (w : world) : outcome world :=
  acquireTime ← MustValue Some ctx;
  Emit (heartbeatHandle h) (Seconds (time_Sub now acquireTime)) (strings [ClusterName arg; ElectorName arg; Identity arg]) w.

End elector.
End ElectorMeter.

(** ** Clients (util/kube/metrics) *)
Module KubeMeter.
Import Metric Meter.

Section kube.
Context {Float W : Type} `{!GoFloat Float, !Prometheus Float W}.

Definition latencyBuckets : list Float :=
  [Decimal 5 (-3); Decimal 25 (-3); Decimal 1 (-1); Decimal 25 (-2); Decimal 5 (-1); Decimal 1 0; Decimal 2 0; Decimal 4 0;
   Decimal 8 0; Decimal 15 0; Decimal 30 0; Decimal 60 0]%Z.
Definition sizeBuckets : list Float :=
  (λ z, Decimal z 0) <$> [64; 256; 512; 1024; 4096; 16384; 65536; 262144; 1048576; 4194304; 16777216]%Z.

Definition requestLatency : Vec := NewVec Histogram "kube_client_request_duration_seconds"
  "Request latency in seconds. Broken down by verb, and host." latencyBuckets ["verb"; "host"].
Definition resolverLatency : Vec := NewVec Histogram "kube_client_dns_resolution_duration_seconds"
  "DNS resolver latency in seconds. Broken down by host." (take 11 latencyBuckets) ["host"].
Definition requestSize : Vec := NewVec Histogram "kube_client_request_size_bytes"
  "Request size in bytes. Broken down by verb and host." sizeBuckets ["verb"; "host"].
Definition responseSize : Vec := NewVec Histogram "kube_client_response_size_bytes"
  "Response size in bytes. Broken down by verb and host." sizeBuckets ["verb"; "host"].
Definition rateLimiterLatency : Vec := NewVec Histogram "kube_client_rate_limiter_duration_seconds"
  "Client side rate limiter latency in seconds. Broken down by verb, and host." latencyBuckets ["verb"; "host"].
Definition requestResult : Vec := NewVec Counter "kube_client_requests_total"
  "Number of HTTP requests, partitioned by status code, method, and host." [] ["code"; "method"; "host"].
Definition requestRetry : Vec := NewVec Counter "kube_client_request_retries_total"
  "Number of request retries, partitioned by status code, verb, and host." [] ["code"; "verb"; "host"].
(** A metric without labels. *)
Definition transportCacheEntries : Vec := NewVec Gauge "kube_client_transport_cache_entries"
  "Number of transport entries in the internal cache." [] [].
Definition transportCacheCalls : Vec := NewVec Counter "kube_client_transport_create_calls_total"
  "Number of calls to get a new transport, partitioned by the result of the operation hit: obtained from the cache, miss: created and added to the cache, uncacheable: created and not cached"
  [] ["result"].

Definition RegisterForPrometheus (registry : Registry) : outcome Registry :=
  outcome_foldl MustRegister registry [requestLatency; requestSize; responseSize; rateLimiterLatency; requestResult; requestRetry;
    transportCacheEntries; transportCacheCalls].

(** What client-go calls. *)
Inductive call : Type :=
| RequestLatency (verb host : string) (latency : Duration)
| ResolverLatency (host : string) (latency : Duration)
| RequestSize (verb host : string) (size : Float)
| ResponseSize (verb host : string) (size : Float)
| RateLimiterLatency (verb host : string) (latency : Duration)
| RequestResult (code method host : string)
| RequestRetry (code method host : string)
| TransportCacheEntries (value : Z)
| TransportCreateCalls (result : string).

(** The adapter that is registered for a call, by its metric, labels and value. *)
Definition adapter (c : call) : kind * Vec * list string * Float :=
  match c with
  | RequestLatency verb host latency => (Histogram, requestLatency, [verb; host], Seconds latency)
  | ResolverLatency host latency => (Histogram, resolverLatency, [host], Seconds latency)
  | RequestSize verb host size => (Histogram, requestSize, [verb; host], size)
  | ResponseSize verb host size => (Histogram, responseSize, [verb; host], size)
  | RateLimiterLatency verb host latency => (Histogram, rateLimiterLatency, [verb; host], Seconds latency)
  | RequestResult code method host => (Counter, requestResult, [code; method; host], IntToFloat64 1)
  | RequestRetry code method host => (Counter, requestRetry, [code; method; host], IntToFloat64 1)
  | TransportCacheEntries value => (Gauge, transportCacheEntries, [], IntToFloat64 value)
  | TransportCreateCalls result => (Counter, transportCacheCalls, [result], IntToFloat64 1)
  end.
Definition observe (c : call) (w : W) : outcome W :=
  let '(k, vec, labels, x) := adapter c in
  series ← WithLabelValues vec labels; Ret (Update k series x w).

End kube.
End KubeMeter.

(** ** The metrics of a process

    The components that have the registry, and its state, which they share. *)
Module Startup.
Import Tags Metric Meter.

Section startup.
Context {Float W : Type} `{!GoFloat Float, !Prometheus Float W, !Unique.HyperLogLog, !GoRuntime}.

Definition discard {A} (o : outcome (A * registryState)) : outcome registryState := '(_, reg) ← o; Ret reg.
Definition ProvideMetrics (o : Wiring.observed) (reg : registryState) : outcome registryState :=
  match o with
  | Wiring.ObsWebhook => discard (WebhookMeter.ProvideMetrics reg)
  | Wiring.ObsAggregator => discard (AggregatorMeter.ProvideMetrics reg)
  | Wiring.ObsGenerator => discard (GeneratorMeter.ProvideMetrics reg)
  | Wiring.ObsRetrybatch => discard (RetrybatchMeter.ProvideMetrics reg)
  | Wiring.ObsWorker => discard (WorkerMeter.ProvideMetrics reg)
  | Wiring.ObsInformer => discard (InformerMeter.ProvideInformerMetrics reg)
  | Wiring.ObsHealthz => discard (HealthzMeter.ProvideMetrics reg)
  | Wiring.ObsElector => discard (ElectorMeter.ProvideElectorMetrics reg)
  end.

(** A registry that is not initialized is a nil pointer. *)
Definition MustRegistry (reg : option registryState) : outcome registryState :=
  match reg with Some reg => Ret reg | None => Panic "invalid memory address or nil pointer dereference" end.

(** [Init] of the components that register metrics; [new] is a registry with the collectors of the library. *)
Definition Init (new : Registry) (filter : TagFilter) (reg : option registryState) (d : Wiring.declared) : outcome (option registryState) :=
  match d with
  | Wiring.Registry => '(_, reg) ← newRegistry new filter; Ret (Some reg)
  | Wiring.KubeMetrics =>
      reg ← MustRegistry reg;
      p ← KubeMeter.RegisterForPrometheus (PrometheusRegistry reg);
      Ret (Some (with_Prometheus reg p))
  | Wiring.Observer o impls =>
      outcome_foldl (λ reg impl, match impl with
        | Wiring.Metrics => reg ← MustRegistry reg; reg ← ProvideMetrics o reg; Ret (Some reg)
        | Wiring.Logging => Ret reg
        end) reg impls
  | _ => Ret reg
  end.

(** The loop of [tryRun] over the components that are left. *)
Definition initAll (cm : gmap string (option (Component.componentMapEntry (Decl := Wiring.declared)))) (new : Registry) (filter : TagFilter)
    (components : list string) : outcome (option registryState) :=
  outcome_foldl (λ reg name, match Wiring.instance_of cm name with
    | Some d => Init new filter reg d
    | None => Ret reg
    end) None components.

End startup.
End Startup.
