(* ===== verification/MetersCorrect.v ===== *)
(** * MetersCorrect: what the metrics of the components guarantee

    A registry of Prometheus panics when a name is registered twice or a descriptor is not valid, so that a process with two
    metrics of one name does not start. The metrics of every process have names of their own; and what the webhook measures
    of a request is what happened to it. *)

From Stdlib Require Import Ascii.
From S2P Require Import Prelude Util Errors Api Flags Metrics Monitor Component ComponentCorrect Wiring Meters.

(** ** The registry *)

Definition is_label_start (c : ascii) : bool :=
  let n := nat_of_ascii c in (65 <=? n) && (n <=? 90) || (97 <=? n) && (n <=? 122) || (n =? 95).
Definition is_label_char (c : ascii) : bool :=
  let n := nat_of_ascii c in is_label_start c || (48 <=? n) && (n <=? 57).
Definition valid_name (name : string) : bool :=
  match String.list_ascii_of_string name with [] => false | c :: cs => is_label_start c && forallb is_label_char cs end.

(** Names of metrics and labels are identifiers, no label is used twice, names with two underscores in front are reserved,
    and histograms have a label of their own. *)
Definition descriptor_ok (k : Metric.kind) (name : string) (keys : list string) : bool :=
  valid_name name && forallb (λ key, valid_name key && negb (String.prefix "__" key)) keys && bool_decide (NoDup keys) &&
  match k with Metric.Histogram => negb (bool_decide ("le" ∈ keys)) | _ => true end.

(** The documented behaviour of the library. *)
Class PrometheusLaws {Float W : Type} `{!Metric.Prometheus Float W} : Type := {
  registered : Metric.Registry → gset string;
  MustRegister_new : ∀ reg k name help b keys, name ∉ registered reg → descriptor_ok k name keys = true →
    ∃ reg', Metric.MustRegister reg (Metric.NewVec k name help b keys) = Ret reg' ∧ registered reg' = {[ name ]} ∪ registered reg;
  WithLabelValues_ret : ∀ k name help b keys vs, length vs = length keys →
    is_ret (Metric.WithLabelValues (Metric.NewVec k name help b keys) vs) = true
}.
Arguments PrometheusLaws Float W {_}.

(** ** Lemmas: registration *)
Section registration.
Import Tags Metric Meter.
Context {Float W : Type} `{!GoFloat Float, !Prometheus Float W, !PrometheusLaws Float W, !Unique.HyperLogLog}.
Implicit Types (reg : registryState) (names : list string).

Definition names_in reg : gset string := registered (PrometheusRegistry reg).
Definition fresh_names names reg : Prop := NoDup names ∧ ∀ name, name ∈ names → name ∉ names_in reg.

(** A program that registers metrics of some names. *)
Definition registers {A} (prog : registryState → outcome (A * registryState)) names : Prop :=
  ∀ reg, fresh_names names reg →
    ∃ a reg', prog reg = Ret (a, reg') ∧ names_in reg' = list_to_set names ∪ names_in reg ∧ tagFilter reg' = tagFilter reg.

Lemma fresh_names_app names1 names2 reg reg' :
  fresh_names (names1 ++ names2) reg → names_in reg' = list_to_set names1 ∪ names_in reg →
  fresh_names names1 reg ∧ fresh_names names2 reg'.
Proof.
  intros [(H1 & H12 & H2)%NoDup_app Hn] Hin. split; split; try done; intros name Hname.
  - apply Hn. set_solver.
  - rewrite Hin, not_elem_of_union, elem_of_list_to_set. split; [|apply Hn; set_solver]. intros ?. by apply (H12 name).
Qed.

Lemma registers_ret {A} (a : A) : registers (λ reg, Ret (a, reg)) [].
Proof. intros reg _. exists a, reg. split; [done|]. split; [set_solver|done]. Qed.

Lemma registers_bind {A B} (p : registryState → outcome (A * registryState)) (k : A → registryState → outcome (B * registryState))
    names1 names2 :
  registers p names1 → (∀ a, registers (k a) names2) →
  registers (λ reg, '(a, reg) ← p reg; k a reg) (names1 ++ names2).
Proof.
  intros Hp Hk reg Hf. assert (Hf1 : fresh_names names1 reg).
  { destruct Hf as [(? & _)%NoDup_app Hn]. split; [done|]. intros name ?. apply Hn. set_solver. }
  destruct (Hp reg Hf1) as (a & reg1 & Hrun & Hin & Hfil). destruct (fresh_names_app _ _ _ _ Hf Hin) as [_ Hf2].
  destruct (Hk a reg1 Hf2) as (b & reg2 & Hrun2 & Hin2 & Hfil2). exists b, reg2. rewrite Hrun. cbn [mbind outcome_bind].
  split; [done|]. split; [rewrite Hin2, Hin, list_to_set_app_L; set_solver|congruence].
Qed.

Lemma registers_perm {A} (p : registryState → outcome (A * registryState)) names names' :
  names ≡ₚ names' → registers p names → registers p names'.
Proof.
  intros Hperm Hp reg [Hnd Hf]. destruct (Hp reg) as (a & reg' & Hrun & Hin & Hfil).
  { split; [by rewrite Hperm|]. intros name. rewrite Hperm. apply Hf. }
  exists a, reg'. split; [done|]. split; [|done]. rewrite Hin. by rewrite (list_to_set_perm_L _ _ Hperm).
Qed.

(** A loop whose body registers metrics. *)
Lemma registers_foldl {A B} (step : A * registryState → B → outcome (A * registryState)) (names_of : B → list string) l :
  (∀ b, b ∈ l → ∀ a, registers (λ reg, step (a, reg) b) (names_of b)) →
  ∀ a, registers (λ reg, outcome_foldl step (a, reg) l) (l ≫= names_of).
Proof.
  induction l as [|b l IH]; intros Hstep a; [apply registers_ret|]. rewrite bind_cons. cbn [outcome_foldl].
  intros reg Hf. destruct (registers_bind (λ reg, step (a, reg) b) (λ a reg, outcome_foldl step (a, reg) l) (names_of b) (l ≫= names_of)
    (Hstep b ltac:(left) a) (IH (λ b' Hb', Hstep b' (list_elem_of_further _ _ _ Hb'))) reg Hf) as (c & reg' & Hrun & Hrest).
  exists c, reg'. split; [|exact Hrest]. rewrite <- Hrun. destruct (step (a, reg) b) as [[? ?]|]; reflexivity.
Qed.

(** The descriptor of a metric is valid whatever tags are filtered. *)
Definition tags_ok (k : kind) (name : string) (ty : structType) : bool :=
  forallb (λ f, descriptor_ok k name (TagKeys (filteredTagDesc (NewReflectTags Sprint ty) f)))
    [Build_TagFilter true true; Build_TagFilter true false; Build_TagFilter false true; Build_TagFilter false false].
Lemma tags_ok_spec k name ty f :
  tags_ok k name ty = true → descriptor_ok k name (TagKeys (filteredTagDesc (NewReflectTags Sprint ty) f)) = true.
Proof. unfold tags_ok. rewrite forallb_forall. intros Hall. apply Hall. destruct f as [[] []]; simpl; tauto. Qed.

Lemma registers_Register {V} name help (ty : Type_ V) tagsType :
  tags_ok (metricKind ty) name tagsType = true → registers (λ reg, Register reg name help ty tagsType) [name].
Proof.
  intros Hok reg [_ Hf]. specialize (Hf name ltac:(left)). unfold Register, registerWith. cbn.
  destruct (MustRegister_new (PrometheusRegistry reg) (metricKind ty) name help (buckets ty)
    (TagKeys (filteredTagDesc (NewReflectTags Sprint tagsType) (tagFilter reg))) Hf (tags_ok_spec _ _ _ _ Hok)) as (p & Hp & Hin).
  cbn in Hp. rewrite Hp. cbn. eexists _, _. split; [done|]. split; [|done]. unfold names_in. cbn. rewrite Hin. set_solver.
Qed.

Lemma registers_RegisterFlushable name help tagsType frequency :
  tags_ok Gauge name tagsType = true → registers (λ reg, RegisterFlushable reg name help tagsType frequency) [name].
Proof.
  intros Hok reg [_ Hf]. specialize (Hf name ltac:(left)). unfold RegisterFlushable. cbn.
  destruct (MustRegister_new (PrometheusRegistry reg) Gauge name help []
    (TagKeys (filteredTagDesc (NewReflectTags Sprint tagsType) (tagFilter reg))) Hf (tags_ok_spec _ _ _ _ Hok)) as (p & Hp & Hin).
  cbn in Hp. rewrite Hp. cbn. eexists _, _. split; [done|]. split; [|done]. unfold names_in. cbn. rewrite Hin. set_solver.
Qed.

(** Vectors that are registered one after the other. *)
Definition descriptor : Type := kind * string * string * list Float * list string.
Definition descriptor_name (d : descriptor) : string := let '(_, name, _, _, _) := d in name.
Definition vec_of (d : descriptor) : Vec := let '(k, name, help, b, keys) := d in NewVec k name help b keys.
Lemma MustRegister_all (l : list descriptor) : ∀ p,
  Forall (λ '(k, name, _, _, keys), descriptor_ok k name keys = true) l →
  NoDup (descriptor_name <$> l) → (∀ name, name ∈ descriptor_name <$> l → name ∉ registered p) →
  ∃ p', outcome_foldl MustRegister p (vec_of <$> l) = Ret p' ∧ registered p' = list_to_set (descriptor_name <$> l) ∪ registered p.
Proof.
  induction l as [|[[[[k name] help] b] keys] l IH]; intros p Hok Hnd Hf; cbn [fmap list_fmap outcome_foldl].
  { exists p. split; [done|]. set_solver. }
  apply Forall_cons in Hok as [Hok1 Hok]. rewrite fmap_cons in Hnd, Hf. apply NoDup_cons in Hnd as [Hn Hnd].
  destruct (MustRegister_new p k name help b keys (Hf _ ltac:(left)) Hok1) as (p1 & Hp1 & Hin1).
  cbn [vec_of]. rewrite Hp1. cbn [mbind outcome_bind]. destruct (IH p1 Hok Hnd) as (p' & Hrun & Hin).
  { intros name' Hname'. rewrite Hin1, not_elem_of_union, not_elem_of_singleton. split; [by intros -> |apply Hf; by right]. }
  exists p'. split; [done|]. rewrite Hin, Hin1. cbn. set_solver.
Qed.

(** A metric, and the rest of the program. *)
Lemma registers_cons {A V} name help (ty : Type_ V) tagsType (k : Handle (value leaf) V → registryState → outcome (A * registryState)) names :
  tags_ok (metricKind ty) name tagsType = true → (∀ h, registers (k h) names) →
  registers (λ reg, '(h, reg) ← Register reg name help ty tagsType; k h reg) (name :: names).
Proof. intros Hok Hk. exact (registers_bind _ _ [name] names (registers_Register name help ty tagsType Hok) Hk). Qed.

(** The fields of a metric with many fields. *)
Definition field_name {S} (namePrefix : string) (field : AnyField S) : string :=
  match field with NewField name _ _ _ => namePrefix +:+ "_" +:+ name end.
Definition field_kind {S} (field : AnyField S) : kind := match field with NewField _ _ ty _ => metricKind ty end.

Lemma initFields_ok {S} (fields : list (AnyField S)) namePrefix helpPrefix keys : ∀ p,
  Forall (λ field, descriptor_ok (field_kind field) (field_name namePrefix field) keys = true) fields →
  NoDup (field_name namePrefix <$> fields) → (∀ name, name ∈ field_name namePrefix <$> fields → name ∉ registered p) →
  ∃ fields' p', initFields p namePrefix helpPrefix keys fields = Ret (fields', p') ∧
    registered p' = list_to_set (field_name namePrefix <$> fields) ∪ registered p.
Proof.
  induction fields as [|[T name help ty ex] fields IH]; intros p Hok Hnd Hf; cbn [initFields].
  { exists [], p. split; [done|]. set_solver. }
  apply Forall_cons in Hok as [Hok1 Hok]. rewrite fmap_cons in Hnd, Hf. apply NoDup_cons in Hnd as [Hn Hnd].
  cbn [InitFieldCollector InitCollector].
  destruct (MustRegister_new p (metricKind ty) (namePrefix +:+ "_" +:+ name) (helpPrefix +:+ ": " +:+ help) (buckets ty) keys
    (Hf _ ltac:(left)) Hok1) as (p1 & Hp1 & Hin1).
  rewrite Hp1. cbn [mbind outcome_bind].
  destruct (IH p1 Hok Hnd) as (fields' & p' & Hrun & Hin).
  { intros name' Hname'. rewrite Hin1, not_elem_of_union, not_elem_of_singleton. split; [by intros -> |apply Hf; by right]. }
  rewrite Hrun. cbn [mbind outcome_bind]. eexists _, p'. split; [done|]. rewrite Hin, Hin1. cbn. set_solver.
Qed.

End registration.

Ltac register_all := repeat (apply registers_cons; [vm_compute; reflexivity|intros ?]); apply registers_ret.

(** ** Lemmas: the metrics of each component *)
Section components.
Import Tags Metric Meter.
Context {Float W : Type} `{!GoFloat Float, !Prometheus Float W, !PrometheusLaws Float W, !Unique.HyperLogLog}.

Definition aggregator_names : list string := ["aggregator_reconcile"; "aggregator_enqueue"; "aggregator_index_error";
  "aggregator_next_event_pool_current_size"; "aggregator_next_event_pool_current_latency"; "aggregator_next_event_pool_drain_count";
  "aggregator_next_event_pool_drain_period"; "aggregator_next_event_pool_drain_object_latency"; "aggregator_update_trigger_spin"].
Lemma aggregator_registers : registers AggregatorMeter.ProvideMetrics aggregator_names.
Proof. unfold AggregatorMeter.ProvideMetrics, aggregator_names. register_all. Qed.

Definition retrybatch_names : list string := ["retrybatch_submit"; "retrybatch_submit_retry_count"; "retrybatch_batch";
  "retrybatch_batch_retry_count"; "retrybatch_execute"; "retrybatch_execute_batch_size"; "retrybatch_inflight_keys"].
Lemma retrybatch_registers : registers RetrybatchMeter.ProvideMetrics retrybatch_names.
Proof. unfold RetrybatchMeter.ProvideMetrics, retrybatch_names. register_all. Qed.

Definition worker_names : list string := ["worker_reconcile"; "worker_queue_length"].
Lemma worker_registers : registers WorkerMeter.ProvideMetrics worker_names.
Proof. unfold WorkerMeter.ProvideMetrics, worker_names. register_all. Qed.

Definition informer_names : list string := ["ppr_enqueue"; "ppr_index_error"; "ppr_source_list_length"; "ppr_source_list_error"].
Lemma informer_registers : registers InformerMeter.ProvideInformerMetrics informer_names.
Proof. unfold InformerMeter.ProvideInformerMetrics, informer_names. register_all. Qed.

Definition elector_names : list string := ["leader_event"; "leader_heartbeat"].
Lemma elector_registers : registers ElectorMeter.ProvideElectorMetrics elector_names.
Proof. unfold ElectorMeter.ProvideElectorMetrics, elector_names. register_all. Qed.

Definition healthz_names : list string := ["healthck_failure"].
Lemma healthz_registers : registers HealthzMeter.ProvideMetrics healthz_names.
Proof. apply registers_Register. vm_compute. reflexivity. Qed.

Definition window_names (window : string * Duration) : list string :=
  ["webhook_handle_unique_ppr_" +:+ window.1; "webhook_handle_unique_pod_" +:+ window.1].
Definition webhook_names : list string := ["webhook_request"; "webhook_http_error"; "webhook_handle_pod_in_ppr"] ++
  (map_to_list WebhookMeter.UniqueRejectRateWindows ≫= window_names).
Lemma registerWindow_registers window acc :
  window ∈ map_to_list WebhookMeter.UniqueRejectRateWindows →
  registers (λ reg, WebhookMeter.registerWindow (acc, reg) window) (window_names window).
Proof.
  intros Hin. assert (Hok : forallb (λ window, forallb (λ name, tags_ok Gauge name WebhookMeter.PodInPprBaseTags) (window_names window))
    (map_to_list WebhookMeter.UniqueRejectRateWindows) = true) by (vm_compute; reflexivity).
  rewrite forallb_forall in Hok. apply list_elem_of_In, Hok in Hin. cbn [forallb window_names] in Hin. rewrite !andb_true_iff in Hin. destruct Hin as (Hppr & Hpod & _).
  destruct acc as [pprs pods], window as [freqStr freq]. unfold WebhookMeter.registerWindow.
  refine (registers_bind _ _ [_] [_] (registers_RegisterFlushable _ _ _ _ Hppr) _). intros ppr.
  refine (registers_bind _ _ [_] [] (registers_RegisterFlushable _ _ _ _ Hpod) _). intros pod. apply registers_ret.
Qed.
Lemma webhook_registers `{!GoRuntime} : registers WebhookMeter.ProvideMetrics webhook_names.
Proof.
  unfold WebhookMeter.ProvideMetrics, webhook_names. cbn [app]. do 3 (apply registers_cons; [vm_compute; reflexivity|intros ?]).
  apply (registers_perm _ ((map_order WebhookMeter.UniqueRejectRateWindows ≫= window_names) ++ [])).
  { rewrite app_nil_r. f_equiv. apply map_order_perm. }
  apply (registers_bind (λ reg, outcome_foldl WebhookMeter.registerWindow ([], [], reg) _)).
  - apply registers_foldl. intros window Hin acc. apply registerWindow_registers. by rewrite <- (map_order_perm _ _ _).
  - intros [pprs pods]. apply registers_ret.
Qed.

Definition monitor_names : list string := field_name "generator_monitor_workloads" <$> GeneratorMeter.monitorFields.
Definition generator_names : list string := ["generator_reconcile"; "generator_action"] ++ monitor_names.
Lemma monitor_registers : registers GeneratorMeter.makeMonitorWorkloadsHandle monitor_names.
Proof.
  intros reg [Hnd Hf]. unfold GeneratorMeter.makeMonitorWorkloadsHandle, RegisterMultiField.
  destruct (initFields_ok GeneratorMeter.monitorFields "generator_monitor_workloads" "Global workload status" [] (PrometheusRegistry reg))
    as (fields & p & Hrun & Hin).
  - apply Forall_forall. intros field Hfield%list_elem_of_In. revert field Hfield. apply forallb_forall. vm_compute. reflexivity.
  - done.
  - done.
  - cbn. cbn in Hrun. rewrite Hrun. cbn. eexists _, _. split; [done|]. split; [|done]. unfold names_in. cbn. by rewrite Hin.
Qed.
Lemma generator_registers : registers GeneratorMeter.ProvideMetrics generator_names.
Proof.
  unfold GeneratorMeter.ProvideMetrics, generator_names. cbn [app]. do 2 (apply registers_cons; [vm_compute; reflexivity|intros ?]).
  rewrite <- (app_nil_r monitor_names). apply (registers_bind _ _ _ [] monitor_registers). intros ?. apply registers_ret.
Qed.

(** The vectors of the clients are registered directly. *)
Definition kube_names : list string := ["kube_client_request_duration_seconds"; "kube_client_request_size_bytes";
  "kube_client_response_size_bytes"; "kube_client_rate_limiter_duration_seconds"; "kube_client_requests_total";
  "kube_client_request_retries_total"; "kube_client_transport_cache_entries"; "kube_client_transport_create_calls_total"].
Lemma kube_registers : registers (λ reg, p ← KubeMeter.RegisterForPrometheus (PrometheusRegistry reg); Ret ((), with_Prometheus reg p)) kube_names.
Proof.
  intros reg [Hnd Hf]. assert (∃ l, [KubeMeter.requestLatency; KubeMeter.requestSize; KubeMeter.responseSize; KubeMeter.rateLimiterLatency;
    KubeMeter.requestResult; KubeMeter.requestRetry; KubeMeter.transportCacheEntries; KubeMeter.transportCacheCalls] = vec_of <$> l ∧
    descriptor_name <$> l = kube_names ∧ Forall (λ '(k, name, _, _, keys), descriptor_ok k name keys = true) l) as (l & Hl & Hnames & Hok).
  { eexists [(_, _, _, _, _); (_, _, _, _, _); (_, _, _, _, _); (_, _, _, _, _); (_, _, _, _, _); (_, _, _, _, _); (_, _, _, _, _);
      (_, _, _, _, _)].
    split; [reflexivity|]. split; [reflexivity|]. repeat (apply Forall_cons_2; [vm_compute; reflexivity|]). apply Forall_nil_2. }
  rewrite <- Hnames in *. destruct (MustRegister_all l (PrometheusRegistry reg) Hok Hnd Hf) as (p & Hrun & Hin).
  unfold KubeMeter.RegisterForPrometheus. rewrite Hl, Hrun. exists (), (with_Prometheus reg p). split; [done|]. by split.
Qed.

End components.

(** ** Lemmas: the metrics of a process *)
Section process_lemmas.
Import Tags Metric Meter.
Context {Float W : Type} `{!GoFloat Float, !Prometheus Float W, !PrometheusLaws Float W, !Unique.HyperLogLog, !GoRuntime}.
Notation componentMap := (gmap string (option (Component.componentMapEntry (Decl := Wiring.declared)))).
Implicit Types (cm : componentMap) (reg : registryState).

Definition observed_names (o : Wiring.observed) : list string :=
  match o with
  | Wiring.ObsWebhook => webhook_names | Wiring.ObsAggregator => aggregator_names | Wiring.ObsGenerator => generator_names
  | Wiring.ObsRetrybatch => retrybatch_names | Wiring.ObsWorker => worker_names | Wiring.ObsInformer => informer_names
  | Wiring.ObsHealthz => healthz_names | Wiring.ObsElector => elector_names
  end.
Definition provided_names (o : Wiring.observed) (p : Wiring.provided) : list string :=
  match p with Wiring.Metrics => observed_names o | Wiring.Logging => [] end.
Definition declared_names (d : Wiring.declared) : list string :=
  match d with
  | Wiring.Registry => ["heartbeat"]
  | Wiring.KubeMetrics => kube_names
  | Wiring.Observer o impls => impls ≫= provided_names o
  | _ => []
  end.
Definition metric_names cm (c : string) : list string :=
  match Wiring.instance_of cm c with Some d => declared_names d | None => [] end.

Lemma registers_discard {A} (prog : registryState → outcome (A * registryState)) names reg :
  registers prog names → fresh_names names reg →
  ∃ reg', Startup.discard (prog reg) = Ret reg' ∧ names_in reg' = list_to_set names ∪ names_in reg.
Proof. intros Hp Hf. destruct (Hp reg Hf) as (a & reg' & Hrun & Hin & _). exists reg'. unfold Startup.discard. by rewrite Hrun. Qed.

Lemma ProvideMetrics_ok o reg :
  fresh_names (observed_names o) reg →
  ∃ reg', Startup.ProvideMetrics o reg = Ret reg' ∧ names_in reg' = list_to_set (observed_names o) ∪ names_in reg.
Proof.
  destruct o; apply registers_discard; [apply webhook_registers|apply aggregator_registers|apply generator_registers|
    apply retrybatch_registers|apply worker_registers|apply informer_registers|apply healthz_registers|apply elector_registers].
Qed.

(** [Init] of a component that has metrics, other than the registry. *)
Lemma Init_names new filter reg d :
  d ≠ Wiring.Registry → fresh_names (declared_names d) reg →
  ∃ reg', Startup.Init new filter (Some reg) d = Ret (Some reg') ∧ names_in reg' = list_to_set (declared_names d) ∪ names_in reg.
Proof.
  intros Hd Hf. destruct d as [| | | | | | | |o impls| | | | | | | | | | | | | | |];
    try (exists reg; split; [reflexivity|apply symmetry, (left_id_L ∅ (∪))]); [done| |]; cbn [Startup.Init declared_names] in *.
  - cbn [Startup.MustRegistry mbind outcome_bind]. destruct (kube_registers reg Hf) as ([] & reg' & Hrun & Hin & _). exists reg'.
    destruct (KubeMeter.RegisterForPrometheus _); [|done]. injection Hrun as <-. by split.
  - clear Hd. revert reg Hf. induction impls as [|[] impls IH]; intros reg Hf; cbn [outcome_foldl].
    + exists reg. split; [done|apply symmetry, (left_id_L ∅ (∪))].
    + apply IH, Hf.
    + rewrite bind_cons in Hf |- *. cbn [provided_names] in Hf |- *. cbn [Startup.MustRegistry mbind outcome_bind].
      destruct (ProvideMetrics_ok o reg) as (reg1 & Hrun & Hin).
      { destruct Hf as [(? & _)%NoDup_app Hn]. split; [done|]. intros name ?. apply Hn. set_solver. }
      rewrite Hrun. cbn [mbind outcome_bind]. destruct (fresh_names_app _ _ _ _ Hf Hin) as [_ Hf2].
      destruct (IH reg1 Hf2) as (reg' & Hrun' & Hin'). exists reg'. split; [exact Hrun'|].
      rewrite Hin', Hin, list_to_set_app_L. set_solver.
Qed.
Lemma Init_none new filter (reg : option registryState) d : d ≠ Wiring.Registry → declared_names d = [] → Startup.Init new filter reg d = Ret reg.
Proof.
  intros Hd Hn. destruct d as [| | | | | | | |o impls| | | | | | | | | | | | | | |]; try done. cbn [Startup.Init declared_names] in *.
  clear Hd. induction impls as [|[] impls IH]; [done|by apply IH|]. exfalso. rewrite bind_cons in Hn.
  apply app_eq_nil in Hn as [Hn _]. destruct o; discriminate Hn.
Qed.

Lemma newRegistry_names new filter :
  "heartbeat" ∉ registered new → ∃ h reg, newRegistry new filter = Ret (h, reg) ∧ names_in reg = {["heartbeat"]} ∪ registered new.
Proof.
  intros Hnew. unfold newRegistry. pose (reg0 := {| PrometheusRegistry := new; tagFilter := filter; flushables := [] |}).
  destruct (registers_Register "heartbeat" "Number of seconds since process startup" FloatGauge Empty eq_refl reg0)
    as (h & reg & Hrun & Hin & _).
  { split; [apply NoDup_singleton|]. by intros name ->%list_elem_of_singleton. }
  exists h, reg. split; [exact Hrun|]. rewrite Hin. cbn. set_solver.
Qed.

(** What is initialized so far. *)
Definition initialized cm new (l : list string) (reg : option registryState) : Prop :=
  match reg with
  | Some reg => names_in reg = list_to_set (l ≫= metric_names cm) ∪ registered new
  | None => "metrics" ∉ l
  end.

Lemma initAll_ok cm new filter l :
  NoDup l → NoDup (l ≫= metric_names cm) → (∀ name, name ∈ l ≫= metric_names cm → name ∉ registered new) →
  (∀ c, Wiring.instance_of cm c = Some Wiring.Registry ↔ c = "metrics") →
  (∀ l1 c l2, l = l1 ++ c :: l2 → metric_names cm c ≠ [] → c ≠ "metrics" → "metrics" ∈ l1) →
  ∃ reg : option registryState, Startup.initAll cm new filter l = Ret reg ∧ initialized cm new l reg.
Proof.
  intros Hnd Hnames Hnew Hreg. induction l as [|c l IH] using rev_ind; intros Hbefore.
  { exists None. split; [done|]. cbn. by intros ?%not_elem_of_nil. }
  rewrite bind_app, bind_singleton in Hnames, Hnew. apply NoDup_app in Hnd as (Hnd & Hc & _).
  apply NoDup_app in Hnames as (Hnames & Hdisj & Hnc).
  assert (Hbefore' : ∀ l1 c' l2, l = l1 ++ c' :: l2 → metric_names cm c' ≠ [] → c' ≠ "metrics" → "metrics" ∈ l1).
  { intros l1 c' l2 -> Hne Hc'. eapply (Hbefore l1 c' (l2 ++ [c])); [by rewrite <- app_assoc|done..]. }
  destruct IH as (reg & Hrun & Hinit); [done|done|set_solver|exact Hbefore'|].
  unfold Startup.initAll in *. rewrite outcome_foldl_app, Hrun. cbn [mbind outcome_bind outcome_foldl].
  enough (∃ reg' : option registryState, match Wiring.instance_of cm c with Some d => Startup.Init new filter reg d | None => Ret reg end = Ret reg' ∧
    initialized cm new (l ++ [c]) reg') as (reg' & Hstep & Hinit') by (exists reg'; rewrite Hstep; by split).
  destruct (decide (c = "metrics")) as [->|Hne].
  - assert (Hempty : l ≫= metric_names cm = []).
    { apply elem_of_nil_inv. intros name (c' & Hname & (l1 & l2 & Hl)%list_elem_of_split)%list_elem_of_bind.
      apply (Hc "metrics"); [|by left]. rewrite Hl. apply elem_of_app. left. eapply Hbefore'; [exact Hl| |].
      - intros Hn. rewrite Hn in Hname. by apply not_elem_of_nil in Hname.
      - intros ->. apply (Hc "metrics"); [rewrite Hl; set_solver|by left]. }
    unfold initialized. rewrite bind_app, bind_singleton, Hempty. unfold metric_names in *.
    rewrite (proj2 (Hreg "metrics") eq_refl) in *. destruct (newRegistry_names new filter) as (h & reg' & Hrun' & Hin).
    { apply Hnew. set_solver. }
    exists (Some reg'). cbn [Startup.Init]. rewrite Hrun'. split; [done|]. rewrite Hin. cbn. set_solver.
  - assert (Hreg' : ∀ d, Wiring.instance_of cm c = Some d → d ≠ Wiring.Registry) by (intros d Hd ->; by apply Hreg in Hd).
    unfold initialized. rewrite bind_app, bind_singleton, list_to_set_app_L.
    change (metric_names cm c) with (match Wiring.instance_of cm c with Some d => declared_names d | None => [] end).
    destruct (Wiring.instance_of cm c) as [d|] eqn:Hi.
    + specialize (Hreg' d eq_refl). destruct (decide (declared_names d = [])) as [Hn|Hn].
      * exists reg. split; [by apply Init_none|]. rewrite Hn. destruct reg; [rewrite Hinit; set_solver|].
        intros [?|?%list_elem_of_singleton]%elem_of_app; [done|congruence].
      * assert (Hm : metric_names cm c = declared_names d) by (unfold metric_names; by rewrite Hi). rewrite Hm in *.
        destruct reg as [reg|]; [|exfalso; apply Hinit, (Hbefore l c []); by rewrite ?Hm].
        destruct (Init_names new filter reg d Hreg') as (reg' & Hrun' & Hin).
        { split; [done|]. intros name Hname. rewrite Hinit, not_elem_of_union, elem_of_list_to_set. split; [|apply Hnew; set_solver].
          intros Hl. by apply (Hdisj name). }
        exists (Some reg'). split; [done|]. rewrite Hin, Hinit. set_solver.
    + exists reg. split; [done|]. destruct reg; [rewrite Hinit; set_solver|].
      intros [?|?%list_elem_of_singleton]%elem_of_app; [done|congruence].
Qed.

(** *** What is computed once and for all

    The collectors of the library have metrics of their own. *)
Definition collector_name (name : string) : bool := String.prefix "go_" name || String.prefix "process_" name.
Definition dns_name : string := "kube_client_dns_resolution_duration_seconds".

Definition entry_measured (d : Wiring.declared) (deps : gmap string nat) : bool :=
  match d with
  | Wiring.MuxInterface _ _ _ => bool_decide (declared_names d = [])
  | Wiring.Registry => true
  | _ => bool_decide (declared_names d = []) || bool_decide (is_Some (deps !! "metrics"))
  end.
Definition metrics_check cm : bool :=
  let all := (map_to_list cm).*1 ≫= metric_names cm in
  bool_decide (NoDup all) && forallb (λ name, negb (collector_name name) && bool_decide (name ≠ dns_name)) all &&
  match Wiring.instance_of cm "metrics" with Some Wiring.Registry => true | _ => false end &&
  forallb (λ '(c, oe), match oe with Some e => entry_measured (Component.comp e) (Component.deps e) | None => true end) (map_to_list cm) &&
  bool_decide (requests_out (Component.store_of cm) "prometheus-http" "metrics" = Some 1) &&
  match Wiring.instance_of cm "prometheus-http" with Some Wiring.MetricsHttp => true | _ => false end.

Lemma processes_measured p : match Wiring.resolved p with Some (Ret cm) => metrics_check cm | _ => false end = true.
Proof. destruct p; vm_compute; reflexivity. Qed.

Lemma elem_of_metric_names cm c name : name ∈ metric_names cm c → ∃ oe, cm !! c = Some (Some oe) ∧ declared_names (Component.comp oe) ≠ [].
Proof.
  unfold metric_names, Wiring.instance_of. destruct (cm !! c) as [[e|]|]; try by intros ?%not_elem_of_nil.
  intros Hn. exists e. split; [done|]. intros Heq. rewrite Heq in Hn. by apply not_elem_of_nil in Hn.
Qed.

(** Any selection of components has distinct metrics. *)
Lemma selected_names cm (l : list string) :
  NoDup ((map_to_list cm).*1 ≫= metric_names cm) → NoDup l →
  NoDup (l ≫= metric_names cm) ∧ ∀ name, name ∈ l ≫= metric_names cm → name ∈ (map_to_list cm).*1 ≫= metric_names cm.
Proof.
  intros Hall Hl.
  assert (Hsub : ∀ c name, name ∈ metric_names cm c → c ∈ (map_to_list cm).*1).
  { intros c name (oe & Hc & _)%elem_of_metric_names. apply list_elem_of_fmap. exists (c, Some oe). split; [done|].
    by apply elem_of_map_to_list. }
  split; [|intros name (c & Hname & _)%list_elem_of_bind; apply list_elem_of_bind; exists c; split; [done|by eapply Hsub]].
  pose (l' := filter (.∈ (map_to_list cm).*1) l). assert (Heq : l ≫= metric_names cm = l' ≫= metric_names cm).
  { subst l'. clear Hl Hall. induction l as [|c l IH]; [done|]. rewrite bind_cons, filter_cons. case_decide as Hc.
    - by rewrite bind_cons, IH.
    - rewrite <- IH. enough (metric_names cm c = []) as -> by done. apply elem_of_nil_inv. intros name Hn. by apply Hc, (Hsub _ name). }
  rewrite Heq. assert (Hsm : l' ⊆+ (map_to_list cm).*1).
  { apply NoDup_submseteq; [by apply NoDup_filter|]. intros c Hc. by apply list_elem_of_filter in Hc as [? _]. }
  apply submseteq_Permutation in Hsm as [k Hk]. rewrite Hk, bind_app in Hall. by apply NoDup_app in Hall as [? _].
Qed.

Lemma requests_measured_dep cm flags c e :
  cm !! c = Some (Some e) → declared_names (Component.comp e) ≠ [] → Component.comp e ≠ Wiring.Registry →
  entry_measured (Component.comp e) (Component.deps e) = true →
  kept_dep (Wiring.unrequestDeps flags cm) (Component.store_of cm) c "metrics".
Proof.
  intros Hc Hn Hr Hok. unfold kept_dep. rewrite (requests_out_entry _ _ _ _ Hc).
  assert (Hun : Wiring.unrequestDeps flags cm c = [] ∧ is_Some (Component.deps e !! "metrics")).
  { unfold Wiring.unrequestDeps, Wiring.instance_of. rewrite Hc. unfold entry_measured in Hok.
    destruct (Component.comp e); cbn [mbind option_bind Wiring.muxFlag]; try done;
      rewrite ?orb_true_iff, ?bool_decide_eq_true in Hok; try done; by destruct Hok. }
  destruct Hun as [-> [k Hk]]. exists k. split; [done|]. by intros ?%not_elem_of_nil.
Qed.

End process_lemmas.

(** ** Lemmas: what is emitted *)
Section emission.
Import Tags Metric Meter.
Context {Float W : Type} `{!GoFloat Float, !Prometheus Float W, !PrometheusLaws Float W, !Unique.HyperLogLog, !GoRuntime}.
Implicit Types (reg : registryState) (f : TagFilter) (w : world W).

(** The handle that a registration returns. *)
Definition handle_of {V} f (name help : string) (ty : Type_ V) (tagsType : structType) : Handle (value leaf) V :=
  {| metricType := Type_Emit (InitCollector ty name help (TagKeys (filteredTagDesc (NewReflectTags Sprint tagsType) f))).1;
     tagsDesc := filteredTagDesc (NewReflectTags Sprint tagsType) f |}.
Lemma Register_ret {V} reg name help (ty : Type_ V) tagsType h reg' :
  Register reg name help ty tagsType = Ret (h, reg') →
  h = handle_of (tagFilter reg) name help ty tagsType ∧ tagFilter reg' = tagFilter reg.
Proof. unfold Register, registerWith. cbn. destruct (MustRegister _ _); [|done]. by intros [= <- <-]. Qed.

(** A metric is updated for labels that pass the filter, and nothing else changes. *)
Definition sampled {V} f (name help : string) (ty : Type_ V) (labels : list (string * string)) (v : V) w w' : Prop :=
  let shown := filter (λ '(key, _), Test f key = true) labels in
  ∃ series, WithLabelValues (NewVec (metricKind ty) name help (buckets ty) shown.*1) shown.*2 = Ret series ∧
    metrics w' = Update (metricKind ty) series (typeConv ty v) (metrics w).

Lemma Emit_sampled {V} f name help (ty : Type_ V) tagsType instance fields labels v w :
  fields_of tagsType instance = Some fields → (λ '(n, x), (formatTagName n, Sprint x)) <$> fields = labels →
  ∃ w', Meter.Emit (handle_of f name help ty tagsType) v instance w = Ret w' ∧ uniques w' = uniques w ∧
    sampled f name help ty labels v w w'.
Proof.
  intros Hf <-. destruct (filtered_reflect Sprint tagsType instance fields f Hf) as [Hk Hv]. unfold labels_of in *.
  pose proof (WithLabelValues_ret (metricKind ty) name help (buckets ty) (TagKeys (filteredTagDesc (NewReflectTags Sprint tagsType) f))
    (labels_of Sprint f fields).*2) as Hret. rewrite Hk in Hret. specialize (Hret ltac:(unfold labels_of; by rewrite !length_fmap)).
  unfold labels_of in Hret. destruct (WithLabelValues _ _) as [series|] eqn:Hs; [|done].
  unfold Meter.Emit, Metric.Emit, With, handle_of. cbn [tagsDesc metricType]. rewrite Hv. cbn [mbind outcome_bind].
  unfold Type_Emit, InitCollector. cbn [collector fst]. rewrite Hk, Hs. cbn. eexists. split; [done|]. split; [done|].
  exists series. done.
Qed.

(** *** Unique counters *)
Definition unique_of f (name help : string) (tagsType : structType) : UniqueHandle :=
  {| metricName := name; uniqueTags := filteredTagDesc (NewReflectTags Sprint tagsType) f;
     uniqueVec := NewVec Gauge name help [] (TagKeys (filteredTagDesc (NewReflectTags Sprint tagsType) f)) |}.
Lemma RegisterFlushable_ret reg name help tagsType frequency h reg' :
  RegisterFlushable reg name help tagsType frequency = Ret (h, reg') →
  h = unique_of (tagFilter reg) name help tagsType ∧ tagFilter reg' = tagFilter reg.
Proof. unfold RegisterFlushable. cbn. destruct (MustRegister _ _); [|done]. by intros [= <- <-]. Qed.

Definition counted (tagValues : list string) (v : string) (ty : option Unique.counterVec) : Unique.counterVec :=
  Unique.Emit tagValues v (default Unique.NewCounterVec ty).
Lemma EmitUnique_counts f name help tagsType instance fields v w :
  fields_of tagsType instance = Some fields →
  EmitUnique (unique_of f name help tagsType) v instance w =
    Ret {| metrics := metrics w; uniques := <[name := counted (labels_of Sprint f fields).*2 v (uniques w !! name)]> (uniques w) |}.
Proof.
  intros Hf. destruct (filtered_reflect Sprint tagsType instance fields f Hf) as [Hk Hv].
  unfold EmitUnique, unique_of. cbn [uniqueTags uniqueVec metricName]. rewrite Hv. cbn [mbind outcome_bind].
  destruct (Unique.counters _ !! _); [done|]. rewrite Hk.
  pose proof (WithLabelValues_ret Gauge name help [] (labels_of Sprint f fields).*1 (labels_of Sprint f fields).*2
    ltac:(by rewrite !length_fmap)) as Hret. by destruct (WithLabelValues _ _).
Qed.

(** A loop over counters of different names. *)
Lemma EmitUnique_all f tagsType instance fields v (names : list (string * string)) : ∀ w,
  fields_of tagsType instance = Some fields → NoDup names.*1 →
  ∃ w', outcome_foldl (λ w handle, EmitUnique handle v instance w) w ((λ '(name, help), unique_of f name help tagsType) <$> names) = Ret w' ∧
    metrics w' = metrics w ∧
    (∀ name, name ∈ names.*1 → uniques w' !! name = Some (counted (labels_of Sprint f fields).*2 v (uniques w !! name))) ∧
    ∀ name, name ∉ names.*1 → uniques w' !! name = uniques w !! name.
Proof.
  induction names as [|[name help] names IH]; intros w Hf Hnd; cbn [fmap list_fmap outcome_foldl].
  { exists w. split; [done|]. split; [done|]. split; [by intros ? ?%not_elem_of_nil|done]. }
  rewrite fmap_cons in Hnd. apply NoDup_cons in Hnd as [Hn Hnd]. cbn in Hn.
  rewrite (EmitUnique_counts _ _ _ _ _ _ _ _ Hf). cbn [mbind outcome_bind].
  destruct (IH {| metrics := metrics w; uniques := <[name := counted (labels_of Sprint f fields).*2 v (uniques w !! name)]> (uniques w) |}
    Hf Hnd) as (w' & Hrun & Hm & Hin & Hout). exists w'. split; [exact Hrun|]. split; [exact Hm|]. cbn [uniques fst] in *. split.
  - intros name' [->|Hin']%elem_of_cons; [by rewrite Hout, lookup_insert_eq|]. rewrite (Hin _ Hin'), lookup_insert_ne; [done|]. by intros ->.
  - intros name' [Hne Hout']%not_elem_of_cons. by rewrite (Hout _ Hout'), lookup_insert_ne.
Qed.

End emission.

(** *** Webhook *)
Section webhook_lemmas.
Import Tags Metric Meter WebhookMeter.
Context {Float W : Type} `{!GoFloat Float, !Prometheus Float W, !PrometheusLaws Float W, !Unique.HyperLogLog, !GoRuntime}.
Implicit Types (reg : registryState) (f : TagFilter) (w : world W).

Definition ppr_metric (window : string * Duration) : string * string :=
  ("webhook_handle_unique_ppr_" +:+ window.1,
   "Number of unique PodProtectors handled every " +:+ window.1 +:+ ". Value is always 0 in the first " +:+ window.1 +:+ " after process restart.").
Definition pod_metric (window : string * Duration) : string * string :=
  ("webhook_handle_unique_pod_" +:+ window.1,
   "Number of unique pods handled every " +:+ window.1 +:+ ". Value is always 0 in the first " +:+ window.1 +:+ " after process restart.").
Definition unique_handles f (metrics : list (string * string)) : list UniqueHandle :=
  (λ '(name, help), unique_of f name help PodInPprBaseTags) <$> metrics.

Lemma registerWindows_ret l : ∀ pprs pods reg pprs' pods' reg',
  outcome_foldl registerWindow (pprs, pods, reg) l = Ret (pprs', pods', reg') →
  pprs' = pprs ++ unique_handles (tagFilter reg) (ppr_metric <$> l) ∧ pods' = pods ++ unique_handles (tagFilter reg) (pod_metric <$> l).
Proof.
  induction l as [|[freqStr freq] l IH]; intros pprs pods reg pprs' pods' reg'; cbn [outcome_foldl].
  { intros [= <- <- _]. by rewrite !app_nil_r. }
  intros ([[pprs1 pods1] reg1] & Hwin & Hrest)%outcome_bind_Ret. unfold registerWindow in Hwin.
  apply outcome_bind_Ret in Hwin as ([ppr reg2] & [-> H1]%RegisterFlushable_ret & Hwin).
  apply outcome_bind_Ret in Hwin as ([pod reg3] & [-> H2]%RegisterFlushable_ret & Hwin). injection Hwin as <- <- <-.
  apply IH in Hrest as [-> ->]. rewrite H2, H1, <- !app_assoc. done.
Qed.

(** The handles that the webhook has. *)
Lemma webhook_handles reg h reg' :
  ProvideMetrics reg = Ret (h, reg') → let f := tagFilter reg in
  requestHandle h = handle_of f "webhook_request" "Response latency of webhook server." FunctionDurationHistogram requestTags ∧
  httpErrorHandle h = handle_of f "webhook_http_error" "Number of error events during webhook processing." IntCounter httpErrorTags ∧
  podInPprHandle h = handle_of f "webhook_handle_pod_in_ppr"
    "Duration of handling each matched PodProtector for a pod admission event." FunctionDurationHistogram podInPprTags ∧
  handleUniquePprHandles h = unique_handles f (ppr_metric <$> map_order UniqueRejectRateWindows) ∧
  handleUniquePodHandles h = unique_handles f (pod_metric <$> map_order UniqueRejectRateWindows).
Proof.
  unfold ProvideMetrics.
  intros ([h1 reg1] & [-> H1]%Register_ret & Hrun)%outcome_bind_Ret.
  apply outcome_bind_Ret in Hrun as ([h2 reg2] & [-> H2]%Register_ret & Hrun).
  apply outcome_bind_Ret in Hrun as ([h3 reg3] & [-> H3]%Register_ret & Hrun).
  apply outcome_bind_Ret in Hrun as ([[pprs pods] reg4] & [-> ->]%registerWindows_ret & Hrun).
  injection Hrun as <- _. cbn. rewrite H3, H2, H1. done.
Qed.

(** The frequencies of the counters have different names. *)
Lemma window_metrics_NoDup :
  NoDup (ppr_metric <$> map_order UniqueRejectRateWindows).*1 ∧ NoDup (pod_metric <$> map_order UniqueRejectRateWindows).*1 ∧
  ∀ name, name ∈ (ppr_metric <$> map_order UniqueRejectRateWindows).*1 → name ∉ (pod_metric <$> map_order UniqueRejectRateWindows).*1.
Proof.
  assert (Hall : NoDup ((ppr_metric <$> map_to_list UniqueRejectRateWindows).*1 ++ (pod_metric <$> map_to_list UniqueRejectRateWindows).*1))
    by (apply (bool_decide_eq_true_1 _); vm_compute; reflexivity).
  rewrite <- (map_order_perm _ _ UniqueRejectRateWindows) in Hall. apply NoDup_app in Hall as (? & ? & ?). done.
Qed.

(** The pods of a request are handled in contexts of their own. *)
Definition is_pod (e : entry) : Prop := match e with PodInPprCtx _ => True | RequestCtx _ _ => False end.
Lemma request_value pods cell t0 ctx :
  Forall is_pod pods → MustValue requestCtxKey (pods ++ HttpRequest t0 cell ctx) = Ret (cell, t0).
Proof.
  intros Hpods. unfold MustValue, Value. induction Hpods as [|[] pods Hp _ IH]; [done|done|]. exact IH.
Qed.

(** What is measured of a pod for a PodProtector that it matches. *)
Definition pod_labels (arg : StartHandlePodInPpr) (rejected : bool) : list (string * string) :=
  [("pod_cell", argPodCell arg); ("namespace", argNamespace arg); ("user", userTag (argDeleteUserName arg));
   ("request_type", argRequestType arg); ("rejected", if rejected then "true" else "false")].
Definition rejected_tag (rejected : bool) : list string := [if rejected then "true" else "false"].

Lemma EndHandlePodInPpr_measures reg h reg' t0 t1 arg ctx rejected w :
  ProvideMetrics reg = Ret (h, reg') →
  ∃ w', EndHandlePodInPpr h t1 (StartHandlePodInPpr_ t0 arg ctx) rejected w = Ret w' ∧
    sampled (tagFilter reg) "webhook_handle_pod_in_ppr" "Duration of handling each matched PodProtector for a pod admission event."
      FunctionDurationHistogram (pod_labels arg rejected) (time_Sub t1 t0) w w' ∧
    ∀ window, window ∈ map_to_list UniqueRejectRateWindows →
      uniques w' !! (ppr_metric window).1 =
        Some (counted (rejected_tag rejected) (argNamespace arg +:+ "/" +:+ argPprName arg) (uniques w !! (ppr_metric window).1)) ∧
      uniques w' !! (pod_metric window).1 =
        Some (counted (rejected_tag rejected) (argNamespace arg +:+ "/" +:+ argPodName arg) (uniques w !! (pod_metric window).1)).
Proof.
  intros (_ & _ & Hpod & Hpprs & Hpods)%webhook_handles. destruct window_metrics_NoDup as (Hnd1 & Hnd2 & Hdisj).
  unfold EndHandlePodInPpr, StartHandlePodInPpr_, MustValue, Value. cbn [omap list_omap podInPprCtxKey head mbind outcome_bind].
  rewrite Hpod, Hpprs, Hpods.
  destruct (Emit_sampled (tagFilter reg) "webhook_handle_pod_in_ppr" "Duration of handling each matched PodProtector for a pod admission event."
    FunctionDurationHistogram podInPprTags (StructValue [Leaf (Str (argPodCell arg)); Leaf (Str (argNamespace arg));
      Leaf (Str (userTag (argDeleteUserName arg))); Leaf (Str (argRequestType arg)); baseTags rejected])
    _ (pod_labels arg rejected) (time_Sub t1 t0) w eq_refl eq_refl) as (w1 & Hrun1 & Hu1 & Hsamp).
  cbn [podCell namespace user requestType podStart pprName podName]. rewrite Hrun1. cbn [mbind outcome_bind].
  destruct (EmitUnique_all (tagFilter reg) PodInPprBaseTags (baseTags rejected) [("Rejected", Bool rejected)]
    (argNamespace arg +:+ "/" +:+ argPprName arg) (ppr_metric <$> map_order UniqueRejectRateWindows) w1 eq_refl Hnd1)
    as (w2 & Hrun2 & Hm2 & Hin2 & Hout2). unfold unique_handles. rewrite Hrun2. cbn [mbind outcome_bind].
  destruct (EmitUnique_all (tagFilter reg) PodInPprBaseTags (baseTags rejected) [("Rejected", Bool rejected)]
    (argNamespace arg +:+ "/" +:+ argPodName arg) (pod_metric <$> map_order UniqueRejectRateWindows) w2 eq_refl Hnd2)
    as (w3 & Hrun3 & Hm3 & Hin3 & Hout3). exists w3. split; [exact Hrun3|].
  assert (Htag : (labels_of Sprint (tagFilter reg) [("Rejected", Bool rejected)]).*2 = rejected_tag rejected).
  { unfold labels_of. rewrite fmap_cons. rewrite filter_cons_True by reflexivity. reflexivity. }
  rewrite Htag in *. split.
  - destruct Hsamp as (series & Hs & Hm). exists series. split; [exact Hs|]. by rewrite Hm3, Hm2.
  - intros window Hwin. rewrite <- (map_order_perm _ _ UniqueRejectRateWindows) in Hwin.
    assert (H1 : (ppr_metric window).1 ∈ (ppr_metric <$> map_order UniqueRejectRateWindows).*1) by (by apply list_elem_of_fmap_2, list_elem_of_fmap_2).
    assert (H2 : (pod_metric window).1 ∈ (pod_metric <$> map_order UniqueRejectRateWindows).*1) by (by apply list_elem_of_fmap_2, list_elem_of_fmap_2).
    split.
    + rewrite (Hout3 _ (Hdisj _ H1)), (Hin2 _ H1), Hu1. done.
    + rewrite (Hin3 _ H2). rewrite Hout2, Hu1; [done|]. intros Hname. by apply (Hdisj _ Hname).
Qed.

End webhook_lemmas.

(** ** Properties *)

(** C29. The metrics of a process do not make it panic: in each of the four processes, unless its command line is refused, for any flags and however maps are ordered, the
    components that are initialized register their metrics with a registry that is there, under names that are valid and
    that no other component uses, and everything that they name is then registered. The latency of DNS
    resolution, which clients report, is in no registry. *)
Theorem process_metrics_register {Float W : Type} `{!GoFloat Float, !Metric.Prometheus Float W, !PrometheusLaws Float W,
    !Unique.HyperLogLog, !GoRuntime, !Wiring.Pflag} (klogFlags : list string) (cmdline : list (string * string))
    (p : Wiring.process) (new : Metric.Registry) (filter : Tags.TagFilter) :
  NoDup klogFlags → (∀ name, name ∈ registered new → collector_name name = true) →
  ∃ cm, Wiring.resolved p = Some (Ret cm) ∧
  ((∃ name value err, (name, value) ∈ cmdline ∧ refused_by (Wiring.newFlag cm) name value = Some err ∧
      Wiring.tryRun klogFlags cmdline p = Some (Ret (inr (TagWrapf "ParseArgs" (Some err) "parse args")))) ∨
   ∃ fs flags l reg, Wiring.tryRun klogFlags cmdline p = Some (Ret (inl (fs, flags, l))) ∧
    Startup.initAll cm new filter l = Ret (Some reg) ∧
    NoDup (l ≫= metric_names cm) ∧ names_in reg = list_to_set (l ≫= metric_names cm) ∪ registered new ∧
    dns_name ∉ names_in reg).
Proof.
  intros Hklog Hnew. destruct (process_list klogFlags cmdline p Hklog) as (cm & fs & Hrun & Hok & _ & Hcases).
  exists cm. split; [done|]. destruct Hcases as [(pre & name & value & post & err & -> & _ & Href & Hrefused)|Hlist]; [left|right].
  { exists name, value, err. split; [|done]. apply elem_of_app. right. left. }
  destruct Hlist as (_ & flags & l & Hlist & _ & Hl & Hbefore & Hnd).
  pose proof (resolved_in_sync _ _ _ _ _ _ Name_not_main Hrun) as Hs.
  pose proof (processes_measured p) as Hck. rewrite Hrun in Hck. unfold metrics_check in Hck.
  rewrite !andb_true_iff, !bool_decide_eq_true, !forallb_forall in Hck. destruct Hck as (((((Hall & Hnames) & Hreg) & Hdeps) & Hhttp) & Hhttpi).
  destruct (selected_names cm l Hall Hnd) as [Hndl Hsel].
  assert (Hname : ∀ name, name ∈ l ≫= metric_names cm → collector_name name = false ∧ name ≠ dns_name).
  { intros name Hn%Hsel%list_elem_of_In%Hnames. rewrite andb_true_iff, negb_true_iff, bool_decide_eq_true in Hn. done. }
  assert (Hentry : ∀ c e, cm !! c = Some (Some e) → c = Wiring.Name (Component.comp e) ∧
    entry_measured (Component.comp e) (Component.deps e) = true).
  { intros c e Hc. destruct (ck_entry _ _ _ _ Hok _ _ Hc) as (e' & [= <-] & He & _). unfold entry_ok in He.
    rewrite !andb_true_iff, bool_decide_eq_true in He. split; [by destruct He as ((? & _) & _)|].
    apply (Hdeps (c, Some e)), list_elem_of_In, elem_of_map_to_list, Hc. }
  assert (Hregistry : ∀ c, Wiring.instance_of cm c = Some Wiring.Registry ↔ c = "metrics").
  { intros c. split; [|intros ->; by destruct (Wiring.instance_of cm "metrics") as [[]|]]. unfold Wiring.instance_of.
    destruct (cm !! c) as [[e|]|] eqn:Hc; try done. intros [= He]. destruct (Hentry c e Hc) as [-> _]. by rewrite He. }
  destruct (initAll_ok cm new filter l Hnd Hndl) as (reg & Hinit & Hregs).
  - intros name Hn Hin%Hnew. by destruct (Hname name Hn) as [? _]; congruence.
  - exact Hregistry.
  - intros l1 c l2 Heq Hne Hc. eapply Hbefore; [exact Heq|]. unfold metric_names, Wiring.instance_of in Hne.
    destruct (cm !! c) as [[e|]|] eqn:He; [|done..]. destruct (Hentry c e He) as [Hcname Hm].
    eapply requests_measured_dep; [exact He|exact Hne| |exact Hm]. intros Hr. rewrite Hr in Hcname. done.
  - exists fs, flags, l. assert (Hmetrics : "metrics" ∈ l).
    { apply Hl. eapply (reached_dep _ _ "prometheus-http").
      - apply reached_root. split; [by destruct (Wiring.isRequestedFromMain cm "prometheus-http") eqn:?; unfold Wiring.isRequestedFromMain in *;
          destruct (Wiring.instance_of cm "prometheus-http") as [[]|]|].
        apply (ck_reqs _ _ _ _ Hok Wiring.MetricsHttp). by destruct p; right; left.
      - exists 1. split; [done|]. unfold Wiring.unrequestDeps.
        destruct (Wiring.instance_of cm "prometheus-http") as [[]|]; try done. cbn. by intros ?%not_elem_of_nil. }
    destruct reg as [reg|]; [|by destruct (Hregs Hmetrics)]. exists reg. do 3 (split; [done|]). split; [done|].
    cbn in Hregs. rewrite Hregs, not_elem_of_union, elem_of_list_to_set. split; [by intros [_ ?]%Hname|by intros ?%Hnew].
Qed.

(** A library that records what is registered and what is done. *)
Module ExampleLibrary.
Import Metric.

#[export] Instance integers : GoFloat Z := {|
  IntToFloat64 z := z; Decimal m e := (m * 10 ^ e)%Z; float_add := Z.add; float_div := Z.div |}.
#[export] Instance library : Prometheus Z (list (list string * Z)) := {|
  Vec := kind * string * list string; Series := list string;
  NewVec k name _ _ keys := (k, name, keys);
  WithLabelValues '(_, name, keys) vs := if length vs =? length keys then Ret (name :: vs) else Panic "inconsistent label cardinality";
  Update _ series x w := w ++ [(series, x)];
  Registry := gset string;
  MustRegister reg '(k, name, keys) :=
    if negb (descriptor_ok k name keys) then Panic "descriptor is invalid"
    else if bool_decide (name ∈ reg) then Panic "duplicate metrics collector registration attempted"
    else Ret ({[ name ]} ∪ reg) |}.
#[export] Instance sketches : Unique.HyperLogLog := {|
  Unique.Sketch := gset string; Unique.New16 := ∅; Unique.Insert v s := {[v]} ∪ s; Unique.Estimate s := Z.of_nat (size s) |}.
#[export] Instance laws : PrometheusLaws Z (list (list string * Z)).
Proof.
  refine {| registered := (λ reg, reg : gset string) |}.
  - intros reg k name help b keys Hname Hok. exists ({[ name ]} ∪ reg). split; [|done]. cbn. rewrite Hok. cbn.
    by rewrite bool_decide_false.
  - intros k name help b keys vs Hlen. cbn. by rewrite Hlen, Nat.eqb_refl.
Defined.
(** The registry with some of the collectors of the library. *)
Definition new : Metric.Registry := ({[ "go_build_info"; "go_goroutines"; "process_cpu_seconds_total" ]} : gset string).
End ExampleLibrary.
Import ExampleLibrary.
#[local] Existing Instance example_pflag.

Lemma process_metrics_register_witness :
  let p := Wiring.AllInOneProcess in let filter := {| Tags.Namespace := true; Tags.User := false |} in
  NoDup (@nil string) ∧ (∀ name, name ∈ registered new → collector_name name = true) ∧
  ∃ cm l reg, Wiring.resolved p = Some (Ret cm) ∧ Startup.initAll cm new filter l = Ret (Some reg) ∧ dns_name ∉ names_in reg.
Proof.
  intros p filter. assert (Hnd : NoDup (@nil string)) by apply NoDup_nil_2.
  assert (Hnew : ∀ name, name ∈ registered new → collector_name name = true).
  { intros name Hname. change (name ∈ (new : gset string)) in Hname. unfold new in Hname. set_unfold in Hname.
    destruct Hname as [[-> | ->] | ->]; reflexivity. }
  split; [exact Hnd|]. split; [exact Hnew|].
  destruct (process_metrics_register [] [] p new filter Hnd Hnew) as (cm & Hcm & [Hfail|Hlist]).
  { destruct Hfail as (name & value & err & Hin & _). apply not_elem_of_nil in Hin as []. }
  destruct Hlist as (fs & flags & l & reg & _ & Hinit & _ & _ & Hdns). exists cm, l, reg. split; [exact Hcm|]. split; [exact Hinit|exact Hdns].
Defined.

(** The webhook measures what happened: once its metrics are registered, observing a request does not panic, whatever pods were handled
    in between and whatever tags are filtered. A request is counted with the time since it arrived under its cell, status and
    cause; an error under the cell and the tags of the error; and a pod that was handled for a PodProtector with its own time under
    its cell, namespace, user, type and whether it was rejected, and once more in the unique counters of every window, for
    the PodProtector and for the pod. *)
Theorem webhook_measures {Float W : Type} `{!GoFloat Float, !Metric.Prometheus Float W, !PrometheusLaws Float W, !Unique.HyperLogLog,
    !GoRuntime} (reg reg' : Meter.registryState) (h : WebhookMeter.handles) :
  WebhookMeter.ProvideMetrics reg = Ret (h, reg') → let f := Meter.tagFilter reg in
  (∀ pods cell t0 t1 ctx request status w, Forall is_pod pods →
    ∃ w', WebhookMeter.HttpRequestComplete h t1 (pods ++ WebhookMeter.HttpRequest t0 cell ctx) request status w = Ret w' ∧
      Meter.uniques w' = Meter.uniques w ∧
      sampled f "webhook_request" "Response latency of webhook server." Meter.FunctionDurationHistogram
        [("cell", cell); ("status", status); ("cause", WebhookMeter.cause request)] (time_Sub t1 t0) w w') ∧
  (∀ pods cell t0 ctx err w, Forall is_pod pods →
    ∃ w', WebhookMeter.HttpError h (pods ++ WebhookMeter.HttpRequest t0 cell ctx) err w = Ret w' ∧ Meter.uniques w' = Meter.uniques w ∧
      sampled f "webhook_http_error" "Number of error events during webhook processing." Meter.IntCounter
        [("cell", cell); ("error", SerializeTags err)] 1%Z w w') ∧
  (∀ t0 t1 arg ctx rejected w,
    ∃ w', WebhookMeter.EndHandlePodInPpr h t1 (WebhookMeter.StartHandlePodInPpr_ t0 arg ctx) rejected w = Ret w' ∧
      sampled f "webhook_handle_pod_in_ppr" "Duration of handling each matched PodProtector for a pod admission event."
        Meter.FunctionDurationHistogram (pod_labels arg rejected) (time_Sub t1 t0) w w' ∧
      ∀ window, window ∈ map_to_list WebhookMeter.UniqueRejectRateWindows →
        Meter.uniques w' !! (ppr_metric window).1 = Some (counted (rejected_tag rejected)
          (WebhookMeter.argNamespace arg +:+ "/" +:+ WebhookMeter.argPprName arg) (Meter.uniques w !! (ppr_metric window).1)) ∧
        Meter.uniques w' !! (pod_metric window).1 = Some (counted (rejected_tag rejected)
          (WebhookMeter.argNamespace arg +:+ "/" +:+ WebhookMeter.argPodName arg) (Meter.uniques w !! (pod_metric window).1))).
Proof.
  intros Hreg f. destruct (webhook_handles _ _ _ Hreg) as (Hrequest & Herror & _). split; [|split].
  - intros pods cell t0 t1 ctx request status w Hpods. unfold WebhookMeter.HttpRequestComplete. rewrite (request_value _ _ _ _ Hpods), Hrequest.
    by apply (Emit_sampled f _ _ _ WebhookMeter.requestTags _
      [("Cell", Meter.Str cell); ("Status", Meter.Str status); ("Cause", Meter.Str (WebhookMeter.cause request))]).
  - intros pods cell t0 ctx err w Hpods. unfold WebhookMeter.HttpError. rewrite (request_value _ _ _ _ Hpods), Herror.
    by apply (Emit_sampled f _ _ _ WebhookMeter.httpErrorTags _ [("Cell", Meter.Str cell); ("Error", Meter.Str (SerializeTags err))]).
  - intros t0 t1 arg ctx rejected w. by eapply EndHandlePodInPpr_measures.
Qed.

(** The user is not shown, and the status is a word. *)
Lemma webhook_measures_witness :
  let reg := {| Meter.PrometheusRegistry := new; Meter.tagFilter := {| Tags.Namespace := true; Tags.User := false |}; Meter.flushables := [] |} in
  ∃ h reg', WebhookMeter.ProvideMetrics reg = Ret (h, reg') ∧
    ∃ w, WebhookMeter.HttpRequestComplete h 9000000000%Z (WebhookMeter.HttpRequest 2000000000%Z "cell-1" []) (Some ("DELETE", "")) "Rejected"
      {| Meter.metrics := []; Meter.uniques := ∅ |} = Ret w ∧
      Meter.metrics w = [(["webhook_request"; "cell-1"; "Rejected"; "DeletePod"], 7%Z)].
Proof.
  intros reg. destruct (webhook_registers reg) as (h & reg' & Hreg & _).
  { split; [apply (bool_decide_eq_true_1 _); vm_compute; reflexivity|].
    intros name Hname. apply (bool_decide_eq_true_1 (name ∉ names_in reg)). revert name Hname. apply Forall_forall.
    apply (bool_decide_eq_true_1 _). vm_compute. reflexivity. }
  exists h, reg'. split; [exact Hreg|].
  destruct (proj1 (webhook_measures reg reg' h Hreg) [] "cell-1" 2000000000%Z 9000000000%Z [] (Some ("DELETE", "")) "Rejected"
    {| Meter.metrics := []; Meter.uniques := ∅ |} (Forall_nil_2 _)) as (w & Hrun & _ & series & Hs & Hm).
  exists w. split; [exact Hrun|]. rewrite Hm. vm_compute in Hs. injection Hs as <-. reflexivity.
Defined.
