(* ===== verification/Logs.v ===== *)
(** * Logs: what the components log

    The implementations of observers that write log lines: [Module Klog] is what the source uses of k8s.io/klog, with
    util/o11y/klog/klog.go, and a module for each [ProvideLogging] (webhook, aggregator, generator, workers, the
    informer of PodProtectors, health checks, leader election). Lines are appended to a list; the clock and the counter of
    reconciliations are read by the caller, and that a line names its caller ([WithCallDepth]) is left out. *)

From Stdlib Require Import Ascii.
From S2P Require Import Prelude Util Errors Iter Flags Api PprUtil Quota Aggregator AggregatorCorrect Metrics Meters.

Module Klog.

(** What is printed of a value. *)
Inductive value : Type := Str (s : string) | Int (z : Z) | Bool (b : bool) | Dur (d : Duration) | Strs (l : list string).
Abbreviation kvs := (list (string * value)).

Inductive severity : Type := Info_ | Error_ (err : option error).
Record line : Type := { sev : severity; msg : string; fields : kvs }.

(** A logger has a level, which adds up, and values for all its lines. *)
Record logger : Type := { level : Z; values : kvs }.
Definition Background : logger := {| level := 0; values := [] |}.
Definition WithValues (l : logger) (kv : kvs) : logger := {| level := level l; values := values l ++ kv |}.
Definition V (l : logger) (n : Z) : logger := {| level := (level l + n)%Z; values := values l |}.

(** A context has loggers and what the implementations put in it; the last one is found. *)
Inductive entry : Type :=
| LoggerCtx (l : logger)
| ExecuteRetryArgs (batchSize : Z)
| WorkerStartTime (t : Time).
Definition loggerKey (e : entry) : option logger := match e with LoggerCtx l => Some l | _ => None end.
Definition executeRetryArgsCtxKey (e : entry) : option Z := match e with ExecuteRetryArgs n => Some n | _ => None end.
Definition workerStartTimeKey (e : entry) : option Time := match e with WorkerStartTime t => Some t | _ => None end.
Definition FromContext (ctx : list entry) : logger := default Background (Meter.Value loggerKey ctx).
Definition NewContext (ctx : list entry) (l : logger) : list entry := LoggerCtx l :: ctx.

Section klog.
(** The flag [-v]. *)
Variable verbosity : Z.

(** Information is written up to the verbosity, errors always. *)
Definition Info (l : logger) (msg : string) (kv : kvs) (w : list line) : list line :=
  if (level l <=? verbosity)%Z then w ++ [{| sev := Info_; msg := msg; fields := values l ++ kv |}] else w.
Definition Error (l : logger) (err : option error) (msg : string) (kv : kvs) (w : list line) : list line :=
  w ++ [{| sev := Error_ err; msg := msg; fields := values l ++ kv |}].
End klog.

(** The tags of an error, numbered. *)
Definition ErrTagKvs (err : option error) : kvs :=
  match err with
  | Some err => imap (λ i tag, ("errorTag" +:+ Strconv.FormatInt (Z.of_nat i), Str tag)) (GetTags err)
  | None => []
  end.

End Klog.

(** ** Webhook (webhook/observer/logging.go) *)
Module WebhookLog.
Import Klog Strings.

Record Request : Type := { Cell : string; RemoteAddr : string }.
Record AdmissionRequest : Type := { reqNamespace : string; reqName : string; reqUID : string; reqDryRun : option bool }.
Record StartHandlePodInPpr : Type := {
  argNamespace : string; argPprName : string; argPodName : string; argPodCell : string; argRequestType : string; argDeleteUserName : string;
  argDeleteUserGroups : list string
}.
Record PprKey : Type := { SourceName : string; keyNamespace : string; keyName : string }.

(** The batch item of the observer, and the histogram of the results needs them as keys. *)
Record BatchItem : Type := { CellId : string }.
#[global] Instance Result_countable : Countable BatchItem.Result.
Proof.
  refine (inj_countable'
    (λ r, match r with
       | BatchItem.ResultUnknown => 0 | BatchItem.ResultNewDisruption => 1 | BatchItem.ResultNoPpr => 2 | BatchItem.ResultAlreadyUnhealthy => 3
       | BatchItem.ResultAlreadyHasBucket => 4 | BatchItem.ResultNeedRetry => 5 | BatchItem.ResultRejected => 6
       end)
    (λ n, match n with
       | 0 => BatchItem.ResultUnknown | 1 => BatchItem.ResultNewDisruption | 2 => BatchItem.ResultNoPpr | 3 => BatchItem.ResultAlreadyUnhealthy
       | 4 => BatchItem.ResultAlreadyHasBucket | 5 => BatchItem.ResultNeedRetry | _ => BatchItem.ResultRejected
       end) _).
  by intros [].
Defined.

(** [Optional.String] of a number. *)
Definition OptionString (v : option Z) : string :=
  match v with Some value => "Some(" +:+ Strconv.FormatInt value +:+ ")" | None => "None" end.

Section webhook.
Context `{!GoRuntime}.
Variables (verbosity : Z).
Abbreviation lines := (list line).

Definition HttpRequest (arg : Request) (ctx : list entry) : list entry :=
  NewContext ctx (WithValues (FromContext ctx) [("peerAddr", Str (RemoteAddr arg)); ("cell", Str (Cell arg))]).

Definition HttpRequestComplete (request : option AdmissionRequest) (status : string) (ctx : list entry) (w : lines) : lines :=
  let logger := FromContext ctx in
  let logger := match request with
    | Some request => WithValues logger [("status", Str status); ("objNamespace", Str (reqNamespace request)); ("objName", Str (reqName request));
        ("requestUid", Str (reqUID request)); ("dryRun", Bool (default false (reqDryRun request)))]
    | None => logger
    end in
  Info verbosity (V logger 4) "webhook request completed" [] w.

Definition HttpError (err : option error) (ctx : list entry) (w : lines) : lines :=
  Error (FromContext ctx) err "HTTP error" (ErrTagKvs err) w.

Definition StartHandlePodInPpr_ (arg : StartHandlePodInPpr) (ctx : list entry) (w : lines) : list entry * lines :=
  let logger := WithValues (FromContext ctx) [("namespace", Str (argNamespace arg)); ("pprName", Str (argPprName arg));
    ("podName", Str (argPodName arg)); ("requestType", Str (argRequestType arg)); ("userName", Str (argDeleteUserName arg));
    ("userGroups", Str (Join (argDeleteUserGroups arg) ","%char))] in
  (NewContext ctx logger, Info verbosity (V logger 2) "handle pod deletion for ppr start" [] w).
Definition EndHandlePodInPpr (rejected : bool) (ctx : list entry) (w : lines) : lines :=
  Info verbosity (WithValues (V (FromContext ctx) 2) [("rejected", Bool rejected)]) "handle pod deletion for ppr end" [] w.

Definition addCounts {K} `{Countable K} (prefix : K → string) (l : logger) (counts : gmap K Z) : logger :=
  foldl (λ l '(k, count), WithValues l [(prefix k, Int count)]) l (map_order counts).

Definition StartExecuteRetry (key : PprKey) (args : list BatchItem) (ctx : list entry) (w : lines) : outcome (list entry * lines) :=
  let logger := WithValues (FromContext ctx) [("namespace", Str (keyNamespace key)); ("name", Str (keyName key))] in
  cellCounts ← Iter.Histogram (Iter.Map (Iter.FromSlice args) CellId);
  let logger := addCounts (λ cellId, "cell." +:+ cellId) logger cellCounts in
  let w := Info verbosity (V logger 4) "start executing ppr update batch" [] w in
  Ret (NewContext (ExecuteRetryArgs (Z.of_nat (length args)) :: ctx) logger, w).
Definition EndExecuteRetrySuccess (Results : Z → BatchItem.Result) (ctx : list entry) (w : lines) : outcome lines :=
  batchSize ← Meter.MustValue executeRetryArgsCtxKey ctx;
  results ← Iter.Histogram (Iter.Map (Iter.Range 0 batchSize) Results);
  Ret (Info verbosity (V (addCounts (λ result, "result." +:+ BatchItem.String result) (FromContext ctx) results) 3) "ppr update batch successful" [] w).
Definition EndExecuteRetryRetry (delay : Duration) (ctx : list entry) (w : lines) : lines :=
  Info verbosity (V (WithValues (FromContext ctx) [("delay", Dur delay)]) 4) "ppr update batch needs retry" [] w.
Definition EndExecuteRetryErr (err : option error) (ctx : list entry) (w : lines) : lines :=
  Error (FromContext ctx) err "ppr update batch error" (ErrTagKvs err) w.

Definition AdmitBatchState (key : PprKey) (state : DisruptionQuota.State) (batchSize : Z) (after : bool) (ctx : list entry) (w : lines) : lines :=
  let when := if after then "after" else "before" in
  let threshold := DisruptionQuota.Threshold state in
  Info verbosity (V (FromContext ctx) 4) "admit batch quota"
    [("when", Str when); ("ppr.source", Str (SourceName key)); ("ppr.namespace", Str (keyNamespace key)); ("ppr.name", Str (keyName key));
     ("batchSize", Int batchSize); ("state.scheduled", Int (DisruptionQuota.Scheduled state)); ("state.running", Int (DisruptionQuota.Running state));
     ("state.ready", Int (DisruptionQuota.Ready state)); ("state.available", Int (DisruptionQuota.Available state));
     ("state.threshold.reject", Int (DisruptionQuota.Reject threshold)); ("state.threshold.retry", Int (DisruptionQuota.Retry threshold));
     ("state.threshold.remaining", Str (OptionString (DisruptionQuota.Remaining threshold)))] w.

Definition ExecuteBatchItem (cellId podName : string) (criterion : HealthCriterion.Criterion) (result : BatchItem.Result) (ctx : list entry)
    (w : lines) : lines :=
  Info verbosity (V (FromContext ctx) 4) "execute batch item"
    [("cell", Str cellId); ("pod", Str podName); ("criterion", Str (HealthCriterion.String criterion)); ("result", Str (BatchItem.String result))] w.

End webhook.
End WebhookLog.

(** ** Aggregator (aggregator/observer/logging.go) *)
Module AggregatorLog.
Import Klog.
Section aggregator.
Variable verbosity : Z.
Abbreviation lines := (list line).

Record Aggregated : Type := {
  NumPods : Z; ReadyReplicas : Z; ScheduledReplicas : Z; RunningReplicas : Z; AvailableReplicas : Z; PendingReplicas : Z;
  UnscheduledPendingReplicas : Z
}.

Definition StartReconcile (namespace name : string) (ctx : list entry) (w : lines) : list entry * lines :=
  let logger := WithValues (FromContext ctx) [("namespace", Str namespace); ("name", Str name)] in
  (NewContext ctx logger, Info verbosity (V logger 2) "reconcile start" [] w).
(** The constants of [ReconcileAction]. *)
Definition ActionString (action : Aggregator.ReconcileAction) : string :=
  match action with
  | Aggregator.ReconcileActionNone => ""
  | Aggregator.ReconcileActionNoPpr => "NoPpr"
  | Aggregator.ReconcileActionSelectorMismatch => "SelectorMismatch"
  | Aggregator.ReconcileActionUpdated => "Updated"
  end.
(** The mask of changes is a uint32. *)
Definition EndReconcile (arg : Aggregator.EndReconcile) (ctx : list entry) (w : lines) : outcome lines :=
  hasChange ← HasChange.String Aggregator.BitToString 32 (Aggregator.HasChange arg);
  let logger := WithValues (V (FromContext ctx) 4) [("hasChange", Str hasChange); ("action", Str (ActionString (Aggregator.Action arg)))] in
  Ret (if Optional.IsSome (Aggregator.Err arg) then Error logger (Aggregator.Err arg) "reconcile error" [] w
       else Info verbosity logger "reconcile complete" [] w).
Definition EnqueueError (namespace name : string) (err : option error) (ctx : list entry) (w : lines) : lines :=
  Error (FromContext ctx) err "handle reflector event" [("namespace", Str namespace); ("name", Str name)] w.
Definition Aggregated_ (arg : Aggregated) (ctx : list entry) (w : lines) : lines :=
  Info verbosity (V (FromContext ctx) 4) "Updated PodProtector aggregation status"
    [("numPods", Int (NumPods arg)); ("readyReplicas", Int (ReadyReplicas arg)); ("scheduledReplicas", Int (ScheduledReplicas arg));
     ("runningReplicas", Int (RunningReplicas arg)); ("availableReplicas", Int (AvailableReplicas arg));
     ("pendingReplicas", Int (PendingReplicas arg)); ("unscheduledPendingReplicas", Int (UnscheduledPendingReplicas arg))] w.
Definition TriggerPodCreate (err : option error) (ctx : list entry) (w : lines) : lines :=
  if Optional.IsSome err then Error (FromContext ctx) err "error creating update-trigger pod" (ErrTagKvs err) w else w.
Definition TriggerPodUpdate (err : option error) (ctx : list entry) (w : lines) : lines :=
  if Optional.IsSome err then Error (FromContext ctx) err "error updating update-trigger pod" (ErrTagKvs err) w else w.
End aggregator.
End AggregatorLog.

(** ** Generator (generator/observer/logging.go) *)
Module GeneratorLog.
Import Klog.

Record object : Type := { Group : string; Version : string; Resource : string; Namespace : string; Name : string }.
Definition objectKvs (arg : object) : kvs :=
  [("group", Str (Group arg)); ("version", Str (Version arg)); ("resource", Str (Resource arg)); ("namespace", Str (Namespace arg));
   ("name", Str (Name arg))].

Section generator.
Variable verbosity : Z.
Abbreviation lines := (list line).

Definition InterpretProtectors (arg : object) (decisions : list string) (requiredProtectors : Z) (ctx : list entry) (w : lines) : lines :=
  Info verbosity (V (WithValues (FromContext ctx) (objectKvs arg ++ [("decisions", Strs decisions); ("requiredProtectors", Int requiredProtectors)])) 4)
    "interpret protectors" [] w.
Definition StartReconcile (arg : object) (ctx : list entry) (w : lines) : list entry * lines :=
  let logger := WithValues (FromContext ctx) (objectKvs arg) in
  (NewContext ctx logger, Info verbosity (V logger 2) "reconcile start" [] w).
Definition EndReconcile (action pprName : string) (ctx : list entry) (w : lines) : lines :=
  Info verbosity (V (WithValues (FromContext ctx) [("action", Str action); ("pprName", Str pprName)]) 4) "finished" [] w.
Definition DanglingProtector (ppr : PodProtector) (ctx : list entry) (w : lines) : lines :=
  let kv := [("namespace", Str (Api.Namespace (pprMeta ppr))); ("name", Str (Api.Name (pprMeta ppr)))] in
  if IsZeroPtr (DeletionTimestamp (pprMeta ppr)) then Info verbosity (FromContext ctx) "Identified dangling PodProtector object" kv w
  else Info verbosity (V (FromContext ctx) 4) "PodProtector object is still finalizing" kv w.
Definition CreateProtector (ctx : list entry) (w : lines) : lines :=
  Info verbosity (V (FromContext ctx) 3) "Creating corresponding PodProtector object" [] w.
Definition SyncProtector (ctx : list entry) (w : lines) : lines :=
  Info verbosity (V (FromContext ctx) 3) "Sync template to PodProtector object" [] w.
Definition DeleteProtector (ctx : list entry) (w : lines) : lines :=
  Info verbosity (V (FromContext ctx) 3) "Cascade deleting PodProtector object" [] w.
Definition CleanSourceFinalizer (arg : object) (ctx : list entry) (w : lines) : lines :=
  Info verbosity (WithValues (V (FromContext ctx) 3) (objectKvs arg))
    "No PodProtectors present, ensuring finalizer removal from source object" [] w.
End generator.
End GeneratorLog.

(** ** Workers, the informer of PodProtectors, health checks and leader election *)
Module WorkerLog.
Import Klog.
Section worker.
Variable verbosity : Z.

(** The counter of reconciliations is a machine integer. *)
Definition StartReconcile (now : Time) (workerName : string) (nextReconcileId : Z) (ctx : list entry) : list entry * Z :=
  let ctx := WorkerStartTime now :: ctx in
  let id := ((nextReconcileId + 1) `mod` 2 ^ 64)%Z in
  (NewContext ctx (WithValues (FromContext ctx) [("worker", Str workerName); ("reconcile", Int id)]), id).
Definition EndReconcile (now : Time) (err : option error) (ctx : list entry) (w : list line) : outcome (list line) :=
  startTime ← Meter.MustValue workerStartTimeKey ctx;
  let logger := WithValues (FromContext ctx) [("duration", Dur (time_Sub now startTime))] in
  Ret (if Optional.IsSome err then Error logger err "reconcile error" (ErrTagKvs err) w
       else Info verbosity (V logger 3) "reconcile complete" [] w).
End worker.
End WorkerLog.

Module InformerLog.
Import Klog.
Section informer.
Variable verbosity : Z.
Definition HandleEventError (namespace name : string) (err : option error) (ctx : list entry) (w : list line) : list line :=
  Error (FromContext ctx) err "handle reflector event" (ErrTagKvs err ++ [("namespace", Str namespace); ("name", Str name)]) w.
Definition UpdateSourceList (additions removals newLength : Z) (ctx : list entry) (w : list line) : list line :=
  if negb (additions =? 0)%Z || negb (removals =? 0)%Z
  then Info verbosity (WithValues (FromContext ctx) [("additions", Int additions); ("removals", Int removals); ("newLength", Int newLength)])
    "PodProtector source list updated" [] w
  else w.
Definition UpdateSourceListError (err : option error) (ctx : list entry) (w : list line) : list line :=
  Error (FromContext ctx) err "updating source list" (ErrTagKvs err) w.
End informer.
End InformerLog.

Module HealthzLog.
Import Klog.
Definition CheckFailed (checkName : string) (err : option error) (ctx : list entry) (w : list line) : list line :=
  Error (FromContext ctx) err "health check failed" (ErrTagKvs err ++ [("check", Str checkName)]) w.
End HealthzLog.

Module ElectorLog.
Import Klog ElectorMeter.
Section elector.
Variable verbosity : Z.
Definition electorKvs (arg : ElectorObserverArg) : kvs :=
  [("electorName", Str (ElectorName arg)); ("clusterName", Str (ClusterName arg)); ("identity", Str (Identity arg))].
Definition Acquired (arg : ElectorObserverArg) (ctx : list entry) (w : list line) : list line :=
  Info verbosity (FromContext ctx) "Acquired leader lease" (electorKvs arg) w.
Definition Lost (arg : ElectorObserverArg) (ctx : list entry) (w : list line) : list line :=
  Info verbosity (FromContext ctx) "Lost leader lease" (electorKvs arg) w.
End elector.
End ElectorLog.

(** ** Lemmas *)
Section log_lemmas.
Import Klog.
Implicit Types (ctx : list entry) (w : list line).

(** What is written starts with the values of the context. *)
Definition attributed ctx w w' : Prop :=
  ∃ ls, w' = w ++ ls ∧ Forall (λ l, values (FromContext ctx) `prefix_of` fields l) ls.

Lemma Info_attributed verbosity ctx (l : logger) msg kv w :
  values (FromContext ctx) `prefix_of` values l → attributed ctx w (Info verbosity l msg kv w).
Proof.
  intros Hl. unfold Info. destruct (level l <=? verbosity)%Z; [|exists []; by rewrite app_nil_r].
  eexists. split; [done|]. apply Forall_singleton. cbn. by apply prefix_app_r.
Qed.
Lemma Error_attributed ctx (l : logger) err msg kv w :
  values (FromContext ctx) `prefix_of` values l → attributed ctx w (Error l err msg kv w).
Proof. intros Hl. eexists. split; [done|]. apply Forall_singleton. cbn. by apply prefix_app_r. Qed.

Lemma addCounts_values `{!GoRuntime} {K} `{Countable K} (prefix : K → string) l counts :
  values l `prefix_of` values (WebhookLog.addCounts prefix l counts).
Proof.
  unfold WebhookLog.addCounts. revert l. induction (map_order counts) as [|[k n] kns IH]; intros l; [done|]. cbn.
  etrans; [|apply IH]. cbn. by apply prefix_app_r.
Qed.

(** Counting the items of an iterator does not panic. *)
Lemma Histogram_Ret {K} `{Countable K} (it : Iter.Iter K) l : visits it l → ∃ counts, Iter.Histogram it = Ret counts.
Proof.
  intros Hit. unfold Iter.Histogram. rewrite (Hit _ _ (λ output item, <[item := (default 0%Z (output !! item) + 1)%Z]> output)) by done.
  by eexists.
Qed.

Lemma FromContext_NewContext ctx l : FromContext (NewContext ctx l) = l.
Proof. done. Qed.

(** The tags of an error have keys of their own, and stay in their order. *)
Lemma ErrTagKvs_spec (err : error) :
  NoDup (ErrTagKvs (Some err)).*1 ∧ (ErrTagKvs (Some err)).*2 = Str <$> GetTags err.
Proof.
  unfold ErrTagKvs. split.
  - rewrite fmap_imap. apply NoDup_alt. intros i j k Hi Hj. rewrite !list_lookup_imap in Hi, Hj.
    apply fmap_Some in Hi as (t & Hi & ->). apply fmap_Some in Hj as (t' & Hj & Heq). cbn in Heq.
    apply (inj _) in Heq. unfold Strconv.FormatInt in Heq. apply (inj _) in Heq. lia.
  - rewrite fmap_imap. apply list_eq. intros i. by rewrite list_lookup_imap, list_lookup_fmap.
Qed.

End log_lemmas.

(** ** Properties *)

(** Whatever the webhook logs while it handles a pod for a PodProtector says where the request came from, its cell, the
    PodProtector, the pod and the user, after what the context had already; errors are written at every verbosity, with their tags. *)
Theorem webhook_lines_attributed `{!GoRuntime} (verbosity : Z) (req : WebhookLog.Request)
    (arg : WebhookLog.StartHandlePodInPpr) (ctx0 : list Klog.entry) (w0 : list Klog.line) :
  let '(ctx, w1) := WebhookLog.StartHandlePodInPpr_ verbosity arg (WebhookLog.HttpRequest req ctx0) w0 in
  Klog.values (Klog.FromContext ctx) = Klog.values (Klog.FromContext ctx0) ++
    [("peerAddr", Klog.Str (WebhookLog.RemoteAddr req)); ("cell", Klog.Str (WebhookLog.Cell req));
     ("namespace", Klog.Str (WebhookLog.argNamespace arg)); ("pprName", Klog.Str (WebhookLog.argPprName arg));
     ("podName", Klog.Str (WebhookLog.argPodName arg)); ("requestType", Klog.Str (WebhookLog.argRequestType arg));
     ("userName", Klog.Str (WebhookLog.argDeleteUserName arg));
     ("userGroups", Klog.Str (Strings.Join (WebhookLog.argDeleteUserGroups arg) ","%char))] ∧
  (∀ rejected w, attributed ctx w (WebhookLog.EndHandlePodInPpr verbosity rejected ctx w)) ∧
  (∀ request status w, attributed ctx w (WebhookLog.HttpRequestComplete verbosity request status ctx w)) ∧
  (∀ key state n after w, attributed ctx w (WebhookLog.AdmitBatchState verbosity key state n after ctx w)) ∧
  (∀ cell pod criterion result w, attributed ctx w (WebhookLog.ExecuteBatchItem verbosity cell pod criterion result ctx w)) ∧
  (∀ key args w, ∃ ctx' w', WebhookLog.StartExecuteRetry verbosity key args ctx w = Ret (ctx', w') ∧ attributed ctx w w' ∧
    Klog.values (Klog.FromContext ctx) `prefix_of` Klog.values (Klog.FromContext ctx') ∧
    ∀ Results w, ∃ w', WebhookLog.EndExecuteRetrySuccess verbosity Results ctx' w = Ret w' ∧ attributed ctx' w w') ∧
  ∀ err w, attributed ctx w (WebhookLog.HttpError err ctx w) ∧
    ∃ line, WebhookLog.HttpError err ctx w = w ++ [line] ∧ Klog.sev line = Klog.Error_ err ∧
      Klog.fields line = Klog.values (Klog.FromContext ctx) ++ Klog.ErrTagKvs err.
Proof.
  unfold WebhookLog.StartHandlePodInPpr_. split; [cbn; by rewrite <- app_assoc|].
  split; [intros; apply Info_attributed; cbn; by apply prefix_app_r|].
  split; [intros [] ? ?; apply Info_attributed; cbn; [by apply prefix_app_r|done]|].
  split; [intros; by apply Info_attributed|]. split; [intros; by apply Info_attributed|]. split.
  - intros key args w. unfold WebhookLog.StartExecuteRetry.
    destruct (Histogram_Ret (Iter.Map (Iter.FromSlice args) WebhookLog.CellId) (WebhookLog.CellId <$> args)) as [counts ->]; [by apply pushes_visits, pushes_Map, FromSlice_pushes|].
    cbn [mbind outcome_bind]. eexists _, _. split; [done|].
    rewrite FromContext_NewContext. split; [|split].
    + apply Info_attributed. cbn [Klog.V Klog.values]. etrans; [|apply addCounts_values]. by apply prefix_app_r.
    + etrans; [|apply addCounts_values]. by apply prefix_app_r.
    + intros Results w1. unfold WebhookLog.EndExecuteRetrySuccess. cbn [Meter.MustValue Meter.Value omap list_omap ].
      unfold Meter.MustValue, Meter.Value. cbn [omap list_omap Klog.NewContext Klog.executeRetryArgsCtxKey head mbind outcome_bind].
      destruct (Histogram_Ret (Iter.Map (Iter.Range 0 (Z.of_nat (length args))) Results) _
        (pushes_visits _ _ (pushes_Map _ _ Results (FromSlice_pushes _)))) as [counts' ->].
      cbn [mbind outcome_bind]. eexists. split; [done|]. apply Info_attributed. apply addCounts_values.
  - intros err w. split; [by apply Error_attributed|]. eexists. by split.
Qed.

(** Every error that an observer is told of is one line with the error, at any verbosity: of a reconciliation (with its
    worker, number and duration), of the informer, of a health check, of the aggregator; without an error there is none. *)
Theorem errors_always_logged (verbosity : Z) (err : error) (ctx : list Klog.entry) (w : list Klog.line) :
  let one (w' : list Klog.line) := ∃ line, w' = w ++ [line] ∧ Klog.sev line = Klog.Error_ (Some err) in
  (∀ start now name id w0,
    let '(ctx', id') := WorkerLog.StartReconcile start name id ctx in
    (∃ line, WorkerLog.EndReconcile verbosity now (Some err) ctx' w = Ret (w ++ [line]) ∧ Klog.sev line = Klog.Error_ (Some err) ∧
      Klog.fields line = Klog.values (Klog.FromContext ctx) ++ [("worker", Klog.Str name); ("reconcile", Klog.Int id')] ++
        [("duration", Klog.Dur (time_Sub now start))] ++ Klog.ErrTagKvs (Some err)) ∧
    ∃ w', WorkerLog.EndReconcile verbosity now None ctx' w0 = Ret w' ∧ attributed ctx w0 w') ∧
  (∀ namespace name, one (InformerLog.HandleEventError namespace name (Some err) ctx w)) ∧
  one (InformerLog.UpdateSourceListError (Some err) ctx w) ∧
  (∀ check, one (HealthzLog.CheckFailed check (Some err) ctx w)) ∧
  (∀ namespace name, one (AggregatorLog.EnqueueError namespace name (Some err) ctx w)) ∧
  one (AggregatorLog.TriggerPodCreate (Some err) ctx w) ∧ one (AggregatorLog.TriggerPodUpdate (Some err) ctx w) ∧
  AggregatorLog.TriggerPodCreate None ctx w = w ∧ AggregatorLog.TriggerPodUpdate None ctx w = w ∧
  InformerLog.UpdateSourceList verbosity 0 0 (Z.of_nat (length w)) ctx w = w.
Proof.
  cbv zeta. split; [|by repeat (split; intros; try (by eexists))].
  intros start now name id w0. unfold WorkerLog.StartReconcile. split.
  - eexists. split; [done|]. split; [done|]. cbn. by rewrite <- !app_assoc.
  - eexists. split; [done|]. apply Info_attributed. cbn. rewrite <- app_assoc. by apply prefix_app_r.
Qed.

(** The end of any reconciliation of the aggregator is logged without a panic of [BitToString], with the names of the
    causes of its changes in the order of their bits; an error is written at every verbosity. *)
Theorem aggregator_changes_logged `{!GoRuntime} {W : Type} (HashFNV32 : string → Z) pprInformer_Get Matches
    (UpdateStatus : string → PodProtector → W → option error * W) (clk : nat → Time) (pushNow : Time) (my : string) defaultConfig
    (index : Aggregator.SetsIndex) key (s s' : Aggregator.reconcileState (W := W)) (arg : Aggregator.EndReconcile) (verbosity : Z) ctx w :
  Aggregator.tryReconcile HashFNV32 pprInformer_Get Matches UpdateStatus clk pushNow my defaultConfig index key s = Ret (arg, s') →
  let line := {|
    Klog.sev := match Aggregator.Err arg with Some err => Klog.Error_ (Some err) | None => Klog.Info_ end;
    Klog.msg := match Aggregator.Err arg with Some _ => "reconcile error" | None => "reconcile complete" end;
    Klog.fields := Klog.values (Klog.FromContext ctx) ++
      [("hasChange", Klog.Str (causeNames (HasChange.mask (Aggregator.HasChange arg))));
       ("action", Klog.Str (AggregatorLog.ActionString (Aggregator.Action arg)))] |} in
  AggregatorLog.EndReconcile verbosity arg ctx w = Ret
    (if Optional.IsSome (Aggregator.Err arg) || (Klog.level (Klog.FromContext ctx) + 4 <=? verbosity)%Z then w ++ [line] else w).
Proof.
  intros Hr%tryReconcile_known line. unfold AggregatorLog.EndReconcile. rewrite String_known by done. cbn [mbind outcome_bind].
  f_equal. subst line. unfold Klog.Error, Klog.Info. cbn [Klog.V Klog.WithValues Klog.level Klog.values].
  destruct (Aggregator.Err arg); cbn [Optional.IsSome orb]; rewrite app_nil_r; [done|]. by case_match.
Qed.
