(* ===== verification/Http.v ===== *)
(** * Http: the servers of the components (util/http, util/healthz/server.go, util/pprof, util/o11y/metrics/http.go)

    [Module ServeMux] is what the source uses of the multiplexer of net/http, [Module Http] is util/http/http.go: its options,
    its servers and their lifecycle as a step relation, [Module Routes] is what each component registers. What a handler does with a request, the
    endpoints of net/http/pprof and of promhttp, and the handler of controller-runtime are parameters. *)

From Stdlib Require Import Ascii.
From S2P Require Import Prelude Util Errors Flags Process.

(** ** net/http: patterns and requests *)
Module ServeMux.
Import Strings.

(** The path of a request is clean: segments after each slash, of which only the last may be empty. *)
Record Request : Type := { Method : string; Host : string; Path : list string }.
Definition pathString (path : list string) : string := String.concat "" ((λ segment, "/" +:+ segment) <$> path).

(** A last segment [Multi] matches any rest of the path. *)
Inductive segment : Type := Lit (s : string) | Wild (name : string) | Multi.
Record pattern : Type := { patMethod : string; patHost : string; patPath : list segment }.

#[export] Instance segment_eq_dec : EqDecision segment.
Proof. solve_decision. Defined.
#[export] Instance pattern_eq_dec : EqDecision pattern.
Proof. solve_decision. Defined.

Definition contains (s : string) (c : ascii) : bool := negb (IndexRune s c =? -1)%Z.
Definition parseSegment (isLast : bool) (s : string) : outcome segment :=
  if bool_decide (s = "") then (if isLast then Ret Multi else Panic "non-CONNECT pattern with unclean path can never match")
  else if bool_decide (s = ".") || bool_decide (s = "..") then Panic "non-CONNECT pattern with unclean path can never match"
  else if contains s "{"%char then
    match String.list_ascii_of_string s, last (String.list_ascii_of_string s) with
    | c :: name, Some d =>
        if bool_decide (c = "{"%char) && bool_decide (d = "}"%char)
        then Ret (Wild (String.string_of_list_ascii (removelast name)))
        else Panic "bad wildcard segment"
    | _, _ => Panic "bad wildcard segment"
    end
  else Ret (Lit s).
Fixpoint parseSegments (words : list string) : outcome (list segment) :=
  match words with
  | [] => Ret []
  | word :: words => s ← parseSegment (bool_decide (words = [])) word; ss ← parseSegments words; Ret (s :: ss)
  end.

(** A method and a space, if there is one; the host; and the path. *)
Definition parsePattern (s : string) : outcome pattern :=
  let i := IndexRune s " "%char in
  let '(method, rest) := if (i =? -1)%Z then ("", s) else (slice_to s i, slice_from s (i + 1)%Z) in
  match Split rest "/"%char with
  | host :: word :: words =>
      path ← parseSegments (word :: words);
      Ret {| patMethod := method; patHost := host; patPath := path |}
  | _ => Panic "host/path missing /"
  end.

(** The values of the wildcards, if the path matches. *)
Fixpoint matchPath (ps : list segment) (path : list string) : option (list (string * string)) :=
  match ps, path with
  | [], [] => Some []
  | [Multi], _ :: _ => Some []
  | Lit s :: ps, r :: path => if bool_decide (r = s) then matchPath ps path else None
  | Wild name :: ps, r :: path => if bool_decide (r = "") then None else ((name, r) ::.) <$> matchPath ps path
  | _, _ => None
  end.
Definition matchHost (p : pattern) (r : Request) : bool := bool_decide (patHost p = "") || bool_decide (patHost p = Host r).
Definition matchMethod (p : pattern) (r : Request) : bool :=
  bool_decide (patMethod p = "") || bool_decide (patMethod p = Method r) ||
  bool_decide (patMethod p = "GET") && bool_decide (Method r = "HEAD").

(** Literals are more specific than wildcards, and those than a rest; patterns of one component do not differ in their hosts. *)
Fixpoint more_specific (ps qs : list segment) : bool :=
  match ps, qs with
  | Lit _ :: ps, Lit _ :: qs | Wild _ :: ps, Wild _ :: qs => more_specific ps qs
  | Lit _ :: _, _ | Wild _ :: _, Multi :: _ => true
  | _, _ => false
  end.

Section mux.
Context {R : Type}.

(** A handler sees the path and the values of the wildcards. *)
Inductive reply : Type := Reply (r : R) | NotFound | MethodNotAllowed | Redirect (path : string).
Definition handler : Type := string → list (string * string) → reply.
Definition mux : Type := list (pattern * handler).
Definition NewServeMux : mux := [].
Definition Handle (m : mux) (s : string) (h : handler) : outcome mux :=
  p ← parsePattern s;
  if bool_decide (p ∈ m.*1) then Panic "pattern conflicts with pattern" else Ret (m ++ [(p, h)]).

Definition matches (m : mux) (r : Request) : list (pattern * handler * list (string * string)) :=
  omap (λ '(p, h), if matchHost p r then (λ values, (p, h, values)) <$> matchPath (patPath p) (Path r) else None) m.
Definition best (l : list (pattern * handler * list (string * string))) : option (pattern * handler * list (string * string)) :=
  foldl (λ found new, match found with
    | Some old => if more_specific (patPath new.1.1) (patPath old.1.1) then Some new else found
    | None => Some new
    end) None l.
Definition allowed (m : mux) (r : Request) : list (pattern * handler * list (string * string)) :=
  filter (λ c, matchMethod c.1.1 r = true) (matches m r).

(** A path without a handler is redirected if there is one for it with a slash at its end. *)
Definition slashed (r : Request) : Request := {| Method := Method r; Host := Host r; Path := Path r ++ [""] |}.
Definition ServeHTTP (m : mux) (r : Request) : reply :=
  match best (allowed m r) with
  | Some (_, h, values) => h (pathString (Path r)) values
  | None =>
      let redirect := match best (allowed m (slashed r)) with
        | Some (p, _, _) => bool_decide (length (patPath p) = length (Path (slashed r)))
        | None => false
        end in
      if redirect then Redirect (pathString (Path (slashed r)))
      else if bool_decide (matches m r = []) then NotFound else MethodNotAllowed
  end.

(** [http.StripPrefix(prefix, h)]. *)
Definition StripPrefix (prefix : string) (h : handler) : handler := λ path values,
  if String.prefix prefix path
  then h (String.substring (String.length prefix) (String.length path - String.length prefix) path) values
  else NotFound.

End mux.
Arguments reply R : clear implicits.
Arguments handler R : clear implicits.
Arguments mux R : clear implicits.
End ServeMux.

(** ** util/http *)
Module Http.
Import ServeMux.

Record serverOptions : Type := { Enable : bool; BindAddr : string; Port : Z }.
(** The defaults of the flags; [Wiring] has their names. *)
Definition newServerOptions (defaultEnable : bool) (defaultBindAddr : string) (defaultPort : Z) : serverOptions :=
  {| Enable := defaultEnable; BindAddr := defaultBindAddr; Port := defaultPort |}.

Record wrappedOptions (Inner : Type) : Type := {
  HttpOpts : serverOptions;
  HttpsOpts : serverOptions;
  HttpsCert : string;
  HttpsKey : string;
  ReadHeaderTimeout : Duration;
  inner : Inner
}.
Arguments HttpOpts {Inner} _.
Arguments HttpsOpts {Inner} _.
Arguments ReadHeaderTimeout {Inner} _.
Arguments inner {Inner} _.
Definition newOptions {Inner} (defaultHttpPort defaultHttpsPort : Z) (inner : Inner) : wrappedOptions Inner := {|
  HttpOpts := newServerOptions true "::1" defaultHttpPort;
  HttpsOpts := newServerOptions false "::1" defaultHttpsPort;
  HttpsCert := ""; HttpsKey := ""; ReadHeaderTimeout := (10 * Second)%Z; inner := inner |}.

(** [net.JoinHostPort]. *)
Definition JoinHostPort (host port : string) : string :=
  if contains host ":"%char then "[" +:+ host +:+ "]:" +:+ port else host +:+ ":" +:+ port.

Record Server (R : Type) : Type := { Addr : string; Handler : mux R; headerTimeout : Duration }.
Arguments Addr {R} _.
Arguments Handler {R} _.
Definition newServer {Inner R} (so : serverOptions) (options : wrappedOptions Inner) (m : mux R) : option (Server R) :=
  if negb (Enable so) then None
  else Some {| Addr := JoinHostPort (BindAddr so) (Strconv.FormatInt (Port so)); Handler := m; headerTimeout := ReadHeaderTimeout options |}.

Section server.
Context {Inner Deps State R W : Type}.

(** What [DeclareServer] is given of a component; the parts of a lifecycle may be nil. *)
Record declaration : Type := {
  name : string;
  registerHandler : Inner → Deps → mux R → outcome (mux R * (State + error));
  lifecycleStart : option (W → option error * W);
  lifecycleJoin : option (W → option error * W);
  lifecycleHealthChecks : option (gmap string (option (W → option error)))
}.
Variable d : declaration.

Record wrappedState : Type := { httpServer : option (Server R); httpsServer : option (Server R); innerState : State }.
Definition Init (options : wrappedOptions Inner) (deps : Deps) : outcome (wrappedState + error) :=
  '(m, res) ← registerHandler d (inner options) deps NewServeMux;
  match res with
  | inr err => Ret (inr err)
  | inl st => Ret (inl {| httpServer := newServer (HttpOpts options) options m;
                          httpsServer := newServer (HttpsOpts options) options m; innerState := st |})
  end.
Definition HealthChecks : gmap string (option (W → option error)) := default ∅ (lifecycleHealthChecks d).

(** *** A running component

    A server is served in a goroutine of its own: it has not been started, its goroutine has not called [ListenAndServe] yet, it listens,
    it could not (its port is taken, say), or it was shut down. Requests are in progress until their handlers return. *)
Inductive phase : Type := Idle | Spawned | Listening | Failed | Closed.
Record serving : Type := { server : Server R; serverPhase : phase; active : list nat }.
(** [Join] goes through the HTTP server and the HTTPS server: it is about to shut one down, waits for its requests, is about to join the wrapped
    component, or has returned. *)
Inductive joining : Type := NotJoining | Shutting (k : nat) | Waiting (k : nat) | JoinInner | Returned (err : option error).
(** All requests have contexts that are done when [ctxDone]: the context of [Start] is their base. *)
Record state : Type := {
  servers : list (option serving);
  join : joining;
  ctxDone : bool;
  innerJoined : bool;
  world : W;
  logs : list string
}.

Definition newServing (s : Server R) : serving := {| server := s; serverPhase := Idle; active := [] |}.
Definition newState (st : wrappedState) (w : W) : state := {|
  servers := [newServing <$> httpServer st; newServing <$> httpsServer st];
  join := NotJoining; ctxDone := false; innerJoined := false; world := w; logs := [] |}.

Definition with_servers (s : state) (l : list (option serving)) : state :=
  {| servers := l; join := join s; ctxDone := ctxDone s; innerJoined := innerJoined s; world := world s; logs := logs s |}.
Definition with_join (s : state) (j : joining) : state :=
  {| servers := servers s; join := j; ctxDone := ctxDone s; innerJoined := innerJoined s; world := world s; logs := logs s |}.
Definition with_world (s : state) (w : W) : state :=
  {| servers := servers s; join := join s; ctxDone := ctxDone s; innerJoined := innerJoined s; world := w; logs := logs s |}.
Definition with_phase (sv : serving) (p : phase) : serving := {| server := server sv; serverPhase := p; active := active sv |}.
Definition with_active (sv : serving) (l : list nat) : serving := {| server := server sv; serverPhase := serverPhase sv; active := l |}.

Definition Start (s : state) : option error * state :=
  let '(err, w) := match lifecycleStart d with Some start => start (world s) | None => (None, world s) end in
  match err with
  | Some err => (Some (TagWrapf "StartInner" (Some err) "start inner lifecycle"), with_world s w)
  | None => (None, with_servers (with_world s w) ((λ o : option serving, (λ sv, with_phase sv Spawned) <$> o) <$> servers s))
  end.

Definition display (i : nat) : string := if i =? 0 then "HTTP" else "HTTPS".
Inductive step (s : state) : state → Prop :=
| step_listen i sv :
    servers s !! i = Some (Some sv) → serverPhase sv = Spawned →
    step s (with_servers s (<[i := Some (with_phase sv Listening)]> (servers s)))
| step_fail i sv :
    servers s !! i = Some (Some sv) → serverPhase sv = Spawned ∨ serverPhase sv = Listening →
    step s {| servers := <[i := Some (with_phase sv Failed)]> (servers s); join := join s; ctxDone := ctxDone s;
              innerJoined := innerJoined s; world := world s;
              logs := logs s ++ [name d +:+ " " +:+ display i +:+ " server error"] |}
| step_request i sv request :
    servers s !! i = Some (Some sv) → serverPhase sv = Listening →
    step s (with_servers s (<[i := Some (with_active sv (active sv ++ [request]))]> (servers s)))
| step_answer i sv l1 request l2 :
    servers s !! i = Some (Some sv) → active sv = l1 ++ request :: l2 →
    step s (with_servers s (<[i := Some (with_active sv (l1 ++ l2))]> (servers s)))
| step_stop :
    step s {| servers := servers s; join := join s; ctxDone := true; innerJoined := innerJoined s; world := world s; logs := logs s |}
(** A process joins its components after its context is done. *)
| step_join :
    join s = NotJoining → ctxDone s = true → step s (with_join s (Shutting 0))
| step_nil k :
    join s = Shutting k → servers s !! k = Some None → step s (with_join s (Shutting (S k)))
| step_shutdown k sv :
    join s = Shutting k → servers s !! k = Some (Some sv) →
    step s (with_join (with_servers s (<[k := Some (with_phase sv Closed)]> (servers s))) (Waiting k))
| step_drained k sv :
    join s = Waiting k → servers s !! k = Some (Some sv) → active sv = [] → step s (with_join s (Shutting (S k)))
(** The context of [Join] has a deadline. *)
| step_deadline k err :
    join s = Waiting k →
    step s (with_join s (Returned (Some (TagWrapf "ServerShutdown" (Some err) ("shutdown " +:+ name d +:+ " server")))))
| step_servers_down k :
    join s = Shutting k → servers s !! k = None → step s (with_join s JoinInner)
| step_inner err w :
    join s = JoinInner → match lifecycleJoin d with Some f => f (world s) | None => (None, world s) end = (err, w) →
    step s {| servers := servers s; join := Returned err; ctxDone := ctxDone s; innerJoined := true; world := w; logs := logs s |}.

End server.
Arguments declaration : clear implicits.
Arguments wrappedState : clear implicits.
Arguments state : clear implicits.
Arguments serving : clear implicits.
End Http.

(** ** What each component registers *)
Module Routes.
Import ServeMux.

Section routes.
Context {R : Type}.
Notation mux := (mux R).
Notation handler := (handler R).

(** webhook/server/server.go, with the handler of a cell. *)
Definition webhook (pathPrefix : string) (serve : string → reply R) (m : mux) : outcome mux :=
  Handle m ("POST " +:+ pathPrefix +:+ "/{cell}")
    (λ _ values, serve (default "" (snd <$> head (filter (λ '(name, _), name = "cell") values)))).

Definition healthz (Handler : handler) (m : mux) : outcome mux :=
  m ← Handle m "/readyz" (StripPrefix "/readyz" Handler);
  Handle m "/readyz/" (StripPrefix "/readyz/" Handler).

Definition prometheus (HandlerFor : handler) (m : mux) : outcome mux := Handle m "/" HandlerFor.

(** The rates are set if they are positive. *)
Record pprofOptions : Type := { BlockProfileRate : Z; MutexProfileFraction : Z }.
Record profiling : Type := { blockRate : Z; mutexFraction : Z }.
Definition pprof (Index Cmdline Profile Symbol Trace : handler) (options : pprofOptions) (m : mux) (runtime : profiling) :
    outcome (mux * profiling) :=
  m ← Handle m "/debug/pprof/" Index;
  m ← Handle m "/debug/pprof/cmdline" Cmdline;
  m ← Handle m "/debug/pprof/profile" Profile;
  m ← Handle m "/debug/pprof/symbol" Symbol;
  m ← Handle m "/debug/pprof/trace" Trace;
  let runtime := if (BlockProfileRate options >? 0)%Z
    then {| blockRate := BlockProfileRate options; mutexFraction := mutexFraction runtime |} else runtime in
  let runtime := if (MutexProfileFraction options >? 0)%Z
    then {| blockRate := blockRate runtime; mutexFraction := MutexProfileFraction options |} else runtime in
  Ret (m, runtime).

End routes.

(** The default ports, for HTTP and HTTPS. *)
Definition webhookPorts : Z * Z := (8080, 8843)%Z.
Definition healthzPorts : Z * Z := (8081, 8444)%Z.
Definition prometheusPorts : Z * Z := (9090, 9443)%Z.
Definition pprofPorts : Z * Z := (6060, 6061)%Z.
End Routes.

(** ** Lemmas: running servers *)
Section serving_lemmas.
Import Http.
Context {Inner Deps State R W : Type} (d : declaration Inner Deps State R W).
Notation state := (state R W).
Implicit Types s : state.

Definition is_down (o : option (serving R)) : Prop :=
  match o with Some sv => serverPhase sv = Closed ∧ active sv = [] | None => True end.
(** How many servers are down for good. *)
Definition joined_servers (j : joining) : nat → Prop := λ i,
  match j with
  | NotJoining => False
  | Shutting k | Waiting k => i < k
  | JoinInner | Returned None => True
  | Returned (Some _) => False
  end.

Record serving_inv s : Prop := {
  inv_down : ∀ i o, joined_servers (join s) i → servers s !! i = Some o → is_down o;
  inv_waiting : ∀ k sv, join s = Waiting k → servers s !! k = Some (Some sv) → serverPhase sv = Closed;
  inv_inner : innerJoined s = true → (∃ err, join s = Returned err) ∧ ∀ i o, servers s !! i = Some o → is_down o;
  inv_ctx : join s ≠ NotJoining → ctxDone s = true;
  inv_exists : ∀ k, join s = Waiting k → ∃ sv, servers s !! k = Some (Some sv)
}.

(** Changing a server that is not down. *)
Lemma inv_update s i sv sv' logs' :
  serving_inv s → servers s !! i = Some (Some sv) →
  ¬ is_down (Some sv) ∨ (serverPhase sv' = serverPhase sv ∧ active sv' = []) →
  (serverPhase sv = Closed → serverPhase sv' = Closed) →
  serving_inv {| servers := <[i := Some sv']> (servers s); join := join s; ctxDone := ctxDone s; innerJoined := innerJoined s;
                 world := world s; logs := logs' |}.
Proof.
  intros [H1 H2 H3 H4 H5] Hi Hup Hclosed. pose proof (lookup_lt_Some _ _ _ Hi) as Hlt.
  assert (Hdown : ∀ o, <[i := Some sv']> (servers s) !! i = Some o → is_down (Some sv) → is_down o).
  { intros o. rewrite list_lookup_insert_eq by done. intros [= <-] [Hp Ha]. destruct Hup as [Hnot|[Hp' Ha']]; [by destruct Hnot|].
    split; [congruence|done]. }
  split; cbn; try done.
  - intros k o Hk. destruct (decide (k = i)) as [->|Hne].
    + intros Ho. eapply Hdown; [exact Ho|]. by eapply H1.
    + rewrite list_lookup_insert_ne by done. by apply H1.
  - intros k sv1 Hk. destruct (decide (k = i)) as [->|Hne].
    + rewrite list_lookup_insert_eq by done. intros [= <-]. by eapply Hclosed, H2.
    + rewrite list_lookup_insert_ne by done. by apply H2.
  - intros Hin. destruct (H3 Hin) as [? Hall]. split; [done|]. intros k o. destruct (decide (k = i)) as [->|Hne].
    + intros Ho. eapply Hdown; [exact Ho|]. by eapply Hall.
    + rewrite list_lookup_insert_ne by done. by apply Hall.
  - intros k Hk. destruct (decide (k = i)) as [->|Hne]; [rewrite list_lookup_insert_eq by done; eauto|].
    rewrite list_lookup_insert_ne by done. by apply H5.
Qed.

Lemma inv_step s s' : serving_inv s → step d s s' → serving_inv s'.
Proof.
  intros Hinv Hstep. pose proof Hinv as [H1 H2 H3 H4 H5].
  destruct Hstep as [i sv Hi Hp|i sv Hi Hp|i sv request Hi Hp|i sv l1 request l2 Hi Ha| |Hj Hc|k Hj Hk|k sv Hj Hk|k sv Hj Hk Ha|k err Hj|k Hj Hk|err w Hj Hrun].
  - eapply inv_update; [done|exact Hi|left; intros [? _]; congruence|cbn; congruence].
  - eapply inv_update; [done|exact Hi|left; intros [? _]; destruct Hp; congruence|destruct Hp; cbn; congruence].
  - eapply inv_update; [done|exact Hi|left; intros [? _]; congruence|done].
  - eapply inv_update; [done|exact Hi|left; intros [_ ?]; rewrite Ha in *; by destruct l1|done].
  - by split.
  - split; cbn; try done; [intros i o Hi; lia|]. intros Hin. destruct (H3 Hin) as [[? ?] _]. congruence.
  - rewrite Hj in *. split; cbn; try done.
    + intros i o Hi Ho. destruct (decide (i = k)) as [->|Hne]; [by rewrite Hk in Ho; injection Ho as <-|].
      eapply H1; [|exact Ho]. cbn. lia.
    + intros Hin. by destruct (H3 Hin) as [[? ?] _].
    + intros _. by apply H4.
  - assert (Hctx : ctxDone s = true) by (apply H4; congruence). assert (Hnot : innerJoined s = false).
    { destruct (innerJoined s) eqn:Hin; [|done]. destruct (H3 eq_refl) as [[? ?] _]. congruence. }
    pose proof (lookup_lt_Some _ _ _ Hk) as Hlt. rewrite Hj in *. split; cbn; try done.
    + intros i o Hi. rewrite list_lookup_insert_ne by lia. by apply H1.
    + intros k' sv' [= <-]. rewrite list_lookup_insert_eq by done. by intros [= <-].
    + by rewrite Hnot.
    + intros k' [= <-]. rewrite list_lookup_insert_eq by done. eauto.
  - rewrite Hj in *. split; cbn; try done.
    + intros i o Hi Ho. destruct (decide (i = k)) as [->|Hne].
      * rewrite Hk in Ho. injection Ho as <-. split; [by eapply H2|done].
      * eapply H1; [|exact Ho]. cbn. lia.
    + intros Hin. by destruct (H3 Hin) as [[? ?] _].
    + intros _. by apply H4.
  - rewrite Hj in *. split; cbn; try done.
    + intros Hin. by destruct (H3 Hin) as [[? ?] _].
    + intros _. by apply H4.
  - rewrite Hj in *. split; cbn; try done.
    + intros i o _ Ho. eapply H1; [|exact Ho]. cbn. apply lookup_lt_Some in Ho. apply lookup_ge_None in Hk. lia.
    + intros Hin. by destruct (H3 Hin) as [[? ?] _].
    + intros _. by apply H4.
  - rewrite Hj in *. split; cbn; try done.
    + intros i o Hi Ho. by eapply H1.
    + intros _. split; [eauto|]. intros i o Ho. by eapply H1.
    + intros _. by apply H4.
Qed.

Lemma inv_start (st : wrappedState State R) w s : Start d (newState st w) = (None, s) → serving_inv s.
Proof.
  unfold Start. destruct (match lifecycleStart d with Some start => _ | None => _ end) as [[err|] w'] eqn:Hrun; [done|].
  intros [= <-]. by split.
Qed.
Lemma inv_reachable (st : wrappedState State R) w s0 s : Start d (newState st w) = (None, s0) → rtc (step d) s0 s → serving_inv s.
Proof. intros H0%inv_start Hsteps. induction Hsteps as [|s1 s2 s3 Hstep _ IH]; [done|]. by eapply IH, inv_step. Qed.

(** A server that is shut down takes no more requests. *)
Lemma closed_stays s s' i sv :
  step d s s' → servers s !! i = Some (Some sv) → serverPhase sv = Closed →
  ∃ sv', servers s' !! i = Some (Some sv') ∧ serverPhase sv' = Closed ∧ active sv' `sublist_of` active sv.
Proof.
  intros Hstep Hi Hp. pose proof (lookup_lt_Some _ _ _ Hi) as Hlt.
  assert (Hsame : ∃ sv', servers s !! i = Some (Some sv') ∧ serverPhase sv' = Closed ∧ active sv' `sublist_of` active sv) by eauto.
  assert (Hother : ∀ j o, servers s !! j = Some (Some o) → serverPhase o ≠ Closed → ∀ o',
    ∃ sv', <[j := o']> (servers s) !! i = Some (Some sv') ∧ serverPhase sv' = Closed ∧ active sv' `sublist_of` active sv).
  { intros j o Hj Ho o'. rewrite list_lookup_insert_ne; [done|]. intros ->. congruence. }
  destruct Hstep as [j o Hj Hpo|j o Hj Hpo|j o request Hj Hpo|j o l1 request l2 Hj Ha| | |k Hj Hk|k o Hj Hk| | | | ]; cbn; try done.
  - eapply Hother; [exact Hj|congruence].
  - eapply Hother; [exact Hj|destruct Hpo; congruence].
  - eapply Hother; [exact Hj|congruence].
  - destruct (decide (j = i)) as [->|Hne]; [|by rewrite list_lookup_insert_ne].
    rewrite list_lookup_insert_eq by done. assert (o = sv) as -> by congruence. eexists. split; [done|]. split; [done|].
    cbn. rewrite Ha. apply sublist_app; [done|]. by apply sublist_cons.
  - destruct (decide (k = i)) as [->|Hne]; [|by rewrite list_lookup_insert_ne].
    rewrite list_lookup_insert_eq by done. assert (o = sv) as -> by congruence. eexists. by split.
Qed.

(** Waiting ends when the requests are answered. *)
Lemma drains k : ∀ l s sv, join s = Waiting k → servers s !! k = Some (Some sv) → active sv = l →
  ∃ s', rtc (step d) s s' ∧ join s' = Shutting (S k) ∧ length (servers s') = length (servers s).
Proof.
  induction l as [|request l IH]; intros s sv Hj Hk Ha.
  - exists (with_join s (Shutting (S k))). split; [|done]. eapply rtc_once, step_drained; [done|exact Hk|done].
  - pose proof (lookup_lt_Some _ _ _ Hk) as Hlt. set (s1 := with_servers s (<[k := Some (with_active sv l)]> (servers s))).
    destruct (IH s1 (with_active sv l)) as (s' & Hsteps & Hj' & Hlen); [done|by apply list_lookup_insert_eq|done|].
    exists s'. split; [|split; [done|by rewrite Hlen; cbn; rewrite length_insert]].
    eapply rtc_l; [|exact Hsteps]. by apply (step_answer d s k sv [] request l).
Qed.
Lemma shutdown_completes : ∀ n s k, n + k = length (servers s) → join s = Shutting k → ∃ s', rtc (step d) s s' ∧ join s' = JoinInner.
Proof.
  induction n as [|n IH]; intros s k Hn Hj.
  - exists (with_join s JoinInner). split; [|done]. eapply rtc_once, step_servers_down; [exact Hj|]. apply lookup_ge_None. lia.
  - destruct (lookup_lt_is_Some_2 (servers s) k) as [[sv|] Hk]; [lia| |].
    + pose proof (lookup_lt_Some _ _ _ Hk) as Hlt.
      set (s1 := with_join (with_servers s (<[k := Some (with_phase sv Closed)]> (servers s))) (Waiting k)).
      destruct (drains k (active sv) s1 (with_phase sv Closed)) as (s2 & H12 & Hj2 & Hlen2); [done|by apply list_lookup_insert_eq|done|].
      destruct (IH s2 (S k)) as (s' & H2 & Hj'); [rewrite Hlen2; cbn; rewrite length_insert; lia|done|].
      exists s'. split; [|done]. eapply rtc_l; [by eapply step_shutdown|]. by etrans.
    + destruct (IH (with_join s (Shutting (S k))) (S k)) as (s' & H2 & Hj'); [cbn; lia|done|].
      exists s'. split; [|done]. eapply rtc_l; [by apply step_nil|done].
Qed.
Lemma join_completes s : serving_inv s → join s ≠ NotJoining → (∀ err, join s ≠ Returned err) →
  ∃ s' err, rtc (step d) s s' ∧ join s' = Returned err ∧ innerJoined s' = true.
Proof.
  intros Hinv Hj Hr. assert (∃ s1, rtc (step d) s s1 ∧ join s1 = JoinInner) as (s1 & H1 & Hj1).
  { destruct (join s) as [|k|k| |err] eqn:Hjs; [done| | |by exists s|by destruct (Hr err)].
    - destruct (decide (k ≤ length (servers s))) as [Hle|Hgt].
      + apply (shutdown_completes (length (servers s) - k) s k); [lia|done].
      + exists (with_join s JoinInner). split; [|done]. eapply rtc_once, step_servers_down; [exact Hjs|]. apply lookup_ge_None. lia.
    - destruct (inv_exists _ Hinv k Hjs) as [sv Hk]. pose proof (lookup_lt_Some _ _ _ Hk) as Hlt.
      destruct (drains k _ s sv Hjs Hk eq_refl) as (s2 & H12 & Hj2 & Hlen).
      destruct (shutdown_completes (length (servers s2) - S k) s2 (S k)) as (s3 & H23 & Hj3); [rewrite Hlen; lia|done|].
      exists s3. split; [by etrans|done]. }
  destruct (match lifecycleJoin d with Some f => f (world s1) | None => (None, world s1) end) as [err w] eqn:Hrun.
  eexists _, err. split; [eapply rtc_r; [exact H1|by eapply step_inner]|]. done.
Qed.

End serving_lemmas.

(** ** Lemmas: routes *)
Section routing_lemmas.
Import ServeMux Strings.
Notation chars := String.list_ascii_of_string.

(** A word of a path has no characters that patterns use. *)
Definition path_word (w : string) : Prop :=
  w ≠ "" ∧ w ≠ "." ∧ w ≠ ".." ∧ "/"%char ∉ chars w ∧ "{"%char ∉ chars w.

Lemma append_assoc (s1 s2 s3 : string) : (s1 +:+ s2) +:+ s3 = s1 +:+ s2 +:+ s3.
Proof. induction s1 as [|c s1 IH]; [done|]. exact (f_equal (String c) IH). Qed.
Lemma pathString_cons w words : pathString (w :: words) = "/" +:+ w +:+ pathString words.
Proof.
  unfold pathString. rewrite fmap_cons. destruct ((λ segment, "/" +:+ segment) <$> words); [|by rewrite <- append_assoc].
  cbn. f_equal. induction w as [|c w IH]; [done|exact (f_equal (String c) IH)].
Qed.
Lemma pathString_Join words w : pathString words +:+ "/" +:+ w = "/" +:+ Join (words ++ [w]) "/"%char.
Proof.
  induction words as [|w' words IH]; [done|]. change ((w' :: words) ++ [w]) with (w' :: (words ++ [w])).
  rewrite Join_cons by by destruct words. change (String "/" (Join (words ++ [w]) "/")) with ("/" +:+ Join (words ++ [w]) "/"%char).
  by rewrite <- IH, pathString_cons, !append_assoc.
Qed.

Lemma StripPrefix_app {R} prefix (h : handler R) s values : StripPrefix prefix h (prefix +:+ s) values = h s values.
Proof.
  assert (Hp : String.prefix prefix (prefix +:+ s) = true ∧
    String.substring (String.length prefix) (String.length (prefix +:+ s) - String.length prefix) (prefix +:+ s) = s).
  { induction prefix as [|c prefix [IH1 IH2]]; [split; [by destruct s|apply (slice_from_0 s)]|]. rewrite append_cons. cbn.
    destruct (ascii_dec c c); [|done]. by split. }
  unfold StripPrefix. destruct Hp as [-> ->]. done.
Qed.

Lemma parseSegments_words words w ss :
  Forall path_word words → parseSegment true w = Ret ss → parseSegments (words ++ [w]) = Ret ((Lit <$> words) ++ [ss]).
Proof.
  intros Hwords Hw. induction Hwords as [|w' words (H1 & H2 & H3 & H4 & H5) _ IH].
  - cbn. by rewrite Hw.
  - cbn [app parseSegments]. rewrite IH. rewrite bool_decide_eq_false_2 by by destruct words. unfold parseSegment, contains.
    rewrite !bool_decide_eq_false_2 by done. apply IndexRune_none in H5. rewrite H5. done.
Qed.

Lemma webhook_pattern words :
  Forall path_word words →
  parsePattern ("POST " +:+ pathString words +:+ "/{cell}") =
    Ret {| patMethod := "POST"; patHost := ""; patPath := (Lit <$> words) ++ [Wild "cell"] |}.
Proof.
  intros Hwords. change ("/{cell}") with ("/" +:+ "{cell}"). rewrite pathString_Join. unfold parsePattern.
  destruct (IndexRune_app "POST" ("/" +:+ Join (words ++ ["{cell}"]) "/"%char) " "%char) as (Hi & Hto & Hfrom).
  { by apply (bool_decide_eq_true_1 _). }
  change ("POST " +:+ "/" +:+ Join (words ++ ["{cell}"]) "/") with ("POST" +:+ String " " ("/" +:+ Join (words ++ ["{cell}"]) "/")).
  rewrite (proj2 (Z.eqb_neq _ _)) by lia. rewrite Hto, Hfrom.
  change ("/" +:+ Join (words ++ ["{cell}"]) "/") with ("" +:+ String "/" (Join (words ++ ["{cell}"]) "/")).
  rewrite strings_Split_app by by apply not_elem_of_nil. rewrite Split_Join.
  - destruct words as [|w words]; cbn [app].
    + reflexivity.
    + change (w :: words ++ ["{cell}"]) with ((w :: words) ++ ["{cell}"]). rewrite (parseSegments_words _ _ (Wild "cell")); done.
  - by destruct words.
  - apply Forall_app. split; [|apply Forall_singleton; by apply (bool_decide_eq_true_1 _)].
    eapply Forall_impl; [exact Hwords|]. by intros w (_ & _ & _ & H & _).
Qed.

Lemma matchPath_words words path :
  matchPath ((Lit <$> words) ++ [Wild "cell"]) path =
    match path with
    | [] => None
    | _ => match decide (removelast path = words ∧ last path ≠ Some "") with
           | left _ => (λ cell, [("cell", cell)]) <$> last path
           | right _ => None
           end
    end.
Proof.
  revert path. induction words as [|w words IH]; intros [|r path]; try done; cbn [fmap list_fmap app matchPath].
  - destruct path as [|r' path]; cbn.
    + case_bool_decide as Hr; case_decide as Hd; try done; [by destruct Hd; subst|]. destruct Hd. split; [done|congruence].
    + case_bool_decide; case_decide as Hd; try done; by destruct Hd.
  - case_bool_decide as Hr.
    + subst r. rewrite IH. destruct path as [|r' path]; [cbn; case_decide as Hd; [by destruct Hd|done]|].
      change (removelast (w :: r' :: path)) with (w :: removelast (r' :: path)). change (last (w :: r' :: path)) with (last (r' :: path)).
      repeat case_decide; try done; [naive_solver|naive_solver].
    + destruct path as [|r' path]; [cbn; case_decide as Hd; [by destruct Hd|done]|].
      change (removelast (r :: r' :: path)) with (r :: removelast (r' :: path)).
      case_decide as Hd; [|done]. destruct Hd as [[= ? ?] _]. done.
Qed.

(** A multiplexer with one pattern for all hosts. *)
Lemma matches_singleton {R} p h (r : Request) :
  patHost p = "" → matches (R := R) [(p, h)] r = match matchPath (patPath p) (Path r) with Some values => [(p, h, values)] | None => [] end.
Proof.
  intros Hhost. unfold matches. cbn [omap list_omap]. unfold matchHost. rewrite bool_decide_eq_true_2 by done. cbn [orb].
  by destruct (matchPath _ _).
Qed.

Lemma ServeHTTP_words {R} words h (r : Request) :
  Path r ≠ [] →
  ServeHTTP (R := R) [({| patMethod := "POST"; patHost := ""; patPath := (Lit <$> words) ++ [Wild "cell"] |}, h)] r =
    if decide (removelast (Path r) = words ∧ last (Path r) ≠ Some "") then
      if decide (Method r = "POST") then h (pathString (Path r)) [("cell", default "" (last (Path r)))] else MethodNotAllowed
    else NotFound.
Proof.
  intros Hne. unfold ServeHTTP, allowed. rewrite !matches_singleton by done. cbn [patPath]. rewrite !matchPath_words.
  cbn [Path slashed]. destruct (Path r ++ [""]) as [|w path] eqn:Hp; [by destruct (Path r)|]. rewrite <- Hp, last_snoc.
  rewrite (decide_False (P := removelast (Path r ++ [""]) = words ∧ _)) by by intros [_ ?]. cbn.
  destruct (Path r) as [|w0 path0] eqn:Hr; [done|]. rewrite <- Hr. case_decide as Hd; [|done].
  destruct Hd as [_ Hl]. destruct (last (Path r)) as [cell|] eqn:Hlast; [|by rewrite Hr in Hlast; apply last_None in Hlast].
  assert (Hm : matchMethod {| patMethod := "POST"; patHost := ""; patPath := (Lit <$> words) ++ [Wild "cell"] |} r =
    bool_decide (Method r = "POST")).
  { unfold matchMethod. cbn [patMethod]. change (bool_decide ("POST" = "")) with false. change (bool_decide ("POST" = "GET")) with false.
    cbn. rewrite orb_false_r. by apply bool_decide_ext. }
  cbn. rewrite Hm. repeat case_decide; by rewrite ?bool_decide_eq_true in *.
Qed.

End routing_lemmas.

(** ** Properties *)

(** C33. A server is drained before the component that it wraps is joined: when a component has been started, in whatever order its servers come
    up, fail or get requests, its own [Join] runs only after both servers are closed and no request is in progress, and so
    does [Join] return without an error; a server that is closed gets no more requests, so that [Join] can always return
    once the requests are answered. [Join] runs when the context that all requests have is done already. *)
Theorem server_join_drains {Inner Deps State R W : Type} (d : Http.declaration Inner Deps State R W) (st : Http.wrappedState State R)
    (w : W) (s0 s : Http.state R W) :
  Http.Start d (Http.newState st w) = (None, s0) → rtc (Http.step d) s0 s →
  (Http.innerJoined s = true ∨ Http.join s = Http.Returned None →
    ∀ i sv, Http.servers s !! i = Some (Some sv) → Http.serverPhase sv = Http.Closed ∧ Http.active sv = []) ∧
  (∀ s' i sv, Http.step d s s' → Http.servers s !! i = Some (Some sv) → Http.serverPhase sv = Http.Closed →
    ∃ sv', Http.servers s' !! i = Some (Some sv') ∧ Http.serverPhase sv' = Http.Closed ∧ Http.active sv' `sublist_of` Http.active sv) ∧
  (Http.join s ≠ Http.NotJoining → Http.ctxDone s = true ∧
    ((∀ err, Http.join s ≠ Http.Returned err) →
      ∃ s' err, rtc (Http.step d) s s' ∧ Http.join s' = Http.Returned err ∧ Http.innerJoined s' = true)).
Proof.
  intros H0 Hsteps. pose proof (inv_reachable d st w s0 s H0 Hsteps) as Hinv. split; [|split].
  - intros [Hin|Hret] i sv Hi.
    + destruct (inv_inner _ Hinv Hin) as [_ Hall]. exact (Hall _ _ Hi).
    + refine (inv_down _ Hinv i _ _ Hi). by rewrite Hret.
  - intros s' i sv. apply closed_stays.
  - intros Hj. split; [by apply (inv_ctx _ Hinv)|]. by apply join_completes.
Qed.

(** A component without an HTTPS server, with a request that is answered while the process stops. *)
Lemma server_join_drains_witness :
  let d := {| Http.name := "webhook"; Http.registerHandler (_ : unit) (_ : unit) (m : ServeMux.mux nat) := Ret (m, inl tt); Http.lifecycleStart := None;
              Http.lifecycleJoin := Some (λ w : nat, (None, S w)); Http.lifecycleHealthChecks := None |} in
  let sv := {| Http.Addr := "[::1]:8080"; Http.Handler := []; Http.headerTimeout := 0%Z |} in
  let st := {| Http.httpServer := Some sv; Http.httpsServer := None; Http.innerState := tt |} in
  ∃ s0 s, Http.Start d (Http.newState st 0) = (None, s0) ∧ rtc (Http.step d) s0 s ∧ Http.world s = 1 ∧
    ∀ i sv, Http.servers s !! i = Some (Some sv) → Http.serverPhase sv = Http.Closed ∧ Http.active sv = [].
Proof.
  intros d sv st. eexists _, _. split; [reflexivity|].
  assert (Hsteps : rtc (Http.step d) (Http.Start d (Http.newState st 0)).2
    {| Http.servers := [Some {| Http.server := sv; Http.serverPhase := Http.Closed; Http.active := [] |}; None];
       Http.join := Http.Returned None; Http.ctxDone := true; Http.innerJoined := true; Http.world := 1; Http.logs := [] |}).
  { cbn. eapply rtc_l; [by eapply (Http.step_listen d _ 0)|]. cbn.
    eapply rtc_l; [by eapply (Http.step_request d _ 0 _ 7)|]. cbn.
    eapply rtc_l; [by eapply Http.step_stop|]. cbn.
    eapply rtc_l; [by eapply Http.step_join|]. cbn.
    eapply rtc_l; [by eapply (Http.step_shutdown d _ 0)|]. cbn.
    eapply rtc_l; [by eapply (Http.step_answer d _ 0 _ [] 7 [])|]. cbn.
    eapply rtc_l; [by eapply (Http.step_drained d _ 0)|]. cbn.
    eapply rtc_l; [by eapply (Http.step_nil d _ 1)|]. cbn.
    eapply rtc_l; [by eapply (Http.step_servers_down d _ 2)|]. cbn.
    eapply rtc_l; [by eapply (Http.step_inner d _ None 1)|]. apply rtc_refl. }
  split; [exact Hsteps|]. split; [reflexivity|].
  apply (server_join_drains d st 0 _ _ eq_refl Hsteps). by left.
Defined.

(** The webhook is reached as it is configured: for every prefix of words, registration succeeds, and exactly the POST requests for a non-empty
    cell under the prefix are handled, with that cell; other methods are not allowed there, and there is nothing anywhere else. *)
Theorem webhook_routes {R : Type} (words : list string) (serve : string → ServeMux.reply R) :
  Forall path_word words →
  ∃ m, Routes.webhook (ServeMux.pathString words) serve ServeMux.NewServeMux = Ret m ∧
    (∀ r cell, ServeMux.Path r = words ++ [cell] → cell ≠ "" →
      ServeMux.ServeHTTP m r = if decide (ServeMux.Method r = "POST") then serve cell else ServeMux.MethodNotAllowed) ∧
    (∀ r, ServeMux.Path r ≠ [] → (∀ cell, ServeMux.Path r = words ++ [cell] → cell = "") → ServeMux.ServeHTTP m r = ServeMux.NotFound).
Proof.
  intros Hwords. unfold Routes.webhook, ServeMux.Handle, ServeMux.NewServeMux. rewrite (webhook_pattern words Hwords). cbn [mbind outcome_bind].
  rewrite bool_decide_eq_false_2 by by apply not_elem_of_nil. cbn [app]. eexists. split; [reflexivity|].
  split.
  - intros r cell Hpath Hcell. rewrite (ServeHTTP_words words _ r) by (rewrite Hpath; by destruct words).
    rewrite Hpath, last_snoc, decide_True; [done|]. split; [apply removelast_last|congruence].
  - intros r Hne Hnone. rewrite (ServeHTTP_words words _ r) by done. rewrite decide_False; [done|]. intros [Hr Hl].
    destruct (last (ServeMux.Path r)) as [cell|] eqn:Hlast; [|by apply last_None in Hlast].
    apply Hl. f_equal. apply Hnone. rewrite <- Hr. apply last_Some in Hlast as [l ->]. by rewrite removelast_last.
Qed.

(** Under a prefix of two words. *)
Lemma webhook_routes_witness :
  Forall path_word ["admission"; "pods"] ∧
  ∃ m : ServeMux.mux string, Routes.webhook "/admission/pods" ServeMux.Reply ServeMux.NewServeMux = Ret m ∧
    ServeMux.ServeHTTP m {| ServeMux.Method := "POST"; ServeMux.Host := ""; ServeMux.Path := ["admission"; "pods"; "cell-1"] |} =
      ServeMux.Reply "cell-1".
Proof.
  assert (Hwords : Forall path_word ["admission"; "pods"]).
  { repeat apply Forall_cons_2; [..|apply Forall_nil_2]; repeat split; try discriminate; by apply (bool_decide_eq_true_1 _). }
  split; [exact Hwords|]. destruct (webhook_routes ["admission"; "pods"] ServeMux.Reply Hwords) as (m & Hm & Hpost & _).
  exists m. split; [exact Hm|]. rewrite (Hpost _ "cell-1"); [reflexivity|reflexivity|discriminate].
Defined.

(** A prefix that ends with a slash stops the webhook from starting, and one that does not begin with one is the name of a host. *)
Lemma webhook_prefix_pitfalls {R : Type} (serve : string → ServeMux.reply R) :
  is_ret (Routes.webhook "/webhook/" serve ServeMux.NewServeMux) = false ∧
  (∀ m r, Routes.webhook "webhook" serve ServeMux.NewServeMux = Ret m → ServeMux.Host r ≠ "webhook" → ServeMux.ServeHTTP m r = ServeMux.NotFound).
Proof.
  split; [reflexivity|]. intros m r [= <-] Hr.
  assert (Hhost : ∀ p r', ServeMux.patHost p = "webhook" → ServeMux.Host r' = ServeMux.Host r → ServeMux.matchHost p r' = false).
  { intros p r' Hp Hr'. unfold ServeMux.matchHost. rewrite Hp, Hr'. by rewrite !bool_decide_eq_false_2 by congruence. }
  unfold ServeMux.ServeHTTP, ServeMux.allowed, ServeMux.matches. cbn [omap list_omap]. by rewrite !Hhost.
Qed.

(** Health checks are asked for together, or one by one by their names, which have slashes. *)
Lemma healthz_routes {R : Type} (Handler : ServeMux.handler R) :
  ∃ m, Routes.healthz Handler ServeMux.NewServeMux = Ret m ∧
    (∀ r, ServeMux.Path r = ["readyz"] → ServeMux.ServeHTTP m r = Handler "" []) ∧
    (∀ r word words, ServeMux.Path r = "readyz" :: word :: words →
      ServeMux.ServeHTTP m r = Handler (word +:+ ServeMux.pathString words) []).
Proof.
  eexists. split; [reflexivity|]. split.
  - intros [method host path]. cbn [ServeMux.Path]. intros ->. reflexivity.
  - intros [method host path] word words. cbn [ServeMux.Path]. intros ->.
    transitivity (ServeMux.StripPrefix "/readyz/" Handler (ServeMux.pathString ("readyz" :: word :: words)) []); [reflexivity|].
    rewrite !pathString_cons. apply (StripPrefix_app "/readyz/").
Qed.

(** With the defaults, no two servers of a process listen on one port. *)
Lemma default_ports_differ :
  NoDup [Routes.webhookPorts.1; Routes.webhookPorts.2; Routes.healthzPorts.1; Routes.healthzPorts.2; Routes.prometheusPorts.1;
    Routes.prometheusPorts.2; Routes.pprofPorts.1; Routes.pprofPorts.2].
Proof. apply (bool_decide_eq_true_1 _). vm_compute. reflexivity. Qed.
