(* ===== verification/Kube.v ===== *)
(** * Kube: clients, event recorders, electors and informers as components (util/kube)

    [Module Client] is util/kube/client.go, [Module Recorder] is event.go, [Module ElectorComponent] is what leaderelection.go declares
    around [Process.Elector], and [Module Informers] is informers.go: the goroutine that starts a factory once the elector has
    been elected, and [Join], as a step relation over the one of the elector. The configuration and clients of client-go, its
    broadcaster and its informers are parameters; what its factories promise is part of the step relation. *)

From S2P Require Import Prelude Util Errors Flags Iter Process.

(** ** Clients *)
Module Client.

Section options.
Context {Float Rest : Type}.

(** The fields of [rest.Config] that the source sets, and the others. *)
Record Config : Type := {
  ImpersonateUserName : string;
  ImpersonateUID : string;
  ImpersonateGroups_ : list string;
  QPS : Float;
  Burst_ : Z;
  UserAgent_ : string;
  AcceptContentTypes : string;
  others : Rest
}.

Record GlobalClientOptions : Type := {
  ImpersonateUsername : string;
  ImpersonateUid : string;
  ImpersonateGroups : list string;
  Qps : Float;
  Burst : Z;
  UserAgent : string
}.
Record ClientOptions : Type := {
  KubeconfigPath : string;
  MasterUrl : string;
  TargetNamespace_ : string;
  global : GlobalClientOptions
}.

End options.
Arguments Config : clear implicits.
Arguments GlobalClientOptions : clear implicits.
Arguments ClientOptions : clear implicits.

Section client.
(** The defaults of client-go, and how it makes clients; [float32] is the conversion of a rate. *)
Context {Float Rest Kube Podseidon : Type}.
Notation Config := (Config Float Rest).
Notation GlobalClientOptions := (GlobalClientOptions Float).
Notation ClientOptions := (ClientOptions Float).
Variables (DefaultQPS : Float) (DefaultBurst : Z) (float32 : Float → Float) (DefaultKubernetesUserAgent : string)
  (BuildConfigFromFlags : string → string → Config + error)
  (NewKube : Config → Kube + error) (NewPodseidon : Config → Podseidon + error).

Definition NewGlobalClientOptions : GlobalClientOptions := {|
  ImpersonateUsername := ""; ImpersonateUid := ""; ImpersonateGroups := []; Qps := DefaultQPS; Burst := DefaultBurst;
  UserAgent := "podseidon" |}.
Definition NewClientOptions : ClientOptions := {|
  KubeconfigPath := ""; MasterUrl := ""; TargetNamespace_ := ""; global := NewGlobalClientOptions |}.

(** [rest.AddUserAgent] appends to the default. *)
Definition PatchRestConfig (options : GlobalClientOptions) (config : Config) : Config := {|
  ImpersonateUserName := if bool_decide (ImpersonateUsername options ≠ "") then ImpersonateUsername options else ImpersonateUserName config;
  ImpersonateUID := if bool_decide (ImpersonateUid options ≠ "") then ImpersonateUid options else ImpersonateUID config;
  ImpersonateGroups_ := if 0 <? length (ImpersonateGroups options) then ImpersonateGroups options else ImpersonateGroups_ config;
  QPS := float32 (Qps options);
  Burst_ := Burst options;
  UserAgent_ := DefaultKubernetesUserAgent +:+ "/" +:+ UserAgent options;
  AcceptContentTypes := AcceptContentTypes config;
  others := others config
|}.
Definition acceptProtobuf (config : Config) : Config := {|
  ImpersonateUserName := ImpersonateUserName config; ImpersonateUID := ImpersonateUID config;
  ImpersonateGroups_ := ImpersonateGroups_ config; QPS := QPS config; Burst_ := Burst_ config; UserAgent_ := UserAgent_ config;
  AcceptContentTypes := "application/vnd.kubernetes.protobuf,application/json"; others := others config |}.

Record ClientState : Type := { restConfig : Config; kubeClientSet : Kube; podseidonClientSet : Podseidon }.
Definition init (options : ClientOptions) : ClientState + error :=
  match BuildConfigFromFlags (MasterUrl options) (KubeconfigPath options) with
  | inr err => inr (TagWrapf "BuildConfig" (Some err) "build rest config from arguments")
  | inl config =>
      let config := acceptProtobuf (PatchRestConfig (global options) config) in
      match NewKube config with
      | inr err => inr (TagWrapf "NewClientSet" (Some err) "create new kubernetes client set from config")
      | inl kube =>
          match NewPodseidon config with
          | inr err => inr (TagWrapf "NewClientSet" (Some err) "create new podseidon client set from config")
          | inl podseidon => inl {| restConfig := config; kubeClientSet := kube; podseidonClientSet := podseidon |}
          end
      end
  end.

Record Client : Type := { targetNs : string; state : ClientState }.
Definition api (options : ClientOptions) (st : ClientState) : Client := {| targetNs := TargetNamespace_ options; state := st |}.
Definition RestConfig (client : Client) : Config := restConfig (state client).
Definition NativeClientSet (client : Client) : Kube := kubeClientSet (state client).
Definition PodseidonClientSet (client : Client) : Podseidon := podseidonClientSet (state client).
Definition TargetNamespace (client : Client) : string := targetNs client.

(** A client for tests: objects go to one of two fake client sets, by the group and version that they say they have. *)
Definition MockClient {Object} (GroupVersion : Object → string * string) (SchemeGroupVersion : string * string)
    (emptyConfig : Config) (fakeKube : list Object → Kube) (fakePodseidon : list Object → Podseidon) (objects : list Object) : outcome Client :=
  podseidonObjects ← Iter.CollectSlice (Iter.Filter (Iter.FromSlice objects) (λ obj, bool_decide (GroupVersion obj = SchemeGroupVersion)));
  nativeObjects ← Iter.CollectSlice (Iter.Filter (Iter.FromSlice objects) (λ obj, bool_decide (GroupVersion obj ≠ SchemeGroupVersion)));
  Ret {| targetNs := "";
     state := {| restConfig := emptyConfig; kubeClientSet := fakeKube nativeObjects; podseidonClientSet := fakePodseidon podseidonObjects |} |}.

End client.
End Client.

(** ** Event recorders *)
Module Recorder.

(** A recorder that logs at a level, and writes events to a namespace of a cluster. *)
Record EventRecorder (Kube : Type) : Type := { logLevel : Z; sink : Kube; sinkNamespace : string; source : string }.
Definition name (component : string) : string := "event-recorder-" +:+ component.
Definition init {Float Rest Kube Podseidon : Type} (component : string)
    (client : Client.Client (Float := Float) (Rest := Rest) (Kube := Kube) (Podseidon := Podseidon)) : EventRecorder Kube :=
  {| logLevel := 3; sink := Client.NativeClientSet client; sinkNamespace := Client.TargetNamespace client; source := component |}.

End Recorder.

(** ** Electors *)
Module ElectorComponent.

Record ElectorOptions : Type := {
  Enabled : bool;
  Namespace : string;
  Name : string;
  LeaseDuration : Duration;
  RenewDeadline : Duration;
  RetryPeriod : Duration
}.
Definition newOptions (electorName : string) : ElectorOptions := {|
  Enabled := true; Namespace := "default"; Name := "podseidon-" +:+ electorName;
  LeaseDuration := (15 * Second)%Z; RenewDeadline := (10 * Second)%Z; RetryPeriod := (2 * Second)%Z |}.

(** What [runElector] gives to the elector of client-go. *)
Record LeaderElectionConfig : Type := {
  lockNamespace : string; lockName : string; Identity : string;
  leaseDuration : Duration; renewDeadline : Duration; retryPeriod : Duration; ReleaseOnCancel : bool; electorName : string
}.
Definition electionConfig (electorName hostname uuid : string) (options : ElectorOptions) : LeaderElectionConfig := {|
  lockNamespace := Namespace options; lockName := Name options; Identity := hostname +:+ "_" +:+ uuid;
  leaseDuration := LeaseDuration options; renewDeadline := RenewDeadline options; retryPeriod := RetryPeriod options;
  ReleaseOnCancel := true; electorName := electorName |}.

Section elector.
Context {LeaderElector : Type}.

(** The elector that is written late, if the component is enabled: nothing yet, nil or an elector. *)
Inductive late : Type := NotWritten | Written (elector : option LeaderElector).
Definition init (options : ElectorOptions) : option late := if Enabled options then Some NotWritten else None.

(** [runElector] always writes; it writes nil when it fails. *)
Definition Start (options : ElectorOptions) (hostname lock : option error) (new : LeaderElector + error) (l : option late) :
    outcome (option error * option late) :=
  if negb (Enabled options) then Ret (None, l)
  else match l with
  | None => Panic "elector writer exists iff options.Enabled"
  | Some _ =>
      match Elector.runErrors hostname lock (match new with inr err => Some err | inl _ => None end), new with
      | None, inl e => Ret (None, Some (Written (Some e)))
      | err, _ => Ret (err, Some (Written None))
      end
  end.

(** [Check] of an elector that is nil dereferences it; [None] is a check that waits for the elector to be written. *)
Definition HealthCheck (Check_ : LeaderElector → option error) (l : option late) : option (option (outcome (option error))) :=
  match l with
  | None => None
  | Some NotWritten => Some None
  | Some (Written None) => Some (Some (Panic "invalid memory address or nil pointer dereference"))
  | Some (Written (Some e)) =>
      Some (Some (Ret (match Check_ e with Some err => Some (taggedError "ElectorTimeout" err) | None => None end)))
  end.

End elector.
Arguments late : clear implicits.
End ElectorComponent.

(** ** Informers *)
Module Informers.
Import Elector.

(** A factory of client-go starts its informers, which run until the channel of their context is closed; after [Shutdown] it starts nothing. *)
Record Factory : Type := { running : bool; shuttingDown : bool; stopCh : option awaited }.
Definition newFactory : Factory := {| running := false; shuttingDown := false; stopCh := None |}.
Definition factoryStart (c : awaited) (f : Factory) : Factory :=
  if shuttingDown f then f else {| running := true; shuttingDown := false; stopCh := Some c |}.
Definition factoryShutdown (f : Factory) : Factory := {| running := running f; shuttingDown := true; stopCh := stopCh f |}.
Definition stopped (f : Factory) : Factory := {| running := false; shuttingDown := shuttingDown f; stopCh := stopCh f |}.

(** The goroutine of [Start]: it has not been spawned, awaits the elector, is about to start the factory in some context, is
    about to close [started], has done so, or has returned early. *)
Inductive goroutine : Type := NotSpawned | Awaiting | StartFactory (c : awaited) | CloseStarted | Finished | Quit.
Inductive joining : Type := NotJoining | ShuttingDown | Joined.

(** An informer waits for an elector or not; [electorRun] is whether [runElector] has been called. *)
Record state : Type := {
  electorOpt : option Elector.state;
  electorRun : bool;
  ctxDone : bool;
  pc : goroutine;
  factory : Factory;
  started : bool;
  join : joining
}.
Definition init (hasElector : bool) : state := {|
  electorOpt := if hasElector then Some newState else None; electorRun := false; ctxDone := false; pc := NotSpawned;
  factory := newFactory; started := false; join := NotJoining |}.

Definition with_elector (s : state) (e : Elector.state) (ran : bool) : state :=
  {| electorOpt := Some e; electorRun := ran; ctxDone := ctxDone s; pc := pc s; factory := factory s; started := started s; join := join s |}.
Definition with_pc (s : state) (p : goroutine) : state :=
  {| electorOpt := electorOpt s; electorRun := electorRun s; ctxDone := ctxDone s; pc := p; factory := factory s; started := started s; join := join s |}.
Definition with_factory (s : state) (f : Factory) (p : goroutine) (j : joining) : state :=
  {| electorOpt := electorOpt s; electorRun := electorRun s; ctxDone := ctxDone s; pc := p; factory := f; started := started s; join := j |}.

(** Whether a context is done, given that of the process. *)
Definition done_ctx (s : state) (c : awaited) : bool :=
  match electorOpt s with Some e => Elector.ctx_done e (ctxDone s) c | None => ctxDone s end.

(** [ctx.Err()] of the process. *)
Definition ctxErr (s : state) : option error := if ctxDone s then Some Canceled else None.

Inductive step (Enabled : bool) (s : state) : state → Prop :=
| step_run_elector e hostname lock new :
    electorOpt s = Some e → electorRun s = false →
    step Enabled s (with_elector s (runElector Enabled hostname lock new (ctxDone s) e).2 true)
| step_elector e e' :
    electorOpt s = Some e → electorRun s = true → Elector.step e e' → step Enabled s (with_elector s e' true)
| step_stop :
    step Enabled s {| electorOpt := electorOpt s; electorRun := electorRun s; ctxDone := true; pc := pc s; factory := factory s;
                      started := started s; join := join s |}
| step_spawn :
    pc s = NotSpawned →
    step Enabled s (with_pc s (match electorOpt s with Some _ => Awaiting | None => StartFactory ParentOnly end))
| step_await e c :
    pc s = Awaiting → electorOpt s = Some e → inl c ∈ Await (elector e) (ctxErr s) → step Enabled s (with_pc s (StartFactory c))
| step_await_error e err :
    pc s = Awaiting → electorOpt s = Some e → inr err ∈ Await (elector e) (ctxErr s) → step Enabled s (with_pc s Quit)
| step_start c :
    pc s = StartFactory c → step Enabled s (with_factory s (factoryStart c (factory s)) CloseStarted (join s))
| step_close :
    pc s = CloseStarted →
    step Enabled s {| electorOpt := electorOpt s; electorRun := electorRun s; ctxDone := ctxDone s; pc := Finished; factory := factory s;
                      started := true; join := join s |}
| step_stopped c :
    running (factory s) = true → stopCh (factory s) = Some c → done_ctx s c = true →
    step Enabled s (with_factory s (stopped (factory s)) (pc s) (join s))
(** [Join] is called once the process stops; [Shutdown] of the factory waits for its informers. *)
| step_join :
    join s = NotJoining → ctxDone s = true → step Enabled s (with_factory s (factoryShutdown (factory s)) (pc s) ShuttingDown)
| step_joined :
    join s = ShuttingDown → running (factory s) = false → step Enabled s (with_factory s (factory s) (pc s) Joined).

End Informers.

(** ** Lemmas: informers *)
Section informers_lemmas.
Import Elector Informers.
Implicit Types s : Informers.state.

(** A context in which informers may run: that of the process without an elector, and otherwise the one of a lease that was acquired. *)
Definition allowed s (c : awaited) : Prop :=
  match electorOpt s with
  | None => c = ParentOnly
  | Some e => c = UntilLeaseDone ∧ onStarted e = Called
  end.

Record informers_inv s : Prop := {
  inf_elector : ∀ e, electorOpt s = Some e → elected_inv e ∧ (electorRun s = false → e = newState);
  inf_pc : match pc s with StartFactory c => allowed s c | CloseStarted | Finished => ∃ c, allowed s c | _ => True end;
  inf_running : running (factory s) = true → (pc s = CloseStarted ∨ pc s = Finished) ∧ ∃ c, stopCh (factory s) = Some c ∧ allowed s c;
  inf_started : started s = true ↔ pc s = Finished;
  inf_shutdown : join s ≠ NotJoining → shuttingDown (factory s) = true ∧ ctxDone s = true;
  inf_joined : join s = Joined → running (factory s) = false
}.

Lemma elected_called e e' : elected_inv e → Elector.step e e' → onStarted e = Called → onStarted e' = Called.
Proof.
  intros [_ H2 _] Hstep Hc. destruct Hstep as [Hr|Hr|Hr|Hr|Hr]; cbn; try congruence.
  rewrite Hr in H2. destruct H2 as [H2 _]. congruence.
Qed.
Lemma await_called e c err : elected_inv e → inl c ∈ Await (elector e) err → c = UntilLeaseDone ∧ onStarted e = Called.
Proof.
  intros [-> _ _]. unfold Await, elector_of. cbn. destruct (onStarted e), err; cbn; set_solver.
Qed.

(** A step of the elector. *)
Lemma inf_with_elector s e e' ran :
  informers_inv s → electorOpt s = Some e → elected_inv e' → (onStarted e = Called → onStarted e' = Called) → ran = true →
  informers_inv (with_elector s e' ran).
Proof.
  intros [H1 H2 H3 H4 H5 H6] He He' Hc ->. assert (Hall : ∀ c, allowed s c → allowed (with_elector s e' true) c).
  { intros c. unfold allowed. cbn. rewrite He. intros [-> ?]. split; [done|by apply Hc]. }
  split; cbn; try done.
  - by intros ? [= <-].
  - destruct (pc s); try done; [by apply Hall|destruct H2 as [c ?]; exists c; by apply Hall..].
  - intros Hr. destruct (H3 Hr) as (Hpc & c & Hs & Ha). split; [done|]. exists c. split; [done|]. by apply Hall.
Qed.

Lemma inf_step s s' : informers_inv s → Informers.step true s s' → informers_inv s'.
Proof.
  intros Hinv Hstep. pose proof Hinv as [H1 H2 H3 H4 H5 H6].
  destruct Hstep as [e hostname lock new He Hr|e e' He Hr Hs| |Hpc|e c Hpc He Ha|e err Hpc He Ha|c Hpc|Hpc|c Hrun Hs Hc|Hj Hc|Hj Hr].
  - destruct (H1 e He) as [_ He0]. rewrite (He0 Hr) in *. eapply inf_with_elector; [done|exact He|apply elected_inv_run|done|done].
  - destruct (H1 e He) as [Hei _].
    eapply inf_with_elector; [done|exact He|by eapply elected_inv_step|intros ?; by eapply elected_called|done].
  - split; cbn; try done. intros Hj. by destruct (H5 Hj).
  - split; cbn; try done.
    + unfold allowed. cbn. by destruct (electorOpt s).
    + intros Hr. destruct (H3 Hr) as [[?|?] _]; congruence.
    + rewrite H4, Hpc. destruct (electorOpt s); split; discriminate.
  - split; cbn; try done.
    + unfold allowed. cbn. rewrite He. destruct (H1 e He) as [Hei _]. by eapply await_called.
    + intros Hr. destruct (H3 Hr) as [[?|?] _]; congruence.
    + rewrite H4, Hpc. split; discriminate.
  - split; cbn; try done.
    + intros Hr. destruct (H3 Hr) as [[?|?] _]; congruence.
    + rewrite H4, Hpc. split; discriminate.
  - rewrite Hpc in *. assert (Hstop : running (factory s) = false).
    { destruct (running (factory s)) eqn:Hr; [|done]. destruct (H3 eq_refl) as [[?|?] _]; discriminate. }
    split; cbn; try done.
    + exists c. exact H2.
    + intros Hr. split; [by left|]. unfold factoryStart in *. destruct (shuttingDown (factory s)); [congruence|]. cbn. by exists c.
    + rewrite H4. split; discriminate.
    + intros Hj. destruct (H5 Hj) as [Hsd ?]. unfold factoryStart. by rewrite Hsd.
    + intros Hj. unfold factoryStart. destruct (H5 ltac:(congruence)) as [-> _]. done.
  - rewrite Hpc in *. split; cbn; try done. intros Hr. destruct (H3 Hr) as [_ ?]. split; [by right|done].
  - split; cbn; try done.
  - split; cbn; done.
  - split; cbn; try done. intros _. apply H5. congruence.
Qed.

Lemma inf_reachable hasElector s : rtc (Informers.step true) (Informers.init hasElector) s → informers_inv s.
Proof.
  assert (H0 : informers_inv (Informers.init hasElector)).
  { split; cbn; try done. destruct hasElector; [|done]. intros e [= <-]. split; [by split|done]. }
  intros Hsteps. induction Hsteps as [|s1 s2 s3 Hstep _ IH]; [done|]. by eapply IH, inf_step.
Qed.

(** A factory that is shut down and has no informers stays so. *)
Lemma stays_down Enabled s s' :
  rtc (Informers.step Enabled) s s' → shuttingDown (factory s) = true → running (factory s) = false → running (factory s') = false.
Proof.
  induction 1 as [|s1 s2 s3 Hstep _ IH]; [done|]. intros Hd Hr. apply IH; destruct Hstep; cbn; try done;
    unfold factoryStart; by rewrite Hd.
Qed.

End informers_lemmas.

(** ** Lemmas: clients and electors *)
Section client_lemmas.
Context {Float Rest Kube Podseidon : Type}.
Import Client.

(** Both clients of a cluster have the configuration that the options say: what is not set is as it was built. *)
Lemma client_as_configured (float32 : Float → Float) agent (Build : string → string → Config Float Rest + error)
    (NewKube : Config Float Rest → Kube + error) (NewPodseidon : Config Float Rest → Podseidon + error) options st :
  init float32 agent Build NewKube NewPodseidon options = inl st →
  ∃ config, Build (MasterUrl options) (KubeconfigPath options) = inl config ∧
    NewKube (restConfig st) = inl (kubeClientSet st) ∧ NewPodseidon (restConfig st) = inl (podseidonClientSet st) ∧
    others (restConfig st) = others config ∧ QPS (restConfig st) = float32 (Qps (global options)) ∧
    AcceptContentTypes (restConfig st) = "application/vnd.kubernetes.protobuf,application/json" ∧
    (ImpersonateUsername (global options) = "" → ImpersonateUserName (restConfig st) = ImpersonateUserName config) ∧
    (ImpersonateUsername (global options) ≠ "" → ImpersonateUserName (restConfig st) = ImpersonateUsername (global options)) ∧
    (ImpersonateGroups (global options) = [] → ImpersonateGroups_ (restConfig st) = ImpersonateGroups_ config) ∧
    (ImpersonateGroups (global options) ≠ [] → ImpersonateGroups_ (restConfig st) = ImpersonateGroups (global options)).
Proof.
  unfold init. destruct (Build _ _) as [config|]; [|done]. destruct (NewKube _) as [kube|] eqn:Hkube; [|done].
  destruct (NewPodseidon _) as [podseidon|] eqn:Hpod; [|done]. intros [= <-]. exists config. cbn. do 6 (split; [done|]).
  split; [intros ->; by rewrite bool_decide_eq_false_2 by auto|]. split; [intros ?; by rewrite bool_decide_eq_true_2|].
  split; [by intros ->|]. by destruct (ImpersonateGroups (global options)).
Qed.

(** The two client sets of a mock share its objects between them, in order. *)
Lemma MockClient_splits {Object} (GroupVersion : Object → string * string) gv (config : Config Float Rest)
    (fakeKube : list Object → Kube) (fakePodseidon : list Object → Podseidon) objects :
  ∃ client, MockClient GroupVersion gv config fakeKube fakePodseidon objects = Ret client ∧
    PodseidonClientSet client = fakePodseidon (filter (λ obj, GroupVersion obj = gv) objects) ∧
    NativeClientSet client = fakeKube (filter (λ obj, GroupVersion obj ≠ gv) objects) ∧ TargetNamespace client = "".
Proof.
  assert (Hf : ∀ (P : Object → Prop) `{!∀ x, Decision (P x)},
    Iter.CollectSlice (Iter.Filter (Iter.FromSlice objects) (λ obj, bool_decide (P obj))) = Ret (filter P objects)).
  { intros P HP. rewrite (visits_CollectSlice _ (filter (λ obj, bool_decide (P obj) = true) objects)).
    - f_equal. apply list_filter_iff. intros obj. apply bool_decide_eq_true.
    - apply drains_visits, drains_Filter. left. apply FromSlice_pushes. }
  unfold MockClient. rewrite !Hf. eexists. by split.
Qed.
End client_lemmas.

(** The check of an elector waits until it was started, fails with the lease, and dereferences nil if it could not be started. *)
Lemma elector_health {LeaderElector : Type} (options : ElectorComponent.ElectorOptions) (hostname lock : option error)
    (new : LeaderElector + error) (Check_ : LeaderElector → option error) :
  let l := ElectorComponent.init (LeaderElector := LeaderElector) options in
  ∃ err l', ElectorComponent.Start options hostname lock new l = Ret (err, l') ∧
    (ElectorComponent.Enabled options = false → err = None ∧ ElectorComponent.HealthCheck Check_ l' = None) ∧
    (ElectorComponent.Enabled options = true → ElectorComponent.HealthCheck Check_ l = Some None ∧
      match err with
      | None => ∃ e, new = inl e ∧ ElectorComponent.HealthCheck Check_ l' = Some (Some (Ret (taggedError "ElectorTimeout" <$> Check_ e)))
      | Some _ => ∃ msg, ElectorComponent.HealthCheck Check_ l' = Some (Some (Panic msg))
      end).
Proof.
  unfold ElectorComponent.init, ElectorComponent.Start. destruct (ElectorComponent.Enabled options); cbn [negb].
  - destruct (Elector.runErrors _ _ _) as [err|] eqn:Hrun.
    + eexists _, _. split; [done|]. split; [done|]. intros _. split; [done|]. cbn. eauto.
    + unfold Elector.runErrors in Hrun. destruct hostname, lock, new as [elector|?]; try done. eexists _, _. split; [done|]. split; [done|].
      intros _. split; [done|]. cbn. exists elector. split; [done|]. by destruct (Check_ elector).
  - eexists _, _. split; [done|]. by split.
Qed.

(** ** Properties *)

(** C35. Only a leader watches: the informers of a component with an elector that is enabled run only after the lease was acquired, in a context that
    is done when the lease is, so that they run under the lease or are told to stop; [started] is closed only then. Without an
    elector they run in the context of the process. Once [Join] has returned no informer runs, and none will. *)
Theorem informers_need_lease (hasElector : bool) (s : Informers.state) :
  rtc (Informers.step true) (Informers.init hasElector) s →
  (Informers.running (Informers.factory s) = true →
    match Informers.electorOpt s with
    | Some e => Elector.onStarted e = Elector.Called ∧ Informers.stopCh (Informers.factory s) = Some Elector.UntilLeaseDone ∧
        (Elector.run e = Elector.Leader ∨ Informers.done_ctx s Elector.UntilLeaseDone = true)
    | None => Informers.stopCh (Informers.factory s) = Some Elector.ParentOnly
    end) ∧
  (Informers.started s = true → ∀ e, Informers.electorOpt s = Some e → Elector.onStarted e = Elector.Called) ∧
  (Informers.join s = Informers.Joined →
    ∀ s', rtc (Informers.step true) s s' → Informers.running (Informers.factory s') = false).
Proof.
  intros Hsteps. pose proof (inf_reachable hasElector s Hsteps) as Hinv. split; [|split].
  - intros Hr. destruct (inf_running _ Hinv Hr) as (_ & c & Hc & Ha). unfold allowed in Ha.
    destruct (Informers.electorOpt s) as [e|] eqn:He; [|by subst]. destruct Ha as [-> Hcalled]. split; [done|]. split; [done|].
    destruct (inf_elector _ Hinv e He) as [[_ Hrun _] _]. unfold Informers.done_ctx. rewrite He. cbn.
    destruct (Elector.run e); [destruct Hrun; congruence..|by left|right]. rewrite Hrun, Hcalled. apply orb_true_r.
  - intros Hst e He. apply (inf_started _ Hinv) in Hst. pose proof (inf_pc _ Hinv) as Hpc. rewrite Hst in Hpc.
    destruct Hpc as [c Ha]. unfold allowed in Ha. rewrite He in Ha. by destruct Ha.
  - intros Hj s' Hs'. eapply stays_down; [exact Hs'|apply (inf_shutdown _ Hinv); congruence|by apply (inf_joined _ Hinv)].
Qed.

(** The informers of a generator that has just become the leader. *)
Lemma informers_need_lease_witness :
  ∃ s, rtc (Informers.step true) (Informers.init true) s ∧ Informers.running (Informers.factory s) = true ∧
    Informers.stopCh (Informers.factory s) = Some Elector.UntilLeaseDone.
Proof.
  assert (Hsteps : ∃ s, rtc (Informers.step true) (Informers.init true) s ∧ Informers.running (Informers.factory s) = true ∧
    is_Some (Informers.electorOpt s)).
  { eexists. split; [|split]; [|shelve|shelve].
    eapply rtc_l; [by eapply (Informers.step_run_elector true _ _ None None None)|]. cbn.
    eapply rtc_l; [by eapply Informers.step_spawn|]. cbn.
    eapply rtc_l; [eapply Informers.step_elector; [done..|by apply Elector.step_acquire]|]. cbn.
    eapply rtc_l; [eapply Informers.step_elector; [done..|by apply Elector.step_set_close]|]. cbn.
    eapply rtc_l; [eapply Informers.step_elector; [done..|by apply Elector.step_close_elected]|]. cbn.
    eapply rtc_l; [eapply Informers.step_await; [done..|by left]|]. cbn.
    eapply rtc_l; [by eapply Informers.step_start|]. cbn. apply rtc_refl.
    Unshelve. all: cbn; eauto. }
  destruct Hsteps as (s & Hs & Hr & [e He]). exists s. split; [exact Hs|]. split; [exact Hr|].
  pose proof (proj1 (informers_need_lease true s Hs) Hr) as Hlease. rewrite He in Hlease. apply Hlease.
Defined.
